(* ===== verification/_CoqProject ===== *)
-Q . S2P
Prelude.v
RustStr.v
Json.v
Shell.v
LexPath.v
Rules.v
Policy.v
PolicySafety.v
ShellWords.v
ShellAccess.v
ShellPathSafety.v
ShellAccessSafety.v
GatePreflight.v
PatchParser.v
PatchApply.v
PatchTool.v
BreakerConfig.v
Breaker.v
BreakerSafety.v
RouteTypes.v
RouteResolve.v
RouteSafety.v
NetFilter.v
WebFetch.v
HashIter.v
CoordTypes.v
Coordinator.v
CoordView.v
CoordInv.v
CoordSweep.v
CoordCalm.v
CoordSafety.v
CoordFifo.v
HashAnchor.v
HashEdit.v
HashEditSafety.v
HashEditRefine.v
HashTool.v
HashToolSafety.v
Utf8.v
HunkTypes.v
HunkDiff.v
HunkPatch.v
HunkTracker.v
HunkActor.v
HunkLoc.v
HunkWorld.v
HunkInv.v
HunkSafety.v
HunkReach.v
HunkSettle.v
ExecRisk.v
AutoRisk.v
AutoMode.v
Prompter.v
PermState.v
ManagerBash.v
Manager.v
ManagerCourse.v
ManagerDemo.v
AutoModeSafety.v
ManagerEval.v
ManagerSafety.v
ManagerRun.v
ManagerTrace.v
Conversation.v
ConversationPairing.v
SamplingErr.v
SampleEvents.v
SampleStream.v
SamplerTask.v
SamplerSafety.v
SamplerEnd.v
SamplerView.v
SamplerWitness.v
SamplerActor.v
ChatState.v
ChatRequest.v
ChatSafety.v
ChatRequestSafety.v
