(* ===== verification/Prelude.v ===== *)
(** Medley: a verification of the decision-making core of the coding agent

    Medley is a terminal coding agent.  A model proposes tool calls; a permission manager
    decides which may run, from rules, the user's grants, a classifier and prompts; a sampler
    streams the model's answers, with retries, and a chat state keeps the conversation and
    builds the requests; tools
    such as [apply_patch] change the workspace, and a tracker attributes the changes to
    turns, to be accepted or rejected; subagents are started by a coordinator, on model
    routes chosen from a catalog; pages are fetched from the web behind an address filter;
    and calls to backends pass through a circuit breaker.
    This library models those subsystems from their Rust source
    (paths below are under src/crates/) and proves what makes them correct.  Definitions
    carry the names of the functions they translate, and all of them compute.

    * The parts, and the files that model them

    Shared.  This file: [result] (Rust's [Result]) with the [?] operator as [let?]/[do?],
    the tactics [case_goal], [case_hyp], [bool_to_prop] and [inv_ok], the hint database
    [medley], list and arithmetic lemmas.  RustStr: [str] is a list of Unicode scalar values, with the
    operations of Rust's [str] the source uses (trim, split, lines, strip_prefix, join,
    integer parsing with overflow).  Json: [serde_json::Value], with objects in the order
    of a [BTreeMap] or of insertion.

    Permission policy (codegen/xai-grok-workspace/src/permission/).
    - Shell: bash_command_splitting.rs.  Module [Argv] peels wrappers (timeout, nice, env,
      ...) and transparent prefixes (exec, command, builtin) from an argument vector and
      raises fail-closed flags; Module [Script] decomposes a parsed script into plain
      commands through the allow-list of node kinds.
    - LexPath: the part of [std::path] the policy uses and [normalize_lexically] of
      codegen/xai-grok-paths/src/lib.rs.
    - Rules: types.rs and rules.rs: the rule vocabulary, [parse_permission_rule], and the
      default permission modes.
    - Policy: policy.rs: matching of rules, [evaluate_with_cwd], the allow chain
      [bash_chain_fully_allowed] and the bash gate [evaluate_bash_command_gate].
    - PolicySafety: the theorems.  [gate_is_worst_finding]: the gate reports the worst
      finding of a script, nested [sh -c] scripts included.  [bash_grant_is_conjunctive]:
      a bash grant means that every command the script runs is allowed.
      [evaluate_precedence] and [rule_order_irrelevant]: deny before ask before allow,
      whatever the order of the rules.  [relative_spellings_contained]: relative spellings
      of a path are offered only inside the working directory.  In Shell,
      [normalize_finds_command] (peeling is confluent and complete when trusted) and
      [decomposition_complete]; in Rules, [parse_rule_text] (print and parse).
    - ShellWords and ShellAccess: shell_access.rs, the gate that holds the files a shell
      command touches against the rules for the file tools.  ShellWords: the commands,
      redirects and directory changes of a syntax tree, their execution scopes, and the
      operands of known programs; ShellAccess: operand paths, symbolic links, the gate
      [evaluate_shell_file_access_gate] and the protected edit targets.
    - ShellPathSafety: [lexical_normalize_same_file] and [resolved_path_is_real].
      ShellAccessSafety: [file_gate_is_worst_operand] (the gate answers with the worst of
      the operands it is given by an independent description of them, [operand]) and
      [denied_file_is_rejected].
    - GatePreflight: gate_preflight.rs, the composition of Policy and ShellAccess for one
      request; [preflight_composes].

    Permission manager (the same directory): the actor that answers every request for
    permission, on top of GatePreflight.
    - ExecRisk: exec_risk.rs, options and git configurations that make a program run another.
      AutoRisk and AutoMode: auto_mode/, the findings of the static analysis, the rules for
      routine commands and the classifier with the prompt it sends to a model.  Prompter:
      prompter.rs and hub_permission.rs, the options of a prompt and what an answer means.
      PermState: state.rs, the grants and the loading of their file.
    - ManagerBash and Manager: manager/.  ManagerBash evaluates a script command by command
      against grants and safe lists; Manager is the decision sequence of one request
      ([handle_request]: a function of the actor, the request and its [Surroundings], with
      the event, the answer and the states handed to the writer as result), every other
      command ([actor_step]), and the handles.  A call on a handle is its atomic stores and
      sends ([call_atoms]), and [sstep] interleaves those of any number of calls with the
      actor's commands and the actor's own stores ([command_stores]).
    - ManagerCourse: the ways in which a request comes to its answer, one case each;
      ManagerEval: what the evaluation of a script means; ManagerRun: what a step can change;
      ManagerDemo: a concrete environment.
    - ManagerSafety, on one request: [managed_deny_is_final], [standing_grants_cover],
      [floors_need_judgement] (what no grant can cover), [ask_rules_bind],
      [unremembered_answers].  ManagerTrace, on every run: [modes_agree], [denial_budget],
      [grants_are_the_users].  AutoModeSafety: [classifier_prompt_unforged] and
      [classifier_allow_provenance].

    Patch tool (codegen/xai-grok-tools/src/implementations/codex/apply_patch/).
    - PatchParser: parser.rs; round trip [patch_round_trip] and [parser_terminates].
    - PatchApply: seek_sequence.rs and apply.rs; [seek_sequence_spec],
      [derive_replaces_blocks] (an update refines the splice of disjoint blocks),
      [derive_never_panics].
    - PatchTool: tool.rs against the interface [FileSystem]; [run_success],
      [run_failure_changes_nothing], [run_frame].

    Hashline tools (codegen/xai-grok-tools/src/implementations/grok_build_hashline/): files
    are read and searched with an anchor in front of each line, and edited by naming anchors.
    - HashAnchor: scheme.rs, anchor.rs, config.rs and src/util/hash.rs.  The trait
      [AnchorScheme] is a class, and the class [SchemeLaws] is what the edit tool relies on;
      the three schemes are shown to satisfy it ([content_only_laws], [chunk_laws],
      [checkpoint_laws]), and every theorem below holds for any scheme that does.
    - HashEdit: edit/apply.rs, edit/types.rs, edit/range_policy.rs.  HashEditSafety: what an
      anchor names, what an operation means ([names], [means]) and when edits overlap.
      HashEditRefine: [edits_splice_blocks] (a batch refines the splice of disjoint blocks,
      the same specification as for patches), [anchors_round_trip], [find_shifted_exact].
    - HashTool: edit/mod.rs and grep.rs, on [resolve_model_path] of src/types/resources.rs,
      which is the last part of LexPath.
      HashToolSafety: [edit_run_outcome] (against the interface [FileSystem] of PatchTool)
      and [grep_anchors_accepted] (what the search prints, the edit accepts).

    Hunk tracker (codegen/xai-hunk-tracker/src/): an actor that keeps, for every tracked file,
    a baseline and the content, and the changes between them as hunks that belong to a turn
    of the agent or to the user.
    - Utf8: [String::from_utf8].  HunkTypes: types.rs, events.rs, actor/state.rs and
      actor/file_utils.rs.  HunkDiff: diff.rs.  HunkTracker: the state ([Tracker]: the
      actor's fields with the disk, the events sent and the supply of ids) and the
      operations of actor/hunks.rs, git.rs, mutations.rs and actions.rs, as functions on
      it.  HunkActor: queries.rs, commands.rs and mod.rs, with the coalescing of queued
      commands and the loop ([actor_turn]).  HunkLoc: loc/mod.rs.
    - HunkPatch: [hunks_are_diff] (the hunks refine the splice of disjoint blocks, once
      more, in both directions).  HunkInv and HunkSafety: the invariant and that every
      operation keeps it.  HunkReach: over every sequence of turns, restored snapshots and
      changes of the world, [tracker_invariant] and [turn_query_exact].  HunkSettle:
      [accept_file_settles] and [reject_file_settles].  In HunkLoc, [loc_records_balance].
      HunkWorld: a host in memory, for witnesses and for examples of whole runs.

    Circuit breaker (common/xai-circuit-breaker/src/).
    - BreakerConfig: config.rs, retry_policy.rs, grpc.rs; [env_config_usable],
      [retry_presets].
    - Breaker: window.rs, state.rs, breaker.rs, observer.rs, registry.rs.  A call is a
      program of atomic steps ([prog]): one step per atomic load, store, compare-exchange
      or mutex section, as in the source.  [exec] runs a call alone, [cstep] interleaves
      the calls of any number of threads, [schedule] computes one interleaving.
    - BreakerSafety: [calls_refine_state_machine] (each call against an abstract state
      machine), [breaker_invariant], [breaker_recovers], and for concurrent use
      [interleaving_safe], [mirror_can_stay_stale] and [probe_count_can_underflow].

    Native routes (codegen/xai-grok-subagent-resolution/src/native_route/).
    - RouteTypes: types.rs; [canonical_payload_faithful].
    - RouteResolve: resolve.rs and inspect.rs.
    - RouteSafety: [exact_never_falls_back], [ordered_first_eligible],
      [resume_is_pinned], [receipts_are_publishable], [fallback_admission_exact].

    Subagent coordinator (codegen/xai-grok-tools/src/implementations/grok_build/task/).
    - CoordTypes: the records and messages of types.rs and coordinator_state.rs, and
      admission.rs.  Coordinator: coordinator.rs, queue.rs, spawn.rs and query.rs.  The
      actor is its only writer, so a handler is a function on the state [Coordinator];
      what leaves the actor is appended to [log].  [turn] is one round of the loop of [run]
      for any event that may be ready, [surroundings] what happens around it (time passes,
      a token is cancelled, a receiver is dropped), [cstep] either.
    - CoordView, CoordInv, CoordSweep, CoordCalm: the view of the state the invariant speaks
      of, the invariant and the moves of a child that keep it, the queued sweep, and the
      handlers that move no child.
    - CoordSafety, after a concrete host for examples: over every sequence of steps,
      [capacity_invariant] (the limit holds and no slot stays free while a spawn waits),
      [registry_well_formed], [exit_leaves_nothing] (the debug assertion of [run], and every caller answered once)
      and [stopped_session_starts_nothing].  CoordFifo: [finish_starts_oldest].

    Web fetch (codegen/xai-grok-tools/src/implementations/grok_build/web_fetch/).
    - NetFilter: ssrf.rs with the part of [std::net] it uses; [non_public_exact] (the bit
      tests are exactly the special-purpose blocks).
    - WebFetch: domain.rs, cache.rs and, of client.rs, URL validation, the https upgrade
      and the redirect loop, in a state and error monad with a log of what reached the
      network.  [fetch_requests_cleared]: no request before its target was cleared, also
      when names are rebound between hops.  [fetch_stays_on_host], [domain_matcher_exact],
      [cache_serves_latest].

    Sampler (codegen/xai-grok-sampler/src/ and codegen/xai-grok-sampling-types/src/): a
    request to the model, from the raw stream of the provider to the events and the answer.
    - Conversation: conversation.rs (items, tool calls and their results, images, empty
      responses, the cut at a prompt) and the history repair of
      codegen/xai-chat-state/src/compaction_utils.rs.  ConversationPairing: the index loops of
      the repairs against one-pass descriptions ([fill], [dedup]), and
      [repair_history_pairs].
    - SamplingErr: error.rs.
    - SampleEvents: doom_loop.rs of both crates (the server's reports of repetition), events.rs,
      metrics.rs, stream/collect.rs, and the loop that the three transforms share
      ([l2_loop]: a raw stream is its items with the waits before them, and a transform the
      events it yields).  SampleStream: Modules [Chat], [Responses] and
      [Messages], stream/*.rs as the accumulators, the step of an item and the end of the
      stream, and the decoder of frames of client.rs.  SamplerSafety: [streams_end_once],
      [error_bodies_not_echoed] and [retry_waits_bounded].
    - SamplerTask: retry.rs and actor/request_task.rs.  An attempt, a pass through the retry
      loop ([task_step]) and the loop ([task_loop]) yield the requests sent, the events and
      the completion as [Action]s in their order.  SamplerEnd and SamplerView:
      [request_task_settles] (a measure of what the budgets leave falls with each pass), [accepted_response_is_sound], [no_resend_after_output] and
      [consumer_sees_accepted_response] (the events, watched by a screen, refine the answer).
      SamplerWitness: a world in which the hypotheses hold.  SamplerActor: actor/mod.rs and
      actor/state.rs, with [registry_is_exact].

    Chat state (codegen/xai-chat-state/src/): the actor that owns the conversation.
    - ChatState: the bound on tool results in actor/mutations.rs, then the rest of that file,
      actor/state.rs, usage.rs, conversation_util.rs, snapshots and rewind
      of actor/queries.rs, and xai-token-estimation; [Chat] is the actor with
      the records it wrote to its persistence and the events it sent.  ChatRequest:
      actor/request_builder.rs, actor/queries.rs and the commands of actor/mod.rs.
    - ChatSafety: [disk_follows_memory] and [stored_result_is_bounded].  ChatRequestSafety:
      [request_answers_every_call] (on the repairs of ConversationPairing),
      [images_go_oldest_first], [recent_turns_are_kept] and [capture_returns_the_turn].

    * Code outside the repository

    What the source calls in third-party crates, in the operating system or in generated
    code is a parameter, and the theorems hold for every value of it that satisfies the
    stated laws.  [Policy.PolicyEnv]: the glob matcher, the URL parser, the tree-sitter
    bash parser, Unicode lower-casing (no laws needed).  [PatchTool.FileSystem] with
    [FileSystemLaws]: an operation touches only the path it names, and a successful write
    is read back; a [gmap] instance discharges the laws.  The section variables of
    [HashTool.hashline_run]: canonical paths, the home directory, the search for a file name
    that looks alike and the text for a missing file (no laws needed).  [RouteResolve.RouteEnv]: JSON
    serialization and SHA-256 (no laws needed).  [WebFetch.WebEnv] with [WebEnvLaws]: the
    url crate, name resolution and HTTP over a world that may change at every call; the
    laws are that [set_scheme] keeps the host and turns http into https.
    [ShellWords.TreeFields]: the named fields of tree-sitter nodes (a field is a child).
    [ShellAccess.FileSystem]: link metadata, [canonicalize] and the home directory of the
    configuration, as they are during one evaluation; [resolved_path_is_real] needs that
    [canonicalize] leaves no link, which a concrete tree satisfies.
    [HunkTracker.Host]: the file system, git and the line diff, over a world that may change
    between operations; [HunkWorld.LineDiff] is the one law used, of the diff, that its two
    sides are the lines of the two texts, and [memory_host] satisfies it.
    [ExecRisk.GitWorld]: libgit2 and the files of a repository; [PermState.StateFiles]: the
    TOML reader and the files (no laws needed); [AutoMode.SerdeJson]: serde_json, with the one
    law that compact JSON has no line break.  The side query of the classifier and the client
    that answers a prompt are any [SideQuery] and any [PromptReply].
    [SamplingErr.ErrorEnv]: the reading of error bodies as UTF-8 and JSON, and the texts of
    status codes and serde errors; [SampleStream.Responses.WireEnv]: what serde derives for the wire
    types; [ChatRequest.ChatEnv]: the lengths of JSON encodings, with
    [ChatRequestSafety.ChatEnvLaws] for the true size of a request: exchanging a content part
    changes the length by the difference of the two parts.
    [SamplerTask.SamplerWorld]: the HTTP client, the hashes behind jitter, one environment
    variable and the moments of cancellation; the law [honest_client] is that the client
    itself fails only with errors of transport, decoding and the provider, never with the
    doom-loop error that the transforms make.
    [HashIter.HashOrder]: a hash map is iterated in some order of its entries.
    [Coordinator.ChildRunner]: what the host attaches to a finished child; its outputs,
    panics and the moments at which they arrive are left open by [turn].  [parse_f64] of
    BreakerConfig: [f64::from_str]; [instant_min] of Breaker: the earliest [Instant] of the
    platform.

    * Bounds, fuel and integers

    The depth limits of the shell analysis ([MAX_WRAPPER_DEPTH], [MAX_INLINE_SHELL_DEPTH],
    [MAX_TRANSPARENT_PREFIX_DEPTH], [MAX_NORMALIZE_ROUNDS]) are the constants of the source,
    with what the source does when they are exhausted.  Loops that are not structural take
    fuel: the patch parser's loops get the number of remaining lines, and
    [parser_terminates] shows that this is always enough; the walk over a syntax tree gets
    the number of its nodes, and [decomposition_complete] shows that it visits them all; the
    redirect loop recurses on the redirects left ([MAX_REDIRECTS]); link resolution recurses
    on the links left ([MAX_SYMLINK_DEPTH], as the source counts them); the queued sweep of
    the coordinator calls itself through [finish_child] at most once, because of its latch,
    and [start_queued_depth] shows that more depth changes nothing; the stripping of escapes
    from a path takes a character or more each round ([strip_escapes_done]); the retry loop of a
    request takes as fuel one more than its two budgets, and [request_task_settles] shows that
    it ends within them; the loops of the history repair get the length of the conversation,
    or twice that where a position is visited again ([dedup_go_spec]).  [u64], [usize], [u32]
    and [u16] are [Z] or [N] with the wrap or the saturation of the operation used; [f64] is IEEE binary64 ([spec_float]).  Byte offsets
    of strings are positions in the list of scalar values: the source cuts only at ASCII
    characters, so both name the same split.  Panics ([Vec::insert] out of range) are
    [None].

    * What is not modelled

    In bash_command_splitting.rs the display helpers (soft line breaks, heredoc
    highlighting); in shell_access.rs the prose shown for a protected edit; of the permission
    manager the merging of settings files (resolution.rs, claude_settings.rs), the writer of
    the state file, what a prompt displays and the transport of the hub;
    in task/types.rs tool filtering by capability mode and the schemas of the task tool;
    the host side of the coordinator (how a child is run); native_route/ux.rs (display
    text); what web fetch does with a body it received (media files, HTML conversion,
    overflow artifacts); the hashline read and search tools around [format_hashline_content]
    and [inject_anchors], and their benchmark; metrics and tracing calls; and the rest of the agent (session
    runtime, terminal interface, MCP, sandbox, telemetry).  Of the sampler the building and
    sending of HTTP requests (client.rs, the wire formats in conversation/) and the upgrade of
    legacy session rows; of the chat state the file behind the persistence and the prompts of
    compaction.  Of the hunk tracker the
    handle, which sends one message per call, the JSONL writer of the line counts and the
    unified diffs for display.  Candidates for extension, in order: the merging of
    permission settings (resolution.rs), the wire formats of the providers and the prompt
    queue. *)
From Stdlib Require Export ZArith NArith Lia Sorted.
From stdpp Require Export prelude.

(** Comparisons of characters stay folded under [simpl]. *)
#[global] Arguments N.eqb : simpl never.

(** * Results: the model of [Result<T, E>] *)

Inductive result (T E : Type) : Type :=
| Ok (t : T)
| Err (e : E).
Arguments Ok {T E} _.
Arguments Err {T E} _.

Declare Scope medley_scope.
Delimit Scope medley_scope with medley.

Definition rbind {T U E} (r : result T E) (k : T → result U E) : result U E :=
  match r with Ok t => k t | Err e => Err e end.

Definition rmap_err {T E F} (f : E → F) (r : result T E) : result T F :=
  match r with Ok t => Ok t | Err e => Err (f e) end.

(** [let? x := e in k] is the [?] operator: an [Err] leaves the function. *)
Notation "'let?' x ':=' e 'in' k" := (rbind e (fun x => k))
  (at level 10, x pattern, e at level 200, k at level 200) : medley_scope.
Notation "'do?' e ';' k" := (rbind e (fun _ => k))
  (at level 10, e at level 200, k at level 200) : medley_scope.
Open Scope medley_scope.

Global Instance result_eq_dec {T E} `{EqDecision T, EqDecision E} : EqDecision (result T E).
Proof. solve_decision. Defined.

Definition is_ok {T E} (r : result T E) : bool :=
  match r with Ok _ => true | Err _ => false end.

Lemma rbind_Ok {T U E} (r : result T E) (k : T → result U E) u :
  rbind r k = Ok u ↔ ∃ t, r = Ok t ∧ k t = Ok u.
Proof. destruct r; simpl; split; [eauto|intros (? & [= ->] & ?); done|done|by intros (? & ? & ?)]. Qed.

Lemma rbind_Err {T U E} (r : result T E) (k : T → result U E) e :
  rbind r k = Err e ↔ r = Err e ∨ ∃ t, r = Ok t ∧ k t = Err e.
Proof.
  destruct r as [t|e']; simpl; split.
  - intros Hk. right. by exists t.
  - intros [Hr|(t' & Hr & Hk)]; congruence.
  - intros [= ->]. by left.
  - intros [Hr|(t' & Hr & Hk)]; congruence.
Qed.

Lemma rmap_err_Ok {T E F} (f : E → F) (r : result T E) t :
  rmap_err f r = Ok t ↔ r = Ok t.
Proof. destruct r; simpl; split; congruence. Qed.

(** * Automation *)

Create HintDb medley discriminated.

(** Case analysis on the scrutinee of a match or conditional of the goal or of a
    hypothesis, remembering the equation. *)
Ltac case_goal :=
  match goal with
  | |- context [match ?x with _ => _ end] => destruct x eqn:?
  end.
Ltac case_hyp H :=
  match type of H with
  | context [match ?x with _ => _ end] => destruct x eqn:?
  end.

(** Break conjunctions of booleans into hypotheses and turn boolean comparisons into
    the propositions they decide. *)
Ltac bool_to_prop :=
  repeat match goal with
  | H : _ && _ = true |- _ => apply andb_true_iff in H; destruct H
  | H : _ || _ = false |- _ => apply orb_false_iff in H; destruct H
  | H : negb _ = true |- _ => apply negb_true_iff in H
  | H : negb _ = false |- _ => apply negb_false_iff in H
  | H : bool_decide _ = true |- _ => apply bool_decide_eq_true in H
  | H : bool_decide _ = false |- _ => apply bool_decide_eq_false in H
  | H : (_ <? _)%nat = true |- _ => apply Nat.ltb_lt in H
  | H : (_ <? _)%nat = false |- _ => apply Nat.ltb_ge in H
  | H : (_ <=? _)%nat = true |- _ => apply Nat.leb_le in H
  | H : (_ <=? _)%nat = false |- _ => apply Nat.leb_gt in H
  | H : (_ =? _)%nat = true |- _ => apply Nat.eqb_eq in H
  | H : (_ =? _)%nat = false |- _ => apply Nat.eqb_neq in H
  | H : (_ <? _)%Z = true |- _ => apply Z.ltb_lt in H
  | H : (_ <? _)%Z = false |- _ => apply Z.ltb_ge in H
  | H : (_ <=? _)%Z = true |- _ => apply Z.leb_le in H
  | H : (_ <=? _)%Z = false |- _ => apply Z.leb_gt in H
  | H : (_ =? _)%Z = true |- _ => apply Z.eqb_eq in H
  | H : (_ =? _)%Z = false |- _ => apply Z.eqb_neq in H
  | H : (_ =? _)%N = true |- _ => apply N.eqb_eq in H
  | H : (_ =? _)%N = false |- _ => apply N.eqb_neq in H
  end.

(** Invert successful runs of the error monad. *)
Ltac inv_ok :=
  repeat match goal with
  | H : rbind _ _ = Ok _ |- _ => apply rbind_Ok in H; destruct H as (? & ? & ?)
  | H : rmap_err _ _ = Ok _ |- _ => apply rmap_err_Ok in H
  | H : Ok _ = Ok _ |- _ => injection H as H; subst
  | H : Err _ = Ok _ |- _ => discriminate H
  | H : Ok _ = Err _ |- _ => discriminate H
  end.

(** * Generic list facts *)

Section Lists.
Context {A : Type}.
Implicit Types (l : list A) (P : A → bool).

(** [iter().position(p)] *)
Fixpoint position P l : option nat :=
  match l with
  | [] => None
  | x :: l => if P x then Some 0 else S <$> position P l
  end.

Lemma position_Some P l i :
  position P l = Some i ↔
  (∃ x, l !! i = Some x ∧ P x = true) ∧ ∀ j x, j < i → l !! j = Some x → P x = false.
Proof.
  revert i; induction l as [|y l IH]; intros i; simpl.
  - split; [done|]. intros [(x & Hx & _) _]. destruct i; done.
  - destruct (P y) eqn:Hy.
    + split.
      * intros [= <-]. split; [by exists y|]. intros; lia.
      * intros [(x & Hx & Hp) Hmin]. destruct i as [|i]; [done|].
        specialize (Hmin 0 y ltac:(lia) eq_refl). congruence.
    + rewrite fmap_Some. split.
      * intros (k & Hk & ->). apply IH in Hk as [Hx Hmin]. split; [done|].
        intros [|j] x Hj; simpl; [congruence|]. apply Hmin. lia.
      * intros [(x & Hx & Hp) Hmin]. destruct i as [|i]; simpl in Hx; [congruence|].
        exists i. split; [|done]. apply IH. split; [by exists x|].
        intros j z Hj Hz. apply (Hmin (S j) z); [lia|done].
Qed.

Lemma position_None P l : position P l = None ↔ Forall (λ x, P x = false) l.
Proof.
  induction l as [|y l IH]; simpl; [by split|].
  rewrite Forall_cons. rewrite <- IH. destruct (P y); simpl.
  - split; [done|by intros [? ?]].
  - destruct (position P l); simpl; split; [done|by intros [? ?]|done|done].
Qed.

Lemma position_lt P l i : position P l = Some i → i < length l.
Proof. intros ((x & Hx & _) & _)%position_Some. by eapply lookup_lt_Some. Qed.

Lemma existsb_find P l : existsb P l = true ↔ ∃ x, List.find P l = Some x.
Proof.
  induction l as [|y l IH]; simpl.
  - split; [done|by intros [? ?]].
  - destruct (P y); simpl; [|done]. split; [by exists y|done].
Qed.

Lemma existsb_elem P l : existsb P l = true ↔ ∃ x, x ∈ l ∧ P x = true.
Proof.
  rewrite existsb_exists. split; intros (x & Hx & HP); exists x; split; try done;
    by apply list_elem_of_In.
Qed.

Lemma existsb_perm P l l' : l ≡ₚ l' → existsb P l = existsb P l'.
Proof.
  intros Hp. apply eq_true_iff_eq. rewrite !existsb_elem. split; intros (x & Hx & HP);
    exists x; split; try done; [by rewrite <- Hp|by rewrite Hp].
Qed.

Lemma find_None P l : List.find P l = None ↔ ∀ x, x ∈ l → P x = false.
Proof.
  induction l as [|y l IH]; simpl.
  - split; [|done]. intros _ x Hx. by apply elem_of_nil in Hx.
  - destruct (P y) eqn:Hy.
    + split; [done|]. intros H. specialize (H y). rewrite H in Hy; [done|by left].
    + rewrite IH. split; intros Hl x; [|by intros Hx; apply Hl; right].
      rewrite elem_of_cons. intros [->|?]; auto.
Qed.

Lemma find_In P l x : List.find P l = Some x → x ∈ l ∧ P x = true.
Proof.
  induction l as [|y l IH]; simpl; [done|].
  destruct (P y) eqn:?; [intros [= ->]; split; [left|done]|].
  intros [? ?]%IH; split; [by right|done].
Qed.

Lemma elem_of_rev (x : A) l : x ∈ rev l ↔ x ∈ l.
Proof. rewrite rev_alt. apply elem_of_reverse. Qed.

Lemma sum_list_with_rev (f : A → nat) l : sum_list_with f (rev l) = sum_list_with f l.
Proof.
  induction l as [|x l IH]; simpl; [done|]. rewrite sum_list_with_app, IH. simpl. lia.
Qed.

(** [Iterator::filter] with a boolean predicate. *)
Lemma elem_of_filterb (P : A → bool) l x : x ∈ List.filter P l ↔ x ∈ l ∧ P x = true.
Proof. rewrite !list_elem_of_In. apply filter_In. Qed.
Lemma filterb_sublist (P : A → bool) l : sublist (List.filter P l) l.
Proof. induction l as [|x l IH]; simpl; [constructor|]. destruct (P x); by constructor. Qed.

(** A function without repeated values on a list is injective there. *)
Lemma NoDup_fmap_eq {B} (f : A → B) l x y : NoDup (f <$> l) → x ∈ l → y ∈ l → f x = f y → x = y.
Proof.
  intros Hnd [i Hi]%list_elem_of_lookup [j Hj]%list_elem_of_lookup E.
  assert (i = j) as ->; [|congruence].
  eapply (NoDup_lookup _ _ _ (f x) Hnd); rewrite list_lookup_fmap; [by rewrite Hi|by rewrite Hj, E].
Qed.
End Lists.

Lemma find_seq (P : nat → bool) a n i :
  a ≤ i < a + n → P i = true → (∀ j, a ≤ j < i → P j = false) →
  List.find P (seq a n) = Some i.
Proof.
  revert a; induction n as [|n IH]; intros a Hi HP Hmin; [lia|]. simpl.
  destruct (decide (a = i)) as [->|Hne]; [by rewrite HP|].
  rewrite Hmin by lia. apply IH; [lia|done|]. intros j Hj. apply Hmin. lia.
Qed.

Lemma find_rev_seq_last (P : nat → bool) n :
  P n = true → List.find P (rev (seq 0 (S n))) = Some n.
Proof. intros HP. rewrite seq_S, rev_app_distr. simpl. by rewrite HP. Qed.

(** * Stable sorting: the model of [sort_by_key] on a [usize] key *)

Section Sort.
Context {A : Type} (key : A → nat).

Fixpoint insert_by_key (x : A) (l : list A) : list A :=
  match l with
  | [] => [x]
  | y :: l' => if (key x <=? key y)%nat then x :: l else y :: insert_by_key x l'
  end.
Definition sort_by_key (l : list A) : list A := foldr insert_by_key [] l.

Lemma insert_by_key_perm x l : insert_by_key x l ≡ₚ x :: l.
Proof.
  induction l as [|y l IH]; simpl; [done|]. destruct (_ <=? _)%nat; [done|].
  rewrite IH. constructor.
Qed.

Lemma sort_by_key_perm l : sort_by_key l ≡ₚ l.
Proof.
  induction l as [|x l IH]; simpl; [done|].
  fold (sort_by_key l). by rewrite insert_by_key_perm, IH.
Qed.

(** Already sorted lists are left alone, as a stable sort leaves them. *)
Lemma sort_by_key_id l :
  StronglySorted (λ x y, key x ≤ key y) l → sort_by_key l = l.
Proof.
  induction 1 as [|x l Hl IH Hx]; simpl; [done|].
  fold (sort_by_key l). rewrite IH. destruct l as [|y l]; [done|]. simpl.
  apply Forall_cons in Hx as [Hxy _].
  destruct (Nat.leb_spec (key x) (key y)); [done|lia].
Qed.

Lemma insert_by_key_sorted x l :
  StronglySorted (λ x y, key x ≤ key y) l →
  StronglySorted (λ x y, key x ≤ key y) (insert_by_key x l).
Proof.
  induction 1 as [|y l Hl IH Hy]; simpl; [repeat constructor|].
  destruct (Nat.leb_spec (key x) (key y)).
  - constructor; [by constructor|]. constructor; [done|].
    eapply Forall_impl; [exact Hy|]. simpl. intros z Hz. lia.
  - constructor; [done|].
    rewrite insert_by_key_perm. constructor; [lia|done].
Qed.

Lemma sort_by_key_sorted l : StronglySorted (λ x y, key x ≤ key y) (sort_by_key l).
Proof. induction l; simpl; [constructor|by apply insert_by_key_sorted]. Qed.
End Sort.
