(* ===== verification/RustStr.v ===== *)
(** The text model.  A Rust [&str]/[String] is the list of its Unicode scalar values
    ([char]s), so [chars()], [trim()] and slicing after an ASCII prefix are list
    operations.  Functions the sources write on bytes are modelled here on scalar values
    only where the byte looked at is ASCII (an ASCII byte never occurs inside a longer
    UTF-8 sequence), which is said at each use.  The operations are those of the Rust
    standard library the modelled code calls. *)
From Stdlib Require Import String Ascii.
From S2P Require Import Prelude.
Local Open Scope N_scope.

Abbreviation char := N.
Abbreviation str := (list N).

(** ASCII literals. *)
Definition chr (c : ascii) : char := N_of_ascii c.
Definition lit (s : string) : str := List.map chr (list_ascii_of_string s).
Arguments lit s%_string_scope : simpl never.
Arguments chr c%_char_scope : simpl never.

Definition NL : char := 10.
Definition CR : char := 13.
Definition BACKSLASH : char := 92.
Definition SQUOTE : char := 39.
Definition DQUOTE : char := 34.

(** Equality of strings as a boolean, [a == b]. *)
Definition str_eqb (a b : str) : bool := bool_decide (a = b).
(** [matches!(s, "a" | "b" | ...)] *)
Definition one_of (s : str) (alts : list str) : bool := existsb (str_eqb s) alts.

Arguments str_eqb : simpl never.
Arguments one_of : simpl never.

(** [char::is_whitespace]: the Unicode [White_Space] property. *)
Definition is_whitespace (c : char) : bool :=
  ((9 <=? c) && (c <=? 13)) || (c =? 32) || (c =? 133) || (c =? 160) || (c =? 5760)
  || ((8192 <=? c) && (c <=? 8202)) || (c =? 8232) || (c =? 8233) || (c =? 8239)
  || (c =? 8287) || (c =? 12288).

Definition is_ascii_upper (c : char) : bool := (65 <=? c) && (c <=? 90).
Definition is_ascii_lower (c : char) : bool := (97 <=? c) && (c <=? 122).
Definition is_ascii_digit (c : char) : bool := (48 <=? c) && (c <=? 57).
Definition is_ascii_alphabetic (c : char) : bool := is_ascii_upper c || is_ascii_lower c.
Definition is_ascii_alphanumeric (c : char) : bool := is_ascii_alphabetic c || is_ascii_digit c.
Definition to_ascii_lower_char (c : char) : char := if is_ascii_upper c then c + 32 else c.
Definition to_ascii_lowercase (s : str) : str := List.map to_ascii_lower_char s.

Fixpoint drop_while (p : char → bool) (s : str) : str :=
  match s with
  | [] => []
  | c :: s' => if p c then drop_while p s' else s
  end.

Definition trim_start (s : str) : str := drop_while is_whitespace s.
Definition trim_end_matches (p : char → bool) (s : str) : str :=
  rev (drop_while p (rev s)).
Definition trim_end (s : str) : str := trim_end_matches is_whitespace s.
Definition trim (s : str) : str := trim_end (trim_start s).

(** [s.strip_prefix(p)] *)
Fixpoint strip_prefix (p s : str) : option str :=
  match p, s with
  | [], _ => Some s
  | a :: p', b :: s' => if a =? b then strip_prefix p' s' else None
  | _ :: _, [] => None
  end.
Definition starts_with (p s : str) : bool := bool_decide (is_Some (strip_prefix p s)).
Arguments starts_with : simpl never.
(** [s.strip_suffix(p)] *)
Definition strip_suffix (p s : str) : option str := @rev char <$> strip_prefix (rev p) (rev s).
Definition ends_with (p s : str) : bool := bool_decide (is_Some (strip_suffix p s)).

Definition contains_char (c : char) (s : str) : bool := existsb (N.eqb c) s.
(** [s.contains(p)] for a string pattern. *)
Fixpoint contains (p s : str) : bool :=
  starts_with p s || match s with [] => false | _ :: s' => contains p s' end.

(** [s.split(c)]: never empty. *)
Fixpoint split_on (c : char) (s : str) : list str :=
  match s with
  | [] => [[]]
  | x :: s' =>
      if x =? c then [] :: split_on c s'
      else match split_on c s' with
           | [] => [[x]]
           | w :: ws => (x :: w) :: ws
           end
  end.

(** [ls.join(sep)] *)
Fixpoint join (sep : str) (ls : list str) : str :=
  match ls with
  | [] => []
  | [s] => s
  | s :: ls' => s ++ sep ++ join sep ls'
  end.

(** [s.lines()]: split at ['\n'], one ['\r'] before a ['\n'] dropped, no final empty
    piece. *)
Definition strip_cr (s : str) : str :=
  match strip_suffix [CR] s with Some s' => s' | None => s end.
Fixpoint finish_lines (ps : list str) : list str :=
  match ps with
  | [] => []
  | [p] => match p with [] => [] | _ => [p] end
  | p :: ps' => strip_cr p :: finish_lines ps'
  end.
Definition lines (s : str) : list str := finish_lines (split_on NL s).

(** [w.rsplit(['/', '\\']).next()]: the part after the last separator. *)
Fixpoint rsplit_next_go (seps : list char) (acc s : str) : str :=
  match s with
  | [] => acc
  | c :: s' => if existsb (N.eqb c) seps then rsplit_next_go seps s' s'
               else rsplit_next_go seps acc s'
  end.
Definition basename (s : str) : str := rsplit_next_go [chr "/"; BACKSLASH] s s.

Arguments basename : simpl never.

(** [s.replace("ab", rep)] for a pattern of two distinct or equal characters. *)
Fixpoint replace2 (a b : char) (rep s : str) : str :=
  match s with
  | x :: ((y :: s') as t) =>
      if (x =? a) && (y =? b) then rep ++ replace2 a b rep s' else x :: replace2 a b rep t
  | _ => s
  end.

(** [c.len_utf8()] and [s.len()], in bytes. *)
Definition len_utf8 (c : char) : nat :=
  if c <? 128 then 1 else if c <? 2048 then 2 else if c <? 65536 then 3 else 4.
Definition utf8_len (s : str) : nat := sum_list_with len_utf8 s.
(** The longest prefix of at most [n] bytes: [&s[..end]] for the last character boundary
    [end <= n]. *)
Fixpoint take_utf8 (n : nat) (s : str) : str :=
  match s with
  | [] => []
  | c :: s' => if (len_utf8 c <=? n)%nat then c :: take_utf8 (n - len_utf8 c) s' else []
  end.

(** [s.bytes()]: the UTF-8 encoding. *)
Definition utf8_bytes_char (c : char) : list N :=
  if c <? 128 then [c]
  else if c <? 2048 then [192 + c / 64; 128 + c mod 64]
  else if c <? 65536 then [224 + c / 4096; 128 + c / 64 mod 64; 128 + c mod 64]
  else [240 + c / 262144; 128 + c / 4096 mod 64; 128 + c / 64 mod 64; 128 + c mod 64].
Definition utf8_bytes (s : str) : list N := flat_map utf8_bytes_char s.
(** [u8::is_ascii_whitespace] *)
Definition is_ascii_whitespace (b : N) : bool :=
  (b =? 32) || (b =? 9) || (b =? 10) || (b =? 12) || (b =? 13).

(** [split] at the characters that satisfy a test, and [split_whitespace]. *)
Fixpoint split_where (p : char → bool) (s : str) : list str :=
  match s with
  | [] => [[]]
  | c :: s' =>
      if p c then [] :: split_where p s'
      else match split_where p s' with w :: ws => (c :: w) :: ws | [] => [[c]] end
  end.
Definition split_whitespace (s : str) : list str :=
  List.filter (λ w, negb (str_eqb w [])) (split_where is_whitespace s).

(** [s.split_once(p)]: around the first occurrence. *)
Fixpoint split_once (p s : str) : option (str * str) :=
  match strip_prefix p s with
  | Some r => Some ([], r)
  | None => match s with
            | [] => None
            | c :: s' => (λ '(a, b), (c :: a, b)) <$> split_once p s'
            end
  end.

(** [write!] of an unsigned integer. *)
Fixpoint decimal_go (fuel : nat) (n : N) (acc : str) : str :=
  match fuel with
  | O => acc
  | S fuel =>
      let acc := (48 + n mod 10) :: acc in
      if n / 10 =? 0 then acc else decimal_go fuel (n / 10) acc
  end.
Definition decimal (n : N) : str := decimal_go (S (N.size_nat n)) n [].
(** [a.eq_ignore_ascii_case(b)] *)
Definition eq_ignore_ascii_case (a b : str) : bool := str_eqb (to_ascii_lowercase a) (to_ascii_lowercase b).

(** * Lemmas *)

Lemma str_eqb_eq a b : str_eqb a b = true ↔ a = b.
Proof. unfold str_eqb. apply bool_decide_eq_true. Qed.

Lemma str_eqb_neq a b : str_eqb a b = false ↔ a ≠ b.
Proof. unfold str_eqb. apply bool_decide_eq_false. Qed.

Lemma str_eqb_refl a : str_eqb a a = true.
Proof. by apply str_eqb_eq. Qed.

Lemma one_of_In s alts : one_of s alts = true ↔ s ∈ alts.
Proof.
  unfold one_of. rewrite existsb_exists. split.
  - intros (x & Hx & ->%str_eqb_eq). by apply list_elem_of_In.
  - intros H. exists s. split; [by apply list_elem_of_In|by apply str_eqb_eq].
Qed.

Lemma strip_prefix_Some p s r : strip_prefix p s = Some r ↔ s = p ++ r.
Proof.
  revert s; induction p as [|a p IH]; intros s; simpl; [split; congruence|].
  destruct s as [|b s]; [split; congruence|].
  destruct (N.eqb_spec a b) as [->|Hne].
  - rewrite IH. split; [by intros ->|by intros [= ->]].
  - split; [done|]. intros [= ->]. done.
Qed.

Lemma starts_with_spec p s : starts_with p s = true ↔ ∃ r, s = p ++ r.
Proof.
  unfold starts_with. rewrite bool_decide_eq_true. unfold is_Some.
  split; intros [r Hr]; exists r; by apply strip_prefix_Some.
Qed.

Lemma strip_suffix_Some p s r : strip_suffix p s = Some r ↔ s = r ++ p.
Proof.
  unfold strip_suffix. rewrite fmap_Some. split.
  - intros (x & Hx%strip_prefix_Some & ->).
    rewrite <- (rev_involutive s), Hx, rev_app_distr, rev_involutive. done.
  - intros ->. exists (rev r). rewrite strip_prefix_Some, rev_app_distr, rev_involutive.
    done.
Qed.

Lemma drop_while_suffix p s : ∃ w, s = w ++ drop_while p s ∧ Forall (λ c, p c = true) w.
Proof.
  induction s as [|c s [w [Hw Hp]]]; simpl; [by exists []|].
  destruct (p c) eqn:Hc.
  - exists (c :: w). split; [simpl; congruence|by constructor].
  - exists []. by split.
Qed.

Lemma drop_while_id p c s : p c = false → drop_while p (c :: s) = c :: s.
Proof. simpl. by intros ->. Qed.

(** A text whose first and last characters are not white space. *)
Definition no_outer_space (s : str) : bool :=
  match head s, last s with
  | Some a, Some b => negb (is_whitespace a) && negb (is_whitespace b)
  | _, _ => false
  end.

Lemma trim_id s : no_outer_space s = true → trim s = s.
Proof.
  unfold no_outer_space, trim. destruct s as [|a s]; [done|].
  destruct (last (a :: s)) as [b|] eqn:Hl; [|done]. simpl. intros H. bool_to_prop.
  unfold trim_start. rewrite drop_while_id by done.
  apply last_Some in Hl as [l Hl]. rewrite Hl. unfold trim_end, trim_end_matches.
  rewrite rev_app_distr. simpl rev at 2. simpl app. rewrite drop_while_id by done.
  simpl. by rewrite rev_involutive.
Qed.

Lemma split_on_ne c s : split_on c s ≠ [].
Proof. destruct s as [|x s]; simpl; [done|]. repeat case_match; done. Qed.

Lemma split_on_nosep c s : Forall (λ w, c ∉ w) (split_on c s).
Proof.
  induction s as [|x s IH]; simpl; [constructor; [apply not_elem_of_nil|constructor]|].
  destruct (N.eqb_spec x c) as [->|Hne].
  - constructor; [apply not_elem_of_nil|done].
  - destruct (split_on c s) as [|w ws]; simpl.
    + repeat constructor. rewrite list_elem_of_singleton. congruence.
    + apply Forall_cons in IH as [Hw Hws]. constructor; [|done].
      rewrite elem_of_cons. intros [->|?]; done.
Qed.

Lemma join_cons sep s l : l ≠ [] → join sep (s :: l) = s ++ sep ++ join sep l.
Proof. by destruct l. Qed.

Lemma join_snoc sep ls s : ls ≠ [] → join sep (ls ++ [s]) = join sep ls ++ sep ++ s.
Proof.
  induction ls as [|x ls IH]; intros Hne; [done|]. destruct ls as [|y ls]; [done|].
  change ((x :: y :: ls) ++ [s]) with (x :: ((y :: ls) ++ [s])).
  rewrite !join_cons by done. rewrite IH by done. by rewrite <- !app_assoc.
Qed.

Lemma join_split_on c s : join [c] (split_on c s) = s.
Proof.
  induction s as [|x s IH]; simpl; [done|].
  destruct (N.eqb_spec x c) as [->|Hne].
  - rewrite join_cons by apply split_on_ne. simpl. by rewrite IH.
  - pose proof (split_on_ne c s) as Hs.
    destruct (split_on c s) as [|w ws]; [done|]. rewrite <- IH.
    destruct ws; done.
Qed.

Lemma split_on_app_sep c w s : c ∉ w → split_on c (w ++ c :: s) = w :: split_on c s.
Proof.
  induction w as [|x w IH]; simpl; intros Hw; [by rewrite N.eqb_refl|].
  rewrite elem_of_cons in Hw. rewrite IH by tauto.
  destruct (N.eqb_spec x c) as [->|_]; [exfalso; auto|done].
Qed.

Lemma split_on_single c w : c ∉ w → split_on c w = [w].
Proof.
  induction w as [|x w IH]; simpl; intros Hw; [done|].
  rewrite elem_of_cons in Hw. rewrite IH by tauto.
  destruct (N.eqb_spec x c) as [->|_]; [exfalso; auto|done].
Qed.

Lemma split_on_join c ls : ls ≠ [] → Forall (λ w, c ∉ w) ls → split_on c (join [c] ls) = ls.
Proof.
  induction ls as [|w ls IH]; intros Hne Hall; [done|].
  apply Forall_cons in Hall as [Hw Hls]. destruct ls as [|w' ls'].
  - simpl. by apply split_on_single.
  - rewrite join_cons by done. simpl app. rewrite split_on_app_sep by done.
    f_equal. by apply IH.
Qed.

(** Two-character replacement, case by case. *)
Lemma replace2_cons_ne a b rep x s : x ≠ a → replace2 a b rep (x :: s) = x :: replace2 a b rep s.
Proof.
  intros Hx. destruct s as [|y s]; [done|]. simpl.
  destruct (N.eqb_spec x a); [done|]. done.
Qed.

Lemma replace2_cons2_ne a b rep y s :
  y ≠ b → replace2 a b rep (a :: y :: s) = a :: replace2 a b rep (y :: s).
Proof. intros Hy. simpl. destruct (N.eqb_spec y b); [done|]. by rewrite andb_false_r. Qed.

Lemma replace2_match a b rep s : replace2 a b rep (a :: b :: s) = rep ++ replace2 a b rep s.
Proof. simpl. by rewrite !N.eqb_refl. Qed.
Arguments replace2 : simpl never.

(** ** Lines *)

(** A line that [lines] gives back as it is. *)
Definition wf_line (l : str) : bool :=
  negb (contains_char NL l) && negb (bool_decide (last l = Some CR)).

Lemma wf_line_nosep l : wf_line l = true → NL ∉ l.
Proof.
  unfold wf_line, contains_char. intros [H _]%andb_true_iff. apply negb_true_iff in H.
  intros Hin. assert (existsb (N.eqb NL) l = true); [|congruence].
  apply existsb_elem. exists NL. split; [done|apply N.eqb_refl].
Qed.

Lemma wf_line_strip_cr l : wf_line l = true → strip_cr l = l.
Proof.
  unfold wf_line, strip_cr. intros [_ H]%andb_true_iff. bool_to_prop.
  destruct (strip_suffix [CR] l) as [l'|] eqn:E; [|done].
  apply strip_suffix_Some in E as ->. rewrite last_snoc in *. done.
Qed.

Lemma lines_join ls :
  Forall (λ l, wf_line l = true) ls → last ls ≠ Some [] → lines (join [NL] ls) = ls.
Proof.
  intros Hwf Hl. destruct ls as [|l0 ls0]; [done|]. unfold lines.
  rewrite split_on_join; [|done|eapply Forall_impl; [exact Hwf|apply wf_line_nosep]].
  revert Hwf Hl. generalize (l0 :: ls0). intros ls Hwf Hl.
  induction ls as [|l ls IH]; [done|]. apply Forall_cons in Hwf as [Hl1 Hwf].
  destruct ls as [|l' ls]; simpl.
  - destruct l; [done|done].
  - rewrite wf_line_strip_cr by done. f_equal. apply IH; [done|]. by rewrite last_cons_cons in Hl.
Qed.

Definition unlines (ls : list str) : str := concat (List.map (λ l, l ++ [NL]) ls).

Lemma join_unlines ls s : join [NL] (ls ++ [s]) = unlines ls ++ s.
Proof.
  induction ls as [|l ls IH]; [done|]. change ((l :: ls) ++ [s]) with (l :: (ls ++ [s])).
  rewrite join_cons by (by destruct ls). rewrite IH. unfold unlines. simpl.
  by rewrite <- !app_assoc.
Qed.

Lemma trim_not_nil c s : is_whitespace c = false → trim (c :: s) ≠ [].
Proof.
  intros Hc. unfold trim, trim_start. rewrite drop_while_id by done.
  unfold trim_end, trim_end_matches. intros H.
  apply (f_equal (@rev _)) in H. rewrite rev_involutive in H. simpl in H.
  destruct (drop_while_suffix is_whitespace (rev s ++ [c])) as (w & Hw & Hall).
  rewrite H, app_nil_r in Hw. rewrite <- Hw in Hall.
  apply Forall_app in Hall as [_ [Hall _]%Forall_cons]. congruence.
Qed.

(** A text without the separator's first character is not split; up to there it is. *)
Lemma split_once_None c p s : c ∉ s → split_once (c :: p) s = None.
Proof.
  induction s as [|x s IH]; intros Hc; simpl; [done|].
  apply not_elem_of_cons in Hc as [Hx Hc]. rewrite IH by done.
  by destruct (N.eqb_spec c x).
Qed.

Lemma split_once_app c p s r : c ∉ s → split_once (c :: p) (s ++ c :: p ++ r) = Some (s, r).
Proof.
  induction s as [|x s IH]; intros Hc.
  - simpl. rewrite N.eqb_refl. assert (strip_prefix p (p ++ r) = Some r) as -> by (by apply strip_prefix_Some).
    done.
  - apply not_elem_of_cons in Hc as [Hx Hc]. simpl.
    destruct (N.eqb_spec c x); [done|]. simpl. by rewrite IH.
Qed.

(** ** Integers in text *)

Section Integers.
Local Open Scope Z_scope.

Definition U16 : Z := 2 ^ 16.
Definition U64 : Z := 2 ^ 64.
(** [<uN as FromStr>::from_str]: an optional plus sign and at least one decimal digit,
    below [bound]. *)
Definition digit_value (c : char) : option Z :=
  if is_ascii_digit c then Some (Z.of_N c - 48) else None.
Fixpoint digits_value (acc : Z) (s : str) : option Z :=
  match s with
  | [] => Some acc
  | c :: s' => d ← digit_value c; digits_value (acc * 10 + d) s'
  end.
Definition parse_uint (bound : Z) (s : str) : option Z :=
  let s := match strip_prefix (lit "+") s with Some r => r | None => s end in
  match s with
  | [] => None
  | _ => v ← digits_value 0 s; if v <? bound then Some v else None
  end.
Lemma digits_value_nonneg acc s v : 0 ≤ acc → digits_value acc s = Some v → 0 ≤ v.
Proof.
  revert acc; induction s as [|c s IH]; intros acc Ha; simpl; [by intros [= <-]|].
  unfold digit_value. destruct (is_ascii_digit c) eqn:Hc; [|done]. simpl. apply IH.
  unfold is_ascii_digit in Hc. apply andb_true_iff in Hc as [H1%N.leb_le _]. lia.
Qed.

Lemma parse_uint_range bound s v : parse_uint bound s = Some v → 0 ≤ v < bound.
Proof.
  unfold parse_uint. destruct (match strip_prefix _ s with Some r => r | None => s end) as [|c s'];
    [done|].
  intros (x & Hx & Hb)%bind_Some. destruct (Z.ltb_spec x bound); [|done]. injection Hb as <-.
  apply digits_value_nonneg in Hx; [|done]. lia.
Qed.

(** Printed numbers parse back. *)
Lemma digits_value_decimal_go fuel n acc : (n < 10 ^ N.of_nat fuel)%N →
  digits_value 0 (decimal_go fuel n acc) = digits_value (Z.of_N n) acc.
Proof.
  revert n acc; induction fuel as [|fuel IH]; intros n acc Hn.
  { simpl in *. assert (n = 0%N) as -> by (apply N.lt_1_r; exact Hn). done. }
  assert (Hd : digit_value (48 + n mod 10)%N = Some (Z.of_N (n mod 10))).
  { pose proof (N.mod_lt n 10 ltac:(done)) as Hm. revert Hm. generalize (n mod 10)%N. intros d Hd.
    unfold digit_value, is_ascii_digit. rewrite (proj2 (N.leb_le _ _)) by lia.
    rewrite (proj2 (N.leb_le _ _)) by lia. cbn [andb]. f_equal. lia. }
  simpl. destruct (N.eqb_spec (n / 10) 0) as [H0|H0].
  - simpl. rewrite Hd. simpl. f_equal. pose proof (N.div_mod n 10 ltac:(done)). lia.
  - rewrite IH.
    + simpl. rewrite Hd. simpl. f_equal. pose proof (N.div_mod n 10 ltac:(done)). lia.
    + apply N.Div0.div_lt_upper_bound. rewrite <- N.pow_succ_r'. by rewrite <- Nat2N.inj_succ.
Qed.

Lemma decimal_go_digits fuel n acc : Forall (λ c, is_ascii_digit c = true) acc →
  Forall (λ c, is_ascii_digit c = true) (decimal_go fuel n acc).
Proof.
  revert n acc; induction fuel as [|fuel IH]; intros n acc Ha; simpl; [done|].
  assert (Forall (λ c, is_ascii_digit c = true) ((48 + n mod 10)%N :: acc)).
  { constructor; [|done]. pose proof (N.mod_lt n 10 ltac:(done)) as Hm. revert Hm.
    generalize (n mod 10)%N. intros d Hd. unfold is_ascii_digit. apply andb_true_iff. split; apply N.leb_le; lia. }
  destruct (_ =? 0)%N; auto.
Qed.

Lemma decimal_digits n : Forall (λ c, is_ascii_digit c = true) (decimal n).
Proof. apply decimal_go_digits. constructor. Qed.

Lemma size_nat_pow n : (n < 10 ^ N.of_nat (S (N.size_nat n)))%N.
Proof.
  assert (Hsize : N.of_nat (N.size_nat n) = N.size n).
  { destruct n as [|p]; [done|]. simpl. induction p; simpl in *; lia. }
  apply (N.lt_le_trans _ (2 ^ N.size n)); [apply N.size_gt|]. rewrite <- Hsize.
  transitivity (10 ^ N.of_nat (N.size_nat n))%N; [by apply N.pow_le_mono_l|].
  apply N.pow_le_mono_r; lia.
Qed.

Lemma parse_decimal bound n : Z.of_N n < bound → parse_uint bound (decimal n) = Some (Z.of_N n).
Proof.
  intros Hn. assert (Hv : digits_value 0 (decimal n) = Some (Z.of_N n)).
  { unfold decimal. rewrite digits_value_decimal_go by apply size_nat_pow. done. }
  pose proof (decimal_digits n) as Hd. unfold parse_uint.
  destruct (strip_prefix (lit "+") (decimal n)) as [r|] eqn:Hs.
  { apply strip_prefix_Some in Hs. rewrite Hs in Hd. by apply Forall_cons in Hd as [Hd _]. }
  destruct (decimal n) as [|c l] eqn:Hdec.
  { exfalso. unfold decimal in Hdec. simpl in Hdec. revert Hdec. generalize (N.size_nat n).
    assert (Hne : ∀ fuel m acc, acc ≠ [] → decimal_go fuel m acc ≠ []).
    { induction fuel; intros m acc Ha; simpl; [done|]. destruct (_ =? 0)%N; [done|]. by apply IHfuel. }
    intros k Hk. destruct (n / 10 =? 0)%N; [done|]. by eapply Hne in Hk. }
  rewrite Hv. simpl. by destruct (Z.ltb_spec (Z.of_N n) bound); [|lia].
Qed.
End Integers.
