(* ===== verification/Json.v ===== *)
(** JSON values, as [serde_json::Value] holds them; numbers are the integers the modelled
    code builds.  An object is the list of its entries, in key order for a [BTreeMap] and in
    order of insertion for an [IndexMap]. *)
From S2P Require Import Prelude RustStr.

Inductive json :=
| JNull
| JBool (b : bool)
| JNumber (z : Z)
| JString (s : str)
| JArray (l : list json)
| JObject (m : list (str * json)).

(** The order of [String]s; on the ASCII keys used here, character by character. *)
Fixpoint str_ltb (a b : str) : bool :=
  match a, b with
  | [], [] => false
  | [], _ :: _ => true
  | _ :: _, [] => false
  | x :: a', y :: b' => (x <? y)%N || ((x =? y)%N && str_ltb a' b')
  end.

(** [BTreeMap::insert] *)
Fixpoint obj_insert (k : str) (v : json) (m : list (str * json)) : list (str * json) :=
  match m with
  | [] => [(k, v)]
  | (k', v') :: m' =>
      if str_eqb k k' then (k, v) :: m'
      else if str_ltb k k' then (k, v) :: m
      else (k', v') :: obj_insert k v m'
  end.
Definition obj_insert_opt (k : str) (v : option json) (m : list (str * json)) : list (str * json) :=
  match v with Some v => obj_insert k v m | None => m end.

Fixpoint obj_get (k : str) (m : list (str * json)) : option json :=
  match m with
  | [] => None
  | (k', v) :: m' => if str_eqb k k' then Some v else obj_get k m'
  end.

Lemma obj_get_insert k k' v m :
  obj_get k (obj_insert k' v m) = if str_eqb k k' then Some v else obj_get k m.
Proof.
  induction m as [|[k2 v2] m IH]; simpl; [by destruct (str_eqb k k')|].
  destruct (str_eqb k' k2) eqn:E; simpl.
  - apply str_eqb_eq in E as ->. by destruct (str_eqb k k2).
  - destruct (str_ltb k' k2); simpl; [by destruct (str_eqb k k')|].
    destruct (str_eqb k k2) eqn:E2; [|apply IH].
    apply str_eqb_eq in E2 as ->. destruct (str_eqb k2 k') eqn:E3; [|done].
    apply str_eqb_eq in E3 as ->. by rewrite str_eqb_refl in E.
Qed.

Lemma obj_get_insert_opt k k' v m :
  obj_get k (obj_insert_opt k' v m) =
  if str_eqb k k' then match v with Some v => Some v | None => obj_get k m end else obj_get k m.
Proof.
  destruct v as [v|]; simpl; [apply obj_get_insert|by destruct (str_eqb k k')].
Qed.

(** [Value::get], [as_bool] and [as_str]. *)
Definition json_get (k : str) (v : json) : option json :=
  match v with JObject m => obj_get k m | _ => None end.
Definition json_as_bool (v : json) : option bool := match v with JBool b => Some b | _ => None end.
Definition json_as_str (v : json) : option str := match v with JString s => Some s | _ => None end.

(** [IndexMap::insert], which [serde_json::Map::insert] is under the [preserve_order]
    feature: in place when the key is present, at the end otherwise. *)
Fixpoint obj_append (k : str) (v : json) (m : list (str * json)) : list (str * json) :=
  match m with
  | [] => [(k, v)]
  | (k', v') :: m' => if str_eqb k k' then (k, v) :: m' else (k', v') :: obj_append k v m'
  end.
(** [serde_json::Map::insert] *)
Definition map_insert (preserve_order : bool) (k : str) (v : json) (m : list (str * json))
  : list (str * json) :=
  if preserve_order then obj_append k v m else obj_insert k v m.
Definition map_insert_opt (preserve_order : bool) (k : str) (v : option json)
  (m : list (str * json)) : list (str * json) :=
  match v with Some v => map_insert preserve_order k v m | None => m end.

Lemma obj_get_append k k' v m :
  obj_get k (obj_append k' v m) = if str_eqb k k' then Some v else obj_get k m.
Proof.
  induction m as [|[k2 v2] m IH]; simpl; [by destruct (str_eqb k k')|].
  destruct (str_eqb k' k2) eqn:E; simpl.
  - apply str_eqb_eq in E as ->. by destruct (str_eqb k k2).
  - destruct (str_eqb k k2) eqn:E2; [|apply IH].
    apply str_eqb_eq in E2 as ->. destruct (str_eqb k2 k') eqn:E3; [|done].
    apply str_eqb_eq in E3 as ->. by rewrite str_eqb_refl in E.
Qed.

Lemma map_get_insert po k k' v m :
  obj_get k (map_insert po k' v m) = if str_eqb k k' then Some v else obj_get k m.
Proof. destruct po; [apply obj_get_append|apply obj_get_insert]. Qed.

Lemma map_get_insert_opt po k k' v m :
  obj_get k (map_insert_opt po k' v m) =
  if str_eqb k k' then match v with Some v => Some v | None => obj_get k m end else obj_get k m.
Proof.
  destruct v as [v|]; simpl; [apply map_get_insert|by destruct (str_eqb k k')].
Qed.

(** ** Objects built by insertions

    An object built by inserting optional fields under distinct keys determines them. *)
Section Build.
Variable insert_opt : str → option json → list (str * json) → list (str * json).
Hypothesis get_insert_opt : ∀ k k' v m,
  obj_get k (insert_opt k' v m) =
  if str_eqb k k' then match v with Some v => Some v | None => obj_get k m end else obj_get k m.

Definition build (fields : list (str * option json)) (m : list (str * json)) : list (str * json) :=
  foldl (λ m f, insert_opt f.1 f.2 m) m fields.

Lemma get_build_notin k fields m :
  k ∉ fields.*1 → obj_get k (build fields m) = obj_get k m.
Proof.
  revert m; induction fields as [|[k' v] fields IH]; intros m Hk; [done|].
  rewrite fmap_cons, not_elem_of_cons in Hk. destruct Hk as [Hne Hk]. cbn [build foldl].
  unfold build in IH. rewrite IH by done. rewrite get_insert_opt. simpl in *.
  by rewrite (proj2 (str_eqb_neq _ _) Hne).
Qed.

Lemma get_build k v fields m :
  NoDup fields.*1 → (k, v) ∈ fields → obj_get k m = None → obj_get k (build fields m) = v.
Proof.
  revert m; induction fields as [|[k' v'] fields IH]; intros m Hnd Hin Hm.
  { by apply elem_of_nil in Hin. }
  rewrite fmap_cons, NoDup_cons in Hnd. destruct Hnd as [Hk' Hnd].
  apply elem_of_cons in Hin as [[= <- <-]|Hin].
  - change (build ((k, v) :: fields) m) with (build fields (insert_opt k v m)).
    rewrite get_build_notin by done. rewrite get_insert_opt, str_eqb_refl. by destruct v.
  - change (build ((k', v') :: fields) m) with (build fields (insert_opt k' v' m)).
    apply IH; [done|done|]. rewrite get_insert_opt, (proj2 (str_eqb_neq _ _)); [done|].
    intros ->. apply Hk'. apply list_elem_of_fmap. by exists (k', v).
Qed.

Lemma build_inj fields1 fields2 :
  fields1.*1 = fields2.*1 → NoDup fields1.*1 → build fields1 [] = build fields2 [] →
  fields1 = fields2.
Proof.
  intros Hk Hnd Hb. apply list_eq. intros i.
  assert (Hi := f_equal (lookup i) Hk). rewrite !list_lookup_fmap in Hi.
  destruct (fields1 !! i) as [[k1 v1]|] eqn:E1, (fields2 !! i) as [[k2 v2]|] eqn:E2;
    simpl in Hi; try done. injection Hi as <-. do 2 f_equal.
  apply list_elem_of_lookup_2 in E1, E2.
  rewrite <- (get_build k1 v1 fields1 []) by done. rewrite Hb.
  apply get_build; [by rewrite <- Hk|done|done].
Qed.
End Build.
