(* ===== verification/Shell.v ===== *)
(** Decomposition of shell command lines before they meet the permission policy
    (crates/codegen/xai-grok-workspace/src/permission/bash_command_splitting.rs).

    [Module Argv] models the peeling of wrapper commands ([timeout], [nice], [env], ...)
    and of transparent prefixes ([exec], [command], [builtin]) from one argv, and the
    option scanner of [env].  [Module Script] models the walk over a tree-sitter tree
    that turns a script into plain commands; the tree-sitter parser itself is the
    parameter [try_parse_shell].

    A [&[String]] slice is the list of its words.  All slices the code produces here are
    suffixes of the argv it started from ([peel_suffix] below), so comparing two of them
    by length and start pointer, as [normalize_command_words] does, is comparing their
    lengths. *)
From Stdlib Require Import String Ascii.
From S2P Require Import Prelude RustStr.

Module Argv.

(** ** The [env] option scanner *)

Fixpoint take_name (tok : str) : option str :=
  match tok with
  | [] => None
  | c :: tok' => if (c =? chr "=")%N then Some [] else cons c <$> take_name tok'
  end.

Definition is_env_assignment (tok : str) : bool :=
  match take_name tok with
  | None => false
  | Some name =>
      match name with
      | [] => false
      | b :: _ =>
          (is_ascii_alphabetic b || (b =? chr "_")%N)
          && forallb (λ b, is_ascii_alphanumeric b || (b =? chr "_")%N) name
      end
  end.

Record EnvScan := mkEnvScan {
  chdir : option str;
  has_split_string : bool;
  options_uncertain : bool;
  split_string_script : option str;
  command_start : nat
}.

Fixpoint decode_go (quote : option char) (raw : str) : option str :=
  match raw with
  | [] => match quote with None => Some [] | Some _ => None end
  | ch :: rest =>
      match quote with
      | None =>
          if (ch =? SQUOTE)%N || (ch =? DQUOTE)%N then decode_go (Some ch) rest
          else if (ch =? BACKSLASH)%N then
            match rest with
            | [] => None
            | n :: rest' => cons n <$> decode_go None rest'
            end
          else cons ch <$> decode_go None rest
      | Some open =>
          if (open =? ch)%N then decode_go None rest
          else if (open =? DQUOTE)%N && (ch =? BACKSLASH)%N then
            match rest with
            | [] => None
            | n :: rest' =>
                if existsb (N.eqb n) [chr "$"; chr "`"; DQUOTE; BACKSLASH; NL]
                then cons n <$> decode_go quote rest'
                else (λ out, BACKSLASH :: n :: out) <$> decode_go quote rest'
            end
          else cons ch <$> decode_go quote rest
      end
  end.
Definition decode_shell_literal_spelling (raw : str) : option str := decode_go None raw.

Definition decode_env_option_token (raw : str) : str :=
  if negb (contains_char SQUOTE raw || contains_char DQUOTE raw) then raw
  else default raw (decode_shell_literal_spelling raw).

Definition is_high_confidence_env_s_payload (s : str) : bool :=
  negb (bool_decide (s = []))
  && negb (contains_char 0%N s)
  && negb (existsb (λ c, existsb (N.eqb c)
        [SQUOTE; DQUOTE; BACKSLASH; chr "#"; chr "`"; chr "$"; NL; CR]) s).

Definition take_high_confidence_payload (raw : str) : option str :=
  if is_high_confidence_env_s_payload raw then Some raw else None.

Inductive EnvShort :=
| SplitStringNext
| SplitStringGlued (payload : str)
| SplitStringDetect
| NoArg
| ArgNeedNext (kind : char)
| ArgGlued (kind : char)
| Uncertain.

(** The [while idx < chars.len()] loop; [has_glued] asks whether a character follows. *)
Fixpoint classify_env_chars (chars : str) : EnvShort :=
  match chars with
  | [] => NoArg
  | c :: rest =>
      if existsb (N.eqb c) [chr "i"; chr "v"; chr "0"] then classify_env_chars rest
      else if (c =? chr "S")%N then SplitStringDetect
      else if existsb (N.eqb c) [chr "u"; chr "C"; chr "P"; chr "a"] then
        match rest with [] => ArgNeedNext c | _ :: _ => ArgGlued c end
      else Uncertain
  end.

Definition classify_env_short (tok : str) : EnvShort :=
  if negb (starts_with (lit "-") tok) || starts_with (lit "--") tok || str_eqb tok (lit "-")
  then Uncertain
  else
    let body := tail tok in
    match body with
    | [] => Uncertain
    | _ :: _ =>
        match strip_prefix (lit "S") body with
        | Some [] => SplitStringNext
        | Some rest => SplitStringGlued rest
        | None => classify_env_chars body
        end
    end.

Definition scan_stop (chdir : option str) (i : nat) : EnvScan :=
  mkEnvScan chdir false false None i.
Definition scan_uncertain (chdir : option str) (i : nat) : EnvScan :=
  mkEnvScan chdir false true None i.
Definition scan_split (chdir : option str) (script : option str) (i : nat) : EnvScan :=
  mkEnvScan chdir true false script i.

(** The scanning loop; [rest] is [cmd[i..]].  [take_option_operand] is the match on the
    words after the option. *)
Fixpoint env_scan_go (chdir : option str) (i : nat) (rest : list str) : EnvScan :=
  match rest with
  | [] => scan_stop chdir i
  | tok :: rest' =>
      if str_eqb tok (lit "--") then scan_stop chdir (i + 1)
      else if str_eqb tok (lit "-") then env_scan_go chdir (i + 1) rest'
      else if negb (starts_with (lit "-") tok) then
        if is_env_assignment tok then env_scan_go chdir (i + 1) rest' else scan_stop chdir i
      else if starts_with (lit "--") tok then
        if str_eqb tok (lit "--chdir") then
          match rest' with
          | dir :: rest'' => env_scan_go (Some dir) (i + 2) rest''
          | [] => scan_uncertain chdir i
          end
        else match strip_prefix (lit "--chdir=") tok with
        | Some dir => env_scan_go (Some dir) (i + 1) rest'
        | None =>
            if one_of tok [lit "--unset"; lit "--path"; lit "--argv0"] then
              match rest' with
              | _ :: rest'' => env_scan_go chdir (i + 2) rest''
              | [] => scan_uncertain chdir i
              end
            else if starts_with (lit "--unset=") tok || starts_with (lit "--path=") tok
                    || starts_with (lit "--argv0=") tok
            then env_scan_go chdir (i + 1) rest'
            else if one_of tok [lit "--ignore-environment"; lit "--null"; lit "--debug";
                                lit "--version"; lit "--help"]
            then env_scan_go chdir (i + 1) rest'
            else if str_eqb tok (lit "--split-string") then
              scan_split chdir (head rest' ≫= take_high_confidence_payload) i
            else match strip_prefix (lit "--split-string=") tok with
            | Some payload =>
                let payload :=
                  default payload
                    (strip_prefix (lit "--split-string=") (decode_env_option_token tok)) in
                scan_split chdir (take_high_confidence_payload payload) i
            | None => scan_uncertain chdir i
            end
        end
      else
        match classify_env_short (decode_env_option_token tok) with
        | SplitStringNext => scan_split chdir (head rest' ≫= take_high_confidence_payload) i
        | SplitStringGlued payload => scan_split chdir (take_high_confidence_payload payload) i
        | SplitStringDetect => scan_split chdir None i
        | NoArg => env_scan_go chdir (i + 1) rest'
        | ArgNeedNext kind =>
            match rest' with
            | operand :: rest'' =>
                env_scan_go (if (kind =? chr "C")%N then Some operand else chdir) (i + 2) rest''
            | [] => scan_uncertain chdir i
            end
        | ArgGlued kind =>
            env_scan_go
              (if (kind =? chr "C")%N then Some (default [] (strip_prefix (lit "-C") tok))
               else chdir) (i + 1) rest'
        | Uncertain => scan_uncertain chdir i
        end
  end.

Definition env_scan (cmd : list str) : EnvScan := env_scan_go None 1 (tail cmd).

(** [words.first()...rsplit(['/', '\\']).next()] *)
Definition head_basename (words : list str) : option str := basename <$> head words.
Definition head_is (name : str) (words : list str) : bool :=
  bool_decide (head_basename words = Some name).

Definition env_split_string_script (words : list str) : option str :=
  if negb (head_is (lit "env") words) then None
  else
    let scan := env_scan words in
    if negb (has_split_string scan) then None else split_string_script scan.

(** ** Wrapper commands *)

(** [while i < cmd.len() && cmd[i].starts_with('-')]: options in [two] take an operand. *)
Fixpoint skip_options (two : list str) (rest : list str) : list str :=
  match rest with
  | [] => []
  | tok :: rest' =>
      if starts_with (lit "-") tok then
        if one_of tok two then
          match rest' with [] => [] | _ :: rest'' => skip_options two rest'' end
        else skip_options two rest'
      else rest
  end.

Definition non_empty (inner : list str) : option (list str) :=
  match inner with [] => None | _ :: _ => Some inner end.

Definition strip_wrapper_command (cmd : list str) : option (list str) :=
  match cmd with
  | [] => None
  | w :: args =>
      let name := basename w in
      if str_eqb name (lit "timeout") then
        match skip_options [lit "-k"; lit "-s"; lit "--kill-after"; lit "--signal"] args with
        | [] => None
        | _ :: inner => non_empty inner
        end
      else if str_eqb name (lit "nice") then
        non_empty (skip_options [lit "-n"; lit "--adjustment"] args)
      else if str_eqb name (lit "ionice") then
        non_empty (skip_options [lit "-c"; lit "-n"; lit "-p"; lit "-P"; lit "-u"; lit "--class";
                                 lit "--classdata"; lit "--pid"; lit "--pgid"; lit "--uid"] args)
      else if str_eqb name (lit "chrt") then
        match skip_options [] args with
        | [] => None
        | _ :: inner => non_empty inner
        end
      else if str_eqb name (lit "stdbuf") then
        non_empty (skip_options [lit "-i"; lit "-o"; lit "-e"] args)
      else if str_eqb name (lit "env") then
        let scan := env_scan cmd in
        if has_split_string scan || options_uncertain scan then None
        else non_empty (drop (command_start scan) cmd)
      else None
  end.

Definition is_wrapper_command (words : list str) : bool :=
  match head_basename words with
  | Some b => one_of b [lit "timeout"; lit "nice"; lit "ionice"; lit "chrt"; lit "stdbuf"; lit "env"]
  | None => false
  end.

Definition MAX_WRAPPER_DEPTH : nat := 8.
Definition MAX_INLINE_SHELL_DEPTH : nat := 8.

Record CheckedWrapperPeel := mkPeel {
  cw_words : list str;
  cw_has_chdir : bool;
  cw_has_split_string : bool;
  cw_env_options_uncertain : bool;
  cw_exhausted : bool
}.

Fixpoint unwrap_go (rounds : nat) (current : list str) (cd ss un : bool) : CheckedWrapperPeel :=
  match rounds with
  | O => mkPeel current cd ss un
           (is_wrapper_command current && bool_decide (is_Some (strip_wrapper_command current)))
  | S rounds' =>
      let scan := env_scan current in
      let is_env := head_is (lit "env") current in
      let cd := cd || (is_env && bool_decide (is_Some (chdir scan))) in
      let ss := ss || (is_env && has_split_string scan) in
      let un := un || (is_env && options_uncertain scan) in
      match strip_wrapper_command current with
      | Some inner => unwrap_go rounds' inner cd ss un
      | None => mkPeel current cd ss un false
      end
  end.
Definition unwrap_wrappers_checked (words : list str) : CheckedWrapperPeel :=
  unwrap_go MAX_WRAPPER_DEPTH words false false false.
Definition unwrap_wrappers (words : list str) : list str :=
  cw_words (unwrap_wrappers_checked words).
Definition unwrap_command_wrappers (words : list str) : list str := unwrap_wrappers words.

(** ** Transparent prefixes *)

Inductive TransparentStrip :=
| NotPrefix
| Peeled (inner : list str)
| AmbiguousStrip.

Definition NUL : str := [0%N].

(** What a prefix scanner returns once it has stopped in front of [inner]. *)
Definition peeled_or_not (inner : list str) : TransparentStrip :=
  match inner with [] => NotPrefix | _ :: _ => Peeled inner end.

(** [tok.starts_with('-') && !tok.starts_with("--")] *)
Definition short_cluster (tok : str) : bool :=
  starts_with (lit "-") tok && negb (starts_with (lit "--") tok).

Fixpoint strip_exec_go (rest : list str) : TransparentStrip :=
  match rest with
  | [] => NotPrefix
  | tok :: rest' =>
      if str_eqb tok (lit "--") then peeled_or_not rest'
      else if str_eqb tok (lit "-") || negb (starts_with (lit "-") tok) then Peeled rest
      else if one_of tok [lit "-c"; lit "-l"; lit "-cl"; lit "-lc"] then strip_exec_go rest'
      else if str_eqb tok (lit "-a") then
        match rest' with
        | v :: rest'' =>
            if negb (str_eqb v NUL) && negb (str_eqb v []) then strip_exec_go rest''
            else AmbiguousStrip
        | [] => AmbiguousStrip
        end
      else
        let cluster :=
          if short_cluster tok
             && forallb (λ c, existsb (N.eqb c) [chr "c"; chr "l"]) (tail tok)
          then strip_exec_go rest' else AmbiguousStrip in
        match strip_prefix (lit "-a") tok with
        | Some [] => cluster
        | Some r => if str_eqb r NUL then AmbiguousStrip else strip_exec_go rest'
        | None => cluster
        end
  end.
Definition strip_exec_prefix (cmd : list str) : TransparentStrip := strip_exec_go (tail cmd).

Fixpoint strip_command_go (rest : list str) : TransparentStrip :=
  match rest with
  | [] => NotPrefix
  | tok :: rest' =>
      if str_eqb tok (lit "--") then peeled_or_not rest'
      else if str_eqb tok (lit "-") || negb (starts_with (lit "-") tok) then Peeled rest
      else if one_of tok [lit "-v"; lit "-V"; lit "--help"; lit "--version"]
              || (short_cluster tok
                  && existsb (λ c, (c =? chr "v")%N || (c =? chr "V")%N) (tail tok))
      then NotPrefix
      else if str_eqb tok (lit "-p")
              || (short_cluster tok && forallb (N.eqb (chr "p")) (tail tok))
      then strip_command_go rest'
      else AmbiguousStrip
  end.
Definition strip_command_prefix (cmd : list str) : TransparentStrip := strip_command_go (tail cmd).

Definition strip_builtin_prefix (cmd : list str) : TransparentStrip :=
  match tail cmd with
  | [] => NotPrefix
  | tok :: _ =>
      if starts_with (lit "-") tok && negb (str_eqb tok (lit "-")) then AmbiguousStrip
      else peeled_or_not (tail cmd)
  end.

Definition strip_transparent_prefix (cmd : list str) : TransparentStrip :=
  match cmd with
  | [] => NotPrefix
  | h :: _ =>
      if str_eqb h [] || str_eqb h NUL then NotPrefix
      else
        let name := basename h in
        if str_eqb name (lit "exec") then strip_exec_prefix cmd
        else if str_eqb name (lit "command") then strip_command_prefix cmd
        else if str_eqb name (lit "builtin") then strip_builtin_prefix cmd
        else NotPrefix
  end.

Definition MAX_TRANSPARENT_PREFIX_DEPTH : nat := 8.
Definition MAX_NORMALIZE_ROUNDS : nat := MAX_WRAPPER_DEPTH + MAX_TRANSPARENT_PREFIX_DEPTH.

Inductive TransparentPrefixPeel :=
| Ready (words : list str)
| AmbiguousPeel.

Fixpoint peel_transparent_go (rounds : nat) (current : list str) : TransparentPrefixPeel :=
  match strip_transparent_prefix current with
  | NotPrefix => Ready current
  | AmbiguousStrip => AmbiguousPeel
  | Peeled inner =>
      match rounds with
      | O => AmbiguousPeel
      | S rounds' => peel_transparent_go rounds' inner
      end
  end.
Definition peel_transparent_prefixes (words : list str) : TransparentPrefixPeel :=
  peel_transparent_go MAX_TRANSPARENT_PREFIX_DEPTH words.

(** ** Normalization *)

Record NormalizedCommandPeel := mkNorm {
  words : list str;
  n_has_chdir : bool;
  n_has_split_string : bool;
  n_env_options_uncertain : bool;
  exhausted : bool;
  ambiguous : bool
}.

Fixpoint normalize_go (rounds : nat) (n : NormalizedCommandPeel) : NormalizedCommandPeel :=
  match rounds with
  | O => n
  | S rounds' =>
      let wrapped := unwrap_wrappers_checked (words n) in
      let cd := n_has_chdir n || cw_has_chdir wrapped in
      let ss := n_has_split_string n || cw_has_split_string wrapped in
      let un := n_env_options_uncertain n || cw_env_options_uncertain wrapped in
      let ex := exhausted n || cw_exhausted wrapped in
      let current := cw_words wrapped in
      if ss || un then mkNorm current cd ss un ex (ambiguous n)
      else
        match peel_transparent_prefixes current with
        | AmbiguousPeel => mkNorm current cd ss un ex true
        | Ready inner =>
            let n' := mkNorm inner cd ss un ex (ambiguous n) in
            if (length inner =? length (words n))%nat then n' else normalize_go rounds' n'
        end
  end.

Definition still_peelable (current : list str) : bool :=
  (is_wrapper_command current && bool_decide (is_Some (strip_wrapper_command current)))
  || negb (match strip_transparent_prefix current with NotPrefix => true | _ => false end).

(** The check after the loop: a remaining peelable head is unmodelled. *)
Definition finish_normalize (n : NormalizedCommandPeel) : NormalizedCommandPeel :=
  if negb (ambiguous n) && negb (n_has_split_string n) && negb (n_env_options_uncertain n)
     && still_peelable (words n)
  then mkNorm (words n) (n_has_chdir n) (n_has_split_string n) (n_env_options_uncertain n)
              true (ambiguous n)
  else n.

Definition normalize_command_words (ws : list str) : NormalizedCommandPeel :=
  finish_normalize
    (normalize_go MAX_NORMALIZE_ROUNDS (mkNorm ws false false false false false)).

(** ** Peeling as a relation

    One peel removes one wrapper or one transparent prefix; normalization is meant to
    reach the end of a chain of peels, the command that really runs. *)

Inductive peel (cmd inner : list str) : Prop :=
| peel_wrapper : strip_wrapper_command cmd = Some inner → peel cmd inner
| peel_prefix : strip_transparent_prefix cmd = Peeled inner → peel cmd inner.

(** A proper non-empty suffix. *)
Definition inner_of (cmd inner : list str) : Prop :=
  ∃ k, inner = drop k cmd ∧ 0 < k < length cmd.

Lemma inner_of_cons w args inner :
  inner = args ∨ inner_of args inner → inner ≠ [] → inner_of (w :: args) inner.
Proof.
  intros [->|(k & -> & Hk)] Hne.
  - exists 1. simpl. rewrite drop_0. split; [done|]. destruct args; simpl; [done|lia].
  - exists (S k). simpl. split; [done|lia].
Qed.

Lemma inner_of_ne cmd inner : inner_of cmd inner → inner ≠ [].
Proof.
  intros (k & -> & Hk) Hnil. apply (f_equal length) in Hnil.
  rewrite length_drop in Hnil. simpl in Hnil. lia.
Qed.

Lemma inner_of_length cmd inner : inner_of cmd inner → length inner < length cmd.
Proof. intros (k & -> & Hk). rewrite length_drop. lia. Qed.

Lemma non_empty_Some l inner : non_empty l = Some inner → inner = l ∧ l ≠ [].
Proof. destruct l; simpl; [done|]. by intros [= <-]. Qed.

Lemma skip_options_suffix two rest : ∃ k, skip_options two rest = drop k rest.
Proof.
  revert rest. fix IH 1. intros [|tok rest]; simpl; [by exists 0|].
  destruct (starts_with _ tok); [|by exists 0].
  destruct (one_of tok two).
  - destruct rest as [|v rest]; [by exists 1|]. destruct (IH rest) as [k Hk].
    exists (S (S k)). done.
  - destruct (IH rest) as [k Hk]. exists (S k). done.
Qed.

Lemma drop_inner_of k w args :
  drop k args ≠ [] → inner_of (w :: args) (drop k args).
Proof.
  intros Hne. exists (S k). split; [done|]. simpl. split; [lia|].
  destruct (decide (k < length args)); [lia|]. rewrite drop_ge in Hne by lia. done.
Qed.

Lemma env_scan_go_start chdir i rest :
  i ≤ command_start (env_scan_go chdir i rest).
Proof.
  revert chdir i rest. fix IH 3. intros cd i [|tok rest]; simpl; [lia|].
  repeat match goal with
  | |- _ ≤ command_start (match ?x with _ => _ end) => destruct x
  end; simpl; try lia; try (etransitivity; [|apply IH]; lia).
Qed.

Lemma strip_wrapper_inner cmd inner :
  strip_wrapper_command cmd = Some inner → inner_of cmd inner.
Proof.
  destruct cmd as [|w args]; simpl; [done|].
  assert (Hskip : ∀ two l, non_empty (skip_options two args) = Some l → inner_of (w :: args) l).
  { intros two l [-> Hne]%non_empty_Some. destruct (skip_options_suffix two args) as [k Hk].
    rewrite Hk in *. by apply drop_inner_of. }
  assert (Hskip1 : ∀ two l, match skip_options two args with [] => None | _ :: r => non_empty r end
                            = Some l → inner_of (w :: args) l).
  { intros two l H. destruct (skip_options_suffix two args) as [k Hk].
    destruct (skip_options two args) as [|x r] eqn:Hs; [done|].
    apply non_empty_Some in H as [-> Hne].
    assert (Hr : r = drop (S k) args).
    { change r with (drop 1 (x :: r)). rewrite Hk, drop_drop. f_equal. lia. }
    subst r. by apply drop_inner_of. }
  destruct (str_eqb _ (lit "timeout")); [apply Hskip1|].
  destruct (str_eqb _ (lit "nice")); [apply Hskip|].
  destruct (str_eqb _ (lit "ionice")); [apply Hskip|].
  destruct (str_eqb _ (lit "chrt")); [apply Hskip1|].
  destruct (str_eqb _ (lit "stdbuf")); [apply Hskip|].
  destruct (str_eqb _ (lit "env")); [|done]. destruct (_ || _); [done|].
  intros [-> Hne]%non_empty_Some. unfold env_scan in *. simpl in *.
  pose proof (env_scan_go_start None 1 args) as Hs.
  destruct (command_start _) as [|k]; [lia|]. simpl in *. by apply drop_inner_of.
Qed.

Lemma peeled_or_not_Peeled l inner : peeled_or_not l = Peeled inner → inner = l ∧ l ≠ [].
Proof. destruct l; simpl; [done|]. by intros [= <-]. Qed.

(** A scanner over the words after the prefix stops in front of one of them. *)
Definition stops_in (go : list str → TransparentStrip) : Prop :=
  ∀ rest inner, go rest = Peeled inner → inner ≠ [] ∧ ∃ k, inner = drop k rest.

Lemma strip_exec_stops : stops_in strip_exec_go.
Proof.
  unfold stops_in. fix IH 1. intros [|tok rest] inner; simpl; [done|].
  assert (Hrec : strip_exec_go rest = Peeled inner → inner ≠ [] ∧ ∃ k, inner = drop k (tok :: rest)).
  { intros [Hne [k ->]]%IH. split; [done|]. by exists (S k). }
  destruct (str_eqb tok (lit "--")).
  { intros [-> Hne]%peeled_or_not_Peeled. split; [done|by exists 1]. }
  destruct (str_eqb tok (lit "-") || _); [intros [= <-]; split; [done|by exists 0]|].
  destruct (one_of tok _); [done|].
  destruct (str_eqb tok (lit "-a")).
  { destruct rest as [|v rest']; [done|]. case_match; [|done].
    intros [Hne [k ->]]%IH. split; [done|]. by exists (S (S k)). }
  repeat case_match; try done.
Qed.

Lemma strip_command_stops : stops_in strip_command_go.
Proof.
  intros rest inner. induction rest as [|tok rest IH]; simpl; [done|].
  destruct (str_eqb tok (lit "--")).
  { intros [-> Hne]%peeled_or_not_Peeled. split; [done|by exists 1]. }
  destruct (str_eqb tok (lit "-") || _); [intros [= <-]; split; [done|by exists 0]|].
  repeat case_match; try done.
  intros [Hne [k ->]]%IH. split; [done|]. by exists (S k).
Qed.

Lemma stops_in_inner_of go w args inner :
  stops_in go → go args = Peeled inner → inner_of (w :: args) inner.
Proof. intros Hgo [Hne [k ->]]%Hgo. by apply drop_inner_of. Qed.

Lemma strip_prefix_inner cmd inner :
  strip_transparent_prefix cmd = Peeled inner → inner_of cmd inner.
Proof.
  destruct cmd as [|w args]; simpl; [done|].
  repeat case_match; try done.
  - apply (stops_in_inner_of strip_exec_go), strip_exec_stops.
  - apply (stops_in_inner_of strip_command_go), strip_command_stops.
  - unfold strip_builtin_prefix. simpl. destruct args as [|tok args]; [done|].
    case_match; [done|]. intros [= <-]. apply (drop_inner_of 0). done.
Qed.

Lemma peel_inner cmd inner : peel cmd inner → inner_of cmd inner.
Proof. intros [H|H]; [by apply strip_wrapper_inner|by apply strip_prefix_inner]. Qed.

(** The names of wrappers and of transparent prefixes are disjoint, so there is at most
    one way to peel. *)
Lemma strip_wrapper_not_prefix cmd inner :
  strip_wrapper_command cmd = Some inner →
  is_wrapper_command cmd = true ∧ strip_transparent_prefix cmd = NotPrefix.
Proof.
  destruct cmd as [|w args]; [done|]. intros H.
  assert (Hn : basename w ∈ [lit "timeout"; lit "nice"; lit "ionice"; lit "chrt";
                            lit "stdbuf"; lit "env"]).
  { apply one_of_In. destruct (one_of _ _) eqn:Ho; [done|]. unfold one_of in Ho. simpl in Ho.
    bool_to_prop. simpl in H.
    by repeat match goal with E : str_eqb _ _ = false |- _ => rewrite E in H; clear E end. }
  split.
  - unfold is_wrapper_command, head_basename. simpl. by apply one_of_In.
  - unfold strip_transparent_prefix. rewrite !elem_of_cons in Hn.
    destruct (str_eqb w [] || str_eqb w NUL); [done|].
    destruct Hn as [->|[->|[->|[->|[->|[->|Hn]]]]]]; try done.
    by apply elem_of_nil in Hn.
Qed.

Lemma peel_deterministic cmd i1 i2 : peel cmd i1 → peel cmd i2 → i1 = i2.
Proof.
  intros [H1|H1] [H2|H2]; try congruence.
  - apply strip_wrapper_not_prefix in H1 as [_ H1]. congruence.
  - apply strip_wrapper_not_prefix in H2 as [_ H2]. congruence.
Qed.

Lemma peel_nf_unique cmd n1 n2 :
  rtc peel cmd n1 → nf peel n1 → rtc peel cmd n2 → nf peel n2 → n1 = n2.
Proof.
  intros H1; revert n2; induction H1 as [x|x y z Hxy Hyz IH]; intros n2 Hn1 H2 Hn2.
  - destruct H2 as [|x y ? Hxy]; [done|]. destruct Hn1. by exists y.
  - destruct H2 as [x|x y' n2 Hxy' H2]; [destruct Hn2; by exists y|].
    assert (y = y') as <- by (by eapply peel_deterministic). by apply IH.
Qed.

Lemma still_peelable_nf cmd : still_peelable cmd = false → nf peel cmd.
Proof.
  unfold still_peelable. intros [Hw Ht]%orb_false_iff [inner [H|H]].
  - apply strip_wrapper_not_prefix in H as Hn. destruct Hn as [Hn _].
    rewrite Hn, H in Hw. done.
  - rewrite H in Ht. done.
Qed.

Lemma unwrap_go_rtc rounds cmd cd ss un :
  rtc peel cmd (cw_words (unwrap_go rounds cmd cd ss un)).
Proof.
  revert cmd cd ss un; induction rounds as [|r IH]; intros; simpl; [done|].
  destruct (strip_wrapper_command cmd) as [inner|] eqn:E; simpl; [|done].
  eapply rtc_l; [by apply peel_wrapper|apply IH].
Qed.

Lemma peel_transparent_go_rtc rounds cmd inner :
  peel_transparent_go rounds cmd = Ready inner → rtc peel cmd inner.
Proof.
  revert cmd; induction rounds as [|r IH]; intros cmd; simpl;
    destruct (strip_transparent_prefix cmd) as [|i|] eqn:E; try done;
    try (by intros [= ->]).
  intros H%IH. eapply rtc_l; [by apply peel_prefix|done].
Qed.

Lemma normalize_go_rtc rounds n : rtc peel (words n) (words (normalize_go rounds n)).
Proof.
  revert n; induction rounds as [|r IH]; intros n; simpl; [done|].
  pose proof (unwrap_go_rtc MAX_WRAPPER_DEPTH (words n) false false false) as Hw.
  fold (unwrap_wrappers_checked (words n)) in Hw.
  destruct (_ || _); [done|].
  destruct (peel_transparent_prefixes _) as [inner|] eqn:E; [|done].
  apply peel_transparent_go_rtc in E.
  destruct (_ =? _); simpl; [by etransitivity|].
  etransitivity; [exact Hw|]. etransitivity; [exact E|].
  exact (IH (mkNorm inner _ _ _ _ _)).
Qed.

Lemma finish_normalize_words n : words (finish_normalize n) = words n.
Proof. unfold finish_normalize. by destruct (_ && still_peelable _). Qed.

Lemma normalize_rtc ws : rtc peel ws (words (normalize_command_words ws)).
Proof.
  unfold normalize_command_words. rewrite finish_normalize_words.
  exact (normalize_go_rtc MAX_NORMALIZE_ROUNDS (mkNorm ws false false false false false)).
Qed.

(** No fail-closed flag is set: the policy may trust the normalized words. *)
Definition trusted (n : NormalizedCommandPeel) : bool :=
  negb (exhausted n) && negb (ambiguous n) && negb (n_env_options_uncertain n)
  && negb (n_has_split_string n).

Lemma finish_normalize_nf n :
  trusted (finish_normalize n) = true → nf peel (words (finish_normalize n)).
Proof.
  unfold finish_normalize, trusted.
  destruct (_ && still_peelable _) eqn:E; simpl; [done|]. intros H. bool_to_prop.
  apply still_peelable_nf. destruct (still_peelable (words n)); [|done].
  repeat match goal with H : _ n = false |- _ => rewrite H in E; clear H end. done.
Qed.

Lemma normalize_nf ws :
  trusted (normalize_command_words ws) = true → nf peel (words (normalize_command_words ws)).
Proof. apply finish_normalize_nf. Qed.

Lemma rtc_peel_suffix cmd inner : rtc peel cmd inner → ∃ k, inner = drop k cmd.
Proof.
  induction 1 as [x|x y z Hxy _ [k ->]]; [by exists 0|].
  apply peel_inner in Hxy as (j & -> & _). exists (j + k). by rewrite drop_drop.
Qed.

(** When no fail-closed flag is raised, normalization has found the command that really
    runs: the words are reached by peeling wrappers ([timeout], [nice], [env], ...) and
    prefixes ([exec], [command], [builtin]) one at a time, nothing more can be peeled, no
    other fully peeled command exists, and the words are a suffix of the original ones. *)
Theorem normalize_finds_command ws :
  trusted (normalize_command_words ws) = true →
  rtc peel ws (words (normalize_command_words ws))
  ∧ nf peel (words (normalize_command_words ws))
  ∧ (∀ n, rtc peel ws n → nf peel n → n = words (normalize_command_words ws))
  ∧ ∃ k, words (normalize_command_words ws) = drop k ws.
Proof.
  intros Ht. pose proof (normalize_rtc ws) as Hr. pose proof (normalize_nf ws Ht) as Hn.
  split; [exact Hr|]. split; [exact Hn|]. split.
  - intros n H1 H2. by eapply peel_nf_unique.
  - by apply rtc_peel_suffix.
Qed.

Lemma normalize_finds_command_witness :
  trusted (normalize_command_words
    [lit "timeout"; lit "-k"; lit "5"; lit "10"; lit "env"; lit "A=1"; lit "exec"; lit "rm"; lit "x"]) = true
  ∧ nf peel (words (normalize_command_words
    [lit "timeout"; lit "-k"; lit "5"; lit "10"; lit "env"; lit "A=1"; lit "exec"; lit "rm"; lit "x"])).
Proof.
  split; [vm_compute; reflexivity|].
  apply normalize_finds_command. vm_compute. reflexivity.
Defined.

End Argv.

Module Script.

(** ** Syntax trees

    What the walk reads of a tree-sitter node: its kind, whether it is named, its byte
    span, its text in the source ([utf8_text], [None] when not UTF-8) and its children. *)
Inductive Node := mkNode {
  kind : str;
  is_named : bool;
  start_byte : nat;
  end_byte : nat;
  utf8_text : option str;
  children : list Node
}.

Record Tree := mkTree { root_node : Node; has_error : bool }.

Record PlainCommand := mkPlain {
  pc_words : list str;
  span_start : nat;
  span_end : nat
}.

Definition ALLOWED_KINDS : list str :=
  [lit "program"; lit "list"; lit "pipeline"; lit "command"; lit "command_name"; lit "word";
   lit "string"; lit "string_content"; lit "raw_string"; lit "number"; lit "concatenation";
   lit "variable_assignment"; lit "variable_name"; lit "redirected_statement";
   lit "file_redirect"; lit "file_descriptor"; lit "comment"; lit "heredoc_redirect";
   lit "heredoc_start"; lit "heredoc_body"; lit "heredoc_content"; lit "heredoc_end"].

Definition ALLOWED_PUNCT_TOKENS : list str :=
  [lit "&&"; lit "||"; lit ";"; lit "|"; [DQUOTE]; lit "'"; lit "="; lit ">"; lit ">>";
   lit "<"; lit "<<"; lit ">&"; lit "&>"; lit "&>>"].

(** The two rejection tests of the loop body. *)
Definition node_allowed (n : Node) : bool :=
  if is_named n then one_of (kind n) ALLOWED_KINDS
  else
    negb (existsb (λ c, existsb (N.eqb c) (lit "&;|")) (kind n)
          && negb (one_of (kind n) ALLOWED_PUNCT_TOKENS))
    && (one_of (kind n) ALLOWED_PUNCT_TOKENS || str_eqb (trim (kind n)) []).

Definition is_command_node (n : Node) : bool :=
  is_named n && str_eqb (kind n) (lit "command").

(** The [while let Some(node) = stack.pop()] loop.  The top of the stack is the head of
    the list, so pushing the children left to right puts the last one on top. *)
Fixpoint walk (fuel : nat) (stack acc : list Node) : option (list Node) :=
  match stack with
  | [] => Some acc
  | n :: stack' =>
      match fuel with
      | O => None
      | S fuel' =>
          if node_allowed n then
            walk fuel' (rev (children n) ++ stack')
                 (if is_command_node n then acc ++ [n] else acc)
          else None
      end
  end.

Fixpoint node_size (n : Node) : nat :=
  match n with mkNode _ _ _ _ _ cs => S (sum_list_with node_size cs) end.

Record Collected := mkCollected { c_words : list str; c_start : option nat; c_end : option nat }.

Definition push_word (acc : Collected) (text : str) (n : Node) : Collected :=
  mkCollected (c_words acc ++ [text])
    (Some (default (start_byte n) (c_start acc))) (Some (end_byte n)).

(** One iteration over a named child; [None] is the early [return None]. *)
Definition collect_child (acc : Collected) (child : Node) : option Collected :=
  let k := kind child in
  if str_eqb k (lit "variable_assignment") then Some acc
  else if str_eqb k (lit "command_name") then
    word_node ← head (List.filter is_named (children child));
    if negb (str_eqb (kind word_node) (lit "word")) then None
    else text ← utf8_text word_node; Some (push_word acc text word_node)
  else if str_eqb k (lit "word") || str_eqb k (lit "number") then
    text ← utf8_text child; Some (push_word acc text child)
  else if str_eqb k (lit "string") then
    match children child with
    | [c0; c1; c2] =>
        if str_eqb (kind c0) [DQUOTE] && str_eqb (kind c1) (lit "string_content")
           && str_eqb (kind c2) [DQUOTE]
        then text ← utf8_text c1; Some (push_word acc text child)
        else None
    | _ => None
    end
  else if str_eqb k (lit "raw_string") then
    raw ← utf8_text child;
    match strip_prefix [SQUOTE] raw ≫= strip_suffix [SQUOTE] with
    | Some s => Some (push_word acc s child)
    | None => None
    end
  else if str_eqb k (lit "concatenation") then
    text ← utf8_text child; Some (push_word acc text child)
  else None.

Fixpoint collect_children (acc : Collected) (cs : list Node) : option Collected :=
  match cs with
  | [] => Some acc
  | c :: cs' => acc' ← collect_child acc c; collect_children acc' cs'
  end.

Definition parse_plain_command_from_node (cmd : Node) : option PlainCommand :=
  if negb (str_eqb (kind cmd) (lit "command")) then None
  else
    c ← collect_children (mkCollected [] None None) (List.filter is_named (children cmd));
    Some (mkPlain (c_words c) (default (start_byte cmd) (c_start c))
                  (default (end_byte cmd) (c_end c))).

Fixpoint parse_all (nodes : list Node) : option (list PlainCommand) :=
  match nodes with
  | [] => Some []
  | n :: nodes' =>
      c ← parse_plain_command_from_node n; cs ← parse_all nodes'; Some (c :: cs)
  end.

Definition try_parse_word_only_commands_sequence (tree : Tree) : option (list PlainCommand) :=
  if has_error tree then None
  else
    command_nodes ← walk (node_size (root_node tree)) [root_node tree] [];
    parse_all (sort_by_key start_byte command_nodes).

(** [all_commands_from_script], over the parser of tree-sitter-bash. *)
Definition all_commands_from_script (try_parse_shell : str → option Tree) (script : str)
  : option (list PlainCommand) :=
  tree ← try_parse_shell script; try_parse_word_only_commands_sequence tree.

(** ** The walk visits the whole tree *)

Fixpoint visit (n : Node) : list Node :=
  n :: (fix go cs := match cs with [] => [] | c :: cs' => go cs' ++ visit c end) (children n).
Definition visits (stack : list Node) : list Node := flat_map visit stack.

Lemma visit_eq n : visit n = n :: visits (rev (children n)).
Proof.
  destruct n as [k nm s e t cs]; simpl. f_equal. unfold visits.
  induction cs as [|c cs IH]; simpl; [done|].
  rewrite IH, flat_map_app. simpl. by rewrite app_nil_r.
Qed.

Lemma node_size_eq n : node_size n = S (sum_list_with node_size (children n)).
Proof. by destruct n. Qed.

(** The fuel is the number of nodes: the loop never runs out of it. *)
Lemma walk_visits fuel stack acc :
  sum_list_with node_size stack ≤ fuel →
  walk fuel stack acc =
    if forallb node_allowed (visits stack)
    then Some (acc ++ List.filter is_command_node (visits stack)) else None.
Proof.
  revert stack acc; induction fuel as [|fuel IH]; intros [|n stack] acc Hf; simpl.
  - by rewrite app_nil_r.
  - simpl in Hf. rewrite node_size_eq in Hf. lia.
  - by rewrite app_nil_r.
  - simpl in Hf. rewrite node_size_eq in Hf. rewrite visit_eq. simpl.
    destruct (node_allowed n); simpl; [|done].
    rewrite IH.
    + unfold visits. rewrite flat_map_app. destruct (forallb _ _); [|done].
      destruct (is_command_node n); simpl; [|done]. by rewrite <- app_assoc.
    + rewrite sum_list_with_app, sum_list_with_rev. lia.
Qed.
(** [n] is a node of the tree below [root]. *)
Inductive occurs (n : Node) : Node → Prop :=
| occurs_here : occurs n n
| occurs_below root child : child ∈ children root → occurs n child → occurs n root.

Lemma elem_of_visits n stack : n ∈ visits stack ↔ ∃ x, x ∈ stack ∧ n ∈ visit x.
Proof.
  unfold visits. rewrite list_elem_of_In, in_flat_map.
  split; intros (x & Hx & Hn); exists x; split; by apply list_elem_of_In.
Qed.

Lemma elem_of_visit n root : n ∈ visit root ↔ occurs n root.
Proof.
  split.
  - induction root as [root IH] using (induction_ltof1 _ node_size). unfold ltof in IH.
    rewrite visit_eq, elem_of_cons, elem_of_visits. intros [->|(x & Hx & Hn)]; [constructor|].
    assert (Hc : x ∈ children root) by (by apply elem_of_rev).
    apply (occurs_below n root x Hc). apply IH; [|exact Hn].
    rewrite (node_size_eq root). apply elem_of_Permutation in Hc as [l ->]. simpl. lia.
  - induction 1 as [|root child Hc _ IH]; rewrite visit_eq; [by left|]. right.
    apply elem_of_visits. exists child. split; [|exact IH]. by apply elem_of_rev.
Qed.

Lemma parse_all_Forall2 nodes cs :
  parse_all nodes = Some cs ↔ Forall2 (λ n c, parse_plain_command_from_node n = Some c) nodes cs.
Proof.
  revert cs; induction nodes as [|n nodes IH]; intros cs; simpl.
  - split; [intros [= <-]; constructor|by inversion 1].
  - split.
    + intros (c & Hc & (cs' & Hcs & [= <-])%bind_Some)%bind_Some. constructor; [done|by apply IH].
    + inversion 1 as [|? c ? cs' Hc Hcs]; subst. rewrite Hc. simpl.
      apply IH in Hcs as ->. done.
Qed.

(** Decomposition is all or nothing and misses no command: it succeeds exactly when the
    tree has no error, every node of it is on the allow-list and every command node is
    plain words, and then returns every command node of the tree, in source order. *)
Theorem decomposition_complete tree cs :
  try_parse_word_only_commands_sequence tree = Some cs ↔
  has_error tree = false
  ∧ (∀ n, occurs n (root_node tree) → node_allowed n = true)
  ∧ ∃ nodes,
      nodes = sort_by_key start_byte (List.filter is_command_node (visit (root_node tree)))
      ∧ (∀ n, n ∈ nodes ↔ occurs n (root_node tree) ∧ is_command_node n = true)
      ∧ StronglySorted (λ x y, start_byte x ≤ start_byte y) nodes
      ∧ Forall2 (λ n c, parse_plain_command_from_node n = Some c) nodes cs.
Proof.
  unfold try_parse_word_only_commands_sequence.
  rewrite walk_visits by (simpl; lia). unfold visits. simpl. rewrite app_nil_r.
  set (root := root_node tree).
  assert (Hall : forallb node_allowed (visit root) = true ↔ ∀ n, occurs n root → node_allowed n = true).
  { rewrite forallb_forall. setoid_rewrite <- elem_of_visit. by setoid_rewrite list_elem_of_In. }
  assert (Hin : ∀ n, n ∈ sort_by_key start_byte (List.filter is_command_node (visit root))
                     ↔ occurs n root ∧ is_command_node n = true).
  { intros n. rewrite sort_by_key_perm, <- elem_of_visit, !list_elem_of_In. apply filter_In. }
  rewrite <- Hall. clear Hall. destruct (has_error tree); [by split; [|intros [? _]]|].
  destruct (forallb _ _); simpl; [|by split; [|intros (_ & ? & _)]].
  rewrite parse_all_Forall2. split.
  - intros Hf. split; [done|]. split; [done|]. eexists. split; [reflexivity|].
    split; [exact Hin|]. split; [apply sort_by_key_sorted|exact Hf].
  - by intros (_ & _ & nodes & -> & _ & _ & Hf).
Qed.
End Script.
