(* ===== verification/LexPath.v ===== *)
(** Paths as the permission gate sees them: the parts of [std::path] (Unix) the policy
    uses, and the lexical normalization of
    crates/codegen/xai-grok-paths/src/lib.rs ([normalize_lexically]).  A path is its
    text; nothing here looks at a file system.

    Paths given by the model
    (crates/codegen/xai-grok-tools/src/types/resources.rs): quotes and escapes stripped from
    an argument, and its resolution against the working directory and the directory shown to
    the model. *)
From Stdlib Require Import String Ascii.
From S2P Require Import Prelude RustStr.

Definition SLASH : char := chr "/".
Definition DOT : str := lit ".".
Definition DOTDOT : str := lit "..".

Inductive Component :=
| RootDir
| CurDir
| ParentDir
| Normal (name : str).

Global Instance Component_eq_dec : EqDecision Component.
Proof. solve_decision. Defined.
Global Instance Normal_inj : Inj (=) (=) Normal.
Proof. by intros ? ? [= ->]. Qed.

(** [Path::is_absolute] / [has_root] *)
Definition is_absolute (p : str) : bool := starts_with [SLASH] p.

(** The pieces of a path between separators, each with the component it stands for, if
    any: empty pieces and interior ["."] stand for nothing. *)
Definition piece_component (leading : bool) (s : str) : option Component :=
  if str_eqb s [] then None
  else if str_eqb s DOT then (if leading then Some CurDir else None)
  else if str_eqb s DOTDOT then Some ParentDir
  else Some (Normal s).
Definition tag (leading : bool) (s : str) : str * option Component := (s, piece_component leading s).
Definition tagged (p : str) : list (str * option Component) :=
  if is_absolute p then tag false <$> split_on SLASH (tail p)
  else match split_on SLASH p with
       | [] => []
       | s :: ss => tag true s :: (tag false <$> ss)
       end.

(** [Path::components] *)
Definition components (p : str) : list Component :=
  (if is_absolute p then [RootDir] else []) ++ omap snd (tagged p).

Definition component_str (c : Component) : str :=
  match c with
  | RootDir => [SLASH]
  | CurDir => DOT
  | ParentDir => DOTDOT
  | Normal s => s
  end.

(** [PathBuf::push] *)
Definition push (base p : str) : str :=
  if is_absolute p then p
  else match last base with
       | Some c => if (c =? SLASH)%N then base ++ p else base ++ [SLASH] ++ p
       | None => p
       end.
Definition path_join (base p : str) : str := push base p.
(** [components.into_iter().collect::<PathBuf>()] *)
Definition collect (cs : list Component) : str := foldl push [] (component_str <$> cs).

(** One iteration of the loop of [normalize_lexically] over the component stack. *)
Definition normalize_step (acc : list Component) (c : Component) : list Component :=
  match c with
  | CurDir => acc
  | ParentDir =>
      match last acc with
      | Some (Normal _) => take (length acc - 1) acc
      | Some RootDir => acc
      | _ => acc ++ [c]
      end
  | _ => acc ++ [c]
  end.
Definition normalize_components (cs : list Component) : list Component :=
  foldl normalize_step [] cs.
Definition normalize_lexically (p : str) : str :=
  match normalize_components (components p) with
  | [] => DOT
  | cs => collect cs
  end.

(** [Path::strip_prefix]: component-wise; what is left is the raw text of the remaining
    components without separators or ["."] at its ends. *)
Fixpoint drop_components (k : nat) (ps : list (str * option Component)) : list (str * option Component) :=
  match k, ps with
  | O, _ => ps
  | S _, [] => []
  | S k', (_, Some _) :: ps' => drop_components k' ps'
  | S _, (_, None) :: ps' => drop_components k ps'
  end.
Fixpoint drop_blank (ps : list (str * option Component)) : list (str * option Component) :=
  match ps with
  | (_, None) :: ps' => drop_blank ps'
  | _ => ps
  end.
Definition as_path (ps : list (str * option Component)) : str :=
  join [SLASH] (fst <$> rev (drop_blank (rev (drop_blank ps)))).
Definition path_strip_prefix (p base : str) : option str :=
  let bs := components base in
  if bool_decide (take (length bs) (components p) = bs)
  then Some (as_path (drop_components (length bs - (if is_absolute p then 1 else 0)) (tagged p)))
  else None.

(** [Path::parent]: the text without its last component, [Path::file_name],
    [Path::starts_with] and equality, which compare components. *)
Definition parent_pieces (ps : list (str * option Component)) : option (list (str * option Component)) :=
  match drop_blank (rev ps) with
  | [] => None
  | _ :: rest => Some (rev (drop_blank rest))
  end.
Definition path_parent (p : str) : option str :=
  (λ ps, (if is_absolute p then [SLASH] else []) ++ join [SLASH] (fst <$> ps))
  <$> parent_pieces (tagged p).
Definition file_name (p : str) : option str :=
  match last (components p) with Some (Normal n) => Some n | _ => None end.
Definition path_starts_with (p base : str) : bool :=
  let bs := components base in bool_decide (take (length bs) (components p) = bs).
Definition path_eqb (p q : str) : bool := bool_decide (components p = components q).

(** ** Facts *)

(** A file name: what a [Normal] component can hold. *)
Definition good_name (s : str) : Prop := s ≠ [] ∧ SLASH ∉ s ∧ s ≠ DOT ∧ s ≠ DOTDOT.

Lemma piece_component_Normal b s n : piece_component b s = Some (Normal n) →
  n = s ∧ s ≠ [] ∧ s ≠ DOT ∧ s ≠ DOTDOT.
Proof.
  unfold piece_component.
  destruct (str_eqb s []) eqn:E1; [done|]. destruct (str_eqb s DOT) eqn:E2; [by destruct b|].
  destruct (str_eqb s DOTDOT) eqn:E3; [done|]. intros [= <-].
  apply str_eqb_neq in E1, E2, E3. done.
Qed.

Lemma piece_component_good b s : good_name s → piece_component b s = Some (Normal s).
Proof.
  intros (H1 & _ & H2 & H3). unfold piece_component.
  apply str_eqb_neq in H1, H2, H3. by rewrite H1, H2, H3.
Qed.

Definition normal_ok (c : Component) : Prop :=
  match c with Normal s => good_name s | RootDir => False | _ => True end.

Lemma tagged_ok p : Forall (λ t, ∀ c, t.2 = Some c → normal_ok c) (tagged p).
Proof.
  assert (Htag : ∀ b s, SLASH ∉ s → ∀ c, (tag b s).2 = Some c → normal_ok c).
  { intros b s Hs c. simpl. destruct c as [| | |n]; simpl; try done.
    - unfold piece_component. by repeat case_match.
    - intros (-> & H1 & H2 & H3)%piece_component_Normal. by repeat split. }
  unfold tagged. destruct (is_absolute p).
  - rewrite Forall_fmap. eapply Forall_impl; [apply split_on_nosep|]. intros s Hs. exact (Htag false s Hs).
  - pose proof (split_on_nosep SLASH p) as Hs. destruct (split_on SLASH p) as [|s ss]; [done|].
    apply Forall_cons in Hs as [Hs Hss]. constructor; [exact (Htag true s Hs)|].
    rewrite Forall_fmap. eapply Forall_impl; [exact Hss|]. intros s' Hs'. exact (Htag false s' Hs').
Qed.

Lemma components_body_ok p : Forall normal_ok (omap snd (tagged p)).
Proof.
  induction (tagged_ok p) as [|[s [c|]] l Hx _ IH]; simpl; [done| |done].
  constructor; [by apply Hx|done].
Qed.

Lemma normalize_step_parent cs n : normalize_step (cs ++ [Normal n]) ParentDir = cs.
Proof.
  unfold normalize_step. rewrite last_snoc, length_app. simpl.
  replace (length cs + 1 - 1) with (length cs) by lia. apply take_app_length.
Qed.

(** Normalizing an absolute path leaves the root and file names only. *)
Lemma normalize_rooted cs :
  Forall normal_ok cs →
  ∃ names, Forall good_name names ∧
    normalize_components (RootDir :: cs) = RootDir :: (Normal <$> names).
Proof.
  unfold normalize_components. simpl. intros Hcs.
  assert (Hgen : ∀ names, Forall good_name names →
    ∃ names', Forall good_name names' ∧
      foldl normalize_step (RootDir :: (Normal <$> names)) cs = RootDir :: (Normal <$> names')).
  { induction Hcs as [|c cs Hc _ IH]; intros names Hn; simpl; [by exists names|].
    destruct c as [| | |s]; simpl in Hc; [done|by apply IH| |].
    - destruct names as [|n names _] using rev_ind; [simpl; by apply (IH [])|].
      apply Forall_app in Hn as [Hn _].
      replace (normalize_step (RootDir :: (Normal <$> names ++ [n])) ParentDir)
        with (RootDir :: (Normal <$> names)); [by apply IH|].
      rewrite fmap_app. symmetry. exact (normalize_step_parent (RootDir :: (Normal <$> names)) n).
    - specialize (IH (names ++ [s])). rewrite fmap_app in IH. simpl in IH. apply IH.
      apply Forall_app. by split; [|constructor]. }
  apply (Hgen []). constructor.
Qed.

Lemma good_name_rel n : good_name n → is_absolute n = false.
Proof.
  intros (Hne & Hs & _). unfold is_absolute.
  destruct (starts_with _ n) eqn:E; [|done].
  apply starts_with_spec in E as [r ->]. destruct Hs. by left.
Qed.

Lemma good_name_last n : good_name n → ∃ c, last n = Some c ∧ c ≠ SLASH.
Proof.
  intros (Hne & Hs & _). destruct n as [|c n _] using rev_ind; [done|].
  exists c. rewrite last_snoc. split; [done|]. intros ->. apply Hs.
  rewrite elem_of_app. right. by left.
Qed.

(** The text of a rooted list of names. *)
Definition rooted (names : list str) : str := [SLASH] ++ join [SLASH] names.

Lemma collect_rooted names :
  Forall good_name names → collect (RootDir :: (Normal <$> names)) = rooted names.
Proof.
  unfold collect, rooted. simpl. change (push [] [SLASH]) with [SLASH].
  induction names as [|n names IH] using rev_ind; intros Hn; [done|].
  apply Forall_app in Hn as [Hn [Hgn _]%Forall_cons].
  rewrite <- list_fmap_compose, fmap_app, foldl_app. simpl.
  rewrite <- (list_fmap_compose Normal component_str) in IH. rewrite IH by done.
  unfold push. rewrite good_name_rel by done.
  destruct names as [|m names _] using rev_ind; [done|].
  apply Forall_app in Hn as [_ [Hgm _]%Forall_cons].
  destruct (good_name_last m Hgm) as (c & Hc & Hcs).
  assert (last (SLASH :: join [SLASH] (names ++ [m])) = Some c) as ->.
  { destruct names as [|x names]; [|rewrite join_snoc by done].
    - simpl. change (SLASH :: m) with ([SLASH] ++ m). by rewrite last_app, Hc.
    - rewrite app_comm_cons, last_app, last_app, Hc. done. }
  apply N.eqb_neq in Hcs. rewrite Hcs. rewrite (join_snoc _ (names ++ [m])); [done|].
  by destruct names.
Qed.

Lemma tagged_rooted names :
  Forall good_name names →
  tagged (rooted names) =
    match names with [] => [([], None)] | _ => (λ n, (n, Some (Normal n))) <$> names end.
Proof.
  intros Hn. unfold tagged.
  replace (is_absolute (rooted names)) with true
    by (symmetry; apply starts_with_spec; by exists (join [SLASH] names)).
  simpl. destruct names as [|n names]; [done|].
  rewrite split_on_join; [|done|].
  - apply list_fmap_ext. intros i s Hs. rewrite Forall_lookup in Hn.
    unfold tag. by rewrite piece_component_good by (by eapply Hn).
  - eapply Forall_impl; [exact Hn|]. by intros s (_ & ? & _).
Qed.

Lemma is_absolute_rooted names : is_absolute (rooted names) = true.
Proof. apply starts_with_spec. by exists (join [SLASH] names). Qed.

Lemma components_rooted names :
  Forall good_name names → components (rooted names) = RootDir :: (Normal <$> names).
Proof.
  intros Hn. unfold components. rewrite is_absolute_rooted, tagged_rooted by done.
  simpl. f_equal. destruct names as [|n names]; [done|]. clear Hn.
  generalize (n :: names). intros l. induction l as [|m ms IH]; [done|].
  rewrite !fmap_cons. simpl. f_equal. exact IH.
Qed.

Lemma normalize_absolute p :
  is_absolute p = true →
  ∃ names, Forall good_name names ∧ normalize_lexically p = rooted names.
Proof.
  intros Ha. unfold normalize_lexically, components. rewrite Ha. simpl.
  destruct (normalize_rooted _ (components_body_ok p)) as (names & Hn & ->).
  exists names. split; [done|]. by apply collect_rooted.
Qed.

Lemma drop_components_named k names :
  drop_components k ((λ n, (n, Some (Normal n))) <$> names)
  = (λ n : str, (n, Some (Normal n))) <$> drop k names.
Proof. revert k; induction names as [|n names IH]; intros [|k]; simpl; try done. Qed.

Lemma as_path_named names :
  as_path ((λ n : str, (n, Some (Normal n))) <$> names) = join [SLASH] names.
Proof.
  unfold as_path.
  assert (Hb : ∀ l : list str, drop_blank ((λ n, (n, Some (Normal n))) <$> l)
               = (λ n, (n, Some (Normal n))) <$> l) by by intros [|].
  assert (Hr : ∀ l : list str, rev ((λ n, (n, Some (Normal n))) <$> l)
               = (λ n, (n, Some (Normal n))) <$> rev l) by (intros l; symmetry; apply map_rev).
  rewrite Hb, Hr, Hb, Hr, rev_involutive. f_equal.
  induction names as [|n names IH]; [done|]. rewrite !fmap_cons. simpl. f_equal. exact IH.
Qed.

(** Removing a rooted prefix leaves the remaining names, or fails when the path is not
    below it. *)
Lemma path_strip_prefix_rooted ns bs rel :
  Forall good_name ns → Forall good_name bs →
  path_strip_prefix (rooted ns) (rooted bs) = Some rel →
  ∃ rest, ns = bs ++ rest ∧ rel = join [SLASH] rest.
Proof.
  intros Hns Hbs. unfold path_strip_prefix.
  rewrite !components_rooted, is_absolute_rooted, tagged_rooted by done.
  case_bool_decide as Hp; [|done]. intros [= <-]. simpl in Hp. injection Hp as Hp.
  rewrite length_fmap in *. rewrite <- fmap_take in Hp.
  apply (inj (fmap Normal)) in Hp. exists (drop (length bs) ns).
  rewrite <- Hp at 1. rewrite take_drop. split; [done|].
  simpl length. rewrite ?length_fmap.
  destruct ns as [|n ns]; [by destruct bs|].
  by rewrite drop_components_named, as_path_named, Nat.sub_0_r.
Qed.

(** * Paths given by the model *)

Definition is_quote_char (c : char) : bool := (c =? DQUOTE)%N || (c =? SQUOTE)%N.

(** [while let Some(stripped) = ..]: each round takes two characters. *)
Fixpoint strip_escapes (fuel : nat) (s : str) : str :=
  match fuel with
  | O => s
  | S fuel =>
      let stripped := match strip_suffix [BACKSLASH; chr "n"] s with
                      | Some t => Some t
                      | None =>
                          match strip_suffix [BACKSLASH; chr "r"] s with
                          | Some t => Some t
                          | None => strip_suffix [BACKSLASH; chr "t"] s
                          end
                      end in
      match stripped with
      | Some t => strip_escapes fuel (trim_end t)
      | None => s
      end
  end.
Definition sanitize_model_path_arg (input : str) : str :=
  let trimmed := trim input in
  let quote_wrapped := (2 <=? utf8_len trimmed)%nat
                       && from_option is_quote_char false (head trimmed)
                       && from_option is_quote_char false (last trimmed) in
  let unquoted := trim (trim_end_matches is_quote_char (drop_while is_quote_char trimmed)) in
  if negb quote_wrapped then unquoted else strip_escapes (length unquoted) unquoted.

(** [tilde] is [shellexpand::tilde]. *)
Definition resolve_model_path (tilde : str → str) (cwd : str) (display_cwd : option str) (input : str) : str :=
  let expanded := tilde (sanitize_model_path_arg input) in
  let relative :=
    if negb (is_absolute expanded) && negb (str_eqb expanded []) then
      match path_strip_prefix ([SLASH] ++ expanded) (default cwd display_cwd) with
      | Some suffix => path_join cwd suffix
      | None => path_join cwd expanded
      end
    else path_join cwd expanded in
  match display_cwd with
  | Some display =>
      if is_absolute expanded then
        match path_strip_prefix expanded display with
        | Some suffix => path_join cwd suffix
        | None => expanded
        end
      else relative
  | None => relative
  end.
Definition display_cwd_or_cwd (cwd : str) (display_cwd : option str) : str := default cwd display_cwd.
