(* ===== verification/Rules.v ===== *)
(** Permission rules: the vocabulary of
    crates/codegen/xai-grok-workspace/src/permission/types.rs and the rule-string parser of
    permission/rules.rs.

    Indices of the source are byte offsets of ASCII characters; here they are positions in
    the list of scalar values, which name the same split of the text. *)
From Stdlib Require Import String Ascii.
From S2P Require Import Prelude RustStr.

(** ** Vocabulary *)

Inductive RuleAction := Allow | Deny | Ask.
Inductive ToolFilter := FAny | FBash | FEdit | FRead | FGrep | FMcp | FWebFetch | FWebSearch.
Inductive PatternMode := Glob | Domain.
Inductive PromptPolicy := PromptAsk | PromptDeny | PromptAuto.

Global Instance RuleAction_eq_dec : EqDecision RuleAction.
Proof. solve_decision. Defined.
Global Instance ToolFilter_eq_dec : EqDecision ToolFilter.
Proof. solve_decision. Defined.
Global Instance PatternMode_eq_dec : EqDecision PatternMode.
Proof. solve_decision. Defined.

Record PermissionRule := mkRule {
  action : RuleAction;
  tool : ToolFilter;
  pattern : option str;
  pattern_mode : PatternMode
}.
Global Instance PermissionRule_eq_dec : EqDecision PermissionRule.
Proof. solve_decision. Defined.

Record PermissionConfig := mkConfig {
  rules : list PermissionRule;
  prompt_policy : PromptPolicy
}.

(** ** Permission modes *)

Inductive DefaultPermissionMode :=
| MDefault | MAcceptEdits | MPlan | MAuto | MDontAsk | MBypassPermissions.

Definition mode_from_str (s : str) : result DefaultPermissionMode str :=
  if str_eqb s (lit "default") then Ok MDefault
  else if str_eqb s (lit "acceptEdits") then Ok MAcceptEdits
  else if str_eqb s (lit "plan") then Ok MPlan
  else if str_eqb s (lit "auto") then Ok MAuto
  else if str_eqb s (lit "dontAsk") then Ok MDontAsk
  else if str_eqb s (lit "bypassPermissions") then Ok MBypassPermissions
  else Err s.

Record DefaultModeEffects := mkEffects {
  eff_prompt_policy : PromptPolicy;
  accept_edits : bool;
  bypass_permissions : bool
}.
Definition default_effects : DefaultModeEffects := mkEffects PromptAsk false false.

Definition effects (m : DefaultPermissionMode) : DefaultModeEffects :=
  match m with
  | MAcceptEdits => mkEffects PromptAsk true false
  | MBypassPermissions => mkEffects PromptAsk false true
  | MDefault | MPlan => default_effects
  | MDontAsk => mkEffects PromptDeny false false
  | MAuto => mkEffects PromptAuto false false
  end.

(** ** Rule strings *)

Inductive RuleParseError :=
| UnsupportedToolPrefix (prefix : str)
| UnknownToolPrefix (prefix : str)
| MalformedRule (detail : str).
Global Instance RuleParseError_eq_dec : EqDecision RuleParseError.
Proof. solve_decision. Defined.

Definition tool_name_to_filter (name : str) : option ToolFilter :=
  if str_eqb name (lit "Bash") then Some FBash
  else if str_eqb name (lit "Read") then Some FRead
  else if str_eqb name (lit "Edit") || str_eqb name (lit "Write") then Some FEdit
  else if str_eqb name (lit "MCPTool") then Some FMcp
  else if str_eqb name (lit "Grep") || str_eqb name (lit "Glob") then Some FGrep
  else if str_eqb name (lit "WebFetch") then Some FWebFetch
  else if str_eqb name (lit "WebSearch") then Some FWebSearch
  else None.

(** The backslashes right before [pos]. *)
Fixpoint count_leading (c : char) (s : str) : nat :=
  match s with
  | [] => 0
  | x :: s' => if (x =? c)%N then S (count_leading c s') else 0
  end.
Definition is_unescaped (s : str) (pos : nat) : bool :=
  Nat.even (count_leading BACKSLASH (rev (take pos s))).

Definition unescaped_at (s : str) (target : char) (i : nat) : bool :=
  bool_decide (s !! i = Some target) && is_unescaped s i.
Definition find_first_unescaped (s : str) (target : char) : option nat :=
  List.find (unescaped_at s target) (seq 0 (length s)).
Definition find_last_unescaped (s : str) (target : char) : option nat :=
  List.find (unescaped_at s target) (rev (seq 0 (length s))).

Definition LPAREN : char := chr "(".
Definition RPAREN : char := chr ")".

Definition unescape_rule_content (s : str) : str :=
  if negb (contains_char BACKSLASH s) then s
  else replace2 BACKSLASH BACKSLASH [BACKSLASH]
         (replace2 BACKSLASH RPAREN [RPAREN]
            (replace2 BACKSLASH LPAREN [LPAREN] s)).

Definition strip_domain_prefix (p : str) : str * PatternMode :=
  match strip_prefix (lit "domain:") p with
  | Some domain => (domain, Domain)
  | None => (p, Glob)
  end.

Definition strip_bash_colon_wildcard (p : str) : str :=
  match strip_suffix (lit ":*") p with
  | Some prefix => prefix
  | None => p
  end.

Definition unsupported_tool (name : str) : bool :=
  one_of name [lit "EnterWorktree"; lit "NotebookEdit"; lit "NotebookRead"].
Definition none_if_empty (p : str) : option str := match p with [] => None | _ => Some p end.

Definition parse_permission_rule (rule : str) (act : RuleAction)
  : result PermissionRule RuleParseError :=
  let rule := trim rule in
  match find_first_unescaped rule LPAREN with
  | Some open_paren =>
      let prefix_trimmed := trim (take open_paren rule) in
      let content_and_close := drop (open_paren + 1) rule in
      match find_last_unescaped content_and_close RPAREN with
      | None => Err (MalformedRule (lit "missing closing parenthesis"))
      | Some close_paren =>
          let raw_content := trim (take close_paren content_and_close) in
          let pat :=
            if str_eqb raw_content [] || str_eqb raw_content (lit "*") then []
            else unescape_rule_content raw_content in
          match tool_name_to_filter prefix_trimmed with
          | None =>
              if unsupported_tool prefix_trimmed
              then Err (UnsupportedToolPrefix prefix_trimmed)
              else Err (UnknownToolPrefix prefix_trimmed)
          | Some t =>
              let pat := if bool_decide (t = FBash) then strip_bash_colon_wildcard pat else pat in
              let '(pat, mode) := strip_domain_prefix pat in
              Ok (mkRule act t (none_if_empty pat) mode)
          end
      end
  | None =>
      if unsupported_tool rule then Err (UnsupportedToolPrefix rule)
      else match tool_name_to_filter rule with
      | Some t => Ok (mkRule act t None Glob)
      | None => Ok (mkRule act FAny (none_if_empty rule) Glob)
      end
  end.

(** ** Escaping, the inverse of [unescape_rule_content] *)

Definition escape_char (c : char) : str :=
  if (c =? BACKSLASH)%N || (c =? LPAREN)%N || (c =? RPAREN)%N then [BACKSLASH; c] else [c].
Definition escape_rule_content (s : str) : str := flat_map escape_char s.

(** The text of a rule on a named tool. *)
Definition tool_name (t : ToolFilter) : str :=
  match t with
  | FAny => []
  | FBash => lit "Bash"
  | FEdit => lit "Edit"
  | FRead => lit "Read"
  | FGrep => lit "Grep"
  | FMcp => lit "MCPTool"
  | FWebFetch => lit "WebFetch"
  | FWebSearch => lit "WebSearch"
  end.
Definition mode_prefix (m : PatternMode) : str :=
  match m with Glob => [] | Domain => lit "domain:" end.
Definition rule_text (r : PermissionRule) : str :=
  match pattern r with
  | None => tool_name (tool r)
  | Some p =>
      tool_name (tool r) ++ [LPAREN]
      ++ escape_rule_content (mode_prefix (pattern_mode r) ++ p) ++ [RPAREN]
  end.

(** Rules that have a text: those the syntax does not read as something else. *)
Definition printable (r : PermissionRule) : bool :=
  negb (bool_decide (tool r = FAny)) &&
  match pattern r with
  | None => bool_decide (pattern_mode r = Glob)
  | Some p =>
      negb (str_eqb p []) && no_outer_space (mode_prefix (pattern_mode r) ++ p)
      && (negb (bool_decide (tool r = FBash))
          || negb (ends_with (lit ":*") (mode_prefix (pattern_mode r) ++ p)))
      && match pattern_mode r with
         | Glob => negb (str_eqb p (lit "*")) && negb (starts_with (lit "domain:") p)
         | Domain => true
         end
  end.

Example parse_bash_rule :
  parse_permission_rule (lit "Bash(npm run build)") Allow
  = Ok (mkRule Allow FBash (Some (lit "npm run build")) Glob).
Proof. vm_compute. reflexivity. Qed.
Example parse_bash_colon :
  parse_permission_rule (lit "Bash(git:*)") Deny = Ok (mkRule Deny FBash (Some (lit "git")) Glob).
Proof. vm_compute. reflexivity. Qed.
Example parse_domain :
  parse_permission_rule (lit " WebFetch(domain:x.ai) ") Ask
  = Ok (mkRule Ask FWebFetch (Some (lit "x.ai")) Domain).
Proof. vm_compute. reflexivity. Qed.
Example parse_unclosed :
  parse_permission_rule (lit "Bash(ls") Allow
  = Err (MalformedRule (lit "missing closing parenthesis")).
Proof. vm_compute. reflexivity. Qed.

(** *** The three replacement passes undo the escaping

    Stage by stage: what the text looks like after the escapes of the opening
    parenthesis, then of the closing one, are gone. *)

Definition escape_after1 (c : char) : str :=
  if (c =? BACKSLASH)%N || (c =? RPAREN)%N then [BACKSLASH; c] else [c].
Definition escape_after2 (c : char) : str :=
  if (c =? BACKSLASH)%N then [BACKSLASH; c] else [c].

Lemma unescape_pass1 s :
  replace2 BACKSLASH LPAREN [LPAREN] (flat_map escape_char s) = flat_map escape_after1 s.
Proof.
  induction s as [|c s IH]; [done|]. simpl. unfold escape_char at 1, escape_after1 at 1.
  destruct (N.eqb_spec c BACKSLASH) as [->|H1]; simpl.
  - rewrite replace2_cons2_ne by done. f_equal.
    destruct (flat_map escape_char s) as [|y t] eqn:E.
    + destruct s; [done|]. simpl in E. unfold escape_char in E. by repeat case_match.
    + rewrite <- IH. assert (y ≠ LPAREN) as Hy.
      { destruct s as [|d s]; [done|]. simpl in E. unfold escape_char in E.
        repeat case_match; injection E as <- _; bool_to_prop; done. }
      by rewrite replace2_cons2_ne.
  - destruct (N.eqb_spec c LPAREN) as [->|H2]; simpl.
    + rewrite replace2_match. simpl. f_equal. exact IH.
    + destruct (N.eqb_spec c RPAREN) as [->|H3]; simpl.
      * rewrite replace2_cons2_ne by done. rewrite replace2_cons_ne by done. by rewrite IH.
      * rewrite replace2_cons_ne by done. by rewrite IH.
Qed.

Lemma unescape_pass2 s :
  replace2 BACKSLASH RPAREN [RPAREN] (flat_map escape_after1 s) = flat_map escape_after2 s.
Proof.
  induction s as [|c s IH]; [done|]. simpl. unfold escape_after1 at 1, escape_after2 at 1.
  destruct (N.eqb_spec c BACKSLASH) as [->|H1]; simpl.
  - rewrite replace2_cons2_ne by done. f_equal.
    destruct (flat_map escape_after1 s) as [|y t] eqn:E.
    + destruct s; [done|]. simpl in E. unfold escape_after1 in E. by repeat case_match.
    + rewrite <- IH. assert (y ≠ RPAREN) as Hy.
      { destruct s as [|d s]; [done|]. simpl in E. unfold escape_after1 in E.
        repeat case_match; injection E as <- _; bool_to_prop; done. }
      by rewrite replace2_cons2_ne.
  - destruct (N.eqb_spec c RPAREN) as [->|H3]; simpl.
    + rewrite replace2_match. simpl. f_equal. exact IH.
    + rewrite replace2_cons_ne by done. by rewrite IH.
Qed.

Lemma unescape_pass3 s :
  replace2 BACKSLASH BACKSLASH [BACKSLASH] (flat_map escape_after2 s) = s.
Proof.
  induction s as [|c s IH]; [done|]. simpl. unfold escape_after2 at 1.
  destruct (N.eqb_spec c BACKSLASH) as [->|H1]; simpl.
  - rewrite replace2_match. simpl. f_equal. exact IH.
  - rewrite replace2_cons_ne by done. by rewrite IH.
Qed.

Lemma escape_no_backslash s :
  contains_char BACKSLASH (escape_rule_content s) = false → escape_rule_content s = s.
Proof.
  induction s as [|c s IH]; [done|]. unfold contains_char, escape_rule_content in *. simpl.
  unfold escape_char at 1 3. destruct (_ || _); simpl; [by rewrite ?N.eqb_refl|].
  destruct (N.eqb_spec BACKSLASH c); simpl; [done|]. intros H. by rewrite IH.
Qed.

Lemma unescape_escape s : unescape_rule_content (escape_rule_content s) = s.
Proof.
  unfold unescape_rule_content.
  destruct (contains_char _ _) eqn:E; simpl; [|by apply escape_no_backslash].
  unfold escape_rule_content. by rewrite unescape_pass1, unescape_pass2, unescape_pass3.
Qed.

(** *** Reading back a printed rule *)

Lemma escape_app s t : escape_rule_content (s ++ t) = escape_rule_content s ++ escape_rule_content t.
Proof. apply flat_map_app. Qed.

Lemma escape_even s : Nat.even (count_leading BACKSLASH (rev (escape_rule_content s))) = true.
Proof.
  induction s as [|c s IH] using rev_ind; [done|].
  rewrite escape_app, rev_app_distr. unfold escape_rule_content at 1. simpl. rewrite app_nil_r.
  unfold escape_char. destruct (N.eqb_spec c BACKSLASH) as [->|H1]; simpl.
  - exact IH.
  - destruct (_ || _); simpl; by destruct (N.eqb_spec c BACKSLASH).
Qed.

Lemma escape_no_outer_space s :
  no_outer_space s = true → no_outer_space (escape_rule_content s) = true.
Proof.
  unfold no_outer_space. destruct s as [|a s]; [done|].
  destruct (last (a :: s)) as [b|] eqn:Hl; [|done]. intros H. cbn in H. bool_to_prop.
  assert (Hh : ∃ c, head (escape_rule_content (a :: s)) = Some c ∧ is_whitespace c = false).
  { simpl. unfold escape_char. destruct (_ || _); simpl; eauto. }
  destruct Hh as (c & -> & ->).
  apply last_Some in Hl as [l ->]. rewrite escape_app. unfold escape_rule_content at 2.
  simpl. rewrite app_nil_r. rewrite last_app.
  assert (last (escape_char b) = Some b) as ->; [|simpl; by apply negb_true_iff].
  unfold escape_char. by destruct (_ || _).
Qed.

Lemma find_open name rest :
  forallb (λ c, negb (c =? BACKSLASH)%N && negb (c =? LPAREN)%N) name = true →
  find_first_unescaped (name ++ LPAREN :: rest) LPAREN = Some (length name).
Proof.
  intros Hn. rewrite forallb_forall in Hn. apply find_seq.
  - rewrite length_app. simpl. lia.
  - unfold unescaped_at, is_unescaped. rewrite list_lookup_middle by done.
    rewrite take_app_length. rewrite bool_decide_eq_true_2 by done. simpl.
    destruct (rev name) as [|c r] eqn:E; [done|]. simpl.
    assert (Hc : In c name) by (apply in_rev; rewrite E; by left).
    apply Hn in Hc. bool_to_prop. by destruct (N.eqb_spec c BACKSLASH).
  - intros j Hj. unfold unescaped_at. rewrite lookup_app_l by lia.
    case_bool_decide as Hjl; [|done]. apply list_elem_of_lookup_2, list_elem_of_In, Hn in Hjl.
    by rewrite N.eqb_refl, andb_false_r in Hjl.
Qed.

Lemma find_close content :
  find_last_unescaped (escape_rule_content content ++ [RPAREN]) RPAREN
  = Some (length (escape_rule_content content)).
Proof.
  unfold find_last_unescaped. rewrite length_app. simpl length at 2.
  rewrite Nat.add_1_r. apply find_rev_seq_last.
  unfold unescaped_at, is_unescaped. rewrite list_lookup_middle by done.
  rewrite take_app_length. rewrite bool_decide_eq_true_2 by done. apply escape_even.
Qed.

Lemma escape_eq_iff s t : escape_rule_content s = escape_rule_content t → s = t.
Proof. intros H. by rewrite <- (unescape_escape s), H, unescape_escape. Qed.

(** Parsing [Name(content)] with the content escaped gives the content back to the
    prefix and suffix conventions. *)
Lemma parse_printed t content act :
  t ≠ FAny → no_outer_space content = true → content ≠ lit "*" →
  parse_permission_rule (tool_name t ++ [LPAREN] ++ escape_rule_content content ++ [RPAREN]) act
  = let pat := if bool_decide (t = FBash) then strip_bash_colon_wildcard content else content in
    let '(pat, mode) := strip_domain_prefix pat in
    Ok (mkRule act t (none_if_empty pat) mode).
Proof.
  intros Ht Hs Hstar. unfold parse_permission_rule.
  rewrite trim_id.
  2:{ unfold no_outer_space. simpl app. rewrite !app_comm_cons, !app_assoc, last_snoc.
      by destruct t. }
  simpl app at 2. rewrite find_open by (by destruct t). simpl.
  rewrite take_app_length.
  assert (drop (length (tool_name t) + 1)
            (tool_name t ++ LPAREN :: escape_rule_content content ++ [RPAREN])
          = escape_rule_content content ++ [RPAREN]) as ->.
  { rewrite <- drop_drop, drop_app_length. done. }
  rewrite find_close, take_app_length.
  rewrite (trim_id (escape_rule_content content)) by by apply escape_no_outer_space.
  rewrite (trim_id (tool_name t)) by (by destruct t).
  assert (str_eqb (escape_rule_content content) [] || str_eqb (escape_rule_content content) (lit "*")
          = false) as ->.
  { apply orb_false_iff. split; apply str_eqb_neq.
    - intros H. apply (escape_eq_iff content []) in H. by subst.
    - intros H. by apply (escape_eq_iff content (lit "*")) in H. }
  rewrite unescape_escape.
  replace (tool_name_to_filter (tool_name t)) with (Some t) by (by destruct t). done.
Qed.

Lemma not_starts_with p s : starts_with p s = false → strip_prefix p s = None.
Proof.
  unfold starts_with. rewrite bool_decide_eq_false. destruct (strip_prefix p s); [|done].
  intros H. destruct H. eauto.
Qed.

Lemma not_ends_with p s : ends_with p s = false → strip_suffix p s = None.
Proof.
  unfold ends_with. rewrite bool_decide_eq_false. destruct (strip_suffix p s); [|done].
  intros H. destruct H. eauto.
Qed.

(** Printing a permission rule and parsing the text gives the rule back: the
    parser's escapes, its closing-parenthesis search and its [domain:] and [:*]
    conventions lose nothing on the rules whose text means themselves. *)
Theorem parse_rule_text r :
  printable r = true → parse_permission_rule (rule_text r) (action r) = Ok r.
Proof.
  destruct r as [act t [p|] mode]; unfold printable; simpl; intros H; bool_to_prop.
  2:{ subst mode. by destruct t. }
  unfold rule_text. cbn [pattern tool pattern_mode action]. rewrite parse_printed; [|done|done|].
  2:{ destruct mode; simpl; [|done]. bool_to_prop. by apply str_eqb_neq. }
  assert ((if bool_decide (t = FBash) then strip_bash_colon_wildcard (mode_prefix mode ++ p)
           else mode_prefix mode ++ p) = mode_prefix mode ++ p) as ->.
  { case_bool_decide; [|done]. simpl in *. bool_to_prop.
    unfold strip_bash_colon_wildcard. by rewrite not_ends_with. }
  simpl. unfold strip_domain_prefix. destruct mode; simpl mode_prefix in *.
  - bool_to_prop. simpl app. rewrite not_starts_with by done. by destruct p.
  - assert (strip_prefix (lit "domain:") (lit "domain:" ++ p) = Some p) as ->
      by by apply strip_prefix_Some.
    by destruct p.
Qed.

Lemma parse_rule_text_witness :
  printable (mkRule Deny FBash (Some (lit "rm (all) \x")) Glob) = true ∧
  parse_permission_rule (rule_text (mkRule Deny FBash (Some (lit "rm (all) \x")) Glob)) Deny
  = Ok (mkRule Deny FBash (Some (lit "rm (all) \x")) Glob).
Proof.
  split; [vm_compute; reflexivity|].
  apply (parse_rule_text (mkRule Deny FBash (Some (lit "rm (all) \x")) Glob)).
  vm_compute. reflexivity.
Defined.
