(* ===== verification/PolicySafety.v ===== *)
(** What the permission policy guarantees: precedence and order independence of the rules,
    the conjunctive bash grant, exactness and fail-closed behaviour of the bash command
    gate, and containment of the path spellings.  All theorems hold for every [PolicyEnv];
    the witnesses use the small environment [demo]. *)
From Stdlib Require Import String Ascii.
From S2P Require Import Prelude RustStr Json LexPath Shell Rules Policy.
Import Argv Script.

#[local] Opaque normalize_command_words.

(** ** Severity of gate decisions *)

Definition severity (d : option GateDecision) : nat :=
  match d with None => 0 | Some g => rank g end.

Lemma severity_combine a b :
  severity (combine_gate_decisions a b) = severity a `max` severity b.
Proof.
  destruct a as [a|], b as [b|]; simpl; [|lia|lia|lia].
  destruct (Nat.leb_spec (rank b) (rank a)); simpl; lia.
Qed.

Lemma severity_foldl {A} (f : A → option GateDecision) d l k :
  k ≤ severity (foldl (λ d x, combine_gate_decisions d (f x)) d l) ↔
  k ≤ severity d ∨ ∃ x, x ∈ l ∧ k ≤ severity (f x).
Proof.
  revert d; induction l as [|x l IH]; intros d; simpl.
  - split; [by left|]. intros [|(x & Hx%elem_of_nil & _)]; done.
  - rewrite IH, severity_combine. setoid_rewrite elem_of_cons. split.
    + intros [H|(y & Hy & H)]; [|right; exists y; by auto].
      destruct (Nat.max_spec (severity d) (severity (f x))) as [[_ E]|[_ E]]; rewrite E in H;
        [right; exists x; by auto|by left].
    + intros [H|(y & [->|Hy] & H)]; [left; lia|left; lia|right; by exists y].
Qed.

Lemma dash_c_go_range dyn i saw unrec pre rest j :
  length pre = i →
  dash_c_go dyn i saw unrec rest = LiteralAt j →
  ∃ w, (pre ++ rest) !! j = Some (Literal w).
Proof.
  revert i saw unrec pre. induction rest as [rest IH] using (induction_ltof1 _ length); unfold ltof in IH.
  intros i saw unrec pre Hi.
  assert (Hhere : ∀ w r, rest = Literal w :: r → (pre ++ rest) !! i = Some (Literal w)).
  { intros w r ->. subst i. apply list_lookup_middle. done. }
  assert (Hnext : ∀ a w r, rest = a :: Literal w :: r → (pre ++ rest) !! (i + 1) = Some (Literal w)).
  { intros a w r ->. subst i. change (a :: Literal w :: r) with ([a] ++ Literal w :: r).
    rewrite app_assoc. apply list_lookup_middle. rewrite length_app. simpl. lia. }
  destruct rest as [|[w|] rest]; simpl; [by destruct saw, unrec| |by destruct saw].
  assert (Hstep : ∀ saw unrec, dash_c_go dyn (i + 1) saw unrec rest = LiteralAt j →
                  ∃ w', (pre ++ Literal w :: rest) !! j = Some (Literal w')).
  { intros s u H. rewrite cons_middle, app_assoc. revert H. apply IH; [simpl; lia|].
    rewrite length_app. simpl. lia. }
  assert (Hfin : ∀ k w', (pre ++ Literal w :: rest) !! k = Some (Literal w') →
                 finish_literal dyn k = LiteralAt j →
                 ∃ w', (pre ++ Literal w :: rest) !! j = Some (Literal w')).
  { intros k w' Hk. unfold finish_literal. destruct dyn; [done|]. intros [= <-]. by exists w'. }
  assert (Hno : ∀ b, no_inline b ≠ LiteralAt j) by by intros [].
  assert (Ham : ∀ b, ambiguous_inline b ≠ LiteralAt j) by by intros [].
  destruct (_ || _).
  { destruct saw; simpl; [|by intros ?%Hno]. destruct rest as [|[w'|] rest']; [done| |done].
    apply (Hfin (i + 1) w'). by eapply Hnext. }
  destruct (_ && _).
  { destruct saw; [|by intros ?%Hno]. apply (Hfin i w). by eapply Hhere. }
  destruct (_ || _).
  { destruct rest as [|[w'|] rest']; [by intros ?%Ham| |by intros ?%Ham].
    change (Literal w :: Literal w' :: rest') with ([Literal w; Literal w'] ++ rest').
    rewrite app_assoc. apply IH; [simpl; lia|]. rewrite length_app. simpl. lia. }
  destruct (starts_with (lit "--") w).
  { destruct (one_of _ _); [apply Hstep|]. destruct saw; [done|apply Hstep]. }
  destruct (one_of _ _).
  { destruct rest as [|[w'|] rest']; [by intros ?%Ham| |by intros ?%Ham].
    destruct (negb _); [|by intros ?%Ham].
    change (Literal w :: Literal w' :: rest') with ([Literal w; Literal w'] ++ rest').
    rewrite app_assoc. apply IH; [simpl; lia|]. rewrite length_app. simpl. lia. }
  destruct (_ && _); [apply Hstep|]. destruct (_ && _); [apply Hstep|].
  destruct (_ && _); [by intros ?%Ham|]. destruct (starts_with _ _); [apply Hstep|].
  destruct (_ || _); [by intros ?%Ham|]. apply Hstep.
Qed.

Lemma dash_c_range ws i :
  shell_dash_c_script (Literal <$> ws) = LiteralAt i → ∃ w, ws !! i = Some w.
Proof.
  destruct ws as [|p ws]; simpl; [done|]. destruct (one_of _ _); [|done].
  intros H. apply (dash_c_go_range false 1 false false [Literal p]) in H as [w Hw]; [|done].
  assert ((Literal <$> (p :: ws)) !! i = Some (Literal w)) as Hw' by exact Hw.
  apply list_lookup_fmap_Some in Hw' as (x & _ & Hx). by exists x.
Qed.

Section Safety.
Context `{PolicyEnv}.

(** ** The gate as the worst finding

    The abstract view of the gate: what can be found in a script, with its severity, and
    with [d] levels of nested scripts still to open. *)
Section Findings.
Variable cfg : PermissionConfig.

Definition commands_of (cmd : str) : option (list PlainCommand) :=
  all_commands_from_script try_parse_shell cmd.
Definition inner (c : PlainCommand) : list str := words (normalize_command_words (pc_words c)).
Definition runs_command (cmd : str) (c : PlainCommand) : Prop :=
  ∃ cs, commands_of cmd = Some cs ∧ c ∈ cs.

(** [script] is handed to a nested shell by command [c]. *)
Definition nested (c : PlainCommand) (script : str) : Prop :=
  (∃ i, shell_dash_c_script (Literal <$> inner c) = LiteralAt i ∧ inner c !! i = Some script)
  ∨ env_split_string_script (inner c) = Some script.

Inductive finding : nat → str → nat → Prop :=
| f_opaque d cmd : commands_of cmd = None → finding d cmd 1
| f_untrusted d cmd c :
    runs_command cmd c → trusted (normalize_command_words (pc_words c)) = false → finding d cmd 1
| f_deny d cmd c ws r :
    runs_command cmd c → ws = pc_words c ∨ ws = inner c →
    r ∈ rules cfg → action r = Deny → applies (ABash (join (lit " ") ws)) None r = true →
    finding d cmd 3
| f_ask d cmd c ws r :
    runs_command cmd c → ws = pc_words c ∨ ws = inner c →
    r ∈ rules cfg → action r = Ask → applies (ABash (join (lit " ") ws)) None r = true →
    finding d cmd 2
| f_inline_opaque d cmd c :
    runs_command cmd c →
    shell_dash_c_script (Literal <$> inner c) ∈ [UntrustedScript; Unrecognized] →
    finding d cmd 1
| f_too_deep cmd c script : runs_command cmd c → nested c script → finding 0 cmd 1
| f_nested d cmd c script k :
    runs_command cmd c → nested c script → finding d script k → finding (S d) cmd k.

Lemma escalate_severity seg :
  severity (escalate (compile cfg) seg) =
  if existsb (hit Deny (ABash seg) None) (rules cfg) then 3
  else if existsb (hit Ask (ABash seg) None) (rules cfg) then 2 else 0.
Proof.
  pose proof (decision_kind_eq cfg (ABash seg) None) as Hk. unfold escalate, evaluate.
  destruct (existsb (hit Deny _ _) _).
  { by destruct (evaluate_with_cwd _ _ _) as [[]|]. }
  destruct (existsb (hit Ask _ _) _).
  { by destruct (evaluate_with_cwd _ _ _) as [[]|]. }
  revert Hk. generalize (has_bash_allow_rules (compile cfg)
    && bash_chain_fully_allowed (compile cfg) MAX_INLINE_SHELL_DEPTH seg).
  intros b. by destruct (evaluate_with_cwd _ _ _) as [[]|], b.
Qed.

Definition inline_at (d : nat) : option (str → option GateDecision) :=
  match d with
  | O => None
  | S d => Some (evaluate_bash_command_segments (compile cfg) d)
  end.

Lemma inner_same_length c : length (inner c) = length (pc_words c) → inner c = pc_words c.
Proof.
  unfold inner. destruct (rtc_peel_suffix _ _ (normalize_rtc (pc_words c))) as [k Hk].
  rewrite Hk, length_drop. intros Hl. destruct k as [|k]; [done|].
  destruct (pc_words c); [done|]. simpl in *. lia.
Qed.

(** Severity of the three stages of [evaluate_command_words]. *)
Definition floor_severity (c : PlainCommand) : nat :=
  if trusted (normalize_command_words (pc_words c)) then 0 else 1.
Definition rule_severity (c : PlainCommand) : nat :=
  severity (escalate (compile cfg) (join (lit " ") (pc_words c)))
  `max` severity (escalate (compile cfg) (join (lit " ") (inner c))).
Definition inline_severity (d : nat) (c : PlainCommand) : nat :=
  match shell_dash_c_script (Literal <$> inner c), inline_at d with
  | LiteralAt i, Some eval => severity (eval (default [] (inner c !! i)))
  | NotInline, _ => 0
  | _, _ => 1
  end.
Definition split_severity (d : nat) (c : PlainCommand) : nat :=
  match env_split_string_script (inner c) with
  | Some script =>
      match inline_at d with Some eval => severity (eval script) | None => 1 end
  | None => 0
  end.

Lemma command_words_severity d c :
  severity (evaluate_command_words (compile cfg) (inline_at d) (pc_words c)) =
  floor_severity c `max` rule_severity c `max` inline_severity d c `max` split_severity d c.
Proof.
  unfold evaluate_command_words. fold (inner c).
  set (norm := normalize_command_words (pc_words c)).
  set (d1 := combine_gate_decisions _ _).
  assert (Hd1 : severity d1 = floor_severity c).
  { subst d1. rewrite severity_combine. unfold floor_severity, trusted. fold norm.
    by destruct (exhausted norm), (ambiguous norm), (n_env_options_uncertain norm),
      (n_has_split_string norm). }
  set (d2 := foldl _ _ _).
  assert (Hd2 : severity d2 = floor_severity c `max` rule_severity c).
  { subst d2. unfold rule_severity. change (words norm) with (inner c).
    destruct (Nat.eqb_spec (length (inner c)) (length (pc_words c))) as [E|E]; simpl;
      rewrite !severity_combine, Hd1; [|lia].
    apply inner_same_length in E. rewrite E. lia. }
  clearbody d2. clear d1 Hd1. change (words norm) with (inner c).
  set (d3 := match shell_dash_c_script _ with NotInline => _ | _ => _ end).
  assert (Hd3 : severity d3 = floor_severity c `max` rule_severity c `max` inline_severity d c).
  { subst d3. unfold inline_severity.
    destruct (shell_dash_c_script _), (inline_at d);
      rewrite ?severity_combine, Hd2; first [reflexivity|simpl; lia]. }
  clearbody d3. unfold split_severity.
  destruct (env_split_string_script (inner c)); [|lia].
  destruct (inline_at d); rewrite severity_combine, Hd3; simpl; lia.
Qed.
Lemma segments_severity d cmd k :
  0 < k →
  k ≤ severity (evaluate_bash_command_segments (compile cfg) d cmd) ↔
  (commands_of cmd = None ∧ k ≤ 1)
  ∨ ∃ c, runs_command cmd c
         ∧ k ≤ severity (evaluate_command_words (compile cfg) (inline_at d) (pc_words c)).
Proof.
  intros Hk.
  assert (evaluate_bash_command_segments (compile cfg) d cmd =
    match commands_of cmd with
    | None => Some GAskFailClosed
    | Some segments =>
        foldl (λ dec parsed, combine_gate_decisions dec
                 (evaluate_command_words (compile cfg) (inline_at d) (pc_words parsed))) None segments
    end) as -> by (destruct d; reflexivity).
  unfold runs_command. destruct (commands_of cmd) as [cs|].
  - rewrite (severity_foldl (λ c, evaluate_command_words (compile cfg) (inline_at d) (pc_words c))).
    simpl. split.
    + intros [?|(c & Hc & Hle)]; [lia|]. right. eauto.
    + intros [[[=] _]|(c & (cs' & [= <-] & Hc) & Hle)]. right. eauto.
  - simpl. split; [by left|]. intros [[_ ?]|(c & (cs' & [=] & _) & _)]. done.
Qed.

Lemma nested_severity c script d :
  nested c script →
  (if d is S d' then severity (evaluate_bash_command_segments (compile cfg) d' script) else 1)
  ≤ severity (evaluate_command_words (compile cfg) (inline_at d) (pc_words c)).
Proof.
  intros Hn. rewrite command_words_severity. destruct Hn as [(i & Hi & Hs)|Hs].
  - assert (inline_severity d c
            = if d is S d' then severity (evaluate_bash_command_segments (compile cfg) d' script) else 1)
      as <- by (unfold inline_severity; rewrite Hi, Hs; by destruct d). lia.
  - assert (split_severity d c
            = if d is S d' then severity (evaluate_bash_command_segments (compile cfg) d' script) else 1)
      as <- by (unfold split_severity; rewrite Hs; by destruct d). lia.
Qed.

Lemma form_severity c ws :
  ws = pc_words c ∨ ws = inner c →
  severity (escalate (compile cfg) (join (lit " ") ws)) ≤ rule_severity c.
Proof. unfold rule_severity. intros [-> | ->]; lia. Qed.

(** Nothing found is missed. *)
Lemma finding_le d cmd k :
  finding d cmd k → k ≤ severity (evaluate_bash_command_segments (compile cfg) d cmd).
Proof.
  induction 1 as [d cmd Hn|d cmd c Hc Ht|d cmd c ws r Hc Hws Hr Ha Hm|d cmd c ws r Hc Hws Hr Ha Hm
                 |d cmd c Hc Ho|cmd c script Hc Hn|d cmd c script k Hc Hn Hk IH].
  all: first [destruct (decide (k = 0)) as [->|]; [lia|]|idtac].
  all: apply segments_severity; [lia|].
  { left. split; [done|lia]. }
  all: right; exists c; split; [exact Hc|].
  1: { rewrite command_words_severity. unfold floor_severity. rewrite Ht. lia. }
  1,2: rewrite command_words_severity; apply form_severity in Hws; rewrite escalate_severity in Hws;
       assert (Hx := proj2 (hit_exists _ (ABash (join (lit " ") ws)) None (rules cfg))
                       (ex_intro _ r (conj Hr (conj Ha Hm)))); rewrite Hx in Hws.
  1: lia.
  1: destruct (existsb _ _); lia.
  1: { rewrite command_words_severity. unfold inline_severity.
       rewrite !elem_of_cons, elem_of_nil in Ho.
       destruct Ho as [-> |[-> |[]]]; simpl; lia. }
  1: { exact (nested_severity c script 0 Hn). }
  etransitivity; [exact IH|]. exact (nested_severity c script (S d) Hn).
Qed.

Lemma rule_severity_found d cmd c :
  runs_command cmd c → 0 < rule_severity c → finding d cmd (rule_severity c).
Proof.
  intros Hc Hpos.
  assert (∃ ws, (ws = pc_words c ∨ ws = inner c) ∧
                rule_severity c = severity (escalate (compile cfg) (join (lit " ") ws)))
    as (ws & Hws & E).
  { unfold rule_severity.
    destruct (Nat.max_spec (severity (escalate (compile cfg) (join (lit " ") (pc_words c))))
                (severity (escalate (compile cfg) (join (lit " ") (inner c))))) as [[_ ->]|[_ ->]];
      eexists; (split; [|reflexivity]); auto. }
  rewrite E in *. rewrite escalate_severity in *.
  destruct (existsb (hit Deny _ _) _) eqn:Hd.
  { apply hit_exists in Hd as (r & ? & ? & ?). by eapply f_deny. }
  destruct (existsb (hit Ask _ _) _) eqn:Hq; [|lia].
  apply hit_exists in Hq as (r & ? & ? & ?). by eapply f_ask.
Qed.

Lemma command_severity_le d cmd c :
  runs_command cmd c →
  severity (evaluate_command_words (compile cfg) (inline_at d) (pc_words c))
  ≤ severity (evaluate_bash_command_segments (compile cfg) d cmd).
Proof.
  intros Hc. destruct (severity (evaluate_command_words _ _ _)) as [|k] eqn:E; [lia|].
  apply segments_severity; [lia|]. right. exists c. split; [exact Hc|lia].
Qed.

Lemma nested_found d cmd c script k :
  runs_command cmd c → nested c script →
  (∀ d' script k, d = S d' →
     severity (evaluate_bash_command_segments (compile cfg) d' script) = S k → finding d' script (S k)) →
  (if inline_at d is Some eval then severity (eval script) else 1) = S k → finding d cmd (S k).
Proof.
  intros Hc Hn IH E. destruct d as [|d]; simpl in E.
  - injection E as <-. by eapply f_too_deep.
  - eapply f_nested; [exact Hc|exact Hn|]. by apply IH.
Qed.

(** What the gate reports was found. *)
Lemma severity_found d cmd k :
  severity (evaluate_bash_command_segments (compile cfg) d cmd) = S k → finding d cmd (S k).
Proof.
  revert cmd k; induction d as [d IH'] using lt_wf_ind; intros cmd k Hk.
  assert (IH : ∀ d' script k, d = S d' →
     severity (evaluate_bash_command_segments (compile cfg) d' script) = S k → finding d' script (S k))
    by (intros d' script k' ->; apply IH'; lia).
  clear IH'. pose proof (proj1 (segments_severity d cmd (S k) (Nat.lt_0_succ k))
    (Nat.eq_le_incl _ _ (eq_sym Hk))) as [[Hn Hle]|(c & Hc & Hle)].
  { destruct k; [by apply f_opaque|lia]. }
  pose proof (command_severity_le d cmd c Hc) as Hge. rewrite Hk in Hge.
  rewrite command_words_severity in Hle, Hge.
  assert (Hcase : floor_severity c = S k ∨ rule_severity c = S k
                  ∨ inline_severity d c = S k ∨ split_severity d c = S k) by lia.
  clear Hle Hge. destruct Hcase as [E|[E|[E|E]]].
  - unfold floor_severity in E. destruct (trusted _) eqn:Ht; [done|]. injection E as <-.
    by eapply f_untrusted.
  - rewrite <- E. apply rule_severity_found; [exact Hc|lia].
  - unfold inline_severity in E. destruct (shell_dash_c_script _) as [|i| |] eqn:Hi; [done| | |].
    + destruct (dash_c_range _ _ Hi) as [script Hs]. rewrite Hs in E.
      eapply (nested_found d cmd c script); [exact Hc|left; eauto|exact IH|].
      by destruct (inline_at d).
    + injection E as <-. eapply f_inline_opaque; [exact Hc|]. rewrite Hi, !elem_of_cons. auto.
    + injection E as <-. eapply f_inline_opaque; [exact Hc|]. rewrite Hi, !elem_of_cons. auto.
  - unfold split_severity in E. destruct (env_split_string_script _) as [script|] eqn:Hs; [|done].
    eapply (nested_found d cmd c script); [exact Hc|by right|exact IH|].
    by destruct (inline_at d).
Qed.
End Findings.
(** ** What a bash grant covers *)

(** The commands a script runs, those of the scripts it hands to [sh -c] included. *)
Inductive executes : str → PlainCommand → Prop :=
| ex_command cmd c : runs_command cmd c → executes cmd c
| ex_inline cmd c i script c' :
    runs_command cmd c → shell_dash_c_script (Literal <$> inner c) = LiteralAt i →
    inner c !! i = Some script → executes script c' → executes cmd c'.

(** An allow rule grants the command that remains after peeling. *)
Definition granted (cfg : PermissionConfig) (c : PlainCommand) : Prop :=
  nf peel (inner c) ∧ inner c ≠ [] ∧
  ∃ r, r ∈ rules cfg ∧ action r = Allow ∧ on_bash r = true
       ∧ bash_allow_pattern_matches (join (lit " ") (inner c)) r (compile_rule r) = true.

Definition segment_allowed (cfg : PermissionConfig) (d : nat) (c : PlainCommand) : bool :=
  trusted (normalize_command_words (pc_words c)) && bash_words_allowed (compile cfg) (inner c)
  && match shell_dash_c_script (Literal <$> inner c), d with
     | LiteralAt i, S d' => bash_chain_fully_allowed (compile cfg) d' (default [] (inner c !! i))
     | NotInline, _ => true
     | _, _ => false
     end.

Lemma chain_eq cfg d cmd :
  bash_chain_fully_allowed (compile cfg) d cmd =
  match commands_of cmd with
  | Some (c :: cs) => forallb (segment_allowed cfg d) (c :: cs)
  | _ => false
  end.
Proof.
  unfold commands_of. destruct d as [|d]; cbn [bash_chain_fully_allowed];
    (destruct (all_commands_from_script _ _) as [[|c cs]|]; [reflexivity| |reflexivity]);
    apply forallb_ext_in; intros x; unfold segment_allowed; fold (inner x);
    (destruct (trusted _); [|reflexivity]);
    (destruct (bash_words_allowed _ _); [|reflexivity]);
    (destruct (shell_dash_c_script _); reflexivity).
Qed.

Lemma segment_allowed_granted cfg d c : segment_allowed cfg d c = true → granted cfg c.
Proof.
  unfold segment_allowed. intros [[Ht Ha]%andb_true_iff _]%andb_true_iff.
  apply bash_words_allowed_iff in Ha as [Hne Hr]. split; [|done].
  by apply normalize_nf.
Qed.

Lemma chain_segments cfg d cmd c :
  bash_chain_fully_allowed (compile cfg) d cmd = true → runs_command cmd c →
  segment_allowed cfg d c = true.
Proof.
  rewrite chain_eq. intros Hch (cs & Hcs & Hc). rewrite Hcs in Hch.
  destruct cs as [|x cs]; [done|]. rewrite forallb_forall in Hch. apply Hch.
  by apply list_elem_of_In.
Qed.

Lemma chain_granted cfg d cmd c :
  bash_chain_fully_allowed (compile cfg) d cmd = true → executes cmd c → granted cfg c.
Proof.
  intros Hch Hex. revert d Hch.
  induction Hex as [cmd c Hc|cmd c i script c' Hc Hi Hs _ IH]; intros d Hch.
  - eapply segment_allowed_granted, chain_segments; [exact Hch|exact Hc].
  - apply (chain_segments _ _ _ c) in Hch; [|exact Hc]. unfold segment_allowed in Hch.
    apply andb_true_iff in Hch as [_ Hch]. rewrite Hi, Hs in Hch.
    destruct d as [|d]; [done|]. by apply (IH d).
Qed.

Lemma deny_on_bash act cmd cwd r : act ≠ Allow → hit act (ABash cmd) cwd r = true →
  restricts r && on_bash r = true.
Proof.
  unfold hit, applies. intros Hact Hh. bool_to_prop. unfold restricts, on_bash.
  destruct (action r), (tool r); simpl in *; congruence.
Qed.

Lemma restrictions_on cfg act cmd cwd r :
  act ≠ Allow → r ∈ rules cfg → hit act (ABash cmd) cwd r = true →
  has_bash_command_restrictions (compile cfg) = true.
Proof. intros Hact Hr Hh. apply existsb_elem. exists r. split; [done|]. by eapply deny_on_bash. Qed.

Lemma finding_restricted cfg d cmd k :
  finding cfg d cmd k → 1 < k → has_bash_command_restrictions (compile cfg) = true.
Proof.
  induction 1 as [| |d cmd c ws r Hc Hws Hr Ha Hm|d cmd c ws r Hc Hws Hr Ha Hm| | |]; intros Hk;
    try lia; try (by auto).
  - apply (restrictions_on cfg Deny (join (lit " ") ws) None r); [done|exact Hr|].
    unfold hit. by rewrite Ha, Hm, bool_decide_eq_true_2.
  - apply (restrictions_on cfg Ask (join (lit " ") ws) None r); [done|exact Hr|].
    unfold hit. by rewrite Ha, Hm, bool_decide_eq_true_2.
Qed.
Lemma finding_pos cfg d cmd k : finding cfg d cmd k → 0 < k.
Proof. induction 1; lia. Qed.

Lemma finding_perm cfg cfg' d cmd k :
  rules cfg ≡ₚ rules cfg' → finding cfg d cmd k → finding cfg' d cmd k.
Proof.
  intros Hp. induction 1.
  - by apply f_opaque.
  - by eapply f_untrusted.
  - eapply f_deny; eauto. by rewrite <- Hp.
  - eapply f_ask; eauto. by rewrite <- Hp.
  - by eapply f_inline_opaque.
  - by eapply f_too_deep.
  - by eapply f_nested.
Qed.

Lemma segments_severity_perm cfg cfg' d cmd :
  rules cfg ≡ₚ rules cfg' →
  severity (evaluate_bash_command_segments (compile cfg) d cmd)
  ≤ severity (evaluate_bash_command_segments (compile cfg') d cmd).
Proof.
  intros Hp. destruct (severity (evaluate_bash_command_segments (compile cfg) _ _)) as [|k] eqn:E;
    [lia|]. by eapply finding_le, finding_perm, severity_found.
Qed.

(** ** Containment of path spellings *)

Lemma path_match_string_inv s t : path_match_string s = t → BACKSLASH ∉ s → s = t.
Proof.
  intros <-. induction s as [|c s IH]; simpl; intros Hn; [done|].
  apply not_elem_of_cons in Hn as [Hc Hn]. f_equal; [|by apply IH].
  destruct (N.eqb_spec c BACKSLASH); [congruence|done].
Qed.

Lemma path_match_string_dot s : path_match_string s = DOT → s = DOT.
Proof.
  destruct s as [|c [|c' s]]; [done| |done]. unfold path_match_string, DOT. simpl.
  destruct (N.eqb_spec c BACKSLASH); [done|]. by intros [= ->].
Qed.

Lemma join_good_not_dot names : Forall good_name names → names ≠ [] →
  join [SLASH] names ≠ [] ∧ join [SLASH] names ≠ DOT.
Proof.
  intros Hn Hne. destruct names as [|n names]; [done|]. apply Forall_cons in Hn as [Hg Hn].
  destruct Hg as (H1 & H2 & H3 & _). destruct names as [|m names]; [done|].
  rewrite join_cons by done. split.
  - intros H0. apply app_eq_nil in H0 as [? _]. done.
  - destruct n as [|c n]; [done|]. unfold DOT. simpl. intros [= _ H0].
    by apply app_eq_nil in H0 as [_ ?].
Qed.

Lemma path_join_absolute base path :
  is_absolute base = true → is_absolute path = false → is_absolute (path_join base path) = true.
Proof.
  intros Hb Hp. unfold path_join, push. rewrite Hp. unfold is_absolute in Hb.
  apply starts_with_spec in Hb as [r ->]. apply starts_with_spec.
  destruct (last _) eqn:El; [|by apply last_None in El]. destruct (_ =? _)%N; eexists; by rewrite <- app_assoc.
Qed.

Lemma tilde_not_below path names :
  is_tilde_path path = true → Forall good_name names → path_strip_prefix path (rooted names) = None.
Proof.
  unfold is_tilde_path, path_strip_prefix. intros Ht Hn. rewrite components_rooted by done.
  destruct (components path) as [|[| | |n] cs]; done.
Qed.

(** ** The theorems *)

Lemma decision_kind_iff d :
  ((∃ reason, d = Some (DReject reason)) ↔ decision_kind d = Some Deny)
  ∧ (d = Some DAsk ↔ decision_kind d = Some Ask)
  ∧ (d = Some DAllow ↔ decision_kind d = Some Allow).
Proof.
  destruct d as [[]|]; simpl; repeat split; try done; try (by intros [? ?]); eauto.
Qed.

(** C9: The decision is determined by precedence: it is a rejection exactly when some deny
    rule applies, an ask exactly when no deny rule and some ask rule applies, and a grant
    only when neither applies and an allow rule does, which for a bash command means that
    the whole chain is allowed. *)
Theorem evaluate_precedence cfg access cwd :
  let d := evaluate_with_cwd (compile cfg) access cwd in
  let some act := ∃ r, r ∈ rules cfg ∧ action r = act ∧ applies access cwd r = true in
  ((∃ reason, d = Some (DReject reason)) ↔ some Deny)
  ∧ (d = Some DAsk ↔ ¬ some Deny ∧ some Ask)
  ∧ (d = Some DAllow ↔ ¬ some Deny ∧ ¬ some Ask ∧
       if access is ABash cmd
       then has_bash_allow_rules (compile cfg) = true
            ∧ bash_chain_fully_allowed (compile cfg) MAX_INLINE_SHELL_DEPTH cmd = true
       else some Allow).
Proof.
  intros d some. destruct (decision_kind_iff d) as (-> & -> & ->). subst d some.
  rewrite decision_kind_eq. cbv beta. rewrite <- !hit_exists.
  destruct (existsb (hit Deny _ _) _), (existsb (hit Ask _ _) _);
    [intuition congruence|intuition congruence|intuition congruence|].
  split; [|split].
  - destruct access; (match goal with |- (if ?b then _ else _) = _ ↔ _ => destruct b end);
      intuition congruence.
  - destruct access; (match goal with |- (if ?b then _ else _) = _ ↔ _ => destruct b end);
      intuition congruence.
  - destruct access as [| | |cmd| | |];
      try (cbv beta iota; rewrite <- hit_exists; destruct (existsb _ _); intuition congruence).
    cbv beta iota. rewrite <- andb_true_iff.
    destruct (has_bash_allow_rules _ && _); intuition congruence.
Qed.
(** The order of the rules never changes what is permitted: permuted policies give the
    same kind of decision for every access and the same severity at the bash gate. *)
Theorem rule_order_irrelevant cfg cfg' access cwd cmd :
  rules cfg ≡ₚ rules cfg' →
  decision_kind (evaluate_with_cwd (compile cfg) access cwd)
  = decision_kind (evaluate_with_cwd (compile cfg') access cwd)
  ∧ severity (evaluate_bash_command_gate (compile cfg) cmd)
    = severity (evaluate_bash_command_gate (compile cfg') cmd).
Proof.
  intros Hp. split.
  - rewrite !decision_kind_eq. rewrite !(existsb_perm _ _ _ Hp).
    destruct (existsb _ _); [reflexivity|]. destruct (existsb _ _); [reflexivity|].
    destruct access as [| | |c| | |]; [reflexivity|reflexivity|reflexivity| |reflexivity..].
    unfold compile at 1 3. cbn [has_bash_allow_rules].
    by rewrite (existsb_perm _ _ _ Hp), (bash_chain_perm _ _ _ _ Hp).
  - unfold evaluate_bash_command_gate. unfold compile at 1 3. cbn [has_bash_command_restrictions].
    rewrite (existsb_perm _ _ _ Hp). destruct (negb _); [reflexivity|].
    apply Nat.le_antisymm; apply segments_severity_perm; [exact Hp|by symmetry].
Qed.

(** C8: A bash command is granted only when it decomposes into commands and each of them,
    also inside nested [sh -c] scripts at any depth, peels to a command that cannot be
    peeled further and that an allow rule matches, while no deny or ask rule applies. *)
Theorem bash_grant_is_conjunctive cfg cmd cwd :
  evaluate_with_cwd (compile cfg) (ABash cmd) cwd = Some DAllow →
  (∃ c, executes cmd c) ∧ (∀ c, executes cmd c → granted cfg c)
  ∧ ∀ r, r ∈ rules cfg → applies (ABash cmd) cwd r = true → action r = Allow.
Proof.
  intros Hd. assert (Hk := decision_kind_eq cfg (ABash cmd) cwd). rewrite Hd in Hk.
  destruct (existsb (hit Deny _ _) _) eqn:H1; [done|].
  destruct (existsb (hit Ask _ _) _) eqn:H2; [done|].
  destruct (has_bash_allow_rules _ && _) eqn:H3; [|done].
  apply andb_true_iff in H3 as [_ H3]. split; [|split].
  - rewrite chain_eq in H3. destruct (commands_of cmd) as [[|c cs]|] eqn:Hc; [done| |done].
    exists c. apply ex_command. exists (c :: cs). split; [exact Hc|by left].
  - intros c. by apply (chain_granted _ MAX_INLINE_SHELL_DEPTH cmd).
  - intros r Hr Ha. destruct (action r) eqn:Hact; [done| |].
    + assert (existsb (hit Deny (ABash cmd) cwd) (rules cfg) = true); [|congruence].
      apply hit_exists. eauto.
    + assert (existsb (hit Ask (ABash cmd) cwd) (rules cfg) = true); [|congruence].
      apply hit_exists. eauto.
Qed.

(** C1: The bash gate reports exactly the worst finding of the script.  With a deny or ask
    rule on bash in force, every finding within the nesting budget (a denied or asked
    command, raw or peeled, in the script or in a nested one; a part the analysis cannot
    see through) is a lower bound of the reported severity, and the reported severity is
    that of a finding; without such a rule the gate is silent and nothing but
    opaqueness could be found. *)
Theorem gate_is_worst_finding cfg cmd :
  let g := severity (evaluate_bash_command_gate (compile cfg) cmd) in
  if has_bash_command_restrictions (compile cfg)
  then (∀ k, finding cfg MAX_INLINE_SHELL_DEPTH cmd k → k ≤ g)
       ∧ (g = 0 ∨ finding cfg MAX_INLINE_SHELL_DEPTH cmd g)
  else g = 0 ∧ ∀ k, finding cfg MAX_INLINE_SHELL_DEPTH cmd k → k = 1.
Proof.
  unfold evaluate_bash_command_gate.
  destruct (has_bash_command_restrictions (compile cfg)) eqn:Hr; cbn [negb].
  - split; [intros k; apply finding_le|].
    destruct (severity _) as [|k] eqn:E; [by left|]. right. by apply severity_found.
  - split; [reflexivity|]. intros k Hf. pose proof (finding_pos _ _ _ _ Hf).
    destruct (decide (k = 1)); [done|].
    rewrite (finding_restricted _ _ _ _ Hf) in Hr by lia. done.
Qed.

(** The inline [-c] script the classifier points at is a word of the command, so the
    indexing of the evaluator cannot go out of range. *)
Lemma inline_script_in_range ws i :
  shell_dash_c_script (Literal <$> ws) = LiteralAt i →
  i < length ws ∧
  ∃ program, head ws = Some program
    ∧ basename program ∈ [lit "bash"; lit "sh"; lit "dash"; lit "zsh"; lit "ksh"].
Proof.
  intros Hi. destruct (dash_c_range _ _ Hi) as [w Hw]. split; [by eapply lookup_lt_Some|].
  destruct ws as [|p ws]; [done|]. exists p. split; [done|]. apply one_of_In. simpl in Hi.
  by destruct (one_of _ _).
Qed.

(** The workspace-relative spellings of a path are offered only for paths that really
    stay below the working directory: whatever [..], [.] and repeated separators the
    request held, the path then resolves to the normalized working directory followed by
    plain file names, and the spellings are those names.  Tilde paths get none. *)
Theorem relative_spellings_contained path cwd f :
  is_absolute cwd = true → f ∈ tail (path_match_forms path (Some cwd)) →
  is_tilde_path path = false ∧
  ∃ base rest,
    normalize_lexically cwd = rooted base
    ∧ absolute_normalized_path path (Some cwd) = rooted (base ++ rest)
    ∧ Forall good_name (base ++ rest)
    ∧ (rest = [] ∧ f ∈ [DOT; lit "./"]
       ∨ rest ≠ [] ∧ (f = path_match_string (join [SLASH] rest)
                      ∨ f = lit "./" ++ path_match_string (join [SLASH] rest))).
Proof.
  intros Ha Hf. destruct (normalize_absolute cwd Ha) as (base & Hb & Eb).
  unfold path_match_forms in Hf. rewrite Eb in Hf. cbn [tail] in Hf.
  destruct (is_tilde_path path) eqn:Ht.
  { unfold absolute_normalized_path in Hf. rewrite Ht, tilde_not_below in Hf by done.
    by apply elem_of_nil in Hf. }
  split; [done|].
  assert (∃ ns, Forall good_name ns ∧ absolute_normalized_path path (Some cwd) = rooted ns)
    as (ns & Hn & En).
  { unfold absolute_normalized_path. rewrite Ht. apply normalize_absolute.
    destruct (is_absolute path) eqn:Hp; simpl; [done|]. by apply path_join_absolute. }
  rewrite En in *. destruct (path_strip_prefix _ _) as [rel|] eqn:Hrel; [|by apply elem_of_nil in Hf].
  apply path_strip_prefix_rooted in Hrel as (rest & -> & ->); [|done|done].
  exists base, rest. repeat (split; [done|]).
  destruct (decide (rest = [])) as [->|Hne]; [left; split; [done|exact Hf]|right; split; [done|]].
  apply Forall_app in Hn as [_ Hn]. destruct (join_good_not_dot rest Hn Hne) as [H1 H2].
  destruct (str_eqb _ []) eqn:E1.
  { apply str_eqb_eq in E1. by destruct (join [SLASH] rest). }
  destruct (str_eqb _ DOT) eqn:E2.
  { apply str_eqb_eq, path_match_string_dot in E2. done. }
  simpl in Hf. rewrite !elem_of_cons, elem_of_nil in Hf. destruct Hf as [->|[->|[]]]; auto.
Qed.
End Safety.

(** ** A concrete environment for the witnesses

    Globs without wildcards, a shell grammar of words separated by blanks and commands
    separated by semicolons, ASCII lower-casing and hosts of [https] URLs. *)
Section Demo.

Definition word_node (w : str) : Node := mkNode (lit "word") true 0 0 (Some w) [].
Definition command_node (pos : nat) (ws : list str) : Node :=
  match ws with
  | [] => mkNode (lit "command") true pos pos None []
  | name :: args =>
      mkNode (lit "command") true pos pos None
        (mkNode (lit "command_name") true pos pos (Some name) [word_node name] :: (word_node <$> args))
  end.
Definition demo_parse (cmd : str) : option Tree :=
  if existsb (N.eqb (chr "$")) cmd then None
  else
    let parts := split_on (chr ";") cmd in
    let nodes := imap (λ i part, command_node i (split_on (chr " ") (trim part))) parts in
    Some (mkTree (mkNode (lit "program") true 0 0 None nodes) false).

#[local] Instance demo : PolicyEnv := {|
  GlobPattern := str;
  pattern_new p := Some p;
  matches_with p text _ := str_eqb p text;
  url_host u := strip_prefix (lit "https://") u ≫= λ r, head (split_on SLASH r);
  to_lowercase := to_ascii_lowercase;
  try_parse_shell := demo_parse
|}.

Definition demo_rules : list PermissionRule :=
  [mkRule Allow FBash (Some (lit "git")) Glob; mkRule Allow FBash (Some (lit "bash")) Glob;
   mkRule Deny FBash (Some (lit "rm")) Glob].
Definition demo_cfg : PermissionConfig := mkConfig demo_rules PromptAsk.
Definition demo_cfg' : PermissionConfig := mkConfig (rev demo_rules) PromptAsk.

Lemma rule_order_irrelevant_witness :
  decision_kind (evaluate_with_cwd (compile demo_cfg) (ABash (lit "rm -rf /")) None)
  = decision_kind (evaluate_with_cwd (compile demo_cfg') (ABash (lit "rm -rf /")) None)
  ∧ severity (evaluate_bash_command_gate (compile demo_cfg) (lit "git log; timeout 5 rm x"))
    = severity (evaluate_bash_command_gate (compile demo_cfg') (lit "git log; timeout 5 rm x")).
Proof.
  apply (rule_order_irrelevant demo_cfg demo_cfg'). apply Permutation_rev.
Defined.

Lemma bash_grant_is_conjunctive_witness :
  evaluate_with_cwd (compile demo_cfg) (ABash (lit "git log; timeout 5 bash -c git")) None = Some DAllow
  ∧ ∀ c, executes (lit "git log; timeout 5 bash -c git") c → granted demo_cfg c.
Proof.
  split; [vm_compute; reflexivity|].
  apply (bash_grant_is_conjunctive demo_cfg (lit "git log; timeout 5 bash -c git") None).
  vm_compute. reflexivity.
Defined.

(** The gate at work: a denied command behind a wrapper and a nested shell, and a script
    that cannot be decomposed. *)
Example gate_nested_deny :
  severity (evaluate_bash_command_gate (compile demo_cfg) (lit "git log; env A=1 bash -c rm")) = 3.
Proof. vm_compute. reflexivity. Qed.
Example gate_opaque :
  evaluate_bash_command_gate (compile demo_cfg) (lit "git log; $x") = Some GAskFailClosed.
Proof. vm_compute. reflexivity. Qed.

Lemma relative_spellings_contained_witness :
  lit "src/a.rs" ∈ tail (path_match_forms (lit "x/../src//./a.rs") (Some (lit "/w/p")))
  ∧ is_tilde_path (lit "x/../src//./a.rs") = false.
Proof.
  assert (Hf : lit "src/a.rs" ∈ tail (path_match_forms (lit "x/../src//./a.rs") (Some (lit "/w/p"))))
    by (apply (bool_decide_unpack _); vm_compute; exact I).
  split; [exact Hf|].
  exact (proj1 (relative_spellings_contained _ (lit "/w/p") _ eq_refl Hf)).
Defined.

(** A file name with backslashes is one component on Unix, and its spelling turns them into
    separators: [..] can appear in a form after all. *)
Example backslash_name_spells_dotdot :
  path_match_forms (lit "a\..\b") (Some (lit "/w"))
  = [lit "/w/a/../b"; lit "./a/../b"; lit "a/../b"].
Proof. vm_compute. reflexivity. Qed.

(** The [www.] prefix is dropped before lower-casing, so a pattern that spells it in capitals
    does not match its own host. *)
Example capital_www_never_matches :
  (domain_matches (lit "WWW.evil.com") (lit "https://www.evil.com/x"),
   domain_matches (lit "www.evil.com") (lit "https://www.evil.com/x")) = (false, true).
Proof. vm_compute. reflexivity. Qed.
End Demo.
