(* ===== verification/ShellWords.v ===== *)
(** The words of a shell command as the file-access gate reads them
    (crates/codegen/xai-grok-workspace/src/permission/shell_access.rs): the commands,
    redirects and directory changes of a syntax tree with their execution scopes, the
    decoding of quoted words, and the operands of known programs that name files.

    A node of the tree is located by its path to the root, each node with the sibling that
    follows it: [Node::parent] and [Node::next_sibling].  [child_by_field_name] belongs to
    the grammar of tree-sitter-bash and is the interface [TreeFields]. *)
From Stdlib Require Import String Ascii.
From S2P Require Import Prelude RustStr Json LexPath Shell Rules Policy.
Import Argv Script.

Class TreeFields := {
  child_by_field_name : Node → str → option Node;
  field_is_child n f c : child_by_field_name n f = Some c → c ∈ children n
}.

Inductive ShellFileMode := SRead | SWrite.
Global Instance ShellFileMode_eq_dec : EqDecision ShellFileMode.
Proof. solve_decision. Defined.

(** ** Programs and their operands *)

Definition shell_file_mode (program : str) : option ShellFileMode :=
  if one_of program
       [lit "cat"; lit "tac"; lit "nl"; lit "head"; lit "tail"; lit "grep"; lit "egrep";
        lit "fgrep"; lit "rg"; lit "sed"; lit "awk"; lit "less"; lit "more"; lit "bat";
        lit "strings"; lit "xxd"; lit "od"; lit "hexdump"; lit "base64"; lit "base32"; lit "cut";
        lit "sort"; lit "uniq"; lit "wc"; lit "type"; lit "get-content"; lit "gc"; lit "diff";
        lit "comm"; lit "rev"; lit "jq"; lit "yq"; lit "select-string"; lit "sls"; lit "ag";
        lit "ack"; lit "zcat"; lit "zless"; lit "zmore"; lit "zgrep"; lit "zegrep"; lit "zfgrep";
        lit "bzcat"; lit "bzgrep"; lit "xzcat"; lit "xzgrep"; lit "zstdcat"; lit "lz4cat"]
  then Some SRead
  else if one_of program [lit "tee"; lit "set-content"; lit "out-file"; lit "add-content";
                          lit "tee-object"; lit "truncate"]
  then Some SWrite
  else None.

Definition shell_program_name (word : str) : str := basename word.

Definition shell_sed_in_place (words : list str) : bool :=
  existsb (λ word, str_eqb word (lit "--in-place") || starts_with (lit "--in-place=") word
                   || (starts_with (lit "-") word && negb (starts_with (lit "--") word)
                       && contains_char (chr "i") word)) (tail words).

Definition filter_non_empty (v : str) : option str := match v with [] => None | _ => Some v end.

(** One word of the [enumerate] loops below, with the words after it. *)
Definition output_flag_value (token : str) (rest : list str) : option str :=
  match strip_prefix (lit "--output=") token with
  | Some v => Some v
  | None =>
      match strip_prefix (lit "-o") token ≫= filter_non_empty with
      | Some v => Some v
      | None => if str_eqb token (lit "--output") || str_eqb token (lit "-o") then head rest else None
      end
  end.
Fixpoint shell_output_flag_values (words : list str) : list str :=
  match words with
  | [] => []
  | token :: rest => option_list (output_flag_value token rest) ++ shell_output_flag_values rest
  end.

Definition flag_value (flag token : str) (rest : list str) : option str :=
  match strip_prefix (flag ++ lit "=") token with
  | Some v => Some v
  | None =>
      if str_eqb token flag then head rest
      else if negb (starts_with (lit "--") flag) then strip_prefix flag token ≫= filter_non_empty
      else None
  end.
Fixpoint value_flag_values (words : list str) (flag : str) : list str :=
  match words with
  | [] => []
  | token :: rest => option_list (flag_value flag token rest) ++ value_flag_values rest flag
  end.

Fixpoint candidates_go (end_of_options : bool) (words : list str) : list str :=
  match words with
  | [] => []
  | token :: rest =>
      if negb end_of_options && str_eqb token (lit "--") then candidates_go true rest
      else if end_of_options || (negb (str_eqb token (lit "-")) && negb (starts_with (lit "-") token))
      then token :: candidates_go end_of_options rest
      else candidates_go end_of_options rest
  end.
Definition shell_file_candidates (words : list str) : list str := candidates_go false (tail words).

Definition dd_operand (token : str) : option (str * ShellFileMode) :=
  match strip_prefix (lit "if=") token with
  | Some path => Some (path, SRead)
  | None => (λ path, (path, SWrite)) <$> strip_prefix (lit "of=") token
  end.
Definition special_file_operands (program : str) (words : list str) : list (str * ShellFileMode) :=
  if str_eqb program (lit "dd") then omap dd_operand (tail words)
  else if one_of program [lit "sort"; lit "go"; lit "git"] then
    (λ output, (output, SWrite)) <$> shell_output_flag_values words
  else if str_eqb program (lit "rustc") then
    (λ output, (output, SWrite))
    <$> shell_output_flag_values words ++ value_flag_values words (lit "--out-dir")
  else if str_eqb program (lit "rustfmt") then
    (λ path, (path, SWrite)) <$> shell_file_candidates words
  else [].

Definition shell_path_command_operands (program : str) (words : list str)
  : option (list (str * ShellFileMode)) :=
  let operands := shell_file_candidates words in
  if one_of program [lit "cp"; lit "mv"; lit "ln"; lit "install"] then
    dest ← last operands;
    Some (((λ s, (s, SRead)) <$> take (length operands - 1) operands) ++ [(dest, SWrite)])
  else if one_of program [lit "rm"; lit "rmdir"; lit "mkdir"; lit "touch"] then
    Some ((λ c, (c, SWrite)) <$> operands)
  else if str_eqb program (lit "uniq") then
    match operands with
    | input :: output :: _ => Some [(input, SRead); (output, SWrite)]
    | _ => None
    end
  else None.

Definition shell_arg_is_ambiguous (token : str) : bool :=
  contains_char (chr "*") token || contains_char (chr "?") token || contains_char (chr "[") token.

Definition is_directory_operand (token : str) : bool :=
  str_eqb token (lit ".") || str_eqb token (lit "..") || ends_with (lit "/") token.

Definition shell_reader_can_recurse (program : str) (words candidates : list str) : bool :=
  let grep_recursive :=
    one_of program [lit "grep"; lit "egrep"; lit "fgrep"]
    && existsb (λ word, str_eqb word (lit "--recursive") || str_eqb word (lit "--dereference-recursive")
                        || (starts_with (lit "-") word && negb (starts_with (lit "--") word)
                            && (contains_char (chr "r") word || contains_char (chr "R") word))) words in
  let searches_dir :=
    one_of program [lit "rg"; lit "ag"; lit "ack"]
    && ((length candidates <=? 1)%nat || existsb is_directory_operand (tail candidates)) in
  grep_recursive || searches_dir.

(** ** Words *)

(** [raw.as_bytes().get(1) == Some(&b':')]: the first byte is a whole character exactly when
    that character is ASCII. *)
Definition second_byte_is_colon (raw : str) : bool :=
  match raw with c0 :: c1 :: _ => (c0 <? 128)%N && (c1 =? chr ":")%N | _ => false end.
Definition is_windows_path_like (raw : str) : bool :=
  starts_with [BACKSLASH; BACKSLASH] raw
  || (match raw with b :: _ => is_ascii_alphabetic b | [] => false end && second_byte_is_colon raw).

Fixpoint unescape (raw : str) : option str :=
  match raw with
  | [] => Some []
  | ch :: rest =>
      if (ch =? BACKSLASH)%N then
        match rest with [] => None | n :: rest' => cons n <$> unescape rest' end
      else cons ch <$> unescape rest
  end.
Definition decode_unquoted_word (raw : str) : option str :=
  if negb (contains_char BACKSLASH raw) then Some raw
  else if is_windows_path_like raw then Some raw
  else unescape raw.

Fixpoint unescape_double_quoted (content : str) : option str :=
  match content with
  | [] => Some []
  | ch :: rest =>
      if negb (ch =? BACKSLASH)%N then cons ch <$> unescape_double_quoted rest
      else
        match rest with
        | [] => None
        | n :: rest' =>
            if existsb (N.eqb n) [chr "$"; chr "`"; DQUOTE; BACKSLASH; NL]
            then cons n <$> unescape_double_quoted rest'
            else (λ out, BACKSLASH :: n :: out) <$> unescape_double_quoted rest'
        end
  end.
Definition decode_double_quoted_content (content : str) : option str :=
  if negb (contains_char BACKSLASH content) then Some content else unescape_double_quoted content.

Inductive ArgText := ALiteral (s : str) | AAmbiguous.

Definition EXPANSION_KINDS : list str :=
  [lit "expansion"; lit "simple_expansion"; lit "command_substitution";
   lit "arithmetic_expansion"; lit "process_substitution"].
(** Every descendant but the node itself. *)
Definition node_has_expansion (node : Node) : bool :=
  existsb (λ n, one_of (kind n) EXPANSION_KINDS) (tail (visit node)).

Definition literal_or_ambiguous (o : option str) : ArgText :=
  match o with Some s => ALiteral s | None => AAmbiguous end.
(** [raw.strip_prefix(q).and_then(|s| s.strip_suffix(q)).unwrap_or(raw)] *)
Definition unquote (q : char) (raw : str) : str := default raw (strip_prefix [q] raw ≫= strip_suffix [q]).

Definition shell_node_arg (node : Node) : option ArgText :=
  let k := kind node in
  if str_eqb k (lit "variable_assignment") then None
  else if one_of k [lit "word"; lit "number"] then
    Some (literal_or_ambiguous (utf8_text node ≫= decode_unquoted_word))
  else if str_eqb k (lit "raw_string") then
    raw ← utf8_text node; Some (ALiteral (unquote SQUOTE raw))
  else if str_eqb k (lit "string") then
    if node_has_expansion node then Some AAmbiguous
    else raw ← utf8_text node;
         Some (literal_or_ambiguous (decode_double_quoted_content (unquote DQUOTE raw)))
  else if str_eqb k (lit "concatenation") then
    if node_has_expansion node then Some AAmbiguous
    else Some (literal_or_ambiguous (utf8_text node ≫= decode_shell_literal_spelling))
  else Some AAmbiguous.

(** ** Located nodes and execution scopes *)

(** A node with the sibling that follows it, then its ancestors likewise. *)
Abbreviation Located := (list (Node * option Node)).

Fixpoint locate (up : Located) (next : option Node) (n : Node) : list Located :=
  ((n, next) :: up)
  :: (fix go cs := match cs with
                   | [] => []
                   | c :: cs' => go cs' ++ locate ((n, next) :: up) (head cs') c
                   end) (children n).
(** The [while let Some(node) = stack.pop()] walk from the root. *)
Definition located_nodes (root : Node) : list Located := locate [] None root.

Record ExecutionScope := mkScope { sc_start : N; sc_end : N }.
Global Instance ExecutionScope_eq_dec : EqDecision ExecutionScope.
Proof. solve_decision. Defined.
Definition contains_scope (a b : ExecutionScope) : bool :=
  (sc_start a <=? sc_start b)%N && (sc_end b <=? sc_end a)%N.
Definition scope_of (n : Node) : ExecutionScope :=
  mkScope (N.of_nat (start_byte n)) (N.of_nat (end_byte n)).
Definition WHOLE : ExecutionScope := mkScope 0 (2 ^ 64 - 1).

Fixpoint execution_scope (l : Located) : ExecutionScope :=
  match l with
  | (current, next) :: up =>
      match up with
      | [] => WHOLE
      | (parent, _) :: _ =>
          if match next with Some s => str_eqb (kind s) (lit "&") | None => false end then
            scope_of (if str_eqb (kind current) (lit "list") then current else parent)
          else if one_of (kind parent) [lit "subshell"; lit "command_substitution"; lit "process_substitution"]
          then scope_of parent
          else if str_eqb (kind parent) (lit "pipeline") then scope_of current
          else execution_scope up
      end
  | [] => WHOLE
  end.

Inductive InvocationWord := IWLiteral (w : str) | IWUntrusted.
Definition to_shell_word (w : InvocationWord) : ShellWord :=
  match w with IWLiteral w => Literal w | IWUntrusted => Untrusted end.
Definition word_text (w : InvocationWord) : option str :=
  match w with IWLiteral w => Some w | IWUntrusted => None end.
Definition literal_words (ws : list InvocationWord) : list str := omap word_text ws.
Definition shell_words (ws : list InvocationWord) : list ShellWord := to_shell_word <$> ws.

Record ShellInvocation := mkInvocation {
  inv_start_byte : nat;
  inv_scope : ExecutionScope;
  inv_words : list InvocationWord
}.
(** The placeholder keeps operand indexes while preventing wrapper matches. *)
Definition wrapper_words (i : ShellInvocation) : list str :=
  (λ w, default NUL (word_text w)) <$> inv_words i.

Definition invocation_word (child : Node) : option InvocationWord :=
  let operand :=
    if str_eqb (kind child) (lit "command_name")
    then head (List.filter is_named (children child)) ≫= shell_node_arg
    else shell_node_arg child in
  match operand with
  | Some (ALiteral w) => Some (IWLiteral w)
  | Some AAmbiguous => Some IWUntrusted
  | None => None
  end.
Definition invocation_at (l : Located) : option ShellInvocation :=
  match l with
  | (node, _) :: _ =>
      if str_eqb (kind node) (lit "command") then
        Some (mkInvocation (start_byte node) (execution_scope l)
                (omap invocation_word (List.filter is_named (children node))))
      else None
  | [] => None
  end.
Definition shell_command_invocations (root : Node) : list ShellInvocation :=
  sort_by_key inv_start_byte (omap invocation_at (located_nodes root)).

Record CheckedInvocationPeel := mkCheckedPeel {
  ci_words : list InvocationWord;
  ci_has_chdir : bool;
  ci_has_split_string : bool;
  ci_env_options_uncertain : bool;
  ci_exhausted : bool;
  ci_transparent_ambiguous : bool
}.
Definition unwrap_invocation_checked (i : ShellInvocation) : CheckedInvocationPeel :=
  let norm := normalize_command_words (wrapper_words i) in
  let peeled_count := length (wrapper_words i) - length (words norm) in
  mkCheckedPeel (drop peeled_count (inv_words i)) (n_has_chdir norm) (n_has_split_string norm)
    (n_env_options_uncertain norm) (exhausted norm) (ambiguous norm).

Definition is_potential_inline (s : InlineShellScript) : bool :=
  match s with LiteralAt _ | UntrustedScript => true | _ => false end.
Definition words_are_opaque_shell (ws : list ShellWord) : bool :=
  is_potential_inline (shell_dash_c_script ws)
  || match ws with Literal program :: _ => str_eqb (shell_program_name program) (lit "eval") | _ => false end.
Definition tree_has_opaque_shell (root : Node) : bool :=
  existsb (λ i, words_are_opaque_shell (shell_words (ci_words (unwrap_invocation_checked i))))
    (shell_command_invocations root).

(** ** Changes of directory and redirects *)

Section Fields.
Context `{TreeFields}.

Record CwdPoison := mkPoison { at_byte : nat; poison_scope : ExecutionScope }.
Definition cwd_poison_at (l : Located) : option CwdPoison :=
  match l with
  | (node, _) :: _ =>
      if str_eqb (kind node) (lit "command")
         && match child_by_field_name node (lit "name") ≫= utf8_text with
            | Some program => one_of (shell_program_name program) [lit "cd"; lit "pushd"; lit "popd"]
            | None => false
            end
      then Some (mkPoison (start_byte node) (execution_scope l)) else None
  | [] => None
  end.
Definition cwd_poison_positions (root : Node) : list CwdPoison := omap cwd_poison_at (located_nodes root).
Definition cwd_unpinned_before (positions : list CwdPoison) (at_ : nat) (scope : ExecutionScope) : bool :=
  existsb (λ poison, (at_byte poison <? at_)%nat
                     && (bool_decide (poison_scope poison = scope)
                         || contains_scope (poison_scope poison) scope)) positions.

Record ShellRedirectTarget := mkRedirect {
  rd_path : option str;
  rd_mode : ShellFileMode;
  rd_ambiguous : bool;
  rd_start_byte : nat;
  rd_scope : ExecutionScope
}.

(** The scan for the operator: [None] is the early return at a heredoc. *)
Fixpoint redirect_operator (kinds : list str) : option (option str) :=
  match kinds with
  | [] => Some None
  | k :: kinds' =>
      if contains (lit "<<") k then None
      else if contains_char (chr ">") k || contains_char (chr "<") k then Some (Some k)
      else redirect_operator kinds'
  end.
Definition shell_redirect_one (node : Node) : option (option str * ShellFileMode * bool) :=
  scanned ← redirect_operator (kind <$> children node);
  redirect ← scanned;
  let mode := if contains_char (chr ">") redirect then SWrite else SRead in
  let duplicates_fd := one_of redirect [lit ">&"; lit "<&"] in
  dest ← child_by_field_name node (lit "destination");
  arg ← shell_node_arg dest;
  match arg with
  | ALiteral s =>
      if str_eqb s [] || starts_with (lit "&") s
         || (duplicates_fd && (str_eqb s (lit "-") || forallb is_ascii_digit s))
      then None
      else Some (Some s, mode, shell_arg_is_ambiguous s)
  | AAmbiguous => Some (None, mode, true)
  end.
Definition redirect_at (l : Located) : option ShellRedirectTarget :=
  match l with
  | (node, _) :: _ =>
      if str_eqb (kind node) (lit "file_redirect") then
        '(path, mode, amb) ← shell_redirect_one node;
        Some (mkRedirect path mode amb (start_byte node) (execution_scope l))
      else None
  | [] => None
  end.
Definition shell_redirect_targets (root : Node) : list ShellRedirectTarget :=
  omap redirect_at (located_nodes root).

(** ** Written paths *)

Definition written (operands : list (str * ShellFileMode)) : list str :=
  omap (λ '(path, mode), if decide (mode = SWrite) then Some path else None) operands.
Definition command_words_write_paths (words : list str) : list str :=
  let inner := unwrap_wrappers words in
  match head inner with
  | None => []
  | Some w =>
      let program := to_ascii_lowercase (shell_program_name w) in
      let out := written (special_file_operands program inner) in
      match shell_path_command_operands program inner with
      | Some operands => out ++ written operands
      | None =>
          let writes_operands :=
            bool_decide (shell_file_mode program = Some SWrite)
            || (str_eqb program (lit "sed") && shell_sed_in_place inner) in
          out ++ (if writes_operands then shell_file_candidates inner else [])
      end
  end.
Definition command_write_paths_in_tree (root : Node) : list str :=
  omap (λ rd, if decide (rd_mode rd = SWrite) then rd_path rd else None) (shell_redirect_targets root)
  ++ flat_map (λ i, command_words_write_paths (literal_words (inv_words i)))
       (shell_command_invocations root).
Definition is_safe_write_sink (path : str) : bool :=
  one_of path [lit "/dev/null"; lit "/dev/stdout"; lit "/dev/stderr"].
End Fields.
