(* ===== verification/ShellAccess.v ===== *)
(** The shell file-access gate
    (crates/codegen/xai-grok-workspace/src/permission/shell_access.rs): the files a shell
    command reads or writes meet the same Read and Edit rules as the file tools, operands
    that cannot be pinned ask, and edit targets that could widen the agent's own rights are
    protected.

    The file system is the interface [FileSystem]; with [PolicyEnv] and [TreeFields] it is
    all the gate takes from outside. *)
From Stdlib Require Import String Ascii.
From S2P Require Import Prelude RustStr Json LexPath Shell Rules Policy ShellWords.
Import Argv Script.

Inductive Metadata := MetaOk (is_symlink : bool) | MetaNotFound | MetaError.

Class FileSystem := {
  (** [dunce::canonicalize(path).ok()] *)
  canonicalize : str → option str;
  (** [std::fs::symlink_metadata] *)
  symlink_metadata : str → Metadata;
  (** [std::fs::read_link(path).ok()] *)
  read_link : str → option str;
  (** [xai_grok_config::user_grok_home()] *)
  user_grok_home : option str
}.

(** ** Text of paths *)

Definition is_quote (c : char) : bool := (c =? DQUOTE)%N || (c =? SQUOTE)%N.
(** [path.trim_matches(..)] *)
Definition trim_quotes (s : str) : str := trim_end_matches is_quote (drop_while is_quote s).

Definition is_absolute_shell_path (path : str) : bool :=
  starts_with (lit "/") path || starts_with (lit "~/") path || second_byte_is_colon path.

Definition normalize_shell_path_raw (path : str) : str :=
  let p := List.map (λ c, if (c =? BACKSLASH)%N then SLASH else c) (trim_quotes path) in
  match strip_prefix (lit "/c/") p with
  | Some rest => lit "C:/" ++ rest
  | None => p
  end.

(** One segment of the loop, over the stack of kept segments. *)
Definition lexical_step (absolute : bool) (out : list str) (segment : str) : list str :=
  if one_of segment [[]; DOT] then out
  else if str_eqb segment DOTDOT then
    match last out with
    | Some s => if negb (str_eqb s DOTDOT) then take (length out - 1) out
                else if negb absolute then out ++ [DOTDOT] else out
    | None => if negb absolute then out ++ [DOTDOT] else out
    end
  else out ++ [segment].
Definition lexical_segments (absolute : bool) (rest : str) : list str :=
  foldl (lexical_step absolute) [] (split_on SLASH rest).
Definition lexical_normalize (path : str) : str :=
  let prefix_len := if second_byte_is_colon path then 2 else 0 in
  let prefix := take prefix_len path in
  let rest := drop prefix_len path in
  let absolute := starts_with (lit "/") rest in
  let body := join [SLASH] (lexical_segments absolute rest) in
  match bool_decide (prefix = []), absolute, bool_decide (body = []) with
  | false, true, false => prefix ++ [SLASH] ++ body
  | false, true, true => prefix ++ [SLASH]
  | false, false, _ => prefix ++ body
  | true, true, false => [SLASH] ++ body
  | true, true, true => [SLASH]
  | true, false, _ => body
  end.
Definition normalize_shell_path (path : str) : str := lexical_normalize (normalize_shell_path_raw path).

Definition shell_access (mode : ShellFileMode) (path : str) : AccessKind :=
  match mode with SRead => ARead (Some path) | SWrite => AEdit path end.

(** ** Resolution of symbolic links *)

Definition MAX_SYMLINK_DEPTH : nat := 40.

Section Gate.
Context `{PolicyEnv, TreeFields, FileSystem}.

Definition is_symlink_at (p : str) : bool :=
  match symlink_metadata p with MetaOk b => b | _ => false end.

Fixpoint has_symlink_go (prefix : str) (cs : list Component) : bool :=
  match cs with
  | [] => false
  | c :: cs' =>
      let prefix := push prefix (component_str c) in
      is_symlink_at prefix || has_symlink_go prefix cs'
  end.
Definition path_has_symlink (absolute : str) : bool :=
  is_absolute absolute && has_symlink_go [] (components absolute).

(** [fuel] is [MAX_SYMLINK_DEPTH + 1 - depth]. *)
Fixpoint resolve_go (fuel : nat) (path : str) : option str :=
  match fuel with
  | O => None
  | S fuel' =>
      match canonicalize path with
      | Some canonical => Some canonical
      | None =>
          parent ← path_parent path;
          name ← file_name path;
          resolved_parent ← resolve_go fuel' parent;
          let candidate := path_join resolved_parent name in
          match symlink_metadata candidate with
          | MetaError => None
          | MetaOk true =>
              target ← read_link candidate;
              resolve_go fuel' (if is_absolute target then target else path_join resolved_parent target)
          | MetaOk false | MetaNotFound => Some candidate
          end
      end
  end.
Definition resolve_following_symlinks (path : str) : option str := resolve_go (MAX_SYMLINK_DEPTH + 1) path.

Definition resolve_symlink_target (absolute : str) : option str :=
  if negb (is_absolute absolute) then None
  else normalize_shell_path <$> resolve_following_symlinks absolute.

(** ** Protected edit targets *)

Inductive ProtectedEditReason :=
| HookRoot | GitHooks | Ssh | StartupFile | Etc | GrokConfig | GrokSandbox | ClaudeSettings
| CursorHooks | Sensitive.

Definition reason_kind (r : ProtectedEditReason) : str :=
  match r with
  | HookRoot => lit "hook_root"
  | GitHooks => lit "git_hooks"
  | Ssh => lit "ssh"
  | StartupFile => lit "startup_file"
  | Etc => lit "etc"
  | GrokConfig => lit "grok_config"
  | GrokSandbox => lit "grok_sandbox"
  | ClaudeSettings => lit "claude_settings"
  | CursorHooks => lit "cursor_hooks"
  | Sensitive => lit "sensitive"
  end.

Definition STARTUP_FILES : list str :=
  [lit ".bashrc"; lit ".bash_profile"; lit ".bash_login"; lit ".bash_logout"; lit ".profile";
   lit ".zshrc"; lit ".zshenv"; lit ".zprofile"; lit ".zlogin"; lit ".zlogout"; lit ".kshrc";
   lit ".cshrc"; lit ".tcshrc"; lit ".login"; lit ".logout"; lit ".inputrc"; lit ".xprofile"].

(** [slice.ends_with(&[..])] and [slice.windows(2).any(|pair| pair == [a, b])] *)
Definition slice_ends_with (l suffix : list str) : bool :=
  bool_decide (drop (length l - length suffix) l = suffix).
Fixpoint has_pair (a b : str) (l : list str) : bool :=
  match l with
  | x :: ((y :: _) as l') => (str_eqb x a && str_eqb y b) || has_pair a b l'
  | _ => false
  end.

Definition grok_home_matches (home : option str) (pred : str → bool) : bool :=
  match home with
  | None => false
  | Some home =>
      let lexical := normalize_lexically home in
      pred lexical
      || match resolve_following_symlinks lexical with Some resolved => pred resolved | None => false end
  end.

Definition path_is_under_user_grok_hook_root (path grok_home : str) : bool :=
  path_starts_with path (path_join grok_home (lit "hooks"))
  || path_eqb path (path_join grok_home (lit "hooks-paths")).

Definition protected_grok_hook_root (path : str) (cs : list str) : bool :=
  has_pair (lit ".grok") (lit "hooks") cs
  || slice_ends_with cs [lit ".grok"; lit "hooks-paths"]
  || grok_home_matches user_grok_home (path_is_under_user_grok_hook_root path).

(** [components[git + 2..].iter().skip(1).any(..)] *)
Fixpoint module_hooks (cs : list str) : bool :=
  match cs with
  | [] => false
  | c :: rest =>
      (str_eqb c (lit ".git") && bool_decide (head rest = Some (lit "modules"))
       && existsb (str_eqb (lit "hooks")) (drop 2 rest))
      || module_hooks rest
  end.
Definition protected_git_hooks_path (cs : list str) : bool :=
  has_pair (lit ".git") (lit "hooks") cs || module_hooks cs.

Definition protected_grok_config_file_with_home (path : str) (cs : list str) (home : option str)
  : option ProtectedEditReason :=
  reason ← match last cs with
           | Some f =>
               if one_of f [lit "config.toml"; lit "managed_config.toml"; lit "requirements.toml"]
               then Some GrokConfig
               else if str_eqb f (lit "sandbox.toml") then Some GrokSandbox else None
           | None => None
           end;
  let in_dot_grok :=
    (2 <=? length cs)%nat && bool_decide (cs !! (length cs - 2) = Some (lit ".grok")) in
  let in_grok_home :=
    grok_home_matches home (λ home, match path_parent path with
                                    | Some parent => path_eqb parent home | None => false end) in
  if in_dot_grok || in_grok_home then Some reason else None.
Definition protected_grok_config_file (path : str) (cs : list str) : option ProtectedEditReason :=
  protected_grok_config_file_with_home path cs user_grok_home.

(** The [Normal] components, lower-cased. *)
Definition lower_names (path : str) : list str :=
  omap (λ c, match c with Normal part => Some (to_ascii_lowercase part) | _ => None end) (components path).

Definition protected_edit_reason (path : str) : option ProtectedEditReason :=
  let cs := lower_names path in
  let file := default [] (last cs) in
  if protected_grok_hook_root path cs then Some HookRoot
  else if slice_ends_with cs [lit ".claude"; lit "settings.json"]
          || slice_ends_with cs [lit ".claude"; lit "settings.local.json"]
  then Some ClaudeSettings
  else if slice_ends_with cs [lit ".cursor"; lit "hooks.json"] then Some CursorHooks
  else if protected_git_hooks_path cs then Some GitHooks
  else if one_of (lit ".ssh") cs then Some Ssh
  else if one_of file STARTUP_FILES then Some StartupFile
  else
    match protected_grok_config_file path cs with
    | Some reason => Some reason
    | None =>
        if path_eqb path (lit "/etc") || path_starts_with path (lit "/etc") then Some Etc else None
    end.

Definition resolved_path_is_within_root (resolved_path root : str) : bool :=
  match resolve_following_symlinks root with
  | Some resolved_root => path_starts_with resolved_path resolved_root
  | None => true
  end.

Definition edit_target_protection (path : str) : option ProtectedEditReason :=
  if negb (is_absolute path) then Some Sensitive
  else
    match protected_edit_reason (normalize_lexically path) with
    | Some reason => Some reason
    | None =>
        match resolve_following_symlinks path with
        | None => Some Sensitive
        | Some resolved =>
            match protected_edit_reason resolved with
            | Some reason => Some reason
            | None =>
                if resolved_path_is_within_root resolved (lit "/etc") then Some Sensitive else None
            end
        end
    end.

(** ** One operand *)

Section Policies.
Variable p : CompiledPolicy.

Definition escalate_access (access : AccessKind) (rule_cwd : option str) : option GateDecision :=
  match evaluate_with_cwd p access rule_cwd with
  | Some (DReject reason) => Some (GReject reason)
  | Some DAsk => Some GAskRuleMatch
  | _ => None
  end.

Definition evaluate_shell_path (token cwd : str) (mode : ShellFileMode) (cwd_unpinned : bool)
  : option GateDecision :=
  let path := normalize_shell_path token in
  let is_absolute_ := is_absolute_shell_path path in
  let rule_cwd := if is_absolute_ || negb cwd_unpinned then Some cwd else None in
  let escalate access := escalate_access access rule_cwd in
  let absolute := if is_absolute_ then path else normalize_shell_path (path_join cwd path) in
  let raw := normalize_shell_path_raw token in
  let raw_absolute :=
    if is_absolute_shell_path raw then Some raw
    else if cwd_unpinned then None
    else Some (normalize_shell_path_raw (path_join cwd raw)) in
  let resolved_decision :=
    raw_absolute ← raw_absolute;
    match resolve_symlink_target raw_absolute with
    | Some resolved =>
        if negb (str_eqb resolved absolute) then escalate (shell_access mode resolved) else None
    | None => fail_closed_if (path_has_symlink raw_absolute)
    end in
  let path_decision := escalate (shell_access mode path) in
  let anchored_decision :=
    if cwd_unpinned && negb is_absolute_ then None
    else combine_gate_decisions (escalate (shell_access mode absolute)) resolved_decision in
  combine_gate_decisions (combine_gate_decisions path_decision anchored_decision)
    (fail_closed_if (cwd_unpinned && negb is_absolute_)).

(** ** One command *)

(** [decision] and [forced_ask] of the loops. *)
Record GateState := mkGate { decision : option GateDecision; forced_ask : bool }.
Definition found (d : option GateDecision) (g : GateState) : GateState :=
  mkGate (combine_gate_decisions (decision g) d) (forced_ask g).
Definition force (b : bool) (g : GateState) : GateState := mkGate (decision g) (forced_ask g || b).

Definition check_redirect (cwd : str) (cwd_unpinned : bool) (cwd_changes : list CwdPoison)
  (g : GateState) (redirect : ShellRedirectTarget) : GateState :=
  let g := force (rd_ambiguous redirect) g in
  match rd_path redirect with
  | None => g
  | Some path =>
      found (evaluate_shell_path path cwd (rd_mode redirect)
               (cwd_unpinned
                || cwd_unpinned_before cwd_changes (rd_start_byte redirect) (rd_scope redirect))) g
  end.

(** A list of operands, each checked in every mode of [modes]. *)
Definition check_operands (cwd : str) (unpinned : bool) (g : GateState)
  (operands : list (str * ShellFileMode)) : GateState :=
  foldl (λ g '(path, mode),
           found (evaluate_shell_path path cwd mode unpinned) (force (shell_arg_is_ambiguous path) g))
    g operands.
Definition check_candidates (cwd : str) (unpinned : bool) (modes : list ShellFileMode) (g : GateState)
  (candidates : list str) : GateState :=
  foldl (λ g token,
           foldl (λ g mode, found (evaluate_shell_path token cwd mode unpinned) g)
             (force (shell_arg_is_ambiguous token) g) modes) g candidates.

Definition candidate_modes (program : str) (ws : list str) : option (list ShellFileMode) :=
  match shell_file_mode program with
  | Some m =>
      Some (if str_eqb program (lit "sed") && shell_sed_in_place ws then [SRead; SWrite] else [m])
  | None => None
  end.

(** The operands of one peeled command, after its inline script. *)
Definition check_program (cwd : str) (parse_failed unpinned : bool) (ws : list InvocationWord)
  (g : GateState) : GateState :=
  match head ws with
  | Some (IWLiteral program) =>
      let program := to_ascii_lowercase (shell_program_name program) in
      if one_of program [lit "cd"; lit "pushd"; lit "popd"] then g
      else
        let lits := literal_words ws in
        let has_ambiguous_word := negb (forallb (λ w, bool_decide (is_Some (word_text w))) ws) in
        let candidates := shell_file_candidates lits in
        let path_operands := shell_path_command_operands program lits in
        let is_known := str_eqb program (lit "dd") || bool_decide (is_Some (shell_file_mode program))
                        || bool_decide (is_Some path_operands) in
        let g := force (is_known && (unpinned || has_ambiguous_word || parse_failed)) g in
        let g := check_operands cwd unpinned g (special_file_operands program lits) in
        if str_eqb program (lit "dd") then g
        else
          match path_operands with
          | Some operands => check_operands cwd unpinned g operands
          | None =>
              match candidate_modes program lits with
              | None => g
              | Some modes =>
                  force (shell_reader_can_recurse program lits candidates)
                    (check_candidates cwd unpinned modes g candidates)
              end
          end
  | _ => g
  end.

(** [inline] evaluates a nested script, unless the depth is spent. *)
Definition check_invocation (inline : option (str → bool → option GateDecision)) (cwd : str)
  (parse_failed cwd_unpinned : bool) (cwd_changes : list CwdPoison)
  (g : GateState) (i : ShellInvocation) : GateState :=
  let peeled := unwrap_invocation_checked i in
  let ws := ci_words peeled in
  let unpinned := cwd_unpinned || cwd_unpinned_before cwd_changes (inv_start_byte i) (inv_scope i)
                  || ci_has_chdir peeled in
  let g := force (ci_exhausted peeled) g in
  let g := force (ci_has_split_string peeled) g in
  let g := force (ci_env_options_uncertain peeled) g in
  let g := force (ci_transparent_ambiguous peeled) g in
  let script := shell_dash_c_script (shell_words ws) in
  let g := force (parse_failed && match script with NotInline => false | _ => true end) g in
  let g :=
    match script with
    | LiteralAt index =>
        match inline with
        | None => force true g
        | Some eval =>
            match shell_words ws !! index with
            | Some (Literal inner) => found (eval inner unpinned) g
            | _ => g
            end
        end
    | UntrustedScript | Unrecognized => force true g
    | NotInline => g
    end in
  check_program cwd parse_failed unpinned ws g.

Fixpoint evaluate_shell_file_access_inner (inline_depth_remaining : nat) (cmd cwd : str)
  (cwd_unpinned entered_inline : bool) : option GateDecision :=
  match try_parse_shell cmd with
  | None => if entered_inline then Some GAskFailClosed else None
  | Some tree =>
      let root := root_node tree in
      let parse_failed := has_error tree in
      let inline :=
        match inline_depth_remaining with
        | O => None
        | S d => Some (λ inner unpinned, evaluate_shell_file_access_inner d inner cwd unpinned true)
        end in
      let cwd_changes := cwd_poison_positions root in
      let g := mkGate None (entered_inline && parse_failed) in
      let g := foldl (check_redirect cwd cwd_unpinned cwd_changes) g (shell_redirect_targets root) in
      let g := foldl (check_invocation inline cwd parse_failed cwd_unpinned cwd_changes) g
                 (shell_command_invocations root) in
      combine_gate_decisions (decision g) (fail_closed_if (forced_ask g))
  end.

Definition evaluate_shell_file_access_gate (cmd cwd : str) : option GateDecision :=
  if negb (has_file_restrictions p) then None
  else evaluate_shell_file_access_inner MAX_INLINE_SHELL_DEPTH cmd cwd false false.
Definition evaluate_shell_file_access (cmd cwd : str) : option Decision :=
  into_decision <$> evaluate_shell_file_access_gate cmd cwd.
End Policies.

(** ** Combination of plain decisions *)

Definition decision_rank (d : Decision) : nat :=
  match d with
  | DReject _ | DPolicyDeny _ => 3
  | DAsk => 2
  | DAllow => 1
  | _ => 0
  end.
Definition combine_decisions (a b : option Decision) : option Decision :=
  match a, b with
  | None, other => other
  | other, None => other
  | Some a, Some b => Some (if (decision_rank b <=? decision_rank a)%nat then a else b)
  end.
End Gate.
