(* ===== verification/ShellPathSafety.v ===== *)
(** Paths of the shell file-access gate: the textual normalization of an operand names the
    same file and is canonical, and a resolved operand contains no symbolic link, so the
    rules see the file the command would really touch.  Protected edit targets are protected
    under both names. *)
From Stdlib Require Import String Ascii.
From S2P Require Import Prelude RustStr Json LexPath Shell Rules Policy ShellWords ShellAccess.

(** ** Textual normalization *)

(** Following one segment from a directory, in a tree without links; the parent of the root
    is the root. *)
Definition cd_step (dirs : list str) (segment : str) : list str :=
  if one_of segment [[]; DOT] then dirs
  else if str_eqb segment DOTDOT then take (length dirs - 1) dirs
  else dirs ++ [segment].
Definition walk_from (base segments : list str) : list str := foldl cd_step base segments.

(** Parent steps first (none in an absolute path), then plain names. *)
Definition canonical (absolute : bool) (segments : list str) : Prop :=
  ∃ k names, segments = replicate k DOTDOT ++ names ∧ Forall good_name names ∧ (absolute = true → k = 0).

Lemma one_of_blank s : one_of s [[]; DOT] = true ↔ s = [] ∨ s = DOT.
Proof. rewrite one_of_In. rewrite !elem_of_cons, elem_of_nil. tauto. Qed.

Lemma cd_step_name dirs n : good_name n → cd_step dirs n = dirs ++ [n].
Proof.
  intros (Hne & _ & Hd & Hdd). unfold cd_step.
  destruct (one_of n [[]; DOT]) eqn:E; [by apply one_of_blank in E as [?|?]|].
  by apply str_eqb_neq in Hdd as ->.
Qed.

Lemma take_front {A} (l : list A) x : take (length (l ++ [x]) - 1) (l ++ [x]) = l.
Proof. rewrite length_app. simpl. replace (length l + 1 - 1) with (length l) by lia. apply take_app_length. Qed.

Lemma lexical_step_sound absolute base out segment : SLASH ∉ segment →
  canonical absolute out → (absolute = true → base = []) →
  canonical absolute (lexical_step absolute out segment)
  ∧ walk_from base (lexical_step absolute out segment) = cd_step (walk_from base out) segment.
Proof.
  intros Hs (k & names & -> & Hn & Hk) Hb. unfold lexical_step, cd_step.
  destruct (one_of segment [[]; DOT]) eqn:Eb; [split; [by exists k, names|done]|].
  destruct (str_eqb segment DOTDOT) eqn:Edd.
  - destruct names as [|n names _] using rev_ind.
    + rewrite app_nil_r. destruct k as [|k]; simpl.
      * destruct absolute; simpl.
        -- split; [by exists 0, []|]. by rewrite Hb.
        -- split; [by exists 1, []|]. done.
      * destruct absolute; [by specialize (Hk eq_refl)|].
        assert (Hl : last (DOTDOT :: replicate k DOTDOT) = Some DOTDOT).
        { change (DOTDOT :: replicate k DOTDOT) with (replicate (S k) DOTDOT).
          rewrite <- (Nat.add_1_r k), replicate_add. apply last_snoc. }
        rewrite Hl, str_eqb_refl. simpl. split.
        -- exists (S (S k)), []. rewrite app_nil_r. split_and!; [|done|done].
           change (DOTDOT :: replicate k DOTDOT ++ [DOTDOT]) with (replicate (S k) DOTDOT ++ replicate 1 DOTDOT).
           rewrite <- replicate_add. f_equal. lia.
        -- unfold walk_from. change (DOTDOT :: replicate k DOTDOT ++ [DOTDOT]) with ((DOTDOT :: replicate k DOTDOT) ++ [DOTDOT]).
           rewrite foldl_app. done.
    + apply Forall_app in Hn as [Hn [Hgn _]%Forall_cons]. rewrite app_assoc, last_snoc.
      pose proof Hgn as (_ & _ & _ & Hnd). apply str_eqb_neq in Hnd. rewrite Hnd. cbn [negb].
      rewrite take_front. split; [by exists k, names|].
      unfold walk_from. rewrite (foldl_app cd_step (_ ++ _) [n]). cbn [foldl].
      rewrite cd_step_name by done. by rewrite take_front.
  - split.
    + exists k, (names ++ [segment]). rewrite app_assoc. split_and!; [done| |done].
      apply Forall_app. split; [done|]. apply Forall_singleton. apply str_eqb_neq in Edd.
      split_and!; [|done| |done]; intros ->; by rewrite (proj2 (one_of_blank _)) in Eb by auto.
    + unfold walk_from. rewrite foldl_app. simpl. unfold cd_step at 1. by rewrite Eb, Edd.
Qed.

Lemma lexical_segments_sound absolute base rest : (absolute = true → base = []) →
  canonical absolute (lexical_segments absolute rest)
  ∧ walk_from base (lexical_segments absolute rest) = walk_from base (split_on SLASH rest).
Proof.
  intros Hb. unfold lexical_segments.
  assert (Hgen : ∀ l out, Forall (λ s, SLASH ∉ s) l → canonical absolute out →
    canonical absolute (foldl (lexical_step absolute) out l)
    ∧ walk_from base (foldl (lexical_step absolute) out l) = foldl cd_step (walk_from base out) l).
  { induction l as [|s l IH]; intros out Hl Hc; simpl; [done|].
    apply Forall_cons in Hl as [Hs Hl].
    destruct (lexical_step_sound absolute base out s Hs Hc Hb) as [Hc' Hw].
    destruct (IH _ Hl Hc') as [? ->]. by rewrite Hw. }
  apply (Hgen _ []); [apply split_on_nosep|]. by exists 0, [].
Qed.

(** Normalizing an operand without a drive letter keeps the file it names: from any
    directory of a tree without links both texts lead to the same place.  The result is
    canonical: it keeps being absolute or relative, has no empty or [.] segment, and [..]
    only in front of a relative path. *)
Theorem lexical_normalize_same_file path base : second_byte_is_colon path = false →
  let absolute := starts_with (lit "/") path in
  let from := if absolute then [] else base in
  ∃ segments, canonical absolute segments
    ∧ lexical_normalize path = (if absolute then [SLASH] else []) ++ join [SLASH] segments
    ∧ walk_from from segments = walk_from from (split_on SLASH path).
Proof.
  intros Hc. simpl. exists (lexical_segments (starts_with (lit "/") path) path).
  destruct (lexical_segments_sound (starts_with (lit "/") path)
              (if starts_with (lit "/") path then [] else base) path) as [Hcan Hw];
    [by destruct (starts_with _ path)|].
  split_and!; [done| |done]. unfold lexical_normalize. rewrite Hc. simpl. rewrite drop_0.
  destruct (starts_with (lit "/") path); [|done].
  set (body := join _ _). by destruct (bool_decide (body = [])) eqn:E; [apply bool_decide_eq_true in E as ->|].
Qed.

Lemma lexical_normalize_same_file_witness :
  lexical_normalize (lit "src/./../../etc//passwd") = lit "../etc/passwd"
  ∧ ∃ segments, canonical false segments
      ∧ lexical_normalize (lit "src/./../../etc//passwd") = join [SLASH] segments
      ∧ walk_from [lit "work"] segments = walk_from [lit "work"] (split_on SLASH (lit "src/./../../etc//passwd")).
Proof.
  split; [reflexivity|].
  exact (lexical_normalize_same_file (lit "src/./../../etc//passwd") [lit "work"] eq_refl).
Defined.

(** ** Symbolic links *)

Section Links.
Context `{FileSystem}.

(** [std::fs::canonicalize] returns the absolute path with every component resolved and no
    symbolic link left in it. *)
Definition canonicalize_resolves : Prop :=
  ∀ q c, canonicalize q = Some c →
  ∃ names, Forall good_name names ∧ c = rooted names ∧ path_has_symlink c = false.

Lemma has_symlink_go_app prefix cs cs' :
  has_symlink_go prefix (cs ++ cs')
  = has_symlink_go prefix cs || has_symlink_go (foldl push prefix (component_str <$> cs)) cs'.
Proof.
  revert prefix. induction cs as [|c cs IH]; intros prefix; simpl; [done|].
  by rewrite IH, orb_assoc.
Qed.

Lemma path_join_rooted names n : Forall good_name names → good_name n →
  path_join (rooted names) n = rooted (names ++ [n]).
Proof.
  intros Hn Hgn. rewrite <- !collect_rooted by (by try (apply Forall_app; split; [|apply Forall_singleton])).
  unfold collect. replace (RootDir :: (Normal <$> names ++ [n])) with ((RootDir :: (Normal <$> names)) ++ [Normal n])
    by (by rewrite fmap_app).
  by rewrite fmap_app, foldl_app.
Qed.

Lemma has_symlink_snoc names n : Forall good_name names → good_name n →
  path_has_symlink (rooted (names ++ [n]))
  = path_has_symlink (rooted names) || is_symlink_at (rooted (names ++ [n])).
Proof.
  intros Hn Hgn. assert (Hn' : Forall good_name (names ++ [n])) by (apply Forall_app; by split; [|apply Forall_singleton]).
  unfold path_has_symlink. rewrite !is_absolute_rooted, !components_rooted by done. cbn [andb].
  replace (RootDir :: (Normal <$> names ++ [n])) with ((RootDir :: (Normal <$> names)) ++ [Normal n])
    by (by rewrite fmap_app).
  rewrite has_symlink_go_app. f_equal.
  change (foldl push [] (component_str <$> RootDir :: (Normal <$> names))) with (collect (RootDir :: (Normal <$> names))).
  rewrite collect_rooted by done. cbn [fmap list_fmap has_symlink_go component_str].
  rewrite orb_false_r. f_equal. exact (path_join_rooted names n Hn Hgn).
Qed.

Lemma file_name_good path n : file_name path = Some n → good_name n.
Proof.
  unfold file_name, components. pose proof (components_body_ok path) as Hok.
  rewrite last_app. destruct (last (omap snd (tagged path))) as [c|] eqn:Hl.
  - destruct c; try done. intros [= <-]. apply last_Some_elem_of in Hl. rewrite Forall_forall in Hok.
    exact (Hok _ Hl).
  - by destruct (is_absolute path).
Qed.

Lemma resolve_go_real fuel : canonicalize_resolves → ∀ path r, resolve_go fuel path = Some r →
  ∃ names, Forall good_name names ∧ r = rooted names ∧ path_has_symlink r = false.
Proof.
  intros Hlaw. induction fuel as [|fuel IH]; intros path r; simpl; [done|].
  destruct (canonicalize path) as [c|] eqn:Hc; [intros [= <-]; by eapply Hlaw|].
  destruct (path_parent path) as [parent|]; simpl; [|done].
  destruct (file_name path) as [n|] eqn:Hn; simpl; [|done]. apply file_name_good in Hn.
  destruct (resolve_go fuel parent) as [rp|] eqn:Hp; simpl; [|done].
  destruct (IH _ _ Hp) as (names & Hgn & -> & Hns). rewrite path_join_rooted by done.
  assert (Hdone : is_symlink_at (rooted (names ++ [n])) = false →
    ∃ ns, Forall good_name ns ∧ rooted (names ++ [n]) = rooted ns ∧ path_has_symlink (rooted (names ++ [n])) = false).
  { intros Hs. exists (names ++ [n]). rewrite has_symlink_snoc, Hns, Hs by done.
    split_and!; [|done|done]. apply Forall_app. by split; [|apply Forall_singleton]. }
  unfold is_symlink_at in Hdone.
  destruct (symlink_metadata (rooted (names ++ [n]))) as [[]| |]; [|intros [= <-]; auto|intros [= <-]; auto|done].
  destruct (read_link _) as [target|]; simpl; [|done]. apply IH.
Qed.

(** When an operand's links can be resolved, the path the rules are asked about is real:
    absolute, made of plain names, and no component of it is a symbolic link.  Anything
    else (a cycle, more than forty links, an unreadable link) is no answer at all. *)
Theorem resolved_path_is_real path r : canonicalize_resolves →
  resolve_following_symlinks path = Some r →
  ∃ names, Forall good_name names ∧ r = rooted names ∧ path_has_symlink r = false.
Proof. intros Hlaw. by apply resolve_go_real. Qed.

(** An edit target that needs no confirmation has no protected name, neither as written nor
    resolved: no [.ssh] directory on the way, no startup file, nothing below [/etc]. *)
Theorem unprotected_edit_is_plain path : edit_target_protection path = None →
  is_absolute path = true
  ∧ ∃ resolved, resolve_following_symlinks path = Some resolved
    ∧ ∀ name, name = normalize_lexically path ∨ name = resolved →
      protected_edit_reason name = None ∧ lit ".ssh" ∉ lower_names name
      ∧ default [] (last (lower_names name)) ∉ STARTUP_FILES
      ∧ path_starts_with name (lit "/etc") = false.
Proof.
  unfold edit_target_protection. destruct (is_absolute path); simpl; [|done].
  destruct (protected_edit_reason (normalize_lexically path)) eqn:Hlex; [done|].
  destruct (resolve_following_symlinks path) as [resolved|]; [|done].
  destruct (protected_edit_reason resolved) eqn:Hres; [done|]. intros _.
  assert (Hplain : ∀ name, protected_edit_reason name = None →
    lit ".ssh" ∉ lower_names name ∧ default [] (last (lower_names name)) ∉ STARTUP_FILES
    ∧ path_starts_with name (lit "/etc") = false).
  { intros name. unfold protected_edit_reason.
    destruct (protected_grok_hook_root _ _); [done|]. destruct (_ || _); [done|].
    destruct (slice_ends_with _ _); [done|]. destruct (protected_git_hooks_path _); [done|].
    destruct (one_of (lit ".ssh") _) eqn:Hssh; [done|].
    destruct (one_of _ STARTUP_FILES) eqn:Hst; [done|].
    destruct (protected_grok_config_file _ _); [done|].
    destruct (path_eqb name _ || path_starts_with name (lit "/etc")) eqn:Hetc; [done|]. intros _. bool_to_prop.
    split_and!; [|intros Hin%one_of_In; congruence|done].
    intros Hin%one_of_In. congruence. }
  split; [done|]. exists resolved. split; [done|]. intros name [-> | ->]; auto.
Qed.
End Links.

(** A file system with a dangling link [/work/link -> /etc/new]. *)
Section LinkDemo.
Definition link_dirs : list (list str) := [[]; [lit "work"]; [lit "etc"]].
#[local] Instance link_fs : FileSystem := {|
  canonicalize q := if one_of q (rooted <$> link_dirs) then Some q else None;
  symlink_metadata q :=
    if one_of q (rooted <$> link_dirs) then MetaOk false
    else if str_eqb q (lit "/work/link") then MetaOk true else MetaNotFound;
  read_link q := if str_eqb q (lit "/work/link") then Some (lit "/etc/new") else None;
  user_grok_home := None
|}.

Lemma link_fs_resolves : canonicalize_resolves.
Proof.
  intros q c. simpl. destruct (one_of q _) eqn:Hq; [|done]. intros [= <-].
  apply one_of_In in Hq. rewrite !elem_of_cons, elem_of_nil in Hq.
  destruct Hq as [->|[->|[->|[]]]].
  - exists []. split_and!; [constructor|reflexivity|by vm_compute].
  - exists [lit "work"]. split_and!; [|reflexivity|by vm_compute]. apply Forall_singleton.
    split_and!; try done. by apply (bool_decide_eq_true (SLASH ∉ lit "work")).
  - exists [lit "etc"]. split_and!; [|reflexivity|by vm_compute]. apply Forall_singleton.
    split_and!; try done. by apply (bool_decide_eq_true (SLASH ∉ lit "etc")).
Qed.

Lemma resolved_path_is_real_witness :
  resolve_following_symlinks (lit "/work/link") = Some (lit "/etc/new")
  ∧ ∃ names, Forall good_name names ∧ lit "/etc/new" = rooted names ∧ path_has_symlink (lit "/etc/new") = false.
Proof.
  assert (Hr : resolve_following_symlinks (lit "/work/link") = Some (lit "/etc/new")) by (by vm_compute).
  split; [exact Hr|]. exact (resolved_path_is_real (lit "/work/link") (lit "/etc/new") link_fs_resolves Hr).
Defined.
End LinkDemo.
