(* ===== verification/ShellAccessSafety.v ===== *)
(** What the shell file-access gate guarantees: it reports exactly the worst finding over
    every file operand of the command, of its redirects and of its nested scripts, so a
    denied file is rejected however the command reaches it; normalized operands are
    canonical; resolved links are real files. *)
From Stdlib Require Import String Ascii.
From S2P Require Import Prelude RustStr Json LexPath Shell Rules Policy PolicySafety ShellWords ShellAccess.
Import Argv Script.

#[local] Opaque normalize_command_words.

Section Exact.
Context `{PolicyEnv, TreeFields, FileSystem}.
Variable p : CompiledPolicy.
Variable cwd : str.

(** ** The operands of a command, as a relation *)

(** The file operands of one program and its words. *)
Definition command_operands (program : str) (lits : list str) : list (str * ShellFileMode) :=
  if one_of program [lit "cd"; lit "pushd"; lit "popd"] then []
  else
    special_file_operands program lits ++
    (if str_eqb program (lit "dd") then []
     else match shell_path_command_operands program lits with
          | Some operands => operands
          | None =>
              match candidate_modes program lits with
              | Some modes => flat_map (λ token, pair token <$> modes) (shell_file_candidates lits)
              | None => []
              end
          end).

Definition invocation_unpinned (unpinned : bool) (changes : list CwdPoison) (i : ShellInvocation) : bool :=
  unpinned || cwd_unpinned_before changes (inv_start_byte i) (inv_scope i)
  || ci_has_chdir (unwrap_invocation_checked i).

(** [operand d cmd u path mode u']: running [cmd], with scripts nested at most [d] deep,
    touches [path] in [mode]; [u] and [u'] tell whether the directory is unknown before
    [cmd] and where [path] is used. *)
Inductive operand : nat → str → bool → str → ShellFileMode → bool → Prop :=
| op_redirect d cmd u tree rd path : try_parse_shell cmd = Some tree →
    rd ∈ shell_redirect_targets (root_node tree) → rd_path rd = Some path →
    operand d cmd u path (rd_mode rd)
      (u || cwd_unpinned_before (cwd_poison_positions (root_node tree)) (rd_start_byte rd) (rd_scope rd))
| op_word d cmd u tree i w path mode : try_parse_shell cmd = Some tree →
    i ∈ shell_command_invocations (root_node tree) →
    head (ci_words (unwrap_invocation_checked i)) = Some (IWLiteral w) →
    (path, mode) ∈ command_operands (to_ascii_lowercase (shell_program_name w))
                     (literal_words (ci_words (unwrap_invocation_checked i))) →
    operand d cmd u path mode (invocation_unpinned u (cwd_poison_positions (root_node tree)) i)
| op_inline d cmd u tree i index inner path mode u' : try_parse_shell cmd = Some tree →
    i ∈ shell_command_invocations (root_node tree) →
    shell_dash_c_script (shell_words (ci_words (unwrap_invocation_checked i))) = LiteralAt index →
    shell_words (ci_words (unwrap_invocation_checked i)) !! index = Some (Literal inner) →
    operand d inner (invocation_unpinned u (cwd_poison_positions (root_node tree)) i) path mode u' →
    operand (S d) cmd u path mode u'.

(** ** Severity of the loops *)

Definition gate_severity (g : GateState) : nat := severity (decision g).

Lemma severity_force b g : gate_severity (force b g) = gate_severity g.
Proof. done. Qed.
Lemma gate_severity_found d g : gate_severity (found d g) = gate_severity g `max` severity d.
Proof. apply severity_combine. Qed.
Lemma severity_fail_closed b : severity (fail_closed_if b) ≤ 1.
Proof. destruct b; simpl; lia. Qed.

(** A fold whose steps only ever raise the severity. *)
Lemma gate_foldl {A} (f : GateState → A → GateState) (h : A → nat → Prop) k g l :
  (∀ g x, k ≤ gate_severity (f g x) ↔ k ≤ gate_severity g ∨ h x k) →
  k ≤ gate_severity (foldl f g l) ↔ k ≤ gate_severity g ∨ ∃ x, x ∈ l ∧ h x k.
Proof.
  intros Hf. revert g. induction l as [|x l IH]; intros g; simpl.
  - split; [by left|]. intros [|(x & Hx%elem_of_nil & _)]; done.
  - rewrite IH, Hf. setoid_rewrite elem_of_cons. naive_solver.
Qed.

Definition path_severity (u : bool) (o : str * ShellFileMode) (k : nat) : Prop :=
  k ≤ severity (evaluate_shell_path p o.1 cwd o.2 u).

Lemma check_operands_severity u k g l :
  k ≤ gate_severity (check_operands p cwd u g l)
  ↔ k ≤ gate_severity g ∨ ∃ o, o ∈ l ∧ path_severity u o k.
Proof.
  apply gate_foldl. intros g' [path mode]. rewrite gate_severity_found, severity_force.
  unfold path_severity. simpl. rewrite Nat.max_le_iff. done.
Qed.

Lemma check_candidates_severity u modes k g l :
  k ≤ gate_severity (check_candidates p cwd u modes g l)
  ↔ k ≤ gate_severity g ∨ ∃ o, o ∈ flat_map (λ token, pair token <$> modes) l ∧ path_severity u o k.
Proof.
  unfold check_candidates.
  rewrite (gate_foldl _ (λ token k, ∃ mode, mode ∈ modes ∧ path_severity u (token, mode) k)).
  - setoid_rewrite list_elem_of_In at 3. setoid_rewrite in_flat_map. split; intros [Hg|Hx]; auto; right.
    + destruct Hx as (token & Hin & mode & Hm & Hs). exists (token, mode). split; [|done].
      exists token. split; [by apply list_elem_of_In|]. apply list_elem_of_In. by apply list_elem_of_fmap_2.
    + destruct Hx as (o & (token & Hin & Ho) & Hs). apply list_elem_of_In in Hin, Ho.
      apply list_elem_of_fmap in Ho as (mode & -> & Hm). eauto.
  - intros g' token.
    rewrite (gate_foldl _ (λ mode k, path_severity u (token, mode) k)); [done|].
    intros g'' mode. rewrite gate_severity_found, Nat.max_le_iff. done.
Qed.

Lemma check_program_severity parse_failed u ws k g :
  k ≤ gate_severity (check_program p cwd parse_failed u ws g)
  ↔ k ≤ gate_severity g
    ∨ ∃ w o, head ws = Some (IWLiteral w)
        ∧ o ∈ command_operands (to_ascii_lowercase (shell_program_name w)) (literal_words ws)
        ∧ path_severity u o k.
Proof.
  unfold check_program. destruct (head ws) as [[w|]|]; [|naive_solver..].
  set (program := to_ascii_lowercase (shell_program_name w)). set (lits := literal_words ws).
  set (touched := ∃ o, o ∈ command_operands program lits ∧ path_severity u o k).
  transitivity (k ≤ gate_severity g ∨ touched);
    [|subst touched; split; [intros [|(o & ? & ?)]; [by left|right; by exists w, o]
                            |intros [|(w' & o & [= <-] & ? & ?)]; [by left|right; by exists o]]].
  subst touched. unfold command_operands.
  destruct (one_of program [lit "cd"; _; _]).
  { split; [by left|]. intros [|(o & ?%elem_of_nil & _)]; done. }
  setoid_rewrite elem_of_app.
  destruct (str_eqb program (lit "dd")).
  { rewrite check_operands_severity, severity_force. set_unfold. naive_solver. }
  destruct (shell_path_command_operands program lits) as [operands|].
  { rewrite !check_operands_severity, severity_force. naive_solver. }
  destruct (candidate_modes program lits) as [modes|].
  - rewrite severity_force, check_candidates_severity, check_operands_severity, severity_force. naive_solver.
  - rewrite check_operands_severity, severity_force. set_unfold. naive_solver.
Qed.

(** What one invocation contributes. *)
Definition contributes (inline : option (str → bool → option GateDecision)) (u : bool)
  (changes : list CwdPoison) (i : ShellInvocation) (k : nat) : Prop :=
  let ws := ci_words (unwrap_invocation_checked i) in
  (∃ eval index inner, inline = Some eval ∧ shell_dash_c_script (shell_words ws) = LiteralAt index
     ∧ shell_words ws !! index = Some (Literal inner)
     ∧ k ≤ severity (eval inner (invocation_unpinned u changes i)))
  ∨ ∃ w o, head ws = Some (IWLiteral w)
      ∧ o ∈ command_operands (to_ascii_lowercase (shell_program_name w)) (literal_words ws)
      ∧ path_severity (invocation_unpinned u changes i) o k.

Lemma check_invocation_severity inline parse_failed u changes k g i :
  k ≤ gate_severity (check_invocation p inline cwd parse_failed u changes g i)
  ↔ k ≤ gate_severity g ∨ contributes inline u changes i k.
Proof.
  unfold check_invocation, contributes. rewrite check_program_severity.
  set (ws := ci_words (unwrap_invocation_checked i)). fold (invocation_unpinned u changes i).
  set (words_part := ∃ w o, _). clearbody words_part.
  set (g' := force (_ && _) _). assert (Hg : gate_severity g' = gate_severity g) by done. clearbody g'.
  rewrite <- Hg. clear Hg.
  destruct (shell_dash_c_script (shell_words ws)) as [|index| |];
    [naive_solver| |rewrite severity_force; naive_solver..].
  destruct inline as [eval|]; [|rewrite severity_force; naive_solver].
  destruct (shell_words ws !! index) as [[inner|]|] eqn:Hin; [|naive_solver..].
  rewrite gate_severity_found, Nat.max_le_iff. split.
  - intros [[?|?]|?]; [by left|right; left; by exists eval, index, inner|by right; right].
  - intros [?|[(eval' & index' & inner' & Heq1 & Heq2 & Hin' & ?)|?]]; [by left; left| |by right].
    simplify_eq. left; right. done.
Qed.

Lemma check_redirect_severity u changes k g rd :
  k ≤ gate_severity (check_redirect p cwd u changes g rd)
  ↔ k ≤ gate_severity g
    ∨ ∃ path, rd_path rd = Some path
        ∧ path_severity (u || cwd_unpinned_before changes (rd_start_byte rd) (rd_scope rd)) (path, rd_mode rd) k.
Proof.
  unfold check_redirect. destruct (rd_path rd) as [path|]; [|rewrite severity_force; naive_solver].
  rewrite gate_severity_found, severity_force, Nat.max_le_iff. unfold path_severity. naive_solver.
Qed.

Definition inline_at (d : nat) : option (str → bool → option GateDecision) :=
  match d with
  | O => None
  | S d' => Some (λ inner u, evaluate_shell_file_access_inner p d' inner cwd u true)
  end.

Lemma inner_step d cmd u entered k : 2 ≤ k →
  k ≤ severity (evaluate_shell_file_access_inner p d cmd cwd u entered)
  ↔ ∃ tree, try_parse_shell cmd = Some tree
      ∧ let changes := cwd_poison_positions (root_node tree) in
        (∃ rd path, rd ∈ shell_redirect_targets (root_node tree) ∧ rd_path rd = Some path
           ∧ path_severity (u || cwd_unpinned_before changes (rd_start_byte rd) (rd_scope rd))
               (path, rd_mode rd) k)
        ∨ ∃ i, i ∈ shell_command_invocations (root_node tree) ∧ contributes (inline_at d) u changes i k.
Proof.
  intros Hk. destruct (try_parse_shell cmd) as [tree|] eqn:Ht.
  2: { destruct d; simpl; rewrite Ht; (split; [destruct entered; simpl; lia|by intros (? & ? & _)]). }
  transitivity (k ≤ gate_severity
    (foldl (check_invocation p (inline_at d) cwd (has_error tree) u (cwd_poison_positions (root_node tree)))
       (foldl (check_redirect p cwd u (cwd_poison_positions (root_node tree)))
          (mkGate None (entered && has_error tree)) (shell_redirect_targets (root_node tree)))
       (shell_command_invocations (root_node tree)))).
  { destruct d; simpl; rewrite Ht, severity_combine, Nat.max_le_iff;
      (split; [|by left]); intros [?|Hf]; try done;
      match type of Hf with k ≤ severity (fail_closed_if ?b) => pose proof (severity_fail_closed b) end; lia. }
  rewrite (gate_foldl _ (λ i k, contributes (inline_at d) u (cwd_poison_positions (root_node tree)) i k))
    by (intros; apply check_invocation_severity).
  rewrite (gate_foldl _ (λ rd k, ∃ path, rd_path rd = Some path ∧ path_severity
    (u || cwd_unpinned_before (cwd_poison_positions (root_node tree)) (rd_start_byte rd) (rd_scope rd))
    (path, rd_mode rd) k)) by (intros; apply check_redirect_severity).
  unfold gate_severity. simpl. split.
  - intros [[Hz|(rd & Hin & path & Hp & Hs)]|Hi]; [lia|..]; exists tree; (split; [done|]); [left|by right].
    by exists rd, path.
  - intros (tree' & [= <-] & [(rd & path & Hin & Hp & Hs)|Hi]); [|by right]. left; right. eauto.
Qed.

Lemma inner_severity d : ∀ cmd u entered k, 2 ≤ k →
  k ≤ severity (evaluate_shell_file_access_inner p d cmd cwd u entered)
  ↔ ∃ path mode u', operand d cmd u path mode u' ∧ path_severity u' (path, mode) k.
Proof.
  induction d as [|d IH]; intros cmd u entered k Hk; rewrite inner_step by done; split.
  - intros (tree & Ht & [(rd & path & Hin & Hp & Hs)|(i & Hi & [(eval & ? & ? & [=] & _)|(w & [path mode] & Hw & Ho & Hs)])]).
    + eexists path, _, _. split; [by eapply op_redirect|done].
    + eexists path, mode, _. split; [by eapply op_word|done].
  - intros (path & mode & u' & Ho & Hs). inversion Ho as [? ? ? tree rd ? Ht Hin Hp|? ? ? tree i w ? ? Ht Hi Hw Hop|]; subst.
    + exists tree. split; [done|]. left. eauto.
    + exists tree. split; [done|]. right. exists i. split; [done|]. right. eauto.
  - intros (tree & Ht & [(rd & path & Hin & Hp & Hs)|(i & Hi & [(eval & index & inner & [= <-] & Hc & Hx & Hs)|(w & [path mode] & Hw & Ho & Hs)])]).
    + eexists path, _, _. split; [by eapply op_redirect|done].
    + apply IH in Hs as (path & mode & u' & Ho & Hs); [|done].
      exists path, mode, u'. split; [by eapply op_inline|done].
    + eexists path, mode, _. split; [by eapply op_word|done].
  - intros (path & mode & u' & Ho & Hs).
    inversion Ho as [? ? ? tree rd ? Ht Hin Hp|? ? ? tree i w ? ? Ht Hi Hw Hop
                    |? ? ? tree i index inner ? ? ? Ht Hi Hc Hx Hop]; subst.
    + exists tree. split; [done|]. left. eauto.
    + exists tree. split; [done|]. right. exists i. split; [done|]. right. eauto.
    + exists tree. split; [done|]. right. exists i. split; [done|]. left.
      eexists _, index, inner. split_and!; [done..|]. apply IH; [done|]. eauto.
Qed.
End Exact.

Section Claims.
Context `{PolicyEnv, TreeFields, FileSystem}.

(** C2: The file-access gate misses no operand and invents none: it rejects (or asks because a
    rule matched) exactly when some file operand of the command, of one of its redirects or
    of a script nested in it is itself rejected (asked about) under the working directory
    that is known at that point. *)
Theorem file_gate_is_worst_operand p cmd cwd k : has_file_restrictions p = true → 2 ≤ k →
  k ≤ severity (evaluate_shell_file_access_gate p cmd cwd)
  ↔ ∃ path mode u, operand MAX_INLINE_SHELL_DEPTH cmd false path mode u
      ∧ k ≤ severity (evaluate_shell_path p path cwd mode u).
Proof.
  intros Hr Hk. unfold evaluate_shell_file_access_gate. rewrite Hr. cbn [negb].
  by rewrite (inner_severity p cwd _ _ _ _ _ Hk).
Qed.

(** The directory an operand's rules are anchored to, if it is known. *)
Definition rule_cwd (cwd token : str) (u : bool) : option str :=
  if is_absolute_shell_path (normalize_shell_path token) || negb u then Some cwd else None.

(** The spellings of an operand that meet the rules: as written, anchored to the working
    directory, and with its symbolic links resolved. *)
Inductive spelling (cwd token : str) (u : bool) : str → Prop :=
| sp_written : spelling cwd token u (normalize_shell_path token)
| sp_anchored : u = false → is_absolute_shell_path (normalize_shell_path token) = false →
    spelling cwd token u (normalize_shell_path (path_join cwd (normalize_shell_path token)))
| sp_resolved raw resolved :
    u = false ∨ is_absolute_shell_path (normalize_shell_path token) = true →
    raw = (if is_absolute_shell_path (normalize_shell_path_raw token) then normalize_shell_path_raw token
           else normalize_shell_path_raw (path_join cwd (normalize_shell_path_raw token))) →
    (u = false ∨ is_absolute_shell_path (normalize_shell_path_raw token) = true) →
    resolve_symlink_target raw = Some resolved → spelling cwd token u resolved.

Lemma spelling_severity p cwd token mode u form : spelling cwd token u form →
  severity (escalate_access p (shell_access mode form) (rule_cwd cwd token u))
  ≤ severity (evaluate_shell_path p token cwd mode u).
Proof.
  intros Hsp. unfold evaluate_shell_path, rule_cwd. rewrite !severity_combine.
  set (rc := if is_absolute_shell_path (normalize_shell_path token) || negb u then Some cwd else None).
  destruct Hsp as [|Hu Ha|raw resolved Hu Hraw Hur Hres]; [lia|..].
  - rewrite Hu, Ha. cbn [andb negb]. rewrite severity_combine. lia.
  - assert (Hg : u && negb (is_absolute_shell_path (normalize_shell_path token)) = false)
      by (destruct Hu as [->| ->]; [done|by rewrite andb_false_r]).
    rewrite Hg, severity_combine.
    assert (Hr : (if is_absolute_shell_path (normalize_shell_path_raw token)
                  then Some (normalize_shell_path_raw token)
                  else if u then None
                  else Some (normalize_shell_path_raw (path_join cwd (normalize_shell_path_raw token))))
                 = Some raw).
    { subst raw. destruct (is_absolute_shell_path (normalize_shell_path_raw token)); [done|].
      by destruct Hur as [->|]. }
    rewrite Hr. cbn [mbind option_bind]. rewrite Hres.
    destruct (str_eqb resolved _) eqn:Heq; cbn [negb]; [|lia].
    apply str_eqb_eq in Heq. rewrite <- Heq. lia.
Qed.

Lemma escalate_deny cfg access c r : r ∈ rules cfg → hit Deny access c r = true →
  severity (escalate_access (compile cfg) access c) = 3.
Proof.
  intros Hr Hh. unfold escalate_access. rewrite evaluate_eq.
  destruct (List.find (hit Deny access c) (rules cfg)) as [r'|] eqn:Hf; [done|].
  rewrite find_None in Hf. by rewrite (Hf r Hr) in Hh.
Qed.

Lemma deny_restricts cfg mode path c r : r ∈ rules cfg → hit Deny (shell_access mode path) c r = true →
  has_file_restrictions (compile cfg) = true.
Proof.
  intros Hr Hh. simpl. apply existsb_elem. exists r. split; [done|].
  unfold hit, applies in Hh. bool_to_prop. unfold restricts. rewrite H2. simpl.
  destruct mode; simpl in *; by destruct (tool r).
Qed.

(** A file under a deny rule is rejected however a shell command reaches it: whenever some
    operand of the command, read or written, directly, by redirect or in a nested script,
    has a spelling (as written, anchored to the known working directory, or with its links
    resolved) that a deny rule for that access matches, the whole command is rejected. *)
Theorem denied_file_is_rejected cfg cmd cwd path mode u form r :
  operand MAX_INLINE_SHELL_DEPTH cmd false path mode u → spelling cwd path u form →
  r ∈ rules cfg → hit Deny (shell_access mode form) (rule_cwd cwd path u) r = true →
  ∃ reason, evaluate_shell_file_access_gate (compile cfg) cmd cwd = Some (GReject reason).
Proof.
  intros Hop Hsp Hr Hh. unfold evaluate_shell_file_access_gate.
  rewrite (deny_restricts cfg mode form (rule_cwd cwd path u) r Hr Hh). cbn [negb].
  assert (Hs : 3 ≤ severity (evaluate_shell_file_access_inner (compile cfg) MAX_INLINE_SHELL_DEPTH cmd cwd false false)).
  { apply inner_severity; [lia|]. exists path, mode, u. split; [done|]. unfold path_severity. simpl.
    rewrite <- (escalate_deny cfg _ _ r Hr Hh). by apply spelling_severity. }
  destruct (evaluate_shell_file_access_inner _ _ _ _ _ _) as [[]|]; simpl in Hs; [eauto|lia..].
Qed.
End Claims.

(** ** A concrete environment for the witnesses

    The shell grammar and globs of PolicySafety; one directory [/work] with a link to a
    secret below [/etc] that does not exist yet. *)
Section Demo.

Definition demo_field (n : Node) (field : str) : option Node :=
  List.find (λ c, str_eqb (kind c) (if str_eqb field (lit "name") then lit "command_name" else lit "word")) (children n).
#[local] Instance demo_fields : TreeFields.
Proof. exists demo_field. unfold demo_field. intros n f c Hc. by apply find_In in Hc as [? _]. Defined.

Definition demo_dirs : list str := [lit "/"; lit "/work"; lit "/etc"].
#[local] Instance demo_fs : FileSystem := {|
  canonicalize q := if one_of q demo_dirs then Some q else None;
  symlink_metadata q :=
    if one_of q demo_dirs then MetaOk false
    else if str_eqb q (lit "/work/link") then MetaOk true else MetaNotFound;
  read_link q := if str_eqb q (lit "/work/link") then Some (lit "/etc/secret") else None;
  user_grok_home := None
|}.
#[local] Existing Instance demo.

Definition demo_file_cfg : PermissionConfig :=
  mkConfig [mkRule Deny FRead (Some (lit "/etc/secret")) Glob] PromptAsk.
Definition demo_cmd : str := lit "timeout 5 cat link".

Lemma file_gate_is_worst_operand_witness :
  has_file_restrictions (compile demo_file_cfg) = true
  ∧ ∃ path mode u, operand MAX_INLINE_SHELL_DEPTH demo_cmd false path mode u
      ∧ 3 ≤ severity (evaluate_shell_path (compile demo_file_cfg) path (lit "/work") mode u).
Proof.
  split; [reflexivity|].
  apply (file_gate_is_worst_operand (compile demo_file_cfg) demo_cmd (lit "/work") 3); [reflexivity|lia|].
  assert (Hs : severity (evaluate_shell_file_access_gate (compile demo_file_cfg) demo_cmd (lit "/work")) = 3)
    by (by vm_compute).
  rewrite Hs. lia.
Defined.

Definition demo_tree : Tree := default (mkTree (word_node []) true) (demo_parse demo_cmd).
Definition demo_invocation : ShellInvocation :=
  default (mkInvocation 0 WHOLE []) (head (shell_command_invocations (root_node demo_tree))).

Lemma demo_operand : operand MAX_INLINE_SHELL_DEPTH demo_cmd false (lit "link") SRead false.
Proof.
  assert (Hu : invocation_unpinned false (cwd_poison_positions (root_node demo_tree)) demo_invocation = false)
    by (by vm_compute).
  refine (eq_ind _ (operand _ _ _ _ _) _ _ Hu).
  apply (op_word _ _ _ demo_tree demo_invocation (lit "cat")); [reflexivity| |reflexivity|].
  - assert (Hl : shell_command_invocations (root_node demo_tree) = [demo_invocation]) by (by vm_compute).
    rewrite Hl. by left.
  - assert (Hl : command_operands (to_ascii_lowercase (shell_program_name (lit "cat")))
      (literal_words (ci_words (unwrap_invocation_checked demo_invocation))) = [(lit "link", SRead)]) by (by vm_compute).
    rewrite Hl. by left.
Qed.

Lemma denied_file_is_rejected_witness :
  ∃ reason, evaluate_shell_file_access_gate (compile demo_file_cfg) demo_cmd (lit "/work") = Some (GReject reason).
Proof.
  apply (denied_file_is_rejected demo_file_cfg demo_cmd (lit "/work") (lit "link") SRead false (lit "/etc/secret")
           (mkRule Deny FRead (Some (lit "/etc/secret")) Glob)).
  - exact demo_operand.
  - eapply sp_resolved; [by left|reflexivity|by left|by vm_compute].
  - by left.
  - by vm_compute.
Defined.
End Demo.
