(* ===== verification/GatePreflight.v ===== *)
(** The managed-policy preflight of one permission request
    (crates/codegen/xai-grok-workspace/src/permission/gate_preflight.rs): the direct rules,
    the bash command gate and the shell file-access gate evaluated together, and when the
    auto-mode classifier may decide instead of the user. *)
From Stdlib Require Import String Ascii.
From S2P Require Import Prelude RustStr Json LexPath Shell Rules Policy PolicySafety ShellWords ShellAccess.
From S2P Require Import ShellAccessSafety.

Section Preflight.
Context `{PolicyEnv, TreeFields, FileSystem}.

Record GatePreflight := mkPreflight {
  direct : option Decision;
  bash_command : option GateDecision;
  shell_file : option GateDecision;
  defers_gate_ask : bool
}.

Definition POLICY_ASK : str := lit "policy_ask".
Definition BASH_COMMAND_GATE_ASK : str := lit "bash_command_gate_ask".
Definition SHELL_FILE_GATE_ASK : str := lit "shell_file_gate_ask".

Definition is_ask (g : option GateDecision) : bool :=
  match g with Some GAskRuleMatch | Some GAskFailClosed => true | _ => false end.
Definition is_rule_match (g : option GateDecision) : bool :=
  match g with Some GAskRuleMatch => true | _ => false end.
Definition is_fail_closed (g : option GateDecision) : bool :=
  match g with Some GAskFailClosed => true | _ => false end.
Definition is_direct_ask (d : option Decision) : bool := match d with Some DAsk => true | _ => false end.

(** The two bash gates; other accesses pass neither. *)
Definition bash_gates (policy : option CompiledPolicy) (access : AccessKind) (cwd : str)
  : option GateDecision * option GateDecision :=
  match policy, access with
  | Some p, ABash cmd => (evaluate_bash_command_gate p cmd, evaluate_shell_file_access_gate p cmd cwd)
  | _, _ => (None, None)
  end.

(** [GatePreflight::evaluate] *)
Definition preflight (policy : option CompiledPolicy) (access : AccessKind) (cwd : str) (auto_mode : bool)
  : GatePreflight :=
  let direct := p ← policy; evaluate_with_cwd p access (Some cwd) in
  let '(bash_command, shell_file) := bash_gates policy access cwd in
  let rule_match_ask := is_direct_ask direct || is_rule_match bash_command || is_rule_match shell_file in
  let fail_closed_ask := is_fail_closed bash_command || is_fail_closed shell_file in
  mkPreflight direct bash_command shell_file (auto_mode && fail_closed_ask && negb rule_match_ask).

Definition policy_decision (g : GatePreflight) : option Decision :=
  combine_decisions (combine_decisions (direct g) (into_decision <$> bash_command g))
    (into_decision <$> shell_file g).
Definition policy_forced_prompt (g : GatePreflight) : bool := is_direct_ask (policy_decision g).
Definition shell_file_forced_prompt (g : GatePreflight) : bool := is_ask (shell_file g).
Definition shell_forced_prompt (g : GatePreflight) : bool := is_ask (bash_command g) || shell_file_forced_prompt g.
Definition admits_auto_classifier (g : GatePreflight) : bool := negb (policy_forced_prompt g) || defers_gate_ask g.
Definition prompt_trigger (g : GatePreflight) (auto_prompt_reason : option str) : option str :=
  if is_direct_ask (direct g) then Some POLICY_ASK
  else if defers_gate_ask g then auto_prompt_reason
  else if is_ask (bash_command g) then Some BASH_COMMAND_GATE_ASK
  else if shell_file_forced_prompt g then Some SHELL_FILE_GATE_ASK
  else auto_prompt_reason.

(** ** Ranks *)

Definition decision_severity (d : option Decision) : nat :=
  match d with None => 0 | Some d => decision_rank d end.

Lemma decision_severity_combine a b :
  decision_severity (combine_decisions a b) = decision_severity a `max` decision_severity b.
Proof.
  destruct a as [a|], b as [b|]; simpl; [|lia|lia|lia].
  destruct (Nat.leb_spec (decision_rank b) (decision_rank a)); simpl; lia.
Qed.

Definition rejects (d : option Decision) : Prop := ∃ reason, d = Some (DReject reason).
Definition gate_rejects (d : option GateDecision) : Prop := ∃ reason, d = Some (GReject reason).

(** What the rules answer directly. *)
Lemma evaluate_kinds p access cwd :
  match evaluate_with_cwd p access cwd with
  | None | Some DAllow | Some DAsk | Some (DReject _) => True
  | _ => False
  end.
Proof.
  unfold evaluate_with_cwd.
  assert (Hs : ∀ rs ask allow, match (scan_rules access cwd rs ask allow).1.1 with
                               | None | Some (DReject _) => True | _ => False end).
  { induction rs as [|[r m] rs IH]; intros ask allow; simpl; [done|].
    destruct (negb (tool_filter_matches _ _)); [apply IH|]. destruct (negb (pattern_matches _ _ _ _)); [apply IH|].
    destruct (action r); [apply IH|done|apply IH]. }
  specialize (Hs (compiled_rules p) false false).
  destruct (scan_rules _ _ _ _ _) as [[d ask] allow]. simpl in Hs.
  destruct d; [by destruct d|]. by repeat case_match.
Qed.

(** The three layers compose to their worst answer.  A request is rejected exactly when a
    deny rule meets the access itself, or the bash gate or the file gate rejects the
    command; it is allowed without a prompt only when neither gate objects; and when a
    prompt is due, the auto-mode classifier may answer instead only in auto mode and only
    for questions that no rule asked. *)
Theorem preflight_composes p access cwd auto_mode :
  let g := preflight (Some p) access cwd auto_mode in
  (rejects (policy_decision g) ↔ rejects (direct g) ∨ gate_rejects (bash_command g) ∨ gate_rejects (shell_file g))
  ∧ (policy_decision g = Some DAllow → direct g = Some DAllow ∧ bash_command g = None ∧ shell_file g = None)
  ∧ (policy_decision g = Some DAsk → admits_auto_classifier g = true →
     auto_mode = true ∧ direct g ≠ Some DAsk ∧ bash_command g ≠ Some GAskRuleMatch
     ∧ shell_file g ≠ Some GAskRuleMatch).
Proof.
  unfold preflight. pose proof (evaluate_kinds p access (Some cwd)) as Hk.
  destruct (bash_gates (Some p) access cwd) as [b f]. simpl. destruct (evaluate_with_cwd p access (Some cwd)) as [d|]; simpl.
  - destruct d; try done; destruct b as [[]|], f as [[]|]; destruct auto_mode;
      unfold policy_decision, admits_auto_classifier, policy_forced_prompt, rejects, gate_rejects; simpl;
      (split_and!; [split; [naive_solver|naive_solver]|done|done || naive_solver]).
  - destruct b as [[]|], f as [[]|]; destruct auto_mode;
      unfold policy_decision, admits_auto_classifier, policy_forced_prompt, rejects, gate_rejects; simpl;
      (split_and!; [split; [naive_solver|naive_solver]|done|done || naive_solver]).
Qed.
End Preflight.
