(* ===== verification/PatchParser.v ===== *)
(** The apply-patch parser
    (crates/codegen/xai-grok-tools/src/implementations/codex/apply_patch/parser.rs, with
    [ParseError] of errors.rs).

    The two [while] loops are written with fuel; [hunks_loop_eq] and [chunks_loop_eq] show
    that the fuel used is always enough: the loops satisfy the source's equations. *)
From Stdlib Require Import String Ascii.
From S2P Require Import Prelude RustStr.

Inductive ParseError :=
| InvalidPatchError (msg : str)
| InvalidHunkError (message : str) (line_number : nat).

Record UpdateFileChunk := mkChunk {
  change_context : option str;
  old_lines : list str;
  new_lines : list str;
  is_end_of_file : bool
}.

Inductive Hunk :=
| AddFile (path contents : str)
| DeleteFile (path : str)
| UpdateFile (path : str) (move_path : option str) (chunks : list UpdateFileChunk).

Record ParsedPatch := mkParsed { hunks : list Hunk; patch : str }.

(** ** Markers *)

Definition BEGIN_PATCH_MARKER : str := lit "*** Begin Patch".
Definition END_PATCH_MARKER : str := lit "*** End Patch".
Definition ADD_FILE_MARKER : str := lit "*** Add File: ".
Definition DELETE_FILE_MARKER : str := lit "*** Delete File: ".
Definition UPDATE_FILE_MARKER : str := lit "*** Update File: ".
Definition MOVE_TO_MARKER : str := lit "*** Move to: ".
Definition EOF_MARKER : str := lit "*** End of File".
Definition CHANGE_CONTEXT_MARKER : str := lit "@@ ".
Definition EMPTY_CHANGE_CONTEXT_MARKER : str := lit "@@".

(** ** Boundaries *)

Definition check_start_and_end_lines_strict (first_line last_line : option str)
  : result unit ParseError :=
  match trim <$> first_line, trim <$> last_line with
  | Some first, Some last =>
      if str_eqb first BEGIN_PATCH_MARKER && str_eqb last END_PATCH_MARKER then Ok tt
      else if negb (str_eqb first BEGIN_PATCH_MARKER)
      then Err (InvalidPatchError (lit "The first line of the patch must be '*** Begin Patch'"))
      else Err (InvalidPatchError (lit "The last line of the patch must be '*** End Patch'"))
  | Some first, None =>
      if negb (str_eqb first BEGIN_PATCH_MARKER)
      then Err (InvalidPatchError (lit "The first line of the patch must be '*** Begin Patch'"))
      else Err (InvalidPatchError (lit "The last line of the patch must be '*** End Patch'"))
  | None, _ => Err (InvalidPatchError (lit "The last line of the patch must be '*** End Patch'"))
  end.

Definition check_patch_boundaries_strict (ls : list str) : result unit ParseError :=
  check_start_and_end_lines_strict (head ls) (last ls).

Definition heredoc_openers : list str :=
  [lit "<<EOF"; lit "<<'EOF'"; lit "<<" ++ [DQUOTE] ++ lit "EOF" ++ [DQUOTE]].

Definition check_patch_boundaries_lenient (original_lines : list str)
  (original_parse_error : ParseError) : result (list str) ParseError :=
  match original_lines with
  | first :: ((_ :: _) as rest) =>
      if one_of first heredoc_openers && ends_with (lit "EOF") (default [] (last rest))
         && (4 <=? length original_lines)%nat
      then
        let inner_lines := take (length original_lines - 2) rest in
        do? check_patch_boundaries_strict inner_lines ; Ok inner_lines
      else Err original_parse_error
  | _ => Err original_parse_error
  end.

(** ** One chunk of an update *)

Definition push_old (c : UpdateFileChunk) (l : str) : UpdateFileChunk :=
  mkChunk (change_context c) (old_lines c ++ [l]) (new_lines c) (is_end_of_file c).
Definition push_new (c : UpdateFileChunk) (l : str) : UpdateFileChunk :=
  mkChunk (change_context c) (old_lines c) (new_lines c ++ [l]) (is_end_of_file c).
Definition set_eof (c : UpdateFileChunk) : UpdateFileChunk :=
  mkChunk (change_context c) (old_lines c) (new_lines c) true.

Definition no_lines_error (line_number : nat) : ParseError :=
  InvalidHunkError (lit "Update hunk does not contain any lines") line_number.

(** The [for line in &lines[start_index..]] loop. *)
Fixpoint chunk_body (line_number : nat) (chunk : UpdateFileChunk) (parsed_lines : nat)
  (ls : list str) : result (UpdateFileChunk * nat) ParseError :=
  match ls with
  | [] => Ok (chunk, parsed_lines)
  | line :: ls' =>
      if str_eqb line EOF_MARKER then
        if (parsed_lines =? 0)%nat then Err (no_lines_error (line_number + 1))
        else Ok (set_eof chunk, parsed_lines + 1)
      else match line with
      | [] => chunk_body line_number (push_new (push_old chunk []) []) (parsed_lines + 1) ls'
      | c :: l =>
          if (c =? chr " ")%N
          then chunk_body line_number (push_new (push_old chunk l) l) (parsed_lines + 1) ls'
          else if (c =? chr "+")%N
          then chunk_body line_number (push_new chunk l) (parsed_lines + 1) ls'
          else if (c =? chr "-")%N
          then chunk_body line_number (push_old chunk l) (parsed_lines + 1) ls'
          else if (parsed_lines =? 0)%nat then
            Err (InvalidHunkError
                   (lit "Unexpected line found in update hunk: '" ++ line
                    ++ lit "'. Every line should start with ' ' (context line), '+' (added line), or '-' (removed line)")
                   (line_number + 1))
          else Ok (chunk, parsed_lines)
      end
  end.

Definition parse_update_file_chunk (ls : list str) (line_number : nat)
  (allow_missing_context : bool) : result (UpdateFileChunk * nat) ParseError :=
  match ls with
  | [] => Err (no_lines_error line_number)
  | l0 :: rest =>
      let? start :=
        (if str_eqb l0 EMPTY_CHANGE_CONTEXT_MARKER then Ok (None, 1)
         else match strip_prefix CHANGE_CONTEXT_MARKER l0 with
              | Some context => Ok (Some context, 1)
              | None =>
                  if negb allow_missing_context
                  then Err (InvalidHunkError
                              (lit "Expected update hunk to start with a @@ context marker, got: '"
                               ++ l0 ++ lit "'") line_number)
                  else Ok (None, 0)
              end) in
      let '(context, start_index) := start in
      if (length ls <=? start_index)%nat then Err (no_lines_error (line_number + 1))
      else
        let? r := chunk_body line_number (mkChunk context [] [] false) 0 (drop start_index ls) in
        let '(chunk, parsed_lines) := r in Ok (chunk, parsed_lines + start_index)
  end.

(** ** One hunk *)

(** The [while !remaining_lines.is_empty()] loop over the chunks of an update. *)
Fixpoint chunks_loop (fuel : nat) (line_number : nat) (chunks : list UpdateFileChunk)
  (parsed_lines : nat) (remaining : list str) : result (list UpdateFileChunk * nat) ParseError :=
  match fuel with
  | O => Ok (chunks, parsed_lines)
  | S fuel =>
      match remaining with
      | [] => Ok (chunks, parsed_lines)
      | l :: rest =>
          if str_eqb (trim l) [] then chunks_loop fuel line_number chunks (parsed_lines + 1) rest
          else if starts_with (lit "***") l then Ok (chunks, parsed_lines)
          else
            let? r := parse_update_file_chunk remaining (line_number + parsed_lines)
                        (match chunks with [] => true | _ => false end) in
            let '(chunk, chunk_lines) := r in
            chunks_loop fuel line_number (chunks ++ [chunk]) (parsed_lines + chunk_lines)
              (drop chunk_lines remaining)
      end
  end.

(** The loop over the added lines. *)
Fixpoint add_lines (contents : str) (parsed_lines : nat) (ls : list str) : str * nat :=
  match ls with
  | [] => (contents, parsed_lines)
  | l :: ls' =>
      match strip_prefix (lit "+") l with
      | Some line_to_add => add_lines (contents ++ line_to_add ++ [NL]) (parsed_lines + 1) ls'
      | None => (contents, parsed_lines)
      end
  end.

Definition update_hunk (path : str) (line_number : nat) (rest : list str)
  : result (Hunk * nat) ParseError :=
  let move_path := head rest ≫= strip_prefix MOVE_TO_MARKER in
  let '(remaining, parsed_lines) :=
    match move_path with Some _ => (tail rest, 2) | None => (rest, 1) end in
  let? r := chunks_loop (length remaining) line_number [] parsed_lines remaining in
  let '(chunks, parsed_lines) := r in
  match chunks with
  | [] => Err (InvalidHunkError (lit "Update file hunk for path '" ++ path ++ lit "' is empty")
                 line_number)
  | _ => Ok (UpdateFile path move_path chunks, parsed_lines)
  end.

(** [lines] is not empty at the call ([lines[0]] would panic). *)
Definition parse_one_hunk (ls : list str) (line_number : nat) : result (Hunk * nat) ParseError :=
  let first_line := trim (default [] (head ls)) in
  let rest := tail ls in
  match strip_prefix ADD_FILE_MARKER first_line with
  | Some path =>
      let '(contents, parsed_lines) := add_lines [] 1 rest in
      Ok (AddFile path contents, parsed_lines)
  | None =>
  match strip_prefix DELETE_FILE_MARKER first_line with
  | Some path => Ok (DeleteFile path, 1)
  | None =>
  match strip_prefix UPDATE_FILE_MARKER first_line with
  | Some path => update_hunk path line_number rest
  | None =>
      Err (InvalidHunkError
             (lit "'" ++ first_line
              ++ lit "' is not a valid hunk header. Valid hunk headers: '*** Add File: {path}', '*** Delete File: {path}', '*** Update File: {path}'")
             line_number)
  end end end.

(** ** The patch *)

Fixpoint hunks_loop (fuel : nat) (line_number : nat) (remaining : list str)
  : result (list Hunk) ParseError :=
  match fuel with
  | O => Ok []
  | S fuel =>
      match remaining with
      | [] => Ok []
      | _ =>
          let? r := parse_one_hunk remaining line_number in
          let '(hunk, hunk_lines) := r in
          let? hs := hunks_loop fuel (line_number + hunk_lines) (drop hunk_lines remaining) in
          Ok (hunk :: hs)
      end
  end.

Inductive ParseMode := Strict | Lenient.

Definition parse_patch_text (text : str) (mode : ParseMode) : result ParsedPatch ParseError :=
  let ls := lines (trim text) in
  let? ls :=
    (match check_patch_boundaries_strict ls with
     | Ok _ => Ok ls
     | Err e =>
         match mode with
         | Strict => Err e
         | Lenient => check_patch_boundaries_lenient ls e
         end
     end) in
  let remaining := take (length ls - 2) (tail ls) in
  let? hs := hunks_loop (length remaining) 2 remaining in
  Ok (mkParsed hs (join [NL] ls)).

Definition PARSE_IN_STRICT_MODE : bool := false.
Definition parse_patch (text : str) : result ParsedPatch ParseError :=
  parse_patch_text text (if PARSE_IN_STRICT_MODE then Strict else Lenient).

Example parse_all_hunk_types :
  parse_patch (join [NL] [lit "*** Begin Patch"; lit "*** Add File: path/add.py"; lit "+abc";
    lit "+def"; lit "*** Delete File: path/delete.py"; lit "*** Update File: path/update.py";
    lit "*** Move to: path/update2.py"; lit "@@ def f():"; lit "-    pass"; lit "+    return 123";
    lit "*** End Patch"])
  = Ok (mkParsed
      [AddFile (lit "path/add.py") (lit "abc" ++ [NL] ++ lit "def" ++ [NL]);
       DeleteFile (lit "path/delete.py");
       UpdateFile (lit "path/update.py") (Some (lit "path/update2.py"))
         [mkChunk (Some (lit "def f():")) [lit "    pass"] [lit "    return 123"] false]]
      (join [NL] [lit "*** Begin Patch"; lit "*** Add File: path/add.py"; lit "+abc";
        lit "+def"; lit "*** Delete File: path/delete.py"; lit "*** Update File: path/update.py";
        lit "*** Move to: path/update2.py"; lit "@@ def f():"; lit "-    pass"; lit "+    return 123";
        lit "*** End Patch"])).
Proof. vm_compute. reflexivity. Qed.

(** ** Every step consumes lines *)

Lemma chunk_body_consumes ln c n ls c' n' :
  chunk_body ln c n ls = Ok (c', n') →
  n ≤ n' ≤ n + length ls ∧ (ls ≠ [] → n = 0 → 0 < n').
Proof.
  revert c n; induction ls as [|l ls IH]; intros c n; simpl; [intros [= _ <-]; split; [lia|done]|].
  assert (Hrec : ∀ c, chunk_body ln c (n + 1) ls = Ok (c', n') →
                 n ≤ n' ≤ n + S (length ls) ∧ (l :: ls ≠ [] → n = 0 → 0 < n'))
    by (intros c2 [? _]%IH; split; lia).
  destruct (str_eqb _ _).
  { destruct (Nat.eqb_spec n 0); [done|]. intros [= _ <-]. split; lia. }
  destruct l as [|x l]; [apply Hrec|].
  destruct (_ =? _)%N; [apply Hrec|]. destruct (_ =? _)%N; [apply Hrec|].
  destruct (_ =? _)%N; [apply Hrec|].
  destruct (Nat.eqb_spec n 0); [done|]. intros [= _ <-]. split; lia.
Qed.

Lemma parse_chunk_consumes ls ln b c n :
  parse_update_file_chunk ls ln b = Ok (c, n) → 0 < n ≤ length ls.
Proof.
  destruct ls as [|l0 rest]; [done|]. unfold parse_update_file_chunk. intros H.
  apply rbind_Ok in H as ([ctx start] & Hstart & H).
  destruct (Nat.leb_spec (length (l0 :: rest)) start); [done|].
  apply rbind_Ok in H as ([c' n'] & Hb & H). inv_ok. simplify_eq.
  apply chunk_body_consumes in Hb as [Hle Hpos].
  rewrite length_drop in Hle. split; [|lia].
  assert (Hd : drop start (l0 :: rest) ≠ []); [|specialize (Hpos Hd eq_refl); lia].
  intros Hd. apply (f_equal length) in Hd. rewrite length_drop in Hd. simpl in *. lia.
Qed.

Lemma add_lines_consumes s n ls : n ≤ (add_lines s n ls).2 ≤ n + length ls.
Proof.
  revert s n; induction ls as [|l ls IH]; intros s n; cbn [add_lines length]; [simpl; lia|].
  destruct (strip_prefix (lit "+") l) as [l0|]; cbn [snd]; [|lia].
  specialize (IH (s ++ l0 ++ [NL]) (n + 1)). lia.
Qed.

Lemma chunks_loop_eq fuel ln cs n remaining :
  length remaining ≤ fuel →
  chunks_loop fuel ln cs n remaining =
  match remaining with
  | [] => Ok (cs, n)
  | l :: rest =>
      if str_eqb (trim l) [] then chunks_loop (length rest) ln cs (n + 1) rest
      else if starts_with (lit "***") l then Ok (cs, n)
      else
        let? r := parse_update_file_chunk remaining (ln + n)
                    (match cs with [] => true | _ => false end) in
        let '(chunk, k) := r in
        chunks_loop (length (drop k remaining)) ln (cs ++ [chunk]) (n + k) (drop k remaining)
  end.
Proof.
  assert (Hirr : ∀ fuel1 fuel2 cs n rem, length rem ≤ fuel1 → length rem ≤ fuel2 →
    chunks_loop fuel1 ln cs n rem = chunks_loop fuel2 ln cs n rem).
  { clear. induction fuel1 as [|f1 IH]; intros [|f2] cs n rem H1 H2.
    - done.
    - destruct rem; [done|]. simpl in *. lia.
    - destruct rem; [done|]. simpl in *. lia.
    - destruct rem as [|l rest]; [done|]. cbn [chunks_loop]. cbn [length] in *.
      destruct (str_eqb _ _); [apply IH; lia|]. destruct (starts_with _ _); [done|].
      destruct (parse_update_file_chunk _ _ _) as [[c k]|] eqn:Hp; [|done]. cbn [rbind].
      apply parse_chunk_consumes in Hp. apply IH; rewrite length_drop; simpl length in *; lia. }
  intros Hf. destruct remaining as [|l rest]; [by destruct fuel|].
  destruct fuel as [|fuel]; [simpl in *; lia|]. cbn [chunks_loop]. cbn [length] in *.
  destruct (str_eqb _ _); [apply Hirr; lia|]. destruct (starts_with _ _); [done|].
  destruct (parse_update_file_chunk _ _ _) as [[c k]|] eqn:Hp; [|done]. cbn [rbind].
  apply parse_chunk_consumes in Hp. apply Hirr; rewrite length_drop; simpl length in *; lia.
Qed.

Lemma chunks_loop_consumes fuel ln cs n remaining cs' n' :
  length remaining ≤ fuel →
  chunks_loop fuel ln cs n remaining = Ok (cs', n') → n ≤ n' ≤ n + length remaining.
Proof.
  revert cs n remaining; induction fuel as [|fuel IH]; intros cs n [|l rest] Hf; cbn [chunks_loop].
  - intros [= _ <-]. lia.
  - simpl in Hf. lia.
  - intros [= _ <-]. lia.
  - cbn [length] in *. destruct (str_eqb _ _).
    { intros ?%IH; lia. }
    destruct (starts_with _ _); [intros [= _ <-]; lia|].
    destruct (parse_update_file_chunk _ _ _) as [[c k]|] eqn:Hp; [|done]. cbn [rbind].
    apply parse_chunk_consumes in Hp. intros Hl%IH; rewrite length_drop in *; simpl length in *; lia.
Qed.

Lemma parse_one_hunk_consumes ls ln h n :
  ls ≠ [] → parse_one_hunk ls ln = Ok (h, n) → 0 < n ≤ length ls.
Proof.
  destruct ls as [|l rest]; [done|]. intros _. unfold parse_one_hunk. cbn [head tail].
  destruct (strip_prefix ADD_FILE_MARKER _) as [p|].
  { pose proof (add_lines_consumes [] 1 rest) as Ha. destruct (add_lines _ _ _). simpl in *.
    intros [= _ <-]. lia. }
  destruct (strip_prefix DELETE_FILE_MARKER _) as [p|]; [intros [= _ <-]; simpl; lia|].
  destruct (strip_prefix UPDATE_FILE_MARKER _) as [p|]; [|done].
  unfold update_hunk. intros H.
  destruct (head rest ≫= strip_prefix MOVE_TO_MARKER) as [m|] eqn:Hm;
    apply rbind_Ok in H as ([cs k] & Hl & H);
    (apply chunks_loop_consumes in Hl; [|reflexivity]);
    (destruct cs; [done|]); injection H as _ <-; simpl.
  - destruct rest; [done|]. simpl in *. lia.
  - lia.
Qed.

Lemma hunks_loop_fuel fuel1 fuel2 ln remaining :
  length remaining ≤ fuel1 → length remaining ≤ fuel2 →
  hunks_loop fuel1 ln remaining = hunks_loop fuel2 ln remaining.
Proof.
  revert fuel2 ln remaining; induction fuel1 as [|f1 IH]; intros [|f2] ln [|l rest] H1 H2;
    try done; try (simpl in *; lia). cbn [hunks_loop].
  destruct (parse_one_hunk _ _) as [[h k]|] eqn:Hp; [|done]. cbn [rbind].
  apply parse_one_hunk_consumes in Hp; [|done].
  rewrite (IH f2); [done|rewrite length_drop; simpl length in *; lia..].
Qed.

(** The hunks of a list of lines: the loop with enough fuel. *)
Definition parse_hunks (ln : nat) (remaining : list str) : result (list Hunk) ParseError :=
  hunks_loop (length remaining) ln remaining.

(** ** Printing

    The canonical text of a patch: every chunk with its [@@] header, removed lines before
    added ones. *)

Definition chunk_text (c : UpdateFileChunk) : list str :=
  match change_context c with
  | None => EMPTY_CHANGE_CONTEXT_MARKER
  | Some ctx => CHANGE_CONTEXT_MARKER ++ ctx
  end :: (cons (chr "-") <$> old_lines c) ++ (cons (chr "+") <$> new_lines c)
      ++ (if is_end_of_file c then [EOF_MARKER] else []).

(** The lines of the contents of an added file, which end with a newline. *)
Definition content_lines (contents : str) : list str :=
  take (length (split_on NL contents) - 1) (split_on NL contents).

Definition hunk_text (h : Hunk) : list str :=
  match h with
  | AddFile path contents =>
      (ADD_FILE_MARKER ++ path) :: (cons (chr "+") <$> content_lines contents)
  | DeleteFile path => [DELETE_FILE_MARKER ++ path]
  | UpdateFile path move_path chunks =>
      (UPDATE_FILE_MARKER ++ path)
      :: match move_path with Some m => [MOVE_TO_MARKER ++ m] | None => [] end
      ++ flat_map chunk_text chunks
  end.

Definition patch_lines (hs : list Hunk) : list str :=
  BEGIN_PATCH_MARKER :: flat_map hunk_text hs ++ [END_PATCH_MARKER].
Definition patch_text (hs : list Hunk) : str := join [NL] (patch_lines hs).

(** What the format can express. *)
Definition printable_path (p : str) : bool :=
  wf_line p && match last p with Some c => negb (is_whitespace c) | None => false end.
Definition printable_chunk (c : UpdateFileChunk) : bool :=
  wf_line (default [] (change_context c))
  && forallb wf_line (old_lines c) && forallb wf_line (new_lines c)
  && (0 <? length (old_lines c) + length (new_lines c))%nat.
Definition printable_hunk (h : Hunk) : bool :=
  match h with
  | AddFile path contents =>
      printable_path path && bool_decide (last (split_on NL contents) = Some [])
      && forallb wf_line (content_lines contents)
  | DeleteFile path => printable_path path
  | UpdateFile path move_path chunks =>
      printable_path path && wf_line (default [] move_path)
      && match chunks with [] => false | _ => true end && forallb printable_chunk chunks
  end.

(** A line that ends a chunk when it follows one. *)
Definition stops (l : str) : Prop :=
  match l with
  | [] => False
  | c :: _ => c ≠ chr " " ∧ c ≠ chr "+" ∧ c ≠ chr "-" ∧ is_whitespace c = false
  end ∧ l ≠ EOF_MARKER.
Definition stops_at (tl : list str) : Prop := if tl is l :: _ then stops l else True.

Lemma chunk_body_old ln ctx old new eof n ls tl :
  chunk_body ln (mkChunk ctx old new eof) n ((cons (chr "-") <$> ls) ++ tl)
  = chunk_body ln (mkChunk ctx (old ++ ls) new eof) (n + length ls) tl.
Proof.
  revert old n; induction ls as [|l ls IH]; intros old n; [by rewrite app_nil_r, Nat.add_0_r|].
  rewrite fmap_cons. cbn [app chunk_body length]. rewrite (proj2 (str_eqb_neq _ _)) by done.
  change (chr "-" =? chr " ")%N with false. change (chr "-" =? chr "+")%N with false.
  change (chr "-" =? chr "-")%N with true. cbv iota. unfold push_old. cbn [change_context old_lines new_lines is_end_of_file].
  rewrite IH, <- app_assoc. f_equal. lia.
Qed.

Lemma chunk_body_new ln ctx old new eof n ls tl :
  chunk_body ln (mkChunk ctx old new eof) n ((cons (chr "+") <$> ls) ++ tl)
  = chunk_body ln (mkChunk ctx old (new ++ ls) eof) (n + length ls) tl.
Proof.
  revert new n; induction ls as [|l ls IH]; intros new n; [by rewrite app_nil_r, Nat.add_0_r|].
  rewrite fmap_cons. cbn [app chunk_body length]. rewrite (proj2 (str_eqb_neq _ _)) by done.
  change (chr "+" =? chr " ")%N with false. change (chr "+" =? chr "+")%N with true.
  cbv iota. unfold push_new. cbn [change_context old_lines new_lines is_end_of_file].
  rewrite IH, <- app_assoc. f_equal. lia.
Qed.

Lemma chunk_body_stop ln c n tl : 0 < n → stops_at tl → chunk_body ln c n tl = Ok (c, n).
Proof.
  intros Hn Htl. destruct tl as [|l tl]; [done|]. destruct Htl as [Hc Hne]. cbn [chunk_body].
  rewrite (proj2 (str_eqb_neq _ _)) by exact Hne. destruct l as [|x l]; [done|].
  destruct Hc as (H1 & H2 & H3 & _). apply N.eqb_neq in H1, H2, H3. rewrite H1, H2, H3.
  by destruct n; [lia|].
Qed.

Lemma chunk_body_eof ln ctx old new n (eof : bool) tl :
  0 < n → stops_at tl →
  chunk_body ln (mkChunk ctx old new false) n ((if eof then [EOF_MARKER] else []) ++ tl)
  = Ok (mkChunk ctx old new eof, n + if eof then 1 else 0).
Proof.
  intros Hn Htl. destruct eof; cbn [app]; [|rewrite chunk_body_stop, Nat.add_0_r by done; done].
  cbn [chunk_body]. rewrite str_eqb_refl. by destruct n; [lia|].
Qed.

Lemma parse_chunk_text ln b c tl :
  printable_chunk c = true → stops_at tl →
  parse_update_file_chunk (chunk_text c ++ tl) ln b = Ok (c, length (chunk_text c)).
Proof.
  intros Hp Htl. unfold printable_chunk in Hp. bool_to_prop.
  destruct c as [ctx old new eof]. cbn [change_context old_lines new_lines is_end_of_file] in *.
  assert (Hbody : chunk_body ln (mkChunk ctx [] [] false) 0
      (((cons (chr "-") <$> old) ++ (cons (chr "+") <$> new) ++ (if eof then [EOF_MARKER] else [])) ++ tl)
    = Ok (mkChunk ctx old new eof, length (chunk_text (mkChunk ctx old new eof)) - 1)).
  { rewrite <- !app_assoc, chunk_body_old, chunk_body_new. rewrite chunk_body_eof by (done || lia).
    unfold chunk_text. cbn [change_context old_lines new_lines is_end_of_file length].
    rewrite !length_app, !length_fmap. do 2 f_equal. destruct eof; simpl; lia. }
  assert (Hlen : 1 < length (chunk_text (mkChunk ctx old new eof) ++ tl)).
  { unfold chunk_text. cbn [change_context old_lines new_lines is_end_of_file length app].
    rewrite !length_app, !length_fmap. lia. }
  unfold chunk_text in *. cbn [change_context old_lines new_lines is_end_of_file app] in *.
  unfold parse_update_file_chunk. destruct ctx as [ctx|].
  - rewrite (proj2 (str_eqb_neq _ _)) by done.
    rewrite (proj2 (strip_prefix_Some CHANGE_CONTEXT_MARKER _ ctx)) by done. cbn [rbind].
    rewrite (proj2 (Nat.leb_gt _ _) Hlen). simpl drop. rewrite drop_0. rewrite Hbody. cbn [rbind length].
    do 2 f_equal. lia.
  - rewrite str_eqb_refl. cbn [rbind].
    rewrite (proj2 (Nat.leb_gt _ _) Hlen). simpl drop. rewrite drop_0. rewrite Hbody. cbn [rbind length]. do 2 f_equal. lia.
Qed.

Lemma chunk_text_stops c tl : stops_at (chunk_text c ++ tl).
Proof. unfold chunk_text. by destruct (change_context c). Qed.

Lemma chunks_loop_text ln acc n cs tl :
  forallb printable_chunk cs = true → stops_at tl →
  (if tl is l :: _ then starts_with (lit "***") l = true else True) →
  ∀ fuel, length (flat_map chunk_text cs ++ tl) ≤ fuel →
  chunks_loop fuel ln acc n (flat_map chunk_text cs ++ tl)
  = Ok (acc ++ cs, n + length (flat_map chunk_text cs)).
Proof.
  intros Hp Htl Hst. revert acc n Hp; induction cs as [|c cs IH]; intros acc n Hp fuel Hf;
    rewrite chunks_loop_eq by exact Hf; cbn [flat_map app].
  - rewrite app_nil_r, Nat.add_0_r. destruct tl as [|l tl]; [done|].
    destruct (str_eqb (trim l) []) eqn:E; [|by rewrite Hst].
    apply str_eqb_eq in E. destruct Htl as [Hl _]. destruct l as [|x l]; [done|].
    destruct Hl as (_ & _ & _ & Hx). by apply trim_not_nil in E.
  - cbn [forallb] in Hp. apply andb_true_iff in Hp as [Hc Hp].
    rewrite <- app_assoc.
    assert (Hnext : stops_at (flat_map chunk_text cs ++ tl)).
    { destruct cs as [|c' cs']; [exact Htl|]. cbn [flat_map]. rewrite <- app_assoc. apply chunk_text_stops. }
    pose proof (parse_chunk_text (ln + n) (match acc with [] => true | _ => false end) c _ Hc Hnext) as Hpc.
    assert (Hne : ∃ l rest, chunk_text c ++ flat_map chunk_text cs ++ tl = l :: rest
             ∧ str_eqb (trim l) [] = false ∧ starts_with (lit "***") l = false).
    { unfold chunk_text. destruct (change_context c) as [ctx|]; cbn [app];
        eexists _, _; (split; [reflexivity|]); (split; [|reflexivity]);
        apply str_eqb_neq; apply trim_not_nil; reflexivity. }
    destruct Hne as (l & rest & El & H1 & H2). rewrite El in *. rewrite H1, H2, Hpc. cbn [rbind].
    rewrite <- El. rewrite drop_app_length. rewrite IH; [|exact Hp|reflexivity].
    rewrite <- app_assoc, length_app. do 2 f_equal. lia.
Qed.

Lemma add_lines_text s n ls tl :
  (if tl is l :: _ then strip_prefix (lit "+") l = None else True) →
  add_lines s n ((cons (chr "+") <$> ls) ++ tl) = (s ++ unlines ls, n + length ls).
Proof.
  intros Htl. revert s n; induction ls as [|l ls IH]; intros s n.
  - rewrite app_nil_r, Nat.add_0_r. cbn [fmap list_fmap app]. destruct tl as [|t tl]; [done|].
    cbn [add_lines]. by rewrite Htl.
  - rewrite fmap_cons. cbn [app add_lines length].
    rewrite (proj2 (strip_prefix_Some (lit "+") _ l)) by done. rewrite IH. unfold unlines.
    cbn [List.map concat]. rewrite <- !app_assoc. f_equal. lia.
Qed.

(** A hunk header, which ends the hunk before it. *)
Definition header_line (l : str) : Prop :=
  ∃ p, l = ADD_FILE_MARKER ++ p ∨ l = DELETE_FILE_MARKER ++ p ∨ l = UPDATE_FILE_MARKER ++ p.
Definition at_header (tl : list str) : Prop := if tl is l :: _ then header_line l else True.

Lemma at_header_facts tl : at_header tl →
  stops_at tl ∧ (if tl is l :: _ then starts_with (lit "***") l = true else True)
  ∧ (if tl is l :: _ then strip_prefix (lit "+") l = None else True).
Proof. destruct tl as [|l tl]; [done|]. intros [p [-> |[-> | ->]]]; repeat split; done. Qed.

Lemma trim_header marker p :
  printable_path p = true → head marker = Some (chr "*") → trim (marker ++ p) = marker ++ p.
Proof.
  intros Hp Hm. apply trim_id. unfold printable_path, no_outer_space in *. bool_to_prop.
  destruct marker as [|m marker]; [done|]. injection Hm as ->.
  rewrite last_app. destruct (last p) as [c|]; [|done]. cbn [app head]. done.
Qed.

Lemma content_lines_unlines contents :
  last (split_on NL contents) = Some [] → unlines (content_lines contents) = contents.
Proof.
  intros Hl. apply last_Some in Hl as [ls Hl]. unfold content_lines.
  rewrite Hl, length_app. cbn [length]. rewrite Nat.add_sub, take_app_length.
  rewrite <- (join_split_on NL contents), Hl, join_unlines. by rewrite app_nil_r.
Qed.

Lemma parse_hunk_text h ln tl :
  printable_hunk h = true → at_header tl →
  parse_one_hunk (hunk_text h ++ tl) ln = Ok (h, length (hunk_text h)).
Proof.
  intros Hp (Hst & Hstar & Hplus)%at_header_facts. unfold parse_one_hunk.
  destruct h as [p contents|p|p mv cs]; cbn [hunk_text printable_hunk app head from_option id tail] in *;
    bool_to_prop; rewrite trim_header by done.
  - rewrite (proj2 (strip_prefix_Some ADD_FILE_MARKER _ p)) by done.
    rewrite add_lines_text by done. cbn [app]. rewrite content_lines_unlines by done.
    cbn [length]. by rewrite length_fmap.
  - change (strip_prefix ADD_FILE_MARKER (DELETE_FILE_MARKER ++ p)) with (@None str). cbv iota.
    by rewrite (proj2 (strip_prefix_Some DELETE_FILE_MARKER _ p)).
  - change (strip_prefix ADD_FILE_MARKER (UPDATE_FILE_MARKER ++ p)) with (@None str). cbv iota.
    change (strip_prefix DELETE_FILE_MARKER (UPDATE_FILE_MARKER ++ p)) with (@None str). cbv iota.
    rewrite (proj2 (strip_prefix_Some UPDATE_FILE_MARKER _ p)) by done. unfold update_hunk.
    destruct mv as [m|]; cbn [app].
    + cbn [head mbind option_bind]. rewrite (proj2 (strip_prefix_Some MOVE_TO_MARKER _ m)) by done.
      cbn [tail]. rewrite chunks_loop_text by done. cbn [rbind app]. by destruct cs.
    + destruct cs as [|c cs]; [done|].
      assert (head (flat_map chunk_text (c :: cs) ++ tl) ≫= strip_prefix MOVE_TO_MARKER = None) as ->
        by (cbn [flat_map]; unfold chunk_text; by destruct (change_context c)).
      rewrite chunks_loop_text by done. reflexivity.
Qed.

Lemma parse_hunks_text hs ln :
  forallb printable_hunk hs = true → parse_hunks ln (flat_map hunk_text hs) = Ok hs.
Proof.
  unfold parse_hunks. revert ln; induction hs as [|h hs IH]; intros ln Hp; [done|].
  cbn [forallb flat_map] in *. apply andb_true_iff in Hp as [Hh Hp].
  assert (Hhd : at_header (flat_map hunk_text hs)).
  { destruct hs as [|h' hs']; [done|]. destruct h'; simpl; eexists; eauto. }
  pose proof (parse_hunk_text h ln _ Hh Hhd) as Hone.
  assert (Hne : hunk_text h ++ flat_map hunk_text hs ≠ []) by (by destruct h).
  pose proof (parse_one_hunk_consumes _ _ _ _ Hne Hone) as Hk.
  destruct (hunk_text h ++ flat_map hunk_text hs) as [|l rest] eqn:El; [done|].
  cbn [length hunks_loop]. rewrite Hone. cbn [rbind]. rewrite <- El, drop_app_length.
  rewrite (hunks_loop_fuel _ (length (flat_map hunk_text hs))); [|..|done].
  - rewrite IH by done. done.
  - apply (f_equal length) in El. rewrite length_app in El. simpl in El. lia.
Qed.

Lemma wf_line_cons c l : c ≠ NL → c ≠ CR → wf_line l = true → wf_line (c :: l) = true.
Proof.
  unfold wf_line, contains_char. intros H1 H2 H. bool_to_prop. cbn [existsb].
  destruct (N.eqb_spec NL c); [congruence|]. cbn [orb]. rewrite H. cbn [negb andb].
  apply negb_true_iff, bool_decide_eq_false. destruct l as [|x l]; [simpl; congruence|].
  by rewrite last_cons_cons.
Qed.

Lemma wf_line_app m p :
  forallb (λ c, negb (c =? NL)%N && negb (c =? CR)%N) m = true → wf_line p = true →
  wf_line (m ++ p) = true.
Proof.
  induction m as [|c m IH]; intros Hm Hp; [done|]. cbn [forallb app] in *. bool_to_prop.
  apply wf_line_cons; auto.
Qed.

Lemma wf_fmap_cons c ls : c ≠ NL → c ≠ CR → forallb wf_line ls = true →
  Forall (λ l, wf_line l = true) (cons c <$> ls).
Proof.
  intros H1 H2 H. rewrite Forall_fmap. rewrite forallb_forall in H.
  apply Forall_forall. intros l Hl. apply wf_line_cons; [done|done|].
  by apply H, list_elem_of_In.
Qed.

Lemma chunk_text_wf c : printable_chunk c = true → Forall (λ l, wf_line l = true) (chunk_text c).
Proof.
  unfold printable_chunk, chunk_text. intros H. bool_to_prop. constructor.
  - destruct (change_context c); [|done]. by apply wf_line_app.
  - rewrite !Forall_app. split; [|split].
    + by apply wf_fmap_cons.
    + by apply wf_fmap_cons.
    + destruct (is_end_of_file c); by repeat constructor.
Qed.

Lemma hunk_text_wf h : printable_hunk h = true → Forall (λ l, wf_line l = true) (hunk_text h).
Proof.
  unfold printable_hunk, hunk_text. destruct h as [p contents|p|p mv cs]; intros H;
    unfold printable_path in H; bool_to_prop; (constructor; [by apply wf_line_app|]).
  - by apply wf_fmap_cons.
  - done.
  - apply Forall_app. split.
    + destruct mv; [|done]. constructor; [by apply wf_line_app|done].
    + match goal with H : forallb printable_chunk cs = true |- _ => revert H end. clear.
      induction cs as [|c cs IH]; [done|]. cbn [forallb flat_map]. intros [Hc Hcs]%andb_true_iff.
      apply Forall_app. split; [by apply chunk_text_wf|by apply IH].
Qed.

Lemma patch_lines_wf hs :
  forallb printable_hunk hs = true → Forall (λ l, wf_line l = true) (patch_lines hs).
Proof.
  intros Hp. unfold patch_lines. constructor; [done|]. apply Forall_app. split; [|by repeat constructor].
  induction hs as [|h hs IH]; [done|]. cbn [forallb flat_map] in *.
  apply andb_true_iff in Hp as [Hh Hp]. apply Forall_app. split; [by apply hunk_text_wf|by apply IH].
Qed.

Lemma patch_lines_last hs : last (patch_lines hs) = Some END_PATCH_MARKER.
Proof. unfold patch_lines. by rewrite app_comm_cons, last_snoc. Qed.

Lemma patch_text_trim hs : trim (patch_text hs) = patch_text hs.
Proof.
  apply trim_id. unfold patch_text, patch_lines, no_outer_space.
  rewrite app_comm_cons, join_snoc by done. rewrite !last_app.
  destruct (flat_map hunk_text hs) as [|l ls]; [done|]. by rewrite join_cons.
Qed.

Lemma patch_lines_body hs :
  take (length (patch_lines hs) - 2) (tail (patch_lines hs)) = flat_map hunk_text hs.
Proof.
  unfold patch_lines. cbn [tail length]. rewrite length_app. cbn [length].
  replace (S (length (flat_map hunk_text hs) + 1) - 2) with (length (flat_map hunk_text hs)) by lia.
  apply take_app_length.
Qed.

(** C40: Printing then parsing is the identity: the canonical text of any list of hunks the
    format can express (additions, deletions, updates with renames, contexts and
    end-of-file chunks) parses back to exactly those hunks, with the text itself as the
    normalised patch. *)
Theorem patch_round_trip hs :
  forallb printable_hunk hs = true → parse_patch (patch_text hs) = Ok (mkParsed hs (patch_text hs)).
Proof.
  intros Hp. unfold parse_patch, parse_patch_text. rewrite patch_text_trim.
  assert (lines (patch_text hs) = patch_lines hs) as ->.
  { apply lines_join; [by apply patch_lines_wf|by rewrite patch_lines_last]. }
  unfold check_patch_boundaries_strict. rewrite patch_lines_last.
  change (check_start_and_end_lines_strict (head (patch_lines hs)) (Some END_PATCH_MARKER))
    with (@Ok unit ParseError tt). cbn [rbind].
  rewrite patch_lines_body. pose proof (parse_hunks_text hs 2 Hp) as Hh. unfold parse_hunks in Hh.
  rewrite Hh. reflexivity.
Qed.

Lemma patch_round_trip_witness :
  forallb printable_hunk
    [AddFile (lit "a b.txt") (lit "x" ++ [NL; NL] ++ lit "+y" ++ [NL]);
     UpdateFile (lit "u") (Some (lit "v")) [mkChunk (Some (lit "f")) [[]; lit "@@"] [lit "*** z"] true]] = true
  ∧ parse_patch (patch_text
    [AddFile (lit "a b.txt") (lit "x" ++ [NL; NL] ++ lit "+y" ++ [NL]);
     UpdateFile (lit "u") (Some (lit "v")) [mkChunk (Some (lit "f")) [[]; lit "@@"] [lit "*** z"] true]])
  = Ok (mkParsed
    [AddFile (lit "a b.txt") (lit "x" ++ [NL; NL] ++ lit "+y" ++ [NL]);
     UpdateFile (lit "u") (Some (lit "v")) [mkChunk (Some (lit "f")) [[]; lit "@@"] [lit "*** z"] true]]
    (patch_text
    [AddFile (lit "a b.txt") (lit "x" ++ [NL; NL] ++ lit "+y" ++ [NL]);
     UpdateFile (lit "u") (Some (lit "v")) [mkChunk (Some (lit "f")) [[]; lit "@@"] [lit "*** z"] true]])).
Proof.
  split; [vm_compute; reflexivity|]. apply patch_round_trip. vm_compute. reflexivity.
Defined.

(** The parser terminates on every input: a hunk, when one is parsed, consumes at least
    one line and no more than there are, so the loop over the hunks satisfies the source's
    loop equation with the fuel it is given, and giving it more changes nothing. *)
Theorem parser_terminates ln remaining fuel :
  length remaining ≤ fuel →
  hunks_loop fuel ln remaining =
    match remaining with
    | [] => Ok []
    | _ =>
        let? r := parse_one_hunk remaining ln in
        let '(hunk, hunk_lines) := r in
        let? hs := parse_hunks (ln + hunk_lines) (drop hunk_lines remaining) in
        Ok (hunk :: hs)
    end
  ∧ ∀ h n, parse_one_hunk remaining ln = Ok (h, n) → remaining ≠ [] → 0 < n ≤ length remaining.
Proof.
  intros Hf. split; [|intros h n Hp Hne; by eapply parse_one_hunk_consumes].
  destruct remaining as [|l rest]; [by destruct fuel|]. destruct fuel as [|fuel]; [simpl in Hf; lia|].
  cbn [hunks_loop]. destruct (parse_one_hunk _ _) as [[h n]|] eqn:Hp; [|done]. cbn [rbind].
  apply parse_one_hunk_consumes in Hp; [|done]. unfold parse_hunks.
  rewrite (hunks_loop_fuel fuel (length (drop n (l :: rest)))); [done| |done].
  rewrite length_drop. simpl length in *. lia.
Qed.

Lemma parser_terminates_witness :
  hunks_loop 5 2 [lit "*** Delete File: a"; lit "*** Delete File: b"]
  = Ok [DeleteFile (lit "a"); DeleteFile (lit "b")].
Proof.
  destruct (parser_terminates 2 [lit "*** Delete File: a"; lit "*** Delete File: b"] 5) as [-> _];
    [simpl; lia|]. vm_compute. reflexivity.
Defined.
