(* ===== verification/PatchApply.v ===== *)
(** Locating and applying the chunks of a patch
    (crates/codegen/xai-grok-tools/src/implementations/codex/apply_patch/seek_sequence.rs
    and apply.rs, with [ApplyPatchError] of errors.rs).

    [None] of [apply_replacements] and [derive_new_contents] is the panic of [Vec::insert]
    past the end of the vector; [derive_never_panics] shows that it cannot happen. *)
From Stdlib Require Import String Ascii.
From S2P Require Import Prelude RustStr PatchParser.

(** ** Fuzzy search *)

Definition normalise_char (c : char) : char :=
  if existsb (N.eqb c) [8208; 8209; 8210; 8211; 8212; 8213; 8722]%N then chr "-"
  else if existsb (N.eqb c) [8216; 8217; 8218; 8219]%N then SQUOTE
  else if existsb (N.eqb c) [8220; 8221; 8222; 8223]%N then DQUOTE
  else if existsb (N.eqb c) [160; 8194; 8195; 8196; 8197; 8198; 8199; 8200; 8201; 8202; 8239; 8287; 12288]%N
  then chr " "
  else c.
Definition normalise (s : str) : str := List.map normalise_char (trim s).

(** The inner loop of a pass: [lines[i + p_idx]] against [pattern[p_idx]], both through
    [f].  The callers keep [i + pattern.len() <= lines.len()]. *)
Definition match_at (f : str → str) (ls pattern : list str) (i : nat) : bool :=
  forallb (λ '(pat, l), str_eqb (f l) (f pat)) (zip pattern (drop i ls)).

(** [for i in search_start..=lines.len().saturating_sub(pattern.len())] *)
Definition search_range (ls pattern : list str) (search_start : nat) : list nat :=
  seq search_start (S (length ls - length pattern) - search_start).
Definition pass (f : str → str) (ls pattern : list str) (search_start : nat) : option nat :=
  List.find (match_at f ls pattern) (search_range ls pattern search_start).

Definition seek_sequence (ls pattern : list str) (start : nat) (eof : bool) : option nat :=
  match pattern with
  | [] => Some start
  | _ =>
      if (length ls <? length pattern)%nat then None
      else
        let search_start :=
          if eof && (length pattern <=? length ls)%nat then length ls - length pattern else start in
        match pass id ls pattern search_start with
        | Some i => Some i
        | None =>
        match pass trim_end ls pattern search_start with
        | Some i => Some i
        | None =>
        match pass trim ls pattern search_start with
        | Some i => Some i
        | None => pass normalise ls pattern search_start
        end end end
  end.

(** ** Replacements *)

Definition Replacement : Type := nat * nat * list str.
Definition r_start (r : Replacement) : nat := r.1.1.
Definition r_len (r : Replacement) : nat := r.1.2.
Definition r_new (r : Replacement) : list str := r.2.

Inductive ApplyPatchError :=
| Parse (e : ParseError)
| ComputeReplacements (msg : str)
| Io (context message : str) (path : option str).

(** [v.last().is_some_and(String::is_empty)] *)
Definition last_is_empty (ls : list str) : bool := bool_decide (last ls = Some []).
(** [&v[..v.len() - 1]] *)
Definition all_but_last (ls : list str) : list str := take (length ls - 1) ls.

(** Where a chunk's context line moves [line_index]. *)
Definition seek_context (ls : list str) (path : str) (chunk : UpdateFileChunk) (line_index : nat)
  : result nat ApplyPatchError :=
  match change_context chunk with
  | None => Ok line_index
  | Some ctx_line =>
      match seek_sequence ls [ctx_line] line_index false with
      | Some idx => Ok (idx + 1)
      | None =>
          Err (ComputeReplacements (lit "Failed to find context '" ++ ctx_line ++ lit "' in " ++ path))
      end
  end.

(** The pattern and replacement of a chunk with old lines, and where they were found: the
    final empty line is dropped when the lines are not found with it. *)
Definition locate_old (ls : list str) (chunk : UpdateFileChunk) (line_index : nat)
  : option nat * list str * list str :=
  let found := seek_sequence ls (old_lines chunk) line_index (is_end_of_file chunk) in
  if bool_decide (found = None) && last_is_empty (old_lines chunk) then
    let pattern := all_but_last (old_lines chunk) in
    (seek_sequence ls pattern line_index (is_end_of_file chunk), pattern,
     if last_is_empty (new_lines chunk) then all_but_last (new_lines chunk) else new_lines chunk)
  else (found, old_lines chunk, new_lines chunk).

(** One iteration of the loop over the chunks. *)
Definition place_chunk (ls : list str) (path : str) (chunk : UpdateFileChunk) (line_index : nat)
  : result (Replacement * nat) ApplyPatchError :=
  let? line_index := seek_context ls path chunk line_index in
  match old_lines chunk with
  | [] =>
      let insertion_idx := if last_is_empty ls then length ls - 1 else length ls in
      Ok ((insertion_idx, 0, new_lines chunk), line_index)
  | _ =>
      match locate_old ls chunk line_index with
      | (Some start_idx, pattern, new_slice) =>
          Ok ((start_idx, length pattern, new_slice), start_idx + length pattern)
      | (None, _, _) =>
          Err (ComputeReplacements
                 (lit "Failed to find expected lines in " ++ path ++ lit ":" ++ [NL]
                  ++ join [NL] (old_lines chunk)))
      end
  end.

Fixpoint place_chunks (ls : list str) (path : str) (chunks : list UpdateFileChunk)
  (line_index : nat) : result (list Replacement) ApplyPatchError :=
  match chunks with
  | [] => Ok []
  | chunk :: chunks' =>
      let? r := place_chunk ls path chunk line_index in
      let '(rep, line_index) := r in
      let? reps := place_chunks ls path chunks' line_index in
      Ok (rep :: reps)
  end.

Definition compute_replacements (ls : list str) (path : str) (chunks : list UpdateFileChunk)
  : result (list Replacement) ApplyPatchError :=
  let? reps := place_chunks ls path chunks 0 in Ok (sort_by_key r_start reps).

(** [for _ in 0..n { if start < lines.len() { lines.remove(start); } }] *)
Fixpoint remove_n (n start : nat) (ls : list str) : list str :=
  match n with
  | O => ls
  | S n => remove_n n start (if (start <? length ls)%nat then delete start ls else ls)
  end.

(** [Vec::insert]: panics past the end. *)
Definition vec_insert (i : nat) (x : str) (ls : list str) : option (list str) :=
  if (i <=? length ls)%nat then Some (take i ls ++ x :: drop i ls) else None.
Fixpoint insert_all (i : nat) (news : list str) (ls : list str) : option (list str) :=
  match news with
  | [] => Some ls
  | x :: news' => ls' ← vec_insert i x ls; insert_all (i + 1) news' ls'
  end.

Definition apply_one (ls : list str) (r : Replacement) : option (list str) :=
  insert_all (r_start r) (r_new r) (remove_n (r_len r) (r_start r) ls).
Definition apply_replacements (ls : list str) (replacements : list Replacement)
  : option (list str) :=
  foldl (λ acc r, ls ← acc; apply_one ls r) (Some ls) (rev replacements).

Definition original_lines (original_content : str) : list str :=
  let ls := split_on NL original_content in
  if last_is_empty ls then all_but_last ls else ls.
Definition with_final_newline (ls : list str) : list str :=
  if negb (last_is_empty ls) then ls ++ [[]] else ls.

Definition derive_new_contents (original_content path : str) (chunks : list UpdateFileChunk)
  : option (result str ApplyPatchError) :=
  let ls := original_lines original_content in
  match compute_replacements ls path chunks with
  | Err e => Some (Err e)
  | Ok replacements =>
      new_lines ← apply_replacements ls replacements;
      Some (Ok (join [NL] (with_final_newline new_lines)))
  end.

(** ** Search: soundness, completeness, minimality *)

(** [pattern] stands at [i], up to [f]. *)
Definition found_at (f : str → str) (ls pattern : list str) (i : nat) : Prop :=
  i + length pattern ≤ length ls ∧ f <$> take (length pattern) (drop i ls) = f <$> pattern.

Lemma match_at_found f ls pattern i :
  i + length pattern ≤ length ls → match_at f ls pattern i = true ↔ found_at f ls pattern i.
Proof.
  intros Hi. unfold found_at, match_at.
  assert (Hd : length pattern ≤ length (drop i ls)) by (rewrite length_drop; lia).
  revert Hd. generalize (drop i ls). clear -Hi. intros l Hd.
  assert (forallb (λ '(pat, l), str_eqb (f l) (f pat)) (zip pattern l) = true ↔
          f <$> take (length pattern) l = f <$> pattern) as ->; [|tauto].
  clear Hi. revert l Hd; induction pattern as [|p ps IH]; intros [|x l] Hd; simpl in *; try lia.
  - done.
  - done.
  - specialize (IH l ltac:(lia)). rewrite andb_true_iff, IH, str_eqb_eq.
    split; [intros [E1 E2]; f_equal; [exact E1|exact E2]|].
    intros E. injection E as E1 E2. by split.
Qed.

Lemma pass_Some f ls pattern s i :
  length pattern ≤ length ls → pass f ls pattern s = Some i ↔
  s ≤ i ∧ found_at f ls pattern i ∧ ∀ j, s ≤ j < i → ¬ found_at f ls pattern j.
Proof.
  intros Hl. unfold pass, search_range. split.
  - intros Hf. pose proof Hf as [Hin Hm]%find_In. apply elem_of_seq in Hin.
    split; [lia|]. split; [apply match_at_found; [lia|done]|].
    intros j Hj Hfj. apply match_at_found in Hfj; [|lia].
    assert (List.find (match_at f ls pattern) (seq s (S (length ls - length pattern) - s)) ≠ Some i);
      [|done].
    clear -Hj Hfj. remember (S (length ls - length pattern) - s) as n. clear Heqn.
    revert s Hj; induction n as [|n IH]; intros s Hj; simpl; [done|].
    destruct (match_at f ls pattern s) eqn:E; [intros [= <-]; lia|].
    apply IH. destruct (decide (j = s)); [congruence|lia].
  - intros (Hs & Hfi & Hmin). destruct (Hfi) as [Hle _].
    apply find_seq; [lia|by apply match_at_found|].
    intros j Hj. apply not_true_iff_false. intros Hm. apply (Hmin j Hj).
    apply match_at_found; [lia|done].
Qed.

Lemma pass_None f ls pattern s :
  length pattern ≤ length ls → pass f ls pattern s = None ↔
  ∀ j, s ≤ j → ¬ found_at f ls pattern j.
Proof.
  intros Hl. unfold pass, search_range. rewrite find_None. split.
  - intros Hall j Hj Hf. destruct (Hf) as [Hle _]. apply match_at_found in Hf; [|done].
    rewrite Hall in Hf; [done|]. apply elem_of_seq. lia.
  - intros Hall j Hin%elem_of_seq. apply not_true_iff_false. intros Hm.
    apply (Hall j); [lia|]. apply match_at_found; [lia|done].
Qed.

Definition passes : list (str → str) := [id; trim_end; trim; normalise].
(** Where the search begins. *)
Definition first_index (ls pattern : list str) (start : nat) (eof : bool) : nat :=
  if eof then length ls - length pattern else start.
(** [i] is the first match of pass [k], and no stricter pass has one. *)
Definition best_match (ls pattern : list str) (from i : nat) : Prop :=
  ∃ k f, passes !! k = Some f ∧ from ≤ i ∧ found_at f ls pattern i
    ∧ (∀ j, from ≤ j < i → ¬ found_at f ls pattern j)
    ∧ ∀ k' f', k' < k → passes !! k' = Some f' → ∀ j, from ≤ j → ¬ found_at f' ls pattern j.

Lemma seek_sequence_eq ls pattern start eof :
  pattern ≠ [] → length pattern ≤ length ls →
  seek_sequence ls pattern start eof =
  foldr (λ f r, match pass f ls pattern (first_index ls pattern start eof) with
                | Some i => Some i | None => r end) None passes.
Proof.
  intros Hne Hl. destruct pattern as [|p ps]; [done|]. unfold seek_sequence, first_index.
  rewrite (proj2 (Nat.ltb_ge _ _) Hl), (proj2 (Nat.leb_le _ _) Hl), andb_true_r. cbn [foldr passes].
  by destruct (pass normalise _ _ _).
Qed.

Lemma seek_found ls pattern start eof i :
  pattern ≠ [] →
  seek_sequence ls pattern start eof = Some i ↔
  best_match ls pattern (first_index ls pattern start eof) i.
Proof.
  intros Hne. destruct (decide (length pattern ≤ length ls)) as [Hl|Hl].
  2: { split.
    - destruct pattern; [done|]. unfold seek_sequence. by rewrite (proj2 (Nat.ltb_lt _ _)) by lia.
    - intros (k & f & _ & _ & [Hle _] & _). lia. }
  rewrite seek_sequence_eq by done. set (from := first_index _ _ _ _). unfold best_match.
  generalize passes. intros fs. induction fs as [|f fs IH]; cbn [foldr].
  { split; [done|]. by intros (k & f & Hk & _). }
  destruct (pass f ls pattern from) as [i'|] eqn:Hp.
  - apply pass_Some in Hp as (Hs & Hf & Hmin); [|done]. split.
    + intros [= ->]. exists 0, f. split; [done|]. split; [done|]. split; [done|]. split; [done|]. lia.
    + intros (k & g & Hk & Hs' & Hg & Hmin' & Hstrict). destruct k as [|k].
      * injection Hk as <-. f_equal.
        destruct (decide (i' < i)); [by destruct (Hmin' i'); [lia|]|].
        destruct (decide (i < i')); [by destruct (Hmin i); [lia|]|lia].
      * destruct (Hstrict 0 f ltac:(lia) eq_refl i' Hs Hf).
  - pose proof (proj1 (pass_None _ _ _ _ Hl) Hp) as Hnone. rewrite IH. split.
    + intros (k & g & Hk & Hs & Hg & Hmin & Hstrict). exists (S k), g.
      repeat (split; [done|]). intros [|k'] f' Hk'; simpl; [by intros [= <-]|].
      apply Hstrict. lia.
    + intros ([|k] & g & Hk & Hs & Hg & Hmin & Hstrict).
      { injection Hk as <-. by destruct (Hnone i Hs). }
      exists k, g. repeat (split; [done|]). intros k' f' Hk'. apply (Hstrict (S k')). lia.
Qed.

Lemma seek_not_found ls pattern start eof :
  pattern ≠ [] →
  seek_sequence ls pattern start eof = None ↔
  ∀ f j, f ∈ passes → first_index ls pattern start eof ≤ j → ¬ found_at f ls pattern j.
Proof.
  intros Hne. destruct (decide (length pattern ≤ length ls)) as [Hl|Hl].
  2: { split.
    - intros _ f j _ _ [Hle _]. lia.
    - destruct pattern; [done|]. unfold seek_sequence. by rewrite (proj2 (Nat.ltb_lt _ _)) by lia. }
  rewrite seek_sequence_eq by done. set (from := first_index _ _ _ _).
  generalize passes. intros fs. induction fs as [|f fs IH]; cbn [foldr].
  { split; [|done]. intros _ f j Hf. by apply elem_of_nil in Hf. }
  destruct (pass f ls pattern from) as [i|] eqn:Hp.
  - split; [done|]. intros Hall. apply pass_Some in Hp as (Hs & Hf & _); [|done].
    destruct (Hall f i); [by left|done|done].
  - rewrite pass_None in Hp by done. rewrite IH. split.
    + intros Hall g j [->|Hg]%elem_of_cons; [apply Hp|by apply Hall].
    + intros Hall g j Hg. apply Hall. by right.
Qed.

(** The search returns the best match and misses none: a position is returned exactly
    when it is the first one, from where the search begins, at which the strictest
    successful comparison (exact, ignoring trailing blanks, ignoring outer blanks, with
    typographic characters normalised) matches every line of the pattern inside the file;
    nothing is returned exactly when no comparison matches anywhere in range. *)
Theorem seek_sequence_spec ls pattern start eof :
  pattern ≠ [] →
  (∀ i, seek_sequence ls pattern start eof = Some i ↔
        best_match ls pattern (first_index ls pattern start eof) i)
  ∧ (seek_sequence ls pattern start eof = None ↔
     ∀ f j, f ∈ passes → first_index ls pattern start eof ≤ j → ¬ found_at f ls pattern j).
Proof. intros Hne. split; [intros i; by apply seek_found|by apply seek_not_found]. Qed.

Lemma seek_sequence_spec_witness :
  best_match [lit "a"; lit "  b"; lit "b "; lit "b"] [lit "b"]
    (first_index [lit "a"; lit "  b"; lit "b "; lit "b"] [lit "b"] 1 false) 3.
Proof.
  apply (seek_sequence_spec [lit "a"; lit "  b"; lit "b "; lit "b"] [lit "b"] 1 false); [done|].
  vm_compute. reflexivity.
Defined.

(** With [eof] the search looks at the last possible position only; it does not fall back
    to [start]. *)
Example seek_eof_no_fallback : seek_sequence [lit "a"; lit "b"] [lit "a"] 0 true = None.
Proof. vm_compute. reflexivity. Qed.

(** ** Application *)

Lemma remove_n_eq n s ls : remove_n n s ls = take s ls ++ drop (s + n) ls.
Proof.
  revert ls; induction n as [|n IH]; intros ls; simpl.
  - by rewrite Nat.add_0_r, take_drop.
  - rewrite IH. destruct (Nat.ltb_spec s (length ls)) as [Hs|Hs].
    + rewrite delete_take_drop. rewrite take_app_le by (rewrite length_take; lia).
      rewrite take_take, Nat.min_id. f_equal.
      rewrite drop_app_ge by (rewrite length_take; lia). rewrite length_take, drop_drop.
      f_equal. lia.
    + by rewrite !drop_ge by lia.
Qed.

Lemma insert_all_eq i news ls :
  i ≤ length ls → insert_all i news ls = Some (take i ls ++ news ++ drop i ls).
Proof.
  revert i ls; induction news as [|x news IH]; intros i ls Hi; simpl; [by rewrite take_drop|].
  unfold vec_insert. rewrite (proj2 (Nat.leb_le _ _) Hi). simpl.
  rewrite IH by (rewrite length_app, length_take; simpl; rewrite length_drop; lia).
  f_equal. replace (i + 1) with (length (take i ls ++ [x])) by (rewrite length_app, length_take; simpl; lia).
  change (take i ls ++ x :: drop i ls) with (take i ls ++ [x] ++ drop i ls).
  rewrite (app_assoc (take i ls) [x] (drop i ls)), take_app_length, drop_app_length.
  by rewrite <- !app_assoc.
Qed.

Lemma apply_one_eq ls r :
  r_start r ≤ length ls →
  apply_one ls r = Some (take (r_start r) ls ++ r_new r ++ drop (r_start r + r_len r) ls).
Proof.
  intros Hs. unfold apply_one. rewrite remove_n_eq, insert_all_eq.
  - rewrite take_app_le by (rewrite length_take; lia). rewrite take_take, Nat.min_id.
    rewrite drop_app_ge by (rewrite length_take; lia). rewrite length_take, drop_drop.
    do 4 f_equal. lia.
  - rewrite length_app, length_take. lia.
Qed.

Lemma apply_replacements_foldr ls rs :
  apply_replacements ls rs = foldr (λ r acc, ls ← acc; apply_one ls r) (Some ls) rs.
Proof.
  unfold apply_replacements. induction rs as [|r rs IH]; [done|].
  cbn [rev foldr]. rewrite foldl_app. cbn [foldl]. by rewrite IH.
Qed.

Lemma apply_replacements_defined ls rs :
  StronglySorted (λ x y, r_start x ≤ r_start y) rs → Forall (λ r, r_start r ≤ length ls) rs →
  ∃ ls', apply_replacements ls rs = Some ls'
    ∧ ∀ s, s ≤ length ls → Forall (λ r, s ≤ r_start r) rs → s ≤ length ls'.
Proof.
  intros Hs Hle. rewrite apply_replacements_foldr.
  induction Hs as [|r rs Hs IH Hr]; cbn [foldr]; [exists ls; by split|].
  apply Forall_cons in Hle as [Hle1 Hle]. destruct (IH Hle) as (ls' & E & Hlen). rewrite E. simpl.
  rewrite apply_one_eq by (by apply Hlen). eexists. split; [reflexivity|].
  intros s Hs' [Hsr _]%Forall_cons. rewrite length_app, length_take.
  specialize (Hlen (r_start r) Hle1 Hr). lia.
Qed.

(** Replacements in order that do not overlap, from line [from] on. *)
Fixpoint disjoint (from : nat) (rs : list Replacement) (len : nat) : Prop :=
  match rs with
  | [] => from ≤ len
  | r :: rs' => from ≤ r_start r ∧ disjoint (r_start r + r_len r) rs' len
  end.
(** What replacing means: the file from line [from] on, with the blocks exchanged. *)
Fixpoint splice (from : nat) (rs : list Replacement) (ls : list str) : list str :=
  match rs with
  | [] => drop from ls
  | r :: rs' =>
      take (r_start r - from) (drop from ls) ++ r_new r ++ splice (r_start r + r_len r) rs' ls
  end.

Lemma disjoint_le from rs len : disjoint from rs len → from ≤ len.
Proof.
  revert from; induction rs as [|r rs IH]; simpl; intros from; [done|].
  intros [H1 H2%IH]. lia.
Qed.

Lemma apply_disjoint from rs ls :
  disjoint from rs (length ls) →
  apply_replacements ls rs = Some (take from ls ++ splice from rs ls).
Proof.
  rewrite apply_replacements_foldr. revert from; induction rs as [|r rs IH]; intros from Hd; cbn [foldr splice].
  - by rewrite take_drop.
  - destruct Hd as [Hfrom Hd]. rewrite (IH _ Hd). simpl. pose proof (disjoint_le _ _ _ Hd).
    rewrite apply_one_eq by (rewrite length_app, length_take; lia). f_equal.
    rewrite take_app_le by (rewrite length_take; lia). rewrite take_take, Nat.min_l by lia.
    rewrite drop_app_ge by (rewrite length_take; lia).
    replace (r_start r + r_len r - length (take (r_start r + r_len r) ls)) with 0
      by (rewrite length_take; lia).
    rewrite drop_0, !app_assoc. f_equal. f_equal. rewrite take_take_drop. f_equal. lia.
Qed.

Lemma disjoint_sorted from rs len :
  disjoint from rs len →
  StronglySorted (λ x y, r_start x ≤ r_start y) rs ∧ Forall (λ r, from ≤ r_start r) rs.
Proof.
  revert from; induction rs as [|r rs IH]; intros from; [repeat constructor|].
  intros [H1 [H2 H3]%IH]. split; constructor; try done.
  - eapply Forall_impl; [exact H3|]. simpl. lia.
  - eapply Forall_impl; [exact H3|]. simpl. lia.
Qed.

(** ** Placement *)

Lemma best_match_bounds ls pattern from i :
  best_match ls pattern from i →
  from ≤ i ∧ i + length pattern ≤ length ls ∧ ∃ f, f ∈ passes ∧ found_at f ls pattern i.
Proof.
  intros (k & f & Hk & Hfrom & Hf & _). split; [done|]. split; [by destruct Hf|].
  exists f. split; [by eapply list_elem_of_lookup_2|done].
Qed.

Lemma seek_context_bounds ls path c i j :
  seek_context ls path c i = Ok j → i ≤ length ls → i ≤ j ≤ length ls.
Proof.
  unfold seek_context. destruct (change_context c) as [ctx|]; [|intros [= <-]; lia].
  destruct (seek_sequence _ _ _ _) as [idx|] eqn:E; [|done]. intros [= <-] Hi.
  apply seek_found in E; [|done]. apply best_match_bounds in E as (H1 & H2 & _).
  unfold first_index in H1. simpl in H2. lia.
Qed.

(** [r] replaces what chunk [c] asks for: its old lines stand at the start of [r], up to
    one of the four comparisons, and are exchanged for its new lines; when they were found
    only without a final empty line, that line is left out on both sides. *)
Definition placed (ls : list str) (c : UpdateFileChunk) (r : Replacement) : Prop :=
  ∃ pattern new,
    ((pattern = old_lines c ∧ new = new_lines c)
     ∨ (old_lines c = pattern ++ [[]]
        ∧ new = if last_is_empty (new_lines c) then all_but_last (new_lines c) else new_lines c))
    ∧ r_len r = length pattern ∧ r_new r = new
    ∧ (pattern = [] ∨ ∃ f, f ∈ passes ∧ found_at f ls pattern (r_start r)).

Lemma last_is_empty_snoc ls : last_is_empty ls = true → ls = all_but_last ls ++ [[]].
Proof.
  unfold last_is_empty, all_but_last. intros H. bool_to_prop. apply last_Some in H as [l ->].
  rewrite length_app. simpl. by rewrite Nat.add_sub, take_app_length.
Qed.

(** The found position of a pattern, empty or not. *)
Lemma seek_placed ls pattern i s :
  i ≤ length ls → seek_sequence ls pattern i false = Some s →
  i ≤ s ∧ s + length pattern ≤ length ls
  ∧ (pattern = [] ∨ ∃ f, f ∈ passes ∧ found_at f ls pattern s).
Proof.
  intros Hi E. destruct (decide (pattern = [])) as [->|Hne].
  { injection E as <-. simpl. split; [done|]. split; [lia|by left]. }
  apply seek_found in E; [|done]. apply best_match_bounds in E as (H1 & H2 & H3).
  unfold first_index in H1. eauto.
Qed.

(** A chunk that names lines to replace and does not claim the end of the file. *)
Definition ordinary (c : UpdateFileChunk) : Prop := old_lines c ≠ [] ∧ is_end_of_file c = false.

Lemma place_ordinary ls path c i r j :
  ordinary c → i ≤ length ls → place_chunk ls path c i = Ok (r, j) →
  placed ls c r ∧ i ≤ r_start r ∧ j = r_start r + r_len r ∧ j ≤ length ls.
Proof.
  intros [Hold Heof] Hi H. unfold place_chunk in H. apply rbind_Ok in H as (i' & Hctx & H).
  apply seek_context_bounds in Hctx; [|done].
  destruct (old_lines c) as [|o os] eqn:Eo; [done|]. rewrite <- Eo in *. clear Eo o os.
  unfold locate_old in H. rewrite Heof in H.
  destruct (seek_sequence ls (old_lines c) i' false) as [s|] eqn:E1.
  - rewrite bool_decide_eq_false_2 in H by done. injection H as <- <-.
    apply seek_placed in E1 as (H1 & H2 & H3); [|lia]. unfold r_start, r_len. simpl. split; [|lia].
    exists (old_lines c), (new_lines c). by auto.
  - rewrite bool_decide_eq_true_2 in H by done. simpl in H.
    destruct (last_is_empty (old_lines c)) eqn:El; [|done].
    destruct (seek_sequence ls (all_but_last _) i' false) as [s|] eqn:E2; [|done].
    injection H as <- <-. apply seek_placed in E2 as (H1 & H2 & H3); [|lia].
    unfold r_start, r_len. simpl. split; [|lia]. eexists _, _. split; [right|].
    + split; [by apply last_is_empty_snoc|reflexivity].
    + by auto.
Qed.

Lemma place_chunks_ordinary ls path chunks i rs :
  Forall ordinary chunks → i ≤ length ls → place_chunks ls path chunks i = Ok rs →
  Forall2 (placed ls) chunks rs ∧ disjoint i rs (length ls).
Proof.
  intros Ho. revert i rs; induction Ho as [|c cs Hc _ IH]; intros i rs Hi H; simpl in H.
  { injection H as <-. split; [constructor|done]. }
  apply rbind_Ok in H as ([r j] & Hp & H). apply rbind_Ok in H as (rs' & Hrs & [= <-]).
  apply place_ordinary in Hp as (Hpl & Hr & -> & Hj); [|done|done].
  apply IH in Hrs as [H2 Hd]; [|done]. split; [by constructor|done].
Qed.

(** Every replacement starts inside the file, whatever the chunks. *)
Lemma seek_start_le ls pattern i eof s :
  i ≤ length ls → seek_sequence ls pattern i eof = Some s → s + length pattern ≤ length ls.
Proof.
  intros Hi E. destruct (decide (pattern = [])) as [->|Hne]; [injection E as <-; simpl; lia|].
  apply seek_found in E; [|done]. by apply best_match_bounds in E as (_ & ? & _).
Qed.

Lemma place_chunk_le ls path c i r j :
  i ≤ length ls → place_chunk ls path c i = Ok (r, j) → r_start r ≤ length ls ∧ j ≤ length ls.
Proof.
  intros Hi H. unfold place_chunk in H. apply rbind_Ok in H as (i' & Hctx & H).
  apply seek_context_bounds in Hctx; [|done].
  destruct (old_lines c) as [|o os] eqn:Eo.
  { injection H as <- <-. unfold r_start. simpl. destruct (last_is_empty ls); lia. }
  rewrite <- Eo in *. clear Eo o os. unfold locate_old in H.
  destruct (bool_decide _ && last_is_empty _); simpl in H;
    (destruct (seek_sequence _ _ i' _) as [s|] eqn:E; [|done]); injection H as <- <-;
    apply seek_start_le in E; unfold r_start; simpl; lia.
Qed.

Lemma place_chunks_le ls path chunks i rs :
  i ≤ length ls → place_chunks ls path chunks i = Ok rs → Forall (λ r, r_start r ≤ length ls) rs.
Proof.
  revert i rs; induction chunks as [|c cs IH]; intros i rs Hi H; simpl in H.
  { injection H as <-. constructor. }
  apply rbind_Ok in H as ([r j] & Hp & H). apply rbind_Ok in H as (rs' & Hrs & [= <-]).
  apply place_chunk_le in Hp as [H1 H2]; [|done]. constructor; [done|by eapply IH].
Qed.

Lemma place_chunks_error ls path chunks i e :
  place_chunks ls path chunks i = Err e → ∃ msg, e = ComputeReplacements msg.
Proof.
  revert i; induction chunks as [|c cs IH]; intros i H; simpl in H; [done|].
  apply rbind_Err in H as [H|([r j] & _ & [H|(rs & _ & H)]%rbind_Err)]; [|by eapply IH|done].
  unfold place_chunk, seek_context in H. apply rbind_Err in H as [H|(k & _ & H)].
  - destruct (change_context c); [|done]. destruct (seek_sequence _ _ _ _); [done|].
    injection H as <-. by eexists.
  - destruct (old_lines c); [done|]. destruct (locate_old _ _ _) as [[[]]]; [done|].
    injection H as <-. by eexists.
Qed.

Lemma derive_defined content path chunks : ∃ r, derive_new_contents content path chunks = Some r.
Proof.
  unfold derive_new_contents, compute_replacements. set (ls := original_lines content).
  destruct (place_chunks ls path chunks 0) as [rs|e] eqn:Hp; cbn [rbind]; [|eauto].
  pose proof (place_chunks_le _ _ _ _ _ (Nat.le_0_l _) Hp) as Hle.
  rewrite <- (sort_by_key_perm r_start rs) in Hle.
  destruct (apply_replacements_defined ls _ (sort_by_key_sorted r_start rs) Hle) as (ls' & -> & _).
  simpl. eauto.
Qed.

(** Applying an update never panics, whatever the file and the chunks (overlapping and
    end-of-file chunks included): it yields the new contents or a located-lines error. *)
Theorem derive_never_panics content path chunks :
  ∃ r, derive_new_contents content path chunks = Some r
       ∧ ∀ e, r = Err e → ∃ msg, e = ComputeReplacements msg.
Proof.
  destruct (derive_defined content path chunks) as [r Hr]. exists r. split; [exact Hr|].
  intros e ->. unfold derive_new_contents, compute_replacements in Hr.
  destruct (place_chunks _ _ _ _) as [rs|e'] eqn:Hp; cbn [rbind] in Hr.
  - by destruct (apply_replacements _ _).
  - injection Hr as ->. by eapply place_chunks_error.
Qed.

(** The lines of a file are its text, up to the line feed at its end. *)
Lemma original_lines_text content :
  content = join [NL] (original_lines content) ∨ content = join [NL] (original_lines content) ++ [NL].
Proof.
  pose proof (join_split_on NL content) as Hj. unfold original_lines. destruct (last_is_empty _) eqn:Hl; [|by left].
  apply last_is_empty_snoc in Hl. set (ls := all_but_last _) in *. rewrite Hl in Hj.
  destruct (decide (ls = [])) as [->|Hne]; [by left|right]. by rewrite join_snoc, app_nil_r in Hj.
Qed.

(** C31: An update does exactly what its chunks say: for chunks that name lines to replace
    and do not claim the end of the file, success means that every chunk's old lines were
    found in the file (up to one of the comparisons), in the order of the chunks and without
    overlap, and that the result is made of the file's lines with precisely those blocks
    exchanged for the chunks' new lines and every other line kept in its place.  The lines of
    the file are its text up to a line feed at the end; the result is its lines joined with
    line feeds and ended by one, unless its last line is blank: this line is then taken for
    the one behind the final line feed, and is lost as a line. *)
Theorem derive_replaces_blocks content path chunks out :
  Forall ordinary chunks → derive_new_contents content path chunks = Some (Ok out) →
  let ls := original_lines content in
  (content = join [NL] ls ∨ content = join [NL] ls ++ [NL])
  ∧ ∃ rs, Forall2 (placed ls) chunks rs
    ∧ disjoint 0 rs (length ls)
    ∧ out = join [NL] (with_final_newline (splice 0 rs ls)).
Proof.
  intros Ho. unfold derive_new_contents, compute_replacements. set (ls := original_lines content).
  destruct (place_chunks ls path chunks 0) as [rs|e] eqn:Hp; cbn [rbind]; [|done].
  apply place_chunks_ordinary in Hp as [H2 Hd]; [|done|lia].
  rewrite sort_by_key_id by (by eapply disjoint_sorted). rewrite (apply_disjoint 0) by done.
  intros [= <-]. split; [apply original_lines_text|]. exists rs. split; [exact H2|]. split; [exact Hd|reflexivity].
Qed.

Lemma derive_replaces_blocks_witness :
  derive_new_contents (join [NL] [lit "a"; lit "b "; lit "c"; []]) (lit "f")
    [mkChunk None [lit "b"] [lit "x"; lit "y"] false] = Some (Ok (join [NL] [lit "a"; lit "x"; lit "y"; lit "c"; []]))
  ∧ ∃ rs, disjoint 0 rs 3.
Proof.
  split; [vm_compute; reflexivity|].
  destruct (derive_replaces_blocks (join [NL] [lit "a"; lit "b "; lit "c"; []]) (lit "f")
    [mkChunk None [lit "b"] [lit "x"; lit "y"] false]
    (join [NL] [lit "a"; lit "x"; lit "y"; lit "c"; []])) as (_ & rs & _ & Hd & _).
  - repeat constructor; discriminate.
  - vm_compute. reflexivity.
  - exists rs. exact Hd.
Defined.

(** ** Where the code loses text *)

(** A file that ends with a blank line loses it when another line is edited. *)
Example trailing_blank_line_dropped :
  derive_new_contents (join [NL] [lit "a"; []; []]) (lit "f") [mkChunk None [lit "a"] [lit "b"] false]
  = Some (Ok (join [NL] [lit "b"; []])).
Proof. vm_compute. reflexivity. Qed.

(** A pure addition to a file whose last line is blank goes before that line; when another
    chunk replaces a block that reaches the end of the file, the addition is what gets
    removed. *)
Example overlapping_addition_lost :
  derive_new_contents (join [NL] [lit "a"; []; []]) (lit "f")
    [mkChunk None [lit "a"; []] [lit "z"] false; mkChunk None [] [lit "new"] false]
  = Some (Ok (join [NL] [lit "z"; []])).
Proof. vm_compute. reflexivity. Qed.
