(* ===== verification/PatchTool.v ===== *)
(** The [apply_patch] tool
    (crates/codegen/xai-grok-tools/src/implementations/codex/apply_patch/tool.rs, with
    [ApplyPatchFileResult] and [ApplyPatchOutput] of src/types/output.rs, [FileWritten] of
    src/notification/types.rs and the trait [AsyncFileSystem] of src/computer/types.rs).

    The file system behind the trait is the interface [FileSystem]: a state and the four
    operations the tool calls.  [FileSystemLaws] says what the theorems rely on: an
    operation touches only the path it names, and a successful write is read back. *)
From Stdlib Require Import String Ascii.
From stdpp Require Import gmap.
From S2P Require Import Prelude RustStr LexPath PatchParser PatchApply.

Class FileSystem (S : Type) := {
  (** [fs.read_file(path)] followed by [String::from_utf8_lossy] *)
  read_file : S → str → result str str;
  (** [fs.write_file(path, content.as_bytes())] *)
  write_file : S → str → str → S * result unit str;
  (** [fs.delete_file(path)] *)
  delete_file : S → str → S * result unit str;
  (** [tokio::fs::create_dir_all(dir)] *)
  create_dir_all : S → str → S * result unit str
}.

(** What a path holds: text, or nothing readable. *)
Definition contents {S} `{FileSystem S} (s : S) (p : str) : option str :=
  match read_file s p with Ok t => Some t | Err _ => None end.

(** [alias p q]: the two path texts may name the same file (the same text, [./a] and [a],
    a symbolic link). *)
Class FileSystemLaws (S : Type) `{FileSystem S} (alias : str → str → bool) := {
  write_frame s p t q : alias p q = false → contents (write_file s p t).1 q = contents s q;
  write_read s p t s' : write_file s p t = (s', Ok tt) → contents s' p = Some t;
  delete_frame s p q : alias p q = false → contents (delete_file s p).1 q = contents s q;
  delete_read s p s' : delete_file s p = (s', Ok tt) → contents s' p = None;
  create_dir_frame s d q : contents (create_dir_all s d).1 q = contents s q
}.

Inductive FileChange :=
| Add (path content : str)
| Delete (path original_content : str)
| Update (path original_content new_content : str)
| Move (source_path dest_path original_content new_content : str).

Record FileWritten := mkWritten {
  fw_tool_call_id : str;
  absolute_path : str;
  fw_content : str;
  previous_content : option str;
  is_new_file : bool
}.

Record ApplyPatchFileResult := mkFileResult {
  fr_path : str;
  fr_action : str;
  old_text : option str;
  new_text : str;
  move_to : option str
}.

Inductive ApplyPatchOutput :=
| Success (files : list ApplyPatchFileResult) (tool_output_for_prompt : str)
| OutParseError (msg : str)
| ApplicationError (msg : str)
| EmptyPatch (msg : str).

Definition parse_error_message (e : ParseError) : str :=
  match e with
  | InvalidPatchError m => lit "Invalid patch: " ++ m
  | InvalidHunkError message line_number =>
      lit "Invalid patch hunk on line " ++ decimal (N.of_nat line_number) ++ lit ": " ++ message
  end.

(** [ApplyPatchError]'s [Display], as [other.to_string()] prints it. *)
Definition apply_error_message (e : ApplyPatchError) : str :=
  match e with
  | ComputeReplacements msg => msg
  | Parse (InvalidPatchError m) => lit "invalid patch: " ++ m
  | Parse (InvalidHunkError message line_number) =>
      lit "invalid hunk at line " ++ decimal (N.of_nat line_number) ++ lit ", " ++ message
  | Io context message _ => context ++ lit ": " ++ message
  end.

Definition action_prefix (action : str) : str :=
  if str_eqb action (lit "added") then lit "A"
  else if str_eqb action (lit "deleted") then lit "D"
  else lit "M".
Definition build_summary (results : list ApplyPatchFileResult) : str :=
  foldl (λ out r, out ++ action_prefix (fr_action r) ++ lit " " ++ fr_path r ++ [NL])
    (lit "Success. Updated the following files:" ++ [NL]) results.

Section Tool.
Context {S : Type} `{FileSystem S}.
Variable tool_call_id : str.

(** The outcome of the whole run: the file system, the notifications sent and either the
    tool's answer, the error of a failed write ([ToolError::execution]), or [None] for a
    panic inside the patch engine. *)
Record World := mkWorld { w_fs : S; sent : list FileWritten }.

Definition notify (w : World) (n : FileWritten) : World := mkWorld (w_fs w) (sent w ++ [n]).

(** ** Phase 2 *)

Definition compute_change (cwd : str) (fs : S) (h : Hunk) : option (result FileChange str) :=
  match h with
  | AddFile path contents => Some (Ok (Add (path_join cwd path) contents))
  | DeleteFile path =>
      let resolved := path_join cwd path in
      match read_file fs resolved with
      | Err e => Some (Err (lit "Failed to read file: " ++ resolved ++ lit ", " ++ e))
      | Ok original => Some (Ok (Delete resolved original))
      end
  | UpdateFile path move_path chunks =>
      let resolved := path_join cwd path in
      match read_file fs resolved with
      | Err e => Some (Err (lit "Failed to read file to update: " ++ resolved ++ lit ", " ++ e))
      | Ok original =>
          r ← derive_new_contents original resolved chunks;
          match r with
          | Err e => Some (Err (apply_error_message e))
          | Ok new_content =>
              Some (Ok (match move_path with
                        | Some dest => Move resolved (path_join cwd dest) original new_content
                        | None => Update resolved original new_content
                        end))
          end
      end
  end.

Fixpoint compute_all_changes (cwd : str) (fs : S) (hs : list Hunk)
  : option (result (list FileChange) str) :=
  match hs with
  | [] => Some (Ok [])
  | h :: hs' =>
      r ← compute_change cwd fs h;
      match r with
      | Err e => Some (Err e)
      | Ok change =>
          rs ← compute_all_changes cwd fs hs';
          match rs with
          | Err e => Some (Err e)
          | Ok changes => Some (Ok (change :: changes))
          end
      end
  end.

(** ** Phase 3 *)

Definition ensure_parent_dirs (fs : S) (path : str) : S * result unit str :=
  match path_parent path with
  | Some parent => if negb (str_eqb parent []) then create_dir_all fs parent else (fs, Ok tt)
  | None => (fs, Ok tt)
  end.

(** Run a file-system operation; its error leaves the tool. *)
Definition step (w : World) (op : S → S * result unit str) : World * result unit str :=
  let '(fs, r) := op (w_fs w) in (mkWorld fs (sent w), r).

Definition apply_change (w : World) (c : FileChange) : World * result ApplyPatchFileResult str :=
  match c with
  | Add path content =>
      let '(w, r) := step w (λ fs, ensure_parent_dirs fs path) in
      match r with
      | Err e => (w, Err e)
      | Ok _ =>
          let '(w, r) := step w (λ fs, write_file fs path content) in
          match r with
          | Err e => (w, Err e)
          | Ok _ =>
              (notify w (mkWritten tool_call_id path content None true),
               Ok (mkFileResult path (lit "added") None content None))
          end
      end
  | Delete path original =>
      let '(w, r) := step w (λ fs, delete_file fs path) in
      match r with
      | Err e => (w, Err e)
      | Ok _ =>
          (notify w (mkWritten tool_call_id path [] (Some original) false),
           Ok (mkFileResult path (lit "deleted") (Some original) [] None))
      end
  | Update path original new_content =>
      let '(w, r) := step w (λ fs, write_file fs path new_content) in
      match r with
      | Err e => (w, Err e)
      | Ok _ =>
          (notify w (mkWritten tool_call_id path new_content (Some original) false),
           Ok (mkFileResult path (lit "modified") (Some original) new_content None))
      end
  | Move source dest original new_content =>
      let '(w, r) := step w (λ fs, ensure_parent_dirs fs dest) in
      match r with
      | Err e => (w, Err e)
      | Ok _ =>
          let '(w, r) := step w (λ fs, write_file fs dest new_content) in
          match r with
          | Err e => (w, Err e)
          | Ok _ =>
              let '(w, r) := step w (λ fs, delete_file fs source) in
              match r with
              | Err e => (w, Err e)
              | Ok _ =>
                  (notify (notify w (mkWritten tool_call_id dest new_content None true))
                     (mkWritten tool_call_id source [] (Some original) false),
                   Ok (mkFileResult source (lit "moved") (Some original) new_content (Some dest)))
              end
          end
      end
  end.

Fixpoint apply_changes (w : World) (cs : list FileChange)
  : World * result (list ApplyPatchFileResult) str :=
  match cs with
  | [] => (w, Ok [])
  | c :: cs' =>
      let '(w, r) := apply_change w c in
      match r with
      | Err e => (w, Err e)
      | Ok f =>
          let '(w, rs) := apply_changes w cs' in
          match rs with
          | Err e => (w, Err e)
          | Ok fs => (w, Ok (f :: fs))
          end
      end
  end.

(** [ApplyPatchTool::run], after the resources have been resolved. *)
Definition run (cwd : str) (w : World) (text : str)
  : option (World * result ApplyPatchOutput str) :=
  match parse_patch text with
  | Err e => Some (w, Ok (OutParseError (parse_error_message e)))
  | Ok parsed =>
      match hunks parsed with
      | [] => Some (w, Ok (EmptyPatch (lit "No files were modified.")))
      | hs =>
          r ← compute_all_changes cwd (w_fs w) hs;
          match r with
          | Err msg => Some (w, Ok (ApplicationError msg))
          | Ok changes =>
              let '(w, rs) := apply_changes w changes in
              match rs with
              | Err e => Some (w, Err e)
              | Ok files => Some (w, Ok (Success files (build_summary files)))
              end
          end
      end
  end.

(** ** What a change does *)

Definition file_result (c : FileChange) : ApplyPatchFileResult :=
  match c with
  | Add p t => mkFileResult p (lit "added") None t None
  | Delete p o => mkFileResult p (lit "deleted") (Some o) [] None
  | Update p o t => mkFileResult p (lit "modified") (Some o) t None
  | Move s d o t => mkFileResult s (lit "moved") (Some o) t (Some d)
  end.
Definition notifications (c : FileChange) : list FileWritten :=
  match c with
  | Add p t => [mkWritten tool_call_id p t None true]
  | Delete p o => [mkWritten tool_call_id p [] (Some o) false]
  | Update p o t => [mkWritten tool_call_id p t (Some o) false]
  | Move s d o t => [mkWritten tool_call_id d t None true; mkWritten tool_call_id s [] (Some o) false]
  end.
Definition touched (c : FileChange) : list str :=
  match c with
  | Add p _ | Delete p _ | Update p _ _ => [p]
  | Move s d _ _ => [s; d]
  end.
(** What the file system must hold afterwards. *)
Definition effect (fs : S) (c : FileChange) : Prop :=
  match c with
  | Add p t | Update p _ t => contents fs p = Some t
  | Delete p _ => contents fs p = None
  | Move s d _ t => contents fs d = Some t ∧ contents fs s = None
  end.
(** What a hunk asks for, given the files it finds. *)
Definition computed (cwd : str) (fs : S) (h : Hunk) (c : FileChange) : Prop :=
  match h with
  | AddFile p t => c = Add (path_join cwd p) t
  | DeleteFile p =>
      ∃ o, contents fs (path_join cwd p) = Some o ∧ c = Delete (path_join cwd p) o
  | UpdateFile p mv chunks =>
      ∃ o t, contents fs (path_join cwd p) = Some o
        ∧ derive_new_contents o (path_join cwd p) chunks = Some (Ok t)
        ∧ c = match mv with
              | Some d => Move (path_join cwd p) (path_join cwd d) o t
              | None => Update (path_join cwd p) o t
              end
  end.

Lemma compute_change_Ok cwd fs h c :
  compute_change cwd fs h = Some (Ok c) → computed cwd fs h c.
Proof.
  destruct h as [p t|p|p mv chunks]; simpl; unfold contents.
  - by intros [= <-].
  - destruct (read_file _ _) as [o|]; [|done]. intros [= <-]. eauto.
  - destruct (read_file _ _) as [o|]; [|done].
    destruct (derive_new_contents _ _ _) as [[t|]|] eqn:E; [|done|done]. simpl. intros [= <-]. eauto 6.
Qed.

Lemma compute_all_changes_Ok cwd fs hs cs :
  compute_all_changes cwd fs hs = Some (Ok cs) → Forall2 (computed cwd fs) hs cs.
Proof.
  revert cs; induction hs as [|h hs IH]; intros cs; cbn [compute_all_changes]; [by intros [= <-]|].
  destruct (compute_change cwd fs h) as [[c|]|] eqn:Hc; [|done|done]. simpl.
  destruct (compute_all_changes cwd fs hs) as [[cs'|]|]; [|done|done]. simpl. intros [= <-].
  constructor; [by apply compute_change_Ok|by apply IH].
Qed.

Lemma compute_all_changes_defined cwd fs hs : ∃ r, compute_all_changes cwd fs hs = Some r.
Proof.
  induction hs as [|h hs [r IH]]; cbn [compute_all_changes]; [eauto|]. rewrite IH.
  assert (∃ rc, compute_change cwd fs h = Some rc) as [[c|e] ->].
  { destruct h as [p t|p|p mv chunks]; simpl; [eauto|destruct (read_file _ _); eauto|].
    destruct (read_file _ _) as [o|]; [|eauto].
    destruct (derive_defined o (path_join cwd p) chunks) as [[t|e] ->]; simpl; eauto. }
  - simpl. destruct r; eauto.
  - simpl. eauto.
Qed.

Context (alias : str → str → bool) `{!FileSystemLaws S alias}.

Lemma ensure_parent_step fs p fs' r :
  ensure_parent_dirs fs p = (fs', r) → ∀ q, contents fs' q = contents fs q.
Proof.
  intros E q. replace fs' with (ensure_parent_dirs fs p).1 by by rewrite E. clear E.
  unfold ensure_parent_dirs. destruct (path_parent p); [|done].
  destruct (negb _); [apply create_dir_frame|done].
Qed.
Lemma write_step fs p t fs' r :
  write_file fs p t = (fs', r) →
  (∀ q, alias p q = false → contents fs' q = contents fs q) ∧ (r = Ok tt → contents fs' p = Some t).
Proof.
  intros E. split; [|intros ->; by eapply write_read].
  intros q Hq. rewrite <- (write_frame fs p t q Hq). by rewrite E.
Qed.
Lemma delete_step fs p fs' r :
  delete_file fs p = (fs', r) →
  (∀ q, alias p q = false → contents fs' q = contents fs q) ∧ (r = Ok tt → contents fs' p = None).
Proof.
  intros E. split; [|intros ->; by eapply delete_read].
  intros q Hq. rewrite <- (delete_frame fs p q Hq). by rewrite E.
Qed.

Definition clear_of (q : str) (ps : list str) : Prop := Forall (λ p, alias p q = false) ps.

(** One change: where it leaves other files alone, and what it achieves. *)
Lemma apply_change_spec w c w' r :
  apply_change w c = (w', r) →
  (∀ q, clear_of q (touched c) → contents (w_fs w') q = contents (w_fs w) q)
  ∧ (∀ f, r = Ok f →
       f = file_result c ∧ sent w' = sent w ++ notifications c
       ∧ ((if c is Move s d _ _ then alias s d = false else True) → effect (w_fs w') c)).
Proof.
  unfold apply_change, step, clear_of. destruct c as [p t|p o|p o t|sp d o t]; cbn [touched];
    repeat setoid_rewrite Forall_cons.
  - destruct (ensure_parent_dirs (w_fs w) p) as [fs1 r1] eqn:E1.
    pose proof (ensure_parent_step _ _ _ _ E1) as F1.
    destruct r1 as [[]|]; [|intros [= <- <-]; split; [by intros q _|done]]. cbn [w_fs sent].
    destruct (write_file fs1 p t) as [fs2 r2] eqn:E2. apply write_step in E2 as [F2 R2].
    destruct r2 as [[]|]; intros [= <- <-]; (split; [intros q [Hq _]; simpl; rewrite F2; auto|]); [|done].
    intros f [= <-]. simpl. auto.
  - destruct (delete_file (w_fs w) p) as [fs2 r2] eqn:E2. apply delete_step in E2 as [F2 R2].
    destruct r2 as [[]|]; intros [= <- <-]; (split; [intros q [Hq _]; simpl; auto|]); [|done].
    intros f [= <-]. simpl. auto.
  - destruct (write_file (w_fs w) p t) as [fs2 r2] eqn:E2. apply write_step in E2 as [F2 R2].
    destruct r2 as [[]|]; intros [= <- <-]; (split; [intros q [Hq _]; simpl; auto|]); [|done].
    intros f [= <-]. simpl. auto.
  - destruct (ensure_parent_dirs (w_fs w) d) as [fs1 r1] eqn:E1.
    pose proof (ensure_parent_step _ _ _ _ E1) as F1.
    destruct r1 as [[]|]; [|intros [= <- <-]; split; [by intros q _|done]]. cbn [w_fs sent].
    destruct (write_file fs1 d t) as [fs2 r2] eqn:E2. apply write_step in E2 as [F2 R2].
    destruct r2 as [[]|];
      [|intros [= <- <-]; split; [intros q (_ & Hq & _); simpl; rewrite F2; auto|done]].
    cbn [w_fs sent].
    destruct (delete_file fs2 sp) as [fs3 r3] eqn:E3. apply delete_step in E3 as [F3 R3].
    destruct r3 as [[]|]; intros [= <- <-];
      (split; [intros q (Hs & Hd & _); simpl; rewrite F3, F2; auto|]); [|done].
    intros f [= <-]. simpl. rewrite <- app_assoc. split; [done|]. split; [done|].
    intros Hal. rewrite F3 by done. auto.
Qed.

(** Paths that name different files. *)
Fixpoint apart (ps : list str) : Prop :=
  match ps with
  | [] => True
  | p :: ps' => Forall (λ q, alias p q = false ∧ alias q p = false) ps' ∧ apart ps'
  end.

Lemma apart_app l k : apart (l ++ k) →
  apart l ∧ apart k ∧ ∀ p, p ∈ l → clear_of p k.
Proof.
  induction l as [|x l IH]; simpl.
  - intros Hk. split; [done|]. split; [done|]. intros p Hp. by apply elem_of_nil in Hp.
  - intros [[Hl Hk]%Forall_app (H1 & H2 & H3)%IH]. split; [done|]. split; [done|].
    intros p [->|Hp]%elem_of_cons; [|by apply H3].
    eapply Forall_impl; [exact Hk|]. by intros q [_ ?].
Qed.

Lemma effect_frame fs fs' c :
  (∀ p, p ∈ touched c → contents fs' p = contents fs p) → effect fs c → effect fs' c.
Proof.
  intros Hf. destruct c; simpl in *; rewrite ?Hf by (rewrite ?elem_of_cons; auto); auto.
Qed.

Lemma apply_changes_spec w cs w' r :
  apply_changes w cs = (w', r) →
  (∀ q, clear_of q (flat_map touched cs) → contents (w_fs w') q = contents (w_fs w) q)
  ∧ (∀ fs, r = Ok fs →
       fs = file_result <$> cs ∧ sent w' = sent w ++ flat_map notifications cs
       ∧ (apart (flat_map touched cs) → Forall (effect (w_fs w')) cs)).
Proof.
  revert w w' r; induction cs as [|c cs IH]; intros w w' r; cbn [apply_changes flat_map].
  { intros [= <- <-]. split; [done|]. intros fs [= <-]. rewrite app_nil_r. auto. }
  destruct (apply_change w c) as [w1 r1] eqn:E1. apply apply_change_spec in E1 as [F1 R1].
  destruct r1 as [f|e].
  2: { intros [= <- <-]. split; [|done]. intros q [Hq _]%Forall_app. auto. }
  destruct (apply_changes w1 cs) as [w2 r2] eqn:E2. apply IH in E2 as [F2 R2].
  assert (F : ∀ q, clear_of q (touched c ++ flat_map touched cs) → contents (w_fs w2) q = contents (w_fs w) q).
  { intros q [H1 H2]%Forall_app. rewrite F2, F1; auto. }
  destruct r2 as [fs|e]; intros [= <- <-]; (split; [exact F|]); [|done]. intros fs' [= <-].
  destruct (R1 f eq_refl) as (-> & S1 & X1). destruct (R2 fs eq_refl) as (-> & S2 & X2).
  split; [done|]. split; [by rewrite S2, S1, app_assoc|].
  intros (Ha & Hb & Hab)%apart_app. constructor; [|auto].
  apply (effect_frame (w_fs w1)); [intros p Hp; by apply F2, Hab|]. apply X1.
  destruct c; [done..|]. simpl in Ha. destruct Ha as [[[? _] _]%Forall_cons _]. done.
Qed.

(** The paths a hunk can touch. *)
Definition hunk_paths (cwd : str) (h : Hunk) : list str :=
  match h with
  | AddFile p _ | DeleteFile p => [path_join cwd p]
  | UpdateFile p mv _ => path_join cwd p :: (if mv is Some d then [path_join cwd d] else [])
  end.

Lemma computed_touched cwd fs hs cs :
  Forall2 (computed cwd fs) hs cs → flat_map touched cs = flat_map (hunk_paths cwd) hs.
Proof.
  induction 1 as [|h c hs cs Hc _ IH]; [done|]. simpl. rewrite IH. f_equal.
  destruct h as [p t|p|p mv chunks]; simpl in Hc.
  - by subst.
  - destruct Hc as (o & _ & ->). done.
  - destruct Hc as (o & t & _ & _ & ->). by destruct mv.
Qed.

(** The tool never panics and nothing is half done before it writes: it always returns,
    and when the patch does not parse, is empty, or a hunk cannot be applied (a file is
    missing or its lines are not found), the file system and the notifications are exactly
    as before. *)
Theorem run_failure_changes_nothing cwd w text :
  ∃ w' r, run cwd w text = Some (w', r)
    ∧ ∀ out, r = Ok out → (if out is Success _ _ then False else True) → w' = w.
Proof.
  unfold run. destruct (parse_patch text) as [parsed|e]; [|eauto 6].
  destruct (hunks parsed) as [|h hs]; [eauto 6|]. revert h hs. intros h hs.
  destruct (compute_all_changes_defined cwd (w_fs w) (h :: hs)) as [[cs|e] ->]; simpl; [|eauto 6].
  destruct (apply_changes w cs) as [w' [files|e]]; eexists _, _; (split; [reflexivity|]); [|done].
  by intros out [= <-].
Qed.

(** Whatever the outcome, also when a write fails halfway, files the patch does not
    name are untouched. *)
Theorem run_frame cwd w text w' r parsed q :
  run cwd w text = Some (w', r) → parse_patch text = Ok parsed →
  clear_of q (flat_map (hunk_paths cwd) (hunks parsed)) →
  contents (w_fs w') q = contents (w_fs w) q.
Proof.
  unfold run. intros Hrun Hp Hq. rewrite Hp in Hrun.
  destruct (hunks parsed) as [|h hs] eqn:Hh; [by injection Hrun as <- <-|]. rewrite <- Hh in *.
  destruct (compute_all_changes cwd (w_fs w) (hunks parsed)) as [[cs|e]|] eqn:Hc; [| |done]; simpl in Hrun.
  2: { by injection Hrun as <- <-. }
  apply compute_all_changes_Ok, computed_touched in Hc. rewrite <- Hc in Hq.
  destruct (apply_changes w cs) as [w2 r2] eqn:E. apply apply_changes_spec in E as [F _].
  destruct r2; injection Hrun as <- <-; by apply F.
Qed.

(** C34: Success means that every hunk was carried out: each hunk's change is computed from
    the files as they were before the run, the reported files and the notifications are
    those of the changes in order, and, when the hunks name different files, each file
    afterwards holds what its hunk says (created, rewritten, moved or gone). *)
Theorem run_success cwd w text w' files summary :
  run cwd w text = Some (w', Ok (Success files summary)) →
  ∃ parsed changes,
    parse_patch text = Ok parsed ∧ hunks parsed ≠ []
    ∧ Forall2 (computed cwd (w_fs w)) (hunks parsed) changes
    ∧ files = file_result <$> changes ∧ summary = build_summary files
    ∧ sent w' = sent w ++ flat_map notifications changes
    ∧ (apart (flat_map (hunk_paths cwd) (hunks parsed)) → Forall (effect (w_fs w')) changes).
Proof.
  unfold run. destruct (parse_patch text) as [parsed|e]; [|done].
  destruct (hunks parsed) as [|h hs] eqn:Hh; [done|]. rewrite <- Hh. intros Hrun.
  destruct (compute_all_changes cwd (w_fs w) (hunks parsed)) as [[cs|e]|] eqn:Hc; [|done|done].
  simpl in Hrun. apply compute_all_changes_Ok in Hc.
  destruct (apply_changes w cs) as [w2 r2] eqn:E. apply apply_changes_spec in E as [_ R].
  destruct r2 as [fs|e]; [|done]. injection Hrun as <- <- <-.
  destruct (R fs eq_refl) as (-> & Hsent & Heff). exists parsed, cs.
  split; [done|]. split; [by rewrite Hh|]. split; [done|]. split; [done|]. split; [done|].
  split; [done|]. by rewrite <- (computed_touched _ _ _ _ Hc).
Qed.
End Tool.

(** ** An in-memory file system for the witnesses *)

#[global] Instance mem_fs : FileSystem (gmap (list N) str) := {|
  read_file s p := match s !! p with Some t => Ok t | None => Err (lit "not found") end;
  write_file s p t := (<[p := t]> s, Ok tt);
  delete_file s p := (delete p s, Ok tt);
  create_dir_all s d := (s, Ok tt)
|}.

#[global] Instance mem_fs_laws : FileSystemLaws (gmap (list N) str) str_eqb.
Proof.
  split; unfold contents; simpl.
  - intros s p t q Hne%str_eqb_neq. by rewrite lookup_insert_ne.
  - intros s p t s' [= <-]. by rewrite lookup_insert_eq.
  - intros s p q Hne%str_eqb_neq. by rewrite lookup_delete_ne.
  - intros s p s' [= <-]. by rewrite lookup_delete_eq.
  - done.
Qed.

Definition demo_patch : str :=
  patch_text [AddFile (lit "n") (lit "x" ++ [NL]);
              UpdateFile (lit "a") (Some (lit "b")) [mkChunk None [lit "old"] [lit "new"] false]].
Definition demo_world : World (S := gmap (list N) str) :=
  mkWorld {[ lit "/w/a" := lit "old" ++ [NL]; lit "/w/z" := lit "keep" ]} [].
Definition demo_result : option (World (S := gmap (list N) str) * result ApplyPatchOutput str) :=
  run (lit "id") (lit "/w") demo_world demo_patch.

Definition demo_files : list str :=
  match demo_result with Some (_, Ok (Success files _)) => fr_path <$> files | _ => [] end.
Definition demo_at (p : str) : option str :=
  match demo_result with Some (w, _) => contents (w_fs w) p | None => None end.

(** The run of the demonstration patch. *)
Example demo_run :
  demo_files = [lit "/w/n"; lit "/w/a"] ∧ demo_at (lit "/w/b") = Some (lit "new" ++ [NL])
  ∧ demo_at (lit "/w/a") = None ∧ demo_at (lit "/w/n") = Some (lit "x" ++ [NL]).
Proof. vm_compute. auto. Qed.

Lemma run_frame_witness :
  ∃ w' r, demo_result = Some (w', r) ∧ contents (w_fs w') (lit "/w/z") = Some (lit "keep").
Proof.
  destruct demo_result as [[w' r]|] eqn:E; [|vm_compute in E; discriminate].
  exists w', r. split; [reflexivity|].
  rewrite (run_frame (lit "id") str_eqb (lit "/w") demo_world demo_patch w' r
    (mkParsed [AddFile (lit "n") (lit "x" ++ [NL]);
               UpdateFile (lit "a") (Some (lit "b")) [mkChunk None [lit "old"] [lit "new"] false]]
      demo_patch) (lit "/w/z")).
  - vm_compute. reflexivity.
  - exact E.
  - vm_compute. reflexivity.
  - repeat constructor.
Defined.

Lemma run_success_witness :
  ∃ w' files summary, demo_result = Some (w', Ok (Success files summary))
    ∧ ∃ changes, files = file_result <$> changes ∧ length changes = 2.
Proof.
  assert (Hf : demo_files = [lit "/w/n"; lit "/w/a"]) by (vm_compute; reflexivity).
  unfold demo_files in Hf.
  destruct demo_result as [[w' [[files summary| | |]|]]|] eqn:E; try discriminate Hf.
  exists w', files, summary. split; [reflexivity|].
  destruct (run_success (lit "id") str_eqb (lit "/w") demo_world demo_patch w' files summary E)
    as (parsed & changes & _ & _ & _ & Hfc & _).
  exists changes. split; [exact Hfc|]. rewrite Hfc in Hf. apply (f_equal length) in Hf.
  rewrite !length_fmap in Hf. exact Hf.
Defined.
