(* ===== verification/BreakerConfig.v ===== *)
(** Circuit-breaker configuration and retry classification
    (crates/common/xai-circuit-breaker/src/config.rs, retry_policy.rs and grpc.rs).

    [f64] is IEEE binary64 as the Standard Library specifies it ([spec_float] with 53 bits
    of precision), [Duration] is a number of nanoseconds, [HashSet<u16>] a [gset].  The
    standard library's [f64::from_str] is the parameter [parse_f64]. *)
From Stdlib Require Import String Ascii Floats.SpecFloat.
From stdpp Require Import gmap.
From S2P Require Import Prelude RustStr.
Local Open Scope Z_scope.

Definition f64_of_Z (n : Z) : spec_float := binary_normalize 53 1024 n 0 false.
Definition f64_div (x y : spec_float) : spec_float := SFdiv 53 1024 x y.
(** [x >= y] *)
Definition f64_ge (x y : spec_float) : bool := SFleb y x.
(** [0.5] *)
Definition f64_half : spec_float := S754_finite false 4503599627370496 (-53).

Definition NANOS_PER_SEC : Z := 1000000000.
Definition NANOS_PER_MILLI : Z := 1000000.
Definition from_secs (s : Z) : Z := s * NANOS_PER_SEC.

(** ** [BreakerConfig] *)

Record BreakerConfig := mkConfig {
  window_duration : Z;
  min_samples : Z;
  error_rate_threshold : spec_float;
  open_duration : Z;
  half_open_max_probes : Z;
  failure_codes : gset Z;
  enabled : bool
}.

Definition default_failure_codes : gset Z := list_to_set [429; 500; 502; 503; 504].

Definition server_config : BreakerConfig :=
  mkConfig (from_secs 60) 10 f64_half (from_secs 10) 1 default_failure_codes true.
Definition client_config : BreakerConfig :=
  mkConfig (from_secs 60) 5 f64_half (from_secs 60) 1 {[ 401 ]} true.

Definition is_failure_status (c : BreakerConfig) (status : Z) : bool :=
  bool_decide (status ∈ failure_codes c).

Definition parse_bool (s : str) : option bool :=
  if str_eqb s (lit "true") then Some true
  else if str_eqb s (lit "false") then Some false else None.

Definition parse_failure_codes (s : str) : gset Z :=
  list_to_set (omap (λ c, parse_uint U16 (trim c)) (split_on (chr ",") s)).

Section Env.
Variable parse_f64 : str → option spec_float.

Definition lookup_or {T} (parse : str → option T) (get : str → option str) (key : str)
  (dflt : T) : T :=
  match get key with
  | Some v => match parse v with Some parsed => parsed | None => dflt end
  | None => dflt
  end.

Definition from_lookup_with_prefix (prefix : str) (get : str → option str) : BreakerConfig :=
  let key (k : str) := prefix ++ k in
  let codes :=
    match get (key (lit "FAILURE_CODES")) with
    | Some raw =>
        let codes := parse_failure_codes raw in
        if bool_decide (codes = ∅) then default_failure_codes else codes
    | None => default_failure_codes
    end in
  mkConfig
    (from_secs (lookup_or (parse_uint U64) get (key (lit "WINDOW_SECS")) 60))
    (lookup_or (parse_uint U64) get (key (lit "MIN_SAMPLES")) 10)
    (lookup_or parse_f64 get (key (lit "ERROR_RATE_THRESHOLD")) f64_half)
    (from_secs (lookup_or (parse_uint U64) get (key (lit "OPEN_DURATION_SECS")) 10))
    (Z.max (lookup_or (parse_uint U64) get (key (lit "HALF_OPEN_MAX_PROBES")) 1) 1)
    codes
    (lookup_or parse_bool get (key (lit "ENABLED")) true).

Lemma lookup_or_uint bound get key dflt :
  0 ≤ dflt < bound → 0 ≤ lookup_or (parse_uint bound) get key dflt < bound.
Proof.
  intros Hd. unfold lookup_or. destruct (get key) as [v|]; [|done].
  destruct (parse_uint bound v) eqn:E; [|done]. by apply parse_uint_range in E.
Qed.

(** Whatever the environment holds, the configuration loaded from it is usable: there
    is at least one half-open probe, at least one failure code, and every integer fits its
    machine type; with no variable set, or none that parses, it is the server preset. *)
Theorem env_config_usable prefix get :
  let c := from_lookup_with_prefix prefix get in
  1 ≤ half_open_max_probes c < U64 ∧ 0 ≤ min_samples c < U64
  ∧ 0 ≤ window_duration c < from_secs U64 ∧ 0 ≤ open_duration c < from_secs U64
  ∧ failure_codes c ≠ ∅
  ∧ ((∀ k v, get k = Some v →
        parse_uint U64 v = None ∧ parse_f64 v = None ∧ parse_bool v = None
        ∧ parse_failure_codes v = ∅) → c = server_config).
Proof.
  intros c. subst c. unfold from_lookup_with_prefix.
  cbn [half_open_max_probes min_samples window_duration open_duration failure_codes].
  assert (HU : 1 < U64) by done. unfold from_secs, NANOS_PER_SEC.
  split. { pose proof (lookup_or_uint U64 get (prefix ++ lit "HALF_OPEN_MAX_PROBES") 1). lia. }
  split. { apply lookup_or_uint. unfold U64. lia. }
  split. { pose proof (lookup_or_uint U64 get (prefix ++ lit "WINDOW_SECS") 60). unfold U64 in *. lia. }
  split. { pose proof (lookup_or_uint U64 get (prefix ++ lit "OPEN_DURATION_SECS") 10). unfold U64 in *. lia. }
  assert (Hd : default_failure_codes ≠ ∅) by (unfold default_failure_codes; set_solver).
  split.
  { destruct (get _); [|exact Hd]. by case_bool_decide. }
  intros Hbad.
  assert (Hu : ∀ k d, lookup_or (parse_uint U64) get k d = d).
  { intros k d. unfold lookup_or. destruct (get k) as [v|] eqn:E; [|done].
    by destruct (Hbad k v E) as (-> & _). }
  assert (Hf : ∀ k d, lookup_or parse_f64 get k d = d).
  { intros k d. unfold lookup_or. destruct (get k) as [v|] eqn:E; [|done].
    by destruct (Hbad k v E) as (_ & -> & _). }
  assert (Hb : ∀ k d, lookup_or parse_bool get k d = d).
  { intros k d. unfold lookup_or. destruct (get k) as [v|] eqn:E; [|done].
    by destruct (Hbad k v E) as (_ & _ & -> & _). }
  rewrite !Hu, Hf, Hb. unfold server_config. f_equal.
  destruct (get _) as [raw|] eqn:E; [|done]. destruct (Hbad _ _ E) as (_ & _ & _ & ->).
  by rewrite bool_decide_eq_true_2.
Qed.
End Env.

(** ** [RetryPolicy] *)

Inductive Disposition := Retryable | AuthRefresh | Terminal.

Record RetryPolicy := mkPolicy {
  retryable : list Z;
  auth_refresh : list Z;
  terminal : list Z;
  dflt : Disposition
}.

Definition mem (x : Z) (l : list Z) : bool := existsb (Z.eqb x) l.

Definition classify (p : RetryPolicy) (status : Z) : option Disposition :=
  if (200 <=? status) && (status <? 300) then None
  else if mem status (auth_refresh p) then Some AuthRefresh
  else if mem status (terminal p) then Some Terminal
  else if mem status (retryable p) || ((500 <=? status) && (status <? 600)) then Some Retryable
  else Some (dflt p).
Definition should_retry (p : RetryPolicy) (status : Z) : bool :=
  match classify p status with Some Retryable => true | _ => false end.

Definition server_policy : RetryPolicy := mkPolicy [429] [] [] Terminal.
Definition edge_client : RetryPolicy := mkPolicy [429] [] [525; 526] Terminal.
Definition client_storage : RetryPolicy := mkPolicy [] [401] [400; 403; 404; 525; 526] Retryable.

Lemma mem_cons x y l : mem x (y :: l) = (x =? y) || mem x l.
Proof. done. Qed.
Lemma mem_nil x : mem x [] = false.
Proof. done. Qed.

(** The three presets classify every status as documented: the server retries exactly
    429 and the 5xx codes; the edge client the same without the origin-TLS codes 525 and
    526; the storage client refreshes credentials on 401, drops 400, 403, 404, 525 and
    526, and retries every other code that is not a success. *)
Theorem retry_presets status :
  (should_retry server_policy status = true ↔ status = 429 ∨ 500 ≤ status < 600)
  ∧ (should_retry edge_client status = true ↔
       (status = 429 ∨ 500 ≤ status < 600) ∧ status ≠ 525 ∧ status ≠ 526)
  ∧ (classify client_storage status = Some AuthRefresh ↔ status = 401)
  ∧ (classify client_storage status = Some Terminal ↔ status ∈ [400; 403; 404; 525; 526])
  ∧ (classify client_storage status = None ↔ 200 ≤ status < 300).
Proof.
  unfold should_retry, classify, server_policy, edge_client, client_storage.
  cbn [retryable auth_refresh terminal dflt].
  rewrite !mem_cons, !mem_nil, !elem_of_cons, elem_of_nil.
  destruct (Z.leb_spec 200 status), (Z.ltb_spec status 300); simpl;
  repeat match goal with
  | |- context [Z.eqb status ?k] => destruct (Z.eqb_spec status k); simpl
  | |- context [Z.leb ?a ?b] => destruct (Z.leb_spec a b); simpl
  | |- context [Z.ltb ?a ?b] => destruct (Z.ltb_spec a b); simpl
  end; repeat split; intros; try lia; try done; try (intuition lia).
Qed.

(** ** [GrpcRetryPolicy] *)

(** [tonic::Code] *)
Inductive Code :=
| CodeOk | Cancelled | Unknown | InvalidArgument | DeadlineExceeded | NotFound | AlreadyExists
| PermissionDenied | ResourceExhausted | FailedPrecondition | Aborted | OutOfRange
| Unimplemented | Internal | Unavailable | DataLoss | Unauthenticated.
#[global] Instance Code_eq_dec : EqDecision Code.
Proof. solve_decision. Defined.

Definition grpc_is_retryable (retryable : list Code) (c : Code) : bool :=
  bool_decide (c ∈ retryable).
Definition grpc_classify (retryable : list Code) (c : Code) : option Disposition :=
  match c with
  | CodeOk => None
  | _ => Some (if grpc_is_retryable retryable c then Retryable else Terminal)
  end.
Definition GRPC_DEFAULT : list Code := [Unavailable; Unknown].
Definition GRPC_PERMISSIVE : list Code := [Unavailable; Unknown; Internal; DeadlineExceeded].

(** The permissive preset only adds retries. *)
Lemma grpc_permissive_extends c :
  grpc_classify GRPC_DEFAULT c = Some Retryable → grpc_classify GRPC_PERMISSIVE c = Some Retryable.
Proof. by destruct c. Qed.
