(* ===== verification/Breaker.v ===== *)
(** The circuit breaker
    (crates/common/xai-circuit-breaker/src/breaker.rs, window.rs, state.rs and registry.rs).

    An operation of the breaker is a [prog]: a sequence of atomic steps on the shared
    fields (one load, store, compare-exchange, fetch-add, critical section of the window
    mutex, clock reading or observer call each), with the thread's own data in the
    continuation.  [exec] runs an operation alone; [cstep] interleaves threads, with the
    clock advancing at any moment.  Both use the same operations. *)
From Stdlib Require Import Floats.SpecFloat.
From stdpp Require Import gmap.
From S2P Require Import Prelude RustStr BreakerConfig.
Local Open Scope Z_scope.

(** ** The sliding window *)

Module Window.

Definition MAX_WINDOW_ENTRIES : nat := 10000.

(** Entries are [(timestamp, is_failure)], oldest first; timestamps are nanoseconds. *)
Record SlidingWindow := mkWindow {
  entries : list (Z * bool);
  failures : Z
}.

Definition new : SlidingWindow := mkWindow [] 0.

Definition pop_front (w : SlidingWindow) : SlidingWindow :=
  match entries w with
  | [] => w
  | (_, was_failure) :: es => mkWindow es (if was_failure : bool then failures w - 1 else failures w)
  end.

Definition push (w : SlidingWindow) (is_failure : bool) (at_ : Z) : SlidingWindow :=
  let w := if (MAX_WINDOW_ENTRIES <=? length (entries w))%nat then pop_front w else w in
  mkWindow (entries w ++ [(at_, is_failure)]) (if is_failure then failures w + 1 else failures w).

(** The [while let Some(..) = front()] loop. *)
Fixpoint evict_go (cutoff : Z) (es : list (Z * bool)) (failures : Z) : SlidingWindow :=
  match es with
  | [] => mkWindow [] failures
  | (ts, was_failure) :: es' =>
      if ts <? cutoff
      then evict_go cutoff es' (if was_failure : bool then failures - 1 else failures)
      else mkWindow es failures
  end.
(** [Instant::checked_sub] fails below the earliest instant the platform represents. *)
Definition checked_sub (instant_min now d : Z) : option Z :=
  if now - d <? instant_min then None else Some (now - d).
Definition evict (instant_min : Z) (w : SlidingWindow) (window now : Z) : SlidingWindow :=
  match checked_sub instant_min now window with
  | None => w
  | Some cutoff => evict_go cutoff (entries w) (failures w)
  end.

Definition error_rate (w : SlidingWindow) : spec_float :=
  match entries w with
  | [] => S754_zero false
  | es => f64_div (f64_of_Z (failures w)) (f64_of_Z (Z.of_nat (length es)))
  end.
Definition sample_count (w : SlidingWindow) : Z := Z.of_nat (length (entries w)).
Definition clear (w : SlidingWindow) : SlidingWindow := mkWindow [] 0.

(** The cached count is the number of failures held, and the memory bound is kept. *)
Definition count (es : list (Z * bool)) : Z := Z.of_nat (length (List.filter snd es)).
Definition window_ok (w : SlidingWindow) : Prop :=
  failures w = count (entries w) ∧ (length (entries w) ≤ MAX_WINDOW_ENTRIES)%nat.

Lemma count_app es es' : count (es ++ es') = count es + count es'.
Proof. unfold count. rewrite List.filter_app, length_app. lia. Qed.
Lemma count_cons t b es : count ((t, b) :: es) = (if b then 1 else 0) + count es.
Proof. unfold count. simpl. destruct b; simpl; lia. Qed.
Lemma count_nonneg es : 0 ≤ count es.
Proof. unfold count. lia. Qed.

Lemma MAX_pos : (0 < MAX_WINDOW_ENTRIES)%nat.
Proof. by apply Nat.ltb_lt. Qed.

#[local] Opaque MAX_WINDOW_ENTRIES.

Lemma pop_front_ok w : window_ok w → window_ok (pop_front w).
Proof.
  unfold window_ok, pop_front. destruct w as [[|[t b] es] f]; simpl; [done|].
  rewrite count_cons. intros [-> Hl]. split; [destruct b; lia|lia].
Qed.

Lemma push_ok w b t : window_ok w → window_ok (push w b t).
Proof.
  intros Hw. unfold push.
  set (w' := if (_ <=? _)%nat then _ else _).
  assert (Hw' : window_ok w' ∧ (length (entries w') < MAX_WINDOW_ENTRIES)%nat).
  { subst w'. destruct (Nat.leb_spec MAX_WINDOW_ENTRIES (length (entries w))) as [Hle|Hlt].
    - split; [by apply pop_front_ok|]. destruct Hw as [_ Hl]. unfold pop_front.
      destruct (entries w) as [|[t' b'] es]; simpl in *; pose proof MAX_pos; lia.
    - by split. }
  clearbody w'. destruct Hw' as [[Hf _] Hl]. split; simpl.
  - rewrite count_app, Hf. unfold count. simpl. destruct b; simpl; lia.
  - rewrite length_app. simpl. lia.
Qed.

Lemma evict_go_ok cutoff es f :
  f = count es →
  failures (evict_go cutoff es f) = count (entries (evict_go cutoff es f))
  ∧ ∃ k, entries (evict_go cutoff es f) = drop k es
    ∧ Forall (λ e, e.1 < cutoff) (take k es)
    ∧ (if entries (evict_go cutoff es f) is e :: _ then cutoff ≤ e.1 else True).
Proof.
  revert f; induction es as [|[t b] es IH]; intros f ->; simpl.
  - split; [done|]. exists 0%nat. by repeat split.
  - destruct (Z.ltb_spec t cutoff).
    + destruct (IH (if b then count ((t, b) :: es) - 1 else count ((t, b) :: es))) as (H1 & k & H2 & H3 & H4).
      { rewrite count_cons. destruct b; lia. }
      split; [done|]. exists (S k). simpl. split; [done|]. split; [by constructor|done].
    + split; [done|]. exists 0%nat. by repeat split.
Qed.

Lemma evict_ok m w d now : window_ok w → window_ok (evict m w d now).
Proof.
  intros [Hf Hl]. unfold evict. destruct (checked_sub _ _ _) as [cutoff|]; [|done].
  destruct (evict_go_ok cutoff (entries w) (failures w) Hf) as (H1 & k & H2 & _).
  split; [done|]. rewrite H2, length_drop. lia.
Qed.

Lemma clear_ok w : window_ok (clear w).
Proof. split; [done|]. simpl. lia. Qed.

Lemma filter_recent cutoff es :
  Forall (λ e, cutoff ≤ e.1) es → List.filter (λ e : Z * bool, negb (e.1 <? cutoff)) es = es.
Proof.
  induction 1 as [|[t b] es Ht _ IH]; simpl; [done|]. simpl in Ht.
  destruct (Z.ltb_spec t cutoff); [lia|]. simpl. by rewrite IH.
Qed.

(** With timestamps in order, eviction keeps exactly the samples inside the window. *)
Lemma evict_go_filter cutoff es f :
  StronglySorted (λ a b, a.1 ≤ b.1) es →
  entries (evict_go cutoff es f) = List.filter (λ e, negb (e.1 <? cutoff)) es.
Proof.
  intros Hs. revert f; induction Hs as [|[t b] es Hs IH Hall]; intros f; simpl; [done|].
  destruct (Z.ltb_spec t cutoff); simpl; [apply IH|]. f_equal.
  symmetry. apply filter_recent. eapply Forall_impl; [exact Hall|]. simpl. lia.
Qed.
End Window.
Import Window.

(** ** State, outcomes, shared memory *)

Inductive BreakerState := Closed | Open | HalfOpen.
#[global] Instance BreakerState_eq_dec : EqDecision BreakerState.
Proof. solve_decision. Defined.
(** [state as u8] and [from_u8]; a value outside the enum is read as [Closed]. *)
Definition to_u8 (s : BreakerState) : Z :=
  match s with Closed => 0 | Open => 1 | HalfOpen => 2 end.
Definition from_u8 (v : Z) : BreakerState :=
  if v =? 1 then Open else if v =? 2 then HalfOpen else Closed.

Inductive Outcome := Success | Failure.

(** Observer callbacks, in the order they are made. *)
Inductive Reason := RTrip | ROpenElapsed | RProbeSuccess | RProbeFailure.
Inductive Event :=
| OnStateChange (old new : BreakerState) (reason : Reason)
| OnProbeAdmission (allowed : bool)
| OnOutcome (o : Outcome) (status : BreakerState).

Record Shared := mkShared {
  st : Z;
  opened_at_millis : Z;
  half_open_probes : Z;
  probe_claimed_at_millis : Z;
  is_open_fast : bool;
  window : SlidingWindow;
  clock : Z;
  events : list Event
}.

Definition set_st (v : Z) (s : Shared) : Shared :=
  mkShared v (opened_at_millis s) (half_open_probes s) (probe_claimed_at_millis s)
    (is_open_fast s) (window s) (clock s) (events s).
Definition set_opened (v : Z) (s : Shared) : Shared :=
  mkShared (st s) v (half_open_probes s) (probe_claimed_at_millis s)
    (is_open_fast s) (window s) (clock s) (events s).
Definition set_probes (v : Z) (s : Shared) : Shared :=
  mkShared (st s) (opened_at_millis s) v (probe_claimed_at_millis s)
    (is_open_fast s) (window s) (clock s) (events s).
Definition set_claimed (v : Z) (s : Shared) : Shared :=
  mkShared (st s) (opened_at_millis s) (half_open_probes s) v
    (is_open_fast s) (window s) (clock s) (events s).
Definition set_fast (v : bool) (s : Shared) : Shared :=
  mkShared (st s) (opened_at_millis s) (half_open_probes s) (probe_claimed_at_millis s)
    v (window s) (clock s) (events s).
Definition set_window (v : SlidingWindow) (s : Shared) : Shared :=
  mkShared (st s) (opened_at_millis s) (half_open_probes s) (probe_claimed_at_millis s)
    (is_open_fast s) v (clock s) (events s).
Definition set_clock (v : Z) (s : Shared) : Shared :=
  mkShared (st s) (opened_at_millis s) (half_open_probes s) (probe_claimed_at_millis s)
    (is_open_fast s) (window s) v (events s).
Definition add_event (e : Event) (s : Shared) : Shared :=
  mkShared (st s) (opened_at_millis s) (half_open_probes s) (probe_claimed_at_millis s)
    (is_open_fast s) (window s) (clock s) (events s ++ [e]).

(** ** Programs over the shared memory *)

(** A step reads the shared memory, updates it, and goes on with what it read. *)
Inductive prog (A : Type) :=
| Ret (a : A)
| Step (upd : Shared → Shared) (k : Shared → prog A).
Arguments Ret {A} _.
Arguments Step {A} _ _.

Fixpoint pbind {A B} (p : prog A) (k : A → prog B) : prog B :=
  match p with
  | Ret a => k a
  | Step upd c => Step upd (λ s, pbind (c s) k)
  end.
Notation "'let*' x ':=' p 'in' k" := (pbind p (λ x, k))
  (at level 10, x name, p at level 200, k at level 200).

Fixpoint exec {A} (p : prog A) (s : Shared) : A * Shared :=
  match p with
  | Ret a => (a, s)
  | Step upd k => exec (k s) (upd s)
  end.

Lemma exec_bind {A B} (p : prog A) (k : A → prog B) s :
  exec (pbind p k) s = let '(a, s') := exec p s in exec (k a) s'.
Proof. revert s; induction p as [a|upd c IH]; intros s; simpl; [done|apply IH]. Qed.

(** ** Atomic operations *)

Definition load {A} (f : Shared → A) : prog A := Step id (λ s, Ret (f s)).
Definition store (upd : Shared → Shared) : prog unit := Step upd (λ _, Ret tt).
Definition wrap_usize (v : Z) : Z := v mod U64.
Definition probes_fetch_add (n : Z) : prog Z :=
  Step (λ s, set_probes (wrap_usize (half_open_probes s + n)) s) (λ s, Ret (half_open_probes s)).
Definition cas_state (from to : BreakerState) : prog bool :=
  Step (λ s, if st s =? to_u8 from then set_st (to_u8 to) s else s)
       (λ s, Ret (st s =? to_u8 from)).
Definition cas_claimed (from to : Z) : prog bool :=
  Step (λ s, if probe_claimed_at_millis s =? from then set_claimed to s else s)
       (λ s, Ret (probe_claimed_at_millis s =? from)).
Definition observe (e : Event) : prog unit := store (add_event e).

Section Machine.
(** [with_clock] clamps [half_open_max_probes] to at least one before storing it. *)
Variables (config0 : BreakerConfig) (instant_min baseline : Z).

Definition config : BreakerConfig :=
  mkConfig (window_duration config0) (min_samples config0) (error_rate_threshold config0)
    (open_duration config0) (Z.max (half_open_max_probes config0) 1) (failure_codes config0)
    (enabled config0).

Definition with_clock : Shared := mkShared 0 0 0 0 false Window.new baseline [].

(** [now.saturating_duration_since(baseline).as_millis() as u64] *)
Definition millis (now : Z) : Z := (Z.max 0 (now - baseline) / NANOS_PER_MILLI) mod U64.
Definition elapsed_millis : prog Z := load (λ s, millis (clock s)).
Definition state : prog BreakerState := load (λ s, from_u8 (st s)).
Definition is_open : prog bool := load is_open_fast.
Definition from_millis (ms : Z) : Z := ms * NANOS_PER_MILLI.
Definition saturating_sub (a b : Z) : Z := Z.max 0 (a - b).
Definition HALF_OPEN_PROBE_BACKOFF : Z := from_millis 50.

(** The error of [check] carries [retry_after]. *)
Definition try_half_open_probe : prog (result unit Z) :=
  let* now := elapsed_millis in
  let* prev := probes_fetch_add 1 in
  if prev <? BreakerConfig.half_open_max_probes config then
    let* _ := store (set_claimed now) in
    let* _ := observe (OnProbeAdmission true) in
    Ret (Ok tt)
  else
    let* _ := probes_fetch_add (-1) in
    let lease_millis := (open_duration config / NANOS_PER_MILLI) mod U64 in
    let* claimed := load probe_claimed_at_millis in
    let* won := (if lease_millis <=? saturating_sub now claimed then cas_claimed claimed now
                 else Ret false) in
    if won : bool then
      let* _ := observe (OnProbeAdmission true) in
      Ret (Ok tt)
    else
      let* _ := observe (OnProbeAdmission false) in
      Ret (Err (Z.min HALF_OPEN_PROBE_BACKOFF (open_duration config))).

Definition check_open : prog (result unit Z) :=
  let* opened := load opened_at_millis in
  let* now := elapsed_millis in
  let elapsed := from_millis (saturating_sub now opened) in
  if open_duration config <=? elapsed then
    let* won := cas_state Open HalfOpen in
    if won : bool then
      let* _ := store (set_fast false) in
      let* _ := observe (OnStateChange Open HalfOpen ROpenElapsed) in
      try_half_open_probe
    else
      let* s := state in
      match s with
      | Closed => Ret (Ok tt)
      | HalfOpen => try_half_open_probe
      | Open =>
          let* opened := load opened_at_millis in
          let* now := elapsed_millis in
          let elapsed := from_millis (saturating_sub now opened) in
          Ret (Err (saturating_sub (open_duration config) elapsed))
      end
  else Ret (Err (saturating_sub (open_duration config) elapsed)).

Definition check : prog (result unit Z) :=
  if negb (enabled config) then Ret (Ok tt)
  else
    let* s := state in
    match s with
    | Closed => Ret (Ok tt)
    | Open => check_open
    | HalfOpen => try_half_open_probe
    end.

Definition observe_change (prev new : BreakerState) (reason : Reason) : prog unit :=
  if bool_decide (prev = new) then Ret tt else observe (OnStateChange prev new reason).

Definition trip (prev : BreakerState) (reason : Reason) : prog unit :=
  let* _ := store (set_st (to_u8 Open)) in
  let* now := elapsed_millis in
  let* _ := store (set_opened now) in
  let* _ := store (set_probes 0) in
  let* _ := store (set_fast true) in
  observe_change prev Open reason.

Definition close (prev : BreakerState) (reason : Reason) : prog unit :=
  let* _ := store (set_st (to_u8 Closed)) in
  let* _ := store (λ s, set_window (clear (window s)) s) in
  let* _ := store (set_probes 0) in
  let* _ := store (set_fast false) in
  observe_change prev Closed reason.

(** The critical section of [record]: push, evict, and the trip test on the result. *)
Definition sample (is_failure : bool) (now : Z) (w : SlidingWindow) : SlidingWindow :=
  evict instant_min (push w is_failure now) (window_duration config) now.
Definition trips (w : SlidingWindow) : bool :=
  (min_samples config <=? sample_count w) && f64_ge (error_rate w) (error_rate_threshold config).
Definition locked_sample (is_failure : bool) (now : Z) : prog bool :=
  Step (λ s, set_window (sample is_failure now (window s)) s)
       (λ s, Ret (trips (sample is_failure now (window s)))).

Definition record (outcome : Outcome) : prog unit :=
  if negb (enabled config) then Ret tt
  else
    let is_failure := match outcome with Failure => true | Success => false end in
    let* now := load clock in
    let* prev_state := state in
    let* _ :=
      (match prev_state with
       | Closed =>
           let* should_trip := locked_sample is_failure now in
           if should_trip : bool then trip prev_state RTrip else Ret tt
       | HalfOpen =>
           if is_failure then trip prev_state RProbeFailure else close prev_state RProbeSuccess
       | Open => let* _ := locked_sample is_failure now in Ret tt
       end) in
    let* new_state := state in
    observe (OnOutcome outcome new_state).

(** [error_rate()]: evicts against the clock, then reads the rate. *)
Definition breaker_error_rate : prog spec_float :=
  let* now := load clock in
  Step (λ s, set_window (evict instant_min (window s) (window_duration config) now) s)
       (λ s, Ret (error_rate (evict instant_min (window s) (window_duration config) now))).

(** ** Clients *)

Inductive Call := CallCheck | CallRecord (o : Outcome) | CallErrorRate.
Inductive Reply := RCheck (r : result unit Z) | RRecorded | RRate (x : spec_float).
Definition body (c : Call) : prog Reply :=
  match c with
  | CallCheck => let* r := check in Ret (RCheck r)
  | CallRecord o => let* _ := record o in Ret RRecorded
  | CallErrorRate => let* x := breaker_error_rate in Ret (RRate x)
  end.
Definition advance (d : Z) (s : Shared) : Shared := set_clock (clock s + d) s.

(** One client at a time: whole calls, with time passing between them. *)
Inductive sstep : Shared → Shared → Prop :=
| s_call c s : sstep s (exec (body c) s).2
| s_tick d s : 0 ≤ d → sstep s (advance d s).

(** Any number of threads: one atomic step of one of them, a new call, or time passing. *)
Inductive cstep : Shared * list (prog Reply) → Shared * list (prog Reply) → Prop :=
| c_atomic s ts i upd k :
    ts !! i = Some (Step upd k) → cstep (s, ts) (upd s, <[i := k s]> ts)
| c_spawn s ts c : cstep (s, ts) (s, ts ++ [body c])
| c_tick s ts d : 0 ≤ d → cstep (s, ts) (advance d s, ts).

Lemma sample_ok b now w : window_ok w → window_ok (sample b now w).
Proof. intros Hw. apply evict_ok, push_ok, Hw. Qed.
End Machine.

(** ** The registry

    [Arc<CircuitBreaker>] values are identified by the number of the allocation; the map
    holds, for each key, which breaker it names. *)
Record Registry := mkRegistry {
  r_config : BreakerConfig;
  breakers : gmap (list N) nat;
  allocated : nat
}.
Definition registry_new (c : BreakerConfig) : Registry := mkRegistry c ∅ 0.
Definition registry_get (r : Registry) (key : list N) : option nat * Registry :=
  if negb (enabled (r_config r)) then (None, r)
  else match breakers r !! key with
       | Some cb => (Some cb, r)
       | None =>
           let cb := allocated r in
           (Some cb, mkRegistry (r_config r) (<[key := cb]> (breakers r)) (S cb))
       end.

Definition registry_ok (r : Registry) : Prop :=
  (∀ k cb, breakers r !! k = Some cb → (cb < allocated r)%nat)
  ∧ ∀ k k' cb, breakers r !! k = Some cb → breakers r !! k' = Some cb → k = k'.

Lemma registry_get_ok r key : registry_ok r → registry_ok (registry_get r key).2.
Proof.
  intros [Hlt Hinj]. unfold registry_get. destruct (negb _); [done|].
  destruct (breakers r !! key) as [cb|] eqn:E; [done|]. split; simpl.
  - intros k cb Hk. destruct (decide (k = key)) as [->|Hne].
    + rewrite lookup_insert_eq in Hk. injection Hk as <-. lia.
    + rewrite lookup_insert_ne in Hk by done. apply Hlt in Hk. lia.
  - intros k k' cb Hk Hk'. destruct (decide (k = key)) as [->|Hne], (decide (k' = key)) as [->|Hne'];
      rewrite ?lookup_insert_eq, ?lookup_insert_ne in * by done; try done.
    + injection Hk as <-. apply Hlt in Hk'. lia.
    + injection Hk' as <-. apply Hlt in Hk. lia.
    + by eapply Hinj.
Qed.

Lemma registry_get_stable r key key' cb :
  breakers r !! key = Some cb → breakers (registry_get r key').2 !! key = Some cb.
Proof.
  intros Hk. unfold registry_get. destruct (negb _); [done|].
  destruct (breakers r !! key') eqn:E; [done|]. simpl.
  rewrite lookup_insert_ne; [done|]. intros ->. congruence.
Qed.

Lemma registry_gets_ok r keys :
  registry_ok r → registry_ok (foldl (λ r k, (registry_get r k).2) r keys).
Proof. revert r; induction keys as [|k keys IH]; intros r Hr; simpl; [done|]. by apply IH, registry_get_ok. Qed.
Lemma registry_gets_stable r keys key cb :
  breakers r !! key = Some cb →
  breakers (foldl (λ r k, (registry_get r k).2) r keys) !! key = Some cb.
Proof.
  revert r; induction keys as [|k keys IH]; intros r Hr; simpl; [done|]. by apply IH, registry_get_stable.
Qed.
Lemma registry_gets_config r keys :
  r_config (foldl (λ r k, (registry_get r k).2) r keys) = r_config r.
Proof.
  revert r; induction keys as [|k keys IH]; intros r; simpl; [done|]. rewrite IH.
  unfold registry_get. destruct (negb _); [done|]. by destruct (breakers r !! k).
Qed.

(** The registry hands out one breaker per key: after any lookups, asking for a key, then
    for anything else, then for a second key, gives the same breaker exactly when the two
    keys are equal; a disabled registry gives none. *)
Theorem registry_one_breaker_per_key c before key between key' :
  let gets := foldl (λ r k, (registry_get r k).2) in
  let r1 := gets (registry_new c) before in
  let '(a, r2) := registry_get r1 key in
  let '(b, _) := registry_get (gets r2 between) key' in
  if enabled c then is_Some a ∧ (a = b ↔ key = key') else a = None ∧ b = None.
Proof.
  cbv zeta. set (r1 := foldl _ (registry_new c) before).
  assert (Hok1 : registry_ok r1) by (apply registry_gets_ok; split; intros ? ?; set_solver).
  assert (Hc1 : r_config r1 = c) by (unfold r1; by rewrite registry_gets_config).
  pose proof (registry_get_ok r1 key Hok1) as Hok2.
  destruct (registry_get r1 key) as [a r2] eqn:E1. simpl in Hok2.
  assert (Hc2 : r_config r2 = c).
  { rewrite <- Hc1. change r2 with (a, r2).2. rewrite <- E1. unfold registry_get.
    destruct (negb _); [done|]. by destruct (breakers r1 !! key). }
  set (r3 := foldl _ r2 between).
  assert (Hok3 : registry_ok r3) by (by apply registry_gets_ok).
  assert (Hc3 : r_config r3 = c) by (unfold r3; by rewrite registry_gets_config).
  unfold registry_get in E1 |- *. rewrite Hc1 in E1. rewrite Hc3.
  destruct (enabled c); simpl in *; [|injection E1 as <- _; done].
  assert (Ha : ∃ x, a = Some x ∧ breakers r2 !! key = Some x).
  { destruct (breakers r1 !! key) as [x|] eqn:E; injection E1 as <- <-.
    - by exists x.
    - eexists. split; [done|]. simpl. by rewrite lookup_insert_eq. }
  destruct Ha as (x & -> & Hx). assert (Hx3 : breakers r3 !! key = Some x) by (by apply registry_gets_stable).
  destruct (breakers r3 !! key') as [y|] eqn:E'.
  - split; [done|]. split; [intros [= <-]; by eapply Hok3|intros <-; congruence].
  - split; [done|]. split; [intros [= ->]|intros <-; congruence].
    apply Hok3 in Hx3. lia.
Qed.
