(* ===== verification/BreakerSafety.v ===== *)
(** What the circuit breaker guarantees: the behaviour of [check] and [record] on every
    branch, the invariants of sequential use, recovery after a cool-down, and what
    survives (and what does not) when calls interleave. *)
From Stdlib Require Import Floats.SpecFloat.
From S2P Require Import Prelude RustStr BreakerConfig Breaker.
Import Window.
Local Open Scope Z_scope.

#[local] Opaque sample trips evict error_rate.

Section Safety.
Variables (config0 : BreakerConfig) (instant_min baseline : Z).
Notation config := (config config0).
Notation check := (check config0 baseline).
Notation record := (record config0 instant_min baseline).
Notation millis := (millis baseline).
Notation sample := (sample config0 instant_min).
Notation trips := (trips config0).
Notation max_probes := (BreakerConfig.half_open_max_probes config).

Lemma max_probes_pos : 1 ≤ max_probes.
Proof. simpl. lia. Qed.

(** Time since the breaker opened, and since the last probe was admitted, as the code
    measures them. *)
Definition open_for (s : Shared) : Z :=
  from_millis (saturating_sub (millis (clock s)) (opened_at_millis s)).
Definition lease_over (s : Shared) : bool :=
  (open_duration config / NANOS_PER_MILLI) mod U64
  <=? saturating_sub (millis (clock s)) (probe_claimed_at_millis s).

(** ** Invariant of sequential use *)

Definition breaker_ok (s : Shared) : Prop :=
  (∃ b, st s = to_u8 b)
  ∧ is_open_fast s = (st s =? to_u8 Open)
  ∧ (st s ≠ to_u8 HalfOpen → half_open_probes s = 0)
  ∧ 0 ≤ half_open_probes s ≤ max_probes
  ∧ window_ok (window s).

Lemma init_ok : breaker_ok (with_clock baseline).
Proof.
  split; [by exists Closed|]. split; [done|]. split; [done|]. split; [simpl; lia|].
  exact (clear_ok new).
Qed.

Lemma wrap_usize_small v : 0 ≤ v < U64 → wrap_usize v = v.
Proof. apply Z.mod_small. Qed.

Lemma wrap_usize_undo v : 0 ≤ v < U64 → wrap_usize (wrap_usize (v + 1) + -1) = v.
Proof.
  intros Hv. unfold wrap_usize. rewrite Zplus_mod_idemp_l.
  replace (v + 1 + -1) with v by lia. by apply Z.mod_small.
Qed.

(** What the breaker does with a caller in [HalfOpen]. *)
Definition probe_result (s : Shared) : result unit Z * Shared :=
  let now := millis (clock s) in
  if half_open_probes s <? max_probes then
    (Ok tt, add_event (OnProbeAdmission true)
              (set_claimed now (set_probes (half_open_probes s + 1) s)))
  else if lease_over s then
    (Ok tt, add_event (OnProbeAdmission true) (set_claimed now s))
  else
    (Err (Z.min HALF_OPEN_PROBE_BACKOFF (open_duration config)),
     add_event (OnProbeAdmission false) s).

Hypothesis Hmax : max_probes < U64.

Lemma exec_probe s :
  0 ≤ half_open_probes s ≤ max_probes →
  exec (try_half_open_probe config0 baseline) s = probe_result s.
Proof.
  intros Hp. unfold probe_result, lease_over, try_half_open_probe. destruct s; cbn in Hp |- *.
  destruct (Z.ltb_spec half_open_probes (Z.max (BreakerConfig.half_open_max_probes config0) 1)); cbn.
  - rewrite wrap_usize_small; [done|]. simpl in *. lia.
  - rewrite wrap_usize_undo by (simpl in *; lia).
    destruct (_ <=? _); cbn; [|done]. by rewrite Z.eqb_refl.
Qed.

Lemma probe_first s :
  half_open_probes s = 0 →
  probe_result s = (Ok tt, add_event (OnProbeAdmission true)
                             (set_claimed (millis (clock s)) (set_probes 1 s))).
Proof.
  intros Hz. unfold probe_result. rewrite Hz.
  destruct (Z.ltb_spec 0 max_probes); [done|]. pose proof max_probes_pos. lia.
Qed.

(** Run a program up to its calls and its arithmetic. *)
Ltac run_prog :=
  cbn -[try_half_open_probe saturating_sub from_millis Breaker.millis Z.leb]; unfold id.

(** [check] run alone, on every branch. *)
Definition check_result (s : Shared) : result unit Z * Shared :=
  if negb (enabled config) then (Ok tt, s)
  else match from_u8 (st s) with
  | Closed => (Ok tt, s)
  | Open =>
      if open_duration config <=? open_for s then
        (Ok tt,
         add_event (OnProbeAdmission true)
           (set_claimed (millis (clock s)) (set_probes 1
             (add_event (OnStateChange Open HalfOpen ROpenElapsed)
               (set_fast false (set_st (to_u8 HalfOpen) s))))))
      else (Err (open_duration config - open_for s), s)
  | HalfOpen => probe_result s
  end.

Lemma exec_check s : breaker_ok s → exec check s = check_result s.
Proof.
  intros ([b Hb] & _ & Hz & Hp & _). unfold check_result, Breaker.check.
  destruct (negb (enabled config)); [done|].
  destruct b; rewrite Hb; run_prog; rewrite Hb; run_prog.
  - done.
  - unfold open_for. run_prog.
    destruct (Z.leb_spec (open_duration config0)
                (from_millis (saturating_sub (millis (clock s)) (opened_at_millis s)))); run_prog.
    + rewrite Hb. run_prog. specialize (Hz ltac:(rewrite Hb; done)).
      rewrite exec_probe by (cbn in *; lia). by rewrite probe_first.
    + f_equal. f_equal. unfold saturating_sub at 1. lia.
  - by apply exec_probe.
Qed.

(** [record] run alone, on every branch. *)
Definition outcome_failed (o : Outcome) : bool := match o with Failure => true | Success => false end.
Definition opened (s : Shared) : Shared :=
  set_fast true (set_probes 0 (set_opened (millis (clock s)) (set_st (to_u8 Open) s))).
Definition record_result (o : Outcome) (s : Shared) : Shared :=
  if negb (enabled config) then s
  else match from_u8 (st s) with
  | Closed =>
      let s' := set_window (sample (outcome_failed o) (clock s) (window s)) s in
      if trips (window s')
      then add_event (OnOutcome o Open) (add_event (OnStateChange Closed Open RTrip) (opened s'))
      else add_event (OnOutcome o Closed) s'
  | HalfOpen =>
      match o with
      | Failure => add_event (OnOutcome o Open)
                     (add_event (OnStateChange HalfOpen Open RProbeFailure) (opened s))
      | Success =>
          add_event (OnOutcome o Closed)
            (add_event (OnStateChange HalfOpen Closed RProbeSuccess)
              (set_fast false (set_probes 0 (set_window Window.new (set_st (to_u8 Closed) s)))))
      end
  | Open =>
      add_event (OnOutcome o Open) (set_window (sample (outcome_failed o) (clock s) (window s)) s)
  end.

Lemma exec_record o s :
  (∃ b, st s = to_u8 b) → exec (record o) s = (tt, record_result o s).
Proof.
  intros [b Hb]. unfold record_result, Breaker.record.
  destruct (negb (enabled config)); [done|]. destruct s. cbn in Hb. subst st. destruct b; cbn.
  - fold (outcome_failed o). destruct (trips _); reflexivity.
  - reflexivity.
  - destruct o; reflexivity.
Qed.

(** Unwrapped milliseconds: recorded times never lie in the future. *)
Definition raw_millis (now : Z) : Z := Z.max 0 (now - baseline) / NANOS_PER_MILLI.
Definition timely (s : Shared) : Prop :=
  opened_at_millis s ≤ raw_millis (clock s) ∧ probe_claimed_at_millis s ≤ raw_millis (clock s).

Lemma millis_le now : 0 ≤ millis now ≤ raw_millis now.
Proof.
  unfold Breaker.millis. fold (raw_millis now). split; [by apply Z.mod_pos_bound|].
  apply Z.mod_le; [|done]. unfold raw_millis, NANOS_PER_MILLI. apply Z.div_pos; lia.
Qed.

Lemma raw_millis_mono t d : 0 ≤ d → raw_millis t + d / NANOS_PER_MILLI ≤ raw_millis (Z.max t baseline + d).
Proof.
  intros Hd. unfold raw_millis, NANOS_PER_MILLI.
  pose proof (Z.div_mod (Z.max 0 (t - baseline)) 1000000 ltac:(lia)).
  pose proof (Z.mod_pos_bound (Z.max 0 (t - baseline)) 1000000 ltac:(lia)).
  pose proof (Z.div_mod d 1000000 ltac:(lia)). pose proof (Z.mod_pos_bound d 1000000 ltac:(lia)).
  apply Z.div_le_lower_bound; lia.
Qed.

Definition good (s : Shared) : Prop := breaker_ok s ∧ timely s ∧ baseline ≤ clock s.

Lemma probe_result_good s : good s → st s = to_u8 HalfOpen → good (probe_result s).2.
Proof.
  intros ((Hb & Hf & Hz & Hp & Hw) & (Ho & Hc) & Hbase) Hst. unfold probe_result.
  pose proof (millis_le (clock s)).
  destruct (Z.ltb_spec (half_open_probes s) max_probes); [|destruct (lease_over s)];
    (split; [split; [exact Hb|split; [exact Hf|split; [|split; [|exact Hw]]]]
            |split; [split; cbn; lia|exact Hbase]]); cbn in *; try lia; intros; congruence.
Qed.

Lemma check_result_good s : good s → good (check_result s).2.
Proof.
  intros Hg. unfold check_result. destruct (negb _); [done|].
  destruct (Hg) as (([b Hb] & Hf & Hz & Hp & Hw) & (Ho & Hc) & Hbase). rewrite Hb.
  destruct b; cbn [from_u8 to_u8 Z.eqb Pos.eqb]; [done| |].
  - destruct (_ <=? _); [|done]. pose proof max_probes_pos. pose proof (millis_le (clock s)).
    split; [split; [by exists HalfOpen|split; [done|split; [done|split; [cbn in *; lia|exact Hw]]]]|].
    split; [split; cbn; lia|exact Hbase].
  - by apply probe_result_good.
Qed.

Lemma opened_good s : good s → good (opened s).
Proof.
  intros ((Hb & Hf & Hz & Hp & Hw) & (Ho & Hc) & Hbase). pose proof (millis_le (clock s)).
  pose proof max_probes_pos.
  split; [split; [by exists Open|split; [done|split; [done|split; [cbn in *; lia|exact Hw]]]]|].
  split; [split; cbn; lia|exact Hbase].
Qed.

Lemma set_window_good s w : good s → window_ok w → good (set_window w s).
Proof.
  intros ((Hb & Hf & Hz & Hp & _) & Ht & Hbase) Hw.
  exact (conj (conj Hb (conj Hf (conj Hz (conj Hp Hw)))) (conj Ht Hbase)).
Qed.

Lemma add_event_good s e : good s → good (add_event e s).
Proof. intros Hg. exact Hg. Qed.

Lemma record_result_good o s : good s → good (record_result o s).
Proof.
  intros Hg. unfold record_result. destruct (negb _); [done|].
  destruct (Hg) as (([b Hb] & Hf & Hz & Hp & Hw) & (Ho & Hc) & Hbase). rewrite Hb.
  assert (Hs : good (set_window (sample (outcome_failed o) (clock s) (window s)) s))
    by (apply set_window_good; [done|by apply sample_ok]).
  destruct b; cbn [from_u8 to_u8 Z.eqb Pos.eqb].
  - destruct (trips _); repeat apply add_event_good; [by apply opened_good|done].
  - by apply add_event_good.
  - destruct o; repeat apply add_event_good; [|by apply opened_good].
    pose proof max_probes_pos.
    split; [split; [by exists Closed|split; [done|split; [done|split; [cbn in *; lia|exact (clear_ok new)]]]]|].
    by split.
Qed.

Lemma advance_good d s : 0 ≤ d → good s → good (advance d s).
Proof.
  intros Hd (Hok & (Ho & Hc) & Hbase). split; [done|].
  pose proof (raw_millis_mono (clock s) d Hd) as Hm. rewrite Z.max_l in Hm by lia.
  assert (0 ≤ d / NANOS_PER_MILLI) by (apply Z.div_pos; unfold NANOS_PER_MILLI; lia).
  split; [split; cbn; lia|cbn; lia].
Qed.

Lemma sstep_good s s' : sstep config0 instant_min baseline s s' → good s → good s'.
Proof.
  intros [c s0|d s0 Hd] Hg; [|by apply advance_good].
  destruct c as [|o|]; unfold body; rewrite exec_bind.
  - rewrite exec_check by apply Hg. destruct (check_result s0) as [r s1] eqn:E.
    change s1 with (r, s1).2. rewrite <- E. cbn [exec snd]. rewrite E. change s1 with (r, s1).2.
    rewrite <- E. by apply check_result_good.
  - rewrite exec_record by apply Hg. cbn [exec snd]. by apply record_result_good.
  - cbn [exec snd breaker_error_rate pbind load]. apply set_window_good; [done|].
    apply evict_ok, Hg.
Qed.

Lemma reachable_good s :
  rtc (sstep config0 instant_min baseline) (with_clock baseline) s → good s.
Proof.
  assert (Hi : good (with_clock baseline)).
  { split; [apply init_ok|]. unfold timely, raw_millis. cbn. rewrite Z.sub_diag. cbn.
    split; [by split|lia]. }
  revert Hi. generalize (with_clock baseline). intros s0 Hi Hr.
  induction Hr as [|x y z Hxy _ IH]; [done|]. apply IH. by eapply sstep_good.
Qed.

Lemma reachable_ok s :
  rtc (sstep config0 instant_min baseline) (with_clock baseline) s → breaker_ok s.
Proof. intros Hr. by apply reachable_good. Qed.

(** Under sequential use the breaker's fields always agree: the state is one of the
    three, the lock-free mirror says open exactly when the state is open, no probe slot is
    held outside half-open and never more than configured, and the window's cached failure
    count is the number of failures it holds, within its memory bound. *)
Theorem breaker_invariant s :
  rtc (sstep config0 instant_min baseline) (with_clock baseline) s →
  (∃ b, st s = to_u8 b ∧ is_open_fast s = bool_decide (b = Open)
        ∧ (b ≠ HalfOpen → half_open_probes s = 0))
  ∧ 0 ≤ half_open_probes s ≤ max_probes
  ∧ failures (window s) = count (entries (window s))
  ∧ (length (entries (window s)) ≤ MAX_WINDOW_ENTRIES)%nat.
Proof.
  intros ([b Hb] & Hf & Hz & Hp & Hw)%reachable_ok. split; [|by destruct Hw].
  exists b. rewrite Hf, Hb. split; [done|]. split; [by destruct b|].
  intros Hne. apply Hz. rewrite Hb. by destruct b.
Qed.

(** Each call, run alone from any reachable state, does what the state machine says on
    every branch: [check] admits, rejects with the remaining cool-down, or turns a
    cooled-down open breaker half-open and claims its first probe; [record] samples the
    window and trips exactly when enough samples reach the error threshold, and resolves a
    probe by closing or reopening. *)
Theorem calls_refine_state_machine s o :
  rtc (sstep config0 instant_min baseline) (with_clock baseline) s →
  exec check s = check_result s ∧ exec (record o) s = (tt, record_result o s).
Proof.
  intros Hok%reachable_ok. split; [by apply exec_check|]. apply exec_record. by destruct Hok.
Qed.

(** C33: The breaker cannot be stranded: from every reachable state, also one where a probe
    was admitted and its owner never reported back, a check made one cool-down (and a
    clock granule) later is admitted. *)
Theorem breaker_recovers s d :
  rtc (sstep config0 instant_min baseline) (with_clock baseline) s →
  0 ≤ open_duration config → open_duration config + NANOS_PER_MILLI ≤ d →
  raw_millis (clock s + d) < U64 →
  (exec check (advance d s)).1 = Ok tt.
Proof.
  intros Hr Hod Hd Hwrap. apply reachable_good in Hr as (Hok & (Ho & Hc) & Hbase).
  assert (Hd0 : 0 ≤ d) by (unfold NANOS_PER_MILLI in *; lia).
  assert (Hok' : breaker_ok (advance d s)) by exact Hok.
  rewrite exec_check by exact Hok'. unfold check_result.
  destruct (negb _); [done|].
  pose proof (raw_millis_mono (clock s) d Hd0) as Hm. rewrite Z.max_l in Hm by lia.
  assert (Hms : millis (clock s + d) = raw_millis (clock s + d)).
  { unfold Breaker.millis. fold (raw_millis (clock s + d)). apply Z.mod_small.
    split; [|done]. unfold raw_millis, NANOS_PER_MILLI. apply Z.div_pos; lia. }
  assert (Hod' : open_duration config ≤ d / NANOS_PER_MILLI * NANOS_PER_MILLI).
  { unfold NANOS_PER_MILLI in *. pose proof (Z.div_mod d 1000000 ltac:(lia)).
    pose proof (Z.mod_pos_bound d 1000000 ltac:(lia)). lia. }
  assert (Hlease : (open_duration config / NANOS_PER_MILLI) mod U64 ≤ d / NANOS_PER_MILLI).
  { etransitivity; [apply Z.mod_le; [apply Z.div_pos; unfold NANOS_PER_MILLI; lia|done]|].
    apply Z.div_le_mono; unfold NANOS_PER_MILLI in *; lia. }
  destruct (from_u8 (st (advance d s))); [done| |].
  - unfold open_for, from_millis, saturating_sub. cbn [advance clock set_clock opened_at_millis].
    rewrite Hms. destruct (Z.leb_spec (open_duration config)
      (Z.max 0 (raw_millis (clock s + d) - opened_at_millis s) * NANOS_PER_MILLI)); [done|].
    unfold NANOS_PER_MILLI in *. lia.
  - unfold probe_result. destruct (_ <? _); [done|]. unfold lease_over, saturating_sub.
    cbn [advance clock set_clock probe_claimed_at_millis]. rewrite Hms.
    destruct (Z.leb_spec ((open_duration config / NANOS_PER_MILLI) mod U64)
      (Z.max 0 (raw_millis (clock s + d) - probe_claimed_at_millis s))); [done|]. lia.
Qed.
End Safety.

(** ** Interleaved use *)

(** A program keeps [P] at each of its atomic steps. *)
Fixpoint keeps {A} (P : Shared → Prop) (p : prog A) : Prop :=
  match p with
  | Ret _ => True
  | Step upd k => ∀ s, P s → P (upd s) ∧ keeps P (k s)
  end.

Lemma keeps_bind {A B} P (p : prog A) (k : A → prog B) :
  keeps P p → (∀ a, keeps P (k a)) → keeps P (pbind p k).
Proof.
  intros Hp Hk. induction p as [a|upd c IH]; simpl in *; [apply Hk|].
  intros s Hs. destruct (Hp s Hs) as [H1 H2]. split; [done|by apply IH].
Qed.

(** What holds at every moment, whatever the interleaving. *)
Definition always_ok (s : Shared) : Prop := (∃ b, st s = to_u8 b) ∧ window_ok (window s).

Section Concurrent.
Variables (config0 : BreakerConfig) (instant_min baseline : Z).

Lemma keeps_load {A} (f : Shared → A) : keeps always_ok (load f).
Proof. intros s Hs. by split. Qed.
Lemma keeps_store upd : (∀ s, always_ok s → always_ok (upd s)) → keeps always_ok (store upd).
Proof. intros Hu s Hs. split; [by apply Hu|done]. Qed.
Lemma keeps_observe e : keeps always_ok (observe e).
Proof. by apply keeps_store. Qed.
Lemma keeps_observe_change a b r : keeps always_ok (observe_change a b r).
Proof. unfold observe_change. destruct (bool_decide _); [done|apply keeps_observe]. Qed.
Lemma keeps_fetch_add n : keeps always_ok (probes_fetch_add n).
Proof. intros s Hs. by split. Qed.
Lemma keeps_cas_claimed a b : keeps always_ok (cas_claimed a b).
Proof. intros s Hs. split; [|done]. by destruct (_ =? _). Qed.
Lemma keeps_cas_state a b : keeps always_ok (cas_state a b).
Proof. intros s [Hst Hw]. split; [|done]. destruct (_ =? _); [|done]. split; [by exists b|done]. Qed.
Lemma keeps_set_st b : keeps always_ok (store (set_st (to_u8 b))).
Proof. apply keeps_store. intros s [_ Hw]. split; [by exists b|done]. Qed.
Lemma keeps_locked b now : keeps always_ok (locked_sample config0 instant_min b now).
Proof. intros s [Hst Hw]. split; [|done]. split; [done|by apply sample_ok]. Qed.

#[local] Hint Resolve keeps_load keeps_store keeps_observe keeps_observe_change keeps_fetch_add
  keeps_cas_claimed keeps_cas_state keeps_set_st keeps_locked : medley.

(** Walk through a program, step by step. *)
Ltac keep :=
  repeat first
    [ solve [eauto with medley]
    | apply keeps_bind; [|intros ?]
    | exact I
    | match goal with |- keeps _ (if ?b then _ else _) => destruct b end
    | match goal with |- keeps _ (match ?x with _ => _ end) => destruct x end ].

Lemma keeps_probe : keeps always_ok (try_half_open_probe config0 baseline).
Proof. unfold try_half_open_probe, elapsed_millis. keep. Qed.
Lemma keeps_trip a r : keeps always_ok (trip baseline a r).
Proof. unfold trip, elapsed_millis. keep. Qed.
Lemma keeps_close a r : keeps always_ok (close a r).
Proof.
  unfold close. keep. apply keeps_store. intros s [Hst _]. split; [done|exact (clear_ok new)].
Qed.
#[local] Hint Resolve keeps_probe keeps_trip keeps_close : medley.

Lemma keeps_body c : keeps always_ok (body config0 instant_min baseline c).
Proof.
  destruct c as [|o|]; unfold body.
  - unfold check, check_open, state, elapsed_millis. keep.
  - unfold record, state. keep.
  - unfold breaker_error_rate. keep. intros s [Hst Hw]. split; [|done]. split; [done|].
    by apply evict_ok.
Qed.

(** However the calls of any number of threads interleave, and however the clock moves,
    the state byte is always one of the three states and the window under its mutex is
    always exact and bounded. *)
Theorem interleaving_safe s ts :
  rtc (cstep config0 instant_min baseline) (with_clock baseline, []) (s, ts) →
  (∃ b, st s = to_u8 b) ∧ failures (window s) = count (entries (window s))
  ∧ (length (entries (window s)) ≤ MAX_WINDOW_ENTRIES)%nat.
Proof.
  assert (Hinv : ∀ x y, rtc (cstep config0 instant_min baseline) x y →
            always_ok x.1 → Forall (keeps always_ok) x.2 → always_ok y.1).
  { induction 1 as [|x y z Hxy _ IH]; [done|]. intros H1 H2.
    destruct Hxy as [s0 ts0 i upd k Hi|s0 ts0 c|s0 ts0 d Hd]; apply IH; simpl in *.
    - by apply (proj1 (Forall_lookup _ _) H2 i _ Hi).
    - apply Forall_insert; [done|]. by apply (proj1 (Forall_lookup _ _) H2 i _ Hi).
    - done.
    - apply Forall_app. split; [done|]. repeat constructor. apply keeps_body.
    - done.
    - done. }
  intros Hr. apply Hinv in Hr as [Hst [H1 H2]]; [done| |constructor].
  split; [by exists Closed|exact (clear_ok new)].
Qed.
End Concurrent.

(** ** Schedules: executable interleavings *)

Inductive Move := Spawn (c : Call) | Run (i : nat) | Tick (d : Z).

Section Schedule.
Variables (config0 : BreakerConfig) (instant_min baseline : Z).

Definition move (m : Move) (x : Shared * list (prog Reply)) : Shared * list (prog Reply) :=
  let '(s, ts) := x in
  match m with
  | Spawn c => (s, ts ++ [body config0 instant_min baseline c])
  | Run i =>
      match ts !! i with
      | Some (Step upd k) => (upd s, <[i := k s]> ts)
      | _ => (s, ts)
      end
  | Tick d => (advance (Z.max 0 d) s, ts)
  end.
Definition schedule (ms : list Move) : Shared * list (prog Reply) :=
  foldl (λ x m, move m x) (with_clock baseline, []) ms.

Lemma schedule_reachable ms :
  rtc (cstep config0 instant_min baseline) (with_clock baseline, []) (schedule ms).
Proof.
  unfold schedule. generalize (with_clock baseline, @nil (prog Reply)).
  induction ms as [|m ms IH]; intros x; simpl; [done|]. etransitivity; [|apply IH].
  destruct x as [s ts], m as [c|i|d]; simpl.
  - apply rtc_once. constructor.
  - destruct (ts !! i) as [[a|upd k]|] eqn:E; [done| |done]. apply rtc_once. by constructor.
  - apply rtc_once. constructor. lia.
Qed.
End Schedule.

Definition finished (p : prog Reply) : bool := match p with Ret _ => true | _ => false end.

(** One failure trips, no cool-down: the shortest way to the half-open state. *)
Definition eager : BreakerConfig := mkConfig (from_secs 60) 1 f64_half 0 1 ∅ true.
Definition steps (i n : nat) : list Move := replicate n (Run i).

Definition to_half_open : list Move :=
  Spawn (CallRecord Failure) :: steps 0 12 ++ Spawn CallCheck :: steps 1 12.

(** A successful and a failed report race: the failing thread stores [Open], the succeeding
    one runs [close] completely, the failing one finishes [trip]. *)
Definition racing_reports : list Move :=
  to_half_open ++ [Spawn (CallRecord Failure); Spawn (CallRecord Success)]
  ++ steps 2 2 ++ steps 3 2 ++ steps 2 1 ++ steps 3 12 ++ steps 2 12.

(** Without exclusion between [trip] and [close] the lock-free mirror can be left wrong
    for good: some interleaving of two finished reports ends with every thread done, the
    state closed, and [is_open] answering true. *)
Theorem mirror_can_stay_stale :
  ∃ s ts, rtc (cstep eager 0 0) (with_clock 0, []) (s, ts)
    ∧ forallb finished ts = true ∧ st s = to_u8 Closed ∧ is_open_fast s = true.
Proof.
  exists (schedule eager 0 0 racing_reports).1, (schedule eager 0 0 racing_reports).2.
  split; [rewrite <- surjective_pairing; apply schedule_reachable|].
  vm_compute. auto.
Qed.

(** The probe count is not always zero while the breaker is open: a rejected caller that
    releases its slot after a trip has reset the count leaves it at the largest [usize]. *)
Theorem probe_count_can_underflow :
  ∃ s ts, rtc (cstep (mkConfig (from_secs 60) 1 f64_half (from_secs 10) 1 ∅ true) 0 0)
            (with_clock 0, []) (s, ts)
    ∧ forallb finished ts = true ∧ st s = to_u8 Open ∧ half_open_probes s = U64 - 1.
Proof.
  pose (cfg := mkConfig (from_secs 60) 1 f64_half (from_secs 10) 1 ∅ true).
  pose (ms := Spawn (CallRecord Failure) :: steps 0 12 ++ Tick (from_secs 11) :: Spawn CallCheck
     :: steps 1 12 ++ [Spawn CallCheck; Spawn (CallRecord Failure)]
     ++ steps 2 3 ++ steps 3 12 ++ steps 2 12).
  exists (schedule cfg 0 0 ms).1, (schedule cfg 0 0 ms).2.
  split; [rewrite <- surjective_pairing; apply schedule_reachable|].
  vm_compute. auto.
Qed.

(** ** Witnesses *)

(** The server preset after ten failures: open. *)
Definition fail_once (s : Shared) : Shared :=
  (exec (body server_config 0 0 (CallRecord Failure)) s).2.
Definition tripped : Shared := Nat.iter 10 fail_once (with_clock 0).

Lemma iter_reachable n :
  rtc (sstep server_config 0 0) (with_clock 0) (Nat.iter n fail_once (with_clock 0)).
Proof.
  induction n as [|n IH]; simpl; [done|]. eapply rtc_r; [exact IH|].
  exact (s_call server_config 0 0 (CallRecord Failure) _).
Qed.

Lemma breaker_invariant_witness : st tripped = to_u8 Open ∧ is_open_fast tripped = true
  ∧ failures (window tripped) = count (entries (window tripped)).
Proof.
  split; [vm_compute; reflexivity|]. split; [vm_compute; reflexivity|].
  apply (breaker_invariant server_config 0 0); [vm_compute; reflexivity|apply (iter_reachable 10)].
Defined.

Lemma calls_refine_state_machine_witness :
  exec (check server_config 0) tripped = check_result server_config 0 tripped.
Proof.
  apply (calls_refine_state_machine server_config 0 0 ltac:(vm_compute; reflexivity) tripped Success).
  apply (iter_reachable 10).
Defined.

Lemma breaker_recovers_witness :
  (exec (check server_config 0) tripped).1 = Err (from_secs 10)
  ∧ (exec (check server_config 0) (advance (from_secs 11) tripped)).1 = Ok tt.
Proof.
  split; [vm_compute; reflexivity|].
  apply (breaker_recovers server_config 0 0).
  - vm_compute. reflexivity.
  - apply (iter_reachable 10).
  - vm_compute. discriminate.
  - vm_compute. discriminate.
  - vm_compute. reflexivity.
Defined.

Lemma interleaving_safe_witness :
  st (schedule eager 0 0 racing_reports).1 = to_u8 Closed
  ∧ failures (window (schedule eager 0 0 racing_reports).1)
    = count (entries (window (schedule eager 0 0 racing_reports).1)).
Proof.
  split; [vm_compute; reflexivity|].
  apply (interleaving_safe eager 0 0 _ (schedule eager 0 0 racing_reports).2).
  rewrite <- surjective_pairing. apply schedule_reachable.
Defined.
