(* ===== verification/RouteTypes.v ===== *)
(** The data of native subagent routing
    (crates/codegen/xai-grok-subagent-resolution/src/native_route/types.rs): requests,
    rejections, receipts and their canonical payload, secret screening, capability
    discovery. *)
From Stdlib Require Import String Ascii.
From S2P Require Import Prelude RustStr Json.

Definition SCHEMA_VERSION : N := 1.
Definition CAPABILITY_VERSION : str := lit "v1".
Definition INSPECT_SCHEMA : str := lit "medley.native-subagent-route.inspect/v1".
Definition RECEIPT_SCHEMA : str := lit "medley.native-route-receipt.v1".

(** ** Capabilities *)

Definition CAP_EXACT_MODEL : str := lit "medley.native-exact-model.v1".
Definition CAP_ORDERED_CANDIDATES : str := lit "medley.native-ordered-candidates.v1".
Definition CAP_ROUTE_RECEIPT : str := lit "medley.native-route-receipt.v1".
Definition CAP_MODEL_FAMILY_METADATA : str := lit "medley.native-model-family-metadata.v1".
Definition CAP_REPLAY_SAFE_FALLBACK : str := lit "medley.native-replay-safe-fallback.v1".
Definition CAPABILITY_IDS : list str :=
  [CAP_EXACT_MODEL; CAP_ORDERED_CANDIDATES; CAP_ROUTE_RECEIPT; CAP_MODEL_FAMILY_METADATA;
   CAP_REPLAY_SAFE_FALLBACK].

Inductive CapabilityState := Supported | Unsupported | Unavailable | Incompatible | UnknownState.

Definition implemented_state (id : str) : CapabilityState :=
  if one_of id [CAP_EXACT_MODEL; CAP_ORDERED_CANDIDATES; CAP_ROUTE_RECEIPT] then Supported
  else if one_of id [CAP_MODEL_FAMILY_METADATA; CAP_REPLAY_SAFE_FALLBACK] then Unsupported
  else UnknownState.

Definition implemented_reason (id : str) : str :=
  if str_eqb id CAP_EXACT_MODEL then lit "exact catalog routes fail closed; never inherit parent"
  else if str_eqb id CAP_ORDERED_CANDIDATES
  then lit "deterministic offline first-eligible catalog selection"
  else if str_eqb id CAP_ROUTE_RECEIPT then lit "secret-free immutable receipt + digest"
  else if str_eqb id CAP_MODEL_FAMILY_METADATA then lit "not implemented in this slice"
  else if str_eqb id CAP_REPLAY_SAFE_FALLBACK
  then lit "admission API is fail-closed and tested; live sampler auto-failover is not wired"
  else lit "unknown capability".

Record DiscoveredCapability := mkDiscovered {
  capability_id : str;
  cap_state : CapabilityState;
  cap_version : option str;
  cap_reason : str
}.

Definition discover_capabilities : list DiscoveredCapability :=
  (λ id, mkDiscovered id (implemented_state id)
           (match implemented_state id with Supported => Some CAPABILITY_VERSION | _ => None end)
           (implemented_reason id)) <$> CAPABILITY_IDS.

(** ** Requests *)

Inductive NativeModelSelection :=
| Inherit
| Exact (catalog_id : str)
| OrderedCandidates (catalog_ids : list str).

Definition mode_name (s : NativeModelSelection) : str :=
  match s with
  | Inherit => lit "inherit"
  | Exact _ => lit "exact"
  | OrderedCandidates _ => lit "ordered_candidates"
  end.
Definition requested_catalog_ids_of (s : NativeModelSelection) : list str :=
  match s with
  | Inherit => []
  | Exact id => [id]
  | OrderedCandidates ids => ids
  end.

Record CapabilityRequirements := mkReq {
  structured_output : bool;
  minimum_context_tokens : option N;
  required_harness : option str;
  local_only : bool;
  required_named_capabilities : list str
}.

Record ResumePin := mkPin {
  source_catalog_id : str;
  source_receipt_digest : option str;
  source_route_key : option str
}.

Record NativeSubagentRouteRequest := mkRequest {
  schema_version : N;
  selection : NativeModelSelection;
  required_capabilities : CapabilityRequirements;
  capability_ceiling : option str;
  consumer_policy_id : option str;
  consumer_policy_digest : option str;
  parent_catalog_id : option str;
  parent_session_id : option str;
  child_session_id : option str;
  resume : option ResumePin
}.

Inductive WorkerRoute :=
| Native (request : NativeSubagentRouteRequest)
| ExternalExecutor (descriptor : str).

(** ** Rejections *)

Inductive RejectionCode :=
| ExactModelMissing | RouteUnready | CredentialMissing | CapabilityUnknown | CapabilityMismatch
| HarnessIncompatible | LocalOnlyViolation | AccessScopeBlocked | CrossBillingBlocked
| UnsupportedContract | IncompatibleSchemaCode | ResumeRoutePinned | FallbackReplayUnsafe
| StaleGeneration | EmptyCandidates | ConflictingSyntax | UnknownReadiness | DuplicateRequest.
Global Instance RejectionCode_eq_dec : EqDecision RejectionCode.
Proof. solve_decision. Defined.

Definition code_str (c : RejectionCode) : str :=
  match c with
  | ExactModelMissing => lit "exact_model_missing"
  | RouteUnready => lit "route_unready"
  | CredentialMissing => lit "credential_missing"
  | CapabilityUnknown => lit "capability_unknown"
  | CapabilityMismatch => lit "capability_mismatch"
  | HarnessIncompatible => lit "harness_incompatible"
  | LocalOnlyViolation => lit "local_only_violation"
  | AccessScopeBlocked => lit "access_scope_blocked"
  | CrossBillingBlocked => lit "cross_billing_blocked"
  | UnsupportedContract => lit "unsupported_contract"
  | IncompatibleSchemaCode => lit "incompatible_schema"
  | ResumeRoutePinned => lit "resume_route_pinned"
  | FallbackReplayUnsafe => lit "fallback_replay_unsafe"
  | StaleGeneration => lit "stale_generation"
  | EmptyCandidates => lit "empty_candidates"
  | ConflictingSyntax => lit "conflicting_syntax"
  | UnknownReadiness => lit "unknown_readiness"
  | DuplicateRequest => lit "duplicate_request"
  end.

Global Instance code_str_inj : Inj (=) (=) code_str.
Proof. intros [] []; (reflexivity || (vm_compute; discriminate)). Qed.

Record RejectedCandidate := mkRejected {
  rc_catalog_id : str;
  rc_wire_model : option str;
  rc_route_key : option str;
  reason_code : RejectionCode;
  rc_message : str
}.

Inductive NativeRouteError :=
| IncompatibleSchema (v : N)
| Rejected (code : RejectionCode) (msg : str)
| ExternalExecutorUnsupported
| SecretMaterial.

Definition error_code (e : NativeRouteError) : RejectionCode :=
  match e with
  | IncompatibleSchema _ => IncompatibleSchemaCode
  | Rejected code _ => code
  | ExternalExecutorUnsupported | SecretMaterial => UnsupportedContract
  end.

(** ** Secret screening *)

Definition SECRET_NEEDLES : list str :=
  [lit "sk-"; lit "bearer "; lit "acct_"; lit "-----begin "; lit "api_key"; lit "authorization";
   lit "x-api-key"].

(** A text without credential markers, in any ASCII case. *)
Definition secret_free (value : str) : bool :=
  negb (existsb (λ needle, contains needle (to_ascii_lowercase value)) SECRET_NEEDLES).

Definition reject_secret_text (value label : str) : result unit NativeRouteError :=
  if existsb (λ needle, contains needle (to_ascii_lowercase value)) SECRET_NEEDLES
  then Err (Rejected UnsupportedContract (label ++ lit " contains forbidden material"))
  else Ok tt.
Definition reject_secret_opt (value : option str) (label : str) : result unit NativeRouteError :=
  match value with
  | Some text => reject_secret_text text label
  | None => Ok tt
  end.

(** ** Receipts *)

Record RouteReceipt := mkReceipt {
  r_schema : str;
  r_schema_version : N;
  r_parent_session_id : option str;
  r_child_session_id : option str;
  selection_mode : str;
  requested_catalog_ids : list str;
  r_consumer_policy_id : option str;
  r_consumer_policy_digest : option str;
  selected_catalog_id : str;
  selected_wire_model : str;
  r_route_key : str;
  r_access_profile : str;
  r_harness : option str;
  r_capability_ceiling : option str;
  r_required_capabilities : CapabilityRequirements;
  selection_provenance : str;
  rejected_candidates : list RejectedCandidate;
  route_digest : str;
  attempt : N;
  created_unix_ms : N;
  resume_source_receipt : option str
}.

(** [Value::Number(n.into())] *)
Definition jnum (n : N) : json := JNumber (Z.of_N n).

(** The nested objects are [serde_json::Map]s, whose key order depends on the
    [preserve_order] feature; the payload itself is a [BTreeMap]. *)
Section Canonical.
Variable preserve_order : bool.

Definition canonical_requirements (req : CapabilityRequirements) : json :=
  let item := [] in
  let item := map_insert preserve_order (lit "structured_output") (JBool (structured_output req)) item in
  let item := map_insert preserve_order (lit "local_only") (JBool (local_only req)) item in
  let item := map_insert_opt preserve_order (lit "minimum_context_tokens")
                (jnum <$> minimum_context_tokens req) item in
  let item := map_insert_opt preserve_order (lit "required_harness")
                (JString <$> required_harness req) item in
  let item := map_insert_opt preserve_order (lit "required_named_capabilities")
                (match required_named_capabilities req with
                 | [] => None
                 | names => Some (JArray (JString <$> names))
                 end) item in
  JObject item.

Definition canonical_rejected (row : RejectedCandidate) : json :=
  let item := [] in
  let item := map_insert preserve_order (lit "catalog_id") (JString (rc_catalog_id row)) item in
  let item := map_insert preserve_order (lit "reason_code") (JString (code_str (reason_code row))) item in
  let item := map_insert_opt preserve_order (lit "wire_model") (JString <$> rc_wire_model row) item in
  let item := map_insert_opt preserve_order (lit "route_key") (JString <$> rc_route_key row) item in
  let item := map_insert preserve_order (lit "message") (JString (rc_message row)) item in
  JObject item.

Definition canonical_payload (r : RouteReceipt) : list (str * json) :=
  let map := [] in
  let map := obj_insert (lit "schema") (JString (r_schema r)) map in
  let map := obj_insert (lit "schema_version") (jnum (r_schema_version r)) map in
  let map := obj_insert (lit "selection_mode") (JString (selection_mode r)) map in
  let map := obj_insert (lit "requested_catalog_ids")
               (JArray (JString <$> requested_catalog_ids r)) map in
  let map := obj_insert (lit "selected_catalog_id") (JString (selected_catalog_id r)) map in
  let map := obj_insert (lit "selected_wire_model") (JString (selected_wire_model r)) map in
  let map := obj_insert (lit "route_key") (JString (r_route_key r)) map in
  let map := obj_insert (lit "access_profile") (JString (r_access_profile r)) map in
  let map := obj_insert (lit "selection_provenance") (JString (selection_provenance r)) map in
  let map := obj_insert (lit "rejected_candidates")
               (JArray (canonical_rejected <$> rejected_candidates r)) map in
  let map := obj_insert (lit "attempt") (jnum (attempt r)) map in
  let map := obj_insert_opt (lit "consumer_policy_id") (JString <$> r_consumer_policy_id r) map in
  let map := obj_insert_opt (lit "consumer_policy_digest") (JString <$> r_consumer_policy_digest r) map in
  let map := obj_insert_opt (lit "parent_session_id") (JString <$> r_parent_session_id r) map in
  let map := obj_insert_opt (lit "child_session_id") (JString <$> r_child_session_id r) map in
  let map := obj_insert_opt (lit "harness") (JString <$> r_harness r) map in
  let map := obj_insert_opt (lit "capability_ceiling") (JString <$> r_capability_ceiling r) map in
  let map := obj_insert (lit "required_capabilities")
               (canonical_requirements (r_required_capabilities r)) map in
  let map := obj_insert_opt (lit "resume_source_receipt") (JString <$> resume_source_receipt r) map in
  map.
End Canonical.

(** ** The payload determines the receipt *)

Global Instance JString_inj : Inj (=) (=) JString.
Proof. congruence. Qed.
Global Instance jnum_inj : Inj (=) (=) jnum.
Proof. unfold jnum. intros a b [= H]. lia. Qed.

(** The entries of the three kinds of object, in the order they are inserted. *)
Definition requirement_fields (req : CapabilityRequirements) : list (str * option json) :=
  [(lit "structured_output", Some (JBool (structured_output req)));
   (lit "local_only", Some (JBool (local_only req)));
   (lit "minimum_context_tokens", jnum <$> minimum_context_tokens req);
   (lit "required_harness", JString <$> required_harness req);
   (lit "required_named_capabilities",
    match required_named_capabilities req with
    | [] => None
    | names => Some (JArray (JString <$> names))
    end)].
Definition rejected_fields (row : RejectedCandidate) : list (str * option json) :=
  [(lit "catalog_id", Some (JString (rc_catalog_id row)));
   (lit "reason_code", Some (JString (code_str (reason_code row))));
   (lit "wire_model", JString <$> rc_wire_model row);
   (lit "route_key", JString <$> rc_route_key row);
   (lit "message", Some (JString (rc_message row)))].
Definition receipt_fields (po : bool) (r : RouteReceipt) : list (str * option json) :=
  [(lit "schema", Some (JString (r_schema r)));
   (lit "schema_version", Some (jnum (r_schema_version r)));
   (lit "selection_mode", Some (JString (selection_mode r)));
   (lit "requested_catalog_ids", Some (JArray (JString <$> requested_catalog_ids r)));
   (lit "selected_catalog_id", Some (JString (selected_catalog_id r)));
   (lit "selected_wire_model", Some (JString (selected_wire_model r)));
   (lit "route_key", Some (JString (r_route_key r)));
   (lit "access_profile", Some (JString (r_access_profile r)));
   (lit "selection_provenance", Some (JString (selection_provenance r)));
   (lit "rejected_candidates", Some (JArray (canonical_rejected po <$> rejected_candidates r)));
   (lit "attempt", Some (jnum (attempt r)));
   (lit "consumer_policy_id", JString <$> r_consumer_policy_id r);
   (lit "consumer_policy_digest", JString <$> r_consumer_policy_digest r);
   (lit "parent_session_id", JString <$> r_parent_session_id r);
   (lit "child_session_id", JString <$> r_child_session_id r);
   (lit "harness", JString <$> r_harness r);
   (lit "capability_ceiling", JString <$> r_capability_ceiling r);
   (lit "required_capabilities", Some (canonical_requirements po (r_required_capabilities r)));
   (lit "resume_source_receipt", JString <$> resume_source_receipt r)].

(** Distinctness of literal keys, by evaluation. *)
Ltac nodup_keys := apply (bool_decide_unpack _); vm_compute; exact I.

Lemma canonical_requirements_inj po r1 r2 :
  canonical_requirements po r1 = canonical_requirements po r2 → r1 = r2.
Proof.
  intros [= Hm].
  assert (Hf : requirement_fields r1 = requirement_fields r2).
  { apply (build_inj (map_insert_opt po) (map_get_insert_opt po)); [reflexivity|nodup_keys|exact Hm]. }
  unfold requirement_fields in Hf. injection Hf as H1 H2 H3 H4 H5.
  apply (inj (fmap jnum)) in H3. apply (inj (fmap JString)) in H4.
  destruct r1 as [a1 b1 c1 d1 e1], r2 as [a2 b2 c2 d2 e2]; simpl in *. f_equal; try done.
  destruct e1 as [|x1 e1], e2 as [|x2 e2]; try done. injection H5 as -> H5. f_equal.
  by apply (inj (fmap JString)).
Qed.

Lemma canonical_rejected_inj po r1 r2 :
  canonical_rejected po r1 = canonical_rejected po r2 → r1 = r2.
Proof.
  intros [= Hm].
  assert (Hf : rejected_fields r1 = rejected_fields r2).
  { apply (build_inj (map_insert_opt po) (map_get_insert_opt po)); [reflexivity|nodup_keys|exact Hm]. }
  unfold rejected_fields in Hf. injection Hf as H1 H2 H3 H4 H5.
  apply (inj code_str) in H2. apply (inj (fmap JString)) in H3, H4.
  destruct r1, r2; simpl in *. congruence.
Qed.
Global Instance canonical_rejected_Inj po : Inj (=) (=) (canonical_rejected po).
Proof. intros r1 r2. apply canonical_rejected_inj. Qed.

(** Forget what the digest does not cover. *)
Definition undigested (r : RouteReceipt) : RouteReceipt :=
  mkReceipt (r_schema r) (r_schema_version r) (r_parent_session_id r) (r_child_session_id r)
    (selection_mode r) (requested_catalog_ids r) (r_consumer_policy_id r)
    (r_consumer_policy_digest r) (selected_catalog_id r) (selected_wire_model r) (r_route_key r)
    (r_access_profile r) (r_harness r) (r_capability_ceiling r) (r_required_capabilities r)
    (selection_provenance r) (rejected_candidates r) [] (attempt r) 0 (resume_source_receipt r).

(** The digested payload is faithful: it covers every field of a receipt but the digest
    and the time of creation, so two receipts with the same canonical payload are the same
    up to those two, whichever way the JSON library orders nested keys. *)
Theorem canonical_payload_faithful po r1 r2 :
  canonical_payload po r1 = canonical_payload po r2 ↔ undigested r1 = undigested r2.
Proof.
  split.
  - intros Hm.
    assert (Hf : receipt_fields po r1 = receipt_fields po r2).
    { apply (build_inj obj_insert_opt obj_get_insert_opt); [reflexivity|nodup_keys|exact Hm]. }
    unfold receipt_fields in Hf.
    injection Hf as H1 H2 H3 H4 H5 H6 H7 H8 H9 H10 H11 H12 H13 H14 H15 H16 H17 H18 H19.
    apply (inj Z.of_N) in H2, H11. apply (inj (fmap JString)) in H4, H12, H13, H14, H15, H16, H17, H19.
    apply (inj (fmap (canonical_rejected po))) in H10.
    pose proof (canonical_requirements_inj po (r_required_capabilities r1) (r_required_capabilities r2)
      (f_equal JObject H18)).
    clear Hm H18. unfold undigested. f_equal; assumption.
  - intros Hu. change (canonical_payload po (undigested r1) = canonical_payload po (undigested r2)).
    by rewrite Hu.
Qed.

(** The nested objects of a payload are sorted only without [preserve_order]. *)
Example nested_key_order_depends_on_feature :
  canonical_rejected false (mkRejected (lit "a") None None RouteUnready (lit "m"))
  ≠ canonical_rejected true (mkRejected (lit "a") None None RouteUnready (lit "m")).
Proof. vm_compute. discriminate. Qed.
