(* ===== verification/RouteResolve.v ===== *)
(** Native route resolution and replay-safe fallback
    (crates/codegen/xai-grok-subagent-resolution/src/native_route/resolve.rs and
    inspect.rs).

    JSON serialization and SHA-256 are not part of the repository: they are the interface
    [RouteEnv]. *)
From Stdlib Require Import String Ascii.
From S2P Require Import Prelude RustStr Json RouteTypes.

Record SyntheticCatalogEntry := mkEntry {
  catalog_id : str;
  wire_model : str;
  route_key : str;
  access_profile : str;
  ready : bool;
  unknown_readiness : bool;
  e_local_only : bool;
  harness : option str;
  context_tokens : option N;
  e_structured_output : bool;
  named_capabilities : list str
}.
Definition SyntheticCatalog : Type := list SyntheticCatalogEntry.

Definition catalog_get (catalog : SyntheticCatalog) (id : str) : option SyntheticCatalogEntry :=
  List.find (λ entry, str_eqb (catalog_id entry) id) catalog.

Record NativeSubagentRouteResult := mkResult {
  res_catalog_id : str;
  res_wire_model : str;
  res_route_key : str;
  receipt : RouteReceipt;
  res_rejected : list RejectedCandidate
}.

(** ** Validation *)

Fixpoint reject_secrets (values : list str) (label : str) : result unit NativeRouteError :=
  match values with
  | [] => Ok tt
  | v :: vs => do? reject_secret_text v label ; reject_secrets vs label
  end.

Definition validate_pin (pin : ResumePin) : result unit NativeRouteError :=
  do? reject_secret_text (source_catalog_id pin) (lit "resume.source_catalog_id") ;
  do? reject_secret_opt (source_receipt_digest pin) (lit "resume.source_receipt_digest") ;
  do? reject_secret_opt (source_route_key pin) (lit "resume.source_route_key") ;
  match source_route_key pin with
  | None | Some [] =>
      Err (Rejected ResumeRoutePinned (lit "resume requires an explicit source route key"))
  | Some _ => Ok tt
  end.

Fixpoint validate_candidates (ids : list str) : result unit NativeRouteError :=
  match ids with
  | [] => Ok tt
  | id :: ids' =>
      do? reject_secret_text id (lit "catalog_id") ;
      if str_eqb id []
      then Err (Rejected EmptyCandidates (lit "candidate catalog_id must be non-empty"))
      else validate_candidates ids'
  end.

Definition validate_selection (s : NativeModelSelection) : result unit NativeRouteError :=
  match s with
  | Exact id =>
      do? reject_secret_text id (lit "catalog_id") ;
      if str_eqb id []
      then Err (Rejected ExactModelMissing (lit "exact catalog_id must be non-empty"))
      else Ok tt
  | OrderedCandidates ids =>
      match ids with
      | [] => Err (Rejected EmptyCandidates (lit "empty candidate lists are invalid, not inherit"))
      | _ => validate_candidates ids
      end
  | Inherit => Ok tt
  end.

Definition validate_request (r : NativeSubagentRouteRequest) : result unit NativeRouteError :=
  if negb (schema_version r =? SCHEMA_VERSION)%N then Err (IncompatibleSchema (schema_version r))
  else
    do? reject_secret_opt (consumer_policy_id r) (lit "consumer_policy_id") ;
    do? reject_secret_opt (consumer_policy_digest r) (lit "consumer_policy_digest") ;
    do? reject_secret_opt (parent_catalog_id r) (lit "parent_catalog_id") ;
    do? reject_secret_opt (parent_session_id r) (lit "parent_session_id") ;
    do? reject_secret_opt (child_session_id r) (lit "child_session_id") ;
    do? reject_secret_opt (capability_ceiling r) (lit "capability_ceiling") ;
    do? reject_secret_opt (required_harness (required_capabilities r)) (lit "required_harness") ;
    do? reject_secrets (required_named_capabilities (required_capabilities r))
          (lit "required_named_capabilities") ;
    do? match resume r with Some pin => validate_pin pin | None => Ok tt end ;
    validate_selection (selection r).

(** ** Eligibility *)

Definition reject_entry (entry : SyntheticCatalogEntry) (code : RejectionCode) (msg : str)
  : RejectedCandidate :=
  mkRejected (catalog_id entry) (Some (wire_model entry)) (Some (route_key entry)) code msg.

Fixpoint require_capabilities (entry : SyntheticCatalogEntry) (names : list str)
  : result unit RejectedCandidate :=
  match names with
  | [] => Ok tt
  | name :: names' =>
      if negb (existsb (str_eqb name) (named_capabilities entry))
      then Err (reject_entry entry CapabilityUnknown
                  (lit "required capability " ++ name ++ lit " is unknown or absent"))
      else require_capabilities entry names'
  end.

Definition eligibility (entry : SyntheticCatalogEntry) (req : CapabilityRequirements)
  : result unit RejectedCandidate :=
  let reject := reject_entry entry in
  if unknown_readiness entry
  then Err (reject UnknownReadiness (lit "unknown readiness never satisfies a hard requirement"))
  else if negb (ready entry) then Err (reject RouteUnready (lit "catalog route is not ready"))
  else if local_only req && negb (e_local_only entry)
  then Err (reject LocalOnlyViolation (lit "local-only policy rejects a cloud route"))
  else
    do? (match required_harness req, harness entry with
         | None, _ => Ok tt
         | Some h, Some actual =>
             if str_eqb actual h then Ok tt
             else Err (reject HarnessIncompatible
                         (lit "required harness does not match the catalog route"))
         | Some _, None =>
             Err (reject HarnessIncompatible (lit "catalog route does not declare a harness"))
         end) ;
    do? (match minimum_context_tokens req with
         | None => Ok tt
         | Some min_tokens =>
             match context_tokens entry with
             | Some actual =>
                 if (min_tokens <=? actual)%N then Ok tt
                 else Err (reject CapabilityMismatch (lit "minimumContextTokens is not satisfied"))
             | None => Err (reject CapabilityMismatch (lit "minimumContextTokens is not satisfied"))
             end
         end) ;
    if structured_output req && negb (e_structured_output entry)
    then Err (reject CapabilityMismatch (lit "structuredOutput is required but missing"))
    else require_capabilities entry (required_named_capabilities req).

Class RouteEnv := {
  (** whether [serde_json] is built with [preserve_order] *)
  preserve_order : bool;
  (** [serde_json::to_vec(&payload).ok()], the bytes *)
  to_vec : list (str * json) → option (list N);
  (** [String::from_utf8_lossy] *)
  utf8_lossy : list N → str;
  (** [format!("{:x}", Sha256::digest(blob))] *)
  sha256_hex : list N → str
}.

Section Resolve.
Context `{RouteEnv}.

Definition digest_receipt (r : RouteReceipt) : result str NativeRouteError :=
  if negb (str_eqb (r_schema r) RECEIPT_SCHEMA)
  then Err (Rejected UnsupportedContract (lit "receipt schema must be medley.native-route-receipt.v1"))
  else if negb (r_schema_version r =? SCHEMA_VERSION)%N
  then Err (Rejected UnsupportedContract (lit "receipt schema_version must be 1"))
  else if negb (one_of (selection_mode r) [lit "inherit"; lit "exact"; lit "ordered_candidates"])
  then Err (Rejected UnsupportedContract
              (lit "receipt selection_mode must be inherit, exact, or ordered_candidates"))
  else match to_vec (canonical_payload preserve_order r) with
       | None => Err SecretMaterial
       | Some blob =>
           do? reject_secret_text (utf8_lossy blob) (lit "receipt") ;
           Ok (sha256_hex blob)
       end.

Definition validate_published_receipt (r : RouteReceipt) : result unit NativeRouteError :=
  let? expected := digest_receipt r in
  if negb (str_eqb expected (route_digest r))
  then Err (Rejected UnsupportedContract
              (lit "inspect receipt digest does not match canonical payload"))
  else Ok tt.

Definition set_digest (r : RouteReceipt) (d : str) : RouteReceipt :=
  mkReceipt (r_schema r) (r_schema_version r) (r_parent_session_id r) (r_child_session_id r)
    (selection_mode r) (requested_catalog_ids r) (r_consumer_policy_id r)
    (r_consumer_policy_digest r) (selected_catalog_id r) (selected_wire_model r) (r_route_key r)
    (r_access_profile r) (r_harness r) (r_capability_ceiling r) (r_required_capabilities r)
    (selection_provenance r) (rejected_candidates r) d (attempt r) (created_unix_ms r)
    (resume_source_receipt r).

Definition finish (request : NativeSubagentRouteRequest) (entry : SyntheticCatalogEntry)
  (rejected : list RejectedCandidate) (provenance : str) (now_unix_ms attempt : N)
  (resume_source_receipt : option str) : result NativeSubagentRouteResult NativeRouteError :=
  let r :=
    mkReceipt RECEIPT_SCHEMA SCHEMA_VERSION (parent_session_id request) (child_session_id request)
      (mode_name (selection request)) (requested_catalog_ids_of (selection request))
      (consumer_policy_id request) (consumer_policy_digest request) (catalog_id entry)
      (wire_model entry) (route_key entry) (access_profile entry) (harness entry)
      (capability_ceiling request) (required_capabilities request) provenance rejected []
      (N.max attempt 1) now_unix_ms resume_source_receipt in
  let? digest := digest_receipt r in
  Ok (mkResult (catalog_id entry) (wire_model entry) (route_key entry) (set_digest r digest) rejected).

(** ** Resolution *)

Definition resolve_resume (request : NativeSubagentRouteRequest) (catalog : SyntheticCatalog)
  (pin : ResumePin) (now attempt : N) : result NativeSubagentRouteResult NativeRouteError :=
  do? reject_secret_text (source_catalog_id pin) (lit "resume.source_catalog_id") ;
  match catalog_get catalog (source_catalog_id pin) with
  | None =>
      Err (Rejected ResumeRoutePinned
             (lit "resume pin " ++ source_catalog_id pin
              ++ lit " is missing from the catalog; refusing rebind"))
  | Some entry =>
      match source_route_key pin with
      | None | Some [] =>
          Err (Rejected ResumeRoutePinned (lit "resume requires an explicit source route key"))
      | Some expected_key =>
          if negb (str_eqb expected_key (route_key entry))
          then Err (Rejected ResumeRoutePinned
                      (lit "resume cannot rebind the same wire slug onto another route"))
          else match eligibility entry (required_capabilities request) with
               | Err reason =>
                   Err (Rejected (reason_code reason)
                          (lit "resume pin is no longer eligible: " ++ rc_message reason))
               | Ok _ =>
                   finish request entry [] (lit "resume") now attempt (source_receipt_digest pin)
               end
      end
  end.

Definition resolve_inherit (request : NativeSubagentRouteRequest) (catalog : SyntheticCatalog)
  (now attempt : N) : result NativeSubagentRouteResult NativeRouteError :=
  match parent_catalog_id request with
  | None => Err (Rejected ExactModelMissing (lit "inherit requires an explicit parent catalog id"))
  | Some parent_id =>
      match catalog_get catalog parent_id with
      | None =>
          Err (Rejected ExactModelMissing
                 (lit "parent catalog id " ++ parent_id ++ lit " is missing"))
      | Some entry =>
          match eligibility entry (required_capabilities request) with
          | Err reason =>
              Err (Rejected (reason_code reason)
                     (lit "parent route is not eligible: " ++ rc_message reason))
          | Ok _ => finish request entry [] (lit "inherit") now attempt None
          end
      end
  end.

Definition resolve_exact (request : NativeSubagentRouteRequest) (catalog : SyntheticCatalog)
  (id : str) (now attempt : N) : result NativeSubagentRouteResult NativeRouteError :=
  match catalog_get catalog id with
  | None =>
      Err (Rejected ExactModelMissing
             (lit "exact catalog id " ++ id ++ lit " is missing; refusing parent fallback"))
  | Some entry =>
      match eligibility entry (required_capabilities request) with
      | Err reason =>
          Err (Rejected (reason_code reason)
                 (lit "exact catalog id " ++ id
                  ++ lit " is not eligible; refusing parent fallback: " ++ rc_message reason))
      | Ok _ => finish request entry [] (lit "exact") now attempt None
      end
  end.

Definition ordered_exhausted_code (rejected : list RejectedCandidate) : RejectionCode :=
  match rejected with
  | [] => EmptyCandidates
  | first :: _ =>
      if forallb (λ row, bool_decide (reason_code row = reason_code first)) rejected
      then reason_code first else RouteUnready
  end.

Definition missing_candidate (id : str) : RejectedCandidate :=
  mkRejected id None None ExactModelMissing (lit "catalog id " ++ id ++ lit " is missing").

Fixpoint ordered_go (request : NativeSubagentRouteRequest) (catalog : SyntheticCatalog)
  (now attempt : N) (rejected : list RejectedCandidate) (ids : list str)
  : result NativeSubagentRouteResult NativeRouteError :=
  match ids with
  | [] =>
      Err (Rejected (ordered_exhausted_code rejected)
             (lit "no eligible candidate in declared order; rejected="
              ++ decimal (N.of_nat (length rejected))))
  | id :: ids' =>
      match catalog_get catalog id with
      | None => ordered_go request catalog now attempt (rejected ++ [missing_candidate id]) ids'
      | Some entry =>
          match eligibility entry (required_capabilities request) with
          | Ok _ => finish request entry rejected (lit "ordered_candidates") now attempt None
          | Err reason => ordered_go request catalog now attempt (rejected ++ [reason]) ids'
          end
      end
  end.
Definition resolve_ordered (request : NativeSubagentRouteRequest) (catalog : SyntheticCatalog)
  (ids : list str) (now attempt : N) : result NativeSubagentRouteResult NativeRouteError :=
  ordered_go request catalog now attempt [] ids.

Definition resolve_native_route (request : NativeSubagentRouteRequest)
  (catalog : SyntheticCatalog) (now attempt : N)
  : result NativeSubagentRouteResult NativeRouteError :=
  do? validate_request request ;
  match resume request with
  | Some pin => resolve_resume request catalog pin now attempt
  | None =>
      match selection request with
      | Inherit => resolve_inherit request catalog now attempt
      | Exact id => resolve_exact request catalog id now attempt
      | OrderedCandidates ids => resolve_ordered request catalog ids now attempt
      end
  end.

Definition resolve_worker_route (route : WorkerRoute) (catalog : SyntheticCatalog)
  (now attempt : N) : result NativeSubagentRouteResult NativeRouteError :=
  match route with
  | Native request => resolve_native_route request catalog now attempt
  | ExternalExecutor _ => Err ExternalExecutorUnsupported
  end.
End Resolve.

(** ** Replay-safe fallback *)

Inductive AttemptLifecycleFact :=
| AttemptStarted | FirstProviderByteSeen | VisibleOutputCommitted | ToolCallEmitted
| ToolSideEffectStarted | AttemptTerminal.

Definition blocks_cross_route_fallback (f : AttemptLifecycleFact) : bool :=
  match f with
  | VisibleOutputCommitted | ToolCallEmitted | ToolSideEffectStarted => true
  | _ => false
  end.

Inductive FallbackFailureClass :=
| ConnectTimeout | RateLimited | RetryableServer | ProviderUnavailable | AuthOrConfig
| SafetyPolicy | PartialOutput | ToolSideEffect | IncompatibleCapability.

Definition is_retryable_pre_output (f : FallbackFailureClass) : bool :=
  match f with
  | ConnectTimeout | RateLimited | RetryableServer | ProviderUnavailable => true
  | _ => false
  end.
Definition failure_str (f : FallbackFailureClass) : str :=
  match f with
  | ConnectTimeout => lit "connect_timeout"
  | RateLimited => lit "rate_limited"
  | RetryableServer => lit "retryable_server"
  | ProviderUnavailable => lit "provider_unavailable"
  | AuthOrConfig => lit "auth_or_config"
  | SafetyPolicy => lit "safety_policy"
  | PartialOutput => lit "partial_output"
  | ToolSideEffect => lit "tool_side_effect"
  | IncompatibleCapability => lit "incompatible_capability"
  end.

Record FallbackAdmission := mkAdmission {
  admitted : bool;
  fa_reason : RejectionCode;
  fa_message : str;
  next_catalog_id : option str;
  skipped_candidates : list RejectedCandidate
}.
Definition refuse (code : RejectionCode) (msg : str) (skipped : list RejectedCandidate)
  : FallbackAdmission := mkAdmission false code msg None skipped.
Definition admit_to (next : str) (skipped : list RejectedCandidate) : FallbackAdmission :=
  mkAdmission true RouteUnready (lit "admitted same-lane fallback to " ++ next) (Some next) skipped.

Record FallbackPlanRequest := mkPlan {
  fp_selection : NativeModelSelection;
  current_catalog_id : str;
  current_access_profile : str;
  remaining_catalog_ids : list str;
  fp_catalog : SyntheticCatalog;
  requirements : CapabilityRequirements;
  facts : list AttemptLifecycleFact;
  failure : FallbackFailureClass
}.

Definition ordered_fallback_tail (ids : list str) (current : str) : list str :=
  match position (λ id, str_eqb id current) ids with
  | Some idx => drop (idx + 1) ids
  | None => []
  end.

Definition fact_phrase (f : AttemptLifecycleFact) : str :=
  match f with
  | VisibleOutputCommitted => lit "visible output"
  | ToolCallEmitted => lit "a tool call"
  | ToolSideEffectStarted => lit "a side effect"
  | _ => lit "an unsafe observation"
  end.

Definition admit_cross_route_fallback (fs : list AttemptLifecycleFact) : FallbackAdmission :=
  match List.find blocks_cross_route_fallback fs with
  | Some fact =>
      refuse FallbackReplayUnsafe (lit "cross-route fallback refused after " ++ fact_phrase fact) []
  | None =>
      refuse RouteUnready
        (lit "replay-safe fallback requires an ordered remaining same-lane candidate") []
  end.

(** The rows for caller hints outside the declared order. *)
Definition unauthorized_rows (current : str) (authorized remaining : list str)
  : list RejectedCandidate :=
  (λ id, mkRejected id None None UnsupportedContract
           (lit "remaining catalog id " ++ id ++ lit " is not the declared ordered tail after "
            ++ current))
  <$> List.filter (λ id, negb (existsb (str_eqb id) authorized)) remaining.

(** The loop over the authorized tail. *)
Fixpoint fallback_go (r : FallbackPlanRequest) (skipped : list RejectedCandidate) (ids : list str)
  : FallbackAdmission :=
  match ids with
  | [] =>
      refuse RouteUnready
        (lit "no eligible same-lane remaining candidate; skipped="
         ++ decimal (N.of_nat (length skipped))) skipped
  | id :: ids' =>
      if str_eqb id (current_catalog_id r) then
        fallback_go r
          (skipped ++ [mkRejected id None None DuplicateRequest
                         (lit "current route is not a fallback target")]) ids'
      else match catalog_get (fp_catalog r) id with
      | None => fallback_go r (skipped ++ [missing_candidate id]) ids'
      | Some entry =>
          if negb (str_eqb (access_profile entry) (current_access_profile r)) then
            fallback_go r
              (skipped ++ [reject_entry entry CrossBillingBlocked
                 (lit "access profile " ++ access_profile entry ++ lit " is not the same lane as "
                  ++ current_access_profile r)]) ids'
          else match eligibility entry (requirements r) with
               | Ok _ => admit_to (catalog_id entry) skipped
               | Err reason => fallback_go r (skipped ++ [reason]) ids'
               end
      end
  end.

Definition plan_replay_safe_fallback (r : FallbackPlanRequest) : FallbackAdmission :=
  match List.find blocks_cross_route_fallback (facts r) with
  | Some fact =>
      refuse FallbackReplayUnsafe (lit "cross-route fallback refused after " ++ fact_phrase fact) []
  | None =>
      match failure r with
      | PartialOutput | ToolSideEffect =>
          refuse FallbackReplayUnsafe
            (lit "cross-route fallback refused after " ++ failure_str (failure r)) []
      | AuthOrConfig =>
          refuse CredentialMissing
            (lit "auth/config errors require operator correction; no fallback") []
      | SafetyPolicy =>
          refuse UnsupportedContract (lit "safety/policy rejection is not fallback-eligible") []
      | IncompatibleCapability =>
          refuse CapabilityMismatch (lit "capability/harness mismatch is not fallback-eligible") []
      | ConnectTimeout | RateLimited | RetryableServer | ProviderUnavailable =>
          match fp_selection r with
          | Exact _ => refuse FallbackReplayUnsafe (lit "exact mode never cross-route fallbacks") []
          | Inherit => refuse FallbackReplayUnsafe (lit "inherit has no ordered fallback chain") []
          | OrderedCandidates ids =>
              let authorized := ordered_fallback_tail ids (current_catalog_id r) in
              fallback_go r
                (unauthorized_rows (current_catalog_id r) authorized (remaining_catalog_ids r))
                authorized
          end
      end
  end.

Definition admit_generation_bound_mutation (expected current : N) : result unit NativeRouteError :=
  if negb (expected =? current)%N
  then Err (Rejected StaleGeneration
              (lit "stale generation: expected=" ++ decimal expected ++ lit ", actual="
               ++ decimal current))
  else Ok tt.

(** ** Inspect documents and declarative requests *)

Record InspectDocument := mkInspect {
  i_schema : str;
  i_schema_version : N;
  i_host : str;
  i_capabilities : list DiscoveredCapability;
  i_receipts : list RouteReceipt
}.

Fixpoint validate_receipts `{RouteEnv} (rs : list RouteReceipt) : result unit NativeRouteError :=
  match rs with
  | [] => Ok tt
  | r :: rs' => do? validate_published_receipt r ; validate_receipts rs'
  end.
Definition inspect_document `{RouteEnv} (receipts : list RouteReceipt)
  : result InspectDocument NativeRouteError :=
  do? validate_receipts receipts ;
  Ok (mkInspect INSPECT_SCHEMA SCHEMA_VERSION (lit "medley") discover_capabilities receipts).

Record DeclarativeNativeRouteSpec := mkSpec {
  d_model : option str;
  d_models : option (list str);
  routing_requirements : CapabilityRequirements;
  d_policy_id : option str;
  d_policy_digest : option str
}.

Definition declared_request (spec : DeclarativeNativeRouteSpec) (s : NativeModelSelection)
  : NativeSubagentRouteRequest :=
  mkRequest SCHEMA_VERSION s (routing_requirements spec) None (d_policy_id spec)
    (d_policy_digest spec) None None None None.

Definition parse_declarative_spec (spec : DeclarativeNativeRouteSpec)
  : result NativeSubagentRouteRequest NativeRouteError :=
  do? reject_secret_opt (d_model spec) (lit "model") ;
  do? match d_models spec with Some models => reject_secrets models (lit "models") | None => Ok tt end ;
  let inherit :=
    match d_model spec with
    | None => true
    | Some v => str_eqb v [] || eq_ignore_ascii_case v (lit "inherit")
    end in
  match d_models spec with
  | Some [] => Err (Rejected EmptyCandidates (lit "empty models lists are invalid, not inherit"))
  | Some models =>
      if negb inherit
      then Err (Rejected ConflictingSyntax
                  (lit "model and models cannot both declare a non-inherit exact route"))
      else if existsb (λ id, str_eqb id []) models
      then Err (Rejected EmptyCandidates (lit "empty catalog ids are invalid"))
      else Ok (declared_request spec (OrderedCandidates models))
  | None =>
      if inherit : bool then Ok (declared_request spec Inherit)
      else
        let id := default [] (d_model spec) in
        if str_eqb id []
        then Err (Rejected ExactModelMissing (lit "exact model must be a non-empty catalog id"))
        else Ok (declared_request spec (Exact id))
  end.

(** The fields of an [AgentDefinition] the request is built from. *)
Inductive ModelOverride := MInherit | MOverride (id : str).
Record AgentRouting := mkAgent {
  a_model : ModelOverride;
  a_models : list str;
  a_structured_output : bool;
  a_minimum_context_tokens : option N;
  a_required_harness : option str;
  a_local_only : bool
}.

Definition request_from_agent_definition (def : AgentRouting)
  (parent_catalog parent_session child_session : option str) (pin : option ResumePin)
  : result NativeSubagentRouteRequest NativeRouteError :=
  let? r := parse_declarative_spec
    (mkSpec (match a_model def with MInherit => None | MOverride id => Some id end)
       (match a_models def with [] => None | ms => Some ms end)
       (mkReq (a_structured_output def) (a_minimum_context_tokens def) (a_required_harness def)
          (a_local_only def) []) None None) in
  Ok (mkRequest (schema_version r) (selection r) (required_capabilities r) (capability_ceiling r)
        (consumer_policy_id r) (consumer_policy_digest r) parent_catalog parent_session
        child_session pin).
