(* ===== verification/RouteSafety.v ===== *)
(** What native routing guarantees: exact requests never fall back, ordered requests take
    the first eligible candidate and report the others, resumes stay pinned, receipts are
    valid and free of secrets, and cross-route fallback is admitted only when it is safe. *)
From Stdlib Require Import String Ascii.
From S2P Require Import Prelude RustStr Json RouteTypes RouteResolve.

(** ** Eligibility *)

(** What a catalog entry must offer. *)
Definition satisfies (entry : SyntheticCatalogEntry) (req : CapabilityRequirements) : Prop :=
  unknown_readiness entry = false ∧ ready entry = true
  ∧ (local_only req = true → e_local_only entry = true)
  ∧ (∀ h, required_harness req = Some h → harness entry = Some h)
  ∧ (∀ n, minimum_context_tokens req = Some n →
       ∃ a, context_tokens entry = Some a ∧ (n ≤ a)%N)
  ∧ (structured_output req = true → e_structured_output entry = true)
  ∧ Forall (λ name, name ∈ named_capabilities entry) (required_named_capabilities req).

Lemma require_capabilities_iff entry names :
  require_capabilities entry names = Ok tt ↔ Forall (λ name, name ∈ named_capabilities entry) names.
Proof.
  induction names as [|n names IH]; cbn [require_capabilities]; [done|].
  rewrite Forall_cons, <- IH. change (existsb (str_eqb n) (named_capabilities entry))
    with (one_of n (named_capabilities entry)). rewrite <- one_of_In.
  destruct (one_of _ _); simpl; [tauto|]. split; [done|by intros [? _]].
Qed.

Lemma eligibility_iff entry req : eligibility entry req = Ok tt ↔ satisfies entry req.
Proof.
  unfold eligibility, satisfies.
  destruct (unknown_readiness entry); [split; [done|intros [Hu _]; done]|].
  destruct (ready entry); simpl; [|split; [done|intros (_ & Hr & _); done]].
  destruct (local_only req && negb (e_local_only entry)) eqn:Hl.
  { apply andb_true_iff in Hl as [H1 H2%negb_true_iff]. split; [done|].
    intros (_ & _ & H3 & _). rewrite H3 in H2; done. }
  assert (local_only req = true → e_local_only entry = true) as Hlo
    by (intros H1; rewrite H1 in Hl; simpl in Hl; by apply negb_false_iff in Hl).
  rewrite rbind_Ok. split.
  - intros ([] & Hh & Hx). apply rbind_Ok in Hx as ([] & Hm & Hr).
    destruct (structured_output req && negb (e_structured_output entry)) eqn:Hs; [done|].
    apply require_capabilities_iff in Hr. repeat (split; [done|]). split; [|split; [|split; [|done]]].
    + intros h Eh. rewrite Eh in Hh. destruct (harness entry) as [a|]; [|done].
      destruct (str_eqb a h) eqn:E; [|done]. by apply str_eqb_eq in E as ->.
    + intros n En. rewrite En in Hm. destruct (context_tokens entry) as [a|]; [|done].
      exists a. split; [done|]. destruct (N.leb_spec n a); [done|done].
    + intros H1. rewrite H1 in Hs. simpl in Hs. by apply negb_false_iff in Hs.
  - intros (_ & _ & _ & Hh & Hm & Hs & Hr). exists tt. split.
    + destruct (required_harness req) as [h|]; [|done]. rewrite (Hh h eq_refl).
      by rewrite str_eqb_refl.
    + apply rbind_Ok. exists tt. split.
      * destruct (minimum_context_tokens req) as [n|]; [|done].
        destruct (Hm n eq_refl) as (a & -> & Ha). by rewrite (proj2 (N.leb_le _ _) Ha).
      * destruct (structured_output req); simpl; [rewrite Hs by done; simpl|];
          by apply require_capabilities_iff.
Qed.

Lemma eligibility_code entry req reason :
  eligibility entry req = Err reason → ∃ code msg, reason = reject_entry entry code msg.
Proof.
  unfold eligibility. destruct (unknown_readiness entry); [intros [= <-]; eauto|].
  destruct (negb _); [intros [= <-]; eauto|]. destruct (_ && _); [intros [= <-]; eauto|].
  intros [Hh|(? & _ & [Hm|(? & _ & Hs)]%rbind_Err)]%rbind_Err.
  - repeat case_match; simplify_eq; eauto.
  - repeat case_match; simplify_eq; eauto.
  - destruct (_ && _); [injection Hs as <-; eauto|].
    induction (required_named_capabilities req) as [|n ns IH]; simpl in Hs; [done|].
    destruct (negb _); [injection Hs as <-; eauto|auto].
Qed.

Lemma catalog_get_id catalog id entry : catalog_get catalog id = Some entry → catalog_id entry = id.
Proof. unfold catalog_get. intros [_ E%str_eqb_eq]%find_In. done. Qed.

(** [id] names a route of the catalog that offers what is required. *)
Definition offers (catalog : SyntheticCatalog) (req : CapabilityRequirements) (id : str) : Prop :=
  ∃ entry, catalog_get catalog id = Some entry ∧ satisfies entry req.
(** The row that explains why [id] was passed over. *)
Definition explains (catalog : SyntheticCatalog) (req : CapabilityRequirements) (id : str)
  (row : RejectedCandidate) : Prop :=
  match catalog_get catalog id with
  | None => row = missing_candidate id
  | Some entry => eligibility entry req = Err row
  end.

Lemma explains_not_offers catalog req id row :
  explains catalog req id row → rc_catalog_id row = id ∧ ¬ offers catalog req id.
Proof.
  unfold explains, offers. destruct (catalog_get catalog id) as [entry|] eqn:E.
  - intros He. split.
    + apply eligibility_code in He as (c & m & ->). simpl. by apply catalog_get_id in E.
    + intros (entry' & [= <-] & Hs%eligibility_iff). congruence.
  - intros ->. split; [done|]. by intros (? & ? & _).
Qed.

Section Resolution.
Context `{RouteEnv}.

(** ** Finishing *)

Lemma digest_set_digest r d : digest_receipt (set_digest r d) = digest_receipt r.
Proof. reflexivity. Qed.

Lemma finish_Ok request entry rejected prov now att src res :
  finish request entry rejected prov now att src = Ok res →
  res_catalog_id res = catalog_id entry ∧ res_wire_model res = wire_model entry
  ∧ res_route_key res = route_key entry ∧ res_rejected res = rejected
  ∧ validate_published_receipt (receipt res) = Ok tt
  ∧ selected_catalog_id (receipt res) = catalog_id entry
  ∧ r_route_key (receipt res) = route_key entry
  ∧ rejected_candidates (receipt res) = rejected
  ∧ (1 ≤ attempt (receipt res))%N ∧ resume_source_receipt (receipt res) = src.
Proof.
  unfold finish. intros (d & Hd & [= <-])%rbind_Ok. cbn [res_catalog_id res_wire_model res_route_key
    res_rejected receipt set_digest selected_catalog_id r_route_key rejected_candidates
    attempt resume_source_receipt].
  repeat (split; [reflexivity|]). split; [|repeat (split; [try reflexivity; lia|]); reflexivity].
  unfold validate_published_receipt. rewrite digest_set_digest, Hd. cbn [rbind].
  by rewrite str_eqb_refl.
Qed.

(** The loop over the candidates: it finishes at the first one that offers what is
    required, with a row for each one before it, or has a row for every one. *)
Lemma ordered_go_cases request catalog now att acc pre ids :
  let req := required_capabilities request in
  Forall2 (explains catalog req) pre acc →
  (∃ mid id post entry rows,
      ids = mid ++ id :: post ∧ catalog_get catalog id = Some entry ∧ satisfies entry req
      ∧ Forall2 (explains catalog req) (pre ++ mid) rows
      ∧ ordered_go request catalog now att acc ids
        = finish request entry rows (lit "ordered_candidates") now att None)
  ∨ ∃ rows, Forall2 (explains catalog req) (pre ++ ids) rows
      ∧ ordered_go request catalog now att acc ids
        = Err (Rejected (ordered_exhausted_code rows)
                 (lit "no eligible candidate in declared order; rejected="
                  ++ decimal (N.of_nat (length rows)))).
Proof.
  intros req. revert acc pre; induction ids as [|id ids IH]; intros acc pre Hacc; cbn [ordered_go].
  { right. exists acc. by rewrite app_nil_r. }
  assert (Hskip : ∀ row, explains catalog req id row →
    Forall2 (explains catalog req) (pre ++ [id]) (acc ++ [row])).
  { intros row Hrow. apply Forall2_app; [done|]. by repeat constructor. }
  pose proof (λ row Hrow, IH _ _ (Hskip row Hrow)) as Hgo.
  assert (Hcons : ∀ row, explains catalog req id row →
    (∃ mid id' post entry rows,
      id :: ids = mid ++ id' :: post ∧ catalog_get catalog id' = Some entry ∧ satisfies entry req
      ∧ Forall2 (explains catalog req) (pre ++ mid) rows
      ∧ ordered_go request catalog now att (acc ++ [row]) ids
        = finish request entry rows (lit "ordered_candidates") now att None)
    ∨ ∃ rows, Forall2 (explains catalog req) (pre ++ id :: ids) rows
      ∧ ordered_go request catalog now att (acc ++ [row]) ids
        = Err (Rejected (ordered_exhausted_code rows)
                 (lit "no eligible candidate in declared order; rejected="
                  ++ decimal (N.of_nat (length rows))))).
  { intros row [(mid & id' & post & entry & rows & -> & H2 & H3 & H4 & H5)|(rows & H1 & H2)]%Hgo.
    - left. exists (id :: mid), id', post, entry, rows. rewrite <- app_assoc in H4. done.
    - right. exists rows. rewrite <- app_assoc in H1. done. }
  clear Hgo IH Hskip. destruct (catalog_get catalog id) as [entry|] eqn:E.
  - destruct (eligibility entry req) as [[]|row] eqn:El; subst req; rewrite El.
    + left. exists [], id, ids, entry, acc. rewrite app_nil_r. apply eligibility_iff in El.
      repeat (split; [done|]). done.
    + apply Hcons. unfold explains. by rewrite E.
  - apply Hcons. unfold explains. by rewrite E.
Qed.

(** The invariants every resolution ends with. *)
Lemma resolve_finish request catalog now att res :
  resolve_native_route request catalog now att = Ok res →
  validate_request request = Ok tt ∧
  ∃ entry rejected prov src,
    finish request entry rejected prov now att src = Ok res
    ∧ satisfies entry (required_capabilities request)
    ∧ match resume request with
      | Some pin =>
          catalog_get catalog (source_catalog_id pin) = Some entry
          ∧ source_route_key pin = Some (route_key entry) ∧ rejected = []
          ∧ src = source_receipt_digest pin
      | None =>
          match selection request with
          | Inherit => ∃ id, parent_catalog_id request = Some id
                             ∧ catalog_get catalog id = Some entry ∧ rejected = []
          | Exact id => catalog_get catalog id = Some entry ∧ rejected = []
          | OrderedCandidates ids =>
              ∃ pre id post, ids = pre ++ id :: post ∧ catalog_get catalog id = Some entry
                ∧ Forall2 (explains catalog (required_capabilities request)) pre rejected
          end
      end.
Proof.
  unfold resolve_native_route. intros ([] & Hv & Hr)%rbind_Ok. split; [done|].
  destruct (resume request) as [pin|].
  - unfold resolve_resume in Hr. apply rbind_Ok in Hr as (_ & _ & Hr).
    destruct (catalog_get _ _) as [entry|] eqn:E; [|done].
    destruct (source_route_key pin) as [[|c k]|] eqn:Ek; [done| |done].
    destruct (negb _) eqn:En; [done|]. apply negb_false_iff, str_eqb_eq in En.
    destruct (eligibility _ _) as [[]|] eqn:El; [|done]. apply eligibility_iff in El.
    eexists entry, _, _, _. split; [exact Hr|]. split; [done|]. by rewrite En.
  - destruct (selection request) as [|id|ids].
    + unfold resolve_inherit in Hr. destruct (parent_catalog_id request) as [id|]; [|done].
      destruct (catalog_get _ _) as [entry|] eqn:E; [|done].
      destruct (eligibility _ _) as [[]|] eqn:El; [|done]. apply eligibility_iff in El.
      eexists entry, _, _, _. split; [exact Hr|]. split; [done|]. eauto.
    + unfold resolve_exact in Hr. destruct (catalog_get _ _) as [entry|] eqn:E; [|done].
      destruct (eligibility _ _) as [[]|] eqn:El; [|done]. apply eligibility_iff in El.
      eexists entry, _, _, _. split; [exact Hr|]. split; [done|]. eauto.
    + destruct (ordered_go_cases request catalog now att [] [] ids (proj2 (Forall2_nil _) I))
        as [(mid & id & post & entry & rows & -> & H2 & H3 & H4 & H5)|(rows & _ & H2)].
      * unfold resolve_ordered in Hr. rewrite H5 in Hr. eexists entry, rows, _, _.
        split; [exact Hr|]. split; [done|]. by exists mid, id, post.
      * unfold resolve_ordered in Hr. congruence.
Qed.

(** ** Resolution theorems *)

(** Exact requests fail closed: when an exact request resolves, the route is the one it
    names, that entry of the catalog offers everything required, nothing was passed over,
    and the parent route plays no part (the same request with any other parent resolves to
    the same route whenever it resolves). *)
Theorem exact_never_falls_back request catalog now att res id :
  resolve_native_route request catalog now att = Ok res →
  resume request = None → selection request = Exact id →
  res_catalog_id res = id ∧ offers catalog (required_capabilities request) id
  ∧ res_rejected res = []
  ∧ ∀ request' now' att' res',
      resolve_native_route request' catalog now' att' = Ok res' →
      resume request' = None → selection request' = Exact id →
      res_catalog_id res' = res_catalog_id res ∧ res_route_key res' = res_route_key res.
Proof.
  intros Hr Hres Hsel.
  apply resolve_finish in Hr as (_ & entry & rj & prov & src & Hf & Hsat & Hm).
  rewrite Hres, Hsel in Hm. destruct Hm as [Hg ->].
  apply finish_Ok in Hf as (-> & _ & -> & -> & _).
  split; [by apply catalog_get_id in Hg|]. split; [by exists entry|]. split; [done|].
  intros request' now' att' res' Hr' Hres' Hsel'.
  apply resolve_finish in Hr' as (_ & entry' & rj' & prov' & src' & Hf' & _ & Hm').
  rewrite Hres', Hsel' in Hm'. destruct Hm' as [Hg' _].
  apply finish_Ok in Hf' as (-> & _ & -> & _). by simplify_eq.
Qed.

(** Ordered requests are decided by the declared order alone: a valid ordered request
    either finishes at the first candidate that offers everything required, with exactly
    one explaining row for each candidate before it, or, when no candidate does, fails with
    a row for every candidate; nothing outside the list is ever chosen. *)
Theorem ordered_first_eligible request catalog now att ids :
  validate_request request = Ok tt → resume request = None →
  selection request = OrderedCandidates ids →
  let req := required_capabilities request in
  (∃ pre id post entry rows,
      ids = pre ++ id :: post ∧ catalog_get catalog id = Some entry ∧ satisfies entry req
      ∧ Forall (λ i, ¬ offers catalog req i) pre
      ∧ rc_catalog_id <$> rows = pre ∧ Forall2 (explains catalog req) pre rows
      ∧ resolve_native_route request catalog now att
        = finish request entry rows (lit "ordered_candidates") now att None)
  ∨ (Forall (λ i, ¬ offers catalog req i) ids
     ∧ ∃ rows msg, rc_catalog_id <$> rows = ids ∧ Forall2 (explains catalog req) ids rows
       ∧ resolve_native_route request catalog now att
         = Err (Rejected (ordered_exhausted_code rows) msg)).
Proof.
  intros Hv Hres Hsel req. unfold resolve_native_route. rewrite Hv, Hres, Hsel. cbn [rbind].
  unfold resolve_ordered.
  assert (Hrows : ∀ l rows, Forall2 (explains catalog req) l rows →
            Forall (λ i, ¬ offers catalog req i) l ∧ rc_catalog_id <$> rows = l).
  { induction 1 as [|i row l rows Hi _ [IH1 IH2]]; [done|].
    apply explains_not_offers in Hi as [Hid Hno]. rewrite fmap_cons, Hid, IH2. split; [by constructor|done]. }
  destruct (ordered_go_cases request catalog now att [] [] ids (proj2 (Forall2_nil _) I))
    as [(pre & id & post & entry & rows & -> & H2 & H3 & H4 & H5)|(rows & H1 & H2)].
  - left. exists pre, id, post, entry, rows. destruct (Hrows _ _ H4) as [Hno Hid].
    repeat (split; [done|]). done.
  - right. destruct (Hrows _ _ H1) as [Hno Hid]. split; [done|]. eauto.
Qed.

(** A resume stays on its route: when a request with a resume pin resolves, whatever
    selection it also carries, the route is the pinned catalog entry with the pinned route
    key, still offers what is required, and the receipt names the source receipt. *)
Theorem resume_is_pinned request catalog now att res pin :
  resolve_native_route request catalog now att = Ok res → resume request = Some pin →
  res_catalog_id res = source_catalog_id pin
  ∧ source_route_key pin = Some (res_route_key res)
  ∧ offers catalog (required_capabilities request) (source_catalog_id pin)
  ∧ resume_source_receipt (receipt res) = source_receipt_digest pin.
Proof.
  intros Hr Hres. apply resolve_finish in Hr as (_ & entry & rj & prov & src & Hf & Hsat & Hm).
  rewrite Hres in Hm. destruct Hm as (Hg & Hk & -> & ->).
  apply finish_Ok in Hf as (-> & _ & -> & _ & _ & _ & _ & _ & _ & ->).
  split; [by apply catalog_get_id in Hg|]. split; [done|]. split; [by exists entry|done].
Qed.

Lemma reject_secret_text_Ok v l : reject_secret_text v l = Ok tt → secret_free v = true.
Proof. unfold reject_secret_text, secret_free. by destruct (existsb _ _). Qed.

(** Every receipt a resolution produces can be published: its digest matches its
    payload, it describes the route that was selected and the rows of the candidates that
    were not, it counts at least one attempt, and its serialized payload holds none of the
    credential markers. *)
Theorem receipts_are_publishable request catalog now att res :
  resolve_native_route request catalog now att = Ok res →
  is_ok (inspect_document [receipt res]) = true
  ∧ selected_catalog_id (receipt res) = res_catalog_id res
  ∧ r_route_key (receipt res) = res_route_key res
  ∧ rejected_candidates (receipt res) = res_rejected res
  ∧ (1 ≤ attempt (receipt res))%N
  ∧ ∃ blob, to_vec (canonical_payload preserve_order (receipt res)) = Some blob
            ∧ secret_free (utf8_lossy blob) = true
            ∧ route_digest (receipt res) = sha256_hex blob.
Proof.
  intros Hr. apply resolve_finish in Hr as (_ & entry & rj & prov & src & Hf & _).
  apply finish_Ok in Hf as (-> & _ & -> & -> & Hv & -> & -> & -> & Ha & _).
  split. { unfold inspect_document. cbn [validate_receipts]. by rewrite Hv. }
  repeat (split; [done|]). unfold validate_published_receipt in Hv.
  apply rbind_Ok in Hv as (d & Hd & Hv). destruct (negb _) eqn:Ed; [done|].
  apply negb_false_iff, str_eqb_eq in Ed as <-. unfold digest_receipt in Hd.
  destruct (negb _); [done|]. destruct (negb _); [done|]. destruct (negb _); [done|].
  destruct (to_vec _) as [blob|]; [|done]. apply rbind_Ok in Hd as ([] & Hs & [= <-]).
  apply reject_secret_text_Ok in Hs. eauto.
Qed.
End Resolution.

(** ** Fallback *)

(** A candidate the planner may move to. *)
Definition usable (r : FallbackPlanRequest) (id : str) : Prop :=
  id ≠ current_catalog_id r
  ∧ ∃ entry, catalog_get (fp_catalog r) id = Some entry
      ∧ access_profile entry = current_access_profile r ∧ satisfies entry (requirements r).

(** The loop admits the first usable candidate, and only a usable one. *)
Lemma fallback_go_cases r skipped ids :
  (∃ pre id post, ids = pre ++ id :: post ∧ usable r id ∧ Forall (λ i, ¬ usable r i) pre
     ∧ admitted (fallback_go r skipped ids) = true
     ∧ next_catalog_id (fallback_go r skipped ids) = Some id)
  ∨ (Forall (λ i, ¬ usable r i) ids ∧ admitted (fallback_go r skipped ids) = false
     ∧ next_catalog_id (fallback_go r skipped ids) = None).
Proof.
  revert skipped; induction ids as [|id ids IH]; intros skipped; cbn [fallback_go]; [by right|].
  assert (Hskip : ∀ sk, ¬ usable r id →
    (∃ pre id' post, id :: ids = pre ++ id' :: post ∧ usable r id' ∧ Forall (λ i, ¬ usable r i) pre
       ∧ admitted (fallback_go r sk ids) = true ∧ next_catalog_id (fallback_go r sk ids) = Some id')
    ∨ (Forall (λ i, ¬ usable r i) (id :: ids) ∧ admitted (fallback_go r sk ids) = false
       ∧ next_catalog_id (fallback_go r sk ids) = None)).
  { intros sk Hno. destruct (IH sk) as [(pre & id' & post & -> & H2 & H3 & H4)|(H1 & H2)].
    - left. exists (id :: pre), id', post. split; [done|]. split; [done|]. split; [by constructor|done].
    - right. split; [by constructor|done]. }
  destruct (str_eqb id (current_catalog_id r)) eqn:Ec.
  { apply str_eqb_eq in Ec. apply Hskip. by intros [? _]. }
  apply str_eqb_neq in Ec. destruct (catalog_get (fp_catalog r) id) as [entry|] eqn:E.
  2: { apply Hskip. intros (_ & entry & ? & _). congruence. }
  destruct (str_eqb (access_profile entry) (current_access_profile r)) eqn:Ep; cbn [negb].
  2: { apply str_eqb_neq in Ep. apply Hskip. intros (_ & entry' & ? & ? & _). congruence. }
  apply str_eqb_eq in Ep. destruct (eligibility entry (requirements r)) as [[]|row] eqn:El.
  - apply eligibility_iff in El. left. exists [], id, ids. apply catalog_get_id in E as Hid.
    split; [done|]. split; [split; [done|by exists entry]|]. simpl. by rewrite Hid.
  - apply Hskip. intros (_ & entry' & E' & _ & Hs%eligibility_iff). congruence.
Qed.

Lemma fallback_ordered r ids skipped :
  Forall (λ f, blocks_cross_route_fallback f = false) (facts r) →
  let tl := ordered_fallback_tail ids (current_catalog_id r) in
  let a := fallback_go r skipped tl in
  (admitted a = true ↔
     Forall (λ f, blocks_cross_route_fallback f = false) (facts r)
     ∧ true = true
     ∧ ∃ ids' id, OrderedCandidates ids = OrderedCandidates ids'
         ∧ id ∈ ordered_fallback_tail ids' (current_catalog_id r) ∧ usable r id)
  ∧ ∀ next, next_catalog_id a = Some next →
      admitted a = true ∧
      ∃ ids' pre post, OrderedCandidates ids = OrderedCandidates ids'
        ∧ ordered_fallback_tail ids' (current_catalog_id r) = pre ++ next :: post
        ∧ usable r next ∧ Forall (λ i, ¬ usable r i) pre.
Proof.
  intros Hall tl a. subst a.
  destruct (fallback_go_cases r skipped tl) as [(pre & id & post & Et & Hu & Hp & -> & ->)|(Hp & -> & ->)].
  - split.
    + split; [|done]. intros _. split; [done|]. split; [done|]. exists ids, id. split; [done|].
      fold tl. rewrite Et. split; [|done]. rewrite elem_of_app, elem_of_cons. auto.
    + intros next [= <-]. split; [done|]. exists ids, pre, post. auto.
  - split; [|done]. split; [done|]. intros (_ & _ & ids' & id & [= <-] & Hin & Hu).
    fold tl in Hin. rewrite Forall_forall in Hp. by destruct (Hp id Hin).
Qed.

(** C32: Cross-route fallback is admitted exactly when it is safe to replay: no output, tool
    call or side effect was seen, the failure is retryable, the agent declared an ordered
    list, and some later candidate of that list is another route of the catalog that has the
    same access profile, is known to be ready and meets all requirements of the request
    (local only, harness, context size, structured output, named capabilities); the route
    admitted is the first such candidate.  The caller's list of remaining candidates has no
    say. *)
Theorem fallback_admission_exact r :
  let a := plan_replay_safe_fallback r in
  (admitted a = true ↔
     Forall (λ f, blocks_cross_route_fallback f = false) (facts r)
     ∧ is_retryable_pre_output (failure r) = true
     ∧ ∃ ids id, fp_selection r = OrderedCandidates ids
         ∧ id ∈ ordered_fallback_tail ids (current_catalog_id r) ∧ usable r id)
  ∧ ∀ next, next_catalog_id a = Some next →
      admitted a = true ∧
      ∃ ids pre post, fp_selection r = OrderedCandidates ids
        ∧ ordered_fallback_tail ids (current_catalog_id r) = pre ++ next :: post
        ∧ usable r next ∧ Forall (λ i, ¬ usable r i) pre.
Proof.
  cbv zeta. unfold plan_replay_safe_fallback.
  destruct (List.find blocks_cross_route_fallback (facts r)) as [fact|] eqn:Hf.
  { apply find_In in Hf as [Hin Hb]. split; [|done]. split; [done|]. intros [Hall _].
    rewrite Forall_forall in Hall. rewrite Hall in Hb; done. }
  assert (Hall : Forall (λ f, blocks_cross_route_fallback f = false) (facts r))
    by (apply Forall_forall; by apply find_None).
  destruct (failure r); cbn [is_retryable_pre_output];
    try (split; [|done]; split; [done|by intros (_ & ? & _)]);
    (destruct (fp_selection r) as [|id0|ids] eqn:Hsel;
      [split; [|done]; split; [done|intros (_ & _ & ids & id & [=] & _)]
      |split; [|done]; split; [done|intros (_ & _ & ids & id & [=] & _)]
      |by apply fallback_ordered]).
Qed.

(** ** Witnesses *)
Section Demo.

(** An environment that serializes an object as its keys and strings, with itself as its
    hash. *)
#[local] Instance demo_env : RouteEnv := {|
  preserve_order := false;
  to_vec payload := Some (concat ((λ e, e.1 ++ match e.2 with JString s => s | _ => [] end) <$> payload));
  utf8_lossy b := b;
  sha256_hex b := b
|}.

Definition demo_entry (id : str) (rdy : bool) : SyntheticCatalogEntry :=
  mkEntry id (lit "wire") (lit "key-" ++ id) (lit "lane") rdy false true None (Some 8%N) true [].
Definition demo_catalog : SyntheticCatalog :=
  [demo_entry (lit "a") false; demo_entry (lit "b") true; demo_entry (lit "c") true].
Definition no_requirements : CapabilityRequirements := mkReq false (Some 4%N) None true [].
Definition demo_request (s : NativeModelSelection) (pin : option ResumePin) : NativeSubagentRouteRequest :=
  mkRequest 1 s no_requirements None None None (Some (lit "c")) None None pin.
Definition demo_receipt (s : NativeModelSelection) (pin : option ResumePin) : option str :=
  match resolve_native_route (demo_request s pin) demo_catalog 0 0 with
  | Ok res => Some (res_catalog_id res)
  | Err _ => None
  end.

Lemma exact_never_falls_back_witness :
  ∃ res, resolve_native_route (demo_request (Exact (lit "b")) None) demo_catalog 0 0 = Ok res
    ∧ res_catalog_id res = lit "b".
Proof.
  destruct (resolve_native_route (demo_request (Exact (lit "b")) None) demo_catalog 0 0) as [res|] eqn:E;
    [|vm_compute in E; discriminate].
  exists res. split; [reflexivity|].
  exact (proj1 (exact_never_falls_back _ _ _ _ _ _ E eq_refl eq_refl)).
Defined.

(** An exact request for an unready route fails although the parent route is ready. *)
Example exact_unready_fails : demo_receipt (Exact (lit "a")) None = None.
Proof. vm_compute. reflexivity. Qed.

Lemma ordered_first_eligible_witness :
  demo_receipt (OrderedCandidates [lit "x"; lit "a"; lit "b"]) None = Some (lit "b")
  ∧ ((∃ pre id post entry rows,
      [lit "x"; lit "a"; lit "b"] = pre ++ id :: post ∧ catalog_get demo_catalog id = Some entry
      ∧ satisfies entry no_requirements
      ∧ Forall (λ i, ¬ offers demo_catalog no_requirements i) pre
      ∧ rc_catalog_id <$> rows = pre ∧ Forall2 (explains demo_catalog no_requirements) pre rows
      ∧ resolve_native_route (demo_request (OrderedCandidates [lit "x"; lit "a"; lit "b"]) None) demo_catalog 0 0
        = finish (demo_request (OrderedCandidates [lit "x"; lit "a"; lit "b"]) None) entry rows
            (lit "ordered_candidates") 0 0 None)
  ∨ (Forall (λ i, ¬ offers demo_catalog no_requirements i) [lit "x"; lit "a"; lit "b"]
     ∧ ∃ rows msg, rc_catalog_id <$> rows = [lit "x"; lit "a"; lit "b"]
       ∧ Forall2 (explains demo_catalog no_requirements) [lit "x"; lit "a"; lit "b"] rows
       ∧ resolve_native_route (demo_request (OrderedCandidates [lit "x"; lit "a"; lit "b"]) None) demo_catalog 0 0
         = Err (Rejected (ordered_exhausted_code rows) msg))).
Proof.
  split; [vm_compute; reflexivity|].
  exact (ordered_first_eligible (demo_request (OrderedCandidates [lit "x"; lit "a"; lit "b"]) None)
    demo_catalog 0 0 _ eq_refl eq_refl eq_refl).
Defined.

Lemma resume_is_pinned_witness :
  ∃ res, resolve_native_route
      (demo_request (Exact (lit "b")) (Some (mkPin (lit "c") (Some (lit "d1")) (Some (lit "key-c")))))
      demo_catalog 0 0 = Ok res
    ∧ res_catalog_id res = lit "c".
Proof.
  destruct (resolve_native_route
      (demo_request (Exact (lit "b")) (Some (mkPin (lit "c") (Some (lit "d1")) (Some (lit "key-c")))))
      demo_catalog 0 0) as [res|] eqn:E; [|vm_compute in E; discriminate].
  exists res. split; [reflexivity|]. exact (proj1 (resume_is_pinned _ _ _ _ _ _ E eq_refl)).
Defined.

Lemma receipts_are_publishable_witness :
  ∃ res, resolve_native_route (demo_request Inherit None) demo_catalog 7 0 = Ok res
    ∧ is_ok (inspect_document [receipt res]) = true ∧ (1 ≤ attempt (receipt res))%N.
Proof.
  destruct (resolve_native_route (demo_request Inherit None) demo_catalog 7 0) as [res|] eqn:E;
    [|vm_compute in E; discriminate].
  exists res. split; [reflexivity|].
  destruct (receipts_are_publishable _ _ _ _ _ E) as (H1 & _ & _ & _ & H2 & _). by split.
Defined.

(** Fallback past an unready and a foreign candidate. *)
Example fallback_admits :
  next_catalog_id (plan_replay_safe_fallback
    (mkPlan (OrderedCandidates [lit "b"; lit "a"; lit "c"]) (lit "b") (lit "lane") [lit "zzz"]
       demo_catalog no_requirements [AttemptStarted] RateLimited)) = Some (lit "c").
Proof. vm_compute. reflexivity. Qed.
End Demo.
