(* ===== verification/NetFilter.v ===== *)
(** The address filter of the web-fetch tool
    (crates/codegen/xai-grok-tools/src/implementations/grok_build/web_fetch/ssrf.rs), and
    the part of [std::net] it uses: addresses, their classes and their text form.

    An IPv4 address is its four octets, an IPv6 address its eight 16-bit segments; bit
    tests are those of the source on [u32] and [u16] values. *)
From Stdlib Require Import String Ascii.
From S2P Require Import Prelude RustStr.
Local Open Scope Z_scope.

(** ** Addresses *)

Record Ipv4Addr := mkV4 { o0 : Z; o1 : Z; o2 : Z; o3 : Z }.
Record Ipv6Addr := mkV6 { segments : list Z }.
Inductive IpAddr := V4 (a : Ipv4Addr) | V6 (a : Ipv6Addr).

(** Values of the machine types. *)
Definition octet (x : Z) : Prop := 0 ≤ x < 256.
Definition wf_v4 (a : Ipv4Addr) : Prop := octet (o0 a) ∧ octet (o1 a) ∧ octet (o2 a) ∧ octet (o3 a).
Definition wf_v6 (a : Ipv6Addr) : Prop :=
  (length (segments a) = 8)%nat ∧ Forall (λ s, 0 ≤ s < 65536) (segments a).

(** [u32::from(ip)] *)
Definition to_u32 (a : Ipv4Addr) : Z := ((o0 a * 256 + o1 a) * 256 + o2 a) * 256 + o3 a.

Module V4.
Definition is_loopback (a : Ipv4Addr) : bool := o0 a =? 127.
Definition is_private (a : Ipv4Addr) : bool :=
  (o0 a =? 10) || ((o0 a =? 172) && (16 <=? o1 a) && (o1 a <=? 31))
  || ((o0 a =? 192) && (o1 a =? 168)).
Definition is_link_local (a : Ipv4Addr) : bool := (o0 a =? 169) && (o1 a =? 254).
Definition is_unspecified (a : Ipv4Addr) : bool := to_u32 a =? 0.
Definition is_multicast (a : Ipv4Addr) : bool := (224 <=? o0 a) && (o0 a <=? 239).
Definition is_broadcast (a : Ipv4Addr) : bool := to_u32 a =? 2 ^ 32 - 1.
End V4.

Module V6.
Definition seg (i : nat) (a : Ipv6Addr) : Z := default 0 (segments a !! i).
Definition is_loopback (a : Ipv6Addr) : bool :=
  bool_decide (segments a = [0; 0; 0; 0; 0; 0; 0; 1]).
Definition is_unspecified (a : Ipv6Addr) : bool :=
  bool_decide (segments a = [0; 0; 0; 0; 0; 0; 0; 0]).
(** [octets()[0] == 0xff] *)
Definition is_multicast (a : Ipv6Addr) : bool := Z.shiftr (seg 0 a) 8 =? 255.
(** [(segments()[0] & 0xfe00) == 0xfc00] *)
Definition is_unique_local (a : Ipv6Addr) : bool := Z.land (seg 0 a) 65024 =? 64512.
(** [(segments()[0] & 0xffc0) == 0xfe80] *)
Definition is_unicast_link_local (a : Ipv6Addr) : bool := Z.land (seg 0 a) 65472 =? 65152.
Definition to_ipv4_mapped (a : Ipv6Addr) : option Ipv4Addr :=
  match segments a with
  | [s0; s1; s2; s3; s4; s5; ab; cd] =>
      if bool_decide ([s0; s1; s2; s3; s4; s5] = [0; 0; 0; 0; 0; 65535])
      then Some (mkV4 (ab / 256) (ab mod 256) (cd / 256) (cd mod 256))
      else None
  | _ => None
  end.
End V6.

Definition ip_is_loopback (ip : IpAddr) : bool :=
  match ip with V4 a => V4.is_loopback a | V6 a => V6.is_loopback a end.

(** ** [s.parse::<IpAddr>()]

    The recursive-descent parser of [core::net]: each reader returns the value and the
    text it left. *)

Definition to_digit (radix : Z) (c : char) : option Z :=
  let c := Z.of_N c in
  let d := if (48 <=? c) && (c <=? 57) then c - 48
           else if (97 <=? c) && (c <=? 122) then c - 87
           else if (65 <=? c) && (c <=? 90) then c - 55
           else radix in
  if d <? radix then Some d else None.

(** The digits at the front of the text: their value, how many, and the rest. *)
Fixpoint read_digits (radix acc : Z) (count : nat) (s : str) : Z * nat * str :=
  match s with
  | c :: s' =>
      match to_digit radix c with
      | Some d => read_digits radix (acc * radix + d) (S count) s'
      | None => (acc, count, s)
      end
  | [] => (acc, count, [])
  end.
Definition read_number (radix limit : Z) (max_digits : nat) (allow_zero_prefix : bool) (s : str)
  : option (Z * str) :=
  let '(v, n, rest) := read_digits radix 0 0 s in
  if (n =? 0)%nat || (max_digits <? n)%nat then None
  else if negb allow_zero_prefix && starts_with (lit "0") s && (1 <? n)%nat then None
  else if limit <=? v then None
  else Some (v, rest).

(** [read_separator(sep, index, inner)] *)
Definition read_separator {A} (sep : char) (index : nat) (inner : str → option (A * str)) (s : str)
  : option (A * str) :=
  match index with
  | O => inner s
  | S _ => match s with
           | c :: s' => if (c =? sep)%N then inner s' else None
           | [] => None
           end
  end.

Definition read_octet : str → option (Z * str) := read_number 10 256 3 false.
Definition read_ipv4_addr (s : str) : option (Ipv4Addr * str) :=
  '(a, s) ← read_octet s;
  '(b, s) ← read_separator (chr ".") 1 read_octet s;
  '(c, s) ← read_separator (chr ".") 2 read_octet s;
  '(d, s) ← read_separator (chr ".") 3 read_octet s;
  Some (mkV4 a b c d, s).

(** At most [left] more groups, the first of them being number [i]; the flag says that an
    embedded IPv4 address ended them. *)
Fixpoint read_groups (left i : nat) (s : str) : list Z * bool * str :=
  match left with
  | O => ([], false, s)
  | S left' =>
      match (if (0 <? left')%nat then read_separator (chr ":") i read_ipv4_addr s else None) with
      | Some (a, s') => ([o0 a * 256 + o1 a; o2 a * 256 + o3 a], true, s')
      | None =>
          match read_separator (chr ":") i (read_number 16 65536 4 true) s with
          | Some (g, s') =>
              let '(gs, v4, s'') := read_groups left' (S i) s' in (g :: gs, v4, s'')
          | None => ([], false, s)
          end
      end
  end.

Definition read_ipv6_addr (s : str) : option (Ipv6Addr * str) :=
  let '(head, head_ipv4, s) := read_groups 8 0 s in
  if (length head =? 8)%nat then Some (mkV6 head, s)
  else if head_ipv4 then None
  else
    s ← strip_prefix (lit "::") s;
    let '(tail, _, s) := read_groups (8 - (length head + 1)) 0 s in
    Some (mkV6 (head ++ replicate (8 - length head - length tail) 0 ++ tail), s).

Definition parse_ip (s : str) : option IpAddr :=
  let r := match read_ipv4_addr s with
           | Some (a, rest) => Some (V4 a, rest)
           | None => '(a, rest) ← read_ipv6_addr s; Some (V6 a, rest)
           end in
  match r with Some (ip, []) => Some ip | _ => None end.

Example parse_loopback6 : parse_ip (lit "::1") = Some (V6 (mkV6 [0; 0; 0; 0; 0; 0; 0; 1])).
Proof. vm_compute. reflexivity. Qed.
Example parse_mapped :
  parse_ip (lit "::ffff:10.0.0.1") = Some (V6 (mkV6 [0; 0; 0; 0; 0; 65535; 2560; 1])).
Proof. vm_compute. reflexivity. Qed.
Example parse_octal : parse_ip (lit "010.0.0.1") = None.
Proof. vm_compute. reflexivity. Qed.

(** ** ssrf.rs *)

Definition is_explicit_local_host (host : str) : bool :=
  let host := to_ascii_lowercase (trim_end_matches (N.eqb (chr ".")) (trim host)) in
  let host := default host (strip_prefix (lit "[") host ≫= strip_suffix (lit "]")) in
  let host := default host (head (split_on (chr "%") host)) in
  if str_eqb host (lit "localhost") then true
  else match parse_ip host with
       | Some ip => ip_is_loopback ip
       | None => false
       end.

Definition ipv4_in_cidr (ip base : Ipv4Addr) (prefix : Z) : bool :=
  let ip := to_u32 ip in
  let base := to_u32 base in
  let mask := if prefix =? 0 then 0 else Z.shiftl (2 ^ 32 - 1) (32 - prefix) mod 2 ^ 32 in
  Z.land ip mask =? Z.land base mask.

Definition is_non_public_ipv4 (ip : Ipv4Addr) : bool :=
  V4.is_loopback ip || V4.is_private ip || V4.is_link_local ip || V4.is_unspecified ip
  || V4.is_multicast ip || V4.is_broadcast ip
  || ipv4_in_cidr ip (mkV4 0 0 0 0) 8
  || ipv4_in_cidr ip (mkV4 100 64 0 0) 10
  || ipv4_in_cidr ip (mkV4 192 0 0 0) 24
  || ipv4_in_cidr ip (mkV4 192 0 2 0) 24
  || ipv4_in_cidr ip (mkV4 198 18 0 0) 15
  || ipv4_in_cidr ip (mkV4 198 51 100 0) 24
  || ipv4_in_cidr ip (mkV4 203 0 113 0) 24
  || ipv4_in_cidr ip (mkV4 240 0 0 0) 4.

Definition is_non_public_ipv6 (ip : Ipv6Addr) : bool :=
  match V6.to_ipv4_mapped ip with
  | Some v4 => is_non_public_ipv4 v4
  | None =>
      V6.is_loopback ip || V6.is_unspecified ip || V6.is_multicast ip || V6.is_unique_local ip
      || V6.is_unicast_link_local ip
  end.

Definition is_non_public_ip (ip : IpAddr) : bool :=
  match ip with V4 v4 => is_non_public_ipv4 v4 | V6 v6 => is_non_public_ipv6 v6 end.

Definition is_loopback_addr (ip : IpAddr) : bool :=
  if ip_is_loopback ip then true
  else match ip with
       | V6 v6 => match V6.to_ipv4_mapped v6 with Some v4 => V4.is_loopback v4 | None => false end
       | V4 _ => false
       end.

Definition is_blocked_for_host (ip : IpAddr) (host : str) (allow_local : bool) : bool :=
  if negb (is_non_public_ip ip) then false
  else if allow_local && is_loopback_addr ip && is_explicit_local_host host then false
  else true.

(** ** What the classification means

    The special-purpose blocks of IPv4, and the addresses the filter must refuse: those of
    the blocks, also written as IPv4-mapped IPv6 addresses, and the local ranges of IPv6. *)

Definition special_purpose : list (Ipv4Addr * Z) :=
  [(mkV4 0 0 0 0, 8); (mkV4 10 0 0 0, 8); (mkV4 100 64 0 0, 10); (mkV4 127 0 0 0, 8);
   (mkV4 169 254 0 0, 16); (mkV4 172 16 0 0, 12); (mkV4 192 0 0 0, 24); (mkV4 192 0 2 0, 24);
   (mkV4 192 168 0 0, 16); (mkV4 198 18 0 0, 15); (mkV4 198 51 100 0, 24);
   (mkV4 203 0 113 0, 24); (mkV4 224 0 0 0, 4); (mkV4 240 0 0 0, 4)].

Definition in_block (a : Ipv4Addr) (b : Ipv4Addr * Z) : Prop :=
  to_u32 b.1 ≤ to_u32 a < to_u32 b.1 + 2 ^ (32 - b.2).

Definition mapped (a : Ipv6Addr) (v4 : Ipv4Addr) : Prop :=
  wf_v4 v4 ∧
  segments a = [0; 0; 0; 0; 0; 65535; o0 v4 * 256 + o1 v4; o2 v4 * 256 + o3 v4].

Definition special_ip (ip : IpAddr) : Prop :=
  match ip with
  | V4 a => Exists (in_block a) special_purpose
  | V6 a =>
      (∃ v4, mapped a v4 ∧ Exists (in_block v4) special_purpose)
      ∨ segments a = [0; 0; 0; 0; 0; 0; 0; 0] ∨ segments a = [0; 0; 0; 0; 0; 0; 0; 1]
      ∨ ∃ s0 rest, segments a = s0 :: rest
          ∧ (64512 ≤ s0 ≤ 65023 ∨ 65152 ≤ s0 ≤ 65215 ∨ 65280 ≤ s0)
  end.
Definition wf_ip (ip : IpAddr) : Prop :=
  match ip with V4 a => wf_v4 a | V6 a => wf_v6 a end.

(** Masking with the high bits of a [w]-bit word keeps the quotient by the block size. *)
Lemma land_high_mask w x k :
  0 ≤ k ≤ w → 0 ≤ x < 2 ^ w →
  Z.land x (Z.shiftl (2 ^ w - 1) k mod 2 ^ w) = (x / 2 ^ k) * 2 ^ k.
Proof.
  intros Hk Hx. rewrite <-Z.shiftr_div_pow2, <-Z.shiftl_mul_pow2 by lia.
  replace (2 ^ w - 1) with (Z.ones w) by (rewrite Z.ones_equiv; lia).
  apply Z.bits_inj'. intros n Hn. rewrite Z.land_spec, Z.shiftl_spec by lia.
  destruct (Z.lt_ge_cases n w) as [Hw|Hw].
  - rewrite Z.mod_pow2_bits_low, Z.shiftl_spec by lia.
    destruct (Z.lt_ge_cases n k).
    + rewrite !(Z.testbit_neg_r _ (n - k)) by lia. apply andb_false_r.
    + rewrite Z.ones_spec_low, Z.shiftr_spec, andb_true_r by lia. f_equal. lia.
  - rewrite Z.mod_pow2_bits_high, andb_false_r by lia.
    rewrite Z.shiftr_spec by lia. rewrite <-(Z.mod_small x (2 ^ w)) by lia.
    rewrite Z.mod_pow2_bits_high by lia. done.
Qed.

Lemma to_u32_range a : wf_v4 a → 0 ≤ to_u32 a < 2 ^ 32.
Proof. unfold wf_v4, octet, to_u32. lia. Qed.

Lemma in_cidr_block ip base p :
  wf_v4 ip → wf_v4 base → 0 < p ≤ 32 → (2 ^ (32 - p) | to_u32 base) →
  ipv4_in_cidr ip base p = true ↔ in_block ip (base, p).
Proof.
  intros Hi Hb Hp [q Hq]. pose proof (to_u32_range _ Hi). pose proof (to_u32_range _ Hb).
  unfold ipv4_in_cidr, in_block. cbn [fst snd].
  destruct (Z.eqb_spec p 0); [lia|]. rewrite !land_high_mask, Z.eqb_eq by lia.
  assert (0 < 2 ^ (32 - p)) by (apply Z.pow_pos_nonneg; lia).
  rewrite Hq, Z.div_mul by lia.
  set (m := 2 ^ (32 - p)) in *. pose proof (Z.div_mod (to_u32 ip) m ltac:(lia)) as Hdm.
  pose proof (Z.mod_pos_bound (to_u32 ip) m ltac:(lia)). split; intros Hip; [nia|].
  f_equal. symmetry. apply (Z.div_unique _ m q (to_u32 ip - q * m)); lia.
Qed.

(** The classes of [std::net] that are single blocks. *)
Lemma v4_class_blocks a :
  wf_v4 a →
  (V4.is_loopback a = true ↔ in_block a (mkV4 127 0 0 0, 8))
  ∧ (V4.is_private a = true ↔
       in_block a (mkV4 10 0 0 0, 8) ∨ in_block a (mkV4 172 16 0 0, 12)
       ∨ in_block a (mkV4 192 168 0 0, 16))
  ∧ (V4.is_link_local a = true ↔ in_block a (mkV4 169 254 0 0, 16))
  ∧ (V4.is_multicast a = true ↔ in_block a (mkV4 224 0 0 0, 4))
  ∧ (V4.is_unspecified a = true → in_block a (mkV4 0 0 0 0, 8))
  ∧ (V4.is_broadcast a = true → in_block a (mkV4 240 0 0 0, 4)).
Proof.
  unfold wf_v4, octet, in_block, V4.is_loopback, V4.is_private, V4.is_link_local,
    V4.is_multicast, V4.is_unspecified, V4.is_broadcast, to_u32. simpl. intros Ha.
  repeat split; try lia.
Qed.

Lemma non_public_ipv4_blocks a :
  wf_v4 a → is_non_public_ipv4 a = true ↔ Exists (in_block a) special_purpose.
Proof.
  intros Ha. destruct (v4_class_blocks a Ha) as (H1 & H2 & H3 & H4 & H5 & H6).
  unfold is_non_public_ipv4, special_purpose. rewrite !orb_true_iff.
  rewrite !in_cidr_block by
    (done || lia || (unfold wf_v4, octet; simpl; lia)
     || (apply Z.mod_divide; [done|vm_compute; reflexivity])).
  rewrite H1, H2, H3, H4, !Exists_cons, Exists_nil. tauto.
Qed.

Lemma masked_range s k m base :
  0 ≤ k ≤ 16 → m = Z.shiftl (2 ^ 16 - 1) k mod 2 ^ 16 → (2 ^ k | base) → 0 ≤ s < 65536 →
  Z.land s m = base ↔ base ≤ s < base + 2 ^ k.
Proof.
  intros Hk -> [q ->] Hs. rewrite land_high_mask by lia.
  assert (0 < 2 ^ k) by (apply Z.pow_pos_nonneg; lia).
  set (n := 2 ^ k) in *. pose proof (Z.div_mod s n ltac:(lia)).
  pose proof (Z.mod_pos_bound s n ltac:(lia)). split; intros Hip; [nia|].
  f_equal. symmetry. apply (Z.div_unique _ n q (s - q * n)); lia.
Qed.

Lemma to_ipv4_mapped_iff a v4 : wf_v6 a → V6.to_ipv4_mapped a = Some v4 ↔ mapped a v4.
Proof.
  intros [Hlen Hs]. destruct a as [ss]. unfold V6.to_ipv4_mapped, mapped, wf_v4, octet. simpl in *.
  do 9 (destruct ss as [|? ss]; try done). clear Hlen.
  rewrite !Forall_cons in Hs. destruct_and! Hs. case_bool_decide as E.
  - simplify_eq. split.
    + intros [= <-]. simpl. split; [|repeat f_equal]; Z.to_euclidean_division_equations; lia.
    + intros [Hw [= -> ->]]. destruct v4 as [a b c d]. simpl in *. f_equal.
      f_equal; Z.to_euclidean_division_equations; lia.
  - split; [done|]. intros [_ [= -> -> -> -> -> ->]]. done.
Qed.

Lemma non_public_ipv6_special a : wf_v6 a → is_non_public_ipv6 a = true ↔ special_ip (V6 a).
Proof.
  intros Ha. unfold is_non_public_ipv6, special_ip.
  destruct (V6.to_ipv4_mapped a) as [v4|] eqn:E.
  - apply to_ipv4_mapped_iff in E; [|done]. destruct E as [Hw Es].
    rewrite non_public_ipv4_blocks by done. split; [intros Hb; left; by exists v4|].
    intros [(v4' & [Hw' Es'] & Hb)|[Es'|[Es'|(s0 & rest & Es' & Hs0)]]];
      rewrite Es in Es'; simplify_eq/=; [|lia].
    assert (v4' = v4) as ->; [|done].
    destruct v4, v4'. unfold wf_v4, octet in *. simpl in *. f_equal; lia.
  - assert (¬ ∃ v4, mapped a v4 ∧ Exists (in_block v4) special_purpose) as Hn.
    { intros (v4 & Hm & _). apply (to_ipv4_mapped_iff a v4 Ha) in Hm. congruence. }
    destruct Ha as [Hlen Hs]. destruct (segments a) as [|s0 rest] eqn:Es; [done|].
    rewrite Forall_cons in Hs. destruct Hs as [Hs0 _].
    unfold V6.is_loopback, V6.is_unspecified, V6.is_multicast, V6.is_unique_local,
      V6.is_unicast_link_local, V6.seg. rewrite Es. cbn [lookup list_lookup default id].
    rewrite !orb_true_iff, !bool_decide_eq_true, !Z.eqb_eq, Z.shiftr_div_pow2 by lia.
    change (2 ^ 8) with 256.
    rewrite (masked_range s0 9 65024 64512), (masked_range s0 6 65472 65152)
      by (done || lia || (apply Z.mod_divide; [done|vm_compute; reflexivity])).
    split.
    + intros [[[[H1|H1]|H1]|H1]|H1]; right; [by right; left|by left|..];
        right; right; exists s0, rest; (split; [done|]);
        Z.to_euclidean_division_equations; lia.
    + intros [?|[H1|[H1|(s' & rest' & [= <- <-] & H1)]]]; [done|auto|auto|].
      destruct H1 as [H1|[H1|H1]]; [left; right|right|left; left; right];
        Z.to_euclidean_division_equations; lia.
Qed.

(** The address filter refuses exactly the special-purpose addresses: an IPv4 address is
    non-public when it lies in one of the listed blocks, an IPv6 address when it embeds such
    an IPv4 address as a mapped one or is unspecified, loopback, unique-local, link-local or
    multicast, and no other address is. *)
Theorem non_public_exact ip : wf_ip ip → is_non_public_ip ip = true ↔ special_ip ip.
Proof.
  destruct ip as [a|a]; simpl; [apply non_public_ipv4_blocks|apply non_public_ipv6_special].
Qed.

Lemma non_public_exact_witness :
  wf_ip (V6 (mkV6 [0; 0; 0; 0; 0; 65535; 25664; 258]))
  ∧ special_ip (V6 (mkV6 [0; 0; 0; 0; 0; 65535; 25664; 258])).
Proof.
  assert (Hw : wf_ip (V6 (mkV6 [0; 0; 0; 0; 0; 65535; 25664; 258])))
    by (split; [done|repeat constructor; lia]).
  split; [exact Hw|]. apply (non_public_exact _ Hw). vm_compute. reflexivity.
Defined.

(** Ranges that are not globally routable and that the filter lets through: the
    documentation prefix, and the IPv4-compatible and NAT64 forms of private addresses. *)
Example documentation_prefix_is_public :
  List.map (λ s, is_non_public_ip <$> parse_ip s)
    [lit "2001:db8::1"; lit "::127.0.0.1"; lit "64:ff9b::10.0.0.1"]
  = [Some false; Some false; Some false].
Proof. vm_compute. reflexivity. Qed.
