(* ===== verification/WebFetch.v ===== *)
(** The web-fetch tool
    (crates/codegen/xai-grok-tools/src/implementations/grok_build/web_fetch/): the domain
    allow-list of domain.rs, the page cache of cache.rs, the resolution check of ssrf.rs
    and, of client.rs, URL validation, the https upgrade and the redirect loop.

    URLs, name resolution and HTTP belong to other crates: they are the interface [WebEnv],
    whose [World] may change between any two calls, so that a name may resolve differently
    each time.  [WebEnvLaws] is what the [url] crate documents of [set_scheme].  Calls run in
    a state and error monad that also keeps the log of what reached the network. *)
From Stdlib Require Import String Ascii.
From stdpp Require Import gmap.
From S2P Require Import Prelude RustStr Policy NetFilter.

Class WebEnv := {
  Url : Type;
  (** [Url::parse]; an error is its text *)
  url_parse : str → result Url str;
  scheme : Url → str;
  username : Url → str;
  has_password : Url → bool;
  host_str : Url → option str;
  url_path : Url → str;
  port_or_known_default : Url → option N;
  (** [url.join(location).ok()] *)
  url_join : Url → str → option Url;
  (** The URL after the setter, whether or not it reported an error. *)
  set_scheme : Url → str → Url;
  set_username : Url → str → Url;
  set_password_none : Url → Url;
  set_query_none : Url → Url;
  set_fragment_none : Url → Url;
  url_to_string : Url → str;

  World : Type;
  (** [tokio::net::lookup_host(addr)], keeping the IP of each socket address *)
  lookup_host : World → str → World * result (list IpAddr) str;
  Response : Type;
  (** [client.get(url).header(..).send()] *)
  send : World → Url → World * result Response str;
  status : Response → N;
  (** A header, and its text when it is visible ASCII. *)
  header : Response → str → option (option str);
  response_url : Response → Url;
  (** [resp.bytes()] *)
  body_bytes : World → Response → World * result (list N) str
}.

Class WebEnvLaws `{WebEnv} := {
  set_scheme_host u s : host_str (set_scheme u s) = host_str u;
  set_scheme_https u :
    scheme u = lit "http" → scheme (set_scheme u (lit "https")) = lit "https"
}.

Inductive WebFetchError :=
| UrlTooLong (max : nat)
| UnsupportedScheme (scheme : str)
| CredentialsInUrl
| SingleLabelHost (host : str)
| InvalidUrl (e : str)
| SsrfBlocked (host : str) (ip : IpAddr)
| DnsResolution (host source : str)
| DnsEmpty (host : str)
| ClientBuildError
| HttpRequest (e : str)
| InvalidRedirect
| TooManyRedirects (max : nat)
| ResponseTooLarge (max : nat)
| ProxyConfigError
| IoError (e : str)
| UnsupportedContentType (content_type : str)
| ContentTypeMismatch (content_type : str).

Definition MAX_URL_LENGTH : nat := N.to_nat 2000.
Definition MAX_REDIRECTS : nat := 10.

(** ** The domain allow-list (domain.rs) *)

Section Domains.
Context `{PolicyEnv, WebEnv}.

Inductive HostEntry :=
| AnyPath
| PathPrefixes (prefixes : list str).

Definition SEP : char := chr "/".

(** [match s.find('/') { Some(i) => (s[..i], Some(&s[i..])), None => (s, None) }] *)
Definition split_host (normalized : str) : str * option str :=
  match position (N.eqb SEP) normalized with
  | Some i => (take i normalized, Some (drop i normalized))
  | None => (normalized, None)
  end.

Definition add_prefix (entries : gmap str HostEntry) (host prefix : str) : gmap str HostEntry :=
  match entries !! host with
  | Some (PathPrefixes v) =>
      <[host := PathPrefixes (if bool_decide (prefix ∈ v) then v else v ++ [prefix])]> entries
  | Some AnyPath => entries
  | None => <[host := PathPrefixes [prefix]]> entries
  end.

(** The [Some(raw_path)] arm of the loop. *)
Definition add_path (entries : gmap str HostEntry) (host raw_path : str) : gmap str HostEntry :=
  if match entries !! host with Some AnyPath => true | _ => false end then entries
  else
    let prefix := trim_end_matches (N.eqb SEP) raw_path in
    if str_eqb prefix [] || str_eqb prefix [SEP] then <[host := AnyPath]> entries
    else add_prefix entries host (if starts_with [SEP] prefix then prefix else SEP :: prefix).

(** One iteration of the loop of [DomainMatcher::new]. *)
Definition add_entry (entries : gmap str HostEntry) (raw : str) : gmap str HostEntry :=
  let normalized := normalize_domain raw in
  if str_eqb normalized [] then entries
  else
    match split_host normalized with
    | (host, None) => <[host := AnyPath]> entries
    | (host, Some raw_path) => add_path entries host raw_path
    end.

Definition matcher_new (raw_entries : list str) : gmap str HostEntry := foldl add_entry ∅ raw_entries.

(** [url_path == prefix || url_path.starts_with(prefix) && the next byte is '/'] *)
Definition path_under (url_path prefix : str) : bool :=
  str_eqb url_path prefix
  || match strip_prefix prefix url_path with
     | Some (c :: _) => (c =? SEP)%N
     | _ => false
     end.

(** [None] permits; [Some d] is [DomainNotAllowed(d)]. *)
Definition matcher_check (entries : gmap str HostEntry) (url : Url) : option str :=
  match host_str url with
  | None => Some []
  | Some raw_host =>
      let host := normalize_domain raw_host in
      match entries !! host with
      | Some AnyPath => None
      | Some (PathPrefixes prefixes) =>
          if existsb (path_under (to_lowercase (url_path url))) prefixes then None else Some host
      | None => Some host
      end
  end.

Definition domain_from_url (raw_url : str) : option str :=
  match url_parse raw_url with
  | Ok u => normalize_domain <$> host_str u
  | Err _ => None
  end.
End Domains.

(** ** The page cache (cache.rs) *)

Section Cache.
Context {Output : Type}.

Record CachedPage := mkPage { output : Output; inserted : Z }.
Record FetchCache := mkCache {
  pages : gmap str CachedPage;
  ttl : Z;
  max_entries : nat
}.

(** [inserted.elapsed()] at the time [now] *)
Definition elapsed (now : Z) (p : CachedPage) : Z := Z.max 0 (now - inserted p).

Definition cache_new (ttl : Z) (max_entries : nat) : FetchCache := mkCache ∅ ttl max_entries.

Definition cache_get (now : Z) (c : FetchCache) (url : str) : option Output :=
  p ← pages c !! url;
  if (elapsed now p <? ttl c)%Z then Some (output p) else None.

(** [entries.iter().max_by_key(elapsed)]: the last of the oldest ones in iteration order,
    which a [HashMap] leaves open: [iter] gives it. *)
Definition oldest (iter : gmap str CachedPage → list (str * CachedPage)) (now : Z)
  (m : gmap str CachedPage) : option str :=
  fst <$> foldl (λ acc kv,
            match acc with
            | Some best => if (elapsed now kv.2 <? elapsed now best.2)%Z then acc else Some kv
            | None => Some kv
            end) None (iter m).

Definition insert_text (iter : gmap str CachedPage → list (str * CachedPage)) (now : Z)
  (c : FetchCache) (url : str) (out : Output) (was_truncated : bool) : FetchCache :=
  if was_truncated then c
  else
    let m :=
      if (max_entries c <=? size (pages c))%nat then
        match oldest iter now (pages c) with
        | Some key => delete key (pages c)
        | None => pages c
        end
      else pages c in
    mkCache (<[url := mkPage out now]> m) (ttl c) (max_entries c).
End Cache.
Arguments CachedPage : clear implicits.
Arguments FetchCache : clear implicits.

(** ** URLs and the network (client.rs, ssrf.rs) *)

Section Client.
Context `{WebEnv}.

Definition validate_url (raw : str) : result Url WebFetchError :=
  if (MAX_URL_LENGTH <? utf8_len raw)%nat then Err (UrlTooLong MAX_URL_LENGTH)
  else
    let? parsed := rmap_err InvalidUrl (url_parse raw) in
    if negb (one_of (scheme parsed) [lit "http"; lit "https"])
    then Err (UnsupportedScheme (scheme parsed))
    else if negb (str_eqb (username parsed) []) || has_password parsed then Err CredentialsInUrl
    else
      match host_str parsed with
      | Some host =>
          if (length (split_on (chr ".") host) <? 2)%nat && negb (is_explicit_local_host host)
          then Err (SingleLabelHost host)
          else Ok parsed
      | None => Ok parsed
      end.

Definition upgrade_to_https (url : Url) : Url :=
  if negb (str_eqb (scheme url) (lit "http")) then url
  else
    match host_str url with
    | Some host => if is_explicit_local_host host then url else set_scheme url (lit "https")
    | None => set_scheme url (lit "https")
    end.

Definition is_same_host (a b : Url) : bool := bool_decide (host_str a = host_str b).

Definition observable_url (url : Url) : str :=
  url_to_string (set_fragment_none (set_query_none (set_password_none (set_username url [])))).

(** What reached the network, oldest first. *)
Inductive NetEvent :=
| Resolved (host : str) (addrs : list IpAddr)
| Requested (url : Url).

Record NetState := mkNet { world : World; log : list NetEvent }.
Definition net (A : Type) : Type := NetState → NetState * result A WebFetchError.

Definition nret {A} (a : A) : net A := λ s, (s, Ok a).
Definition nfail {A} (e : WebFetchError) : net A := λ s, (s, Err e).
Definition nbind {A B} (m : net A) (k : A → net B) : net B :=
  λ s, match m s with
       | (s', Ok a) => k a s'
       | (s', Err e) => (s', Err e)
       end.
Notation "'let!' x ':=' m 'in' k" := (nbind m (fun x => k))
  (at level 10, x pattern, m at level 200, k at level 200).
Notation "'do!' m ';' k" := (nbind m (fun _ => k))
  (at level 10, m at level 200, k at level 200).

Definition resolve (host addr_str : str) : net (list IpAddr) :=
  λ s, match lookup_host (world s) addr_str with
       | (w, Ok addrs) => (mkNet w (log s ++ [Resolved host addrs]), Ok addrs)
       | (w, Err e) => (mkNet w (log s), Err (DnsResolution host e))
       end.
Definition request (url : Url) : net Response :=
  λ s, match send (world s) url with
       | (w, Ok resp) => (mkNet w (log s ++ [Requested url]), Ok resp)
       | (w, Err e) => (mkNet w (log s ++ [Requested url]), Err (HttpRequest e))
       end.
Definition read_body (resp : Response) : net (list N) :=
  λ s, match body_bytes (world s) resp with
       | (w, Ok b) => (mkNet w (log s), Ok b)
       | (w, Err e) => (mkNet w (log s), Err (HttpRequest e))
       end.

Definition check_ssrf (url : Url) (allow_local : bool) : net unit :=
  match host_str url with
  | None => nfail (SingleLabelHost [])
  | Some host =>
      match parse_ip host with
      | Some ip =>
          if is_blocked_for_host ip host allow_local then nfail (SsrfBlocked host ip) else nret tt
      | None =>
          let port := default 443%N (port_or_known_default url) in
          let! addrs := resolve host (host ++ lit ":" ++ decimal port) in
          match addrs with
          | [] => nfail (DnsEmpty host)
          | _ =>
              match List.find (λ ip, is_blocked_for_host ip host allow_local) addrs with
              | Some ip => nfail (SsrfBlocked host ip)
              | None => nret tt
              end
          end
      end
  end.

Inductive FetchResult :=
| Content (body : list N) (content_type final_url : str) (status_code : N)
| CrossHostRedirect (original_host redirect_url : str).

(** [status.is_redirection()] *)
Definition is_redirection (code : N) : bool := (300 <=? code)%N && (code <? 400)%N.

(** The end of an iteration that follows no redirect. *)
Definition take_content (resp : Response) (max_content_length : nat) : net FetchResult :=
  let content_type := default (lit "text/html") (header resp (lit "content-type") ≫= id) in
  let final_url := observable_url (response_url resp) in
  let! body := read_body resp in
  if (max_content_length <? length body)%nat then nfail (ResponseTooLarge max_content_length)
  else nret (Content body content_type final_url (status resp)).

(** The loop, with [left = MAX_REDIRECTS - hops]: incrementing [hops] past the limit is
    running out of [left]. *)
Fixpoint fetch_loop (left : nat) (current_url : Url) (max_content_length : nat) (allow_local : bool)
  : net FetchResult :=
  do! check_ssrf current_url allow_local;
  let! resp := request current_url in
  if is_redirection (status resp) then
    match left with
    | O => nfail (TooManyRedirects MAX_REDIRECTS)
    | S left' =>
        match header resp (lit "location") with
        | Some location =>
            match url_join current_url (default [] location) with
            | None => nfail InvalidRedirect
            | Some next_url =>
                if is_same_host current_url next_url
                then fetch_loop left' (upgrade_to_https next_url) max_content_length allow_local
                else nret (CrossHostRedirect (default (lit "unknown") (host_str current_url))
                             (observable_url next_url))
            end
        | None => take_content resp max_content_length
        end
    end
  else take_content resp max_content_length.

Definition fetch_url (url : Url) (max_content_length : nat) (allow_local : bool) : net FetchResult :=
  fetch_loop MAX_REDIRECTS url max_content_length allow_local.
End Client.

(** ** What reaches the network *)

Section NetSafety.
Context `{WebEnv}.

Definition requests (evs : list NetEvent) : list Url :=
  omap (λ e, if e is Requested u then Some u else None) evs.

(** A request for [u] made after the events [prior] was cleared: its host is a literal
    address that is not blocked, or the very last event is a resolution of that host to
    some addresses of which none is blocked. *)
Definition cleared (allow_local : bool) (prior : list NetEvent) (u : Url) : Prop :=
  ∃ host, host_str u = Some host ∧
    match parse_ip host with
    | Some ip => is_blocked_for_host ip host allow_local = false
    | None =>
        ∃ pre addrs, prior = pre ++ [Resolved host addrs] ∧ addrs ≠ []
          ∧ Forall (λ ip, is_blocked_for_host ip host allow_local = false) addrs
    end.

Definition guarded (allow_local : bool) (evs : list NetEvent) : Prop :=
  ∀ pre u post, evs = pre ++ Requested u :: post → cleared allow_local pre u.

(** The shape of a run of the loop with [n] redirects left. *)
Inductive hop_run (al : bool) : nat → Url → list NetEvent → Prop :=
| hop_refused n u evs : requests evs = [] → hop_run al n u evs
| hop_last n u evs : requests evs = [] → cleared al evs u → hop_run al n u (evs ++ [Requested u])
| hop_follow n u next evs evs' :
    requests evs = [] → cleared al evs u → is_same_host u next = true →
    hop_run al n (upgrade_to_https next) evs' →
    hop_run al (S n) u (evs ++ Requested u :: evs').

Lemma check_ssrf_events u al s s' r :
  check_ssrf u al s = (s', r) →
  ∃ evs, log s' = log s ++ evs ∧ requests evs = [] ∧ (is_ok r = true → cleared al evs u).
Proof.
  unfold check_ssrf, cleared. destruct (host_str u) as [host|] eqn:Eh.
  2: { intros [= <- <-]. exists []. by rewrite app_nil_r. }
  destruct (parse_ip host) as [ip|] eqn:Ei.
  { destruct (is_blocked_for_host ip host al) eqn:Eb; intros [= <- <-]; exists [];
      rewrite app_nil_r; repeat split; try done. exists host. by rewrite Ei. }
  unfold nbind, resolve. destruct (lookup_host _ _) as [w [addrs|e]].
  2: { intros [= <- <-]. exists []. by rewrite app_nil_r. }
  destruct addrs as [|a addrs].
  { intros [= <- <-]. by eexists. }
  destruct (List.find _ _) eqn:Ef; intros [= <- <-]; eexists; (split; [done|]); [done|].
  split; [done|]. intros _. exists host. rewrite Ei. split; [done|].
  exists [], (a :: addrs). repeat split; [done|]. apply Forall_forall, find_None, Ef.
Qed.

Lemma take_content_log resp m s : log (take_content resp m s).1 = log s.
Proof.
  unfold take_content, nbind, read_body.
  destruct (body_bytes _ _) as [w [b|e]]; [|done]. by destruct (_ <? _)%nat.
Qed.

(** The run ends with the request for [u] after the events [evs] of its check. *)
Local Ltac ends_with_request evs u Hl :=
  exists (evs ++ [Requested u]); rewrite ?take_content_log; simpl;
  rewrite Hl, <-app_assoc; eauto using hop_run.

Lemma fetch_loop_hops n u m al s :
  ∃ evs, log (fetch_loop n u m al s).1 = log s ++ evs ∧ hop_run al n u evs.
Proof.
  revert u s. induction n as [|n IH]; intros u s; cbn [fetch_loop]; unfold nbind at 1;
    destruct (check_ssrf u al s) as [s1 r] eqn:Ec;
    destruct (check_ssrf_events _ _ _ _ _ Ec) as (evs & Hl & Hn & Hc);
    (destruct r as [[]|e]; [specialize (Hc eq_refl)|by exists evs; eauto using hop_run]);
    unfold nbind, request; destruct (send (world s1) u) as [w [resp|e]];
    [|ends_with_request evs u Hl| |ends_with_request evs u Hl];
    (destruct (is_redirection _); [|ends_with_request evs u Hl]);
    [ends_with_request evs u Hl|].
  destruct (header resp _) as [location|]; [|ends_with_request evs u Hl].
  destruct (url_join _ _) as [next|]; [|ends_with_request evs u Hl].
  destruct (is_same_host u next) eqn:Es; [|ends_with_request evs u Hl].
  destruct (IH (upgrade_to_https next) (mkNet w (log s1 ++ [Requested u]))) as (evs' & Hl' & Hr).
  exists (evs ++ Requested u :: evs'). split; [|by eapply hop_follow].
  rewrite Hl'. simpl. rewrite Hl, <-!app_assoc. done.
Qed.

Lemma requests_app e1 e2 : requests (e1 ++ e2) = requests e1 ++ requests e2.
Proof. apply omap_app. Qed.

Lemma no_requests_split evs u pre post rest :
  requests evs = [] → evs ++ rest = pre ++ Requested u :: post →
  ∃ pre', pre = evs ++ pre' ∧ rest = pre' ++ Requested u :: post.
Proof.
  intros Hn He. apply app_eq_inv in He as [(k & -> & Hk)|(k & -> & Hk)].
  - destruct k as [|e k]; [exists []; by rewrite !app_nil_r|].
    exfalso. rewrite requests_app in Hn. apply app_eq_nil in Hn as [_ Hn].
    simpl in Hk. injection Hk as <- _. done.
  - by exists k.
Qed.

Lemma cleared_app al e1 e2 u : cleared al e2 u → cleared al (e1 ++ e2) u.
Proof.
  intros (host & Hh & Hc). exists host. split; [done|]. destruct (parse_ip host); [done|].
  destruct Hc as (pre & addrs & -> & Hc). exists (e1 ++ pre), addrs. by rewrite app_assoc.
Qed.

Lemma hop_run_guarded al n u evs : hop_run al n u evs → guarded al evs.
Proof.
  induction 1 as [n u evs Hn|n u evs Hn Hc|n u next evs evs' Hn Hc Hs _ IH];
    intros pre v post He.
  - rewrite <-(app_nil_r evs) in He.
    by apply no_requests_split in He as ([|] & _ & ?).
  - apply no_requests_split in He as (pre' & -> & He); [|done].
    destruct pre' as [|? [|]]; simplify_eq/=. by rewrite app_nil_r.
  - apply no_requests_split in He as (pre' & -> & He); [|done].
    destruct pre' as [|e pre']; simplify_eq/=; [by rewrite app_nil_r|].
    apply cleared_app, (cleared_app _ [Requested u]), (IH pre' v post eq_refl).
Qed.

Lemma hop_run_requests al n u evs : hop_run al n u evs → length (requests evs) ≤ S n.
Proof.
  induction 1 as [n u evs Hn|n u evs Hn Hc|n u next evs evs' Hn Hc Hs _ IH];
    rewrite ?requests_app, Hn; simpl; lia.
Qed.

(** A URL that may be fetched in the clear only when it names the local host. *)
Definition encrypted (u : Url) : Prop :=
  scheme u = lit "http" → ∃ host, host_str u = Some host ∧ is_explicit_local_host host = true.

Context `{!WebEnvLaws}.

Lemma upgrade_host u : host_str (upgrade_to_https u) = host_str u.
Proof.
  unfold upgrade_to_https. repeat case_match; rewrite ?set_scheme_host; congruence.
Qed.
Lemma upgrade_encrypted u : encrypted (upgrade_to_https u).
Proof.
  unfold encrypted, upgrade_to_https. destruct (str_eqb (scheme u) _) eqn:E; simpl.
  - apply str_eqb_eq in E. destruct (host_str u) as [host|] eqn:Eh.
    + destruct (is_explicit_local_host host) eqn:El; [by exists host|].
      rewrite set_scheme_https by done. done.
    + rewrite set_scheme_https by done. done.
  - apply str_eqb_neq in E. done.
Qed.

Lemma hop_run_same_host al n u evs :
  hop_run al n u evs → encrypted u →
  Forall (λ v, host_str v = host_str u ∧ encrypted v) (requests evs).
Proof.
  induction 1 as [n u evs Hn|n u evs Hn Hc|n u next evs evs' Hn Hc Hs _ IH]; intros Hu;
    rewrite ?requests_app, Hn; simpl; [done|by repeat constructor|].
  constructor; [done|]. apply bool_decide_eq_true in Hs.
  eapply Forall_impl; [apply IH, upgrade_encrypted|]. simpl. intros v [-> ?].
  by rewrite upgrade_host, Hs.
Qed.

(** C36: No request leaves before its target was cleared: whatever the servers, the redirects
    and the resolver do, and even when names resolve differently each time, every request
    of a fetch is for a literal address that is not blocked or comes immediately after a
    resolution of its host in which no address was blocked; and a fetch makes at most one
    request more than the redirect limit. *)
Theorem fetch_requests_cleared url max_content_length allow_local s :
  ∃ evs, log (fetch_url url max_content_length allow_local s).1 = log s ++ evs
    ∧ guarded allow_local evs ∧ length (requests evs) ≤ MAX_REDIRECTS + 1.
Proof.
  destruct (fetch_loop_hops MAX_REDIRECTS url max_content_length allow_local s) as (evs & Hl & Hr).
  exists evs. split; [exact Hl|]. split; [by eapply hop_run_guarded|].
  apply hop_run_requests in Hr. lia.
Qed.

(** A fetch stays on its host and encrypted: starting from an upgraded URL, every request
    goes to the host of that URL, and none is in plain http unless the host is explicitly
    local, whatever the redirects say. *)
Theorem fetch_stays_on_host url max_content_length allow_local s :
  let u := upgrade_to_https url in
  ∃ evs, log (fetch_url u max_content_length allow_local s).1 = log s ++ evs
    ∧ Forall (λ v, host_str v = host_str url ∧ encrypted v) (requests evs).
Proof.
  destruct (fetch_loop_hops MAX_REDIRECTS (upgrade_to_https url) max_content_length allow_local s)
    as (evs & Hl & Hr).
  exists evs. split; [exact Hl|]. rewrite <-(upgrade_host url).
  eapply hop_run_same_host; [exact Hr|apply upgrade_encrypted].
Qed.
End NetSafety.

(** ** What the allow-list permits *)

Section DomainSpec.
Context `{PolicyEnv, WebEnv}.

Definition covers (prefix path : str) : Prop := path = prefix ∨ ∃ r, path = prefix ++ SEP :: r.

(** What one entry of the list permits, read by itself: the host before the first slash,
    on every path when nothing but slashes follows, else on the path that follows and what
    lies below it. *)
Definition entry_permits (raw host path : str) : Prop :=
  normalize_domain raw ≠ [] ∧ SEP ∉ host ∧
  (normalize_domain raw = host
   ∨ ∃ p, normalize_domain raw = host ++ SEP :: p
       ∧ (trim_end_matches (N.eqb SEP) (SEP :: p) = []
          ∨ trim_end_matches (N.eqb SEP) (SEP :: p) ≠ []
            ∧ covers (trim_end_matches (N.eqb SEP) (SEP :: p)) path)).

(** What the compiled list permits. *)
Definition permits (entries : gmap str HostEntry) (host path : str) : Prop :=
  match entries !! host with
  | Some AnyPath => True
  | Some (PathPrefixes v) => ∃ prefix, prefix ∈ v ∧ covers prefix path
  | None => False
  end.

Lemma path_under_covers path prefix : path_under path prefix = true ↔ covers prefix path.
Proof.
  unfold path_under, covers. rewrite orb_true_iff, str_eqb_eq. apply or_iff_compat_l.
  destruct (strip_prefix prefix path) as [[|c r]|] eqn:E; [apply strip_prefix_Some in E..|].
  - split; [done|]. intros [r ->]. rewrite app_nil_r in E.
    apply (f_equal length) in E. rewrite length_app in E. simpl in E. lia.
  - rewrite N.eqb_eq. split; [intros ->; by exists r|]. intros [r' ->].
    by apply app_inv_head in E as [= ->].
  - split; [done|]. intros [r ->].
    assert (strip_prefix prefix (prefix ++ SEP :: r) = Some (SEP :: r))
      by (by apply strip_prefix_Some).
    congruence.
Qed.

Lemma split_host_spec n :
  match split_host n with
  | (host, None) => n = host ∧ SEP ∉ host
  | (host, Some q) => ∃ p, q = SEP :: p ∧ n = host ++ SEP :: p ∧ SEP ∉ host
  end.
Proof.
  unfold split_host. induction n as [|c n IH]; simpl; [set_solver|].
  destruct (N.eqb_spec SEP c) as [<-|Hc]; [exists n; set_solver|].
  destruct (position (N.eqb SEP) n) as [i|]; simpl in *.
  - destruct IH as (p & -> & E & Hn). exists p. split; [done|]. split; [by rewrite E at 1|set_solver].
  - destruct IH. set_solver.
Qed.

Lemma host_split_unique (h h' p p' : str) :
  SEP ∉ h → SEP ∉ h' → h ++ SEP :: p = h' ++ SEP :: p' → h = h' ∧ p = p'.
Proof.
  revert h'. induction h as [|c h IH]; intros [|c' h'] Hh Hh' E; simplify_eq/=;
    [done|set_solver|set_solver|].
  destruct (IH h') as [-> ->]; set_solver.
Qed.

(** The leading slash of a path survives trimming unless the path is all slashes. *)
Lemma trim_slashes p :
  let t := trim_end_matches (N.eqb SEP) (SEP :: p) in
  t = [] ∨ starts_with [SEP] t = true ∧ t ≠ [SEP].
Proof.
  unfold trim_end_matches. simpl.
  destruct (drop_while_suffix (N.eqb SEP) (rev p ++ [SEP])) as (w & Hw & Hall).
  destruct (drop_while (N.eqb SEP) (rev p ++ [SEP])) as [|c d] eqn:Ed; [by left|right].
  assert (N.eqb SEP c = false) as Hc.
  { clear -Ed. induction (rev p ++ [SEP]) as [|x l IH]; simpl in Ed; [done|].
    destruct (N.eqb SEP x) eqn:E; [by apply IH|]. by injection Ed as <- _. }
  destruct d as [|d0 d' _] using rev_ind.
  { apply (f_equal last) in Hw. rewrite last_snoc, last_app_cons in Hw. simpl in Hw.
    injection Hw as <-. done. }
  rewrite app_comm_cons, app_assoc in Hw. apply app_inj_tail in Hw as [_ <-].
  simpl. rewrite rev_app_distr. simpl. split; [by apply starts_with_spec; eexists|].
  intros [= E]. by apply app_eq_nil in E as [_ ?].
Qed.

Lemma permits_any e host path : permits (<[host := AnyPath]> e) host path.
Proof. unfold permits. by rewrite lookup_insert_eq. Qed.
Lemma permits_other e host host' entry path :
  host ≠ host' → permits (<[host := entry]> e) host' path ↔ permits e host' path.
Proof. intros Hne. unfold permits. by rewrite lookup_insert_ne. Qed.

Lemma add_prefix_permits e host prefix path :
  permits (add_prefix e host prefix) host path ↔ permits e host path ∨ covers prefix path.
Proof.
  unfold add_prefix, permits. destruct (e !! host) as [[|v]|] eqn:E.
  - rewrite E. tauto.
  - rewrite lookup_insert_eq. case_bool_decide as Hv.
    + split; [by left|]. intros [?|?]; [done|by exists prefix].
    + setoid_rewrite elem_of_app. setoid_rewrite list_elem_of_singleton. naive_solver.
  - rewrite lookup_insert_eq. setoid_rewrite list_elem_of_singleton. naive_solver.
Qed.
Lemma add_prefix_other e host host' prefix path :
  host ≠ host' → permits (add_prefix e host prefix) host' path ↔ permits e host' path.
Proof.
  intros Hne. unfold add_prefix. destruct (e !! host) as [[|v]|]; [done|by apply permits_other..].
Qed.

Lemma add_path_other e host host' q path :
  host ≠ host' → permits (add_path e host q) host' path ↔ permits e host' path.
Proof.
  intros Hne. unfold add_path. destruct (match e !! host with Some AnyPath => _ | _ => _ end); [done|].
  destruct (_ || _); [by apply permits_other|by apply add_prefix_other].
Qed.

Lemma add_path_permits e host p path :
  let t := trim_end_matches (N.eqb SEP) (SEP :: p) in
  permits (add_path e host (SEP :: p)) host path ↔
  permits e host path ∨ t = [] ∨ t ≠ [] ∧ covers t path.
Proof.
  intros t. unfold add_path. destruct (e !! host) as [[|v]|] eqn:Ee.
  { unfold permits. rewrite Ee. tauto. }
  all: fold t; pose proof (permits_any e host path);
    destruct (trim_slashes p) as [Ht|[Ht1 Ht2]]; [fold t in Ht; rewrite Ht; simpl; tauto|].
  all: fold t in Ht1, Ht2; rewrite Ht1; destruct (str_eqb _ [] || _) eqn:Et;
    [rewrite orb_true_iff, !str_eqb_eq in Et; destruct Et as [Et|?]; [by rewrite Et in Ht1|done]|].
  all: rewrite add_prefix_permits; rewrite orb_false_iff, !str_eqb_neq in Et; tauto.
Qed.

Lemma add_entry_permits e raw h path :
  permits (add_entry e raw) h path ↔ permits e h path ∨ entry_permits raw h path.
Proof.
  unfold add_entry, entry_permits. pose proof (split_host_spec (normalize_domain raw)) as Hs.
  destruct (str_eqb (normalize_domain raw) []) eqn:En.
  { apply str_eqb_eq in En. naive_solver. }
  apply str_eqb_neq in En.
  assert (Hin : ∀ l p, SEP ∈ (l ++ SEP :: p : str)) by (intros; apply elem_of_app; right; left).
  destruct (split_host (normalize_domain raw)) as [host [q|]].
  - destruct Hs as (p & -> & Hn & Hh). rewrite Hn in En |- *.
    destruct (decide (h = host)) as [->|Hne].
    + rewrite add_path_permits. split.
      { intros [?|Ht]; [by left|]. right. do 2 (split; [done|]). right. by exists p. }
      intros [?|(_ & _ & [E|(p' & E & Ht)])]; [by left| |].
      * destruct Hh. rewrite <-E at 1. apply Hin.
      * apply app_inv_head in E as [= ->]. by right.
    + rewrite add_path_other by done. split; [by left|].
      intros [?|(_ & Hsep & [<-|(p' & E & _)])]; [done|by destruct Hsep|].
      by apply host_split_unique in E as [-> _].
  - destruct Hs as [Hn Hh]. rewrite Hn in *. destruct (decide (h = host)) as [->|Hne].
    + pose proof (permits_any e host path). tauto.
    + rewrite permits_other by done. split; [by left|].
      intros [?|(_ & _ & [E|(p & E & _)])]; [done|by destruct Hne|].
      destruct Hh. rewrite E. apply Hin.
Qed.

Lemma matcher_new_permits raws h path :
  permits (matcher_new raws) h path ↔ ∃ raw, raw ∈ raws ∧ entry_permits raw h path.
Proof.
  unfold matcher_new. induction raws as [|raw raws IH] using rev_ind; simpl.
  - unfold permits. rewrite lookup_empty. set_solver.
  - rewrite foldl_snoc, add_entry_permits, IH. setoid_rewrite elem_of_app.
    setoid_rewrite list_elem_of_singleton. naive_solver.
Qed.

(** The allow-list permits exactly what some entry of it permits by itself: the order of
    the entries, duplicates, and entries for the same host with and without a path make no
    difference, an empty list permits nothing, and a path entry covers its path and what
    lies below it but not its siblings. *)
Theorem domain_matcher_exact raw_entries url :
  matcher_check (matcher_new raw_entries) url = None ↔
  ∃ host raw, host_str url = Some host ∧ raw ∈ raw_entries
    ∧ entry_permits raw (normalize_domain host) (to_lowercase (url_path url)).
Proof.
  transitivity (∃ host, host_str url = Some host ∧
    permits (matcher_new raw_entries) (normalize_domain host) (to_lowercase (url_path url))).
  2: { setoid_rewrite matcher_new_permits. naive_solver. }
  unfold matcher_check, permits. destruct (host_str url) as [host|]; [|naive_solver].
  transitivity (match matcher_new raw_entries !! normalize_domain host with
                | Some AnyPath => True
                | Some (PathPrefixes v) => ∃ prefix, prefix ∈ v ∧ covers prefix (to_lowercase (url_path url))
                | None => False
                end); [|naive_solver].
  destruct (_ !! _) as [[|v]|]; [done| |done].
  setoid_rewrite <-path_under_covers. rewrite <-existsb_elem. by destruct (existsb _ _).
Qed.
End DomainSpec.

(** ** What the cache serves *)

Section CacheSpec.
Context {Output : Type} (iter : gmap str (CachedPage Output) → list (str * CachedPage Output)).
(** A [HashMap] iterates over its entries in some order. *)
Hypothesis iter_entries : ∀ m, iter m ≡ₚ map_to_list m.

(** One call of [insert_text]: the time, the URL, the output and the truncation flag. *)
Record Insertion := mkIns { at_time : Z; key : str; value : Output; truncated : bool }.

Definition insert_all_texts (c : FetchCache Output) (ops : list Insertion) : FetchCache Output :=
  foldl (λ c op, insert_text iter (at_time op) c (key op) (value op) (truncated op)) c ops.

Lemma oldest_entry now m :
  match oldest iter now m with
  | Some k => is_Some (m !! k)
  | None => m = ∅
  end.
Proof.
  unfold oldest.
  set (pick := λ (acc : option (str * CachedPage Output)) kv, match acc with
               | Some best => if (elapsed now kv.2 <? elapsed now best.2)%Z then acc else Some kv
               | None => Some kv end).
  assert (Hp : ∀ l acc, match foldl pick acc l with
                        | Some kv => acc = Some kv ∨ kv ∈ l
                        | None => acc = None ∧ l = []
                        end).
  { induction l as [|kv l IH]; intros acc; simpl; [by destruct acc; auto|].
    specialize (IH (pick acc kv)). destruct (foldl _ _ l) as [kv'|].
    - destruct IH as [IH|IH]; [|by right; right]. unfold pick in IH.
      destruct acc as [best|]; [destruct (_ <? _)%Z|]; simplify_eq; auto; right; left.
    - destruct IH as [IH _]. unfold pick in IH. destruct acc; [by destruct (_ <? _)%Z|done]. }
  specialize (Hp (iter m) None). destruct (foldl pick None (iter m)) as [[k p]|]; simpl.
  - destruct Hp as [?|Hp]; [done|]. rewrite iter_entries, elem_of_map_to_list in Hp. by exists p.
  - destruct Hp as [_ Hp]. apply map_to_list_empty_iff, Permutation_nil_r.
    by rewrite <-Hp, iter_entries.
Qed.

Lemma insert_text_size now c url out tr :
  (size (pages c) ≤ 1 `max` max_entries c)%nat →
  (size (pages (insert_text iter now c url out tr)) ≤ 1 `max` max_entries c)%nat.
Proof.
  intros Hs. unfold insert_text. destruct tr; [done|]. simpl.
  pose proof (oldest_entry now (pages c)) as Ho.
  assert (Hi : ∀ m : gmap str (CachedPage Output), size (<[url := mkPage out now]> m) ≤ S (size m)).
  { intros m. rewrite map_size_insert. destruct (m !! url); simpl; lia. }
  destruct (Nat.leb_spec (max_entries c) (size (pages c))) as [Hm|Hm]; [|specialize (Hi (pages c)); lia].
  destruct (oldest iter now (pages c)) as [k|].
  - specialize (Hi (delete k (pages c))). rewrite map_size_delete_Some in Hi by done.
    assert (size (pages c) ≠ 0); [|lia].
    intros E. apply map_size_empty_inv in E. rewrite E, lookup_empty in Ho. by destruct Ho.
  - rewrite Ho. specialize (Hi ∅). rewrite map_size_empty in Hi. lia.
Qed.

(** Where a page of the cache comes from. *)
Definition page_source (ops : list Insertion) (url : str) (p : CachedPage Output) : Prop :=
  ∃ pre post, ops = pre ++ mkIns (inserted p) url (output p) false :: post
    ∧ Forall (λ op, key op = url → truncated op = true) post.

Lemma insert_text_lookup now c op url p :
  pages (insert_text iter now c (key op) (value op) (truncated op)) !! url = Some p →
  (truncated op = false ∧ url = key op ∧ p = mkPage (value op) now)
  ∨ ((key op = url → truncated op = true) ∧ pages c !! url = Some p).
Proof.
  unfold insert_text. destruct (truncated op); [by right|]. simpl.
  destruct (decide (url = key op)) as [->|Hne]; [rewrite lookup_insert_eq; intros [= <-]; by left|].
  rewrite lookup_insert_ne by done. intros Hp. right. split; [by intros <-|]. revert Hp.
  destruct (_ <=? _)%nat; [|done]. destruct (oldest iter now (pages c)) as [k|]; [|done].
  rewrite lookup_delete_Some. by intros [].
Qed.

Lemma insert_all_texts_ok ttl max ops :
  let c := insert_all_texts (cache_new ttl max) ops in
  WebFetch.ttl c = ttl ∧ max_entries c = max ∧ (size (pages c) ≤ 1 `max` max)%nat
  ∧ ∀ url p, pages c !! url = Some p → page_source ops url p.
Proof.
  cbv zeta. unfold insert_all_texts.
  induction ops as [|op ops (Ht & Hm & Hs & IH)] using rev_ind; simpl.
  { rewrite map_size_empty. repeat split; [lia|]. intros url p. by rewrite lookup_empty. }
  rewrite foldl_snoc. set (c := foldl _ _ ops) in *. split_and!.
  - rewrite <-Ht. unfold insert_text. by destruct (truncated op).
  - rewrite <-Hm. unfold insert_text. by destruct (truncated op).
  - rewrite <-Hm in Hs |- *. by apply insert_text_size.
  - intros url p [(Htr & -> & ->)|[Hk Hp]]%insert_text_lookup.
    + exists ops, []. split; [|done]. by destruct op as [? ? ? []].
    + destruct (IH url p Hp) as (pre & post & -> & Hpost).
      exists pre, (post ++ [op]). rewrite <-app_assoc. split; [done|].
      apply Forall_app. split; [done|]. by constructor.
Qed.

(** The cache serves only what it was given and stays small: whatever was inserted, in
    whatever order the map iterates, it holds at most the configured number of pages (one
    when the limit is zero), and a page it serves is the output of the latest insertion for
    that URL that was not truncated, younger than the time to live. *)
Theorem cache_serves_latest ttl max ops now url :
  let c := insert_all_texts (cache_new ttl max) ops in
  (size (pages c) ≤ 1 `max` max)%nat
  ∧ ∀ out, cache_get now c url = Some out →
      ∃ t, page_source ops url (mkPage out t) ∧ (Z.max 0 (now - t) < ttl)%Z.
Proof.
  pose proof (insert_all_texts_ok ttl max ops) as Hok. cbv zeta in Hok |- *.
  destruct Hok as (Ht & _ & Hs & Hp). set (c := insert_all_texts _ _) in *.
  split; [done|]. intros out. unfold cache_get, elapsed. rewrite Ht.
  destruct (pages c !! url) as [[o t]|] eqn:E; simpl; [|done].
  destruct (Z.ltb_spec (Z.max 0 (now - t)) ttl); [|done]. intros [= <-].
  exists t. split; [by apply Hp|done].
Qed.
End CacheSpec.

Lemma cache_serves_latest_witness :
  let c := insert_all_texts map_to_list (cache_new 10 2)
             [mkIns 0 (lit "a") 1%nat false; mkIns 1 (lit "b") 2%nat false;
              mkIns 2 (lit "c") 3%nat false; mkIns 3 (lit "a") 4%nat true] in
  cache_get 5 c (lit "a") = None ∧ cache_get 5 c (lit "c") = Some 3%nat
  ∧ (size (pages c) ≤ 2)%nat.
Proof.
  intros c. split; [vm_compute; reflexivity|]. split; [vm_compute; reflexivity|].
  exact (proj1 (cache_serves_latest map_to_list (λ m, Permutation_refl _) 10 2 _ 5 (lit "a"))).
Defined.

(** ** A concrete network for the witness

    A URL is a scheme, a host and a path; the world counts resolutions, and the name
    [flip.test] resolves to a public address the first time and to loopback afterwards;
    every server redirects to an absolute plain-http URL on its own host. *)
Section Demo.
Record DemoUrl := mkDemo { d_scheme : str; d_host : str; d_path : str }.

#[local] Instance demo_web : WebEnv := {|
  Url := DemoUrl;
  url_parse s := Ok (mkDemo (lit "http") s [SEP]);
  scheme := d_scheme;
  username _ := [];
  has_password _ := false;
  host_str u := Some (d_host u);
  url_path := d_path;
  port_or_known_default _ := Some 443%N;
  url_join u location := Some (mkDemo (lit "http") (d_host u) location);
  set_scheme u s := mkDemo s (d_host u) (d_path u);
  set_username u _ := u;
  set_password_none u := u;
  set_query_none u := u;
  set_fragment_none u := u;
  url_to_string u := d_scheme u ++ lit "://" ++ d_host u ++ d_path u;
  World := nat;
  lookup_host n addr :=
    (S n, Ok [V4 (if starts_with (lit "flip.test") addr && (0 <? n)%nat
                  then mkV4 127 0 0 1 else mkV4 1 1 1 1)]);
  Response := DemoUrl;
  send n u := (n, Ok u);
  status u := if str_eqb (d_path u) [SEP] then 301%N else 200%N;
  header u name := if str_eqb name (lit "location") then Some (Some (lit "/next")) else None;
  response_url u := u;
  body_bytes n _ := (n, Ok [])
|}.
#[local] Instance demo_web_laws : WebEnvLaws.
Proof. by split. Qed.

Definition demo_start : NetState := mkNet 0%nat [].

Lemma fetch_stays_on_host_witness :
  let u := upgrade_to_https (mkDemo (lit "http") (lit "docs.rs") [SEP]) in
  requests (log (fetch_url u 100 false demo_start).1)
  = [mkDemo (lit "https") (lit "docs.rs") [SEP]; mkDemo (lit "https") (lit "docs.rs") (lit "/next")]
  ∧ ∃ evs, log (fetch_url u 100 false demo_start).1 = [] ++ evs
      ∧ Forall (λ v, host_str v = Some (lit "docs.rs") ∧ encrypted v) (requests evs).
Proof.
  split; [vm_compute; reflexivity|].
  exact (fetch_stays_on_host (mkDemo (lit "http") (lit "docs.rs") [SEP]) 100 false demo_start).
Defined.

(** A name that is rebound to loopback between two hops is refused at the second one. *)
Example rebinding_refused :
  (fetch_url (mkDemo (lit "https") (lit "flip.test") [SEP]) 100 true demo_start).2
  = Err (SsrfBlocked (lit "flip.test") (V4 (mkV4 127 0 0 1))).
Proof. vm_compute. reflexivity. Qed.
Example redirects_bounded :
  (fetch_url (mkDemo (lit "https") (lit "docs.rs") [SEP]) 100 false demo_start).2
  = Ok (Content [] (lit "text/html") (lit "https://docs.rs/next") 200).
Proof. vm_compute. reflexivity. Qed.
End Demo.
