(* ===== verification/HashIter.v ===== *)
(** The order in which hash maps and hash sets are iterated: any order of their entries.
    Shared by the components that iterate over a [HashMap] or a [HashSet]. *)
From stdpp Require Import gmap.
From S2P Require Import Prelude.

(** [HashMap::iter] and [HashSet::iter]. *)
Class HashOrder := {
  iter : ∀ {K : Type} `{Countable K} {A : Type}, gmap K A → list (K * A);
  iter_entries {K : Type} `{Countable K} {A : Type} (m : gmap K A) : iter m ≡ₚ map_to_list m;
  iter_set : ∀ {K : Type} `{Countable K}, gset K → list K;
  iter_set_elements {K : Type} `{Countable K} (X : gset K) : iter_set X ≡ₚ elements X
}.

Lemma elem_of_iter `{HashOrder} {K} `{Countable K} {A} (m : gmap K A) k a : (k, a) ∈ iter m ↔ m !! k = Some a.
Proof. by rewrite iter_entries, elem_of_map_to_list. Qed.
Lemma elem_of_iter_set `{HashOrder} {K} `{Countable K} (X : gset K) k : k ∈ iter_set X ↔ k ∈ X.
Proof. by rewrite iter_set_elements, elem_of_elements. Qed.
Lemma iter_keys_NoDup `{HashOrder} {K} `{Countable K} {A} (m : gmap K A) : NoDup (iter m).*1.
Proof. rewrite iter_entries. apply NoDup_fst_map_to_list. Qed.

(** The order of the keys, for examples. *)
#[export] Instance key_order : HashOrder | 100 := {
  iter K _ _ A m := map_to_list m;
  iter_entries K _ _ A m := reflexivity _;
  iter_set K _ _ X := elements X;
  iter_set_elements K _ _ X := reflexivity _
}.
