(* ===== verification/CoordTypes.v ===== *)
(** The data of the subagent coordinator
    (crates/codegen/xai-grok-tools/src/implementations/grok_build/task/): requests and
    results of types.rs, the admission policy of admission.rs, the child records and
    snapshots of coordinator_state.rs.

    A oneshot sender and a cancellation token are names ([Chan], [Token]): clones of a token
    share its name, and the sets of closed receivers and of cancelled tokens belong to the
    coordinator's environment.  Instants are nanoseconds.  [Extra] stands for the fields of
    a request that are only handed on to the child. *)
From Stdlib Require Import String Ascii.
From stdpp Require Import gmap.
From S2P Require Import Prelude RustStr Json.

Abbreviation Chan := N.
Abbreviation Token := N.

(** ** Requests and results *)

Inductive SubagentOwner := Task | Workflow (run_id : str).

Definition workflow_run_id (o : SubagentOwner) : option str :=
  match o with Task => None | Workflow run_id => Some run_id end.
Definition is_workflow (o : SubagentOwner) : bool :=
  match o with Workflow _ => true | Task => false end.

Record SubagentRequest {Extra : Type} := mkReq {
  rq_id : str;
  description : str;
  subagent_type : str;
  parent_session_id : str;
  parent_prompt_id : option str;
  resume_from : option str;
  rq_cwd : option str;
  rq_persona : option str;
  completion_output_cap : option nat;
  loop_task_id : option str;
  run_in_background : bool;
  surface_completion : bool;
  await_to_completion : bool;
  owner : SubagentOwner;
  cancel_token : Token;
  extra : Extra
}.
Arguments SubagentRequest : clear implicits.

Section Requests.
Context {Extra : Type}.
Implicit Types r : SubagentRequest Extra.

Definition from_scheduler_loop r : bool := bool_decide (is_Some (loop_task_id r)).
Definition awaits_in_foreground r : bool := negb (run_in_background r) && negb (await_to_completion r).
Definition rq_is_workflow r : bool := is_workflow (owner r).

Definition set_parent_session (p : str) r : SubagentRequest Extra :=
  mkReq _ (rq_id r) (description r) (subagent_type r) p (parent_prompt_id r) (resume_from r)
    (rq_cwd r) (rq_persona r) (completion_output_cap r) (loop_task_id r) (run_in_background r)
    (surface_completion r) (await_to_completion r) (owner r) (cancel_token r) (extra r).
Definition set_surface (b : bool) r : SubagentRequest Extra :=
  mkReq _ (rq_id r) (description r) (subagent_type r) (parent_session_id r) (parent_prompt_id r)
    (resume_from r) (rq_cwd r) (rq_persona r) (completion_output_cap r) (loop_task_id r)
    (run_in_background r) b (await_to_completion r) (owner r) (cancel_token r) (extra r).
Definition set_owner (o : SubagentOwner) r : SubagentRequest Extra :=
  mkReq _ (rq_id r) (description r) (subagent_type r) (parent_session_id r) (parent_prompt_id r)
    (resume_from r) (rq_cwd r) (rq_persona r) (completion_output_cap r) (loop_task_id r)
    (run_in_background r) (surface_completion r) (await_to_completion r) o (cancel_token r) (extra r).
Definition set_loop_task (l : option str) r : SubagentRequest Extra :=
  mkReq _ (rq_id r) (description r) (subagent_type r) (parent_session_id r) (parent_prompt_id r)
    (resume_from r) (rq_cwd r) (rq_persona r) (completion_output_cap r) l (run_in_background r)
    (surface_completion r) (await_to_completion r) (owner r) (cancel_token r) (extra r).

Definition belongs_to_session r (session : option str) : bool :=
  match session with None => true | Some id => str_eqb (parent_session_id r) id end.
End Requests.

Record SubagentResult := mkResult {
  success : bool;
  rs_output : str;
  rs_error : option str;
  cancelled : bool;
  rs_subagent_id : str;
  rs_child_session_id : str;
  tool_calls : N;
  turns : N;
  rs_duration_ms : N;
  tokens_used : N;
  output_tokens_used : N;
  total_tokens_used : N;
  output_usage_incomplete : bool;
  rs_worktree_path : option str;
  backgrounded : bool
}.

(** [SubagentResult { success: false, cancelled, error, subagent_id, child_session_id,
    backgrounded, ..Default::default() }] *)
Definition bare_result (cancelled : bool) (error : option str) (id child_session : str)
  (backgrounded : bool) : SubagentResult :=
  mkResult false [] error cancelled id child_session 0 0 0 0 0 0 false None backgrounded.

Definition result_status (r : SubagentResult) : str :=
  if cancelled r then lit "cancelled" else if success r then lit "completed" else lit "failed".

Definition clear_output (r : SubagentResult) : SubagentResult :=
  mkResult (success r) [] (rs_error r) (cancelled r) (rs_subagent_id r) (rs_child_session_id r)
    (tool_calls r) (turns r) (rs_duration_ms r) (tokens_used r) (output_tokens_used r)
    (total_tokens_used r) (output_usage_incomplete r) (rs_worktree_path r) (backgrounded r).

(** ** Admission (admission.rs) *)

Inductive LimitBehavior := LQueue | LFail.
Record SubagentLimits := mkLimits { max_concurrent : nat; behavior : LimitBehavior }.

Definition DEFAULT_MAX_CONCURRENT : nat := 32.
Definition default_limits : SubagentLimits := mkLimits DEFAULT_MAX_CONCURRENT LQueue.

(** [parse_positive] and [parse_positive_env] of xai-grok-tools/src/util/env.rs, on a 64-bit
    target ([usize::try_from] cannot fail). *)
Definition parse_positive (value : str) : option Z :=
  v ← parse_uint U64 value; if (0 <? v)%Z then Some v else None.
Definition parse_positive_env (value : option str) : option nat :=
  value ← value; Z.to_nat <$> parse_positive value.

(** [SubagentLimits::from_lookup] *)
Definition limits_from_lookup (lookup : str → option str) : SubagentLimits :=
  mkLimits (default (max_concurrent default_limits)
              (parse_positive_env (lookup (lit "GROK_MAX_CONCURRENT_SUBAGENTS"))))
    (match lookup (lit "GROK_SUBAGENT_LIMIT_BEHAVIOR") with
     | None => LQueue
     | Some value => if eq_ignore_ascii_case value (lit "fail") then LFail else LQueue
     end).

Inductive AdmissionError := ConcurrentLimitReached (limit : nat).
Inductive AdmissionDecision := AStart | AEnqueue | AReject (e : AdmissionError).

Definition admission_message (e : AdmissionError) : str :=
  match e with
  | ConcurrentLimitReached limit =>
      lit "Concurrent subagent limit reached: " ++ decimal (N.of_nat limit)
      ++ lit " subagents are already running for this session. Do not retry; spawning succeeds again when a running subagent finishes."
  end.

(** [Admission::new] *)
Definition admission_new (limits : SubagentLimits) : SubagentLimits :=
  mkLimits (max_concurrent limits `max` 1) (behavior limits).
Definition has_capacity (a : SubagentLimits) (running : nat) : bool := (running <? max_concurrent a)%nat.
Definition admit_request {Extra} (a : SubagentLimits) (r : SubagentRequest Extra) (running : nat)
  : AdmissionDecision :=
  if is_workflow (owner r) then AStart
  else if has_capacity a running then AStart
  else match behavior a with
       | LQueue => AEnqueue
       | LFail => AReject (ConcurrentLimitReached (max_concurrent a))
       end.

(** ** Child records (coordinator_state.rs) *)

Section Records.
Context {Extra : Type}.

Record PendingChild := mkPending {
  request : SubagentRequest Extra;
  started_at : Z;
  cancellation : Token;
  spawn_reply : option Chan;
  foreground_deadline : option Z;
  handle_only : bool;
  explicitly_killed : bool
}.

(** [StartedChild], less the control handle, which is named by the child. *)
Record StartedChild := mkStarted {
  child_session_id : str;
  persona : option str;
  resumed_from : option str;
  child_cwd : str;
  worktree_path : option str;
  effective_model_id : str;
  effective_model_route : option str;
  effective_model_agent_type : option str;
  definition_background : bool
}.

(** [ActiveChild] repeats the fields of [PendingChild] and adds those of [StartedChild]. *)
Record ActiveChild := mkActive { base : PendingChild; started : StartedChild }.

Record CompletedChild := mkCompleted {
  c_request : SubagentRequest Extra;
  c_started_at : Z;
  c_child_session_id : str;
  c_persona : option str;
  c_resumed_from : option str;
  c_child_cwd : str;
  c_worktree_path : option str;
  snapshot_ref : option str;
  persisted_output_ref : option str;
  c_effective_model_id : str;
  c_effective_model_route : option str;
  c_effective_model_agent_type : option str;
  c_result : SubagentResult
}.

Definition set_reply (reply : option Chan) (c : PendingChild) : PendingChild :=
  mkPending (request c) (started_at c) (cancellation c) reply (foreground_deadline c)
    (handle_only c) (explicitly_killed c).
Definition set_killed (b : bool) (c : PendingChild) : PendingChild :=
  mkPending (request c) (started_at c) (cancellation c) (spawn_reply c) (foreground_deadline c)
    (handle_only c) b.
Definition set_request (r : SubagentRequest Extra) (c : PendingChild) : PendingChild :=
  mkPending r (started_at c) (cancellation c) (spawn_reply c) (foreground_deadline c)
    (handle_only c) (explicitly_killed c).
(** [mark_backgrounded] *)
Definition mark_backgrounded (c : PendingChild) : PendingChild :=
  mkPending (request c) (started_at c) (cancellation c) (spawn_reply c) None true
    (explicitly_killed c).
Definition on_base (f : PendingChild → PendingChild) (a : ActiveChild) : ActiveChild :=
  mkActive (f (base a)) (started a).

(** The queue (coordinator/queue.rs) *)
Inductive QueuedCaller :=
| Awaiting (result_tx : Chan) (deadline : option Z)
| Backgrounded.
Record QueuedSpawn := mkQueued {
  q_request : SubagentRequest Extra;
  spawn_parent_session_id : str;
  queued_at : Z;
  caller : QueuedCaller
}.
Definition caller_deadline (c : QueuedCaller) : option Z :=
  match c with Awaiting _ deadline => deadline | Backgrounded => None end.
Definition is_backgrounded (c : QueuedCaller) : bool :=
  match c with Backgrounded => true | Awaiting _ _ => false end.
Definition into_spawn_reply (c : QueuedCaller) : option Chan :=
  match c with Awaiting tx _ => Some tx | Backgrounded => None end.
Definition set_caller (c : QueuedCaller) (q : QueuedSpawn) : QueuedSpawn :=
  mkQueued (q_request q) (spawn_parent_session_id q) (queued_at q) c.
Definition set_q_request (r : SubagentRequest Extra) (q : QueuedSpawn) : QueuedSpawn :=
  mkQueued r (spawn_parent_session_id q) (queued_at q) (caller q).
End Records.
Arguments PendingChild : clear implicits.
Arguments ActiveChild : clear implicits.
Arguments CompletedChild : clear implicits.
Arguments QueuedSpawn : clear implicits.

(** ** Snapshots *)

Record SubagentProgress := mkProgress {
  pg_turn_count : N; pg_tool_call_count : N; pg_tokens_used : N; pg_context_window_tokens : N;
  pg_context_usage_pct : N; pg_tools_used : list str; pg_error_count : N
}.
Inductive SubagentSnapshotStatus :=
| Initializing
| Running (p : SubagentProgress)
| SCompleted (output : str) (tool_calls turns : N) (worktree_path : option str)
| SFailed (error : str)
| SCancelled (reason : option str).
Record SubagentSnapshot := mkSnapshot {
  sn_subagent_id : str; sn_description : str; sn_subagent_type : str;
  status : SubagentSnapshotStatus; started_at_epoch_ms : N; sn_duration_ms : N;
  sn_persona : option str
}.
Record SubagentInspection := mkInspection {
  snapshot : SubagentSnapshot; in_parent_session_id : str; in_child_session_id : str;
  fork_parent_prompt_id : option str; in_resumed_from : option str
}.
Record RunningSeed := mkSeed {
  sd_subagent_id : str; sd_description : str; sd_subagent_type : str;
  sd_started_at_epoch_ms : N; sd_duration_ms : N; sd_persona : option str;
  sd_parent_session_id : str; sd_child_session_id : str;
  sd_fork_parent_prompt_id : option str; sd_resumed_from : option str
}.
Record SubagentCompletionSummary := mkSummary {
  sm_subagent_id : str; sm_subagent_type : str; sm_description : str; sm_success : bool;
  sm_duration_ms : N; sm_tool_calls : N; sm_turns : N; sm_output : str
}.
Record ActiveSubagentSummary := mkActiveSummary {
  as_subagent_id : str; as_subagent_type : str; as_description : str; as_elapsed_ms : N
}.

(** The two clocks: [Instant::now()], and [SystemTime::now()] in nanoseconds since the epoch. *)
Record Clock := mkClock { instant_now : Z; system_now : Z }.

Definition as_millis_u64 (nanos : Z) : N := Z.to_N ((nanos / 1000000) mod 2 ^ 64).
(** [instant.elapsed()] *)
Definition elapsed_since (k : Clock) (t : Z) : Z := Z.max 0 (instant_now k - t).
Definition instant_to_epoch_ms (k : Clock) (t : Z) : N :=
  as_millis_u64 (Z.max 0 (system_now k - elapsed_since k t)).
Definition elapsed_ms (k : Clock) (t : Z) : N := as_millis_u64 (elapsed_since k t).

Section Snapshots.
Context {Extra : Type} (k : Clock).

Definition active_summary (c : ActiveChild Extra) : ActiveSubagentSummary :=
  let r := request (base c) in
  mkActiveSummary (rq_id r) (subagent_type r) (description r) (elapsed_ms k (started_at (base c))).

Definition running_seed (c : ActiveChild Extra) : RunningSeed :=
  let r := request (base c) in
  mkSeed (rq_id r) (description r) (subagent_type r) (instant_to_epoch_ms k (started_at (base c)))
    (elapsed_ms k (started_at (base c))) (persona (started c)) (parent_session_id r)
    (child_session_id (started c)) (parent_prompt_id r) (resumed_from (started c)).

Definition running_inspection (seed : RunningSeed) (p : SubagentProgress) : SubagentInspection :=
  mkInspection
    (mkSnapshot (sd_subagent_id seed) (sd_description seed) (sd_subagent_type seed) (Running p)
       (sd_started_at_epoch_ms seed) (sd_duration_ms seed) (sd_persona seed))
    (sd_parent_session_id seed) (sd_child_session_id seed) (sd_fork_parent_prompt_id seed)
    (sd_resumed_from seed).

Definition initializing_snapshot (r : SubagentRequest Extra) (since : Z) : SubagentSnapshot :=
  mkSnapshot (rq_id r) (description r) (subagent_type r) Initializing (instant_to_epoch_ms k since)
    (elapsed_ms k since) (rq_persona r).
Definition pending_snapshot (c : PendingChild Extra) : SubagentSnapshot :=
  initializing_snapshot (request c) (started_at c).
Definition queued_snapshot (q : QueuedSpawn Extra) : SubagentSnapshot :=
  initializing_snapshot (q_request q) (queued_at q).
Definition initializing_inspection (s : SubagentSnapshot) (r : SubagentRequest Extra) : SubagentInspection :=
  mkInspection s (parent_session_id r) [] (parent_prompt_id r) (resume_from r).
Definition pending_inspection (c : PendingChild Extra) : SubagentInspection :=
  initializing_inspection (pending_snapshot c) (request c).
Definition queued_inspection (q : QueuedSpawn Extra) : SubagentInspection :=
  initializing_inspection (queued_snapshot q) (q_request q).

Definition completed_snapshot (c : CompletedChild Extra) (persisted_output : option str)
  : SubagentSnapshot :=
  let res := c_result c in
  let status :=
    if cancelled res then SCancelled (rs_error res)
    else if success res then
      SCompleted (default (rs_output res) persisted_output) (tool_calls res) (turns res)
        (rs_worktree_path res)
    else SFailed (default (lit "Unknown error") (rs_error res)) in
  mkSnapshot (rq_id (c_request c)) (description (c_request c)) (subagent_type (c_request c)) status
    (instant_to_epoch_ms k (c_started_at c)) (rs_duration_ms res) (c_persona c).
Definition completed_inspection (c : CompletedChild Extra) (persisted_output : option str)
  : SubagentInspection :=
  mkInspection (completed_snapshot c persisted_output) (parent_session_id (c_request c))
    (c_child_session_id c) (parent_prompt_id (c_request c)) (c_resumed_from c).
End Snapshots.

Definition cap_completion_output (output : str) (cap : nat) : str :=
  if (utf8_len output <=? cap)%nat then output
  else
    let shown := take_utf8 cap output in
    shown ++ [NL] ++ lit "[output truncated: " ++ decimal (N.of_nat (utf8_len shown)) ++ lit " of "
    ++ decimal (N.of_nat (utf8_len output)) ++ lit " bytes shown]".

Definition completion_summary {Extra} (r : SubagentRequest Extra) (res : SubagentResult)
  : SubagentCompletionSummary :=
  mkSummary (rq_id r) (subagent_type r) (description r) (success res && negb (cancelled res))
    (rs_duration_ms res) (tool_calls res) (turns res)
    (match completion_output_cap r with
     | Some cap => cap_completion_output (rs_output res) cap
     | None => rs_output res
     end).

Definition set_summary_output (out : str) (m : SubagentCompletionSummary) : SubagentCompletionSummary :=
  mkSummary (sm_subagent_id m) (sm_subagent_type m) (sm_description m) (sm_success m)
    (sm_duration_ms m) (sm_tool_calls m) (sm_turns m) out.

Example plus_sign_is_accepted :
  limits_from_lookup (λ var, if str_eqb var (lit "GROK_MAX_CONCURRENT_SUBAGENTS") then Some (lit "+4") else None)
  = mkLimits 4 LQueue.
Proof. reflexivity. Qed.
Example zero_keeps_default : limits_from_lookup (λ _, Some (lit "0")) = default_limits.
Proof. reflexivity. Qed.
