(* ===== verification/Coordinator.v ===== *)
(** The subagent coordinator
    (crates/codegen/xai-grok-tools/src/implementations/grok_build/task/coordinator.rs with
    coordinator/queue.rs, spawn.rs and query.rs, and the foreground transitions of
    coordinator_state.rs).

    The actor is a single writer: every handler is a function on its state, and [cstep] is
    one turn of the loop of [run], or a change of the environment between two turns (the
    clock moves, a token is cancelled from outside, a receiver is dropped).  What leaves the
    actor (replies, starts, callbacks) is appended to [log].  The host is the interface
    [ChildRunner]; the iteration order of hash maps is the interface [HashOrder]. *)
From Stdlib Require Import String Ascii.
From stdpp Require Import gmap.
From S2P Require Import Prelude RustStr Json HashIter CoordTypes.

Class ChildRunner := {
  CompletionData : Type;
  default_data : CompletionData;
  persisted_ref : CompletionData → option str;
  load_persisted_output : str → option str;
  ValidateOutcome : Type;
  DescribeOutcome : Type
}.

Definition MAX_COMPLETED_ENTRIES : nat := 1024.
Definition MAX_PENDING_COMPLETIONS : nat := 256.
Definition DEFAULT_QUERY_BLOCK_TIMEOUT_MS : N := 30000.
Definition QUEUED_REAP_INTERVAL : Z := 1000000000.
Definition OUTPUT_UNAVAILABLE_PLACEHOLDER : str := lit "[subagent output no longer available]".

Record CoordinatorConfig := mkCoordConfig {
  foreground_budget : Z;
  limits : SubagentLimits;
  has_limit_sink : bool;
  buffer_completions : bool;
  buffered_completion_output_cap : option nat
}.

Record BlockingWaiter := mkWaiter { deadline : Z; respond_to : Chan }.
Record BufferedCompletion := mkBuffered { bc_parent_session_id : str; summary : SubagentCompletionSummary }.
Record Validation := mkValidation { v_chan : Chan; v_type : str; v_session : str }.
Record Description := mkDescription {
  d_chan : Chan; d_type : str; d_harness : option str; d_session : str
}.
Inductive ProgressTarget :=
| TQuery (c : Chan)
| TInspect (c : Chan)
| TList (request_id : N) (index : nat).
Record ListRequest := mkListRequest {
  slots : list (option SubagentInspection); remaining : nat; l_respond_to : Chan
}.
Record CompletionDisposition := mkDisposition {
  foreground_delivered : bool; was_backgrounded : bool; waiter_delivered : bool;
  was_explicitly_killed : bool; should_surface : bool
}.
Inductive SubagentCancelOutcome := Cancelled | AlreadyFinished (status : str) | NotFound.
Inductive SubagentCancelTarget :=
| Byid (id : str)
| ByPrompt (prompt_id : str)
| BySession
| ByWorkflow (run_id : str).
Record SpawnedSubagentRef := mkRef {
  rf_subagent_id : str; rf_child_session_id : str; rf_subagent_type : str; rf_description : str;
  rf_persona : option str; rf_resumed_from : option str
}.
Record SubagentResumeSource := mkSource {
  so_subagent_id : str; so_child_session_id : str; so_child_cwd : str;
  so_worktree_path : option str; so_snapshot_ref : option str; so_subagent_type : str;
  so_persona : option str; so_model_id : option str; so_model_route : option str;
  so_model_agent_type : option str
}.
Inductive SubagentResumeLookup := RActive | RCompleted (s : SubagentResumeSource) | RMissing.
Inductive SubagentLimitDecision := QueuedAtConcurrentLimit (limit : nat) | RejectedAtConcurrentLimit (limit : nat).
Record SubagentLimitNotice := mkNotice {
  n_parent_session_id : str; decision : SubagentLimitDecision; n_running : nat;
  queue_depth : nat; from_loop : bool
}.
Record SubagentOutstandingReply := mkOutstanding {
  live_ids : list str; background_live : bool; subagent_usage_not_applied : bool
}.
Record SubagentRegistryCounts := mkCounts {
  n_pending : nat; n_active : nat; n_completed : nat; n_queued : nat
}.

(** [sort] on strings and [sort_by] on a string key. *)
Fixpoint insert_sorted {A} (key : A → str) (x : A) (l : list A) : list A :=
  match l with
  | [] => [x]
  | y :: l' => if str_ltb (key y) (key x) then y :: insert_sorted key x l' else x :: l
  end.
Definition sort_strs {A} (key : A → str) (l : list A) : list A := foldr (insert_sorted key) [] l.

Section Coordinator.
Context `{HashOrder, ChildRunner} {Extra : Type}.
Variable config : CoordinatorConfig.

(** What the coordinator answers on a channel other than a spawn reply. *)
Inductive Msg :=
| MSnapshot (v : option SubagentSnapshot)
| MInspection (v : option SubagentInspection)
| MInspections (v : list SubagentInspection)
| MCancel (v : SubagentCancelOutcome)
| MActive (v : list ActiveSubagentSummary)
| MCompletions (v : list SubagentCompletionSummary)
| MOutstanding (v : SubagentOutstandingReply)
| MCounts (v : SubagentRegistryCounts)
| MRefs (v : list SpawnedSubagentRef)
| MBool (v : bool)
| MUnit
| MResume (v : SubagentResumeLookup)
| MValidate (v : ValidateOutcome)
| MDescribe (v : DescribeOutcome).

(** Everything observable: [Received] marks a spawn command's reply channel coming in;
    [SentResult] and [Sent] are [send], with whether the receiver was still there;
    [DroppedReply] is a spawn reply dropped unsent. *)
Inductive Effect :=
| Received (c : Chan)
| SentResult (c : Chan) (r : SubagentResult) (delivered : bool)
| DroppedReply (c : Chan)
| Sent (c : Chan) (m : Msg) (delivered : bool)
| RunStarted (r : SubagentRequest Extra) (spawn_parent : str) (queued_for : option Z)
    (session_running : nat)
| OnCompleted (r : SubagentRequest Extra) (res : SubagentResult) (data : CompletionData)
    (d : CompletionDisposition)
| RunningCountChanged (n : nat)
| LimitNotice (n : SubagentLimitNotice)
| ControlCancelled (id : str).

Record Coordinator := mkCoord {
  queued : list (QueuedSpawn Extra);
  last_queued_reap : Z;
  draining_queued : bool;
  pending : gmap str (PendingChild Extra);
  active : gmap str (ActiveChild Extra);
  completed : gmap str (CompletedChild Extra);
  completed_order : list str;
  waiters : gmap str (list BlockingWaiter);
  workflow_cancel_waiters : gmap str (list Chan);
  spawn_blocked_sessions : gset str;
  usage_not_applied_prompts : gset (str * str);
  pending_completions : list BufferedCompletion;
  runs : list str;
  validations : list Validation;
  descriptions : list Description;
  progress : list (RunningSeed * ProgressTarget);
  list_requests : gmap N ListRequest;
  next_list_request_id : N;
  clock : Clock;
  cancelled_tokens : gset Token;
  closed : gset Chan;
  log : list Effect
}.

Definition set_queued (v : list (QueuedSpawn Extra)) (s : Coordinator) : Coordinator :=
  mkCoord v (last_queued_reap s) (draining_queued s) (pending s) (active s) (completed s)
    (completed_order s) (waiters s) (workflow_cancel_waiters s) (spawn_blocked_sessions s)
    (usage_not_applied_prompts s) (pending_completions s) (runs s) (validations s)
    (descriptions s) (progress s) (list_requests s) (next_list_request_id s) (clock s)
    (cancelled_tokens s) (closed s) (log s).
Definition set_last_queued_reap (v : Z) (s : Coordinator) : Coordinator :=
  mkCoord (queued s) v (draining_queued s) (pending s) (active s) (completed s)
    (completed_order s) (waiters s) (workflow_cancel_waiters s) (spawn_blocked_sessions s)
    (usage_not_applied_prompts s) (pending_completions s) (runs s) (validations s)
    (descriptions s) (progress s) (list_requests s) (next_list_request_id s) (clock s)
    (cancelled_tokens s) (closed s) (log s).
Definition set_draining_queued (v : bool) (s : Coordinator) : Coordinator :=
  mkCoord (queued s) (last_queued_reap s) v (pending s) (active s) (completed s)
    (completed_order s) (waiters s) (workflow_cancel_waiters s) (spawn_blocked_sessions s)
    (usage_not_applied_prompts s) (pending_completions s) (runs s) (validations s)
    (descriptions s) (progress s) (list_requests s) (next_list_request_id s) (clock s)
    (cancelled_tokens s) (closed s) (log s).
Definition set_pending (v : gmap str (PendingChild Extra)) (s : Coordinator) : Coordinator :=
  mkCoord (queued s) (last_queued_reap s) (draining_queued s) v (active s) (completed s)
    (completed_order s) (waiters s) (workflow_cancel_waiters s) (spawn_blocked_sessions s)
    (usage_not_applied_prompts s) (pending_completions s) (runs s) (validations s)
    (descriptions s) (progress s) (list_requests s) (next_list_request_id s) (clock s)
    (cancelled_tokens s) (closed s) (log s).
Definition set_active (v : gmap str (ActiveChild Extra)) (s : Coordinator) : Coordinator :=
  mkCoord (queued s) (last_queued_reap s) (draining_queued s) (pending s) v (completed s)
    (completed_order s) (waiters s) (workflow_cancel_waiters s) (spawn_blocked_sessions s)
    (usage_not_applied_prompts s) (pending_completions s) (runs s) (validations s)
    (descriptions s) (progress s) (list_requests s) (next_list_request_id s) (clock s)
    (cancelled_tokens s) (closed s) (log s).
Definition set_completed (v : gmap str (CompletedChild Extra)) (s : Coordinator) : Coordinator :=
  mkCoord (queued s) (last_queued_reap s) (draining_queued s) (pending s) (active s) v
    (completed_order s) (waiters s) (workflow_cancel_waiters s) (spawn_blocked_sessions s)
    (usage_not_applied_prompts s) (pending_completions s) (runs s) (validations s)
    (descriptions s) (progress s) (list_requests s) (next_list_request_id s) (clock s)
    (cancelled_tokens s) (closed s) (log s).
Definition set_completed_order (v : list str) (s : Coordinator) : Coordinator :=
  mkCoord (queued s) (last_queued_reap s) (draining_queued s) (pending s) (active s) (completed s)
    v (waiters s) (workflow_cancel_waiters s) (spawn_blocked_sessions s)
    (usage_not_applied_prompts s) (pending_completions s) (runs s) (validations s)
    (descriptions s) (progress s) (list_requests s) (next_list_request_id s) (clock s)
    (cancelled_tokens s) (closed s) (log s).
Definition set_waiters (v : gmap str (list BlockingWaiter)) (s : Coordinator) : Coordinator :=
  mkCoord (queued s) (last_queued_reap s) (draining_queued s) (pending s) (active s) (completed s)
    (completed_order s) v (workflow_cancel_waiters s) (spawn_blocked_sessions s)
    (usage_not_applied_prompts s) (pending_completions s) (runs s) (validations s)
    (descriptions s) (progress s) (list_requests s) (next_list_request_id s) (clock s)
    (cancelled_tokens s) (closed s) (log s).
Definition set_workflow_cancel_waiters (v : gmap str (list Chan)) (s : Coordinator) : Coordinator :=
  mkCoord (queued s) (last_queued_reap s) (draining_queued s) (pending s) (active s) (completed s)
    (completed_order s) (waiters s) v (spawn_blocked_sessions s) (usage_not_applied_prompts s)
    (pending_completions s) (runs s) (validations s) (descriptions s) (progress s)
    (list_requests s) (next_list_request_id s) (clock s) (cancelled_tokens s) (closed s) (log s).
Definition set_spawn_blocked_sessions (v : gset str) (s : Coordinator) : Coordinator :=
  mkCoord (queued s) (last_queued_reap s) (draining_queued s) (pending s) (active s) (completed s)
    (completed_order s) (waiters s) (workflow_cancel_waiters s) v (usage_not_applied_prompts s)
    (pending_completions s) (runs s) (validations s) (descriptions s) (progress s)
    (list_requests s) (next_list_request_id s) (clock s) (cancelled_tokens s) (closed s) (log s).
Definition set_usage_not_applied_prompts (v : gset (str * str)) (s : Coordinator) : Coordinator :=
  mkCoord (queued s) (last_queued_reap s) (draining_queued s) (pending s) (active s) (completed s)
    (completed_order s) (waiters s) (workflow_cancel_waiters s) (spawn_blocked_sessions s) v
    (pending_completions s) (runs s) (validations s) (descriptions s) (progress s)
    (list_requests s) (next_list_request_id s) (clock s) (cancelled_tokens s) (closed s) (log s).
Definition set_pending_completions (v : list BufferedCompletion) (s : Coordinator) : Coordinator :=
  mkCoord (queued s) (last_queued_reap s) (draining_queued s) (pending s) (active s) (completed s)
    (completed_order s) (waiters s) (workflow_cancel_waiters s) (spawn_blocked_sessions s)
    (usage_not_applied_prompts s) v (runs s) (validations s) (descriptions s) (progress s)
    (list_requests s) (next_list_request_id s) (clock s) (cancelled_tokens s) (closed s) (log s).
Definition set_runs (v : list str) (s : Coordinator) : Coordinator :=
  mkCoord (queued s) (last_queued_reap s) (draining_queued s) (pending s) (active s) (completed s)
    (completed_order s) (waiters s) (workflow_cancel_waiters s) (spawn_blocked_sessions s)
    (usage_not_applied_prompts s) (pending_completions s) v (validations s) (descriptions s)
    (progress s) (list_requests s) (next_list_request_id s) (clock s) (cancelled_tokens s)
    (closed s) (log s).
Definition set_validations (v : list Validation) (s : Coordinator) : Coordinator :=
  mkCoord (queued s) (last_queued_reap s) (draining_queued s) (pending s) (active s) (completed s)
    (completed_order s) (waiters s) (workflow_cancel_waiters s) (spawn_blocked_sessions s)
    (usage_not_applied_prompts s) (pending_completions s) (runs s) v (descriptions s) (progress s)
    (list_requests s) (next_list_request_id s) (clock s) (cancelled_tokens s) (closed s) (log s).
Definition set_descriptions (v : list Description) (s : Coordinator) : Coordinator :=
  mkCoord (queued s) (last_queued_reap s) (draining_queued s) (pending s) (active s) (completed s)
    (completed_order s) (waiters s) (workflow_cancel_waiters s) (spawn_blocked_sessions s)
    (usage_not_applied_prompts s) (pending_completions s) (runs s) (validations s) v (progress s)
    (list_requests s) (next_list_request_id s) (clock s) (cancelled_tokens s) (closed s) (log s).
Definition set_progress (v : list (RunningSeed * ProgressTarget)) (s : Coordinator) : Coordinator :=
  mkCoord (queued s) (last_queued_reap s) (draining_queued s) (pending s) (active s) (completed s)
    (completed_order s) (waiters s) (workflow_cancel_waiters s) (spawn_blocked_sessions s)
    (usage_not_applied_prompts s) (pending_completions s) (runs s) (validations s)
    (descriptions s) v (list_requests s) (next_list_request_id s) (clock s) (cancelled_tokens s)
    (closed s) (log s).
Definition set_list_requests (v : gmap N ListRequest) (s : Coordinator) : Coordinator :=
  mkCoord (queued s) (last_queued_reap s) (draining_queued s) (pending s) (active s) (completed s)
    (completed_order s) (waiters s) (workflow_cancel_waiters s) (spawn_blocked_sessions s)
    (usage_not_applied_prompts s) (pending_completions s) (runs s) (validations s)
    (descriptions s) (progress s) v (next_list_request_id s) (clock s) (cancelled_tokens s)
    (closed s) (log s).
Definition set_next_list_request_id (v : N) (s : Coordinator) : Coordinator :=
  mkCoord (queued s) (last_queued_reap s) (draining_queued s) (pending s) (active s) (completed s)
    (completed_order s) (waiters s) (workflow_cancel_waiters s) (spawn_blocked_sessions s)
    (usage_not_applied_prompts s) (pending_completions s) (runs s) (validations s)
    (descriptions s) (progress s) (list_requests s) v (clock s) (cancelled_tokens s) (closed s)
    (log s).
Definition set_clock (v : Clock) (s : Coordinator) : Coordinator :=
  mkCoord (queued s) (last_queued_reap s) (draining_queued s) (pending s) (active s) (completed s)
    (completed_order s) (waiters s) (workflow_cancel_waiters s) (spawn_blocked_sessions s)
    (usage_not_applied_prompts s) (pending_completions s) (runs s) (validations s)
    (descriptions s) (progress s) (list_requests s) (next_list_request_id s) v
    (cancelled_tokens s) (closed s) (log s).
Definition set_cancelled_tokens (v : gset Token) (s : Coordinator) : Coordinator :=
  mkCoord (queued s) (last_queued_reap s) (draining_queued s) (pending s) (active s) (completed s)
    (completed_order s) (waiters s) (workflow_cancel_waiters s) (spawn_blocked_sessions s)
    (usage_not_applied_prompts s) (pending_completions s) (runs s) (validations s)
    (descriptions s) (progress s) (list_requests s) (next_list_request_id s) (clock s) v
    (closed s) (log s).
Definition set_closed (v : gset Chan) (s : Coordinator) : Coordinator :=
  mkCoord (queued s) (last_queued_reap s) (draining_queued s) (pending s) (active s) (completed s)
    (completed_order s) (waiters s) (workflow_cancel_waiters s) (spawn_blocked_sessions s)
    (usage_not_applied_prompts s) (pending_completions s) (runs s) (validations s)
    (descriptions s) (progress s) (list_requests s) (next_list_request_id s) (clock s)
    (cancelled_tokens s) v (log s).
Definition set_log (v : list Effect) (s : Coordinator) : Coordinator :=
  mkCoord (queued s) (last_queued_reap s) (draining_queued s) (pending s) (active s) (completed s)
    (completed_order s) (waiters s) (workflow_cancel_waiters s) (spawn_blocked_sessions s)
    (usage_not_applied_prompts s) (pending_completions s) (runs s) (validations s)
    (descriptions s) (progress s) (list_requests s) (next_list_request_id s) (clock s)
    (cancelled_tokens s) (closed s) v.

(** ** Effects *)

Definition emit (es : list Effect) (s : Coordinator) : Coordinator := set_log (log s ++ es) s.
Definition is_open (s : Coordinator) (c : Chan) : bool := bool_decide (c ∉ closed s).
Definition result_effect (s : Coordinator) (c : Chan) (r : SubagentResult) : Effect :=
  SentResult c r (is_open s c).
Definition send (c : Chan) (m : Msg) (s : Coordinator) : Coordinator :=
  emit [Sent c m (is_open s c)] s.
Definition send_result (c : Chan) (r : SubagentResult) (s : Coordinator) : Coordinator :=
  emit [result_effect s c r] s.
Definition cancel_token_of (t : Token) (s : Coordinator) : Coordinator :=
  set_cancelled_tokens ({[ t ]} ∪ cancelled_tokens s) s.
Definition is_cancelled (s : Coordinator) (t : Token) : bool := bool_decide (t ∈ cancelled_tokens s).

Definition now (s : Coordinator) : Z := instant_now (clock s).
Definition admission : SubagentLimits := admission_new (limits config).

(** ** Counting *)

Definition counts_for (session : str) (r : SubagentRequest Extra) : bool :=
  str_eqb (parent_session_id r) session && negb (rq_is_workflow r).
Definition session_running_count (s : Coordinator) (session : str) : nat :=
  size (filter (λ kv, counts_for session (request kv.2) = true) (pending s))
  + size (filter (λ kv, counts_for session (request (base kv.2)) = true) (active s)).
Definition session_queued_count (s : Coordinator) (session : str) : nat :=
  length (filter (λ q, str_eqb (parent_session_id (q_request q)) session = true) (queued s)).

Definition workflow_outstanding (s : Coordinator) (run_id : str) : nat :=
  size (filter (λ kv, workflow_run_id (owner (request kv.2)) = Some run_id) (pending s))
  + size (filter (λ kv, workflow_run_id (owner (request (base kv.2))) = Some run_id) (active s)).

Definition running_count_changed (s : Coordinator) : Coordinator :=
  emit [RunningCountChanged (size (pending s) + size (active s))] s.

(** ** Finishing a child *)

Record ChildRunOutput := mkOutput {
  o_result : SubagentResult; completion_data : CompletionData; o_snapshot_ref : option str
}.

(** The record of a child on its way out, and what [finish_child] keeps of it. *)
Definition completed_child (c : PendingChild Extra) (st : option StartedChild) (out : ChildRunOutput)
  : CompletedChild Extra :=
  let r := request c in
  match st with
  | None =>
      mkCompleted r (started_at c) (rs_child_session_id (o_result out)) (rq_persona r)
        (resume_from r) (default [] (rq_cwd r)) (rs_worktree_path (o_result out))
        (o_snapshot_ref out) (persisted_ref (completion_data out)) [] None None (o_result out)
  | Some st =>
      mkCompleted r (started_at c) (child_session_id st) (persona st) (resumed_from st)
        (child_cwd st) (worktree_path st) (o_snapshot_ref out)
        (persisted_ref (completion_data out)) (effective_model_id st) (effective_model_route st)
        (effective_model_agent_type st) (o_result out)
  end.
Definition without_output (c : CompletedChild Extra) : CompletedChild Extra :=
  mkCompleted (c_request c) (c_started_at c) (c_child_session_id c) (c_persona c)
    (c_resumed_from c) (c_child_cwd c) (c_worktree_path c) (snapshot_ref c)
    (persisted_output_ref c) (c_effective_model_id c) (c_effective_model_route c)
    (c_effective_model_agent_type c) (clear_output (c_result c)).

(** [self.active.remove(id)], else [self.pending.remove(id)]. *)
Definition take_record (id : str) (s : Coordinator)
  : option (PendingChild Extra * option StartedChild * Coordinator) :=
  match active s !! id with
  | Some a => Some (base a, Some (started a), set_active (delete id (active s)) s)
  | None =>
      match pending s !! id with
      | Some c => Some (c, None, set_pending (delete id (pending s)) s)
      | None => None
      end
  end.

Definition buffer_completion (r : SubagentRequest Extra) (res : SubagentResult) (s : Coordinator)
  : Coordinator :=
  if buffer_completions config && surface_completion r && negb (rq_is_workflow r) then
    let m := completion_summary r res in
    let m := match buffered_completion_output_cap config with
             | Some cap => set_summary_output (cap_completion_output (sm_output m) cap) m
             | None => m
             end in
    let l := pending_completions s ++ [mkBuffered (parent_session_id r) m] in
    set_pending_completions
      (if (MAX_PENDING_COMPLETIONS <? length l)%nat
       then drop (length l - MAX_PENDING_COMPLETIONS) l else l) s
  else s.

Definition resolve_workflow_cancel_waiters (run_id : str) (s : Coordinator) : Coordinator :=
  if negb (workflow_outstanding s run_id =? 0)%nat then s
  else
    let ws := default [] (workflow_cancel_waiters s !! run_id) in
    foldl (λ s c, send c (MCancel Cancelled) s)
      (set_workflow_cancel_waiters (delete run_id (workflow_cancel_waiters s)) s) ws.

(** [finish_child] for the record [c], already taken out of [s], up to the final sweep. *)
Definition finish_record (id : str) (c : PendingChild Extra) (st : option StartedChild)
  (out : ChildRunOutput) (s : Coordinator) : Coordinator :=
  let r := request c in
  let res := o_result out in
  let done := completed_child c st out in
  let snap := completed_snapshot (clock s) done None in
  let ws := default [] (waiters s !! id) in
  let s := set_waiters (delete id (waiters s)) s in
  let waiter_ok := existsb (λ w, is_open s (respond_to w)) ws in
  let s := foldl (λ s w, send (respond_to w) (MSnapshot (Some snap)) s) s ws in
  let '(s, fg, bg) :=
    match spawn_reply c with
    | Some tx =>
        let sent := is_open s tx in
        (send_result tx res s,
         if handle_only c then false else sent,
         if handle_only c then true else negb sent)
    | None => (s, false, true)
    end in
  let s := buffer_completion r res s in
  let done := if persisted_output_ref done then without_output done else done in
  let surface := surface_completion r && bg && negb (cancelled res) && negb waiter_ok
                 && negb (explicitly_killed c) in
  let s := set_completed (<[id := done]> (completed s)) s in
  let s := set_completed_order (completed_order s ++ [id]) s in
  let s := running_count_changed s in
  let s := emit [OnCompleted r res (completion_data out)
                   (mkDisposition fg bg waiter_ok (explicitly_killed c) surface)] s in
  match workflow_run_id (owner r) with
  | Some run_id => resolve_workflow_cancel_waiters run_id s
  | None => s
  end.

(** [finish_child], given the sweep that ends it. *)
Definition finish_with (sweep : Coordinator → Coordinator) (id : str) (out : ChildRunOutput)
  (s : Coordinator) : Coordinator :=
  match take_record id s with
  | None => s
  | Some (c, st, s) => sweep (finish_record id c st out s)
  end.

Definition never_started (r : SubagentRequest Extra) (reply : option Chan) (since : Z)
  : PendingChild Extra :=
  mkPending r since (cancel_token r) reply None (run_in_background r) false.

Definition finish_never_started_with (sweep : Coordinator → Coordinator) (r : SubagentRequest Extra)
  (reply : option Chan) (res : SubagentResult) (since : Z) (s : Coordinator) : Coordinator :=
  finish_with sweep (rq_id r) (mkOutput res default_data None)
    (set_pending (<[rq_id r := never_started r reply since]> (pending s)) s).

Definition cancelled_while_queued_result (r : SubagentRequest Extra) : SubagentResult :=
  bare_result true (Some (lit "cancelled while queued for a subagent slot")) (rq_id r) (rq_id r) false.

Definition finish_cancelled_queued_with (sweep : Coordinator → Coordinator) (s : Coordinator)
  (q : QueuedSpawn Extra) : Coordinator :=
  let s := cancel_token_of (cancel_token (q_request q)) s in
  finish_never_started_with sweep (q_request q) (into_spawn_reply (caller q))
    (cancelled_while_queued_result (q_request q)) (queued_at q) s.

(** ** Starting a child *)

Inductive StartOrigin := Direct | Dequeued (queued_for : Z) (deadline : option Z).

Definition start_child (r : SubagentRequest Extra) (spawn_parent : str) (reply : option Chan)
  (origin : StartOrigin) (s : Coordinator) : Coordinator :=
  let hand := run_in_background r || negb (if reply then true else false) in
  let '(queued_for, dl) :=
    match origin with
    | Direct =>
        (None, if (if reply then true else false) && awaits_in_foreground r
               then Some (now s + foreground_budget config)%Z else None)
    | Dequeued queued_for dl => (Some queued_for, dl)
    end in
  let s := set_pending
             (<[rq_id r := mkPending r (now s) (cancel_token r) reply dl hand false]> (pending s)) s in
  let s := running_count_changed s in
  let s := emit [RunStarted r spawn_parent queued_for (session_running_count s (parent_session_id r))] s in
  set_runs (runs s ++ [rq_id r]) s.

(** One entry of the queued sweep: cancelled, started or kept. *)
Definition sweep_one (acc : Coordinator * list (QueuedSpawn Extra) * list (QueuedSpawn Extra))
  (q : QueuedSpawn Extra) : Coordinator * list (QueuedSpawn Extra) * list (QueuedSpawn Extra) :=
  let '(s, gone, kept) := acc in
  let r := q_request q in
  if is_cancelled s (cancel_token r) then (s, gone ++ [q], kept)
  else if has_capacity admission (session_running_count s (parent_session_id r)) then
    (start_child r (spawn_parent_session_id q) (into_spawn_reply (caller q))
       (Dequeued (elapsed_since (clock s) (queued_at q)) (caller_deadline (caller q))) s,
     gone, kept)
  else (s, gone, kept ++ [q]).

(** [start_queued_within_capacity].  Finishing a cancelled entry calls it again, and the
    latch makes that call return at once: [depth] only has to be positive
    ([start_queued_depth] in CoordFifo). *)
Fixpoint start_queued (depth : nat) (s : Coordinator) : Coordinator :=
  if draining_queued s then s
  else
    match depth with
    | O => s
    | S depth' =>
        let s := set_draining_queued true s in
        let '(s, gone, kept) := foldl sweep_one (set_queued [] s, [], []) (queued s) in
        let s := set_queued kept s in
        let s := foldl (finish_cancelled_queued_with (start_queued depth')) s gone in
        set_draining_queued false s
    end.
Definition start_queued_within_capacity : Coordinator → Coordinator := start_queued 2.
Definition finish_child : str → ChildRunOutput → Coordinator → Coordinator :=
  finish_with start_queued_within_capacity.
Definition finish_never_started := finish_never_started_with start_queued_within_capacity.
Definition finish_cancelled_queued := finish_cancelled_queued_with start_queued_within_capacity.

Definition remove_queued (matches : SubagentRequest Extra → bool) (s : Coordinator) : Coordinator * nat :=
  let removed := filter (λ q, matches (q_request q) = true) (queued s) in
  let kept := filter (λ q, matches (q_request q) = false) (queued s) in
  (foldl finish_cancelled_queued (set_queued kept s) removed, length removed).

Definition finish_panicked_child (id : str) (s : Coordinator) : Coordinator :=
  match (match active s !! id with
         | Some a => Some (request (base a))
         | None => request <$> pending s !! id
         end) with
  | None => s
  | Some r =>
      finish_child id
        (mkOutput (bare_result false (Some (lit "Subagent runtime panicked")) (rq_id r) (rq_id r) false)
           default_data None) s
  end.

(** ** Cancelling *)

Definition tokens_of (m : gmap str (PendingChild Extra)) : gset Token :=
  map_to_set (λ _ c, cancellation c) m.

(** For every active child with [P]: cancel its token and its control; for every pending
    child with [P]: cancel its token. *)
Definition cancel_where (P : SubagentRequest Extra → bool) (s : Coordinator) : Coordinator :=
  let a := filter (λ kv, P (request (base kv.2)) = true) (active s) in
  let p := filter (λ kv, P (request kv.2) = true) (pending s) in
  let s := emit (ControlCancelled <$> (iter a).*1) s in
  set_cancelled_tokens (cancelled_tokens s ∪ tokens_of (base <$> a) ∪ tokens_of p) s.

Definition cancel_one (id : str) (session : option str) (explicit : bool) (s : Coordinator)
  : Coordinator * SubagentCancelOutcome :=
  let mine r := belongs_to_session r session in
  let kill c := set_killed (explicitly_killed c || explicit) c in
  match (a ← active s !! id; if mine (request (base a)) then Some a else None) with
  | Some a =>
      let s := set_active (<[id := on_base kill a]> (active s)) s in
      let s := cancel_token_of (cancellation (base a)) s in
      (emit [ControlCancelled id] s, Cancelled)
  | None =>
      match (c ← pending s !! id; if mine (request c) then Some c else None) with
      | Some c =>
          let s := set_pending (<[id := kill c]> (pending s)) s in
          (cancel_token_of (cancellation c) s, Cancelled)
      | None =>
          let '(s, n) := remove_queued (λ r, str_eqb (rq_id r) id && mine r) s in
          if (0 <? n)%nat then (s, Cancelled)
          else
            match (c ← completed s !! id; if mine (c_request c) then Some c else None) with
            | Some c => (s, AlreadyFinished (result_status (c_result c)))
            | None => (s, NotFound)
            end
      end
  end.

Definition of_prompt (prompt_id : str) (session : option str) (r : SubagentRequest Extra) : bool :=
  bool_decide (parent_prompt_id r = Some prompt_id) && belongs_to_session r session.
Definition cancel_parent_prompt (prompt_id : str) (session : option str) (s : Coordinator) : Coordinator :=
  (remove_queued (of_prompt prompt_id session) (cancel_where (of_prompt prompt_id session) s)).1.

Definition cancel_parent_session (session : option str) (s : Coordinator)
  : Coordinator * SubagentCancelOutcome :=
  match session with
  | None => (s, NotFound)
  | Some session =>
      let s := set_spawn_blocked_sessions ({[ session ]} ∪ spawn_blocked_sessions s) s in
      let s := cancel_where (counts_for session) s in
      ((remove_queued (counts_for session) s).1, Cancelled)
  end.

Definition cancel_workflow_children (run_id : str) (session : option str) (s : Coordinator) : Coordinator :=
  cancel_where (λ r, bool_decide (workflow_run_id (owner r) = Some run_id)
                     && belongs_to_session r session) s.

Definition hide (r : SubagentRequest Extra) : SubagentRequest Extra := set_surface false r.
Definition teardown_session_children (session : str) (s : Coordinator) : Coordinator :=
  let mine r := str_eqb (parent_session_id r) session in
  let hide_child c := if mine (request c) then set_request (hide (request c)) c else c in
  let s := set_active (on_base hide_child <$> active s) s in
  let s := set_pending (hide_child <$> pending s) s in
  let s := cancel_where mine s in
  let s := set_queued ((λ q, if mine (q_request q) then set_q_request (hide (q_request q)) q else q)
                       <$> queued s) s in
  (remove_queued mine s).1.

Definition cancel_all_children (s : Coordinator) : Coordinator := cancel_where (λ _, true) s.

(** ** Spawning *)

Definition rejected_spawn_result (id error : str) (cancelled : bool) : SubagentResult :=
  bare_result cancelled (Some error) id id false.

Definition reparent_nested_spawn (s : Coordinator) (r : SubagentRequest Extra)
  : result (SubagentRequest Extra) SubagentResult :=
  match List.find (λ kv, str_eqb (child_session_id (started kv.2)) (parent_session_id r)) (iter (active s)) with
  | None => Ok r
  | Some (_, spawner) =>
      if is_cancelled s (cancellation (base spawner)) then
        Err (rejected_spawn_result (rq_id r) (lit "parent subagent is being torn down") true)
      else
        let up := request (base spawner) in
        let r := set_surface false (set_parent_session (parent_session_id up) r) in
        let r := match workflow_run_id (owner up) with
                 | Some run_id => if rq_is_workflow r then r else set_owner (Workflow run_id) r
                 | None => r
                 end in
        Ok (match loop_task_id r with None => set_loop_task (loop_task_id up) r | Some _ => r end)
  end.

Definition notify_limit (r : SubagentRequest Extra) (d : SubagentLimitDecision) (s : Coordinator)
  : Coordinator :=
  if has_limit_sink config then
    let queued := session_queued_count s (parent_session_id r) in
    emit [LimitNotice
            (mkNotice (parent_session_id r) d (session_running_count s (parent_session_id r))
               (match d with
                | QueuedAtConcurrentLimit _ => queued + 1
                | RejectedAtConcurrentLimit _ => queued
                end) (from_scheduler_loop r))] s
  else s.

Definition id_known (s : Coordinator) (id : str) : bool :=
  bool_decide (is_Some (pending s !! id)) || bool_decide (is_Some (active s !! id))
  || bool_decide (is_Some (completed s !! id))
  || existsb (λ q, str_eqb (rq_id (q_request q)) id) (queued s).

Definition handle_spawn (r : SubagentRequest Extra) (result_tx : Chan) (s : Coordinator) : Coordinator :=
  let spawn_parent := parent_session_id r in
  let s := emit [Received result_tx] s in
  match reparent_nested_spawn s r with
  | Err rejection => send_result result_tx rejection s
  | Ok r =>
      if negb (rq_is_workflow r) && bool_decide (parent_session_id r ∈ spawn_blocked_sessions s) then
        send_result result_tx
          (rejected_spawn_result (rq_id r) (lit "parent session is stopped") true) s
      else if id_known s (rq_id r) then
        send_result result_tx
          (rejected_spawn_result (rq_id r)
             (lit "Subagent id '" ++ rq_id r ++ lit "' already exists") false) s
      else
        match admit_request admission r (session_running_count s (parent_session_id r)) with
        | AStart => start_child r spawn_parent (Some result_tx) Direct s
        | AEnqueue =>
            let s := notify_limit r (QueuedAtConcurrentLimit (max_concurrent admission)) s in
            let dl := if awaits_in_foreground r then Some (now s + foreground_budget config)%Z else None in
            set_queued (queued s ++ [mkQueued r spawn_parent (now s) (Awaiting result_tx dl)]) s
        | AReject e =>
            let 'ConcurrentLimitReached limit := e in
            let s := notify_limit r (RejectedAtConcurrentLimit limit) s in
            finish_never_started r (Some result_tx)
              (bare_result false (Some (admission_message e)) (rq_id r) (rq_id r) false) (now s) s
        end
  end.

(** ** Queries (query.rs) *)

Definition push_blocking_waiter (id : str) (timeout_ms : option N) (c : Chan) (s : Coordinator)
  : Coordinator :=
  let w := mkWaiter
    (now s + Z.of_N (default DEFAULT_QUERY_BLOCK_TIMEOUT_MS timeout_ms) * 1000000)%Z c in
  set_waiters (<[id := default [] (waiters s !! id) ++ [w]]> (waiters s)) s.

Definition persisted_output (c : CompletedChild Extra) : option str :=
  (λ reference, default OUTPUT_UNAVAILABLE_PLACEHOLDER (load_persisted_output reference))
  <$> persisted_output_ref c.
Definition completed_snapshot_for_query (s : Coordinator) (c : CompletedChild Extra) : SubagentSnapshot :=
  completed_snapshot (clock s) c (persisted_output c).
Definition completed_inspection_for_query (s : Coordinator) (c : CompletedChild Extra) : SubagentInspection :=
  completed_inspection (clock s) c (persisted_output c).

Definition find_queued (s : Coordinator) (P : SubagentRequest Extra → bool) : option (QueuedSpawn Extra) :=
  List.find (λ q, P (q_request q)) (queued s).

Definition ready_snapshot (s : Coordinator) (id : str) : option SubagentSnapshot :=
  match (c ← completed s !! id; if rq_is_workflow (c_request c) then None else Some c) with
  | Some c => Some (completed_snapshot_for_query s c)
  | None =>
      match (c ← pending s !! id; if rq_is_workflow (request c) then None else Some c) with
      | Some c => Some (pending_snapshot (clock s) c)
      | None =>
          queued_snapshot (clock s)
          <$> find_queued s (λ r, str_eqb (rq_id r) id && negb (rq_is_workflow r))
      end
  end.

Definition finish_list_slot (request_id : N) (index : nat) (v : option SubagentInspection)
  (s : Coordinator) : Coordinator :=
  match list_requests s !! request_id with
  | None => s
  | Some l =>
      let l := mkListRequest (<[index := v]> (slots l)) (remaining l - 1) (l_respond_to l) in
      if negb (remaining l =? 0)%nat
      then set_list_requests (<[request_id := l]> (list_requests s)) s
      else send (l_respond_to l) (MInspections (omap id (slots l)))
             (set_list_requests (delete request_id (list_requests s)) s)
  end.

(** The child is not active (any more): answer from the other records. *)
Definition answer_inactive (id : str) (t : ProgressTarget) (s : Coordinator) : Coordinator :=
  match t with
  | TQuery c => send c (MSnapshot (ready_snapshot s id)) s
  | TInspect c => send c (MInspection (completed_inspection_for_query s <$> completed s !! id)) s
  | TList request_id index => finish_list_slot request_id index None s
  end.

Definition queue_active_progress (id : str) (t : ProgressTarget) (s : Coordinator) : Coordinator :=
  match active s !! id with
  | None => answer_inactive id t s
  | Some child => set_progress (progress s ++ [(running_seed (clock s) child, t)]) s
  end.

Definition finish_progress (seed : RunningSeed) (t : ProgressTarget) (p : SubagentProgress)
  (s : Coordinator) : Coordinator :=
  if bool_decide (is_Some (active s !! sd_subagent_id seed)) then
    let i := running_inspection seed p in
    match t with
    | TQuery c => send c (MSnapshot (Some (snapshot i))) s
    | TInspect c => send c (MInspection (Some i)) s
    | TList request_id index => finish_list_slot request_id index (Some i) s
    end
  else answer_inactive (sd_subagent_id seed) t s.

Definition handle_query (id : str) (session : option str) (block : bool) (timeout_ms : option N)
  (c : Chan) (s : Coordinator) : Coordinator :=
  let mine r := belongs_to_session r session in
  match (x ← completed s !! id; if mine (c_request x) then Some x else None) with
  | Some child =>
      send c (MSnapshot (if rq_is_workflow (c_request child) then None
                         else Some (completed_snapshot_for_query s child))) s
  | None =>
      match (x ← active s !! id; if mine (request (base x)) then Some x else None) with
      | Some child =>
          if rq_is_workflow (request (base child)) then send c (MSnapshot None) s
          else if block then push_blocking_waiter id timeout_ms c s
          else queue_active_progress id (TQuery c) s
      | None =>
          match (x ← pending s !! id; if mine (request x) then Some x else None) with
          | Some child =>
              if rq_is_workflow (request child) then send c (MSnapshot None) s
              else if block then push_blocking_waiter id timeout_ms c s
              else send c (MSnapshot (Some (pending_snapshot (clock s) child))) s
          | None =>
              match find_queued s (λ r, str_eqb (rq_id r) id && mine r) with
              | Some q =>
                  if block then push_blocking_waiter id timeout_ms c s
                  else send c (MSnapshot (Some (queued_snapshot (clock s) q))) s
              | None => send c (MSnapshot None) s
              end
          end
      end
  end.

Definition handle_inspect (id : str) (session : option str) (c : Chan) (s : Coordinator) : Coordinator :=
  let mine r := belongs_to_session r session in
  match (x ← completed s !! id; if mine (c_request x) then Some x else None) with
  | Some child => send c (MInspection (Some (completed_inspection_for_query s child))) s
  | None =>
      match (x ← pending s !! id; if mine (request x) then Some x else None) with
      | Some child => send c (MInspection (Some (pending_inspection (clock s) child))) s
      | None =>
          match (x ← active s !! id; if mine (request (base x)) then Some x else None) with
          | Some _ => queue_active_progress id (TInspect c) s
          | None =>
              send c (MInspection (queued_inspection (clock s)
                        <$> find_queued s (λ r, str_eqb (rq_id r) id && mine r))) s
          end
      end
  end.

Definition handle_list_running (session : str) (c : Chan) (s : Coordinator) : Coordinator :=
  let ids := omap (λ kv, if counts_for session (request (base kv.2))
                         then Some (rq_id (request (base kv.2))) else None) (iter (active s)) in
  match ids with
  | [] => send c (MInspections []) s
  | _ =>
      let request_id := next_list_request_id s in
      let s := set_next_list_request_id ((request_id + 1) mod 2 ^ 64)%N s in
      let s := set_list_requests
                 (<[request_id := mkListRequest (replicate (length ids) None) (length ids) c]>
                    (list_requests s)) s in
      (foldl (λ '(i, s) id, (S i, queue_active_progress id (TList request_id i) s)) (0, s) ids).2
  end.

(** ** The foreground: callers that leave, budgets that run out *)

Definition caller_gone (s : Coordinator) (c : PendingChild Extra) : bool :=
  negb (handle_only c) && match spawn_reply c with Some tx => negb (is_open s tx) | None => false end.

(** [background_if_caller_gone], on the record. *)
Definition leave_caller (s : Coordinator) (c : PendingChild Extra) : PendingChild Extra :=
  if caller_gone s c then
    if rq_is_workflow (request c) then set_reply None c else mark_backgrounded (set_reply None c)
  else c.
Definition dropped_reply (s : Coordinator) (c : PendingChild Extra) : list Effect :=
  if caller_gone s c then match spawn_reply c with Some tx => [DroppedReply tx] | None => [] end
  else [].
Definition abandoned_workflow (s : Coordinator) (c : PendingChild Extra) : bool :=
  caller_gone s c && rq_is_workflow (request c).

Definition reap_children (s : Coordinator) : Coordinator :=
  let gone_p := filter (λ kv, abandoned_workflow s kv.2 = true) (pending s) in
  let gone_a := filter (λ kv, abandoned_workflow s (base kv.2) = true) (active s) in
  let es := flat_map (λ kv, dropped_reply s kv.2) (iter (pending s))
            ++ flat_map (λ kv, dropped_reply s (base kv.2)) (iter (active s))
            ++ (ControlCancelled <$> (iter gone_a).*1) in
  let s' := set_pending (leave_caller s <$> pending s) s in
  let s' := set_active (on_base (leave_caller s) <$> active s') s' in
  emit es (set_cancelled_tokens
             (cancelled_tokens s ∪ tokens_of gone_p ∪ tokens_of (base <$> gone_a)) s').

Definition leave_queued (s : Coordinator) (q : QueuedSpawn Extra) : QueuedSpawn Extra :=
  match caller q with
  | Awaiting tx _ => if is_open s tx then q else set_caller Backgrounded q
  | Backgrounded => q
  end.
Definition dropped_queued (s : Coordinator) (q : QueuedSpawn Extra) : list Effect :=
  match caller q with
  | Awaiting tx _ => if is_open s tx then [] else [DroppedReply tx]
  | Backgrounded => []
  end.

Definition reap_abandoned_callers (s : Coordinator) : Coordinator :=
  let s := set_last_queued_reap (now s) s in
  let s := reap_children s in
  let s := emit (flat_map (dropped_queued s) (queued s)) (set_queued (leave_queued s <$> queued s) s) in
  (remove_queued (λ r, is_cancelled s (cancel_token r)) s).1.

(** The result that hands a caller off while the child goes on. *)
Definition handoff (id child_session : str) : SubagentResult := bare_result false None id child_session true.

Definition is_due (s : Coordinator) (d : option Z) : bool :=
  match d with Some d => (d <=? now s)%Z | None => false end.
(** [background_at_deadline], on the record and as effects. *)
Definition expire (s : Coordinator) (c : PendingChild Extra) : PendingChild Extra :=
  if is_due s (foreground_deadline c) then mark_backgrounded (set_reply None c) else c.
Definition expiry (s : Coordinator) (child_session : str) (c : PendingChild Extra) : list Effect :=
  if is_due s (foreground_deadline c) then
    match spawn_reply c with
    | Some tx => [result_effect s tx (handoff (rq_id (request c)) child_session)]
    | None => []
    end
  else [].

Definition expire_queued (s : Coordinator) (q : QueuedSpawn Extra) : QueuedSpawn Extra :=
  if is_due s (caller_deadline (caller q)) then set_caller Backgrounded q else q.
Definition queued_expiry (s : Coordinator) (q : QueuedSpawn Extra) : list Effect :=
  if is_due s (caller_deadline (caller q)) then
    match into_spawn_reply (caller q) with
    | Some tx => [result_effect s tx (handoff (rq_id (q_request q)) (rq_id (q_request q)))]
    | None => []
    end
  else [].

Definition expire_waiters (s : Coordinator) (kv : str * list BlockingWaiter) : Coordinator :=
  let '(id, ws) := kv in
  let due := filter (λ w, (deadline w <= now s)%Z) ws in
  let live := filter (λ w, ¬ (deadline w <= now s)%Z) ws in
  let s := set_waiters (if live is [] then delete id (waiters s) else <[id := live]> (waiters s)) s in
  foldl (λ s w,
           if negb (is_open s (respond_to w)) then s
           else if bool_decide (is_Some (active s !! id))
           then queue_active_progress id (TQuery (respond_to w)) s
           else send (respond_to w) (MSnapshot (ready_snapshot s id)) s) s due.

Definition process_deadlines (s : Coordinator) : Coordinator :=
  let s := reap_abandoned_callers s in
  let es := flat_map (λ kv, expiry s (rq_id (request kv.2)) kv.2) (iter (pending s))
            ++ flat_map (λ kv, expiry s (child_session_id (started kv.2)) (base kv.2)) (iter (active s))
            ++ flat_map (queued_expiry s) (queued s) in
  let s' := set_pending (expire s <$> pending s) s in
  let s' := set_active (on_base (expire s) <$> active s') s' in
  let s' := emit es (set_queued (expire_queued s <$> queued s') s') in
  foldl expire_waiters s' (iter (waiters s')).

Definition next_deadline (s : Coordinator) : option Z :=
  let ds := omap (λ kv, foreground_deadline kv.2) (map_to_list (pending s))
            ++ omap (λ kv, foreground_deadline (base kv.2)) (map_to_list (active s))
            ++ omap (λ q, caller_deadline (caller q)) (queued s)
            ++ (if queued s is [] then [] else [last_queued_reap s + QUEUED_REAP_INTERVAL]%Z)
            ++ flat_map (λ kv, deadline <$> kv.2) (map_to_list (waiters s)) in
  match ds with
  | [] => None
  | d :: ds => Some (foldl Z.min d ds)
  end.

(** ** Commands *)

Inductive SubagentEvent :=
| Spawn (r : SubagentRequest Extra) (result_tx : Chan)
| Query (id : str) (session : option str) (block : bool) (timeout_ms : option N) (c : Chan)
| Cancel (session : option str) (target : SubagentCancelTarget) (c : Chan)
| ListActive (session : str) (c : Chan)
| ListRunning (session : str) (c : Chan)
| Completions (session : option str) (suppress_ids : list str) (c : Chan)
| TeardownSession (session : str)
| OpenSpawnAdmission (session : str)
| Outstanding (session prompt_id : str) (c : Chan)
| ClearUsageNotApplied (session prompt_id : str)
| MarkUsageNotApplied (session prompt_id : str) (c : Chan)
| RegistryCounts (c : Chan)
| Inspect (id : str) (session : option str) (c : Chan)
| SpawnedRefs (session prompt_id : str) (c : Chan)
| ValidateType (subagent_type session : str) (c : Chan)
| DescribeType (subagent_type : str) (harness : option str) (session : str) (c : Chan)
| LoopUnitActive (task_id : str) (c : Chan).

Definition handle_cancel (session : option str) (target : SubagentCancelTarget) (c : Chan)
  (s : Coordinator) : Coordinator :=
  match target with
  | Byid id => let '(s, o) := cancel_one id session true s in send c (MCancel o) s
  | ByPrompt prompt_id => send c (MCancel Cancelled) (cancel_parent_prompt prompt_id session s)
  | BySession => let '(s, o) := cancel_parent_session session s in send c (MCancel o) s
  | ByWorkflow run_id =>
      let s := cancel_workflow_children run_id session s in
      if (workflow_outstanding s run_id =? 0)%nat then send c (MCancel Cancelled) s
      else set_workflow_cancel_waiters
             (<[run_id := default [] (workflow_cancel_waiters s !! run_id) ++ [c]]>
                (workflow_cancel_waiters s)) s
  end.

Definition handle_completions (session : option str) (suppress_ids : list str) (c : Chan)
  (s : Coordinator) : Coordinator :=
  let mine b := match session with None => true | Some id => str_eqb (bc_parent_session_id b) id end in
  let owned := filter (λ b, mine b = true) (pending_completions s) in
  let foreign := filter (λ b, mine b = false) (pending_completions s) in
  let out := filter (λ m, sm_subagent_id m ∉ suppress_ids) (summary <$> owned) in
  send c (MCompletions out) (set_pending_completions foreign s).

Definition handle_outstanding (session prompt_id : str) (c : Chan) (s : Coordinator) : Coordinator :=
  let s := reap_abandoned_callers s in
  let scoped r := str_eqb (parent_session_id r) session
                  && bool_decide (parent_prompt_id r = Some prompt_id) && negb (rq_is_workflow r) in
  let fg_p p := scoped (request p) && negb (handle_only p) in
  let fg_a a := scoped (request (base a)) && negb (handle_only (base a))
                && negb (definition_background (started a)) in
  let fg_q q := scoped (q_request q) && negb (is_backgrounded (caller q))
                && negb (run_in_background (q_request q)) in
  let ids := omap (λ kv, if fg_p kv.2 then Some (rq_id (request kv.2)) else None) (map_to_list (pending s))
             ++ omap (λ kv, if fg_a kv.2 then Some (rq_id (request (base kv.2))) else None)
                  (map_to_list (active s))
             ++ omap (λ q, if fg_q q then Some (rq_id (q_request q)) else None) (queued s) in
  let bg := existsb (λ kv, scoped (request kv.2) && handle_only kv.2) (map_to_list (pending s))
            || existsb (λ kv, scoped (request (base kv.2))
                              && (handle_only (base kv.2) || definition_background (started kv.2)))
                 (map_to_list (active s))
            || existsb (λ q, scoped (q_request q)
                             && (run_in_background (q_request q) || is_backgrounded (caller q)))
                 (queued s) in
  send c (MOutstanding (mkOutstanding (sort_strs (λ x, x) ids) bg
            (bool_decide ((session, prompt_id) ∈ usage_not_applied_prompts s)))) s.

Definition handle_spawned_refs (session prompt_id : str) (c : Chan) (s : Coordinator) : Coordinator :=
  let scoped r := str_eqb (parent_session_id r) session
                  && bool_decide (parent_prompt_id r = Some prompt_id) in
  let ref r child persona resumed :=
    mkRef (rq_id r) child (subagent_type r) (description r) persona resumed in
  let from_a kv := let '(a, st) := (base (snd kv), started (snd kv)) in
    if scoped (request a)
    then Some (ref (request a) (child_session_id st) (persona st) (resumed_from st)) else None in
  let from_c (kv : str * CompletedChild Extra) := let x := snd kv in
    if scoped (c_request x)
    then Some (ref (c_request x) (c_child_session_id x) (c_persona x) (c_resumed_from x)) else None in
  send c (MRefs (sort_strs rf_subagent_id
            (omap from_a (iter (active s)) ++ omap from_c (iter (completed s))))) s.

Definition loop_unit_active (task_id : str) (s : Coordinator) : bool :=
  let is_loop r := bool_decide (loop_task_id r = Some task_id) in
  existsb (λ kv, is_loop (request kv.2)) (map_to_list (pending s))
  || existsb (λ kv, is_loop (request (base kv.2))) (map_to_list (active s))
  || existsb (λ q, is_loop (q_request q)) (queued s).

Definition handle_command (e : SubagentEvent) (s : Coordinator) : Coordinator :=
  match e with
  | Spawn r result_tx => handle_spawn r result_tx s
  | Query id session block timeout_ms c => handle_query id session block timeout_ms c s
  | Cancel session target c => handle_cancel session target c s
  | ListActive session c =>
      send c (MActive (omap (λ kv, if counts_for session (request (base kv.2))
                                   then Some (active_summary (clock s) kv.2) else None)
                         (iter (active s)))) s
  | ListRunning session c => handle_list_running session c s
  | Completions session suppress_ids c => handle_completions session suppress_ids c s
  | TeardownSession session =>
      let s := set_pending_completions
                 (filter (λ b, bc_parent_session_id b ≠ session) (pending_completions s)) s in
      let s := set_spawn_blocked_sessions (spawn_blocked_sessions s ∖ {[ session ]}) s in
      teardown_session_children session s
  | OpenSpawnAdmission session =>
      set_spawn_blocked_sessions (spawn_blocked_sessions s ∖ {[ session ]}) s
  | Outstanding session prompt_id c => handle_outstanding session prompt_id c s
  | ClearUsageNotApplied session prompt_id =>
      set_usage_not_applied_prompts (usage_not_applied_prompts s ∖ {[ (session, prompt_id) ]}) s
  | MarkUsageNotApplied session prompt_id c =>
      send c MUnit (set_usage_not_applied_prompts
                      ({[ (session, prompt_id) ]} ∪ usage_not_applied_prompts s) s)
  | RegistryCounts c =>
      send c (MCounts (mkCounts (size (pending s)) (size (active s)) (size (completed s))
                         (length (queued s)))) s
  | Inspect id session c => handle_inspect id session c s
  | SpawnedRefs session prompt_id c => handle_spawned_refs session prompt_id c s
  | ValidateType t session c => set_validations (validations s ++ [mkValidation c t session]) s
  | DescribeType t harness session c =>
      set_descriptions (descriptions s ++ [mkDescription c t harness session]) s
  | LoopUnitActive task_id c => send c (MBool (loop_unit_active task_id s)) s
  end.

Inductive InternalEvent :=
| Started (id : str) (child : StartedChild) (c : Chan)
| ResumeSource (source_id session : str) (c : Chan).

Definition handle_internal (e : InternalEvent) (s : Coordinator) : Coordinator :=
  match e with
  | Started id child c =>
      match pending s !! id with
      | None => send c (MBool false) s
      | Some p =>
          if is_cancelled s (cancellation p) then send c (MBool false) s
          else
            let s := set_pending (delete id (pending s)) s in
            send c (MBool true) (set_active (<[id := mkActive p child]> (active s)) s)
      end
  | ResumeSource source_id session c =>
      let mine r := str_eqb (parent_session_id r) session in
      let live := match pending s !! source_id with Some p => mine (request p) | None => false end
                  || match active s !! source_id with Some a => mine (request (base a)) | None => false end
                  || existsb (λ q, str_eqb (rq_id (q_request q)) source_id && mine (q_request q)) (queued s) in
      let lookup :=
        if live then RActive
        else
          match completed s !! source_id with
          | Some x =>
              if mine (c_request x) && negb (str_eqb (c_effective_model_id x) []) then
                RCompleted (mkSource (rq_id (c_request x)) (c_child_session_id x) (c_child_cwd x)
                  (c_worktree_path x) (snapshot_ref x) (subagent_type (c_request x)) (c_persona x)
                  (Some (c_effective_model_id x)) (c_effective_model_route x)
                  (c_effective_model_agent_type x))
              else RMissing
          | None => RMissing
          end in
      send c (MResume lookup) s
  end.

(** ** The actor loop *)

Fixpoint evict_go (order : list str) (m : gmap str (CompletedChild Extra))
  : list str * gmap str (CompletedChild Extra) :=
  if (MAX_COMPLETED_ENTRIES <? size m)%nat then
    match order with
    | [] => ([], m)
    | id :: order' => evict_go order' (delete id m)
    end
  else (order, m).
Definition evict_completed (s : Coordinator) : Coordinator :=
  let '(order, m) := evict_go (completed_order s) (completed s) in
  set_completed_order order (set_completed m s).

Fixpoint remove_first (id : str) (l : list str) : list str :=
  match l with
  | [] => []
  | x :: l' => if str_eqb x id then l' else x :: remove_first id l'
  end.

Definition exit_condition (s : Coordinator) : Prop :=
  runs s = [] ∧ validations s = [] ∧ descriptions s = [] ∧ progress s = [].

Definition resolve_queued_at_drop (s : Coordinator) : Coordinator :=
  let es := omap (λ q, (λ tx, result_effect s tx (cancelled_while_queued_result (q_request q)))
                         <$> into_spawn_reply (caller q)) (queued s) in
  let ts := list_to_set ((λ q, cancel_token (q_request q)) <$> queued s) in
  emit es (set_cancelled_tokens (cancelled_tokens s ∪ ts) (set_queued [] s)).
Definition drop_coordinator (s : Coordinator) : Coordinator :=
  cancel_all_children (resolve_queued_at_drop s).

(** One turn of the loop. *)
Inductive turn : Coordinator → Coordinator → Prop :=
| t_internal e s : turn s (evict_completed (handle_internal e s))
| t_run_done id out s : id ∈ runs s →
    turn s (evict_completed (finish_child id out (set_runs (remove_first id (runs s)) s)))
| t_run_panicked id s : id ∈ runs s →
    turn s (evict_completed (finish_panicked_child id (set_runs (remove_first id (runs s)) s)))
| t_validated v v1 v2 outcome s : validations s = v1 ++ v :: v2 →
    turn s (evict_completed (send (v_chan v) (MValidate outcome) (set_validations (v1 ++ v2) s)))
| t_described d d1 d2 outcome s : descriptions s = d1 ++ d :: d2 →
    turn s (evict_completed (send (d_chan d) (MDescribe outcome) (set_descriptions (d1 ++ d2) s)))
| t_progress seed t p1 p2 v s : progress s = p1 ++ (seed, t) :: p2 →
    turn s (evict_completed (finish_progress seed t v (set_progress (p1 ++ p2) s)))
| t_command e s : turn s (evict_completed (handle_command e (reap_abandoned_callers s)))
| t_deadline d s : next_deadline s = Some d → (d <= now s)%Z →
    turn s (evict_completed (process_deadlines s)).

(** What happens around the actor. *)
Inductive surroundings : Coordinator → Coordinator → Prop :=
| e_clock k s : (now s <= instant_now k)%Z → surroundings s (set_clock k s)
| e_cancel t s : surroundings s (cancel_token_of t s)
| e_close c s : surroundings s (set_closed ({[ c ]} ∪ closed s) s).

Definition cstep (s s' : Coordinator) : Prop := turn s s' ∨ surroundings s s'.

(** [SubagentCoordinator::new] *)
Definition new_coordinator (k : Clock) : Coordinator :=
  mkCoord [] (instant_now k) false ∅ ∅ ∅ [] ∅ ∅ ∅ ∅ [] [] [] [] [] ∅ 0 k ∅ ∅ [].
End Coordinator.
