(* ===== verification/CoordView.v ===== *)
(** What the correctness of the subagent coordinator is about: a view of its state in which
    the invariants are stated, and how the state's basic updates move in that view.

    A child is seen as its id, session and owner ([Kind]).  [live] lists the children that
    run, up to order; [held] the reply channels the coordinator owes an answer on; the
    effect log gives the channels that came in, those that were consumed and the children
    started.  A [calm] change leaves the children where they are: queries, notifications,
    hand-offs of callers and changes of the environment are all calm. *)
From Stdlib Require Import String Ascii.
From stdpp Require Import gmap.
From S2P Require Import Prelude RustStr Json HashIter CoordTypes Coordinator.

(** ** Values of a finite map, up to order *)

Section Values.
Context {A : Type}.
Implicit Types m : gmap str A.

Definition values m : list A := (map_to_list m).*2.

Lemma values_insert m i x : m !! i = None → values (<[i:=x]> m) ≡ₚ x :: values m.
Proof. intros Hm. unfold values. by rewrite map_to_list_insert. Qed.

Lemma values_delete m i x : m !! i = Some x → values m ≡ₚ x :: values (delete i m).
Proof. intros Hm. unfold values. by rewrite <- (map_to_list_delete m i x). Qed.

Lemma elem_of_values m x : x ∈ values m ↔ ∃ i, m !! i = Some x.
Proof.
  unfold values. rewrite list_elem_of_fmap. split.
  - intros ([i y] & -> & Hi%elem_of_map_to_list). by exists i.
  - intros [i Hi]. exists (i, x). by rewrite elem_of_map_to_list.
Qed.

Lemma size_filter_values (P : A → Prop) `{!∀ x, Decision (P x)} m :
  size (filter (λ kv, P kv.2) m) = length (filter P (values m)).
Proof.
  induction m as [|i x m Hi IH] using map_ind.
  - by rewrite map_filter_empty, map_size_empty.
  - rewrite values_insert by done. rewrite filter_cons. case_decide.
    + rewrite map_filter_insert_True by done. rewrite map_size_insert_None; [simpl; lia|].
      apply map_lookup_filter_None. by left.
    + rewrite map_filter_insert_not' by (done || by intros ?; rewrite Hi). done.
Qed.
End Values.

Lemma values_fmap {A B} (f : A → B) (m : gmap str A) : values (f <$> m) = f <$> values m.
Proof.
  unfold values. rewrite map_to_list_fmap, <- !list_fmap_compose. by apply list_fmap_ext.
Qed.

Lemma NoDup_perm {A} (l l' : list A) : NoDup l → l ≡ₚ l' → NoDup l'.
Proof. by intros Hl <-. Qed.

Lemma filter_fmap_list {A B} (f : A → B) (P : B → Prop) `{!∀ x, Decision (P x)} (l : list A) :
  filter P (f <$> l) = f <$> filter (λ x, P (f x)) l.
Proof. induction l as [|x l IH]; [done|]. csimpl. rewrite !filter_cons, IH. by case_decide. Qed.

(** ** The view *)

Record Kind := mkKind { k_id : str; k_session : str; k_owner : SubagentOwner }.
#[global] Instance SubagentOwner_eq_dec : EqDecision SubagentOwner.
Proof. solve_decision. Defined.
#[global] Instance Kind_eq_dec : EqDecision Kind.
Proof. solve_decision. Defined.

Definition task_of (p : str) (k : Kind) : bool :=
  str_eqb (k_session k) p && negb (is_workflow (k_owner k)).
Definition count (p : str) (l : list Kind) : nat := length (filter (λ k, task_of p k = true) l).
Definition count_run (run_id : str) (l : list Kind) : nat :=
  length (filter (λ k, workflow_run_id (k_owner k) = Some run_id) l).

Definition ids (l : list Kind) : list str := k_id <$> l.

#[global] Instance count_Permutation p : Proper ((≡ₚ) ==> eq) (count p).
Proof. intros l l' Hl. unfold count. by rewrite Hl. Qed.
#[global] Instance count_run_Permutation run_id : Proper ((≡ₚ) ==> eq) (count_run run_id).
Proof. intros l l' Hl. unfold count_run. by rewrite Hl. Qed.
#[global] Instance ids_Permutation : Proper ((≡ₚ) ==> (≡ₚ)) ids.
Proof. intros l l' Hl. unfold ids. by rewrite Hl. Qed.

Lemma count_task_cons p k l : count p (k :: l) = (if task_of p k then 1 else 0) + count p l.
Proof. unfold count. rewrite filter_cons. destruct (task_of p k); done. Qed.
Lemma count_run_cons run_id k l :
  count_run run_id (k :: l)
  = (if decide (workflow_run_id (k_owner k) = Some run_id) then 1 else 0) + count_run run_id l.
Proof. unfold count_run. rewrite filter_cons. by case_decide. Qed.
Lemma count_run_app run_id l l' : count_run run_id (l ++ l') = count_run run_id l + count_run run_id l'.
Proof. unfold count_run. by rewrite filter_app, length_app. Qed.
Lemma ids_app l l' : ids (l ++ l') = ids l ++ ids l'.
Proof. apply fmap_app. Qed.

(** A change of fields no claim is about. *)
Ltac no_effects :=
  exists []; rewrite app_nil_r; split_and!; [done|done|done|try done|by intros ? ?%elem_of_nil].
Ltac calm_by_fields := split; first [done | no_effects | idtac].

Section View.
Context `{HashOrder, ChildRunner} {Extra : Type}.
Abbreviation Coord := (@Coordinator _ Extra).
Implicit Types (s : Coord) (q : QueuedSpawn Extra) (r : SubagentRequest Extra).

Definition kind r : Kind := mkKind (rq_id r) (parent_session_id r) (owner r).
Definition pkind (c : PendingChild Extra) : Kind := kind (request c).
Definition akind (a : ActiveChild Extra) : Kind := pkind (base a).
Definition qkind q : Kind := kind (q_request q).

Definition live s : list Kind := values (pkind <$> pending s) ++ values (akind <$> active s).

Definition reply_of (a : ActiveChild Extra) : option Chan := spawn_reply (base a).
Definition qreply q : option Chan := into_spawn_reply (caller q).
Definition held s : list Chan :=
  omap spawn_reply (values (pending s)) ++ omap reply_of (values (active s))
  ++ omap qreply (queued s).

Definition received (e : @Effect _ Extra) : option Chan :=
  match e with Received c => Some c | _ => None end.
Definition answered (e : @Effect _ Extra) : option Chan :=
  match e with SentResult c _ _ => Some c | DroppedReply c => Some c | _ => None end.
Definition dropped (e : @Effect _ Extra) : option Chan :=
  match e with DroppedReply c => Some c | _ => None end.
Definition start_of (e : @Effect _ Extra) : option Kind :=
  match e with RunStarted r _ _ _ => Some (kind r) | _ => None end.

Lemma task_of_kind p r : task_of p (kind r) = counts_for p r.
Proof. done. Qed.

Lemma running_count_live s p : session_running_count s p = count p (live s).
Proof.
  unfold session_running_count, count, live. rewrite filter_app, length_app.
  rewrite !values_fmap, !filter_fmap_list, !length_fmap.
  f_equal.
  - exact (size_filter_values (λ c : PendingChild Extra, counts_for p (request c) = true) _).
  - exact (size_filter_values (λ a : ActiveChild Extra, counts_for p (request (base a)) = true) _).
Qed.

Lemma workflow_outstanding_live s run_id :
  workflow_outstanding s run_id = count_run run_id (live s).
Proof.
  unfold workflow_outstanding, count_run, live. rewrite filter_app, length_app.
  rewrite !values_fmap, !filter_fmap_list, !length_fmap.
  f_equal.
  - exact (size_filter_values (λ c : PendingChild Extra, workflow_run_id (owner (request c)) = Some run_id) _).
  - exact (size_filter_values (λ a : ActiveChild Extra, workflow_run_id (owner (request (base a))) = Some run_id) _).
Qed.

(** ** Calm changes *)

Record calm s s' : Prop := mkCalm {
  cm_pending : pkind <$> pending s' = pkind <$> pending s;
  cm_active : akind <$> active s' = akind <$> active s;
  cm_queue : qkind <$> queued s' = qkind <$> queued s;
  cm_completed : completed s' = completed s;
  cm_order : completed_order s' = completed_order s;
  cm_runs : runs s' = runs s;
  cm_draining : draining_queued s' = draining_queued s;
  cm_blocked : spawn_blocked_sessions s' = spawn_blocked_sessions s;
  cm_waiters : ∀ id, is_Some (waiters s' !! id) → is_Some (waiters s !! id);
  cm_workflow : ∀ id, is_Some (workflow_cancel_waiters s' !! id) →
    is_Some (workflow_cancel_waiters s !! id);
  cm_buffer : length (pending_completions s') ≤ length (pending_completions s);
  cm_closed : closed s ⊆ closed s';
  cm_log : ∃ es, log s' = log s ++ es ∧ omap received es = [] ∧ omap start_of es = []
    ∧ omap answered es ++ held s' ≡ₚ held s ∧ ∀ c, c ∈ omap dropped es → c ∈ closed s'
}.

Lemma calm_refl s : calm s s.
Proof. calm_by_fields. Qed.

Lemma calm_trans s1 s2 s3 : calm s1 s2 → calm s2 s3 → calm s1 s3.
Proof.
  intros H1 H2. destruct H1 as [? ? ? ? ? ? ? ? W1 F1 ? ? (es1 & L1 & R1 & S1 & A1 & D1)],
    H2 as [? ? ? ? ? ? ? ? W2 F2 ? ? (es2 & L2 & R2 & S2 & A2 & D2)].
  split; try congruence; try (intros; by eauto); try lia; [set_solver|].
  exists (es1 ++ es2). rewrite !omap_app, L2, L1, R1, R2, S1, S2, app_assoc.
  repeat split; try done.
  - rewrite <- app_assoc, A2. done.
  - intros c. rewrite elem_of_app. intros [Hc|Hc]; [|by apply D2]. set_solver.
Qed.

(** A change of the log alone. *)
Lemma calm_emit es s :
  omap received es = [] → omap start_of es = [] → omap answered es = [] → omap dropped es = [] →
  calm s (emit es s).
Proof.
  intros HR HS HA HD. split; try done. exists es. rewrite HA, HD. repeat split; try done.
  intros c Hc. by apply elem_of_nil in Hc.
Qed.
Lemma calm_send c m s : calm s (send c m s).
Proof. by apply calm_emit. Qed.

Lemma calm_foldl {A} (f : Coord → A → Coord) l s :
  (∀ s x, calm s (f s x)) → calm s (foldl f s l).
Proof.
  intros Hf. revert s. induction l as [|x l IH]; intros s; simpl; [apply calm_refl|].
  eapply calm_trans; [apply Hf|apply IH].
Qed.

Lemma live_calm s s' : calm s s' → live s' = live s.
Proof. intros Hc. unfold live. by rewrite (cm_pending _ _ Hc), (cm_active _ _ Hc). Qed.
End View.

