(* ===== verification/CoordInv.v ===== *)
(** The invariant of the subagent coordinator and the moves of a child that keep it.

    [WF B Lg exc fl s]: every id is in one place (running, queued, in flight, finished), the
    records of the futures match the running children, no session runs more than its limit,
    nobody waits for a child that is gone, and every reply channel that came in was consumed
    or is still held.  [fl] lists the children in flight between two places inside a handler
    (with their reply channel), [B] the sessions that were stopped and [Lg] the log when the
    turn began; [exc] is a workflow run whose cancel waiters are about to be resolved.  A child moves [receive] -> [start] or [park] -> [unpark] -> [start] ->
    [take] -> [finish]; every handler is a sequence of these moves and calm changes. *)
From Stdlib Require Import String Ascii.
From stdpp Require Import gmap.
From S2P Require Import Prelude RustStr Json HashIter CoordTypes Coordinator CoordView.

Section Invariant.
Context `{HashOrder, ChildRunner} {Extra : Type}.
Variable config : CoordinatorConfig.
Abbreviation Coord := (@Coordinator _ Extra).
Abbreviation limit := (max_concurrent (admission config)).
Implicit Types (s : Coord) (q : QueuedSpawn Extra) (r : SubagentRequest Extra)
  (fl : list (Kind * option Chan)) (B : gset str) (Lg : list (@Effect _ Extra)).

Definition qkinds (l : list (QueuedSpawn Extra)) : list Kind := qkind <$> l.
Definition flight q : Kind * option Chan := (qkind q, qreply q).

(** A child that may run in a turn that began with the sessions [B] stopped. *)
Definition allowed B (k : Kind) : Prop := is_workflow (k_owner k) = true ∨ k_session k ∉ B.

Record WF B Lg (exc : option str) fl s : Prop := mkWF {
  wf_pkeys : ∀ id k, (pkind <$> pending s) !! id = Some k → k_id k = id;
  wf_akeys : ∀ id k, (akind <$> active s) !! id = Some k → k_id k = id;
  wf_ids : NoDup (ids (live s) ++ ids (qkinds (queued s)) ++ ids fl.*1 ++ completed_order s);
  wf_done : ∀ id, id ∈ completed_order s ↔ is_Some (completed s !! id);
  wf_runs : runs s ≡ₚ ids (live s);
  wf_queue : ∀ k, k ∈ qkinds (queued s) → is_workflow (k_owner k) = false ∧ k_session k ∉ B;
  wf_cap : ∀ p, count p (live s) ≤ limit;
  wf_waiters : ∀ id, is_Some (waiters s !! id) →
    id ∈ ids (live s) ++ ids (qkinds (queued s)) ++ ids fl.*1;
  wf_workflow : ∀ run_id, is_Some (workflow_cancel_waiters s !! run_id) →
    count_run run_id (live s ++ fl.*1) ≠ 0 ∨ exc = Some run_id;
  wf_buffer : length (pending_completions s) ≤ MAX_PENDING_COMPLETIONS;
  wf_ledger : omap received (log s) ≡ₚ omap answered (log s) ++ held s ++ omap snd fl;
  wf_dropped : ∀ c, c ∈ omap dropped (log s) → c ∈ closed s;
  wf_log : ∃ es, log s = Lg ++ es ∧ Forall (allowed B) (omap start_of es)
}.

(** Every queued child waits because its session is full. *)
Definition saturated s : Prop :=
  ∀ k, k ∈ qkinds (queued s) → limit ≤ count (k_session k) (live s).

Section Moves.
Context {B : gset str} {Lg : list (@Effect _ Extra)} {exc : option str}.
Abbreviation WF := (WF B Lg exc).

Lemma wf_calm fl s s' : calm s s' → WF fl s → WF fl s'.
Proof.
  intros Hc [? ? ? ? ? ? ? HW HF HB HL HD (es0 & HLg & HS0)].
  pose proof (live_calm _ _ Hc) as Hl.
  destruct Hc as [HP HA HQ HC HO HR _ _ HW' HF' HB' HCl (es & HL' & HR' & HS' & HA' & HD')].
  split; unfold qkinds; rewrite ?Hl, ?HP, ?HA, ?HQ, ?HO, ?HC, ?HR; try done.
  - intros id Hid. apply HW, HW', Hid.
  - intros id Hid. apply HF, HF', Hid.
  - lia.
  - rewrite HL', !omap_app, HR', app_nil_r, HL, <- HA'. by rewrite !app_assoc.
  - intros c. rewrite HL', omap_app, elem_of_app. intros [Hin|Hin]; [|by apply HD'].
    apply HCl, HD, Hin.
  - exists (es0 ++ es). rewrite HL', HLg, app_assoc, omap_app, HS', app_nil_r. done.
Qed.

Lemma saturated_calm s s' : calm s s' → saturated s → saturated s'.
Proof.
  intros Hc Hs k. unfold qkinds. rewrite (cm_queue _ _ Hc), (live_calm _ _ Hc). apply Hs.
Qed.

Lemma wf_perm fl fl' s : fl ≡ₚ fl' → WF fl s → WF fl' s.
Proof.
  intros Hp [? ? HI ? ? ? ? HW HF ? HL ? ?]. split; try done.
  - by rewrite <- Hp.
  - intros id Hid. rewrite <- Hp. by apply HW.
  - intros id Hid. rewrite <- Hp. by apply HF.
  - by rewrite <- Hp.
Qed.

Lemma wf_set_draining fl s b : WF fl s → WF fl (set_draining_queued b s).
Proof. intros []. by split. Qed.
Lemma wf_set_blocked fl s b : WF fl s → WF fl (set_spawn_blocked_sessions b s).
Proof. intros []. by split. Qed.

(** An id in flight is nowhere else. *)
Lemma wf_in_flight fl s k o : WF ((k, o) :: fl) s →
  k_id k ∉ ids (live s) ∧ k_id k ∉ ids (qkinds (queued s)) ∧ k_id k ∉ ids fl.*1
  ∧ k_id k ∉ completed_order s ∧ completed s !! k_id k = None.
Proof.
  intros Hwf. pose proof (wf_ids _ _ _ _ _ Hwf) as HN. simpl in HN.
  assert (Hp : ids (live s) ++ ids (qkinds (queued s)) ++ (k_id k :: ids fl.*1) ++ completed_order s
               ≡ₚ k_id k :: ids (live s) ++ ids (qkinds (queued s)) ++ ids fl.*1 ++ completed_order s)
    by solve_Permutation.
  unfold ids in *. simpl in *. rewrite Hp in HN.
  apply NoDup_cons in HN as [Hin _]. rewrite !elem_of_app in Hin.
  assert (Ho : k_id k ∉ completed_order s) by tauto.
  split_and!; try tauto. apply eq_None_not_Some. by rewrite <- (wf_done _ _ _ _ _ Hwf).
Qed.

Lemma live_pending s id : is_Some (pending s !! id) →
  (∀ i k, (pkind <$> pending s) !! i = Some k → k_id k = i) → id ∈ ids (live s).
Proof.
  intros [c Hc] Hk. unfold ids, live. rewrite fmap_app, elem_of_app. left.
  apply list_elem_of_fmap. exists (pkind c). split; [|apply elem_of_values].
  - symmetry. apply Hk. by rewrite lookup_fmap, Hc.
  - exists id. by rewrite lookup_fmap, Hc.
Qed.
Lemma live_active s id : is_Some (active s !! id) →
  (∀ i k, (akind <$> active s) !! i = Some k → k_id k = i) → id ∈ ids (live s).
Proof.
  intros [c Hc] Hk. unfold ids, live. rewrite fmap_app, elem_of_app. right.
  apply list_elem_of_fmap. exists (akind c). split; [|apply elem_of_values].
  - symmetry. apply Hk. by rewrite lookup_fmap, Hc.
  - exists id. by rewrite lookup_fmap, Hc.
Qed.

Lemma wf_not_live fl s id : WF fl s → id ∉ ids (live s) → pending s !! id = None ∧ active s !! id = None.
Proof.
  intros Hwf Hid. split; apply eq_None_not_Some; contradict Hid;
    [apply live_pending|apply live_active]; try done; by destruct Hwf.
Qed.

Lemma wf_disjoint fl s id c : WF fl s → pending s !! id = Some c → active s !! id = None.
Proof.
  intros [HP HA HI _ _ _ _ _ _ _ _ _ _] Hp. apply eq_None_not_Some. intros [a Ha].
  apply NoDup_app in HI as [HI _]. unfold ids, live in HI. rewrite fmap_app in HI.
  apply NoDup_app in HI as (_ & HI & _).
  assert (Hpk : (pkind <$> pending s) !! id = Some (pkind c)) by by rewrite lookup_fmap, Hp.
  assert (Hak : (akind <$> active s) !! id = Some (akind a)) by by rewrite lookup_fmap, Ha.
  apply (HI (k_id (pkind c))).
  - apply list_elem_of_fmap_2, elem_of_values. eauto.
  - rewrite (HP _ _ Hpk), <- (HA _ _ Hak). apply list_elem_of_fmap_2, elem_of_values. eauto.
Qed.

(** ** Moves of a child *)

Lemma wf_receive fl s k tx : WF fl s →
  k_id k ∉ ids (live s) ++ ids (qkinds (queued s)) ++ ids fl.*1 ++ completed_order s →
  WF ((k, Some tx) :: fl) (emit [Received tx] s).
Proof.
  intros [? ? HI ? ? ? ? HW HF ? HL HD (es & HLg & HS)] Hid.
  split; try done; change (live (emit [Received tx] s)) with (live s); csimpl.
  - assert (Hp : ids (live s) ++ ids (qkinds (queued s)) ++ (k_id k :: ids fl.*1) ++ completed_order s
                 ≡ₚ k_id k :: ids (live s) ++ ids (qkinds (queued s)) ++ ids fl.*1 ++ completed_order s)
      by solve_Permutation.
    unfold ids in *. csimpl. rewrite Hp. by apply NoDup_cons.
  - intros id Hw%HW. rewrite !elem_of_app in Hw. rewrite !elem_of_app. simpl. rewrite elem_of_cons. tauto.
  - intros run_id [Hr|]%HF; [left|by right]. revert Hr.
    rewrite !count_run_app, count_run_cons. case_decide; lia.
  - rewrite !omap_app. simpl. rewrite HL. unfold held. simpl. solve_Permutation.
  - intros c. rewrite omap_app, app_nil_r. apply HD.
  - exists (es ++ [Received tx]). by rewrite HLg, app_assoc, omap_app, app_nil_r.
Qed.

Lemma live_insert_pending s id (c : PendingChild Extra) :
  pending s !! id = None → live (set_pending (<[id:=c]> (pending s)) s) ≡ₚ pkind c :: live s.
Proof.
  intros Hid. unfold live. simpl. rewrite fmap_insert, values_insert; [done|].
  by rewrite lookup_fmap, Hid.
Qed.
Lemma held_insert_pending s id (c : PendingChild Extra) :
  pending s !! id = None →
  held (set_pending (<[id:=c]> (pending s)) s) ≡ₚ omap spawn_reply [c] ++ held s.
Proof.
  intros Hid. unfold held. simpl. rewrite values_insert by done. csimpl.
  destruct (spawn_reply c); simpl; done.
Qed.

Lemma wf_start fl s r spawn_parent reply origin : WF ((kind r, reply) :: fl) s →
  allowed B (kind r) →
  (rq_is_workflow r = true ∨ count (parent_session_id r) (live s) < limit) →
  WF fl (start_child config r spawn_parent reply origin s).
Proof.
  intros Hwf Hal Hroom. pose proof (wf_in_flight _ _ _ _ Hwf) as (Hl & Hq & Hf & Ho & Hd).
  pose proof (wf_not_live _ _ _ Hwf Hl) as [Hp Ha]. simpl in *.
  destruct Hwf as [HPK ? HI ? HR ? HC HW HF ? HL HD (es & HLg & HS)].
  unfold start_child.
  destruct (match origin with Direct => _ | Dequeued _ _ => _ end) as [queued_for dl].
  set (c := mkPending _ _ _ _ _ _ _). set (s1 := set_pending _ s).
  assert (Hlive : live s1 ≡ₚ kind r :: live s) by by apply live_insert_pending.
  assert (Hheld : held s1 ≡ₚ option_list reply ++ held s).
  { unfold s1. rewrite held_insert_pending by done. by destruct reply. }
  set (e := RunStarted _ _ _ _). set (s' := set_runs _ _).
  assert (Hl' : live s' = live s1) by done. assert (Hh' : held s' = held s1) by done.
  split; try done; rewrite ?Hl', ?Hh'; csimpl.
  - intros id k. rewrite fmap_insert, lookup_insert_Some.
    intros [[<- <-]|[_ Hk]]; [done|by apply HPK].
  - rewrite Hlive. apply (NoDup_perm _ _ HI). unfold ids. csimpl. solve_Permutation.
  - rewrite HR, Hlive. simpl. unfold ids. csimpl. solve_Permutation.
  - intros p. rewrite Hlive, count_task_cons. rewrite task_of_kind. destruct (counts_for p r) eqn:Hcf; [|apply HC].
    apply andb_true_iff in Hcf as [<-%str_eqb_eq Hw%negb_true_iff].
    destruct Hroom; [congruence|lia].
  - intros id Hid%HW. rewrite Hlive. unfold ids in *. csimpl in *. rewrite elem_of_cons, !elem_of_app in *.
    rewrite elem_of_cons in Hid. tauto.
  - intros run_id Hr%HF. rewrite Hlive. simpl in Hr. rewrite <- Permutation_middle in Hr. done.
  - rewrite !omap_app. simpl. rewrite HL, Hheld, !app_nil_r. destruct reply; simpl; solve_Permutation.
  - intros x. rewrite !omap_app. simpl. rewrite !app_nil_r. apply HD.
  - exists (es ++ [RunningCountChanged (size (pending s1) + size (active s1)); e]).
    rewrite HLg, <- !app_assoc, omap_app. split; [done|]. apply Forall_app. split; [done|].
    csimpl. by apply Forall_singleton.
Qed.

Lemma omap_flight (l : list (QueuedSpawn Extra)) : omap snd (flight <$> l) = omap qreply l.
Proof. induction l as [|q l IH]; [done|]. csimpl. by rewrite IH. Qed.
Lemma fst_flight l : (flight <$> l).*1 = qkinds l.
Proof. unfold qkinds. rewrite <- list_fmap_compose. by apply list_fmap_ext. Qed.

Lemma wf_park fl s l : WF ((flight <$> l) ++ fl) s →
  (∀ k, k ∈ qkinds l → is_workflow (k_owner k) = false ∧ k_session k ∉ B) →
  WF fl (set_queued (queued s ++ l) s).
Proof.
  intros [? ? HI ? ? HQ ? HW HF ? HL ? ?] Hl. rewrite fmap_app, fst_flight in *.
  split; try done; change (live (set_queued _ s)) with (live s); csimpl.
  - unfold qkinds, ids in *. rewrite !fmap_app in *. apply (NoDup_perm _ _ HI). solve_Permutation.
  - unfold qkinds. intros k. rewrite fmap_app, elem_of_app. intros [?|?]; auto.
  - intros id Hid%HW. unfold qkinds, ids in *. rewrite !fmap_app, !elem_of_app in *. tauto.
  - intros run_id Hr%HF. rewrite !count_run_app in *.
    assert (Hz : count_run run_id (qkinds l) = 0); [|rewrite Hz in Hr; done].
    clear -Hl. induction l as [|q l IH]; [done|]. change (qkinds (q :: l)) with (qkind q :: qkinds l).
    rewrite count_run_cons, IH by (intros k Hk; apply Hl; by right).
    destruct (Hl (qkind q)) as [Ho _]; [by left|].
    rewrite decide_False; [done|]. by destruct (k_owner (qkind q)).
  - unfold held in *. csimpl. rewrite HL, !omap_app, omap_flight. solve_Permutation.
Qed.

Lemma wf_unpark fl s gone kept : WF fl s → queued s ≡ₚ gone ++ kept →
  WF ((flight <$> gone) ++ fl) (set_queued kept s).
Proof.
  intros [? ? HI ? ? HQ ? HW HF ? HL ? ?] Hp.
  split; try done; change (live (set_queued _ s)) with (live s); csimpl;
    rewrite ?fmap_app, ?fst_flight.
  - apply (NoDup_perm _ _ HI). unfold qkinds, ids. rewrite Hp, !fmap_app. solve_Permutation.
  - intros k Hk. apply HQ. unfold qkinds in *. rewrite Hp, fmap_app, elem_of_app. by right.
  - intros id Hid%HW. unfold qkinds, ids in *. rewrite Hp in Hid.
    rewrite !fmap_app, !elem_of_app in *. tauto.
  - intros run_id [Hr|]%HF; [left|by right]. revert Hr. rewrite !count_run_app. lia.
  - unfold held in *. csimpl. rewrite HL, Hp, !omap_app, omap_flight. solve_Permutation.
Qed.

Lemma remove_first_perm id l : id ∈ l → l ≡ₚ id :: remove_first id l.
Proof.
  induction l as [|x l IH]; [by intros ?%elem_of_nil|]. simpl.
  destruct (str_eqb x id) eqn:Hx; [by apply str_eqb_eq in Hx as ->|].
  apply str_eqb_neq in Hx. rewrite elem_of_cons. intros [->|Hid]; [done|].
  rewrite (IH Hid) at 1. constructor.
Qed.

(** A running child leaves the maps, its future the set of runs. *)
Lemma wf_leave fl s s' k o : WF fl s →
  s' = set_pending (pending s') (set_active (active s') (set_runs (runs s') s)) →
  (∀ id k, (pkind <$> pending s') !! id = Some k → (pkind <$> pending s) !! id = Some k) →
  (∀ id k, (akind <$> active s') !! id = Some k → (akind <$> active s) !! id = Some k) →
  live s ≡ₚ k :: live s' → held s ≡ₚ option_list o ++ held s' → runs s ≡ₚ k_id k :: runs s' →
  WF ((k, o) :: fl) s'.
Proof.
  intros [HP HA HI HDn HR HQ HC HW HF HB HL HD HS] Hs' HP' HA' Hlive Hheld Hruns.
  assert (Hq : queued s' = queued s) by (by rewrite Hs').
  assert (Ho : completed_order s' = completed_order s) by (by rewrite Hs').
  assert (Hc : completed s' = completed s) by (by rewrite Hs').
  assert (Hw : waiters s' = waiters s) by (by rewrite Hs').
  assert (Hf : workflow_cancel_waiters s' = workflow_cancel_waiters s) by (by rewrite Hs').
  assert (Hb : pending_completions s' = pending_completions s) by (by rewrite Hs').
  assert (Hl : log s' = log s) by (by rewrite Hs').
  assert (Hcl : closed s' = closed s) by (by rewrite Hs').
  clear Hs'. split; rewrite ?Hq, ?Ho, ?Hc, ?Hw, ?Hf, ?Hb, ?Hl, ?Hcl; try done; csimpl.
  - eauto.
  - eauto.
  - apply (NoDup_perm _ _ HI). rewrite Hlive. unfold ids. csimpl. solve_Permutation.
  - rewrite HR, Hlive in Hruns. unfold ids in *. csimpl in *. by apply Permutation_cons_inv in Hruns.
  - intros p. specialize (HC p). rewrite Hlive, count_task_cons in HC. destruct (task_of p k); simpl in HC; lia.
  - intros id Hid%HW. revert Hid. rewrite Hlive. unfold ids. csimpl.
    rewrite elem_of_cons, !elem_of_app, elem_of_cons. tauto.
  - intros run_id Hr%HF. rewrite Hlive in Hr. rewrite <- Permutation_middle. done.
  - rewrite HL, Hheld. destruct o; csimpl; solve_Permutation.
Qed.

Lemma wf_take fl s id : WF fl s → id ∈ runs s →
  ∃ c st s', take_record id (set_runs (remove_first id (runs s)) s) = Some (c, st, s')
    ∧ rq_id (request c) = id ∧ WF ((pkind c, spawn_reply c) :: fl) s'
    ∧ queued s' = queued s ∧ draining_queued s' = draining_queued s
    ∧ spawn_blocked_sessions s' = spawn_blocked_sessions s ∧ live s ≡ₚ pkind c :: live s'.
Proof.
  intros Hwf Hid. pose proof (remove_first_perm _ _ Hid) as Hruns.
  assert (Hin : id ∈ ids (live s)) by by rewrite <- (wf_runs _ _ _ _ _ Hwf).
  unfold take_record. simpl. destruct (active s !! id) as [a|] eqn:Ha.
  - assert (Hk : akind a = akind a ∧ k_id (akind a) = id).
    { split; [done|]. apply (wf_akeys _ _ _ _ _ Hwf). by rewrite lookup_fmap, Ha. }
    destruct Hk as [_ Hk]. eexists _, _, _. split; [done|].
    set (s' := set_active _ _). assert (Hl : live s ≡ₚ akind a :: live s').
    { unfold live. simpl. rewrite fmap_delete, (values_delete (akind <$> active s) id (akind a))
        by (by rewrite lookup_fmap, Ha). solve_Permutation. }
    split_and!; try done. apply (wf_leave fl s); try done; simpl.
    + intros i k. rewrite fmap_delete, lookup_delete_Some. tauto.
    + unfold held. simpl. rewrite (values_delete (active s) id a) by done. csimpl. unfold reply_of.
      destruct (spawn_reply (base a)); csimpl; solve_Permutation.
    + simpl in Hk. by rewrite Hk.
  - unfold ids, live in Hin. rewrite fmap_app, elem_of_app in Hin.
    assert (Hp : is_Some (pending s !! id)).
    { destruct Hin as [Hin|Hin]; apply list_elem_of_fmap in Hin as (k & Heq & [i Hi]%elem_of_values).
      - rewrite <- (wf_pkeys _ _ _ _ _ Hwf _ _ Hi) in Hi. rewrite Heq.
        rewrite lookup_fmap in Hi. destruct (pending s !! k_id k); done.
      - rewrite <- (wf_akeys _ _ _ _ _ Hwf _ _ Hi) in Hi. rewrite lookup_fmap in Hi.
        by rewrite <- Heq, Ha in Hi. }
    destruct Hp as [c Hc]. rewrite Hc.
    assert (Hk : k_id (pkind c) = id).
    { apply (wf_pkeys _ _ _ _ _ Hwf). by rewrite lookup_fmap, Hc. }
    eexists _, _, _. split; [done|].
    set (s' := set_pending _ _). assert (Hl : live s ≡ₚ pkind c :: live s').
    { unfold live. simpl. by rewrite fmap_delete, (values_delete (pkind <$> pending s) id (pkind c))
        by (by rewrite lookup_fmap, Hc). }
    split_and!; try done. apply (wf_leave fl s); try done; simpl.
    + intros i k. rewrite fmap_delete, lookup_delete_Some. tauto.
    + unfold held. simpl. rewrite (values_delete (pending s) id c) by done. csimpl.
      destruct (spawn_reply c); csimpl; solve_Permutation.
    + simpl in Hk. by rewrite Hk.
Qed.

(** ** Finishing *)

Lemma wf_answer fl s k tx res : WF ((k, Some tx) :: fl) s → WF ((k, None) :: fl) (send_result tx res s).
Proof.
  intros [? ? ? ? ? ? ? ? ? ? HL HD (es & HLg & HS)].
  split; try done; change (held (send_result tx res s)) with (held s); simpl.
  - rewrite !omap_app. csimpl. rewrite HL, app_nil_r. csimpl. solve_Permutation.
  - intros c. rewrite omap_app, app_nil_r. apply HD.
  - eexists (es ++ [_]). rewrite HLg, <- app_assoc, omap_app. split; [done|].
    csimpl. by rewrite app_nil_r.
Qed.

Lemma wf_buffer_completion fl s r res : WF fl s → WF fl (buffer_completion config r res s).
Proof.
  intros Hwf. unfold buffer_completion. destruct (_ && _ && _); [|done].
  set (l := pending_completions s ++ _). destruct Hwf. split; try done. simpl.
  destruct (_ <? _)%nat eqn:Hlen; bool_to_prop; [|done]. rewrite length_drop. lia.
Qed.

End Moves.

Section Finish.
Context {B : gset str} {Lg : list (@Effect _ Extra)}.

Lemma wf_resolve fl s run_id : WF B Lg (Some run_id) fl s →
  WF B Lg None fl (resolve_workflow_cancel_waiters run_id s).
Proof.
  intros Hwf. unfold resolve_workflow_cancel_waiters. rewrite workflow_outstanding_live.
  destruct (_ =? _)%nat eqn:Hz; simpl; bool_to_prop;
    destruct Hwf as [? ? ? ? ? ? ? ? HF ? ? ? ?].
  - eapply wf_calm; [apply calm_foldl; intros; apply calm_send|].
    split; try done. simpl. intros r [Hne Hr]%lookup_delete_is_Some.
    destruct (HF _ Hr); [by left|congruence].
  - split; try done. intros r [Hr|Hr]%HF; left; [done|]. simplify_eq.
    rewrite count_run_app. lia.
Qed.

Lemma wf_settle fl s k o done : WF B Lg None ((k, None) :: fl) s → waiters s !! k_id k = None →
  o = workflow_run_id (k_owner k) →
  WF B Lg o fl (set_completed_order (completed_order s ++ [k_id k])
                 (set_completed (<[k_id k := done]> (completed s)) s)).
Proof.
  intros [? ? HI HD ? ? ? HW HF ? ? ? ?] Hw ->. split; try done; simpl.
  - apply (NoDup_perm _ _ HI). unfold ids. csimpl. solve_Permutation.
  - intros id. rewrite elem_of_app, list_elem_of_singleton, HD.
    destruct (decide (k_id k = id)) as [<-|Hne].
    + rewrite lookup_insert_eq. naive_solver.
    + rewrite lookup_insert_ne by done. naive_solver.
  - intros id Hid. pose proof (HW _ Hid) as Hin. unfold ids in *. csimpl in *.
    rewrite !elem_of_app, elem_of_cons in *. destruct Hin as [?|[?|[->|?]]]; [tauto..| |tauto].
    rewrite Hw in Hid. by destruct Hid.
  - intros run_id [Hr|]%HF; [|done]. rewrite count_run_app in *. csimpl in *.
    rewrite count_run_cons in Hr. case_decide; [by right|left; done].
Qed.

Lemma wf_finish fl s c st out : WF B Lg None ((pkind c, spawn_reply c) :: fl) s →
  WF B Lg None fl (finish_record config (rq_id (request c)) c st out s).
Proof.
  intros Hwf. unfold finish_record. set (s1 := set_waiters _ s).
  set (s2 := foldl _ s1 _).
  assert (Hc : calm s s2).
  { eapply calm_trans; [|apply calm_foldl; intros; apply calm_send].
    calm_by_fields. simpl. intros id ?%lookup_delete_is_Some. naive_solver. }
  assert (Hw : waiters s2 !! rq_id (request c) = None).
  { apply eq_None_not_Some. intros Hs.
    assert (Hc2 : calm s1 s2) by (apply calm_foldl; intros; apply calm_send).
    apply (cm_waiters _ _ Hc2) in Hs. simpl in Hs. rewrite lookup_delete_eq in Hs. by destruct Hs. }
  apply (wf_calm _ _ _ Hc) in Hwf. clearbody s2. clear Hc.
  destruct (match spawn_reply c with Some _ => _ | None => _ end) as [[s3 fg] bg] eqn:H3.
  assert (Hwf3 : WF B Lg None ((pkind c, None) :: fl) s3 ∧ waiters s3 = waiters s2).
  { destruct (spawn_reply c) as [tx|]; simplify_eq; [|done]. split; [by apply wf_answer|done]. }
  destruct Hwf3 as [Hwf3 Hw3]. clear Hwf H3. rewrite <- Hw3 in Hw.
  set (s4 := buffer_completion _ _ _ s3).
  assert (Hwf4 : WF B Lg None ((pkind c, None) :: fl) s4) by by apply wf_buffer_completion.
  assert (Hw4 : waiters s4 !! rq_id (request c) = None).
  { unfold s4, buffer_completion. by destruct (_ && _ && _). }
  clearbody s4. set (d := if persisted_output_ref _ then _ else _).
  apply (wf_settle _ _ (pkind c) (workflow_run_id (owner (request c))) d) in Hwf4; [|done..].
  set (s5 := set_completed_order _ _).
  assert (Hwf5 : WF B Lg (workflow_run_id (owner (request c))) fl s5) by exact Hwf4.
  set (s6 := emit _ (running_count_changed s5)).
  assert (Hwf6 : WF B Lg (workflow_run_id (owner (request c))) fl s6).
  { eapply wf_calm; [|exact Hwf5]. eapply calm_trans; by apply calm_emit. }
  destruct (workflow_run_id _); [by apply wf_resolve|done].
Qed.
End Finish.
End Invariant.
