(* ===== verification/CoordSweep.v ===== *)
(** The queued sweep, the end of a child and the removal of queued spawns keep the invariant
    of the coordinator, and leave no session with both a free slot and a queued spawn. *)
From Stdlib Require Import String Ascii.
From stdpp Require Import gmap.
From S2P Require Import Prelude RustStr Json HashIter CoordTypes Coordinator CoordView CoordInv.

Section Sweep.
Context `{HashOrder, ChildRunner} {Extra : Type}.
Variable config : CoordinatorConfig.
Abbreviation Coord := (@Coordinator _ Extra).
Abbreviation limit := (max_concurrent (admission config)).
Implicit Types (s : Coord) (q : QueuedSpawn Extra) (r : SubagentRequest Extra).
Context {B : gset str} {Lg : list (@Effect _ Extra)}.
Abbreviation WF := (WF config B Lg None).

(** What finishing a child leaves alone. *)
Definition core s :=
  (queued s, draining_queued s, spawn_blocked_sessions s, pending s, active s, cancelled_tokens s, clock s).

Lemma core_foldl {A} (f : Coord → A → Coord) l s : (∀ s x, core (f s x) = core s) → core (foldl f s l) = core s.
Proof.
  intros Hf. revert s. induction l as [|x l IH]; intros s; simpl; [done|]. by rewrite IH, Hf.
Qed.

Lemma core_finish id c st out s : core (finish_record config id c st out s) = core s.
Proof.
  unfold finish_record. set (s1 := set_waiters _ s). set (s2 := foldl _ s1 _).
  assert (H2 : core s2 = core s) by (unfold s2; by rewrite core_foldl). clearbody s2.
  destruct (match spawn_reply c with Some _ => _ | None => _ end) as [[s3 fg] bg] eqn:H3.
  assert (H3' : core s3 = core s) by (destruct (spawn_reply c); injection H3 as <- _ _; exact H2). clear H3 H2.
  set (s4 := buffer_completion _ _ _ s3).
  assert (H4 : core s4 = core s) by (unfold s4, buffer_completion; by destruct (_ && _ && _)).
  destruct (workflow_run_id _); [|exact H4].
  unfold resolve_workflow_cancel_waiters. destruct (negb _); [exact H4|]. rewrite core_foldl; [exact H4|done].
Qed.

Lemma core_live s s' : core s' = core s → live s' = live s.
Proof. intros Hc. injection Hc as _ _ _ Hp Ha _ _. unfold live. by rewrite Hp, Ha. Qed.

Lemma never_started_finish sw r reply res since s :
  pending s !! rq_id r = None → active s !! rq_id r = None →
  finish_never_started_with config sw r reply res since s
  = sw (finish_record config (rq_id r) (never_started r reply since) None (mkOutput res default_data None) s).
Proof.
  intros Hp Ha. unfold finish_never_started_with, finish_with, take_record. simpl.
  rewrite Ha, lookup_insert_eq. do 2 f_equal. destruct s. unfold set_pending; simpl in *.
  by rewrite delete_insert_id.
Qed.

(** ** Cancelled entries *)

Lemma wf_finish_gone sw fl l s : (∀ s, draining_queued s = true → sw s = s) →
  draining_queued s = true → WF ((flight <$> l) ++ fl) s →
  let s' := foldl (finish_cancelled_queued_with config sw) s l in
  WF fl s' ∧ queued s' = queued s ∧ live s' = live s ∧ draining_queued s' = true
  ∧ spawn_blocked_sessions s' = spawn_blocked_sessions s.
Proof.
  intros Hsw. revert s. induction l as [|q l IH]; intros s Hd Hwf; simpl; [done|].
  set (s1 := finish_cancelled_queued_with config sw s q).
  assert (H1 : WF ((flight <$> l) ++ fl) s1
               ∧ core s1 = core (cancel_token_of (cancel_token (q_request q)) s)).
  { unfold s1, finish_cancelled_queued_with. simpl in Hwf.
    pose proof (wf_in_flight _ _ _ _ _ Hwf) as (Hl & _).
    pose proof (wf_not_live _ _ _ _ Hwf Hl) as [Hp Ha]. simpl in Hp, Ha.
    rewrite never_started_finish by done. rewrite Hsw.
    - split; [|apply core_finish].
      eapply (wf_finish config _ _ (never_started _ _ _)). eapply wf_calm; [|exact Hwf]. calm_by_fields.
    - set (s2 := cancel_token_of _ s). pose proof (core_finish (rq_id (q_request q))
        (never_started (q_request q) (into_spawn_reply (caller q)) (queued_at q)) None
        (mkOutput (cancelled_while_queued_result (q_request q)) default_data None) s2) as Hc.
      injection Hc as _ -> _ _ _ _ _. exact Hd. }
  destruct H1 as [Hwf1 Hc1]. pose proof (core_live _ _ Hc1) as Hl1.
  injection Hc1 as Hq1 Hd1 Hb1 _ _ _ _.
  destruct (IH s1) as (? & Hq & Hl & ? & Hb); [by rewrite Hd1|done|].
  rewrite Hq, Hl, Hb, Hq1, Hl1, Hb1. done.
Qed.

(** ** The sweep *)

Definition parkable q : Prop := is_workflow (k_owner (qkind q)) = false ∧ k_session (qkind q) ∉ B.

Lemma live_start s r spawn_parent reply origin : pending s !! rq_id r = None →
  live (start_child config r spawn_parent reply origin s) ≡ₚ kind r :: live s.
Proof.
  intros Hp. unfold start_child. destruct (match origin with Direct => _ | Dequeued _ _ => _ end).
  apply (live_insert_pending s _ (mkPending _ _ _ _ _ _ _)). done.
Qed.

Lemma start_child_frame r spawn_parent reply origin s :
  let s' := start_child config r spawn_parent reply origin s in
  queued s' = queued s ∧ draining_queued s' = draining_queued s
  ∧ spawn_blocked_sessions s' = spawn_blocked_sessions s ∧ cancelled_tokens s' = cancelled_tokens s.
Proof. unfold start_child. by destruct (match origin with Direct => _ | Dequeued _ _ => _ end). Qed.

(** The sweep between two entries: [gone] and [kept] so far, [l] to come. *)
Record sweeping fl s0 gone kept l s : Prop := mkSweeping {
  sw_wf : WF ((flight <$> gone ++ kept ++ l) ++ fl) s;
  sw_queue : queued s = [];
  sw_ok : Forall parkable (kept ++ l);
  sw_full : ∀ q, q ∈ kept → limit ≤ count (k_session (qkind q)) (live s);
  sw_draining : draining_queued s = draining_queued s0;
  sw_blocked : spawn_blocked_sessions s = spawn_blocked_sessions s0;
  sw_tokens : cancelled_tokens s = cancelled_tokens s0
}.

Lemma sweep_one_start fl s0 gone kept q l s : sweeping fl s0 gone kept (q :: l) s →
  count (k_session (qkind q)) (live s) < limit →
  ∀ reply origin, reply = qreply q →
  sweeping fl s0 gone kept l
    (start_child config (q_request q) (spawn_parent_session_id q) reply origin s).
Proof.
  intros [Hwf Hq Hok Hfull Hd Hb Ht] Hroom reply origin ->.
  assert (Hwf' : WF (flight q :: (flight <$> gone ++ kept ++ l) ++ fl) s).
  { eapply wf_perm; [|exact Hwf]. rewrite !fmap_app. csimpl. solve_Permutation. }
  pose proof (wf_in_flight _ _ _ _ _ Hwf') as (Hl & _).
  pose proof (wf_not_live _ _ _ _ Hwf' Hl) as [Hp _].
  apply Forall_app in Hok as [Hk [[Hw Hs] Hl']%Forall_cons].
  destruct (start_child_frame (q_request q) (spawn_parent_session_id q) (qreply q) origin s)
    as (Hq' & Hd' & Hb' & Ht').
  split; try congruence.
  - apply wf_start; [done|by right|by right].
  - apply Forall_app. done.
  - intros q' Hin. rewrite live_start by done. rewrite count_task_cons.
    specialize (Hfull _ Hin). destruct (task_of _ _); lia.
Qed.

Lemma sweep_fold fl s0 l : ∀ gone kept s, sweeping fl s0 gone kept l s →
  let '(s', gone', kept') := foldl (sweep_one config) (s, gone, kept) l in
  sweeping fl s0 gone' kept' [] s' ∧ ∃ kept1, kept' = kept ++ kept1 ∧ kept1 ⊆ l.
Proof.
  induction l as [|q l IH]; intros gone kept s Hsw; simpl.
  { split; [done|]. exists []. by rewrite app_nil_r. }
  destruct (is_cancelled s _).
  { specialize (IH (gone ++ [q]) kept s). destruct (foldl _ _ l) as [[s' gone'] kept'].
    destruct IH as [? (k1 & ? & ?)]; [|split; [done|]; exists k1; split; [done|set_solver]].
    destruct Hsw as [Hwf ? Hok ? ? ? ?]. split; try done.
    - eapply wf_perm; [|exact Hwf]. rewrite !fmap_app. csimpl. solve_Permutation.
    - apply Forall_app in Hok as [? [_ ?]%Forall_cons]. by apply Forall_app. }
  unfold has_capacity. rewrite running_count_live.
  destruct (_ <? _)%nat eqn:Hroom; bool_to_prop.
  { set (s1 := start_child _ _ _ _ _ s). specialize (IH gone kept s1).
    destruct (foldl _ _ l) as [[s' gone'] kept'].
    destruct IH as [? (k1 & ? & ?)]; [|split; [done|]; exists k1; split; [done|set_solver]].
    by apply sweep_one_start. }
  specialize (IH gone (kept ++ [q]) s). destruct (foldl _ _ l) as [[s' gone'] kept'].
  destruct IH as [? (k1 & ? & ?)].
  - destruct Hsw as [Hwf ? Hok Hfull ? ? ?]. split; try done.
    + by rewrite <- app_assoc.
    + by rewrite <- app_assoc.
    + intros q'. rewrite elem_of_app, list_elem_of_singleton. intros [?| ->]; auto.
  - split; [done|]. exists (q :: k1). split; [by rewrite <- app_assoc in *|set_solver].
Qed.

(** What a sweep guarantees when it is done. *)
Record swept fl s s' : Prop := mkSwept {
  st_wf : WF fl s';
  st_sat : saturated config s';
  st_draining : draining_queued s' = false;
  st_blocked : spawn_blocked_sessions s' = spawn_blocked_sessions s;
  st_queue : queued s' ⊆ queued s
}.

Lemma start_queued_latched d s : draining_queued s = true → start_queued config d s = s.
Proof. intros Hd. destruct d; simpl; by rewrite Hd. Qed.

Lemma wf_start_queued fl d s : WF fl s → draining_queued s = false →
  swept fl s (start_queued config (S d) s).
Proof.
  intros Hwf Hd. cbn [start_queued]. rewrite Hd. set (s0 := set_queued [] (set_draining_queued true s)).
  assert (Hsw : sweeping fl s0 [] [] (queued s) s0).
  { split; try done.
    - apply (wf_set_draining _ _ (set_queued [] s)). apply wf_unpark; [done|by rewrite app_nil_r].
    - apply Forall_forall. intros q Hq. apply (wf_queue _ _ _ _ _ _ Hwf). by apply list_elem_of_fmap_2.
    - by intros q ?%elem_of_nil. }
  apply sweep_fold in Hsw. change (queued (set_draining_queued true s)) with (queued s).
  destruct (foldl _ _ (queued s)) as [[s1 gone] kept].
  destruct Hsw as [[Hwf1 Hq1 Hok Hfull Hd1 Hb1 _] (kept1 & -> & Hsub)].
  rewrite !app_nil_r in *. rewrite app_nil_l in *.
  set (s2 := set_queued kept1 s1).
  assert (Hwf2 : WF ((flight <$> gone) ++ fl) s2).
  { replace s2 with (set_queued (queued s1 ++ kept1) s1) by (by rewrite Hq1). apply wf_park.
    - eapply wf_perm; [|exact Hwf1]. rewrite fmap_app. solve_Permutation.
    - intros k (q & -> & Hq)%list_elem_of_fmap. rewrite Forall_forall in Hok. by apply Hok. }
  edestruct (wf_finish_gone (start_queued config d) fl gone s2) as (Hwf3 & Hq3 & Hl3 & Hd3 & Hb3);
    [apply start_queued_latched|done|done|]. set (s3 := foldl _ s2 gone) in *.
  split; try done.
  - by apply wf_set_draining.
  - intros k. change (live (set_draining_queued false s3)) with (live s3). simpl.
    rewrite Hq3, Hl3. intros (q & -> & Hq)%list_elem_of_fmap. by apply Hfull.
  - simpl. rewrite Hb3. exact Hb1.
  - simpl. by rewrite Hq3.
Qed.

(** ** Removing queued spawns and finishing children *)

Lemma swept_trans fl s1 s2 s3 : swept fl s1 s2 → swept fl s2 s3 → swept fl s1 s3.
Proof. intros [? ? ? Hb Hq] [? ? ? Hb' Hq']. split; try done; [congruence|by etrans]. Qed.

Lemma swept_from fl s1 s2 s3 : spawn_blocked_sessions s2 = spawn_blocked_sessions s1 →
  queued s2 ⊆ queued s1 → swept fl s2 s3 → swept fl s1 s3.
Proof. intros Hb Hq [? ? ? Hb' Hq']. split; try done; [congruence|by etrans]. Qed.

Lemma wf_finish_sweep fl s c st out : WF ((pkind c, spawn_reply c) :: fl) s →
  draining_queued s = false →
  swept fl s (start_queued_within_capacity config (finish_record config (rq_id (request c)) c st out s)).
Proof.
  intros Hwf Hd. pose proof (core_finish (rq_id (request c)) c st out s) as Hc.
  injection Hc as Hq' Hd' Hb' _ _ _ _. eapply swept_from; [exact Hb'|by rewrite Hq'|].
  apply wf_start_queued; [by apply wf_finish|congruence].
Qed.

Lemma wf_never_started fl s r reply res since : WF ((kind r, reply) :: fl) s →
  draining_queued s = false → swept fl s (finish_never_started config r reply res since s).
Proof.
  intros Hwf Hd. pose proof (wf_in_flight _ _ _ _ _ Hwf) as (Hl & _).
  pose proof (wf_not_live _ _ _ _ Hwf Hl) as [Hp Ha]. unfold finish_never_started.
  rewrite never_started_finish by done.
  by apply (wf_finish_sweep fl s (never_started r reply since)).
Qed.

Lemma wf_remove_list fl s l : WF ((flight <$> l) ++ fl) s → draining_queued s = false →
  saturated config s → swept fl s (foldl (finish_cancelled_queued config) s l).
Proof.
  revert s. induction l as [|q l IH]; intros s Hwf Hd Hs; simpl.
  { split; done. }
  set (s1 := finish_cancelled_queued config s q).
  assert (H1 : swept ((flight <$> l) ++ fl) s s1).
  { eapply swept_from; [| |apply wf_never_started]; [done..| |done].
    eapply wf_calm; [|exact Hwf]. calm_by_fields. }
  destruct (IH s1 (st_wf _ _ _ H1) (st_draining _ _ _ H1) (st_sat _ _ _ H1)).
  destruct H1. eapply swept_from; [| |split; eassumption]; congruence || done.
Qed.

Lemma wf_remove_queued fl s P : WF fl s → draining_queued s = false → saturated config s →
  let s' := (remove_queued config P s).1 in
  swept fl s s' ∧ ∀ q, q ∈ queued s' → P (q_request q) = false.
Proof.
  intros Hwf Hd Hs. unfold remove_queued. simpl.
  set (gone := filter (λ q, P (q_request q) = true) (queued s)).
  set (kept := filter (λ q, P (q_request q) = false) (queued s)).
  assert (Hp : queued s ≡ₚ gone ++ kept).
  { unfold gone, kept. clear. induction (queued s) as [|q l IH]; [done|]. rewrite !filter_cons.
    destruct (P (q_request q)); simpl; [|rewrite <- Permutation_middle]; apply perm_skip, IH. }
  destruct (wf_remove_list fl (set_queued kept s) gone) as [? ? ? Hb Hq]; [by apply wf_unpark|done| |].
  - intros k (q & -> & Hq)%list_elem_of_fmap. apply Hs. unfold qkinds.
    apply list_elem_of_fmap_2. unfold kept in Hq. by apply list_elem_of_filter in Hq as [_ ?].
  - split; [split; try done|].
    + intros q Hin%Hq. by apply list_elem_of_filter in Hin as [_ ?].
    + intros q Hin%Hq. by apply list_elem_of_filter in Hin as [? _].
Qed.

Lemma wf_finish_child s id out : WF [] s → draining_queued s = false → id ∈ runs s →
  swept [] s (finish_child config id out (set_runs (remove_first id (runs s)) s)).
Proof.
  intros Hwf Hd Hid. destruct (wf_take _ _ _ _ Hwf Hid) as (c & st & s' & Ht & <- & Hwf' & Hq & Hd' & Hb & _).
  unfold finish_child, finish_with. rewrite Ht.
  eapply swept_from; [exact Hb|by rewrite Hq|]. apply wf_finish_sweep; congruence || done.
Qed.
End Sweep.
