(* ===== verification/CoordCalm.v ===== *)
(** The handlers of the coordinator that move no child: queries and inspections, marks and
    cancellations of running children, callers that leave and budgets that run out. *)
From Stdlib Require Import String Ascii.
From stdpp Require Import gmap.
From S2P Require Import Prelude RustStr Json HashIter CoordTypes Coordinator CoordView.

Section Calm.
Context `{HashOrder, ChildRunner} {Extra : Type}.
Abbreviation Coord := (@Coordinator _ Extra).
Implicit Types (s : Coord) (q : QueuedSpawn Extra) (r : SubagentRequest Extra).

(** ** Queries *)

Lemma calm_finish_list_slot request_id index v s : calm s (finish_list_slot request_id index v s).
Proof.
  unfold finish_list_slot. destruct (list_requests s !! request_id); [|apply calm_refl].
  destruct (negb _); [calm_by_fields|]. eapply calm_trans; [|apply calm_send]. calm_by_fields.
Qed.

Lemma calm_answer_inactive id t s : calm s (answer_inactive id t s).
Proof. destruct t; simpl; auto using calm_send, calm_finish_list_slot. Qed.

Lemma calm_queue_active_progress id t s : calm s (queue_active_progress id t s).
Proof.
  unfold queue_active_progress. destruct (active s !! id); [calm_by_fields|apply calm_answer_inactive].
Qed.

Lemma calm_finish_progress seed t p s : calm s (finish_progress seed t p s).
Proof.
  unfold finish_progress. destruct (bool_decide _); [|apply calm_answer_inactive].
  destruct t; auto using calm_send, calm_finish_list_slot.
Qed.

Lemma calm_handle_inspect id session c s : calm s (handle_inspect id session c s).
Proof.
  unfold handle_inspect. repeat case_match; auto using calm_send, calm_queue_active_progress.
Qed.

Lemma calm_handle_list_running session c s : calm s (handle_list_running session c s).
Proof.
  unfold handle_list_running. destruct (omap _ _) as [|id l]; [apply calm_send|].
  set (s1 := set_list_requests _ _). assert (H1 : calm s s1) by calm_by_fields. clearbody s1.
  generalize (id :: l) (next_list_request_id s) 0. clear id l. intros l n i.
  revert i s1 H1. induction l as [|id l IH]; intros i s1 H1; simpl; [done|].
  apply IH. eapply calm_trans; [exact H1|apply calm_queue_active_progress].
Qed.

Lemma calm_handle_completions session suppress_ids c s :
  calm s (handle_completions session suppress_ids c s).
Proof.
  unfold handle_completions. eapply calm_trans; [|apply calm_send]. calm_by_fields.
  apply length_filter.
Qed.

(** A query either registers a waiter on a child that is there, or is calm. *)
Lemma handle_query_cases id session block timeout_ms c s :
  calm s (handle_query id session block timeout_ms c s)
  ∨ handle_query id session block timeout_ms c s = push_blocking_waiter id timeout_ms c s
    ∧ (is_Some (pending s !! id) ∨ is_Some (active s !! id) ∨ ∃ q, q ∈ queued s ∧ rq_id (q_request q) = id).
Proof.
  unfold handle_query.
  destruct (completed s !! id ≫= _) as [d|]; [left; apply calm_send|].
  destruct (active s !! id) as [x|] eqn:Ha; simpl;
    [destruct (belongs_to_session _ _); simpl|].
  { destruct (rq_is_workflow _); [left; apply calm_send|].
    destruct block; [right; naive_solver|left; apply calm_queue_active_progress]. }
  all: destruct (pending s !! id) as [x'|] eqn:Hp; simpl;
    [destruct (belongs_to_session (request x') _); simpl|].
  1, 4: (destruct (rq_is_workflow _); [left; apply calm_send|];
         destruct block; [right; naive_solver|left; apply calm_send]).
  all: destruct (find_queued s _) as [q|] eqn:Hq; [|left; apply calm_send].
  all: (destruct block; [right; split; [done|]|left; apply calm_send]).
  all: right; right; exists q; apply find_In in Hq as [? Hq]; split; [done|].
  all: apply andb_true_iff in Hq as [?%str_eqb_eq _]; done.
Qed.

(** ** Marks and cancellations *)

Lemma calm_tokens v s : calm s (set_cancelled_tokens v s).
Proof. calm_by_fields. Qed.

Lemma controls_silent (l : list str) :
  let es := ControlCancelled <$> l : list (@Effect _ Extra) in
  omap received es = [] ∧ omap start_of es = [] ∧ omap answered es = [] ∧ omap dropped es = [].
Proof. induction l; simpl; [done|]. naive_solver. Qed.

Lemma calm_cancel_where P s : calm s (cancel_where P s).
Proof.
  unfold cancel_where. eapply calm_trans; [|apply calm_tokens].
  apply calm_emit; apply controls_silent.
Qed.

Lemma omap_fmap_same {A} (h : A → option Chan) (f : A → A) (l : list A) :
  (∀ x, h (f x) = h x) → omap h (f <$> l) = omap h l.
Proof. intros Hf. induction l as [|x l IH]; [done|]. csimpl. by rewrite Hf, IH. Qed.

(** Records rewritten with their child and their reply channel kept. *)
Lemma calm_map_children f g s :
  (∀ c, pkind (f c) = pkind c ∧ spawn_reply (f c) = spawn_reply c) →
  (∀ c, pkind (g c) = pkind c ∧ spawn_reply (g c) = spawn_reply c) →
  calm s (set_pending (g <$> pending s) (set_active (on_base f <$> active s) s)).
Proof.
  intros Hf Hg. split; try done; simpl.
  - rewrite <- map_fmap_compose. apply map_fmap_ext. intros; apply Hg.
  - rewrite <- map_fmap_compose. apply map_fmap_ext. intros; apply Hf.
  - no_effects. unfold held. simpl. rewrite !values_fmap, !omap_fmap_same; [done| |].
    + intros a. apply (Hf (base a)).
    + intros c. apply Hg.
Qed.

Lemma calm_map_queued f s : (∀ q, qkind (f q) = qkind q ∧ qreply (f q) = qreply q) →
  calm s (set_queued (f <$> queued s) s).
Proof.
  intros Hf. split; try done; simpl.
  - rewrite <- list_fmap_compose. apply list_fmap_ext. intros; apply Hf.
  - no_effects. unfold held. simpl. rewrite omap_fmap_same; [done|].
    intros q. apply Hf.
Qed.

(** Replacing one record. *)
Lemma calm_update_active id a a' s : active s !! id = Some a → akind a' = akind a →
  reply_of a' = reply_of a → calm s (set_active (<[id := a']> (active s)) s).
Proof.
  intros Ha Hk Hr. split; try done; simpl.
  - rewrite fmap_insert, Hk. apply insert_id. by rewrite lookup_fmap, Ha.
  - no_effects. unfold held. simpl. rewrite (values_delete (active s) id a) by done.
    rewrite <- insert_delete_eq, values_insert by apply lookup_delete_eq. csimpl. by rewrite Hr.
Qed.
Lemma calm_update_pending id c c' s : pending s !! id = Some c → pkind c' = pkind c →
  spawn_reply c' = spawn_reply c → calm s (set_pending (<[id := c']> (pending s)) s).
Proof.
  intros Ha Hk Hr. split; try done; simpl.
  - rewrite fmap_insert, Hk. apply insert_id. by rewrite lookup_fmap, Ha.
  - no_effects. unfold held. simpl. rewrite (values_delete (pending s) id c) by done.
    rewrite <- insert_delete_eq, values_insert by apply lookup_delete_eq. csimpl. by rewrite Hr.
Qed.

(** ** Callers that leave or are handed off *)

(** The effects [e x] release what the rewrite [f] takes from the record [x]. *)
Record releases {A} (g : A → option Chan) (f : A → A) (e : A → list (@Effect _ Extra))
  (gone : gset Chan) : Prop := mkReleases {
  rl_answers : ∀ x, omap answered (e x) ++ option_list (g (f x)) ≡ₚ option_list (g x);
  rl_received : ∀ x, omap received (e x) = [];
  rl_starts : ∀ x, omap start_of (e x) = [];
  rl_dropped : ∀ x c, c ∈ omap dropped (e x) → c ∈ gone
}.

Lemma omap_cons_list {A} (g : A → option Chan) x (l : list A) :
  omap g (x :: l) = option_list (g x) ++ omap g l.
Proof. csimpl. by destruct (g x). Qed.

Lemma releases_list {A} g f e gone (l : list A) : releases g f e gone →
  omap answered (flat_map e l) ++ omap g (f <$> l) ≡ₚ omap g l
  ∧ omap received (flat_map e l) = [] ∧ omap start_of (flat_map e l) = []
  ∧ ∀ c, c ∈ omap dropped (flat_map e l) → c ∈ gone.
Proof.
  intros [HA HR HS HD]. induction l as [|x l (IA & IR & IS & ID)].
  { split_and!; try done. by intros c ?%elem_of_nil. }
  change (flat_map e (x :: l)) with (e x ++ flat_map e l). rewrite fmap_cons.
  rewrite !omap_app, HR, HS, IR, IS. split_and!; try done.
  - rewrite !omap_cons_list, <- IA, <- (HA x). solve_Permutation.
  - intros c. rewrite elem_of_app. intros [?|?]; eauto.
Qed.

Lemma iter_flat_map {A} (e : A → list (@Effect _ Extra)) (m : gmap str A) :
  flat_map (λ kv, e kv.2) (iter m) ≡ₚ flat_map e (values m).
Proof.
  rewrite iter_entries. unfold values. induction (map_to_list m) as [|kv l IH]; csimpl; [done|].
  by rewrite IH.
Qed.

Lemma releases_map {A} (g : A → option Chan) (f : A → A) (e : A → list (@Effect _ Extra)) (gone : gset Chan) (m : gmap str A) : releases g f e gone →
  let es := flat_map (λ kv, e kv.2) (iter m) in
  omap answered es ++ omap g (values (f <$> m)) ≡ₚ omap g (values m)
  ∧ omap received es = [] ∧ omap start_of es = [] ∧ ∀ c, c ∈ omap dropped es → c ∈ gone.
Proof.
  intros Hr. destruct (releases_list g f e gone (values m) Hr) as (HA & HR & HS & HD).
  simpl. rewrite values_fmap. split_and!.
  - by rewrite iter_flat_map.
  - apply Permutation_nil_r. by rewrite iter_flat_map, HR.
  - apply Permutation_nil_r. by rewrite iter_flat_map, HS.
  - intros c. rewrite iter_flat_map. apply HD.
Qed.

Lemma calm_release_pending f e s : (∀ c, pkind (f c) = pkind c) → releases spawn_reply f e (closed s) →
  calm s (emit (flat_map (λ kv, e kv.2) (iter (pending s))) (set_pending (f <$> pending s) s)).
Proof.
  intros Hf Hr. destruct (releases_map _ _ _ _ (pending s) Hr) as (HA & HR & HS & HD). split; try done; simpl.
  - rewrite <- map_fmap_compose. apply map_fmap_ext. intros; apply Hf.
  - eexists. split_and!; [done..| |done]. unfold held. simpl. rewrite <- HA. solve_Permutation.
Qed.

Lemma calm_release_active f e s : (∀ a, akind (f a) = akind a) → releases reply_of f e (closed s) →
  calm s (emit (flat_map (λ kv, e kv.2) (iter (active s))) (set_active (f <$> active s) s)).
Proof.
  intros Hf Hr. destruct (releases_map _ _ _ _ (active s) Hr) as (HA & HR & HS & HD). split; try done; simpl.
  - rewrite <- map_fmap_compose. apply map_fmap_ext. intros; apply Hf.
  - eexists. split_and!; [done..| |done]. unfold held. simpl. rewrite <- HA. solve_Permutation.
Qed.

Lemma calm_release_queued f e s : (∀ q, qkind (f q) = qkind q) → releases qreply f e (closed s) →
  calm s (emit (flat_map e (queued s)) (set_queued (f <$> queued s) s)).
Proof.
  intros Hf Hr. destruct (releases_list _ _ _ _ (queued s) Hr) as (HA & HR & HS & HD). split; try done; simpl.
  - rewrite <- list_fmap_compose. apply list_fmap_ext. intros; apply Hf.
  - eexists. split_and!; [done..| |done]. unfold held. simpl. rewrite <- HA. solve_Permutation.
Qed.

Lemma emit_app es es' s : emit (es ++ es') s = emit es' (emit es s).
Proof. unfold emit. simpl. by rewrite app_assoc. Qed.

Lemma leave_caller_kind s c : pkind (leave_caller s c) = pkind c.
Proof. unfold leave_caller. destruct (caller_gone s c), (rq_is_workflow (request c)); done. Qed.
Lemma leave_caller_releases s : releases spawn_reply (leave_caller s) (dropped_reply s) (closed s).
Proof.
  unfold leave_caller, dropped_reply, caller_gone.
  split; intros c; destruct (handle_only c), (spawn_reply c) as [tx|] eqn:Htx; simpl;
    rewrite ?Htx; try done; try (by intros ? ?%elem_of_nil);
    destruct (is_open s tx) eqn:Ho; simpl; rewrite ?Htx; try done;
    try (by intros ? ?%elem_of_nil); try (by destruct (rq_is_workflow (request c))).
  intros x Hx%list_elem_of_singleton. subst x. unfold is_open in Ho.
  apply bool_decide_eq_false in Ho. by apply dec_stable.
Qed.

Lemma on_base_releases f e (s : Coord) : releases spawn_reply f e (closed s) →
  releases reply_of (on_base f) (λ a : ActiveChild Extra, e (base a)) (closed s).
Proof. intros [? ? ? HD]. split; intros a; unfold reply_of; simpl; auto. intros; by eapply HD. Qed.

Lemma calm_reap_children s : calm s (reap_children s).
Proof.
  unfold reap_children. rewrite !emit_app.
  set (gone_a := filter _ (active s)). set (ts := _ ∪ _ ∪ _).
  eapply calm_trans; [apply (calm_release_pending (leave_caller s) (dropped_reply s) s)|];
    [apply leave_caller_kind|apply leave_caller_releases|].
  set (s1 := emit _ (set_pending _ s)).
  eapply calm_trans; [apply (calm_release_active (on_base (leave_caller s)) (λ a, dropped_reply s (base a)) s1)|].
  { intros a. apply (leave_caller_kind s (base a)). }
  { exact (on_base_releases _ _ s (leave_caller_releases s)). }
  eapply calm_trans; [apply (calm_tokens ts)|].
  apply calm_emit; apply controls_silent.
Qed.

Lemma leave_queued_releases s : releases qreply (leave_queued s) (dropped_queued s) (closed s).
Proof.
  unfold leave_queued, dropped_queued, qreply.
  split; intros q; destruct (caller q) as [tx dl|] eqn:Hc; simpl; rewrite ?Hc; try done;
    try (by intros ? ?%elem_of_nil); destruct (is_open s tx) eqn:Ho; simpl; rewrite ?Hc; try done;
    try (by intros ? ?%elem_of_nil).
  intros x Hx%list_elem_of_singleton. subst x. unfold is_open in Ho.
  apply bool_decide_eq_false in Ho. by apply dec_stable.
Qed.

Lemma calm_reap_queued s :
  calm s (emit (flat_map (dropped_queued s) (queued s)) (set_queued (leave_queued s <$> queued s) s)).
Proof.
  apply calm_release_queued; [|apply leave_queued_releases].
  intros q. unfold leave_queued. destruct (caller q); [by destruct (is_open s _)|done].
Qed.

Lemma expire_releases s child : releases spawn_reply (expire s) (λ c, expiry s (child c) c) (closed s).
Proof.
  unfold expire, expiry. split; intros c; destruct (is_due s _); try done;
    destruct (spawn_reply c); try done; by intros ? ?%elem_of_nil.
Qed.
Lemma expire_queued_releases s : releases qreply (expire_queued s) (queued_expiry s) (closed s).
Proof.
  unfold expire_queued, queued_expiry, qreply. split; intros q; destruct (is_due s _); try done;
    destruct (into_spawn_reply (caller q)); try done; by intros ? ?%elem_of_nil.
Qed.

(** The hand-offs of [process_deadlines]. *)
Lemma calm_expiries s :
  let es := flat_map (λ kv, expiry s (rq_id (request kv.2)) kv.2) (iter (pending s))
            ++ flat_map (λ kv, expiry s (child_session_id (started kv.2)) (base kv.2)) (iter (active s))
            ++ flat_map (queued_expiry s) (queued s) in
  let s' := set_pending (expire s <$> pending s) s in
  let s' := set_active (on_base (expire s) <$> active s') s' in
  calm s (emit es (set_queued (expire_queued s <$> queued s') s')).
Proof.
  simpl. rewrite !emit_app.
  eapply calm_trans; [apply (calm_release_pending (expire s) (λ c, expiry s (rq_id (request c)) c) s)|];
    [intros c; unfold expire; by destruct (is_due s _)
    |apply (expire_releases s (λ c, rq_id (request c)))|].
  set (s1 := emit _ (set_pending _ s)).
  eapply calm_trans; [apply (calm_release_active (on_base (expire s))
    (λ a, expiry s (child_session_id (started a)) (base a)) s1)|].
  { intros a. unfold akind, on_base, expire. simpl. by destruct (is_due s _). }
  { split; intros a; unfold reply_of; simpl;
      apply (expire_releases s (λ c, child_session_id (started a))). }
  set (s2 := emit _ (set_active _ s1)).
  apply (calm_release_queued (expire_queued s) (queued_expiry s) s2).
  - intros q. unfold expire_queued. by destruct (is_due s _).
  - exact (expire_queued_releases s).
Qed.

Lemma calm_expire_waiters s0 s id ws : calm s0 s → is_Some (waiters s0 !! id) →
  calm s0 (expire_waiters s (id, ws)).
Proof.
  intros Hc Hid. unfold expire_waiters. set (live := filter (λ w, ¬ _) ws).
  set (s1 := set_waiters _ s). assert (H1 : calm s0 s1).
  { destruct Hc as [? ? ? ? ? ? ? ? HW ? ? ? ?]. split; try done. simpl. intros i. destruct live.
    - intros [_ ?]%lookup_delete_is_Some. auto.
    - intros [<-|[_ ?]]%lookup_insert_is_Some; auto. }
  eapply calm_trans; [exact H1|]. apply calm_foldl. intros s' w.
  destruct (negb _); [apply calm_refl|]. destruct (bool_decide _); auto using calm_send, calm_queue_active_progress.
Qed.

Lemma calm_expire_list s0 l : ∀ s, calm s0 s → (∀ kv, kv ∈ l → is_Some (waiters s0 !! kv.1)) →
  calm s0 (foldl expire_waiters s l).
Proof.
  induction l as [|[id ws] l IH]; intros s Hc Hl; simpl; [done|]. apply IH.
  - apply calm_expire_waiters; [done|]. apply (Hl (id, ws)). by left.
  - intros kv Hkv. apply Hl. by right.
Qed.

Lemma calm_expire_all s : calm s (foldl expire_waiters s (iter (waiters s))).
Proof.
  apply calm_expire_list; [apply calm_refl|].
  intros [id ws]. rewrite iter_entries, elem_of_map_to_list. simpl. by eauto.
Qed.
End Calm.
