(* ===== verification/CoordSafety.v ===== *)
(** Correctness of the subagent coordinator, for every sequence of turns and of changes of
    its environment: admission ([CoordSafety.capacity_invariant]), the order of the queue,
    stopped sessions, the accounting of reply channels up to the exit of the actor, the
    bounds of the registry.

    First a concrete host: hash maps iterate in key order, children carry no data.  Its runs
    instantiate the theorems here and in CoordFifo. *)
From Stdlib Require Import String Ascii.
From stdpp Require Import gmap relations.
From S2P Require Import Prelude RustStr Json HashIter CoordTypes Coordinator CoordView CoordInv CoordSweep CoordCalm.

(** * A concrete host *)

#[export] Instance bare_runner : ChildRunner := {
  CompletionData := unit; default_data := tt; persisted_ref _ := None;
  load_persisted_output _ := None; ValidateOutcome := unit; DescribeOutcome := unit
}.

Module Demo.
Definition config : CoordinatorConfig := mkCoordConfig 1000 (mkLimits 1 LQueue) false true None.
Definition clock0 : Clock := mkClock 0 0.
Definition spawn_of (id session : String.string) (token chan : N) : @SubagentEvent unit :=
  Spawn (mkReq _ (lit id) [] [] (lit session) None None None None None None true true false Task token tt) chan.

Definition exec (s : @Coordinator _ unit) (e : SubagentEvent) : Coordinator :=
  evict_completed (handle_command config e (reap_abandoned_callers config s)).
Definition execs (es : list (@SubagentEvent unit)) : Coordinator := foldl exec (new_coordinator clock0) es.

Lemma exec_step s e : cstep config s (exec s e).
Proof. left. apply t_command. Qed.
Lemma execs_from s es : rtc (cstep config) s (foldl exec s es).
Proof.
  revert s. induction es as [|e es IH]; intros s; simpl; [constructor|].
  eapply rtc_l; [apply exec_step|apply IH].
Qed.
Lemma execs_reachable es : rtc (cstep config) (new_coordinator clock0) (execs es).
Proof. apply execs_from. Qed.

(** The run of [id] ends. *)
Definition ok_output : ChildRunOutput :=
  mkOutput (mkResult true [] None false [] [] 0 0 0 0 0 0 false None false) tt None.
Definition end_of (id : String.string) (s : @Coordinator _ unit) : Coordinator :=
  evict_completed (finish_child config (lit id) ok_output (set_runs (remove_first (lit id) (runs s)) s)).
Lemma end_of_step id s : bool_decide (lit id ∈ runs s) = true → cstep config s (end_of id s).
Proof. intros Hid%bool_decide_eq_true. left. by constructor. Qed.

(** Two spawns of one session with one slot: the second waits. *)
Definition two_spawns : list (@SubagentEvent unit) := [spawn_of "a" "p" 1 1; spawn_of "b" "p" 2 2].
(** The session is stopped, then a late spawn arrives. *)
Definition stop : @SubagentEvent unit := Cancel (Some (lit "p")) BySession 9.
End Demo.

Section Turn.
Context `{HashOrder, ChildRunner} {Extra : Type}.
Variable config : CoordinatorConfig.
Abbreviation Coord := (@Coordinator _ Extra).
Abbreviation limit := (max_concurrent (admission config)).
Implicit Types (s : Coord) (q : QueuedSpawn Extra) (r : SubagentRequest Extra).
Context {B : gset str} {Lg : list (@Effect _ Extra)}.
Abbreviation WF := (WF config B Lg None).

(** The state between two operations of a turn. *)
Record Good s : Prop := mkGood {
  g_wf : WF [] s;
  g_sat : saturated config s;
  g_draining : draining_queued s = false
}.
Definition keeps s s' : Prop :=
  Good s → Good s' ∧ spawn_blocked_sessions s' = spawn_blocked_sessions s.

Lemma keeps_trans s1 s2 s3 : keeps s1 s2 → keeps s2 s3 → keeps s1 s3.
Proof. intros H1 H2 Hg. destruct (H1 Hg) as [Hg' <-]. by apply H2. Qed.
Lemma calm_keeps s s' : calm s s' → keeps s s'.
Proof.
  intros Hc [Hwf Hs Hd]. split; [|apply (cm_blocked _ _ Hc)].
  split; [by eapply wf_calm|by eapply saturated_calm|]. by rewrite (cm_draining _ _ Hc).
Qed.
Lemma swept_good s s' : swept config [] s s' (B := B) (Lg := Lg) →
  Good s' ∧ spawn_blocked_sessions s' = spawn_blocked_sessions s.
Proof. intros [? ? ? ? _]. done. Qed.
Lemma keeps_remove P s : keeps s (remove_queued config P s).1.
Proof. intros [? ? ?]. apply swept_good. by apply wf_remove_queued. Qed.

Lemma keeps_send c m s s' : keeps s s' → keeps s (send c m s').
Proof. intros Hk. eapply keeps_trans; [exact Hk|]. apply calm_keeps, calm_send. Qed.

Lemma keeps_reap s : keeps s (reap_abandoned_callers config s).
Proof.
  unfold reap_abandoned_callers. eapply keeps_trans; [|apply keeps_remove].
  apply calm_keeps. eapply calm_trans; [|apply calm_reap_queued].
  eapply calm_trans; [|apply calm_reap_children]. calm_by_fields.
Qed.

Lemma keeps_process_deadlines s : keeps s (process_deadlines config s).
Proof.
  unfold process_deadlines. eapply keeps_trans; [apply keeps_reap|]. apply calm_keeps.
  eapply calm_trans; [apply calm_expiries|apply calm_expire_all].
Qed.

(** ** Cancelling *)

Lemma keeps_cancel_one id session explicit s : keeps s (cancel_one config id session explicit s).1.
Proof.
  unfold cancel_one.
  pose proof (keeps_remove (λ r, str_eqb (rq_id r) id && belongs_to_session r session) s) as Hk.
  destruct (remove_queued config _ s) as [s' n]. cbn [fst] in Hk. destruct (active s !! id) as [a|] eqn:Ha; simpl;
    [destruct (belongs_to_session _ _); simpl|].
  { set (s1 := set_active _ s). assert (H1 : calm s s1) by (by apply (calm_update_active id a)).
    apply calm_keeps. eapply calm_trans; [exact H1|].
    eapply calm_trans; [apply calm_tokens|]. by apply calm_emit. }
  all: destruct (pending s !! id) as [c|] eqn:Hp; simpl;
    [destruct (belongs_to_session (request c) _); simpl|].
  1, 4: (set (s1 := set_pending _ s); assert (H1 : calm s s1) by (by apply (calm_update_pending id c));
         apply calm_keeps; eapply calm_trans; [exact H1|apply calm_tokens]).
  all: by repeat case_match.
Qed.

Lemma keeps_cancel_prompt prompt_id session s : keeps s (cancel_parent_prompt config prompt_id session s).
Proof.
  unfold cancel_parent_prompt. eapply keeps_trans; [|apply keeps_remove].
  apply calm_keeps, calm_cancel_where.
Qed.

Lemma keeps_teardown session s : keeps s (teardown_session_children config session s).
Proof.
  unfold teardown_session_children. eapply keeps_trans; [|apply keeps_remove]. apply calm_keeps.
  set (hide_child := λ c : PendingChild Extra, if str_eqb _ _ then _ else c).
  assert (Hh : ∀ c, pkind (hide_child c) = pkind c ∧ spawn_reply (hide_child c) = spawn_reply c).
  { intros c. unfold hide_child. by destruct (str_eqb _ _). }
  eapply calm_trans; [apply (calm_map_children hide_child hide_child); exact Hh|].
  eapply calm_trans; [apply calm_cancel_where|].
  apply calm_map_queued. intros q. by destruct (str_eqb _ _).
Qed.

(** Stopping a session: its queued spawns are resolved and nothing of it stays queued. *)
Lemma good_cancel_session session s : Good s →
  let s' := (cancel_parent_session config (Some session) s).1 in
  Good s' ∧ spawn_blocked_sessions s' = {[ session ]} ∪ spawn_blocked_sessions s
  ∧ ∀ k, k ∈ qkinds (queued s') → k_session k ≠ session.
Proof.
  intros Hg. unfold cancel_parent_session. cbn [fst].
  set (s1 := set_spawn_blocked_sessions _ s). set (s2 := cancel_where _ s1).
  assert (Hg1 : Good s1) by (destruct Hg; split; [by apply wf_set_blocked|done|done]).
  destruct (calm_keeps _ _ (calm_cancel_where (counts_for session) s1) Hg1) as [[Hwf Hs Hd] Hb].
  destruct (wf_remove_queued config [] s2 (counts_for session) Hwf Hd Hs) as [Hsw Hq].
  destruct (swept_good _ _ Hsw) as [Hg' Hb']. split_and!; [done|by rewrite Hb'|].
  intros k Hk Heq. destruct (wf_queue _ _ _ _ _ _ (g_wf _ Hg') _ Hk) as [Ho _].
  apply list_elem_of_fmap in Hk as (q & -> & Hin). specialize (Hq _ Hin).
  unfold counts_for, rq_is_workflow in Hq. simpl in Heq, Ho. rewrite Ho, Heq, str_eqb_refl in Hq. done.
Qed.

Lemma good_cancel_workflow run_id session c s : keeps s (handle_cancel config session (ByWorkflow run_id) c s).
Proof.
  unfold handle_cancel. set (s1 := cancel_workflow_children run_id session s).
  apply (keeps_trans s s1); [apply calm_keeps, calm_cancel_where|].
  destruct (_ =? _)%nat eqn:Hz; [apply calm_keeps, calm_send|]. bool_to_prop.
  rewrite workflow_outstanding_live in Hz. intros [[? ? ? ? ? ? ? ? HF ? ? ? ?] Hs Hd].
  split; [|done]. split; [|done|done]. split; try done. simpl. intros r.
  intros [<-|[_ Hr]]%lookup_insert_is_Some; [|by apply HF].
  left. rewrite app_nil_r. done.
Qed.

(** ** Queries that wait *)

Lemma keeps_query id session block timeout_ms c s : keeps s (handle_query id session block timeout_ms c s).
Proof.
  destruct (handle_query_cases id session block timeout_ms c s) as [Hc|[-> Hin]]; [by apply calm_keeps|].
  intros [Hwf Hs Hd]. split; [|done]. split; [|done|done].
  assert (Hid : id ∈ ids (live s) ++ ids (qkinds (queued s))).
  { rewrite elem_of_app. destruct Hin as [?|[?|(q & Hq & <-)]].
    - left. apply live_pending; [done|by destruct Hwf].
    - left. apply live_active; [done|by destruct Hwf].
    - right. unfold ids, qkinds. rewrite <- list_fmap_compose. apply list_elem_of_fmap. by exists q. }
  destruct Hwf as [? ? ? ? ? ? ? HW ? ? ? ? ?]. split; try done. simpl. intros i.
  intros [<-|[_ Hi]]%lookup_insert_is_Some; [|by apply HW]. rewrite app_nil_r. done.
Qed.

(** ** Spawning *)

Lemma good_reject tx res s : keeps s (send_result tx res (emit [Received tx] s)).
Proof.
  intros [[? ? ? ? ? ? ? ? ? ? HL HD (es & HLg & HS)] Hs Hd]. split; [|done]. split; [|done|done].
  split; try done; simpl.
  - rewrite !omap_app. csimpl. rewrite HL, !app_nil_r. unfold held. simpl. solve_Permutation.
  - intros c. rewrite !omap_app. csimpl. rewrite !app_nil_r. apply HD.
  - exists (es ++ [Received tx] ++ [result_effect (emit [Received tx] s) tx res]).
    rewrite HLg, <- !app_assoc, omap_app, omap_app. split; [done|]. csimpl. by rewrite app_nil_r.
Qed.

Lemma calm_notify_limit r d s : calm s (notify_limit config r d s).
Proof. unfold notify_limit. destruct (has_limit_sink config); [by apply calm_emit|apply calm_refl]. Qed.

Lemma id_known_fresh s id : WF [] s → id_known s id = false →
  id ∉ ids (live s) ++ ids (qkinds (queued s)) ++ completed_order s.
Proof.
  intros Hwf Hk. unfold id_known in Hk. bool_to_prop.
  rewrite !elem_of_app. intros [Hin|[Hin|Hin]].
  - rewrite <- (wf_runs _ _ _ _ _ _ Hwf) in Hin.
    destruct (wf_take _ _ _ _ Hwf Hin) as (c & st & s' & Ht & _). unfold take_record in Ht. simpl in Ht.
    destruct (active s !! id) eqn:Ha; [by eauto|]. destruct (pending s !! id) eqn:Hp; [by eauto|done].
  - unfold ids, qkinds in Hin. rewrite <- list_fmap_compose in Hin.
    apply list_elem_of_fmap in Hin as (q & -> & Hq).
    assert (Ht : existsb (λ q', str_eqb (rq_id (q_request q')) (rq_id (q_request q))) (queued s) = true)
      by (apply existsb_elem; exists q; by rewrite str_eqb_refl).
    simpl in *. congruence.
  - by apply (wf_done _ _ _ _ _ _ Hwf) in Hin.
Qed.

Lemma good_start r spawn_parent reply origin s : WF [(kind r, reply)] s → saturated config s →
  draining_queued s = false → allowed B (kind r) →
  (rq_is_workflow r = true ∨ count (parent_session_id r) (live s) < limit) →
  let s' := start_child config r spawn_parent reply origin s in
  Good s' ∧ spawn_blocked_sessions s' = spawn_blocked_sessions s.
Proof.
  intros Hwf Hs Hd Hal Hroom. destruct (start_child_frame config r spawn_parent reply origin s)
    as (Hq & Hd' & Hb & _). simpl in *.
  pose proof (wf_in_flight _ _ _ _ _ Hwf) as (Hl & _).
  pose proof (wf_not_live _ _ _ _ Hwf Hl) as [Hp _].
  split; [|done]. split; [by apply wf_start| |congruence].
  intros k Hk. rewrite Hq in Hk. rewrite live_start, count_task_cons by done.
  specialize (Hs k Hk). destruct (task_of _ _); lia.
Qed.

Lemma good_spawn r tx s : spawn_blocked_sessions s = B → keeps s (handle_spawn config r tx s).
Proof.
  intros HB. unfold handle_spawn. set (s1 := emit [Received tx] s).
  destruct (reparent_nested_spawn s1 r) as [r'|e]; [|apply good_reject].
  destruct (negb (rq_is_workflow r') && _) eqn:Hbl; [apply good_reject|].
  destruct (id_known s1 (rq_id r')) eqn:Hkn; [apply good_reject|].
  intros Hg. pose proof Hg as [Hwf Hs Hd].
  assert (Hwf1 : WF [(kind r', Some tx)] s1).
  { apply wf_receive; [done|]. by apply id_known_fresh. }
  assert (Hal : allowed B (kind r')).
  { unfold allowed. simpl. destruct (is_workflow (owner r')) eqn:Hw; [by left|right].
    unfold rq_is_workflow in Hbl. rewrite Hw in Hbl. simpl in Hbl. bool_to_prop. by rewrite <- HB. }
  unfold admit_request, has_capacity. rewrite running_count_live.
  destruct (is_workflow (owner r')) eqn:Hw;
    [|destruct (_ <? _)%nat eqn:Hroom; [bool_to_prop|bool_to_prop; destruct (behavior _)]].
  - apply (good_start r' _ _ _ s1); try done. by left.
  - apply (good_start r' _ _ _ s1); try done. by right.
  - set (s2 := notify_limit _ _ _ s1). pose proof (calm_notify_limit r' _ s1 : calm s1 s2) as Hc.
    set (s3 := set_queued _ s2). split; [|apply (cm_blocked _ _ Hc)]. split.
    + apply (wf_park config [] s2 [mkQueued r' _ _ (Awaiting tx _)]); [by eapply wf_calm|].
      intros k Hk%list_elem_of_singleton. subst k. split; [done|]. destruct Hal as [Hal|Hal]; [simpl in Hal; congruence|done].
    + intros k. unfold qkinds, s3. simpl. rewrite fmap_app. csimpl. rewrite elem_of_app, list_elem_of_singleton.
      change (live (set_queued _ s2)) with (live s2). rewrite (live_calm _ _ Hc).
      intros [Hk| ->]; [|done]. apply Hs. unfold qkinds. by rewrite (cm_queue _ _ Hc) in Hk.
    + unfold s3. simpl. by rewrite (cm_draining _ _ Hc).
  - simpl. set (s2 := notify_limit _ _ _ s1). pose proof (calm_notify_limit r' _ s1 : calm s1 s2) as Hc.
    destruct (swept_good _ _ (wf_never_started config [] s2 r' (Some tx)
      (bare_result false (Some (admission_message (ConcurrentLimitReached limit))) (rq_id r') (rq_id r') false)
      (now s2) ltac:(by eapply wf_calm) ltac:(by rewrite (cm_draining _ _ Hc)))) as [Hg' Hb'].
    split; [exact Hg'|]. etrans; [exact Hb'|]. apply (cm_blocked _ _ Hc).
Qed.

(** ** Commands *)

(** The stopped sessions after a command. *)
Definition stopped_after (e : @SubagentEvent Extra) (b : gset str) : gset str :=
  match e with
  | Cancel (Some p) BySession _ => {[ p ]} ∪ b
  | TeardownSession p | OpenSpawnAdmission p => b ∖ {[ p ]}
  | _ => b
  end.

Definition queue_avoids (b : gset str) s : Prop := ∀ k, k ∈ qkinds (queued s) → k_session k ∉ b.

Lemma good_avoids b s : Good s → b ⊆ B → queue_avoids b s.
Proof. intros [Hwf _ _] Hb k Hk Hin. by apply (wf_queue _ _ _ _ _ _ Hwf) in Hk as [_ []]; auto. Qed.

Lemma good_unblock b s : Good s → Good (set_spawn_blocked_sessions b s).
Proof. intros [? ? ?]. split; [by apply wf_set_blocked|done|done]. Qed.

Definition command_ok e s s' : Prop :=
  Good s' ∧ spawn_blocked_sessions s' = stopped_after e (spawn_blocked_sessions s)
  ∧ queue_avoids (spawn_blocked_sessions s') s'.

Lemma keeps_command_ok e s s' : keeps s s' → Good s → spawn_blocked_sessions s = B →
  stopped_after e B = B → command_ok e s s'.
Proof.
  intros Hk Hg HB He. destruct (Hk Hg) as [Hg' Hb]. unfold command_ok. rewrite Hb, HB, He.
  split_and!; [done..|]. by apply good_avoids.
Qed.

Lemma good_teardown session s : Good s → spawn_blocked_sessions s = B →
  command_ok (TeardownSession session) s (handle_command config (TeardownSession session) s).
Proof.
  intros Hg HB. simpl. set (s1 := set_pending_completions _ s). set (s2 := set_spawn_blocked_sessions _ s1).
  assert (Hg1 : Good s1).
  { apply (calm_keeps s); [|done]. calm_by_fields. apply length_filter. }
  assert (Hg2 : Good s2) by by apply good_unblock.
  destruct (keeps_teardown session s2 Hg2) as [Hg' Hb]. unfold command_ok. rewrite Hb.
  split_and!; [done..|]. apply good_avoids; [done|]. simpl. set_solver.
Qed.

Lemma good_cancel session target c s : Good s → spawn_blocked_sessions s = B →
  command_ok (Cancel session target c) s (handle_cancel config session target c s).
Proof.
  intros Hg HB. destruct target as [id|prompt_id| |run_id].
  - apply keeps_command_ok; [|done..|by destruct session]. unfold handle_cancel.
    pose proof (keeps_cancel_one id session true s) as Hk.
    destruct (cancel_one _ _ _ _ _) as [s' o]. by apply keeps_send.
  - apply keeps_command_ok; [|done..|by destruct session]. apply keeps_send, keeps_cancel_prompt.
  - destruct session as [p|].
    + destruct (good_cancel_session p s Hg) as (Hg' & Hb & Hq). unfold handle_cancel.
      destruct (cancel_parent_session config (Some p) s) as [s' o] eqn:Hc. simpl in Hg', Hb, Hq.
      destruct (calm_keeps _ _ (calm_send c (MCancel o) s') Hg') as [Hg'' Hb''].
      unfold command_ok. rewrite Hb'', Hb. split_and!; [done..|].
      intros k Hk Hin. apply elem_of_union in Hin as [Hin%elem_of_singleton|Hin].
      * by apply (Hq k).
      * rewrite HB in Hin. by apply (good_avoids B _ Hg'' ltac:(done) k).
    + apply keeps_command_ok; [|done..]. apply keeps_send. by apply calm_keeps, calm_refl.
  - apply keeps_command_ok; [|done..|by destruct session]. apply good_cancel_workflow.
Qed.

Lemma good_command e s : Good s → spawn_blocked_sessions s = B →
  command_ok e s (handle_command config e s).
Proof.
  intros Hg HB. destruct e; try (by apply good_teardown); try (by apply good_cancel);
    try (apply keeps_command_ok; [|done..]; first
      [by apply good_spawn | apply keeps_query | apply calm_keeps, calm_send
      | apply calm_keeps, calm_handle_list_running | apply calm_keeps, calm_handle_completions
      | apply calm_keeps, calm_handle_inspect | apply keeps_send, keeps_reap
      | apply keeps_send, calm_keeps; calm_by_fields | apply calm_keeps; calm_by_fields]).
  unfold command_ok. simpl. split_and!; [by apply good_unblock|done|].
  apply good_avoids; [by apply good_unblock|]. simpl. set_solver.
Qed.

(** ** Reports of the children, and the bound on finished records *)

Lemma good_internal e s : keeps s (handle_internal e s).
Proof.
  destruct e as [id child c|source_id session c]; simpl; [|apply calm_keeps, calm_send].
  destruct (pending s !! id) as [p|] eqn:Hp; [|apply calm_keeps, calm_send].
  destruct (is_cancelled s _); [apply calm_keeps, calm_send|]. apply keeps_send.
  set (s' := set_active _ _). intros [Hwf Hs Hd]. split; [|done].
  assert (Ha : active s !! id = None).
  { by eapply wf_disjoint. }
  assert (Hl : live s' ≡ₚ live s).
  { unfold live. simpl. rewrite fmap_delete, fmap_insert, values_insert by (by rewrite lookup_fmap, Ha).
    rewrite (values_delete (pkind <$> pending s) id (pkind p)) by (by rewrite lookup_fmap, Hp).
    solve_Permutation. }
  assert (Hh : held s' ≡ₚ held s).
  { unfold held. simpl. rewrite values_insert by done. rewrite (values_delete (pending s) id p) by done.
    csimpl. unfold reply_of at 1. simpl. destruct (spawn_reply p); solve_Permutation. }
  split; [|intros k Hk; rewrite Hl; by apply Hs|done].
  destruct Hwf as [HP HA ? ? ? ? ? ? ? ? ? ? ?]. split; try setoid_rewrite Hl; rewrite ?Hh; try done; simpl.
  - intros i k. rewrite fmap_delete. intros [_ Hk]%lookup_delete_Some. by apply HP.
  - intros i k. rewrite fmap_insert. intros [[<- <-]|[_ Hk]]%lookup_insert_Some; [|by apply HA].
    apply HP. by rewrite lookup_fmap, Hp.
Qed.

Lemma evict_go_spec (order : list str) (m : gmap str (CompletedChild Extra)) : NoDup order →
  (∀ id, id ∈ order ↔ is_Some (m !! id)) →
  let '(order', m') := evict_go order m in
  (∃ gone, order = gone ++ order') ∧ (∀ id, id ∈ order' ↔ is_Some (m' !! id))
  ∧ size m' ≤ MAX_COMPLETED_ENTRIES.
Proof.
  revert m. induction order as [|id order IH]; intros m HN Hm; cbn [evict_go].
  - assert (m = ∅) as ->.
    { apply map_empty. intros i. apply eq_None_not_Some. rewrite <- Hm. apply not_elem_of_nil. }
    destruct (_ <? _)%nat; (split_and!; [by exists []|done|rewrite map_size_empty; lia]).
  - destruct (_ <? _)%nat eqn:Hlt; bool_to_prop; [|split_and!; [by exists []|done|done]].
    apply NoDup_cons in HN as [Hid HN]. specialize (IH (delete id m) HN).
    destruct (evict_go order (delete id m)) as [order' m'].
    destruct IH as ([gone ->] & ? & ?).
    + intros i. rewrite lookup_delete_is_Some, <- Hm, elem_of_cons. split.
      * intros Hi. split; [by intros ->|by right].
      * intros [Hne [->|?]]; done.
    + split_and!; [by exists (id :: gone)|done|done].
Qed.

Lemma good_evict s : keeps s (evict_completed s).
Proof.
  unfold evict_completed. intros [Hwf Hs Hd]. destruct (evict_go _ _) as [order m] eqn:He.
  destruct Hwf as [? ? HI HD ? ? ? ? ? ? ? ? ?].
  pose proof (evict_go_spec (completed_order s) (completed s)) as Hspec. rewrite He in Hspec.
  destruct Hspec as ([gone Hgone] & Hdone & _); [|done|].
  { apply NoDup_app in HI as (_ & _ & HI). apply NoDup_app in HI as (_ & _ & HI). done. }
  split; [|done]. split; [|done|done]. split; try done. simpl.
  rewrite Hgone in HI. eapply sublist_NoDup; [exact HI|].
  do 2 (apply sublist_app; [done|]). by do 2 apply sublist_inserts_l.
Qed.

Lemma size_evict s : WF [] s → size (completed (evict_completed s)) ≤ MAX_COMPLETED_ENTRIES.
Proof.
  intros Hwf. unfold evict_completed. destruct (evict_go _ _) as [order m] eqn:He.
  destruct Hwf as [? ? HI HD ? ? ? ? ? ? ? ? ?].
  pose proof (evict_go_spec (completed_order s) (completed s)) as Hspec. rewrite He in Hspec.
  apply Hspec; [|done]. apply NoDup_app in HI as (_ & _ & HI). by apply NoDup_app in HI as (_ & _ & HI).
Qed.

(** ** A turn *)

Lemma good_finish id out s : Good s → id ∈ runs s →
  let s' := finish_child config id out (set_runs (remove_first id (runs s)) s) in
  Good s' ∧ spawn_blocked_sessions s' = spawn_blocked_sessions s.
Proof. intros [? ? ?] Hid. apply swept_good. by apply wf_finish_child. Qed.

Lemma good_panicked id s : Good s → id ∈ runs s →
  let s' := finish_panicked_child config id (set_runs (remove_first id (runs s)) s) in
  Good s' ∧ spawn_blocked_sessions s' = spawn_blocked_sessions s.
Proof.
  intros Hg Hid. destruct (wf_take _ _ _ _ (g_wf _ Hg) Hid) as (c & st & s1 & Ht & _).
  unfold finish_panicked_child. unfold take_record in Ht. simpl in *.
  destruct (active s !! id); simpl; [by apply good_finish|].
  destruct (pending s !! id); simpl; [by apply good_finish|done].
Qed.

(** A turn that is not a command leaves the stopped sessions alone. *)
Definition is_command s s' : Prop :=
  ∃ e, s' = evict_completed (handle_command config e (reap_abandoned_callers config s))
       ∧ spawn_blocked_sessions s' = stopped_after e (spawn_blocked_sessions s).

Lemma turn_good s s' : turn config s s' → Good s → spawn_blocked_sessions s = B →
  Good s' ∧ queue_avoids (spawn_blocked_sessions s') s'
  ∧ (is_command s s' ∨ spawn_blocked_sessions s' = spawn_blocked_sessions s)
  ∧ size (completed s') ≤ MAX_COMPLETED_ENTRIES.
Proof.
  intros Ht Hg HB.
  assert (Hcalm : ∀ s1, calm s s1 → Good s1 ∧ spawn_blocked_sessions s1 = spawn_blocked_sessions s)
    by (intros s1 Hc; by apply (calm_keeps _ _ Hc)).
  assert (Hend : ∀ s1, Good s1 ∧ spawn_blocked_sessions s1 = spawn_blocked_sessions s →
    Good (evict_completed s1) ∧ queue_avoids (spawn_blocked_sessions (evict_completed s1)) (evict_completed s1)
    ∧ (is_command s (evict_completed s1)
       ∨ spawn_blocked_sessions (evict_completed s1) = spawn_blocked_sessions s)
    ∧ size (completed (evict_completed s1)) ≤ MAX_COMPLETED_ENTRIES).
  { intros s1 [Hg1 Hb1]. destruct (good_evict s1 Hg1) as [Hg2 Hb2].
    split_and!; [done| |right; congruence|apply size_evict; by destruct Hg1].
    apply good_avoids; [done|]. by rewrite Hb2, Hb1, HB. }
  destruct Ht as [e s|id out s Hid|id s Hid|v v1 v2 outcome s Hv|d d1 d2 outcome s Hd
                 |seed tg p1 p2 v s Hp|e s|d s Hn Hd].
  - apply Hend. by apply good_internal.
  - apply Hend. by apply good_finish.
  - apply Hend. by apply good_panicked.
  - apply Hend, Hcalm. eapply calm_trans; [|apply calm_send]. calm_by_fields.
  - apply Hend, Hcalm. eapply calm_trans; [|apply calm_send]. calm_by_fields.
  - apply Hend, Hcalm. eapply calm_trans; [|apply calm_finish_progress]. calm_by_fields.
  - destruct (keeps_reap s Hg) as [Hg1 Hb1]. rewrite <- Hb1 in HB.
    destruct (good_command e _ Hg1 HB) as (Hg2 & Hb2 & Hq2).
    destruct (good_evict _ Hg2) as [Hg3 Hb3].
    assert (Hq : queued (evict_completed (handle_command config e (reap_abandoned_callers config s)))
                 = queued (handle_command config e (reap_abandoned_callers config s)))
      by (unfold evict_completed; by destruct (evict_go _ _)).
    split_and!; [done| | |apply size_evict; by destruct Hg2].
    + intros k. rewrite Hq, Hb3. apply Hq2.
    + left. exists e. split; [done|]. by rewrite Hb3, Hb2, Hb1.
  - apply Hend. by apply keeps_process_deadlines.
Qed.
End Turn.

(** ** Runs of the coordinator *)

Lemma ids_keys {A} (f : A → Kind) (m : gmap str A) :
  (∀ id k, (f <$> m) !! id = Some k → k_id k = id) → ids (values (f <$> m)) = (map_to_list m).*1.
Proof.
  intros Hk. rewrite values_fmap. unfold values, ids. rewrite <- !list_fmap_compose.
  apply list_fmap_ext. intros i [id x] Hx. simpl. apply Hk.
  rewrite lookup_fmap. apply list_elem_of_lookup_2, elem_of_map_to_list in Hx. by rewrite Hx.
Qed.

Section Runs.
Context `{HashOrder, ChildRunner} {Extra : Type}.
Variable config : CoordinatorConfig.
Abbreviation Coord := (@Coordinator _ Extra).
Abbreviation limit := (max_concurrent (admission config)).
Implicit Types s : Coord.

(** The state between two turns. *)
Record Steady s : Prop := mkSteady {
  sd_good : Good config s (B := spawn_blocked_sessions s) (Lg := log s);
  sd_completed : size (completed s) ≤ MAX_COMPLETED_ENTRIES
}.

Lemma rebase B B' Lg s : Good config s (B := B) (Lg := Lg) → queue_avoids B' s →
  Good config s (B := B') (Lg := log s).
Proof.
  intros [Hwf Hs Hd] Hq. split; [|done|done]. destruct Hwf as [? ? ? ? ? HQ ? ? ? ? ? ? ?].
  split; try done.
  - intros k Hk. split; [by apply HQ|by apply Hq].
  - exists []. by rewrite app_nil_r.
Qed.

Lemma surroundings_calm s s' : surroundings s s' → calm s s' ∧ completed s' = completed s.
Proof. intros [k s1 Hk|t s1|c s1]; (split; [|done]); calm_by_fields. simpl. set_solver. Qed.

Lemma steady_step s s' : cstep config s s' → Steady s → Steady s'.
Proof.
  intros [Ht|He] [Hg Hc].
  - destruct (turn_good config _ _ Ht Hg eq_refl) as (Hg' & Hq & _ & Hsz). split; [|done].
    by eapply rebase.
  - destruct (surroundings_calm _ _ He) as [Hc' Heq]. split; [|by rewrite Heq].
    destruct (calm_keeps config _ _ Hc' Hg) as [Hg' Hb]. eapply rebase; [done|].
    intros k Hk. rewrite Hb. by apply (wf_queue _ _ _ _ _ _ (g_wf _ _ Hg')).
Qed.

Lemma steady_new k : Steady (new_coordinator k : Coord).
Proof.
  split; [|simpl; rewrite map_size_empty; lia]. split; [|by intros ? ?%elem_of_nil|done].
  assert (Hl : live (new_coordinator k : Coord) = []) by done.
  split; rewrite ?Hl; simpl; try done; try (by intros ? ?%elem_of_nil); try (by intros ? [? ?]).
  - constructor.
  - intros id. rewrite lookup_empty, elem_of_nil, is_Some_alt. done.
  - intros p. unfold count. simpl. lia.
  - apply Nat.le_0_l.
  - by exists [].
Qed.

Lemma steady_reachable k s : rtc (cstep config) (new_coordinator k) s → Steady s.
Proof.
  intros Hr. assert (Hs : Steady (new_coordinator k)) by apply steady_new.
  induction Hr; eauto using steady_step.
Qed.

(** C7: In every reachable state no session runs more non-workflow subagents than the
    configured limit (at least one), and a session has queued subagents only while it runs
    exactly that many: no slot stays free while a spawn waits for it. *)
Theorem capacity_invariant k s p : rtc (cstep config) (new_coordinator k) s →
  1 ≤ limit ∧ session_running_count s p ≤ limit
  ∧ (session_queued_count s p ≠ 0 → session_running_count s p = limit).
Proof.
  intros [[Hwf Hs _] _]%steady_reachable. rewrite running_count_live.
  pose proof (wf_cap _ _ _ _ _ _ Hwf p) as Hcap. split_and!; [simpl; lia|done|].
  unfold session_queued_count. intros Hq. destruct (filter _ _) as [|q l] eqn:Hf; [done|].
  assert (Hin : q ∈ q :: l) by by left. rewrite <- Hf in Hin.
  apply list_elem_of_filter in Hin as [<-%str_eqb_eq Hin].
  specialize (Hs (qkind q)). simpl in *. apply Nat.le_antisymm; [done|]. apply Hs.
  by apply list_elem_of_fmap_2.
Qed.

(** C39: The registry stays well formed: records are filed under their own id, no id is in two
    places (starting, running, queued, finished), the driven futures are exactly the
    starting and running children, finished records are listed once in eviction order, and
    the finished records and the completion buffer stay within their bounds. *)
Theorem registry_well_formed k s : rtc (cstep config) (new_coordinator k) s →
  (∀ id c, pending s !! id = Some c → rq_id (request c) = id)
  ∧ (∀ id a, active s !! id = Some a → rq_id (request (base a)) = id)
  ∧ NoDup ((map_to_list (pending s)).*1 ++ (map_to_list (active s)).*1
           ++ ((λ q, rq_id (q_request q)) <$> queued s) ++ completed_order s)
  ∧ runs s ≡ₚ (map_to_list (pending s)).*1 ++ (map_to_list (active s)).*1
  ∧ (∀ id, id ∈ completed_order s ↔ is_Some (completed s !! id))
  ∧ size (completed s) ≤ MAX_COMPLETED_ENTRIES
  ∧ length (pending_completions s) ≤ MAX_PENDING_COMPLETIONS.
Proof.
  intros [[Hwf _ _] Hc]%steady_reachable. destruct Hwf as [HP HA HI HD HR _ _ _ _ HB _ _ _].
  assert (Hk : ids (live s) = (map_to_list (pending s)).*1 ++ (map_to_list (active s)).*1).
  { unfold live. rewrite ids_app. f_equal; by apply ids_keys. }
  unfold qkinds, ids in HI. rewrite <- list_fmap_compose in HI. rewrite app_nil_l, app_assoc in *.
  fold (ids (live s)) in HI. rewrite Hk in *. split_and!; try done.
  - intros id c Hid. apply (HP id (pkind c)). by rewrite lookup_fmap, Hid.
  - intros id a Hid. apply (HA id (akind a)). by rewrite lookup_fmap, Hid.
  - by rewrite <- app_assoc in HI.
Qed.

(** C10: When the actor may exit, nothing is left: no spawn is queued (what the debug
    assertion of [run] states), no child is recorded, nobody waits for a child or for the
    end of a workflow, and every reply channel received with a spawn was consumed exactly
    once, by an answer or, if its receiver was gone, by dropping it. *)
Theorem exit_leaves_nothing k s : rtc (cstep config) (new_coordinator k) s → exit_condition s →
  queued s = [] ∧ pending s = ∅ ∧ active s = ∅ ∧ waiters s = ∅ ∧ workflow_cancel_waiters s = ∅
  ∧ omap received (log s) ≡ₚ omap answered (log s)
  ∧ ∀ c, DroppedReply c ∈ log s → c ∈ closed s.
Proof.
  intros [[Hwf Hs _] _]%steady_reachable (Hr & _ & _ & _).
  assert (Hlive : live s = []).
  { pose proof (wf_runs _ _ _ _ _ _ Hwf) as Hruns. rewrite Hr in Hruns.
    apply Permutation_nil in Hruns. by apply fmap_nil_inv in Hruns. }
  assert (Hq : queued s = []).
  { destruct (queued s) as [|q l] eqn:Hq; [done|]. exfalso. specialize (Hs (qkind q)).
    rewrite Hlive, Hq in Hs. assert (Hle : limit ≤ 0) by (apply Hs; by left). simpl in Hle. lia. }
  pose proof Hlive as Hmaps. unfold live in Hmaps. apply app_nil in Hmaps as [Hp Ha].
  apply fmap_nil_inv, map_to_list_empty_iff, fmap_empty_inv in Hp, Ha.
  destruct Hwf as [_ _ _ _ _ _ _ HW HF _ HL HD _]. rewrite Hlive, Hq in *. split_and!; try done.
  - apply map_empty. intros id. apply eq_None_not_Some. intros Hid%HW. by apply elem_of_nil in Hid.
  - apply map_empty. intros id. apply eq_None_not_Some. by intros [Hid|Hid]%HF.
  - rewrite HL. unfold held. rewrite Hq, Hp, Ha. simpl. by rewrite app_nil_r.
  - intros c Hc. apply HD. apply list_elem_of_omap. by exists (DroppedReply c).
Qed.

(** Once a session is stopped by a cancel of the whole session, no step starts another of
    its non-workflow children, neither from the queue nor from a late spawn, and it stays
    stopped until admission is opened again or the session is torn down. *)
Theorem stopped_session_starts_nothing k s s' p :
  rtc (cstep config) (new_coordinator k) s → cstep config s s' → p ∈ spawn_blocked_sessions s →
  (∃ es, log s' = log s ++ es ∧
     ∀ r spawn_parent queued_for n, RunStarted r spawn_parent queued_for n ∈ es →
     counts_for p r = false)
  ∧ (p ∈ spawn_blocked_sessions s'
     ∨ ∃ e, (e = OpenSpawnAdmission p ∨ e = TeardownSession p)
            ∧ s' = evict_completed (handle_command config e (reap_abandoned_callers config s))).
Proof.
  intros [Hg _]%steady_reachable Hstep Hp.
  assert (Hg' : Good config s' (B := spawn_blocked_sessions s) (Lg := log s)
    ∧ (is_command config s s' ∨ spawn_blocked_sessions s' = spawn_blocked_sessions s)).
  { destruct Hstep as [Ht|He].
    - by destruct (turn_good config _ _ Ht Hg eq_refl) as (? & _ & ? & _).
    - destruct (surroundings_calm _ _ He) as [Hc _].
      destruct (calm_keeps config _ _ Hc Hg). auto. }
  destruct Hg' as [[Hwf _ _] Hcmd]. split.
  - destruct (wf_log _ _ _ _ _ _ Hwf) as (es & Hlog & Hes). exists es. split; [done|].
    intros r sp qf n Hin. rewrite Forall_forall in Hes.
    destruct (Hes (kind r)) as [Hw|Hn].
    + apply list_elem_of_omap. by exists (RunStarted r sp qf n).
    + unfold counts_for, rq_is_workflow. simpl in Hw. rewrite Hw. apply andb_false_r.
    + unfold counts_for. destruct (str_eqb _ _) eqn:Heq; [|done]. apply str_eqb_eq in Heq as <-. done.
  - destruct Hcmd as [(e & He & Hb)| ->]; [|by left].
    destruct (decide (p ∈ stopped_after e (spawn_blocked_sessions s))) as [Hin|Hout];
      [left; by rewrite Hb|right; exists e; split; [|done]].
    destruct e as [| |[?|] []| | | |p'|p'| | | | | | | | |]; simpl in Hout; try (by destruct (Hout Hp)).
    + destruct Hout. apply elem_of_union. by right.
    + right. f_equal. destruct (decide (p' = p)); [done|].
      destruct Hout. apply elem_of_difference. by rewrite elem_of_singleton.
    + left. f_equal. destruct (decide (p' = p)); [done|].
      destruct Hout. apply elem_of_difference. by rewrite elem_of_singleton.
Qed.
End Runs.

(** ** Runs that meet the hypotheses *)

Lemma capacity_invariant_witness : let s := Demo.execs Demo.two_spawns in
  session_queued_count s (lit "p") ≠ 0 ∧ session_running_count s (lit "p") = 1.
Proof.
  assert (Hq : session_queued_count (Demo.execs Demo.two_spawns) (lit "p") ≠ 0) by (by vm_compute).
  split; [exact Hq|].
  destruct (capacity_invariant Demo.config Demo.clock0 (Demo.execs Demo.two_spawns) (lit "p")
              (Demo.execs_reachable _)) as (_ & _ & Heq).
  exact (Heq Hq).
Defined.

Lemma registry_well_formed_witness : let s := Demo.execs Demo.two_spawns in
  length (queued s) = 1 ∧ runs s ≡ₚ (map_to_list (pending s)).*1 ++ (map_to_list (active s)).*1.
Proof.
  split; [by vm_compute|].
  apply (registry_well_formed Demo.config Demo.clock0 (Demo.execs Demo.two_spawns) (Demo.execs_reachable _)).
Defined.

Lemma exit_leaves_nothing_witness :
  let s := Demo.end_of "b" (Demo.end_of "a" (Demo.execs Demo.two_spawns)) in
  omap received (log s) = [1%N; 2%N] ∧ omap received (log s) ≡ₚ omap answered (log s).
Proof.
  set (s := Demo.end_of "b" (Demo.end_of "a" (Demo.execs Demo.two_spawns))).
  assert (Hr : rtc (cstep Demo.config) (new_coordinator Demo.clock0) s).
  { eapply rtc_r; [eapply rtc_r; [apply Demo.execs_reachable|]|]; apply Demo.end_of_step; by vm_compute. }
  assert (He : exit_condition s) by (unfold exit_condition; split_and!; by vm_compute).
  split; [by vm_compute|].
  destruct (exit_leaves_nothing Demo.config Demo.clock0 s Hr He) as (_ & _ & _ & _ & _ & Hl & _). exact Hl.
Defined.

Lemma stopped_session_starts_nothing_witness :
  let s := Demo.execs [Demo.stop] in
  lit "p" ∈ spawn_blocked_sessions s
  ∧ ∃ es, log (Demo.exec s (Demo.spawn_of "c" "p" 3 3)) = log s ++ es
      ∧ ∀ r spawn_parent queued_for n, RunStarted r spawn_parent queued_for n ∈ es →
        counts_for (lit "p") r = false.
Proof.
  assert (Hb : lit "p" ∈ spawn_blocked_sessions (Demo.execs [Demo.stop])).
  { apply (bool_decide_eq_true (lit "p" ∈ spawn_blocked_sessions (Demo.execs [Demo.stop]))). by vm_compute. }
  split; [exact Hb|].
  destruct (stopped_session_starts_nothing Demo.config Demo.clock0 _ _ (lit "p")
              (Demo.execs_reachable [Demo.stop]) (Demo.exec_step _ (Demo.spawn_of "c" "p" 3 3)) Hb) as [He _]. exact He.
Defined.
