(* ===== verification/CoordFifo.v ===== *)
(** The order in which queued spawns start: when a child ends, the sweep starts the oldest
    queued spawn of its session that was not cancelled, and nothing else. *)
From Stdlib Require Import String Ascii.
From stdpp Require Import gmap relations.
From S2P Require Import Prelude RustStr Json HashIter CoordTypes Coordinator CoordView CoordInv CoordSweep CoordCalm CoordSafety.

Section Fifo.
Context `{HashOrder, ChildRunner} {Extra : Type}.
Variable config : CoordinatorConfig.
Abbreviation Coord := (@Coordinator _ Extra).
Abbreviation limit := (max_concurrent (admission config)).
Implicit Types (s : Coord) (q : QueuedSpawn Extra) (r : SubagentRequest Extra).

Definition starts s : list Kind := omap start_of (log s).
Definition dead s q : bool := is_cancelled s (cancel_token (q_request q)).
(** The queued spawns that still want a slot, oldest first. *)
Definition waiting s (l : list (QueuedSpawn Extra)) : list (QueuedSpawn Extra) :=
  filter (λ q, dead s q = false) l.
Definition cancelled_ones s (l : list (QueuedSpawn Extra)) : list (QueuedSpawn Extra) :=
  filter (λ q, dead s q = true) l.

Lemma starts_emit es s : omap start_of es = [] → starts (emit es s) = starts s.
Proof. intros He. unfold starts. simpl. by rewrite omap_app, He, app_nil_r. Qed.

Lemma starts_foldl {A} (f : Coord → A → Coord) l s : (∀ s x, starts (f s x) = starts s) →
  starts (foldl f s l) = starts s.
Proof.
  intros Hf. revert s. induction l as [|x l IH]; intros s; simpl; [done|]. by rewrite IH, Hf.
Qed.

Lemma starts_finish id c st out s : starts (finish_record config id c st out s) = starts s.
Proof.
  unfold finish_record. set (s1 := set_waiters _ s). set (s2 := foldl _ s1 _).
  assert (H2 : starts s2 = starts s).
  { unfold s2. rewrite starts_foldl; [done|]. intros; by apply starts_emit. }
  clearbody s2.
  destruct (match spawn_reply c with Some _ => _ | None => _ end) as [[s3 fg] bg] eqn:H3.
  assert (H3' : starts s3 = starts s).
  { destruct (spawn_reply c); injection H3 as <- _ _; [|done]. rewrite <- H2. by apply starts_emit. }
  set (s4 := buffer_completion _ _ _ s3).
  assert (H4 : starts s4 = starts s) by (unfold s4, buffer_completion; by destruct (_ && _ && _)).
  set (s5 := set_completed_order _ _). assert (H5 : starts s5 = starts s) by exact H4.
  set (s6 := emit _ (running_count_changed s5)). assert (H6 : starts s6 = starts s).
  { unfold s6, running_count_changed. by rewrite !starts_emit. }
  destruct (workflow_run_id _); [|exact H6]. unfold resolve_workflow_cancel_waiters.
  destruct (negb (_ =? 0)%nat); [exact H6|]. rewrite starts_foldl; [exact H6|]. intros; by apply starts_emit.
Qed.

(** ** The sweep as a function of the queue *)

Definition is_full s q : Prop := limit ≤ count (parent_session_id (q_request q)) (live s).

(** Entries that are cancelled or whose session is full do not start. *)
Lemma sweep_skip l : ∀ s gone kept, Forall (λ q, dead s q = true ∨ is_full s q) l →
  foldl (sweep_one config) (s, gone, kept) l = (s, gone ++ cancelled_ones s l, kept ++ waiting s l).
Proof.
  induction l as [|q l IH]; intros s gone kept Hl; simpl.
  { unfold cancelled_ones, waiting. by rewrite !app_nil_r. }
  apply Forall_cons in Hl as [Hq Hl]. unfold cancelled_ones, waiting. rewrite !filter_cons.
  fold (cancelled_ones s l) (waiting s l). fold (dead s q). destruct (dead s q); simpl.
  { by rewrite IH, <- app_assoc. }
  destruct Hq as [|Hq]; [done|]. unfold has_capacity. rewrite running_count_live. unfold is_full in Hq.
  destruct (Nat.ltb_spec (count (parent_session_id (q_request q)) (live s)) limit); [lia|].
  by rewrite IH, <- app_assoc.
Qed.

(** The first entry with a slot starts. *)
Lemma sweep_start l q s gone kept : dead s q = false → ¬ is_full s q →
  foldl (sweep_one config) (s, gone, kept) (q :: l)
  = foldl (sweep_one config)
      (start_child config (q_request q) (spawn_parent_session_id q) (into_spawn_reply (caller q))
         (Dequeued (elapsed_since (clock s) (queued_at q)) (caller_deadline (caller q))) s, gone, kept) l.
Proof.
  unfold is_full. intros Hd Hf. simpl. fold (dead s q). rewrite Hd.
  unfold has_capacity. rewrite running_count_live.
  by destruct (Nat.ltb_spec (count (parent_session_id (q_request q)) (live s)) limit); [|lia].
Qed.

(** ** The whole sweep *)

(** While the latch is set, finishing a cancelled entry sweeps nothing, whatever the sweep. *)
Lemma latched_finish sw s q : (∀ s, draining_queued s = true → sw s = s) → draining_queued s = true →
  let s' := finish_cancelled_queued_with config sw s q in
  s' = finish_cancelled_queued_with config (λ s, s) s q
  ∧ draining_queued s' = true ∧ queued s' = queued s ∧ starts s' = starts s.
Proof.
  intros Hsw Hd. unfold finish_cancelled_queued_with, finish_never_started_with, finish_with.
  set (s1 := set_pending _ _).
  destruct (take_record (rq_id (q_request q)) s1) as [[[c st] s2]|] eqn:Ht; [|done].
  assert (H2 : draining_queued s2 = true ∧ queued s2 = queued s ∧ starts s2 = starts s).
  { unfold take_record in Ht. by repeat case_match; simplify_eq. }
  destruct H2 as (Hd2 & Hq2 & Hs2). set (out := mkOutput _ _ _).
  pose proof (core_finish config (rq_id (q_request q)) c st out s2) as Hc.
  injection Hc as Hq Hd' _ _ _ _ _. rewrite Hsw by congruence.
  rewrite starts_finish. split_and!; congruence || done.
Qed.

Lemma latched_finish_list sw l s : (∀ s, draining_queued s = true → sw s = s) → draining_queued s = true →
  let s' := foldl (finish_cancelled_queued_with config sw) s l in
  s' = foldl (finish_cancelled_queued_with config (λ s, s)) s l
  ∧ queued s' = queued s ∧ starts s' = starts s.
Proof.
  intros Hsw. revert s. induction l as [|q l IH]; intros s Hd; simpl; [done|].
  destruct (latched_finish sw s q Hsw Hd) as (Heq & Hd' & Hq & Hst).
  destruct (IH _ Hd') as (Heq' & Hq' & Hst').
  rewrite <- Heq, <- Heq', Hq', Hst', Hq, Hst. done.
Qed.

(** The recursion of the sweep through [finish_child] never goes deeper than one call. *)
Lemma start_queued_depth d s : start_queued config (S d) s = start_queued config 1 s.
Proof.
  cbn [start_queued]. destruct (draining_queued s); [done|].
  set (s0 := set_draining_queued true s).
  assert (Hd : ∀ l s gone kept, draining_queued (foldl (sweep_one config) (s, gone, kept) l).1.1 = draining_queued s).
  { induction l as [|q l IH]; intros s' gone kept; simpl; [done|].
    destruct (is_cancelled _ _); [by rewrite IH|]. destruct (has_capacity _ _); rewrite IH; [|done].
    by apply start_child_frame. }
  specialize (Hd (queued s0) (set_queued [] s0) [] []).
  destruct (foldl _ _ (queued s0)) as [[s1 gone] kept]. simpl in Hd.
  destruct (latched_finish_list (start_queued config d) gone (set_queued kept s1)) as (-> & _ & _);
    [apply start_queued_latched|done|].
  destruct (latched_finish_list (λ s, if draining_queued s then s else s) gone (set_queued kept s1))
    as (-> & _ & _); [intros s2; by destruct (draining_queued s2)|done|done].
Qed.

Lemma start_queued_result d s s1 gone kept : draining_queued s = false →
  foldl (sweep_one config) (set_queued [] (set_draining_queued true s), [], []) (queued s) = (s1, gone, kept) →
  draining_queued s1 = true →
  queued (start_queued config (S d) s) = kept ∧ starts (start_queued config (S d) s) = starts s1.
Proof.
  intros Hd Hf Hd1. cbn [start_queued]. rewrite Hd.
  change (queued (set_draining_queued true s)) with (queued s). rewrite Hf.
  destruct (latched_finish_list (start_queued config d) gone (set_queued kept s1)) as (_ & Hq & Hs);
    [apply start_queued_latched|done|]. done.
Qed.

Lemma first_split {A} (P : A → bool) l :
  Forall (λ x, P x = false) l
  ∨ ∃ l1 x l2, l = l1 ++ x :: l2 ∧ Forall (λ x, P x = false) l1 ∧ P x = true.
Proof.
  induction l as [|y l [IH|(l1 & x & l2 & -> & Hl1 & Hx)]]; [by left|..];
    destruct (P y) eqn:Hy; try (by left; constructor);
    try (by right; eexists [], y, _). right. exists (y :: l1), x, l2. by split_and!; [|constructor|].
Qed.

Lemma waiting_app s l l' : waiting s (l ++ l') = waiting s l ++ waiting s l'.
Proof. apply filter_app. Qed.
Lemma waiting_tokens s s' l : cancelled_tokens s' = cancelled_tokens s → waiting s' l = waiting s l.
Proof.
  intros Ht. unfold waiting, dead, is_cancelled. rewrite Ht. done.
Qed.

(** The request recorded for a running child. *)
Definition child_request s (id : str) : option (SubagentRequest Extra) :=
  match active s !! id with
  | Some a => Some (request (base a))
  | None => request <$> pending s !! id
  end.

Definition sweeps_one_of (P : QueuedSpawn Extra → bool) s s' : Prop :=
  let w := waiting s (queued s) in
  match position P w with
  | Some i => ∃ q, w !! i = Some q ∧ queued s' = take i w ++ drop (S i) w
                   ∧ starts s' = starts s ++ [kind (q_request q)]
  | None => queued s' = w ∧ starts s' = starts s
  end.

Lemma position_first {A} (P : A → bool) l1 x l2 : Forall (λ y, P y = false) l1 → P x = true →
  position P (l1 ++ x :: l2) = Some (length l1).
Proof.
  induction 1 as [|y l1 Hy Hl IH]; intros Hx; simpl; [by rewrite Hx|]. by rewrite Hy, IH.
Qed.

Lemma starts_start r spawn_parent reply origin s :
  starts (start_child config r spawn_parent reply origin s) = starts s ++ [kind r].
Proof.
  unfold start_child, starts. destruct (match origin with Direct => _ | Dequeued _ _ => _ end). simpl.
  by rewrite !omap_app, <- !app_assoc.
Qed.

Lemma queued_not_pending B Lg fl s q : WF config B Lg None fl s → q ∈ queued s →
  pending s !! rq_id (q_request q) = None.
Proof.
  intros Hwf Hq. apply (wf_not_live _ _ _ _ Hwf). intros Hl.
  pose proof (wf_ids _ _ _ _ _ _ Hwf) as HN. apply NoDup_app in HN as (_ & HN & _).
  apply (HN _ Hl), elem_of_app. left. unfold ids, qkinds. rewrite <- list_fmap_compose.
  by apply (list_elem_of_fmap_2 (k_id ∘ qkind)).
Qed.

(** The fold when [q] is the first entry that can start and fills its session. *)
Lemma sweep_first s q l1 l2 : Forall (λ q', dead s q' = true ∨ is_full s q') l1 →
  dead s q = false → S (count (parent_session_id (q_request q)) (live s)) = limit →
  is_workflow (owner (q_request q)) = false →
  pending s !! rq_id (q_request q) = None →
  Forall (λ q', parent_session_id (q_request q') = parent_session_id (q_request q) ∨ is_full s q') l2 →
  ∃ s1, foldl (sweep_one config) (s, [], []) (l1 ++ q :: l2)
        = (s1, cancelled_ones s l1 ++ cancelled_ones s l2, waiting s l1 ++ waiting s l2)
    ∧ draining_queued s1 = draining_queued s ∧ starts s1 = starts s ++ [kind (q_request q)].
Proof.
  intros Hl1 Hq Hslot Hw Hp Hl2. rewrite foldl_app, (sweep_skip l1) by done. rewrite !app_nil_l.
  rewrite sweep_start; [|done|unfold is_full; lia].
  set (origin := Dequeued _ _). set (s1 := start_child _ _ _ _ origin s). exists s1.
  destruct (start_child_frame config (q_request q) (spawn_parent_session_id q) (into_spawn_reply (caller q))
    origin s) as (_ & Hd1 & _ & Ht1). fold s1 in Hd1, Ht1.
  assert (Hdead : ∀ q', dead s1 q' = dead s q') by (intros; unfold dead, is_cancelled; by rewrite Ht1).
  rewrite (sweep_skip l2 s1).
  - unfold waiting, cancelled_ones, dead, is_cancelled. rewrite Ht1. split_and!; [done..|]. apply starts_start.
  - assert (Hl : live s1 ≡ₚ qkind q :: live s) by (by apply live_start).
    eapply Forall_impl; [exact Hl2|]. simpl. intros q' Hq'. right. unfold is_full in *.
    rewrite Hl, count_task_cons. unfold task_of. cbn [qkind kind k_session k_owner]. destruct Hq' as [->|Hq'].
    + rewrite str_eqb_refl, Hw. cbn [andb negb]. lia.
    + destruct (_ && _); lia.
Qed.

(** One slot is free, in the session of the entries with [P]. *)
Lemma sweep_one_slot B Lg d s P : WF config B Lg None [] s → draining_queued s = false →
  (∀ q, q ∈ queued s → P q = false → is_full s q) →
  (∀ q, q ∈ queued s → P q = true → S (count (parent_session_id (q_request q)) (live s)) = limit) →
  (∀ q q', P q = true → P q' = true → parent_session_id (q_request q) = parent_session_id (q_request q')) →
  sweeps_one_of P s (start_queued config (S d) s).
Proof.
  intros Hwf Hd Hfull Hslot Hsame. unfold sweeps_one_of.
  set (s0 := set_queued [] (set_draining_queued true s)).
  destruct (first_split (λ q, negb (dead s q) && P q) (queued s)) as [Hno|(l1 & q & l2 & Hq & Hl1 & Hx)].
  - rewrite Forall_forall in Hno.
    assert (Hp : position P (waiting s (queued s)) = None).
    { apply position_None, Forall_forall. intros q [Ha Hin]%list_elem_of_filter.
      specialize (Hno _ Hin). simpl in Hno. by rewrite Ha in Hno. }
    rewrite Hp. eapply (start_queued_result d s s0); [done| |done].
    fold s0. rewrite (sweep_skip (queued s) s0 [] []); [done|]. apply Forall_forall. intros q Hin.
    specialize (Hno _ Hin). simpl in Hno. change (dead s0 q) with (dead s q).
    destruct (dead s q); [by left|right]. by apply Hfull.
  - apply andb_true_iff in Hx as [Hx%negb_true_iff HPx]. rewrite Forall_forall in Hl1.
    assert (Hw : waiting s (queued s) = waiting s l1 ++ q :: waiting s l2).
    { rewrite Hq, waiting_app. f_equal. unfold waiting. rewrite filter_cons. by rewrite Hx. }
    rewrite Hw, position_first; [|apply Forall_forall; intros q' [Ha Hin']%list_elem_of_filter|done].
    2: { specialize (Hl1 _ Hin'). simpl in Hl1. by rewrite Ha in Hl1. }
    assert (Hin : ∀ q', q' ∈ l1 ++ q :: l2 → q' ∈ queued s) by (intros; by rewrite Hq).
    assert (Hqin : q ∈ queued s) by (apply Hin, elem_of_app; right; by left).
    destruct (sweep_first s0 q l1 l2) as (s1 & Hf & Hd1 & Hs1).
    + apply Forall_forall. intros q' Hq'. specialize (Hl1 _ Hq'). simpl in Hl1.
      change (dead s0 q') with (dead s q'). destruct (dead s q'); [by left|right].
      apply Hfull; [apply Hin, elem_of_app; by left|done].
    + done.
    + by apply Hslot.
    + by apply (wf_queue _ _ _ _ _ _ Hwf (qkind q)), list_elem_of_fmap_2.
    + exact (queued_not_pending B Lg [] s q Hwf Hqin).
    + apply Forall_forall. intros q' Hq'. destruct (P q') eqn:HP'; [left; by apply Hsame|right].
      apply Hfull; [apply Hin, elem_of_app; right; by right|done].
    + rewrite <- Hq in Hf. exists q. destruct (start_queued_result d s s1 _ _ Hd Hf) as [-> ->]; [done|].
      rewrite Hs1, list_lookup_middle, take_app_length by done. split_and!; [done| |done].
      f_equal. replace (S (length (waiting s l1))) with (length (waiting s l1) + 1) by lia.
      by rewrite drop_app_add.
Qed.

(** C11: When a child ends, exactly one queued spawn starts if its session had one waiting: the
    oldest one that was not cancelled.  A child of a workflow frees no slot, other sessions
    start nothing, and the remaining queue keeps its order, less the cancelled entries. *)
Theorem finish_starts_oldest k s id out r :
  rtc (cstep config) (new_coordinator k) s → id ∈ runs s → child_request s id = Some r →
  sweeps_one_of (λ q, counts_for (parent_session_id (q_request q)) r) s
    (finish_child config id out (set_runs (remove_first id (runs s)) s)).
Proof.
  intros Hr Hid Hreq. destruct (steady_reachable _ _ _ Hr) as [[Hwf Hs Hd] _].
  destruct (wf_take _ _ _ _ Hwf Hid) as (c & st & s1 & Ht & <- & Hwf1 & Hq1 & Hd1 & _ & Hl1).
  assert (H1 : request c = r ∧ cancelled_tokens s1 = cancelled_tokens s ∧ log s1 = log s).
  { unfold take_record, child_request in *. simpl in Ht. repeat case_match; by simplify_eq/=. }
  destruct H1 as (<- & Ht1 & Hlog1).
  unfold finish_child, finish_with. rewrite Ht. set (s2 := finish_record _ _ _ _ _ s1).
  pose proof (core_finish config (rq_id (request c)) c st out s1 : core s2 = core s1) as Hc.
  pose proof (core_live _ _ Hc) as Hl2. injection Hc as Hq2 Hd2 _ _ _ Ht2 _.
  assert (Hst : starts s2 = starts s).
  { unfold s2. rewrite starts_finish. unfold starts. by rewrite Hlog1. }
  assert (Hcount : ∀ q, q ∈ queued s2 →
    (if counts_for (parent_session_id (q_request q)) (request c) then 1 else 0)
    + count (parent_session_id (q_request q)) (live s2) = limit).
  { intros q Hin. rewrite Hl2. rewrite Hq2, Hq1 in Hin.
    specialize (Hs (qkind q) (list_elem_of_fmap_2 qkind _ _ Hin)).
    pose proof (wf_cap _ _ _ _ _ _ Hwf (parent_session_id (q_request q))) as Hcap.
    cbn [qkind kind k_session] in Hs. rewrite Hl1, count_task_cons in Hs, Hcap.
    unfold pkind in Hs, Hcap. rewrite task_of_kind in Hs, Hcap. lia. }
  assert (Hsw : sweeps_one_of (λ q, counts_for (parent_session_id (q_request q)) (request c)) s2
                  (start_queued config 2 s2)).
  { eapply sweep_one_slot.
    - by apply wf_finish.
    - congruence.
    - intros q Hin HP. specialize (Hcount q Hin). rewrite HP in Hcount. unfold is_full. lia.
    - intros q Hin HP. specialize (Hcount q Hin). by rewrite HP in Hcount.
    - unfold counts_for. intros q q' HP HP'. bool_to_prop.
      rewrite str_eqb_eq in *. congruence. }
  unfold sweeps_one_of in *. rewrite Hst in Hsw. rewrite Hq2, Hq1, (waiting_tokens s s2) in Hsw by congruence.
  exact Hsw.
Qed.
End Fifo.

Lemma finish_starts_oldest_witness : let s := Demo.execs Demo.two_spawns in
  length (waiting s (queued s)) = 1
  ∧ ∃ r, child_request s (lit "a") = Some r
    ∧ sweeps_one_of (λ q, counts_for (parent_session_id (q_request q)) r) s
        (finish_child Demo.config (lit "a") Demo.ok_output (set_runs (remove_first (lit "a") (runs s)) s)).
Proof.
  split; [by vm_compute|].
  destruct (child_request (Demo.execs Demo.two_spawns) (lit "a")) as [r|] eqn:Hr;
    [|exfalso; vm_compute in Hr; discriminate].
  exists r. split; [done|].
  refine (finish_starts_oldest Demo.config Demo.clock0 (Demo.execs Demo.two_spawns) (lit "a") Demo.ok_output r
    (Demo.execs_reachable _) _ Hr).
  apply (bool_decide_eq_true (lit "a" ∈ runs (Demo.execs Demo.two_spawns))). by vm_compute.
Defined.
