(* ===== verification/HashAnchor.v ===== *)
(** Line anchors of the hashline tools
    (crates/codegen/xai-grok-tools/src/implementations/grok_build_hashline/scheme.rs,
    anchor.rs and config.rs, with src/util/hash.rs): hashes of lines, the three anchor
    schemes, parsing and printing of anchors, and the search for an anchor that moved.

    The trait [AnchorScheme] is the class of that name; [SchemeLaws] is what the edit tool
    relies on, and the three schemes are its instances.  Line numbers are [usize]: [N] where
    they come from outside, [nat] where they index the lines of a file. *)
From Stdlib Require Import String Ascii.
From S2P Require Import Prelude RustStr.
Local Open Scope medley_scope.

(** ** Hashes (util/hash.rs) *)

Definition U32 : N := 2 ^ 32.
Definition FNV_OFFSET : N := 2166136261.
Definition FNV_PRIME : N := 16777619.
(** [h ^= x; h = h.wrapping_mul(FNV_PRIME)] *)
Definition mix (h x : N) : N := (N.lxor h x * FNV_PRIME) mod U32.

Definition fnv1a_32 (data : list N) : N := foldl mix FNV_OFFSET data.

(** One byte of the loop, with [prev_ws]. *)
Definition line_hash_step (acc : N * bool) (byte : N) : N * bool :=
  let '(h, prev_ws) := acc in
  if is_ascii_whitespace byte then
    if negb prev_ws then (mix h 32, true) else (h, prev_ws)
  else (mix h byte, false).
Definition line_hash (line : str) : N :=
  (foldl line_hash_step (FNV_OFFSET, false) (utf8_bytes (trim line))).1.

(** The assertion [len > 0 && len <= 4] holds for the length of every scheme that can be
    built ([with_params]). *)
Definition encode_hash (hash : N) (len : nat) : str :=
  (λ i, (N.shiftr hash (N.of_nat (i * 8)) mod 26 + chr "a")%N) <$> seq 0 len.

Definition DEFAULT_HASH_LEN : nat := 3.

(** ** Anchors (scheme.rs) *)

Record Anchor := mkAnchor { a_line : nat; a_local : str; a_context : option str }.
Record ParsedAnchor := mkParsed { line : N; local : str; context : option str }.

Definition parsed (a : Anchor) : ParsedAnchor :=
  mkParsed (N.of_nat (a_line a)) (a_local a) (a_context a).

Definition COLON : char := chr ":".
Definition parsed_render (p : ParsedAnchor) : str :=
  match context p with
  | Some ctx => decimal (line p) ++ [COLON] ++ local p ++ [COLON] ++ ctx
  | None => decimal (line p) ++ [COLON] ++ local p
  end.
Definition render (a : Anchor) : str := parsed_render (parsed a).

Definition all_lowercase (s : str) : bool := forallb is_ascii_lower s.

Definition parse (s : str) : option ParsedAnchor :=
  '(line_str, rest) ← split_once [COLON] s;
  let '(local, context) :=
    match split_once [COLON] rest with
    | Some (local, ctx) => (local, Some ctx)
    | None => (rest, None)
    end in
  if str_eqb line_str [] || str_eqb local [] then None
  else
    line ← parse_uint U64 line_str;
    if (line =? 0)%Z then None
    else if negb (all_lowercase local) then None
    else
      match context with
      | Some ctx => if str_eqb ctx [] || negb (all_lowercase ctx) then None
                    else Some (mkParsed (Z.to_N line) local context)
      | None => Some (mkParsed (Z.to_N line) local context)
      end.

Inductive ValidationResult := Valid | Stale | OutOfRange.
Inductive ShiftResult :=
| Found (new_line : nat)
| Ambiguous (candidates : list nat)
| NotFound.
Global Instance ValidationResult_eq_dec : EqDecision ValidationResult.
Proof. solve_decision. Defined.

Definition DEFAULT_SEARCH_RADIUS : N := 15.

Class AnchorScheme := {
  name : str;
  hash_len : nat;
  generate_anchors : list str → list Anchor;
  validate : ParsedAnchor → list str → ValidationResult;
  find_shifted : ParsedAnchor → list str → N → ShiftResult
}.

(** [anchor.line.checked_sub(1).unwrap_or(usize::MAX)], as an index of [lines]. *)
Definition index_of (p : ParsedAnchor) (lines : list str) : option nat :=
  let idx := if (line p =? 0)%N then (2 ^ 64 - 1)%N else (line p - 1)%N in
  if (N.of_nat (length lines) <=? idx)%N then None else Some (N.to_nat idx).

Definition local_of (hash_len : nat) (line : str) : str := encode_hash (line_hash line) hash_len.
(** [lines[idx]], for an index in range. *)
Definition line_at (lines : list str) (idx : nat) : str := default [] (lines !! idx).

(** [find_shifted_generic], for the scheme's [hash_len] and [validate]. *)
Definition is_candidate (hash_len : nat) (validate : ParsedAnchor → list str → ValidationResult)
  (anchor : ParsedAnchor) (lines : list str) (idx : nat) : bool :=
  let l := local_of hash_len (line_at lines idx) in
  if negb (str_eqb l (local anchor)) then false
  else
    match context anchor with
    | Some _ => bool_decide (validate (mkParsed (N.of_nat idx + 1) l (context anchor)) lines = Valid)
    | None => true
    end.
Definition search_window (anchor : ParsedAnchor) (lines : list str) (search_radius : N) : list nat :=
  let orig_idx := (line anchor - 1)%N in
  let start := (orig_idx - search_radius)%N in
  let end_ := N.min (orig_idx + search_radius + 1) (N.of_nat (length lines)) in
  List.filter (λ idx, negb (N.of_nat idx =? orig_idx)%N)
    (seq (N.to_nat (N.min start end_)) (N.to_nat (end_ - start))).
Definition find_shifted_generic (hash_len : nat)
  (validate : ParsedAnchor → list str → ValidationResult) (anchor : ParsedAnchor)
  (lines : list str) (search_radius : N) : ShiftResult :=
  let candidates := S <$> List.filter (is_candidate hash_len validate anchor lines)
                            (search_window anchor lines search_radius) in
  match candidates with
  | [] => NotFound
  | [new_line] => Found new_line
  | _ => Ambiguous candidates
  end.

(** *** Candidate A *)

Module ContentOnly.
Section Scheme.
Context (hash_len : nat).

Definition content_generate_anchors (lines : list str) : list Anchor :=
  imap (λ i line, mkAnchor (i + 1) (local_of hash_len line) None) lines.
Definition content_validate (anchor : ParsedAnchor) (lines : list str) : ValidationResult :=
  match index_of anchor lines with
  | None => OutOfRange
  | Some idx => if str_eqb (local anchor) (local_of hash_len (line_at lines idx)) then Valid else Stale
  end.
Definition content_scheme : AnchorScheme := {|
  name := lit "content_only_v1";
  HashAnchor.hash_len := hash_len;
  HashAnchor.generate_anchors := content_generate_anchors;
  HashAnchor.validate := content_validate;
  find_shifted := find_shifted_generic hash_len content_validate
|}.
End Scheme.
(** [ContentOnly::with_hash_len]: [None] is the failed assertion. *)
Definition with_hash_len (hash_len : nat) : option AnchorScheme :=
  if (0 <? hash_len)%nat && (hash_len <=? 4)%nat then Some (content_scheme hash_len) else None.
End ContentOnly.

(** *** Candidate B *)

Definition DEFAULT_CHUNK_SIZE : nat := 16.
(** [lines[a..b]] *)
Definition slice {A} (a b : nat) (l : list A) : list A := take (b - a) (drop a l).
Definition chain_hash (seed : str) (lines : list str) : N :=
  foldl (λ h line, mix h (line_hash line)) (fnv1a_32 seed) lines.

Module ChunkFingerprint.
Section Scheme.
Context (hash_len chunk_size : nat).

Definition chunk_fingerprint (lines : list str) (line_idx : nat) : str :=
  let chunk_start := line_idx / chunk_size * chunk_size in
  let chunk_end := Nat.min (chunk_start + chunk_size) (length lines) in
  encode_hash (chain_hash (lit "chunk") (slice chunk_start chunk_end lines)) hash_len.

(** The fingerprints of all chunks, computed once. *)
Definition chunk_fps (lines : list str) : list str :=
  let num_chunks := (length lines + chunk_size - 1) / chunk_size in
  (λ chunk_idx,
     let start := chunk_idx * chunk_size in
     let end_ := Nat.min (start + chunk_size) (length lines) in
     encode_hash (chain_hash (lit "chunk") (slice start end_ lines)) hash_len) <$> seq 0 num_chunks.
Definition chunk_generate_anchors (lines : list str) : list Anchor :=
  let fps := chunk_fps lines in
  imap (λ i line, mkAnchor (i + 1) (local_of hash_len line)
                    (Some (default [] (fps !! (i / chunk_size))))) lines.

Definition chunk_validate (anchor : ParsedAnchor) (lines : list str) : ValidationResult :=
  match index_of anchor lines with
  | None => OutOfRange
  | Some idx =>
      if negb (str_eqb (local anchor) (local_of hash_len (line_at lines idx))) then Stale
      else
        match context anchor with
        | None => Stale
        | Some expected_ctx =>
            if negb (str_eqb expected_ctx (chunk_fingerprint lines idx)) then Stale else Valid
        end
  end.
Definition chunk_scheme : AnchorScheme := {|
  name := lit "chunk_v1";
  HashAnchor.hash_len := hash_len;
  HashAnchor.generate_anchors := chunk_generate_anchors;
  HashAnchor.validate := chunk_validate;
  find_shifted := find_shifted_generic hash_len chunk_validate
|}.
End Scheme.
(** [ChunkFingerprint::with_params] *)
Definition chunk_with_params (hash_len chunk_size : nat) : option AnchorScheme :=
  if (0 <? hash_len)%nat && (hash_len <=? 4)%nat && (0 <? chunk_size)%nat
  then Some (chunk_scheme hash_len chunk_size) else None.
End ChunkFingerprint.

(** *** Candidate C *)

Definition DEFAULT_CHECKPOINT_INTERVAL : nat := 32.

Module CheckpointChain.
Section Scheme.
Context (hash_len checkpoint_interval : nat).

Definition checkpoint_fingerprint (lines : list str) (line_idx : nat) : str :=
  let checkpoint_start := line_idx / checkpoint_interval * checkpoint_interval in
  encode_hash (chain_hash (lit "ckpt") (slice checkpoint_start (line_idx + 1) lines)) hash_len.

(** The loop, from line [i] on with the chain so far. *)
Fixpoint generate_go (i : nat) (chain : N) (lines : list str) : list Anchor :=
  match lines with
  | [] => []
  | line :: lines' =>
      let chain := if (i mod checkpoint_interval =? 0)%nat then fnv1a_32 (lit "ckpt") else chain in
      let lh := line_hash line in
      let chain := mix chain lh in
      mkAnchor (i + 1) (encode_hash lh hash_len) (Some (encode_hash chain hash_len))
      :: generate_go (S i) chain lines'
  end.
Definition checkpoint_generate_anchors (lines : list str) : list Anchor :=
  generate_go 0 (fnv1a_32 (lit "ckpt")) lines.

Definition checkpoint_validate (anchor : ParsedAnchor) (lines : list str) : ValidationResult :=
  match index_of anchor lines with
  | None => OutOfRange
  | Some idx =>
      if negb (str_eqb (local anchor) (local_of hash_len (line_at lines idx))) then Stale
      else
        match context anchor with
        | None => Stale
        | Some expected_ctx =>
            if negb (str_eqb expected_ctx (checkpoint_fingerprint lines idx)) then Stale else Valid
        end
  end.
Definition checkpoint_scheme : AnchorScheme := {|
  name := lit "checkpoint_v1";
  HashAnchor.hash_len := hash_len;
  HashAnchor.generate_anchors := checkpoint_generate_anchors;
  HashAnchor.validate := checkpoint_validate;
  find_shifted := find_shifted_generic hash_len checkpoint_validate
|}.
End Scheme.
(** [CheckpointChain::with_params] *)
Definition checkpoint_with_params (hash_len checkpoint_interval : nat) : option AnchorScheme :=
  if (0 <? hash_len)%nat && (hash_len <=? 4)%nat && (0 <? checkpoint_interval)%nat
  then Some (checkpoint_scheme hash_len checkpoint_interval) else None.
End CheckpointChain.

(** ** Lines of a file (anchor.rs) *)

Definition split_lines (content : str) : list str :=
  if str_eqb content [] then [[]]
  else RustStr.lines content ++ (if ends_with [NL] content then [[]] else []).

(** ** Configuration (config.rs) *)

Record HashlineSchemeParams := mkParams { sp_scheme : str; sp_hash_len : nat; sp_chunk_size : nat }.
Definition default_params : HashlineSchemeParams := mkParams (lit "chunk") 3 8.

Definition validate_params (p : HashlineSchemeParams) : result unit str :=
  if negb (one_of (sp_scheme p) [lit "chunk"; lit "content_only"]) then
    Err (lit "unknown scheme " ++ [DQUOTE] ++ sp_scheme p ++ [DQUOTE] ++ lit ": expected "
         ++ [DQUOTE] ++ lit "chunk" ++ [DQUOTE] ++ lit " or " ++ [DQUOTE] ++ lit "content_only" ++ [DQUOTE])
  else if (sp_hash_len p =? 0)%nat || (4 <? sp_hash_len p)%nat then
    Err (lit "hash_len must be 1..=4, got " ++ decimal (N.of_nat (sp_hash_len p)))
  else if str_eqb (sp_scheme p) (lit "chunk") && (sp_chunk_size p =? 0)%nat then
    Err (lit "chunk_size must be > 0")
  else Ok tt.
(** [build_scheme]: [None] is a failed assertion of a constructor. *)
Definition build_scheme (p : HashlineSchemeParams) : option (result AnchorScheme str) :=
  match validate_params p with
  | Err e => Some (Err e)
  | Ok _ =>
      Ok <$> (if str_eqb (sp_scheme p) (lit "content_only")
              then ContentOnly.with_hash_len (sp_hash_len p)
              else ChunkFingerprint.chunk_with_params (sp_hash_len p) (sp_chunk_size p))
  end.

Example hash_of_line : local_of 3 (lit "  let x = 1;") = local_of 3 (lit "let  x = 1;").
Proof. reflexivity. Qed.
Example parse_two : parse (lit "22:abc:rst") = Some (mkParsed 22 (lit "abc") (Some (lit "rst"))).
Proof. reflexivity. Qed.
Example parse_one : parse (lit "22:abc") = Some (mkParsed 22 (lit "abc") None).
Proof. reflexivity. Qed.
Example parse_bad : parse (lit "0:abc") = None ∧ parse (lit "22") = None ∧ parse (lit "22:") = None
  ∧ parse (lit "22:aB") = None ∧ parse (lit "22:ab:") = None ∧ parse (lit "22:ab:c:d") = None.
Proof. repeat split; reflexivity. Qed.
Example fnv_empty : fnv1a_32 [] = FNV_OFFSET.
Proof. reflexivity. Qed.
Example moved :
  ContentOnly.content_validate 3 (mkParsed 2 (local_of 3 (lit "b")) None) (split_lines (lit "new" ++ [NL] ++ lit "a" ++ [NL] ++ lit "b")) = Stale
  ∧ find_shifted_generic 3 (ContentOnly.content_validate 3) (mkParsed 2 (local_of 3 (lit "b")) None)
      (split_lines (lit "new" ++ [NL] ++ lit "a" ++ [NL] ++ lit "b")) 5 = Found 3.
Proof. split; vm_compute; reflexivity. Qed.

(** ** What the tools rely on *)

Definition hash_text (s : str) : Prop := s ≠ [] ∧ all_lowercase s = true.

Class SchemeLaws `{AnchorScheme} := {
  anchors_length ls : length (generate_anchors ls) = length ls;
  anchor_line ls i a : generate_anchors ls !! i = Some a → a_line a = i + 1;
  anchor_text ls i a : generate_anchors ls !! i = Some a →
    hash_text (a_local a) ∧ ∀ ctx, a_context a = Some ctx → hash_text ctx;
  anchor_valid ls i a : generate_anchors ls !! i = Some a → validate (parsed a) ls = Valid;
  valid_line p ls : validate p ls = Valid →
    ∃ i l, index_of p ls = Some i ∧ ls !! i = Some l ∧ local p = local_of hash_len l;
  stale_in_range p ls : validate p ls = Stale → is_Some (index_of p ls);
  shifted_is_generic p ls r :
    find_shifted p ls r = find_shifted_generic hash_len validate p ls r
}.

Lemma index_of_nat i l c ls : i < length ls → index_of (mkParsed (N.of_nat (i + 1)) l c) ls = Some i.
Proof.
  intros Hi. unfold index_of. simpl. destruct (N.eqb_spec (N.of_nat (i + 1)) 0); [lia|].
  destruct (N.leb_spec (N.of_nat (length ls)) (N.of_nat (i + 1) - 1)); [lia|]. f_equal. lia.
Qed.

Lemma index_of_lt p ls i : index_of p ls = Some i →
  i < length ls ∧ (line p ≠ 0 → line p = N.of_nat i + 1)%N.
Proof.
  unfold index_of. set (idx := if (line p =? 0)%N then _ else _).
  destruct (N.leb_spec (N.of_nat (length ls)) idx); [done|]. intros [= <-]. split; [lia|].
  intros H0. unfold idx. destruct (N.eqb_spec (line p) 0); [done|]. lia.
Qed.

Lemma encode_hash_text h n : 0 < n → hash_text (encode_hash h n).
Proof.
  intros Hn. unfold encode_hash. split; [destruct n; [lia|done]|].
  unfold all_lowercase. apply forallb_forall. intros c Hc. apply in_map_iff in Hc as (i & <- & _).
  pose proof (N.mod_lt (N.shiftr h (N.of_nat (i * 8))) 26 ltac:(done)) as Hm. revert Hm.
  generalize (N.shiftr h (N.of_nat (i * 8)) mod 26)%N. intros d Hd. unfold is_ascii_lower.
  change (chr "a") with 97%N. apply andb_true_iff. split; apply N.leb_le; lia.
Qed.

(** The shared shape of the three [validate]s: a [check] of the context at the line. *)
Definition validates_with (hash_len : nat) (check : option str → list str → nat → bool)
  (validate : ParsedAnchor → list str → ValidationResult) : Prop :=
  ∀ p ls, validate p ls =
    match index_of p ls with
    | None => OutOfRange
    | Some i => if str_eqb (local p) (local_of hash_len (line_at ls i)) && check (context p) ls i
                then Valid else Stale
    end.

Lemma validates_valid n check v : validates_with n check v → ∀ p ls, v p ls = Valid →
  ∃ i l, index_of p ls = Some i ∧ ls !! i = Some l ∧ local p = local_of n l.
Proof.
  intros Hv p ls. rewrite Hv. destruct (index_of p ls) as [i|] eqn:Hi; [|done].
  assert (Hlt : i < length ls) by (apply index_of_lt in Hi; lia).
  destruct (lookup_lt_is_Some_2 ls i Hlt) as [l Hl]. unfold line_at. rewrite Hl. simpl.
  destruct (str_eqb _ _) eqn:He; [|done]. apply str_eqb_eq in He. intros _. eauto.
Qed.

Lemma validates_stale n check v : validates_with n check v → ∀ p ls, v p ls = Stale → is_Some (index_of p ls).
Proof. intros Hv p ls. rewrite Hv. destruct (index_of p ls); [eauto|done]. Qed.

(** Anchors whose local part and context are those of their line are valid. *)
Lemma validates_anchor n check v ls i l c : validates_with n check v → ls !! i = Some l →
  check c ls i = true → v (parsed (mkAnchor (i + 1) (local_of n l) c)) ls = Valid.
Proof.
  intros Hv Hl Hc. rewrite Hv. unfold parsed. simpl. rewrite index_of_nat by (by eapply lookup_lt_Some).
  unfold line_at. by rewrite Hl, str_eqb_refl, Hc.
Qed.

Section Instances.
Context (n : nat).
Hypothesis (Hn : 0 < n).

Lemma content_only_shape :
  validates_with n (λ _ _ _, true) (ContentOnly.content_validate n).
Proof. intros p ls. unfold ContentOnly.content_validate. destruct (index_of p ls); [|done]. by rewrite andb_true_r. Qed.

Lemma content_only_laws : @SchemeLaws (ContentOnly.content_scheme n).
Proof.
  split; simpl; intros.
  - apply length_imap.
  - apply list_lookup_imap_Some in H as (l & Hl & ->). done.
  - apply list_lookup_imap_Some in H as (l & Hl & ->). split; [by apply encode_hash_text|done].
  - apply list_lookup_imap_Some in H as (l & Hl & ->).
    by apply (validates_anchor _ _ _ _ _ _ None content_only_shape).
  - by eapply validates_valid, H; apply content_only_shape.
  - by eapply validates_stale, H; apply content_only_shape.
  - done.
Qed.

Context (size : nat).
Hypothesis (Hsize : 0 < size).

Definition has_context (fp : list str → nat → str) (c : option str) (ls : list str) (i : nat) : bool :=
  match c with Some c => str_eqb c (fp ls i) | None => false end.

Lemma chunk_shape :
  validates_with n (has_context (ChunkFingerprint.chunk_fingerprint n size)) (ChunkFingerprint.chunk_validate n size).
Proof.
  intros p ls. unfold ChunkFingerprint.chunk_validate. destruct (index_of p ls); [|done].
  destruct (str_eqb _ _); [|done]. simpl. destruct (context p); [|done]. simpl. by destruct (str_eqb _ _).
Qed.

(** The table of chunk fingerprints holds what [chunk_fingerprint] computes for a line. *)
Lemma chunk_fps_lookup ls i : i < length ls →
  ChunkFingerprint.chunk_fps n size ls !! (i / size) = Some (ChunkFingerprint.chunk_fingerprint n size ls i).
Proof.
  intros Hi. unfold ChunkFingerprint.chunk_fps, ChunkFingerprint.chunk_fingerprint.
  rewrite list_lookup_fmap, lookup_seq_lt; [done|].
  apply Nat.div_lt_upper_bound; [lia|]. 
  pose proof (Nat.div_mod_eq (length ls + size - 1) size).
  pose proof (Nat.mod_upper_bound (length ls + size - 1) size). nia.
Qed.

Lemma chunk_generate ls i a : ChunkFingerprint.chunk_generate_anchors n size ls !! i = Some a →
  ∃ l, ls !! i = Some l
  ∧ a = mkAnchor (i + 1) (local_of n l) (Some (ChunkFingerprint.chunk_fingerprint n size ls i)).
Proof.
  unfold ChunkFingerprint.chunk_generate_anchors. intros (l & Hl & ->)%list_lookup_imap_Some.
  exists l. split; [done|]. rewrite chunk_fps_lookup by (by eapply lookup_lt_Some). done.
Qed.

Lemma chunk_laws : @SchemeLaws (ChunkFingerprint.chunk_scheme n size).
Proof.
  split; simpl; intros.
  - apply length_imap.
  - by apply chunk_generate in H as (l & _ & ->).
  - apply chunk_generate in H as (l & _ & ->).
    split; [by apply encode_hash_text|]. intros ctx [= <-]. by apply encode_hash_text.
  - apply chunk_generate in H as (l & Hl & ->). apply (validates_anchor _ _ _ _ _ _ _ chunk_shape Hl).
    apply str_eqb_refl.
  - by eapply validates_valid, H; apply chunk_shape.
  - by eapply validates_stale, H; apply chunk_shape.
  - done.
Qed.

Lemma checkpoint_shape :
  validates_with n (has_context (CheckpointChain.checkpoint_fingerprint n size)) (CheckpointChain.checkpoint_validate n size).
Proof.
  intros p ls. unfold CheckpointChain.checkpoint_validate. destruct (index_of p ls); [|done].
  destruct (str_eqb _ _); [|done]. simpl. destruct (context p); [|done]. simpl. by destruct (str_eqb _ _).
Qed.

Lemma slice_snoc {A} a i (l : list A) x : a ≤ i → l !! i = Some x → slice a (i + 1) l = slice a i l ++ [x].
Proof.
  intros Ha Hx. unfold slice. replace (i + 1 - a) with (S (i - a)) by lia.
  apply take_S_r. rewrite lookup_drop. by replace (a + (i - a)) with i by lia.
Qed.

Lemma same_block i : S i mod size ≠ 0 → S i / size = i / size.
Proof.
  intros Hm. pose proof (Nat.div_mod_eq i size). pose proof (Nat.mod_upper_bound i size ltac:(lia)).
  destruct (decide (S (i mod size) = size)) as [He|He].
  - exfalso. apply Hm. replace (S i) with ((i / size + 1) * size) by nia. apply Nat.Div0.mod_mul.
  - symmetry. apply (Nat.div_unique _ _ _ (S (i mod size))); lia.
Qed.

(** The running chain of [generate_anchors] is the one [checkpoint_fingerprint] starts over
    at the last checkpoint. *)
Lemma checkpoint_chain ls i chain : i ≤ length ls →
  (i mod size ≠ 0 → chain = chain_hash (lit "ckpt") (slice (i / size * size) i ls)) →
  ∀ k a, CheckpointChain.generate_go n size i chain (drop i ls) !! k = Some a →
  ∃ l, ls !! (i + k) = Some l
  ∧ a = mkAnchor (i + k + 1) (local_of n l) (Some (CheckpointChain.checkpoint_fingerprint n size ls (i + k))).
Proof.
  intros Hi Hc k a. remember (drop i ls) as rest eqn:Hrest. revert i chain k Hi Hc Hrest.
  induction rest as [|l rest IH]; intros i chain k Hi Hc Hrest; [done|]. cbn [CheckpointChain.generate_go].
  assert (Hl : ls !! i = Some l).
  { rewrite <- (Nat.add_0_r i), <- lookup_drop, <- Hrest. done. }
  set (chain' := if (i mod size =? 0)%nat then _ else chain).
  assert (Hchain : mix chain' (line_hash l) = chain_hash (lit "ckpt") (slice (i / size * size) (i + 1) ls)).
  { pose proof (Nat.div_mod_eq i size) as Hdiv.
    rewrite (slice_snoc _ i ls l) by (done || nia). unfold chain_hash. rewrite foldl_app. simpl. f_equal.
    unfold chain'. destruct (Nat.eqb_spec (i mod size) 0) as [H0|H0]; [|by apply Hc].
    unfold slice. by replace (i - i / size * size) with 0 by nia. }
  rewrite Hchain. destruct k as [|k].
  - intros [= <-]. exists l. by rewrite !Nat.add_0_r.
  - cbn [lookup list_lookup]. intros Ha. replace (i + S k) with (S i + k) by lia.
    apply (IH (S i) _ k) in Ha; [done|apply lookup_lt_Some in Hl; lia| |].
    + intros Hm. rewrite (same_block i Hm). by replace (i + 1) with (S i) by lia.
    + replace (S i) with (i + 1) by lia. rewrite <- drop_drop, <- Hrest. done.
Qed.

Lemma checkpoint_generate ls i a : CheckpointChain.checkpoint_generate_anchors n size ls !! i = Some a →
  ∃ l, ls !! i = Some l
  ∧ a = mkAnchor (i + 1) (local_of n l) (Some (CheckpointChain.checkpoint_fingerprint n size ls i)).
Proof.
  unfold CheckpointChain.checkpoint_generate_anchors. rewrite <- (drop_0 ls) at 1. intros Ha.
  apply (checkpoint_chain ls 0 _) in Ha; [done|lia|]. by rewrite Nat.Div0.mod_0_l.
Qed.

Lemma checkpoint_laws : @SchemeLaws (CheckpointChain.checkpoint_scheme n size).
Proof.
  split; simpl; intros.
  - unfold CheckpointChain.checkpoint_generate_anchors. generalize 0, (fnv1a_32 (lit "ckpt")).
    induction ls as [|l ls IH]; intros i c; simpl; [done|]. by rewrite IH.
  - by apply checkpoint_generate in H as (l & _ & ->).
  - apply checkpoint_generate in H as (l & _ & ->).
    split; [by apply encode_hash_text|]. intros ctx [= <-]. by apply encode_hash_text.
  - apply checkpoint_generate in H as (l & Hl & ->).
    apply (validates_anchor _ _ _ _ _ _ _ checkpoint_shape Hl). apply str_eqb_refl.
  - by eapply validates_valid, H; apply checkpoint_shape.
  - by eapply validates_stale, H; apply checkpoint_shape.
  - done.
Qed.
End Instances.

(** Every scheme the configuration can build is lawful, and the constructors' assertions
    never fail. *)
Lemma build_scheme_laws p : ∃ r, build_scheme p = Some r
  ∧ ∀ scheme, r = Ok scheme → @SchemeLaws scheme.
Proof.
  unfold build_scheme, validate_params.
  destruct (negb (one_of _ _)) eqn:Ho; [by eexists|]. apply negb_false_iff, one_of_In in Ho.
  destruct (_ || _) eqn:Hh; [by eexists|]. apply orb_false_iff in Hh as [H0%Nat.eqb_neq H4%Nat.ltb_ge].
  destruct (_ && _) eqn:Hc; [by eexists|]. unfold ContentOnly.with_hash_len, ChunkFingerprint.chunk_with_params.
  rewrite (proj2 (Nat.ltb_lt 0 _)), (proj2 (Nat.leb_le _ 4)) by lia. cbn [andb].
  destruct (str_eqb (sp_scheme p) (lit "content_only")) eqn:Hs; simpl.
  - eexists. split; [done|]. intros ? [= <-]. apply content_only_laws. lia.
  - apply str_eqb_neq in Hs. assert (Hk : sp_scheme p = lit "chunk").
    { apply elem_of_cons in Ho as [?|Ho]; [done|]. by apply list_elem_of_singleton in Ho. }
    rewrite Hk, str_eqb_refl in Hc. simpl in Hc. apply Nat.eqb_neq in Hc.
    rewrite (proj2 (Nat.ltb_lt 0 _)) by lia. simpl.
    eexists. split; [done|]. intros ? [= <-]. apply chunk_laws; lia.
Qed.

(** ** Printing and parsing *)

Lemma lowercase_no_colon s : all_lowercase s = true → COLON ∉ s.
Proof.
  unfold all_lowercase. rewrite forallb_forall. intros Hs Hin%list_elem_of_In. by apply Hs in Hin.
Qed.

Lemma digits_not c n : is_ascii_digit c = false → c ∉ decimal n.
Proof.
  intros Hc Hin. pose proof (decimal_digits n) as Hd. rewrite Forall_forall in Hd. apply Hd in Hin. congruence.
Qed.

Definition printable (p : ParsedAnchor) : Prop :=
  (0 < line p < 2 ^ 64)%N ∧ hash_text (local p) ∧ ∀ ctx, context p = Some ctx → hash_text ctx.

Lemma parse_render p : printable p → parse (parsed_render p) = Some p.
Proof.
  destruct p as [n l c]. intros ((H0 & Hn) & [Hl Hll] & Hc). simpl in *.
  assert (Hdec : decimal n ≠ []).
  { intros E. assert (parse_uint U64 (decimal n) = Some (Z.of_N n)) as Hp by (apply parse_decimal; unfold U64; lia).
    by rewrite E in Hp. }
  assert (Hnum : parse_uint U64 (decimal n) = Some (Z.of_N n)) by (apply parse_decimal; unfold U64; lia).
  assert (Hcol : COLON ∉ decimal n) by by apply digits_not.
  assert (Hz : (Z.of_N n =? 0)%Z = false) by (apply Z.eqb_neq; lia).
  assert (Hsplit : ∀ s r, COLON ∉ s → split_once [COLON] (s ++ [COLON] ++ r) = Some (s, r))
    by (intros; by apply (split_once_app COLON [])).
  apply str_eqb_neq in Hdec, Hl. unfold parse, parsed_render. cbn [line local context].
  destruct c as [ctx|]; rewrite Hsplit by done; cbn [mbind option_bind].
  - destruct (Hc ctx eq_refl) as [Hx Hxl]. apply str_eqb_neq in Hx.
    rewrite Hsplit by (by apply lowercase_no_colon).
    rewrite Hdec, Hl, Hnum. cbn [orb mbind option_bind]. rewrite Hz, Hll, Hx, Hxl. simpl. by rewrite N2Z.id.
  - rewrite (split_once_None COLON [] l) by (by apply lowercase_no_colon).
    rewrite Hdec, Hl, Hnum. cbn [orb mbind option_bind]. rewrite Hz, Hll. simpl. by rewrite N2Z.id.
Qed.

Section Lawful.
Context `{SchemeLaws}.

Lemma anchor_printable ls i a : (N.of_nat (length ls) < 2 ^ 64)%N → generate_anchors ls !! i = Some a →
  printable (parsed a).
Proof.
  intros Hlen Ha. destruct (anchor_text _ _ _ Ha) as [Hl Hc]. unfold printable, parsed. simpl.
  rewrite (anchor_line _ _ _ Ha). apply lookup_lt_Some in Ha. rewrite anchors_length in Ha.
  split; [lia|done].
Qed.

(** ** Anchors that moved *)

(** Line [idx] (from 0) is where the anchor could have gone. *)
Definition could_be (p : ParsedAnchor) (ls : list str) (r : N) (idx : nat) : Prop :=
  idx < length ls ∧ N.of_nat idx ≠ (line p - 1)%N
  ∧ (line p - 1 - r <= N.of_nat idx <= line p - 1 + r)%N
  ∧ local_of hash_len (line_at ls idx) = local p
  ∧ (context p = None ∨ validate (mkParsed (N.of_nat idx + 1) (local p) (context p)) ls = Valid).

Lemma candidates_spec p ls r idx :
  idx ∈ List.filter (is_candidate hash_len validate p ls) (search_window p ls r) ↔ could_be p ls r idx.
Proof.
  rewrite list_elem_of_In, filter_In. unfold search_window. rewrite filter_In, in_seq, negb_true_iff, N.eqb_neq.
  unfold is_candidate, could_be. destruct (str_eqb _ (local p)) eqn:He; simpl.
  - apply str_eqb_eq in He. rewrite He. destruct (context p) as [c|].
    + rewrite bool_decide_eq_true. naive_solver lia.
    + naive_solver lia.
  - apply str_eqb_neq in He. naive_solver.
Qed.

Lemma candidates_nodup p ls r :
  NoDup (List.filter (is_candidate hash_len validate p ls) (search_window p ls r)).
Proof.
  apply NoDup_ListNoDup. apply List.NoDup_filter, List.NoDup_filter, List.seq_NoDup.
Qed.
End Lawful.
