(* ===== verification/HashEdit.v ===== *)
(** Edits by anchor
    (crates/codegen/xai-grok-tools/src/implementations/grok_build_hashline/edit/apply.rs,
    edit/types.rs and edit/range_policy.rs, with [format_hashline_content] of read_file.rs):
    a batch of edits is resolved against the file as it is, checked for overlaps and
    spliced in from the bottom up, and the answer shows fresh anchors.

    A computation that may panic (an index, a slice or an unsigned subtraction out of
    range) is an [option]; [None] is the panic. *)
From Stdlib Require Import String Ascii.
From S2P Require Import Prelude RustStr HashAnchor.
Local Open Scope medley_scope.

(** ** Types *)

Inductive HashlineOp :=
| Replace (anchor : str) (end_anchor : option str) (content : str)
| InsertAfter (anchor content : str)
| Write (content : str).

Inductive HashlineEditErrorKind :=
| AnchorStale | AmbiguousAnchor | AnchorNotFound | FileNotFound | OverlappingEdits | InvalidInput | IoError.

Record HashlineEditError := mkEditError {
  error : HashlineEditErrorKind;
  message : str;
  requested_anchor : option str;
  current : option str;
  err_context : option str;
  context_start_line : option nat;
  shifted_to : option nat;
  shifted_anchor : option str;
  ambiguous_candidates : list nat
}.
(** An error with nothing but a message and an anchor. *)
Definition plain_error (k : HashlineEditErrorKind) (msg : str) (anchor : option str) : HashlineEditError :=
  mkEditError k msg anchor None None None None None [].
Definition set_message (msg : str) (e : HashlineEditError) : HashlineEditError :=
  mkEditError (error e) msg (requested_anchor e) (current e) (err_context e) (context_start_line e)
    (shifted_to e) (shifted_anchor e) (ambiguous_candidates e).

Record HashlineEditsApplied := mkApplied {
  applied : nat;
  ap_scheme : str;
  snippet_start_line : nat;
  snippet : str;
  ap_path : str;
  warnings : list str
}.
Inductive HashlineEditOutput :=
| EditsApplied (a : HashlineEditsApplied)
| EditError (e : HashlineEditError).

(** [format!] of a [usize]. *)
Definition num (n : nat) : str := decimal (N.of_nat n).
Definition quoted (s : str) : str := [DQUOTE] ++ s ++ [DQUOTE].
Definition ARROW : char := 8594%N.

(** ** Range sizes (range_policy.rs) *)

Definition SMALL_MAX : nat := 5.
Definition MEDIUM_MAX : nat := 20.
Inductive RangeSize := Small | Medium | Large.
Definition classify (line_count : nat) : RangeSize :=
  if (line_count <=? SMALL_MAX)%nat then Small
  else if (line_count <=? MEDIUM_MAX)%nat then Medium else Large.
Definition range_warning (start end_ : nat) : option str :=
  let count := end_ - start in
  match classify count with
  | Large =>
      Some (lit "Caution: large range edit (" ++ num count ++ lit " lines, lines " ++ num (start + 1)
            ++ lit "-" ++ num end_ ++ lit "). Verify the target range is correct.")
  | Medium =>
      Some (lit "Note: medium range edit (" ++ num count ++ lit " lines, lines " ++ num (start + 1)
            ++ lit "-" ++ num end_ ++ lit ").")
  | Small => None
  end.

(** ** Anchors in text *)

Definition anchor_suffix (a : Anchor) : str :=
  match a_context a with
  | Some ctx => a_local a ++ [COLON] ++ ctx
  | None => a_local a
  end.
Definition render_anchored_line (a : Anchor) (content : str) : str :=
  num (a_line a) ++ [COLON] ++ anchor_suffix a ++ [ARROW] ++ content.

(** One line of the scan, for one of the two arrows. *)
Definition anchor_before (arrow s : str) : bool :=
  match split_once arrow s with
  | Some (before, _) =>
      (utf8_len before <=? 25)%nat && contains_char COLON before && negb (contains_char 32 before)
  | None => false
  end.
Definition has_anchor_prefix (line : str) : bool :=
  let s := trim_start line in
  anchor_before [ARROW] s || anchor_before (lit "->") s.
Definition detect_anchor_prefix_in_content (content : str) : option nat :=
  S <$> position has_anchor_prefix (RustStr.lines content).

Definition anchor_content_error (op_label content : str) (line_num : nat) : option HashlineEditError :=
  let ls := RustStr.lines content in
  let offending_line := line_at ls (line_num - 1) in
  let ctx_start := line_num - 1 - 1 in
  let ctx_end := Nat.min (line_num + 1) (length ls) in
  shown ← mapM (λ i, l ← ls !! i;
                     let marker := if (i + 1 =? line_num)%nat then lit ">>>" else lit "   " in
                     Some (marker ++ lit " line " ++ num (i + 1) ++ lit ": " ++ l))
            (seq ctx_start (ctx_end - ctx_start));
  Some (mkEditError InvalidInput
    (op_label ++ lit " content contains anchor prefixes (e.g. " ++ quoted (lit "22:abc:rst" ++ [ARROW])
     ++ lit ") copied from hashline_read output. The first offending line is line " ++ num line_num
     ++ lit ". Strip the anchor prefixes and the " ++ [ARROW]
     ++ lit " separator from every line, keeping only the actual file content, then retry.")
    None (Some offending_line) (Some (join [NL] shown)) (Some (ctx_start + 1)) None None []).

Section Scheme.
Context `{AnchorScheme}.

Definition anchor_format_hint : str * str :=
  let len := Nat.min (Nat.max (hash_len) 1) 4 in
  let hash := take len (lit "abcd") in
  let has_context := match head (generate_anchors [lit "x"]) with
                     | Some a => bool_decide (is_Some (a_context a)) | None => false end in
  if has_context then (lit "LINE:HASH1:HASH2", lit "22:" ++ hash ++ [COLON] ++ take len (lit "rstu"))
  else (lit "LINE:HASH", lit "22:" ++ hash).

(** [format_hashline_content], the annotated text. *)
Definition format_hashline_content (file_content : str) (offset limit : option nat) : option str :=
  let all_lines := split_lines file_content in
  let anchors := generate_anchors all_lines in
  let skip := default 1 offset - 1 in
  let shown := drop skip (imap pair all_lines) in
  let shown := match limit with Some n => take n shown | None => shown end in
  ls ← mapM (λ '(i, line), a ← anchors !! i;
                           Some (num (i + 1) ++ [COLON] ++ anchor_suffix a ++ [ARROW] ++ line)) shown;
  Some (join [NL] ls).

(** ** Resolving an anchor *)

Definition suffix_matches (suffix : str) (a : Anchor) : bool :=
  match a_context a, split_once [COLON] suffix with
  | Some ctx, Some (local, sfx_ctx) => str_eqb (a_local a) local && str_eqb ctx sfx_ctx
  | None, None => str_eqb (a_local a) suffix
  | _, _ => false
  end.
Definition recover_anchor_by_suffix (suffix : str) (lines : list str) : option ParsedAnchor :=
  match List.filter (suffix_matches suffix) (generate_anchors lines) with
  | [a] => Some (parsed a)
  | _ => None
  end.

(** The text before a copied arrow. *)
Definition strip_arrow (anchor_str : str) : str :=
  match split_once [ARROW] anchor_str with
  | Some (pre, _) => pre
  | None => match split_once (lit "->") anchor_str with Some (pre, _) => pre | None => anchor_str end
  end.

(** [{:?}] of a vector of numbers. *)
Definition debug_list (l : list nat) : str := lit "[" ++ join (lit ", ") (num <$> l) ++ lit "]".

(** The error for a line that changed. *)
Definition stale_error (anchor_str : str) (p : ParsedAnchor) (lines : list str) : option HashlineEditError :=
  let shift := find_shifted p lines DEFAULT_SEARCH_RADIUS in
  let anchors := generate_anchors lines in
  let recovery_ctx := 5 in
  let line := N.to_nat (line p) in
  let ctx_start := line - 1 - recovery_ctx in
  let ctx_end := Nat.min (line + recovery_ctx) (length lines) in
  let render_at i := a ← anchors !! i; l ← lines !! i; Some (render_anchored_line a l) in
  shown ← mapM render_at (seq ctx_start (ctx_end - ctx_start));
  let idx := line - 1 in
  current ← (if (idx <? length lines)%nat then Some <$> render_at idx else Some None);
  '(shifted_to, shifted_anchor, candidates, kind, msg) ←
    (let stale_at := lit "Anchor stale at line " ++ num line ++ lit ". " in
     match shift with
     | Found new_line =>
         a ← anchors !! (new_line - 1);
         let fresh := num new_line ++ [COLON] ++ anchor_suffix a in
         Some (Some new_line, Some fresh, [], AnchorStale,
               stale_at ++ lit "Content appears to have shifted to line " ++ num new_line
               ++ lit ". Retry with anchor " ++ quoted fresh ++ lit ".")
     | Ambiguous candidates =>
         Some (None, None, candidates, AmbiguousAnchor,
               stale_at ++ lit "Multiple candidates at lines " ++ debug_list candidates
               ++ lit ". Use the fresh anchors from the context below to retry your edit.")
     | NotFound =>
         Some (None, None, [], AnchorStale,
               stale_at ++ lit "Use the fresh anchors from the context below to retry your edit.")
     end);
  Some (mkEditError kind msg (Some anchor_str) current (Some (join [NL] shown)) (Some (ctx_start + 1))
          shifted_to shifted_anchor candidates).

Definition validate_anchor (anchor_str : str) (lines : list str)
  : option (result nat HashlineEditError) :=
  let anchor_str := strip_arrow anchor_str in
  let found := match parse anchor_str with
               | Some p => Some p
               | None => recover_anchor_by_suffix anchor_str lines
               end in
  match found with
  | None =>
      let '(fmt, ex) := anchor_format_hint in
      Some (Err (plain_error InvalidInput
        (lit "Malformed anchor: " ++ quoted anchor_str ++ lit ". Expected format: " ++ quoted fmt
         ++ lit " (e.g. " ++ quoted ex ++ lit ").") (Some anchor_str)))
  | Some p =>
      match validate p lines with
      | Valid => Some (Ok (N.to_nat (line p) - 1))
      | OutOfRange =>
          Some (Err (plain_error AnchorNotFound
            (lit "Line " ++ decimal (line p) ++ lit " is out of range (file has " ++ num (length lines)
             ++ lit " lines).") (Some anchor_str)))
      | Stale => Err <$> stale_error anchor_str p lines
      end
  end.

(** ** Resolving an operation *)

(** Lines from [start] to [end_] exclusive, from 0; an insertion has [start = end_]. *)
Record ResolvedOp := mkResolved {
  original_idx : nat;
  start : nat;
  end_ : nat;
  new_lines : list str
}.

(** The panic and the [?] together. *)
Definition try_bind {T U} (r : option (result T HashlineEditError))
  (k : T → option (result U HashlineEditError)) : option (result U HashlineEditError) :=
  match r with Some (Ok t) => k t | Some (Err e) => Some (Err e) | None => None end.

Definition guard_content (op_label content : str) (r : ResolvedOp) : option (result ResolvedOp HashlineEditError) :=
  match detect_anchor_prefix_in_content content with
  | Some line_num => Err <$> anchor_content_error op_label content line_num
  | None => Some (Ok r)
  end.

Definition resolve_op (op : HashlineOp) (original_idx : nat) (lines : list str)
  : option (result ResolvedOp HashlineEditError) :=
  match op with
  | Replace anchor end_anchor content =>
      try_bind (validate_anchor anchor lines) (λ start,
      try_bind (match end_anchor with
                | Some ea =>
                    try_bind (validate_anchor ea lines) (λ e,
                    if (e <? start)%nat then
                      Some (Err (plain_error InvalidInput
                        (lit "end_anchor line " ++ num (e + 1) ++ lit " is before start anchor line "
                         ++ num (start + 1) ++ lit ".") (Some ea)))
                    else Some (Ok (e + 1)))
                | None => Some (Ok (start + 1))
                end) (λ stop,
      let news := if str_eqb content [] then [] else RustStr.lines content in
      guard_content (lit "replace") content (mkResolved original_idx start stop news)))
  | InsertAfter anchor content =>
      try_bind (if str_eqb anchor (lit "0:") then Some (Ok 0)
                else if str_eqb anchor (lit "EOF") then
                  let len := length lines in
                  Some (Ok (if (1 <? len)%nat && str_eqb (line_at lines (len - 1)) [] then len - 1 else len))
                else try_bind (validate_anchor anchor lines) (λ line, Some (Ok (line + 1)))) (λ insert_at,
      let news := if str_eqb content [] then [[]] else RustStr.lines content in
      guard_content (lit "insert_after") content (mkResolved original_idx insert_at insert_at news))
  | Write _ =>
      Some (Err (plain_error InvalidInput
        (lit "Write op must be the only operation in a batch. Either use write alone (to replace the entire file) or use replace/insert_after ops without write.") None))
  end.

(** ** Overlaps *)

Definition is_insertion (op : ResolvedOp) : bool := (start op =? end_ op)%nat.

Definition describe (idx from to : nat) : str :=
  lit "edit #" ++ num (idx + 1)
  ++ (if (from =? to)%nat then lit " (insertion at line " ++ num (from + 1) ++ lit ")"
      else lit " (lines " ++ num (from + 1) ++ lit "-" ++ num to ++ lit ")").
Definition overlap_error (a b : ResolvedOp) : HashlineEditError :=
  plain_error OverlappingEdits
    (lit "Overlapping edits: " ++ describe (original_idx a) (start a) (end_ a) ++ lit " and "
     ++ describe (original_idx b) (start b) (end_ b) ++ lit ".") None.

(** [ranges.windows(2)]: the first overlap of neighbours. *)
Fixpoint neighbours_overlap (ranges : list ResolvedOp) : option HashlineEditError :=
  match ranges with
  | a :: ((b :: _) as rest) => if (start b <? end_ a)%nat then Some (overlap_error a b) else neighbours_overlap rest
  | _ => None
  end.
Definition insertion_inside (ranges : list ResolvedOp) (op : ResolvedOp) : option HashlineEditError :=
  if negb (is_insertion op) then None
  else (λ r, overlap_error r op)
       <$> List.find (λ r, (start r <=? start op)%nat && (start op <? end_ r)%nat) ranges.
Fixpoint first_some {A B} (f : A → option B) (l : list A) : option B :=
  match l with
  | [] => None
  | x :: l' => match f x with Some y => Some y | None => first_some f l' end
  end.
Definition check_overlaps (ops : list ResolvedOp) : option HashlineEditError :=
  let ranges := sort_by_key start (List.filter (λ op, negb (is_insertion op)) ops) in
  match neighbours_overlap ranges with
  | Some e => Some e
  | None => first_some (insertion_inside ranges) ops
  end.

(** ** Applying *)

(** [sort_by] with [b.start.cmp(&a.start).then(b.original_idx.cmp(&a.original_idx))]. *)
Definition not_above (a b : ResolvedOp) : bool :=
  (start b <? start a)%nat || ((start b =? start a)%nat && (original_idx b <=? original_idx a)%nat).
Fixpoint insert_op (x : ResolvedOp) (l : list ResolvedOp) : list ResolvedOp :=
  match l with
  | [] => [x]
  | y :: l' => if not_above x y then x :: l else y :: insert_op x l'
  end.
Definition sort_bottom_up (l : list ResolvedOp) : list ResolvedOp := foldr insert_op [] l.

(** [lines.splice(a..b, news)] *)
Definition vec_splice (a b : nat) (news lines : list str) : option (list str) :=
  if (a <=? b)%nat && (b <=? length lines)%nat then Some (take a lines ++ news ++ drop b lines) else None.
Definition checked_sub (a b : nat) : option nat := if (b <=? a)%nat then Some (a - b) else None.

Record EditRegionDetail := mkDetail { old_line : nat; d_old_text : str; new_line : nat; d_new_text : str }.

(** [x as usize] of an [isize]. *)
Definition as_usize (x : Z) : nat := Z.to_nat (if (x <? 0)%Z then x + 2 ^ 64 else x)%Z.
(** The regions and details from the top down, with the shift so far. *)
Fixpoint track (lines : list str) (shift : Z) (ops : list ResolvedOp)
  : option (list (nat * nat) * list EditRegionDetail) :=
  match ops with
  | [] => Some ([], [])
  | op :: ops' =>
      let shifted_start := as_usize (Z.of_nat (start op) + shift) in
      replaced ← checked_sub (end_ op) (start op);
      let inserted := length (new_lines op) in
      let shifted_end := shifted_start + inserted in
      old ← (if (start op <? end_ op)%nat
             then if (end_ op <=? length lines)%nat
                  then Some (join [NL] (slice (start op) (end_ op) lines)) else None
             else Some []);
      let d := mkDetail (start op + 1) old (shifted_start + 1) (join [NL] (new_lines op)) in
      '(regions, details) ← track lines (shift + Z.of_nat inserted - Z.of_nat replaced)%Z ops';
      Some ((shifted_start, shifted_end) :: regions, d :: details)
  end.

Definition SNIPPET_CONTEXT : nat := 3.
Definition MAX_CONTIGUOUS_SNIPPET : nat := 80.

(** Merging regions with their context. *)
Definition merge_region (total : nat) (merged : list (nat * nat)) (r : nat * nat) : list (nat * nat) :=
  let ctx_start := r.1 - SNIPPET_CONTEXT in
  let ctx_end := Nat.min (r.2 + SNIPPET_CONTEXT) total in
  match last merged with
  | Some (a, b) =>
      if (ctx_start <=? b)%nat then take (length merged - 1) merged ++ [(a, Nat.max b ctx_end)]
      else merged ++ [(ctx_start, ctx_end)]
  | None => merged ++ [(ctx_start, ctx_end)]
  end.
Definition not_shown (n : nat) : str := lit "... " ++ num n ++ lit " lines not shown ...".
Fixpoint region_parts (new_content : str) (prev_end : option nat) (merged : list (nat * nat))
  : option (list str * nat) :=
  match merged with
  | [] => Some ([], default 0 prev_end)
  | (a, b) :: merged' =>
      let gap := match prev_end with
                 | Some e => [not_shown (a - e)]
                 | None => if (0 <? a)%nat then [not_shown a] else []
                 end in
      size ← checked_sub b a;
      text ← format_hashline_content new_content (Some (a + 1)) (Some size);
      '(parts, e) ← region_parts new_content (Some b) merged';
      Some (gap ++ text :: parts, e)
  end.
Definition build_snippet (new_content : str) (edit_regions : list (nat * nat)) (total_new_lines : nat)
  : option str :=
  match head edit_regions, last edit_regions with
  | Some first_, Some last_ =>
      let global_start := first_.1 - SNIPPET_CONTEXT in
      let global_end := Nat.min (last_.2 + SNIPPET_CONTEXT) total_new_lines in
      size ← checked_sub global_end global_start;
      if (size <=? MAX_CONTIGUOUS_SNIPPET)%nat
      then format_hashline_content new_content (Some (global_start + 1)) (Some size)
      else
        let merged := foldl (merge_region total_new_lines) [] edit_regions in
        '(parts, prev_end) ← region_parts new_content None merged;
        Some (join [NL] (parts ++ (if (prev_end <? total_new_lines)%nat
                                   then [not_shown (total_new_lines - prev_end)] else [])))
  | _, _ => Some []
  end.

Record ApplyResult := mkApplyResult {
  output : HashlineEditOutput;
  new_content : option str;
  edit_details : list EditRegionDetail
}.
Definition failed (e : HashlineEditError) : ApplyResult := mkApplyResult (EditError e) None [].

Definition build_write_result (new_content file_path : str) : option HashlineEditOutput :=
  let total := length (split_lines new_content) in
  let snippet_end := Nat.min (SNIPPET_CONTEXT * 2) total in
  text ← format_hashline_content new_content (Some 1) (Some snippet_end);
  Some (EditsApplied (mkApplied 1 name 1 text file_path [])).

Definition op_name (op : HashlineOp) : str :=
  match op with
  | Replace _ _ _ => lit "replace"
  | InsertAfter _ _ => lit "insert_after"
  | Write _ => lit "write"
  end.
(** What is added to an error of one operation among several. *)
Definition batch_message (idx count : nat) (op : HashlineOp) (msg : str) : str :=
  lit "Edit " ++ num (idx + 1) ++ lit "/" ++ num count ++ lit " (" ++ op_name op ++ lit "): " ++ msg
  ++ [NL; NL] ++ lit "This batch contained " ++ num count
  ++ lit " edits. Because this anchor failed validation, none of the edits were applied. Retry all "
  ++ num count ++ lit " edits with fresh anchors, not just the failed one.".
Fixpoint resolve_all (count idx : nat) (ops : list HashlineOp) (lines : list str)
  : option (result (list ResolvedOp) HashlineEditError) :=
  match ops with
  | [] => Some (Ok [])
  | op :: ops' =>
      match resolve_op op idx lines with
      | None => None
      | Some (Err e) =>
          Some (Err (if (1 <? count)%nat then set_message (batch_message idx count op (message e)) e else e))
      | Some (Ok r) => try_bind (resolve_all count (S idx) ops' lines) (λ rs, Some (Ok (r :: rs)))
      end
  end.

Definition overlap_message (count : nat) (msg : str) : str :=
  msg ++ [NL; NL] ++ lit "This batch contained " ++ num count
  ++ lit " edits. Because of the overlap, none were applied. Fix the overlapping ranges and retry all edits.".

(** The batch, once every operation is resolved and none overlaps another. *)
Definition apply_resolved (ops_count : nat) (resolved : list ResolvedOp) (lines : list str) (file_path : str)
  : option ApplyResult :=
  let warnings := omap (λ op, range_warning (start op) (end_ op)) resolved in
  let resolved := sort_bottom_up resolved in
  '(edit_regions, details) ← track lines 0 (rev resolved);
  result_lines ← foldl (λ ls op, ls ← ls; vec_splice (start op) (end_ op) (new_lines op) ls)
                   (Some lines) resolved;
  let content := join [NL] result_lines in
  let total_new_lines := length (split_lines content) in
  let edit_regions := sort_by_key fst edit_regions in
  text ← build_snippet content edit_regions total_new_lines;
  let start_line := match head edit_regions with Some r => r.1 - SNIPPET_CONTEXT + 1 | None => 1 end in
  Some (mkApplyResult (EditsApplied (mkApplied ops_count name start_line text file_path warnings))
          (Some content) details).

Definition apply_edits (content : str) (ops : list HashlineOp) (file_path : str) : option ApplyResult :=
  let lines := split_lines content in
  match ops with
  | [Write new_content] =>
      match detect_anchor_prefix_in_content new_content with
      | Some line_num => failed <$> anchor_content_error (lit "write") new_content line_num
      | None =>
          out ← build_write_result new_content file_path;
          Some (mkApplyResult out (Some new_content) [])
      end
  | _ =>
      let count := length ops in
      match resolve_all count 0 ops lines with
      | None => None
      | Some (Err e) => Some (failed e)
      | Some (Ok resolved) =>
          match check_overlaps resolved with
          | Some e => Some (failed (if (1 <? count)%nat then set_message (overlap_message count (message e)) e else e))
          | None => apply_resolved count resolved lines file_path
          end
      end
  end.
End Scheme.
