(* ===== verification/HashEditSafety.v ===== *)
(** Correctness of edits by anchor: what an anchor names, what a batch of edits makes of a
    file, and which batches are refused. *)
From Stdlib Require Import String Ascii.
From S2P Require Import Prelude RustStr PatchApply HashAnchor HashEdit.
Local Open Scope medley_scope.

(** ** Lines of a file *)

Lemma finish_lines_length ps : ps ≠ [] →
  length (finish_lines ps) + (if bool_decide (last ps = Some []) then 1 else 0) = length ps.
Proof.
  induction ps as [|p ps IH]; [done|intros _]. destruct ps as [|p' ps]; [by destruct p|].
  change (finish_lines (p :: p' :: ps)) with (strip_cr p :: finish_lines (p' :: ps)).
  rewrite last_cons_cons. specialize (IH ltac:(done)). simpl length in *. lia.
Qed.

Lemma split_on_snoc c s x : split_on c (s ++ [x]) =
  if (x =? c)%N then split_on c s ++ [[]]
  else take (length (split_on c s) - 1) (split_on c s) ++ [default [] (last (split_on c s)) ++ [x]].
Proof.
  induction s as [|y s IH]; simpl; [by destruct (x =? c)%N|]. rewrite IH.
  pose proof (split_on_ne c s) as Hne. destruct (split_on c s) as [|w ws]; [done|].
  destruct (x =? c)%N, (y =? c)%N; simpl; try done.
  - by rewrite Nat.sub_0_r.
  - by destruct ws.
Qed.

Lemma ends_with_newline s : s ≠ [] → ends_with [NL] s = bool_decide (last (split_on NL s) = Some []).
Proof.
  intros Hs. destruct s as [|x s _] using rev_ind; [done|]. rewrite split_on_snoc.
  unfold ends_with, strip_suffix. rewrite rev_app_distr. simpl. rewrite (N.eqb_sym NL x).
  destruct (x =? NL)%N; simpl; rewrite last_snoc; [done|].
  symmetry. apply bool_decide_eq_false. intros [= E]. by destruct (default _ _).
Qed.

(** A file has as many lines as [split] counts. *)
Lemma split_lines_length s : length (split_lines s) = length (split_on NL s).
Proof.
  unfold split_lines. destruct (str_eqb s []) eqn:Hs; [by apply str_eqb_eq in Hs as ->|].
  apply str_eqb_neq in Hs. rewrite length_app, ends_with_newline by done. unfold RustStr.lines.
  pose proof (finish_lines_length _ (split_on_ne NL s)). by destruct (bool_decide _).
Qed.

Lemma finish_lines_clean ps : Forall (λ w, NL ∉ w) ps → Forall (λ w, NL ∉ w) (finish_lines ps).
Proof.
  induction 1 as [|p ps Hp Hps IH]; [constructor|]. destruct ps as [|p' ps].
  { destruct p; repeat constructor. done. }
  change (finish_lines (p :: p' :: ps)) with (strip_cr p :: finish_lines (p' :: ps)).
  constructor; [|done]. unfold strip_cr. destruct (strip_suffix [CR] p) as [q|] eqn:E; [|done].
  apply strip_suffix_Some in E as ->. set_solver.
Qed.

Lemma lines_clean s : Forall (λ w, NL ∉ w) (RustStr.lines s).
Proof. apply finish_lines_clean, split_on_nosep. Qed.

Lemma split_lines_clean s : Forall (λ w, NL ∉ w) (split_lines s).
Proof.
  unfold split_lines. destruct (str_eqb s []); [repeat constructor; set_solver|].
  apply Forall_app. split; [apply lines_clean|]. destruct (ends_with _ _); repeat constructor; set_solver.
Qed.

Lemma split_lines_join ls : Forall (λ w, NL ∉ w) ls → length (split_lines (join [NL] ls)) = Nat.max 1 (length ls).
Proof.
  intros Hc. rewrite split_lines_length. destruct ls as [|l ls]; [done|].
  rewrite split_on_join by done. simpl. lia.
Qed.

(** Without carriage returns the lines are the text. *)
Lemma split_on_without c x s : x ∉ s → Forall (λ w, x ∉ w) (split_on c s).
Proof.
  induction s as [|y s IH]; intros Hx; [repeat constructor; done|]. apply not_elem_of_cons in Hx as [Hne Hx].
  specialize (IH Hx). simpl. destruct (y =? c)%N; [by constructor; [apply not_elem_of_nil|]|].
  destruct (split_on c s) as [|w ws]; [repeat constructor; set_solver|].
  apply Forall_cons in IH as [Hw Hws]. constructor; [set_solver|done].
Qed.
Lemma strip_cr_without l : CR ∉ l → strip_cr l = l.
Proof.
  intros Hl. unfold strip_cr. destruct (strip_suffix [CR] l) as [l'|] eqn:Hs; [|done].
  apply strip_suffix_Some in Hs as ->. set_solver.
Qed.
Lemma finish_lines_snoc qs l : Forall (λ w, CR ∉ w) qs → finish_lines (qs ++ [l]) = qs ++ (if str_eqb l [] then [] else [l]).
Proof.
  induction 1 as [|q qs Hq _ IH]; [by destruct l|]. change ((q :: qs) ++ [l]) with (q :: (qs ++ [l])).
  assert (Hc : ∀ ps, ps ≠ [] → finish_lines (q :: ps) = strip_cr q :: finish_lines ps) by (by intros [|p ps] Hps).
  rewrite Hc by (by destruct qs). by rewrite IH, strip_cr_without.
Qed.
Lemma split_lines_text content : CR ∉ content → join [NL] (split_lines content) = content.
Proof.
  intros Hcr. unfold split_lines. destruct (str_eqb content []) eqn:He; [by apply str_eqb_eq in He as ->|].
  pose proof (join_split_on NL content) as Hj. pose proof (split_on_without NL CR content Hcr) as Hf.
  pose proof (split_on_nosep NL content) as Hn. unfold lines.
  destruct (split_on NL content) as [|l qs _] using rev_ind; [by simpl in Hj; subst|].
  apply Forall_app in Hf as [Hf _]. apply Forall_app in Hn as [_ [Hn _]%Forall_cons]. rewrite finish_lines_snoc, <-app_assoc by done. destruct (str_eqb l []) eqn:Hl.
  - apply str_eqb_eq in Hl as ->. assert (Hends : ends_with [NL] content = true).
    { destruct (decide (qs = [])) as [->|Hq]; [simpl in Hj; by subst|]. rewrite join_snoc, app_nil_r in Hj by done.
      unfold ends_with. apply bool_decide_eq_true. exists (join [NL] qs). by apply strip_suffix_Some. }
    by rewrite Hends.
  - assert (Hends : ends_with [NL] content = false); [|by rewrite Hends, app_nil_r].
    apply not_true_iff_false. unfold ends_with. intros [s' Hs%strip_suffix_Some]%bool_decide_eq_true.
    apply str_eqb_neq in Hl. rewrite join_unlines in Hj. rewrite Hs in Hj.
    apply (f_equal last) in Hj. rewrite !last_app in Hj. destruct l as [|x l]; [done|].
    destruct (last (x :: l)) as [y|] eqn:Hy; [|by apply last_None in Hy]. simpl in Hj. injection Hj as ->.
    apply last_Some in Hy as [l' Hy]. rewrite Hy in Hn. apply Hn. set_solver.
Qed.

(** ** Computations that do not panic *)

Lemma mapM_total {A B} (f : A → option B) l : (∀ x, x ∈ l → is_Some (f x)) → is_Some (mapM f l).
Proof. intros Hf. apply mapM_is_Some. apply Forall_forall. auto. Qed.

(** The computation does not panic, and [P] are its results. *)
Definition computes {T} (r : option (result T HashlineEditError)) (P : T → Prop) : Prop :=
  ∃ o, r = Some o ∧ ∀ t, o = Ok t ↔ P t.

Lemma computes_ok {T} (t : T) : computes (Some (Ok t)) (λ u, u = t).
Proof. eexists. split; [done|]. naive_solver. Qed.

Lemma computes_err {T} e : computes (T := T) (Some (Err e)) (λ _, False).
Proof. eexists. split; [done|]. naive_solver. Qed.

Lemma computes_iff {T} r (P Q : T → Prop) : computes r P → (∀ t, P t ↔ Q t) → computes r Q.
Proof. intros (o & Ho & HP) HQ. exists o. split; [done|]. intros t. by rewrite HP, HQ. Qed.

Lemma computes_bind {T U} r (k : T → option (result U HashlineEditError)) P Q :
  computes r P → (∀ t, P t → computes (k t) (Q t)) →
  computes (try_bind r k) (λ u, ∃ t, P t ∧ Q t u).
Proof.
  intros (o & -> & HP) Hk. destruct o as [t|e]; cbn [try_bind].
  - destruct (Hk t) as (o & -> & HQ); [by apply HP|]. exists o. split; [done|]. intros u. rewrite HQ. split.
    + intros Hu. exists t. split; [by apply HP|done].
    + intros (t' & Ht & Hu). apply HP in Ht as [= ->]. done.
  - eexists. split; [done|]. intros u. split; [done|]. intros (t & Ht & _). by apply HP in Ht.
Qed.

Section Lawful.
Context `{SchemeLaws}.

Lemma anchor_at ls i : i < length ls → is_Some (generate_anchors ls !! i).
Proof. intros Hi. apply lookup_lt_is_Some. by rewrite anchors_length. Qed.

Lemma format_total content o l : is_Some (format_hashline_content content o l).
Proof.
  unfold format_hashline_content. set (ls := split_lines content).
  set (shown := match l with Some n => _ | None => _ end).
  destruct (mapM_total (λ '(i, line), a ← generate_anchors ls !! i;
    Some (num (i + 1) ++ [COLON] ++ anchor_suffix a ++ [ARROW] ++ line)) shown) as [x ->]; [|done].
  intros [i line] Hin. assert (Hi : (i, line) ∈ imap pair ls).
  { rewrite <- (take_drop (default 1 o - 1) (imap pair ls)). apply elem_of_app. right.
    unfold shown in Hin. destruct l as [n|]; [|done].
    rewrite <- (take_drop n (drop _ _)). apply elem_of_app. by left. }
  apply list_elem_of_lookup in Hi as (j & Hj). apply list_lookup_imap_Some in Hj as (l' & Hl' & [= -> ->]).
  apply lookup_lt_Some in Hl'. destruct (anchor_at ls j Hl') as [a ->]. done.
Qed.

Lemma content_error_total label content n : 1 ≤ n → is_Some (anchor_content_error label content n).
Proof.
  intros Hn. unfold anchor_content_error. set (ls := RustStr.lines content).
  set (f := λ i, l ← ls !! i; _). edestruct (mapM_total f (seq (n - 1 - 1) (Nat.min (n + 1) (length ls) - (n - 1 - 1)))) as [x Hx].
  - intros i Hi%elem_of_seq. unfold f. destruct (lookup_lt_is_Some_2 ls i) as [l ->]; [lia|done].
  - rewrite Hx. done.
Qed.

(** ** What an anchor names *)

(** The anchor text [s] names line [i] (from 0): it is an anchor, possibly copied with the
    line behind it or without its line number, that validates there, and the line has the
    hash it states. *)
Definition names (ls : list str) (s : str) (i : nat) : Prop :=
  ∃ p l, (parse (strip_arrow s) = Some p
          ∨ parse (strip_arrow s) = None ∧ recover_anchor_by_suffix (strip_arrow s) ls = Some p)
    ∧ validate p ls = Valid ∧ line p = (N.of_nat i + 1)%N
    ∧ ls !! i = Some l ∧ local p = local_of hash_len l.

Lemma parse_line_pos s p : parse s = Some p → line p ≠ 0%N.
Proof.
  unfold parse. destruct (split_once _ s) as [[n rest]|]; [|done]. simpl.
  destruct (split_once _ rest) as [[l c]|]; simpl; (destruct (_ || _); [done|]);
    (destruct (parse_uint U64 n) as [v|] eqn:Hv; [|done]); simpl;
    (destruct (Z.eqb_spec v 0); [done|]); (destruct (negb _); [done|]);
    apply parse_uint_range in Hv.
  - destruct (_ || _); [done|]. intros [= <-]. simpl. lia.
  - intros [= <-]. simpl. lia.
Qed.

Lemma recover_line_pos s ls p : recover_anchor_by_suffix s ls = Some p → line p ≠ 0%N.
Proof.
  unfold recover_anchor_by_suffix. destruct (List.filter _ _) as [|a [|]] eqn:Hf; [done| |done].
  intros [= <-]. assert (Hin : In a (List.filter (suffix_matches s) (generate_anchors ls))) by (rewrite Hf; by left).
  apply filter_In in Hin as [Hin%list_elem_of_In%list_elem_of_lookup _]. destruct Hin as [i Hi].
  simpl. rewrite (anchor_line _ _ _ Hi). lia.
Qed.

(** The anchor that is found for a text, if any. *)
Definition anchor_of (s : str) (ls : list str) : option ParsedAnchor :=
  match parse (strip_arrow s) with
  | Some p => Some p
  | None => recover_anchor_by_suffix (strip_arrow s) ls
  end.
Lemma anchor_of_pos s ls p : anchor_of s ls = Some p → line p ≠ 0%N.
Proof.
  unfold anchor_of. destruct (parse _) eqn:Hp; [|apply recover_line_pos].
  intros [= <-]. by eapply parse_line_pos.
Qed.

Lemma stale_total s p ls : line p ≠ 0%N → validate p ls = Stale → is_Some (stale_error s p ls).
Proof.
  intros H1 Hs. destruct (stale_in_range _ _ Hs) as [i Hi]. apply index_of_lt in Hi as [Hlt Hl].
  specialize (Hl H1). unfold stale_error.
  set (render_at := λ i, a ← generate_anchors ls !! i; l ← ls !! i; Some (render_anchored_line a l)).
  assert (Hr : ∀ j, j < length ls → is_Some (render_at j)).
  { intros j Hj. unfold render_at. destruct (anchor_at ls j Hj) as [a ->].
    by destruct (lookup_lt_is_Some_2 ls j Hj) as [l ->]. }
  set (ctx := seq _ _). destruct (mapM_total render_at ctx) as [x Hx].
  { intros j Hj%elem_of_seq. apply Hr. lia. }
  rewrite Hx. cbn [mbind option_bind]. set (idx := _ - 1).
  destruct (Nat.ltb_spec idx (length ls)); [|unfold idx in *; lia].
  destruct (Hr idx) as [y Hy]; [done|]. unfold render_at in Hy. rewrite Hy.
  cbn [mbind option_bind fmap option_fmap option_map].
  rewrite shifted_is_generic. unfold find_shifted_generic.
  pose proof (candidates_spec p ls DEFAULT_SEARCH_RADIUS) as Hc.
  destruct (List.filter _ _) as [|c [|c' l]]; simpl; [done| |done].
  destruct (proj1 (Hc c) ltac:(by left)) as [Hcl _]. rewrite Nat.sub_0_r.
  by destruct (anchor_at ls c Hcl) as [a ->].
Qed.

Lemma names_iff ls s i : names ls s i ↔
  ∃ p, anchor_of s ls = Some p ∧ validate p ls = Valid ∧ line p = (N.of_nat i + 1)%N.
Proof.
  unfold names, anchor_of. split.
  - intros (p & l & Hp & Hv & Hl & _). exists p. split; [|done].
    destruct Hp as [->|[-> ?]]; done.
  - intros (p & Hp & Hv & Hl). exists p. destruct (valid_line _ _ Hv) as (j & l & Hj & Hlk & Hloc).
    exists l. apply index_of_lt in Hj as [_ Hj]. assert (j = i) as -> by lia.
    split_and!; try done. destruct (parse _); [left|right]; done.
Qed.

Lemma names_lt ls s i : names ls s i → i < length ls.
Proof. intros (p & l & _ & _ & _ & Hl & _). by eapply lookup_lt_Some. Qed.

Lemma validate_anchor_spec s ls : computes (validate_anchor s ls) (names ls s).
Proof.
  unfold validate_anchor. fold (anchor_of s ls). unfold computes. setoid_rewrite names_iff.
  destruct (anchor_of s ls) as [p|] eqn:Hp.
  - pose proof (anchor_of_pos _ _ _ Hp) as Hpos. destruct (validate p ls) eqn:Hv.
    + eexists. split; [done|]. intros i. destruct (valid_line _ _ Hv) as (j & _ & Hj & _).
      apply index_of_lt in Hj as [_ Hj]. specialize (Hj Hpos). split.
      * intros [= <-]. exists p. split_and!; [done..|lia].
      * intros (? & [= <-] & _ & Hl). f_equal. lia.
    + destruct (stale_total (strip_arrow s) p ls Hpos Hv) as [e ->]. eexists. split; [done|].
      intros i. split; [done|]. intros (? & [= <-] & Hv' & _). congruence.
    + eexists. split; [done|]. intros i. split; [done|]. intros (? & [= <-] & Hv' & _). congruence.
  - destruct anchor_format_hint. eexists. split; [done|]. intros i. split; [done|]. by intros (? & ? & _).
Qed.

(** ** What an operation means *)

Definition replacement_text (content : str) : list str := if str_eqb content [] then [] else RustStr.lines content.
Definition inserted_text (content : str) : list str := if str_eqb content [] then [[]] else RustStr.lines content.
(** The end of the text: before the empty line that a final newline leaves. *)
Definition end_of_text (ls : list str) : nat :=
  if (1 <? length ls)%nat && str_eqb (line_at ls (length ls - 1)) [] then length ls - 1 else length ls.
(** No line of the text looks like an anchor copied from the read tool. *)
Definition clean (content : str) : Prop := detect_anchor_prefix_in_content content = None.

Inductive means (ls : list str) : HashlineOp → nat → nat → list str → Prop :=
| m_line a content i : clean content → names ls a i →
    means ls (Replace a None content) i (i + 1) (replacement_text content)
| m_range a b content i j : clean content → names ls a i → names ls b j → i ≤ j →
    means ls (Replace a (Some b) content) i (j + 1) (replacement_text content)
| m_first content : clean content → means ls (InsertAfter (lit "0:") content) 0 0 (inserted_text content)
| m_last content : clean content →
    means ls (InsertAfter (lit "EOF") content) (end_of_text ls) (end_of_text ls) (inserted_text content)
| m_after a content i : clean content → a ≠ lit "0:" → a ≠ lit "EOF" → names ls a i →
    means ls (InsertAfter a content) (i + 1) (i + 1) (inserted_text content).

Lemma guard_content_spec label content r :
  computes (guard_content label content r) (λ r', clean content ∧ r' = r).
Proof.
  unfold guard_content, clean. destruct (detect_anchor_prefix_in_content content) as [n|] eqn:Hd.
  - destruct (content_error_total label content n) as [e ->].
    { unfold detect_anchor_prefix_in_content in Hd. apply fmap_Some in Hd as (m & _ & ->). lia. }
    eapply computes_iff; [apply computes_err|]. naive_solver.
  - eapply computes_iff; [apply computes_ok|]. naive_solver.
Qed.

Lemma resolve_op_spec ls op idx : computes (resolve_op op idx ls)
  (λ r, original_idx r = idx ∧ means ls op (start r) (end_ r) (new_lines r)).
Proof.
  destruct op as [a eb content|a content|content]; cbn [resolve_op].
  - fold (replacement_text content).
    eapply computes_iff.
    { apply computes_bind; [apply validate_anchor_spec|]. intros i Hi.
      apply (computes_bind _ _ (λ stop, match eb with
                                        | Some b => ∃ j, names ls b j ∧ i ≤ j ∧ stop = j + 1
                                        | None => stop = i + 1
                                        end)).
      - destruct eb as [b|]; [|apply computes_ok]. eapply computes_iff.
        { apply computes_bind; [apply validate_anchor_spec|]. intros j Hj.
          instantiate (1 := λ j stop, i ≤ j ∧ stop = j + 1). simpl. destruct (Nat.ltb_spec j i).
          - eapply computes_iff; [apply computes_err|]. intros. lia.
          - eapply computes_iff; [apply computes_ok|]. naive_solver. }
        done.
      - intros stop Hs. apply guard_content_spec. }
    intros [k s t n]. simpl. split.
    + intros (i & Hi & stop & Hs & Hc & [= -> -> -> ->]). split; [done|].
      destruct eb as [b|]; [destruct Hs as (j & Hj & Hle & ->)|subst stop]; by constructor.
    + intros [-> Hm]. inversion Hm; subst; naive_solver.
  - fold (inserted_text content). fold (end_of_text ls).
    eapply computes_iff.
    { apply (computes_bind _ _ (λ i, a = lit "0:" ∧ i = 0 ∨ a = lit "EOF" ∧ i = end_of_text ls
        ∨ a ≠ lit "0:" ∧ a ≠ lit "EOF" ∧ ∃ j, names ls a j ∧ i = j + 1)).
      - destruct (str_eqb a (lit "0:")) eqn:Hbof; [apply str_eqb_eq in Hbof|apply str_eqb_neq in Hbof].
        { subst a. eapply computes_iff; [apply computes_ok|]. naive_solver. }
        destruct (str_eqb a (lit "EOF")) eqn:Heof; [apply str_eqb_eq in Heof|apply str_eqb_neq in Heof].
        { subst a. eapply computes_iff; [apply computes_ok|]. naive_solver. }
        eapply computes_iff; [apply computes_bind; [apply validate_anchor_spec|intros; apply computes_ok]|].
        naive_solver.
      - intros i _. apply guard_content_spec. }
    intros [k s t n]. simpl. split.
    + intros (i & Hi & Hc & [= -> -> -> ->]). split; [done|].
      destruct Hi as [[-> ->]|[[-> ->]|(? & ? & j & Hj & ->)]]; by constructor.
    + intros [-> Hm]. inversion Hm; subst; naive_solver.
  - eapply computes_iff; [apply computes_err|]. intros r. split; [done|]. intros [_ Hm]. inversion Hm.
Qed.

Lemma means_bounds ls op a b news : means ls op a b news → a ≤ b ≤ length ls.
Proof.
  intros Hm. inversion Hm; subst; repeat match goal with H : names _ _ _ |- _ => apply names_lt in H end;
    try unfold end_of_text; try (destruct (_ && _)); lia.
Qed.

Lemma means_clean ls op a b news : means ls op a b news → Forall (λ w, NL ∉ w) news.
Proof.
  intros Hm. inversion Hm; subst; unfold replacement_text, inserted_text; (destruct (str_eqb _ _);
    [repeat constructor; set_solver|apply lines_clean]).
Qed.

(** The operations of a batch, resolved in order. *)
Definition resolution (ls : list str) (ops : list HashlineOp) (from : nat) (rs : list ResolvedOp) : Prop :=
  Forall2 (λ op r, means ls op (start r) (end_ r) (new_lines r)) ops rs
  ∧ original_idx <$> rs = seq from (length ops).

Lemma resolve_all_spec ls count ops from : computes (resolve_all count from ops ls) (resolution ls ops from).
Proof.
  revert from; induction ops as [|op ops IH]; intros from; simpl.
  - eapply computes_iff; [apply computes_ok|]. intros rs. split.
    + intros ->. by split.
    + intros [Hf _]. by inversion Hf.
  - destruct (resolve_op_spec ls op from) as (o & -> & Ho). destruct o as [r|e].
    + eapply computes_iff; [apply computes_bind; [apply IH|intros; apply computes_ok]|].
      destruct (proj1 (Ho r) eq_refl) as [Hi Hm]. intros rs. split.
      * intros (rs' & [Hf Hs] & ->). split; [by constructor|]. by rewrite fmap_cons, Hi, Hs.
      * intros [Hf Hs]. inversion Hf as [|? r' ? rs' Hr' Hf']; subst. rewrite fmap_cons in Hs.
        injection Hs as Hi' Hs.
        assert (Ok r = Ok r') as [= <-] by (by apply Ho). exists rs'. by split.
    + eapply computes_iff; [apply computes_err|]. intros rs. split; [done|]. intros [Hf Hs].
      inversion Hf as [|? r' ? rs' Hr' Hf']; subst. rewrite fmap_cons in Hs.
        injection Hs as Hi' Hs.
      assert (Err e = Ok r'); [|done]. by apply Ho.
Qed.
End Lawful.

(** ** Overlaps *)

(** Two edits that want the same lines: two replacements that share one, or an insertion
    at or inside a replacement. *)
Definition overlaps (a b : ResolvedOp) : Prop :=
  match is_insertion a, is_insertion b with
  | false, false => start a < end_ b ∧ start b < end_ a
  | true, false => start b ≤ start a < end_ b
  | false, true => start a ≤ start b < end_ a
  | true, true => False
  end.
Definition compatible (rs : list ResolvedOp) : Prop :=
  ∀ a b, a ∈ rs → b ∈ rs → a ≠ b → ¬ overlaps a b.

(** [a] ends before [b] begins. *)
Definition before (a b : ResolvedOp) : Prop := end_ a ≤ start b.

Lemma strongly_sorted_either {A} (R : A → A → Prop) l a b :
  StronglySorted R l → a ∈ l → b ∈ l → a ≠ b → R a b ∨ R b a.
Proof.
  induction 1 as [|x l Hl IH Hx]; intros Ha Hb Hne; [by apply elem_of_nil in Ha|].
  rewrite Forall_forall in Hx. apply elem_of_cons in Ha as [->|Ha], Hb as [->|Hb]; try done.
  - left. by apply Hx.
  - right. by apply Hx.
  - by apply IH.
Qed.

Lemma neighbours_sorted l : Forall (λ a, start a < end_ a) l → StronglySorted (λ a b, start a ≤ start b) l →
  NoDup l → (neighbours_overlap l = None ↔ ∀ a b, a ∈ l → b ∈ l → a ≠ b → ¬ (start a < end_ b ∧ start b < end_ a)).
Proof.
  intros Hp Hs Hnd. transitivity (StronglySorted before l).
  - induction Hs as [|a l Hl IH Ha]; [split; [constructor|done]|].
    apply Forall_cons in Hp as [Hpa Hp]. apply NoDup_cons in Hnd as [_ Hnd]. destruct l as [|b l].
    { split; [repeat constructor|done]. }
    specialize (IH Hp Hnd). cbn [neighbours_overlap].
    destruct (Nat.ltb_spec (start b) (end_ a)) as [Hlt|Hle].
    + split; [done|]. intros [_ Hf]%StronglySorted_inv. apply Forall_cons in Hf as [Hf _].
      unfold before in Hf. lia.
    + cbn [neighbours_overlap] in IH. rewrite IH. split.
      * intros Hb. constructor; [done|]. apply StronglySorted_inv in Hb as [_ Hb]. constructor; [done|].
        apply Forall_cons in Hp as [Hpb _]. eapply Forall_impl; [exact Hb|]. unfold before. simpl. lia.
      * by intros [? _]%StronglySorted_inv.
  - rewrite Forall_forall in Hp. split.
    + intros Hb x y Hx Hy Hne. destruct (strongly_sorted_either _ _ x y Hb Hx Hy Hne) as [?|?];
        unfold before in *; lia.
    + intros Hc. induction Hs as [|a l Hl IH Ha]; [constructor|]. apply NoDup_cons in Hnd as [Hna Hnd].
      constructor; [apply IH; [set_solver|done|set_solver]|]. rewrite Forall_forall in Ha |- *. intros b Hb.
      specialize (Ha b Hb). specialize (Hc a b ltac:(by left) ltac:(by right) ltac:(congruence)).
      pose proof (Hp b ltac:(by right)). unfold before. lia.
Qed.

Lemma first_some_None {A B} (f : A → option B) l : first_some f l = None ↔ ∀ x, x ∈ l → f x = None.
Proof.
  induction l as [|x l IH]; simpl; [split; [set_solver|done]|]. destruct (f x) eqn:Hx.
  - split; [done|]. intros Hf. rewrite <- Hx. apply Hf. by left.
  - rewrite IH. split; [intros Hf y [->|?]%elem_of_cons; auto|]. intros Hf y Hy. apply Hf. by right.
Qed.

Lemma check_overlaps_spec rs : NoDup rs → Forall (λ r, start r ≤ end_ r) rs →
  check_overlaps rs = None ↔ compatible rs.
Proof.
  intros Hnd Hle. unfold check_overlaps.
  set (ranges := sort_by_key start (List.filter (λ op, negb (is_insertion op)) rs)).
  assert (Hin : ∀ r, r ∈ ranges ↔ r ∈ rs ∧ is_insertion r = false).
  { intros r. unfold ranges. rewrite sort_by_key_perm. rewrite elem_of_filterb.
    by rewrite negb_true_iff. }
  assert (Hrange : neighbours_overlap ranges = None ↔ ∀ a b, a ∈ rs → b ∈ rs → is_insertion a = false →
    is_insertion b = false → a ≠ b → ¬ overlaps a b).
  { rewrite neighbours_sorted.
    - setoid_rewrite Hin. unfold overlaps. split.
      + intros Hc a b Ha Hb Hia Hib Hne. rewrite Hia, Hib. by apply Hc.
      + intros Hc a b [Ha Hia] [Hb Hib] Hne. specialize (Hc a b Ha Hb Hia Hib Hne). by rewrite Hia, Hib in Hc.
    - apply Forall_forall. intros r [Hr Hi]%Hin. rewrite Forall_forall in Hle. specialize (Hle r Hr).
      unfold is_insertion in Hi. apply Nat.eqb_neq in Hi. lia.
    - apply sort_by_key_sorted.
    - unfold ranges. rewrite sort_by_key_perm. apply NoDup_ListNoDup, List.NoDup_filter. by apply NoDup_ListNoDup. }
  assert (Hins : first_some (insertion_inside ranges) rs = None ↔ ∀ a b, a ∈ rs → b ∈ rs →
    is_insertion a = true → is_insertion b = false → ¬ overlaps a b).
  { rewrite first_some_None. unfold insertion_inside, overlaps. split.
    - intros Hf a b Ha Hb Hia Hib. specialize (Hf a Ha). rewrite Hia in Hf |- *. rewrite Hib. simpl in Hf.
      apply fmap_None in Hf. intros Hov.
      pose proof (find_none _ _ Hf b (proj1 (list_elem_of_In _ _) (proj2 (Hin b) (conj Hb Hib)))) as Hn.
      simpl in Hn. apply andb_false_iff in Hn as [Hn%Nat.leb_gt|Hn%Nat.ltb_ge]; lia.
    - intros Hc a Ha. destruct (is_insertion a) eqn:Hia; [|done]. simpl. apply fmap_None.
      destruct (List.find _ _) as [b|] eqn:Hf; [|done]. exfalso. apply find_some in Hf as [Hb Hov].
      apply list_elem_of_In, Hin in Hb as [Hb Hib]. apply (Hc a b Ha Hb Hia Hib). rewrite Hia, Hib.
      apply andb_true_iff in Hov as [?%Nat.leb_le ?%Nat.ltb_lt]. lia. }
  transitivity (neighbours_overlap ranges = None ∧ first_some (insertion_inside ranges) rs = None).
  { destruct (neighbours_overlap ranges); naive_solver. }
  rewrite Hrange, Hins. unfold compatible. split.
  - intros [H1 H2] a b Ha Hb Hne. destruct (is_insertion a) eqn:Hia, (is_insertion b) eqn:Hib.
    + unfold overlaps. rewrite Hia, Hib. tauto.
    + by apply H2.
    + intros Hov. apply (H2 b a Hb Ha Hib Hia). unfold overlaps in *. by rewrite Hia, Hib in *.
    + by apply H1.
  - intros Hc. split; [naive_solver|]. intros a b Ha Hb Hia Hib. apply Hc; [done..|]. congruence.
Qed.
