(* ===== verification/HashEditRefine.v ===== *)
(** A batch of edits by anchor as a splice of disjoint blocks, and the claims on edits. *)
From Stdlib Require Import String Ascii.
From stdpp Require Import sorting.
From S2P Require Import Prelude RustStr PatchApply HashAnchor HashEdit HashEditSafety.
Local Open Scope medley_scope.

(** ** The order of the blocks *)

Lemma insert_op_perm x l : insert_op x l ≡ₚ x :: l.
Proof.
  induction l as [|y l IH]; simpl; [done|]. destruct (not_above x y); [done|].
  rewrite IH. apply Permutation_swap.
Qed.
Lemma sort_bottom_up_perm l : sort_bottom_up l ≡ₚ l.
Proof. induction l as [|x l IH]; simpl; [done|]. by rewrite insert_op_perm, IH. Qed.

(** [a] stands above [b], or at the same place and earlier in the batch. *)
Definition ahead (a b : ResolvedOp) : Prop :=
  start a < start b ∨ start a = start b ∧ original_idx a ≤ original_idx b.
Lemma not_above_ahead a b : not_above a b = true ↔ ahead b a.
Proof.
  unfold not_above, ahead. rewrite orb_true_iff, andb_true_iff, Nat.ltb_lt, Nat.eqb_eq, Nat.leb_le. lia.
Qed.

Lemma insert_op_sorted x l :
  StronglySorted (λ a b, ahead b a) l → StronglySorted (λ a b, ahead b a) (insert_op x l).
Proof.
  induction 1 as [|y l Hl IH Hy]; simpl; [repeat constructor|].
  destruct (not_above x y) eqn:Hxy.
  - apply not_above_ahead in Hxy. constructor; [by constructor|]. constructor; [done|].
    eapply Forall_impl; [exact Hy|]. unfold ahead in *. simpl. lia.
  - constructor; [done|]. rewrite insert_op_perm. constructor; [|done].
    apply not_true_iff_false in Hxy. rewrite not_above_ahead in Hxy. unfold ahead in *. lia.
Qed.

Lemma strongly_sorted_rev {A} (R : A → A → Prop) l :
  StronglySorted (λ a b, R b a) l → StronglySorted R (rev l).
Proof.
  induction 1 as [|x l Hl IH Hx]; simpl; [constructor|].
  apply StronglySorted_app_2; [|done|repeat constructor].
  intros a b Ha Hb. apply list_elem_of_singleton in Hb as ->. rewrite Forall_forall in Hx. apply Hx.
  by apply list_elem_of_In, in_rev, list_elem_of_In in Ha.
Qed.

(** The blocks from the top of the file down. *)
Definition top_down (rs : list ResolvedOp) : list ResolvedOp := rev (sort_bottom_up rs).
Lemma top_down_perm rs : top_down rs ≡ₚ rs.
Proof. unfold top_down. rewrite <- Permutation_rev. apply sort_bottom_up_perm. Qed.
Lemma top_down_sorted rs : StronglySorted ahead (top_down rs).
Proof.
  apply strongly_sorted_rev. induction rs as [|x l IH]; simpl; [constructor|]. by apply insert_op_sorted.
Qed.

(** ** Disjoint blocks *)

Definition repl (r : ResolvedOp) : Replacement := (start r, end_ r - start r, new_lines r).

Lemma ahead_before a b : start a ≤ end_ a → start b ≤ end_ b → ahead a b → ¬ overlaps a b → before a b.
Proof.
  unfold ahead, overlaps, before, is_insertion. intros Ha Hb Hab Hov.
  destruct (Nat.eqb_spec (start a) (end_ a)), (Nat.eqb_spec (start b) (end_ b)); lia.
Qed.

Lemma compatible_before rs : NoDup rs → Forall (λ r, start r ≤ end_ r) rs → compatible rs →
  StronglySorted ahead rs → StronglySorted before rs.
Proof.
  intros Hnd Hle Hc Hs. induction Hs as [|a l Hl IH Ha]; [constructor|].
  apply NoDup_cons in Hnd as [Hna Hnd]. apply Forall_cons in Hle as [Hlea Hle].
  constructor; [apply IH; try done; intros x y Hx Hy; apply Hc; by right|].
  rewrite Forall_forall in Ha, Hle |- *. intros b Hb.
  apply ahead_before; auto. apply Hc; [by left|by right|congruence].
Qed.

Lemma before_disjoint from len rs : from ≤ len → Forall (λ r, from ≤ start r ≤ end_ r ∧ end_ r ≤ len) rs →
  StronglySorted before rs → disjoint from (repl <$> rs) len.
Proof.
  intros Hlen Hf Hs. revert from Hlen Hf; induction Hs as [|a l Hl IH Ha]; intros from Hlen Hf; [done|].
  apply Forall_cons in Hf as [Hfa Hf]. rewrite fmap_cons. split; [unfold r_start; simpl; lia|].
  unfold r_start, r_len. simpl. replace (start a + (end_ a - start a)) with (end_ a) by lia. apply IH; [lia|].
  rewrite Forall_forall in Hf, Ha |- *. intros b Hb. specialize (Hf b Hb). specialize (Ha b Hb).
  unfold before in Ha. lia.
Qed.

(** ** Splicing from the bottom up *)

Lemma vec_splice_blocks from rs ls : disjoint from (repl <$> rs) (length ls) → Forall (λ r, start r ≤ end_ r) rs →
  foldl (λ acc op, acc ← acc; vec_splice (start op) (end_ op) (new_lines op) acc) (Some ls) (rev rs)
  = Some (take from ls ++ splice from (repl <$> rs) ls).
Proof.
  intros Hd Hle. revert from Hd; induction Hle as [|r rs Hr Hrs IH]; intros from Hd.
  - simpl. by rewrite take_drop.
  - rewrite fmap_cons in Hd |- *. destruct Hd as [Hfrom Hd]. cbn [rev splice]. rewrite foldl_app, (IH _ Hd). cbn [foldl mbind option_bind].
    pose proof (disjoint_le _ _ _ Hd) as Hlen. unfold r_start, r_len, r_new in *. simpl in *.
    replace (start r + (end_ r - start r)) with (end_ r) in * by lia. unfold vec_splice.
    rewrite (proj2 (Nat.leb_le _ _) Hr), (proj2 (Nat.leb_le _ _)) by (rewrite length_app, length_take; lia).
    cbn [andb]. f_equal.
    rewrite take_app_le by (rewrite length_take; lia). rewrite take_take, Nat.min_l by lia.
    rewrite drop_app_ge by (rewrite length_take; lia).
    replace (end_ r - length (take (end_ r) ls)) with 0 by (rewrite length_take; lia).
    rewrite drop_0, !app_assoc. f_equal. f_equal. rewrite take_take_drop. f_equal. lia.
Qed.

(** ** What is reported of each block *)

(** The detail [d] of block [b]: the lines it took from [old], and where its own lines are
    in [new]. *)
Definition describes (old new : list str) (b : ResolvedOp) (d : EditRegionDetail) : Prop :=
  old_line d = start b + 1 ∧ d_old_text d = join [NL] (slice (start b) (end_ b) old)
  ∧ d_new_text d = join [NL] (new_lines b)
  ∧ 1 ≤ new_line d ∧ slice (new_line d - 1) (new_line d - 1 + length (new_lines b)) new = new_lines b.

(** Regions from line [k] on, each within [total] lines. *)
Definition in_order (k total : nat) (regions : list (nat * nat)) : Prop :=
  StronglySorted (λ x y : nat * nat, x.1 ≤ y.1) regions ∧ Forall (λ r : nat * nat, k ≤ r.1 ≤ r.2 ∧ r.2 ≤ total) regions.

Lemma as_usize_nat n : as_usize (Z.of_nat n) = n.
Proof. unfold as_usize. destruct (Z.ltb_spec (Z.of_nat n) 0); lia. Qed.

Lemma slice_middle {A} (xs ys zs : list A) : slice (length xs) (length xs + length ys) (xs ++ ys ++ zs) = ys.
Proof.
  unfold slice. rewrite drop_app_length. replace (length xs + length ys - length xs) with (length ys) by lia.
  by rewrite take_app_length.
Qed.

Lemma slice_empty {A} i (l : list A) : slice i i l = [].
Proof. unfold slice. by rewrite Nat.sub_diag. Qed.

Lemma track_spec ls rs from shift pre :
  disjoint from (repl <$> rs) (length ls) → Forall (λ r, start r ≤ end_ r) rs →
  (Z.of_nat from + shift = Z.of_nat (length pre))%Z →
  ∃ regions details, track ls shift rs = Some (regions, details)
    ∧ length regions = length rs
    ∧ in_order (length pre) (length (pre ++ splice from (repl <$> rs) ls)) regions
    ∧ Forall2 (describes ls (pre ++ splice from (repl <$> rs) ls)) rs details.
Proof.
  intros Hd Hle. revert from shift pre Hd; induction Hle as [|r rs Hr Hrs IH]; intros from shift pre Hd Hk.
  { exists [], []. repeat constructor. }
  rewrite fmap_cons in Hd |- *. destruct Hd as [Hfrom Hd]. pose proof (disjoint_le _ _ _ Hd) as Hlen.
  cbn [splice]. unfold r_start, r_len, r_new in *. simpl in Hfrom, Hd, Hlen |- *.
  replace (start r + (end_ r - start r)) with (end_ r) in * by lia.
  set (gap := take (start r - from) (drop from ls)).
  assert (Hgap : length gap = start r - from) by (unfold gap; rewrite length_take, length_drop; lia).
  set (rest := splice (end_ r) (repl <$> rs) ls) in *.
  destruct (IH (end_ r) (shift + Z.of_nat (length (new_lines r)) - Z.of_nat (end_ r - start r))%Z
              (pre ++ gap ++ new_lines r)) as (regions & details & Htr & Hn & [Hso Hin] & Hdet); [done|..].
  { rewrite !length_app. lia. }
  replace (Z.of_nat (start r) + shift)%Z with (Z.of_nat (length (pre ++ gap))) by (rewrite length_app; lia).
  rewrite as_usize_nat. unfold checked_sub. rewrite (proj2 (Nat.leb_le _ _) Hr). cbn [mbind option_bind].
  assert (Hold : (if (start r <? end_ r)%nat
             then if (end_ r <=? length ls)%nat then Some (join [NL] (slice (start r) (end_ r) ls)) else None
             else Some []) = Some (join [NL] (slice (start r) (end_ r) ls))).
  { destruct (Nat.ltb_spec (start r) (end_ r)); [by rewrite (proj2 (Nat.leb_le _ _))|].
    replace (end_ r) with (start r) by lia. by rewrite slice_empty. }
  rewrite Hold. cbn [mbind option_bind]. rewrite Htr. cbn [mbind option_bind].
  fold rest in Hin, Hdet.
  replace ((pre ++ gap ++ new_lines r) ++ rest) with (pre ++ gap ++ new_lines r ++ rest) in * by (by rewrite !app_assoc).
  eexists _, _. split; [reflexivity|]. split; [simpl; lia|]. split; [split|].
  - constructor; [done|]. eapply Forall_impl; [exact Hin|]. intros x. rewrite !length_app. simpl. lia.
  - constructor; [rewrite !length_app; simpl; lia|]. eapply Forall_impl; [exact Hin|]. intros x. rewrite !length_app. simpl. lia.
  - constructor; [|done]. split_and!; try done; simpl; [lia|]. rewrite Nat.add_sub.
    replace (pre ++ gap ++ new_lines r ++ rest) with ((pre ++ gap) ++ new_lines r ++ rest) by (by rewrite !app_assoc).
    apply slice_middle.
Qed.

(** ** The snippet *)

Lemma merge_region_ordered total merged r : r.1 ≤ r.2 → r.1 ≤ total →
  Forall (λ m : nat * nat, m.1 ≤ m.2) merged → Forall (λ m : nat * nat, m.1 ≤ m.2) (merge_region total merged r).
Proof.
  intros H1 H2 Hm. unfold merge_region.
  assert (Hnew : r.1 - SNIPPET_CONTEXT ≤ Nat.min (r.2 + SNIPPET_CONTEXT) total) by (unfold SNIPPET_CONTEXT; lia).
  destruct (last merged) as [[a b]|] eqn:Hl; [destruct (_ <=? b)%nat|];
    apply Forall_app; split; try done; try (repeat constructor; done).
  - by apply Forall_take.
  - assert (a ≤ b); [|repeat constructor; simpl; lia].
    rewrite Forall_forall in Hm. apply (Hm (a, b)). by apply last_Some_elem_of in Hl.
Qed.

Section Lawful.
Context `{SchemeLaws}.

Lemma region_parts_total content e merged : Forall (λ m : nat * nat, m.1 ≤ m.2) merged →
  is_Some (region_parts content e merged).
Proof.
  intros Hm. revert e; induction Hm as [|[a b] merged Hab Hm IH]; intros e; simpl; [done|].
  unfold checked_sub. simpl in Hab. rewrite (proj2 (Nat.leb_le _ _) Hab). simpl.
  destruct (format_total content (Some (a + 1)) (Some (b - a))) as [t ->]. simpl.
  by destruct (IH (Some b)) as [[ps e'] ->].
Qed.

Lemma build_snippet_total content total regions k : in_order k total regions → is_Some (build_snippet content regions total).
Proof.
  intros [Hs Hin]. unfold build_snippet. destruct regions as [|r regions]; [done|].
  change (head (r :: regions)) with (Some r).
  destruct (last (r :: regions)) as [z|] eqn:Hz; [|by apply last_None in Hz].
  assert (Hz' : z ∈ r :: regions) by by apply last_Some_elem_of.
  rewrite Forall_forall in Hin. pose proof (Hin r ltac:(by left)) as Hr. pose proof (Hin z Hz') as Hzb.
  assert (Hrz : r.1 ≤ z.1).
  { apply elem_of_cons in Hz' as [->|Hz']; [done|]. apply StronglySorted_inv in Hs as [_ Hs].
    rewrite Forall_forall in Hs. by apply Hs. }
  unfold checked_sub. rewrite (proj2 (Nat.leb_le _ _)) by (unfold SNIPPET_CONTEXT; lia). cbn [mbind option_bind].
  destruct (_ <=? MAX_CONTIGUOUS_SNIPPET)%nat; [apply format_total|].
  assert (Hm : ∀ merged rs, Forall (λ m : nat * nat, m.1 ≤ m.2) merged → (∀ x, x ∈ rs → x ∈ r :: regions) →
    Forall (λ m : nat * nat, m.1 ≤ m.2) (foldl (merge_region total) merged rs)).
  { intros merged rs; revert merged; induction rs as [|x rs IH]; intros merged Hm Hsub; simpl; [done|].
    pose proof (Hin x ltac:(apply Hsub; by left)). apply IH; [apply merge_region_ordered; [lia..|done]|].
    intros y Hy. apply Hsub. by right. }
  by destruct (region_parts_total content None _ (Hm [] (r :: regions) ltac:(constructor) ltac:(done))) as [[ps e] ->].
Qed.

(** ** A batch *)

Lemma splice_forall (P : str → Prop) from reps ls : Forall P ls → Forall (λ r : Replacement, Forall P (r_new r)) reps →
  Forall P (splice from reps ls).
Proof.
  intros Hls Hr. revert from; induction Hr as [|r rs Hr Hrs IH]; intros from; simpl; [by apply Forall_drop|].
  repeat (apply Forall_app; split); auto using Forall_take, Forall_drop.
Qed.

Definition fits (ls : list str) (r : ResolvedOp) : Prop :=
  start r ≤ end_ r ≤ length ls ∧ Forall (λ w, NL ∉ w) (new_lines r).

Lemma resolution_fits ls ops from rs : resolution ls ops from rs → Forall (fits ls) rs ∧ NoDup rs.
Proof.
  intros [Hf Hs]. split.
  - clear Hs. induction Hf as [|op r ops rs Hm Hf IH]; constructor; [|done].
    split; [by eapply means_bounds|by eapply means_clean].
  - apply (NoDup_fmap_1 original_idx). rewrite Hs. apply NoDup_seq.
Qed.

Lemma top_down_disjoint ls rs : Forall (fits ls) rs → NoDup rs → compatible rs →
  disjoint 0 (repl <$> top_down rs) (length ls).
Proof.
  intros Hf Hnd Hc. assert (Hfits : Forall (fits ls) (top_down rs)) by by rewrite top_down_perm.
  apply before_disjoint; [lia| |].
  - eapply Forall_impl; [exact Hfits|]. intros r [? _]. lia.
  - apply compatible_before; [by rewrite top_down_perm| | |apply top_down_sorted].
    + eapply Forall_impl; [exact Hfits|]. intros r [? _]. lia.
    + intros a b. rewrite !top_down_perm. apply Hc.
Qed.

Lemma apply_resolved_spec count ls rs path :
  Forall (λ w, NL ∉ w) ls → Forall (fits ls) rs → NoDup rs → compatible rs →
  let out := splice 0 (repl <$> top_down rs) ls in
  ∃ a details, apply_resolved count rs ls path = Some (mkApplyResult (EditsApplied a) (Some (join [NL] out)) details)
    ∧ Forall2 (describes ls out) (top_down rs) details.
Proof.
  intros Hls Hf Hnd Hc out. pose proof (top_down_disjoint _ _ Hf Hnd Hc) as Hd.
  assert (Hfits : Forall (fits ls) (top_down rs)) by by rewrite top_down_perm.
  assert (Hle : Forall (λ r, start r ≤ end_ r) (top_down rs)).
  { eapply Forall_impl; [exact Hfits|]. intros r [? _]. lia. }
  unfold apply_resolved. fold (top_down rs).
  destruct (track_spec ls (top_down rs) 0 0%Z [] Hd Hle eq_refl) as (regions & details & Htr & _ & [Hso Hin] & Hdet).
  rewrite Htr. cbn [mbind option_bind].
  pose proof (vec_splice_blocks 0 _ _ Hd Hle) as Hsp. unfold top_down in Hsp at 1. rewrite rev_involutive in Hsp.
  rewrite Hsp. cbn [mbind option_bind]. change (take 0 ls ++ _) with out.
  rewrite sort_by_key_id by done.
  destruct (build_snippet_total (join [NL] out) (length (split_lines (join [NL] out))) regions 0) as [text ->].
  - split; [done|]. eapply Forall_impl; [exact Hin|]. intros x. simpl. fold out. rewrite split_lines_join; [lia|].
    apply splice_forall; [done|]. apply Forall_fmap. eapply Forall_impl; [exact Hfits|]. by intros r [_ ?].
  - eexists _, _. split; [reflexivity|exact Hdet].
Qed.

(** What becomes of a batch that is not a lone write. *)
Lemma batch_spec content ops path : (∀ text, ops ≠ [Write text]) →
  let ls := split_lines content in
  (∃ e, apply_edits content ops path = Some (failed e) ∧ ¬ ∃ rs, resolution ls ops 0 rs ∧ compatible rs)
  ∨ ∃ rs a ds, resolution ls ops 0 rs ∧ compatible rs
      ∧ let out := splice 0 (repl <$> top_down rs) ls in
        apply_edits content ops path = Some (mkApplyResult (EditsApplied a) (Some (join [NL] out)) ds)
        ∧ Forall2 (describes ls out) (top_down rs) ds.
Proof.
  intros Hw ls. set (rest := λ o : option (result (list ResolvedOp) HashlineEditError), match o with
      | None => None
      | Some (Err e) => Some (failed e)
      | Some (Ok resolved) =>
          match check_overlaps resolved with
          | Some e => Some (failed (if (1 <? length ops)%nat then set_message (overlap_message (length ops) (message e)) e else e))
          | None => apply_resolved (length ops) resolved ls path
          end
      end).
  assert (Heq : apply_edits content ops path = rest (resolve_all (length ops) 0 ops ls)).
  { destruct ops as [|[| |t] [|]]; try reflexivity. by destruct (Hw t). }
  rewrite Heq. clear Heq. destruct (resolve_all_spec ls (length ops) ops 0) as (o & -> & Ho).
  destruct o as [rs|e]; cbn [rest].
  - pose proof (proj1 (Ho rs) eq_refl) as Hr. destruct (resolution_fits _ _ _ _ Hr) as [Hf Hnd].
    assert (Hco : check_overlaps rs = None ↔ compatible rs).
    { apply check_overlaps_spec; [done|]. eapply Forall_impl; [exact Hf|]. intros r [? _]. lia. }
    destruct (check_overlaps rs) as [e|].
    + left. eexists. split; [done|]. intros (rs' & Hr' & Hc'). apply Ho in Hr' as [= <-]. by apply Hco in Hc'.
    + right. assert (Hc : compatible rs) by by apply Hco.
      destruct (apply_resolved_spec (length ops) ls rs path (split_lines_clean _) Hf Hnd Hc) as (a & ds & Ha & Hd).
      exists rs, a, ds. by split_and!.
  - left. eexists. split; [done|]. intros (rs & Hr & _). by apply Ho in Hr.
Qed.

(** A lone write replaces the whole file, unless its text holds anchors. *)
Lemma write_spec content text path :
  clean text ∧ (∃ a, apply_edits content [Write text] path = Some (mkApplyResult (EditsApplied a) (Some text) []))
  ∨ ¬ clean text ∧ ∃ e, apply_edits content [Write text] path = Some (failed e).
Proof.
  unfold clean. simpl. destruct (detect_anchor_prefix_in_content text) as [n|] eqn:Hd.
  - right. split; [done|]. destruct (content_error_total (lit "write") text n) as [e ->]; [|by eexists].
    unfold detect_anchor_prefix_in_content in Hd. apply fmap_Some in Hd as (m & _ & ->). lia.
  - left. split; [done|]. unfold build_write_result.
    destruct (format_total text (Some 1) (Some (Nat.min (SNIPPET_CONTEXT * 2) (length (split_lines text))))) as [t ->].
    by eexists.
Qed.

(** C37: applying a batch of edits (anything but a lone write) never panics.  It fails
    exactly when some operation has no meaning for the file or two of them overlap, and
    then no content is produced.  Otherwise the new content is the file's lines, joined with
    line feeds, with the disjoint blocks the operations mean exchanged, from the top down and
    in batch order at the same place, and each reported detail gives the block's old lines
    and the place of its lines in the new file.  In a file without carriage returns the lines
    so joined are the file itself, so everything outside the blocks is kept byte for byte;
    of a file with CRLF line endings every line loses its carriage return. *)
Theorem edits_splice_blocks content ops path : (∀ text, ops ≠ [Write text]) →
  let ls := split_lines content in
  (CR ∉ content → join [NL] ls = content)
  ∧ ∃ r, apply_edits content ops path = Some r
  ∧ match new_content r with
    | None => (∃ e, output r = EditError e) ∧ ¬ ∃ rs, resolution ls ops 0 rs ∧ compatible rs
    | Some out => ∃ rs blocks, resolution ls ops 0 rs ∧ compatible rs
        ∧ blocks ≡ₚ rs ∧ StronglySorted ahead blocks ∧ disjoint 0 (repl <$> blocks) (length ls)
        ∧ out = join [NL] (splice 0 (repl <$> blocks) ls)
        ∧ Forall2 (describes ls (splice 0 (repl <$> blocks) ls)) blocks (edit_details r)
        ∧ ∃ a, output r = EditsApplied a
    end.
Proof.
  intros Hw ls. split; [apply split_lines_text|].
  destruct (batch_spec content ops path Hw) as [(e & -> & Hn)|(rs & a & ds & Hr & Hc & -> & Hd)].
  - eexists. split; [done|]. split; [by eexists|done].
  - destruct (resolution_fits _ _ _ _ Hr) as [Hf Hnd]. eexists. split; [done|]. exists rs, (top_down rs).
    split_and!; eauto using top_down_perm, top_down_sorted, top_down_disjoint.
Qed.

(** ** Anchors and back *)

Lemma suffix_no_arrow ls i a : generate_anchors ls !! i = Some a →
  ∀ c, c = ARROW ∨ c = chr "-" → c ∉ num (a_line a) ++ [COLON] ++ anchor_suffix a.
Proof.
  intros Ha c Hc. destruct (anchor_text _ _ _ Ha) as [Hl Hx]. destruct Hl as [_ Hl].
  assert (Hdig : is_ascii_digit c = false) by (by destruct Hc; subst c).
  assert (Hlow : ∀ s, all_lowercase s = true → c ∉ s).
  { intros s Hs Hin. unfold all_lowercase in Hs. rewrite forallb_forall in Hs.
    apply list_elem_of_In, Hs in Hin. by destruct Hc; subst c. }
  assert (Hcol : c ∉ [COLON]) by (destruct Hc; subst c; rewrite list_elem_of_singleton; done).
  rewrite !not_elem_of_app. split_and!; [by apply digits_not|done|].
  unfold anchor_suffix. destruct (a_context a) as [ctx|]; [|auto].
  rewrite !not_elem_of_app. split_and!; [auto|done|]. apply Hlow. by apply (Hx ctx).
Qed.

Lemma strip_arrow_anchor ls i a rest : generate_anchors ls !! i = Some a →
  let s := num (a_line a) ++ [COLON] ++ anchor_suffix a in
  strip_arrow s = s ∧ strip_arrow (s ++ [ARROW] ++ rest) = s.
Proof.
  intros Ha s. pose proof (suffix_no_arrow _ _ _ Ha) as Hn. fold s in Hn. unfold strip_arrow.
  change (lit "->") with [chr "-"; chr ">"]. split.
  - rewrite (split_once_None ARROW []) by (apply Hn; by left).
    by rewrite (split_once_None (chr "-") [chr ">"] s) by (apply Hn; by right).
  - change ([ARROW] ++ rest) with (ARROW :: [] ++ rest).
    by rewrite (split_once_app ARROW [] s rest) by (apply Hn; by left).
Qed.

Lemma render_eq a : render a = num (a_line a) ++ [COLON] ++ anchor_suffix a.
Proof. unfold render, parsed_render, anchor_suffix, num. simpl. by destruct (a_context a). Qed.

Lemma anchor_found ls i a s : (N.of_nat (length ls) < 2 ^ 64)%N → generate_anchors ls !! i = Some a →
  strip_arrow s = render a → validate_anchor s ls = Some (Ok i).
Proof.
  intros Hlen Ha Hs. pose proof (parse_render _ (anchor_printable _ _ _ Hlen Ha)) as Hp. fold (render a) in Hp.
  unfold validate_anchor. rewrite Hs, Hp, (anchor_valid _ _ _ Ha). simpl. rewrite (anchor_line _ _ _ Ha).
  do 2 f_equal. lia.
Qed.

(** the anchor a scheme generates for a line comes back as that line: the text it is
    printed as, alone or with the arrow and any text copied behind it, parses to the anchor
    and validates at its line, so an edit made right after a read finds its place. *)
Theorem anchors_round_trip ls i a text : (N.of_nat (length ls) < 2 ^ 64)%N → generate_anchors ls !! i = Some a →
  parse (render a) = Some (parsed a)
  ∧ validate_anchor (render a) ls = Some (Ok i)
  ∧ validate_anchor (render_anchored_line a text) ls = Some (Ok i).
Proof.
  intros Hlen Ha. pose proof (strip_arrow_anchor _ _ _ text Ha) as [H1 H2].
  split; [exact (parse_render _ (anchor_printable _ _ _ Hlen Ha))|].
  split; eapply anchor_found; try done; rewrite render_eq; [done|].
  unfold render_anchored_line. rewrite <- !app_assoc in H2. exact H2.
Qed.

(** ** The search for a moved line *)

(** The search for a stale anchor reports a single line exactly when one line within
    the radius could be the one meant; it reports an ambiguity when several could, and then
    lists every one of them once; and it reports nothing when none could. *)
Theorem find_shifted_exact p ls r :
  match find_shifted p ls r with
  | Found n => ∃ i, n = i + 1 ∧ ∀ j, could_be p ls r j ↔ j = i
  | Ambiguous cs => 2 ≤ length cs ∧ NoDup cs ∧ ∀ n, n ∈ cs ↔ ∃ i, n = i + 1 ∧ could_be p ls r i
  | NotFound => ∀ j, ¬ could_be p ls r j
  end.
Proof.
  rewrite shifted_is_generic. unfold find_shifted_generic.
  pose proof (candidates_spec p ls r) as Hc. pose proof (candidates_nodup p ls r) as Hnd.
  destruct (List.filter _ _) as [|c [|c' l]]; simpl.
  - intros j Hj. apply Hc in Hj. by apply elem_of_nil in Hj.
  - exists c. split; [lia|]. intros j. by rewrite <- Hc, list_elem_of_singleton.
  - change (S c :: S c' :: list_fmap _ _ S l) with (S <$> (c :: c' :: l)). split; [simpl; lia|]. split.
    + by apply NoDup_fmap_2; [intros ?? [= ?]|].
    + intros n. rewrite list_elem_of_fmap. setoid_rewrite Hc. split; intros (i & -> & ?); exists i; split; auto; lia.
Qed.
End Lawful.

(** ** Witnesses *)

Definition sample_file : str := lit "fn a" ++ [NL] ++ lit "fn b" ++ [NL] ++ lit "fn c".
#[local] Instance sample_scheme : AnchorScheme := ChunkFingerprint.chunk_scheme 3 8.
Definition sample_anchor (i : nat) : str := default [] (render <$> (generate_anchors (split_lines sample_file) !! i)).
Definition sample_ops : list HashlineOp :=
  [InsertAfter (lit "EOF") (lit "fn z"); Replace (sample_anchor 1) None (lit "x" ++ [NL] ++ lit "y")].

Example sample_edit :
  (r ← apply_edits sample_file sample_ops []; new_content r)
  = Some (lit "fn a" ++ [NL] ++ lit "x" ++ [NL] ++ lit "y" ++ [NL] ++ lit "fn c" ++ [NL] ++ lit "fn z").
Proof. vm_compute. reflexivity. Qed.
Example sample_overlap :
  (r ← apply_edits sample_file [Replace (sample_anchor 1) None []; Replace (sample_anchor 0) (Some (sample_anchor 1)) []] [];
   match output r with EditError e => Some (error e) | EditsApplied _ => None end) = Some OverlappingEdits.
Proof. vm_compute. reflexivity. Qed.

Lemma sample_laws : SchemeLaws.
Proof. apply chunk_laws; lia. Qed.

Lemma edits_splice_blocks_witness :
  (∀ text, sample_ops ≠ [Write text])
  ∧ ∃ r, apply_edits sample_file sample_ops [] = Some r
    ∧ new_content r = Some (lit "fn a" ++ [NL] ++ lit "x" ++ [NL] ++ lit "y" ++ [NL] ++ lit "fn c" ++ [NL] ++ lit "fn z")
    ∧ ∃ rs, resolution (split_lines sample_file) sample_ops 0 rs ∧ compatible rs.
Proof.
  split; [done|].
  destruct (@edits_splice_blocks sample_scheme sample_laws sample_file sample_ops [] ltac:(done)) as (_ & r & Hr & Hm).
  exists r. split; [done|]. pose proof sample_edit as Hs. rewrite Hr in Hs. cbn [mbind option_bind] in Hs.
  split; [done|]. rewrite Hs in Hm. destruct Hm as (rs & _ & ? & ? & _). eauto.
Defined.

Lemma anchors_round_trip_witness : ∃ a, generate_anchors (split_lines sample_file) !! 1 = Some a
  ∧ validate_anchor (render_anchored_line a (lit "fn b")) (split_lines sample_file) = Some (Ok 1).
Proof.
  eexists. split; [reflexivity|].
  eapply (@anchors_round_trip sample_scheme sample_laws); [vm_compute|]; reflexivity.
Defined.

(** A line that moved down by one is found again by its content. *)
Lemma find_shifted_exact_witness :
  let scheme := ContentOnly.content_scheme 3 in
  let p := mkParsed 1 (local_of 3 (lit "fn a")) None in
  let ls := lit "new" :: split_lines sample_file in
  @find_shifted scheme p ls 5 = Found 2 ∧ ∀ j, @could_be scheme p ls 5 j ↔ j = 1.
Proof.
  intros scheme p ls. assert (Hf : @find_shifted scheme p ls 5 = Found 2) by (vm_compute; reflexivity).
  split; [done|]. assert (Hlaws : @SchemeLaws scheme) by (apply content_only_laws; lia).
  pose proof (@find_shifted_exact scheme Hlaws p ls 5) as Hx. rewrite Hf in Hx. destruct Hx as (i & Hi & Hx).
  by replace 1 with i by lia.
Defined.
