(* ===== verification/HashTool.v ===== *)
(** The hashline tools
    (crates/codegen/xai-grok-tools/src/implementations/grok_build_hashline/edit/mod.rs and
    grep.rs): the edit tool's run on a
    file system, and the anchors put into a search result.

    The file system is the interface [FileSystem] of PatchTool; what the tool asks of the
    operating system beyond it (canonical paths, the home directory, the search for a file
    name that looks alike) is a variable.  [None] is a panic. *)
From Stdlib Require Import String Ascii.
From S2P Require Import Prelude RustStr LexPath PatchTool HashAnchor HashEdit.
Local Open Scope medley_scope.

(** ** The answer of the edit tool *)

Record SearchReplaceEditDetail := mkSrDetail {
  sr_old_string : str;
  sr_old_line : nat;
  sr_new_string : str;
  sr_new_line : nat;
  sr_context_before : str;
  sr_context_after : str
}.
Record SearchReplaceEditsApplied := mkSrApplied {
  old_string : str;
  new_string : str;
  tool_output_for_prompt : str;
  sr_absolute_path : str;
  sr_edits : list SearchReplaceEditDetail
}.
Inductive SearchReplaceOutput :=
| SrEditsApplied (a : SearchReplaceEditsApplied)
| NoMatchesFound (msg file_path : str)
| SrInvalidInput (msg : str)
| SrFileNotFound (msg : str).

(** [lines[a..b].join("\n")] with a final newline, or nothing when [a = b]. *)
Definition context_block (ls : list str) (a b : nat) : option str :=
  if (a <? b)%nat then
    if (b <=? length ls)%nat then Some (join [NL] (slice a b ls) ++ [NL]) else None
  else Some [].
Definition edit_detail (old_lines : list str) (d : EditRegionDetail) : option SearchReplaceEditDetail :=
  let ctx_count := 3 in
  let old_idx := old_line d - 1 in
  before ← context_block old_lines (old_idx - ctx_count) old_idx;
  let old_text_line_count := if str_eqb (d_old_text d) [] then 0 else length (split_on NL (d_old_text d)) in
  let after_start := old_idx + old_text_line_count in
  after ← context_block old_lines after_start (Nat.min (after_start + ctx_count) (length old_lines));
  Some (mkSrDetail (d_old_text d) (old_line d) (d_new_text d) (new_line d) before after).

Definition error_message (e : HashlineEditError) : str :=
  message e
  ++ (match err_context e with
      | Some ctx =>
          [NL; NL]
          ++ (match context_start_line e with
              | Some start => lit "Fresh anchors around line " ++ num start ++ lit " " ++ [8212%N]
                              ++ lit " use these to retry your edit:"
              | None => lit "Fresh anchors " ++ [8212%N] ++ lit " use these to retry your edit:"
              end)
          ++ [NL] ++ ctx
      | None => []
      end)
  ++ (match shifted_anchor e with
      | Some anchor => [NL; NL] ++ lit "Suggested anchor: " ++ anchor
      | None => []
      end).
Definition to_search_replace (result : HashlineEditOutput) (file_path old_content : str)
  (new_content : option str) (edit_details : list EditRegionDetail) : option SearchReplaceOutput :=
  match result with
  | EditsApplied applied =>
      let new_text := default [] new_content in
      details ← (match edit_details with
                 | [] => Some [mkSrDetail old_content 1 new_text 1 [] []]
                 | _ => mapM (edit_detail (split_on NL old_content)) edit_details
                 end);
      let shown := match warnings applied with
                   | [] => snippet applied
                   | ws => join [NL] ws ++ [NL; NL] ++ snippet applied
                   end in
      Some (SrEditsApplied (mkSrApplied old_content new_text shown (ap_path applied) details))
  | EditError e =>
      let msg := error_message e in
      Some (match error e with
            | FileNotFound => SrFileNotFound msg
            | InvalidInput => SrInvalidInput msg
            | _ => NoMatchesFound msg file_path
            end)
  end.

(** ** The run of the edit tool *)

Section Run.
Context {F : Type} `{FileSystem F}.
(** [e.io_error_kind() == Some(NotFound)] of an error, as it prints. *)
Variable is_not_found : str → bool.
Variable tilde : str → str.
(** [try_canonicalize], [canonicalize_with_timeout], [try_resolve_unicode_filename] and
    [format_not_found_error], on the file system as it is. *)
Variable try_canonicalize : F → str → option str.
Variable canonicalize_with_timeout : F → str → str.
Variable try_resolve_unicode_filename : F → str → option str.
Variable format_not_found_error : F → str → str → str → str → bool → str.

(** The resources of the call. *)
Record Call := mkCall {
  call_cwd : str;
  call_display_cwd : option str;
  call_params : HashlineSchemeParams;
  hints_enabled : bool;
  file_path : str;
  edits : list HashlineOp
}.

Definition file_not_found (fs : F) (c : Call) (path : str) : SearchReplaceOutput :=
  let display_dcwd := display_cwd_or_cwd (call_cwd c) (call_display_cwd c) in
  SrFileNotFound (format_not_found_error fs (path_join display_dcwd (file_path c)) path (call_cwd c)
                    display_dcwd (hints_enabled c)).

(** The creation of a file by a lone write. *)
Definition run_new_file `{AnchorScheme} (fs : F) (c : Call) (joined_path content : str)
  : option (F * SearchReplaceOutput) :=
  match write_file fs joined_path content with
  | (fs, Err e) =>
      Some (fs, if is_not_found e then file_not_found fs c joined_path
                else SrInvalidInput (lit "Failed to write file: " ++ e))
  | (fs, Ok _) =>
      let abs := canonicalize_with_timeout fs joined_path in
      r ← apply_edits content (edits c) abs;
      out ← to_search_replace (output r) abs [] (new_content r) (edit_details r);
      Some (fs, out)
  end.

(** The edit of the file at [path]. *)
Definition run_on_file `{AnchorScheme} (fs : F) (c : Call) (path : str) : option (F * SearchReplaceOutput) :=
  match read_file fs path with
  | Err e =>
      Some (fs, if is_not_found e then file_not_found fs c path
                else SrInvalidInput (lit "Failed to read file: " ++ e))
  | Ok old_content =>
      r ← apply_edits old_content (edits c) path;
      let finish fs :=
        out ← to_search_replace (output r) path old_content (new_content r) (edit_details r); Some (fs, out) in
      match new_content r with
      | Some text =>
          match write_file fs path text with
          | (fs, Err e) =>
              out ← to_search_replace
                      (EditError (plain_error IoError
                         (lit "Edits validated but failed to write file: " ++ e ++ lit ".") None))
                      path old_content None [];
              Some (fs, out)
          | (fs, Ok _) => finish fs
          end
      | None => finish fs
      end
  end.

(** [Err] is [ToolError::invalid_arguments]. *)
Definition hashline_run (fs : F) (c : Call) : option (F * result SearchReplaceOutput str) :=
  match edits c with
  | [] => Some (fs, Ok (SrInvalidInput (lit "No edit operations provided.")))
  | _ =>
      scheme ← build_scheme (call_params c);
      match scheme with
      | Err e => Some (fs, Err e)
      | Ok scheme =>
          let joined_path := resolve_model_path tilde (call_cwd c) (call_display_cwd c) (file_path c) in
          let found := match try_canonicalize fs joined_path with
                       | Some p => Some p
                       | None => try_resolve_unicode_filename fs joined_path
                       end in
          '(fs, out) ← (match found, edits c with
                        | Some path, _ => run_on_file fs c path
                        | None, [Write content] => run_new_file fs c joined_path content
                        | None, _ => Some (fs, file_not_found fs c joined_path)
                        end);
          Some (fs, Ok out)
      end
  end.
End Run.

(** ** Search results with anchors (grep.rs) *)

(** The bytes [0..idx] of the scan over digits. *)
Fixpoint leading_digits (s : str) : str :=
  match s with
  | c :: s' => if is_ascii_digit c then c :: leading_digits s' else []
  | [] => []
  end.
(** A numbered line of ripgrep: [123:content] or [45-context]. *)
Definition parse_rg_line (line : str) : option (Z * char * str) :=
  let digits := leading_digits line in
  match drop (length digits) line with
  | [] => None
  | sep :: content =>
      if (length digits =? 0)%nat then None
      else if negb (sep =? COLON)%N && negb (sep =? chr "-")%N then None
      else num ← parse_uint U64 digits; Some (num, sep, content)
  end.

Section Grep.
Context `{AnchorScheme}.
(** [fs.read_file] with [from_utf8_lossy]; the files do not change during the call. *)
Variable read : str → option str.
Variable cwd : str.

(** The cache: paths are equal when their components are. *)
Definition Cache : Type := list (str * list Anchor).
Definition same_path (p q : str) : bool := bool_decide (components p = components q).
Definition cached (cache : Cache) (path : str) : option (list Anchor) :=
  snd <$> List.find (λ '(p, _), same_path p path) cache.
Definition get_or_generate (cache : Cache) (path : str) : Cache * option (list Anchor) :=
  match cached cache path with
  | Some anchors => (cache, Some anchors)
  | None =>
      match read path with
      | Some content =>
          let anchors := generate_anchors (split_lines content) in ((path, anchors) :: cache, Some anchors)
      | None => (cache, None)
      end
  end.

Record Injection := mkInjection { file_anchors : Cache; injected : str; current_file : option str }.

(** Where a header line moves [current_file]. *)
Definition is_header (line : str) : bool :=
  bool_decide (parse_rg_line line = None) && negb (starts_with (lit "Found ") line)
  && negb (starts_with (lit "... [") line) && negb (str_eqb line []).

Definition inject_line (st : Injection) (line : str) : option Injection :=
  let out := if negb (ends_with [NL] (injected st)) && negb (ends_with (lit ">") (injected st))
             then injected st ++ [NL] else injected st in
  let pass_through cache :=
    Some (mkInjection cache (out ++ line)
            (if is_header line then Some (path_join cwd line) else current_file st)) in
  if str_eqb line (lit "--") then Some (mkInjection (file_anchors st) (out ++ line) (current_file st))
  else
    match parse_rg_line line, current_file st with
    | Some (line_num, separator, content), Some path =>
        let '(cache, anchors) := get_or_generate (file_anchors st) path in
        match anchors with
        | Some anchors =>
            if (Z.max 0 (line_num - 1) <? Z.of_nat (length anchors))%Z then
              (* [anchors[line_num - 1]]: a line number 0 panics *)
              a ← (if (line_num =? 0)%Z then None else anchors !! Z.to_nat (line_num - 1));
              Some (mkInjection cache
                      (out ++ decimal (Z.to_N line_num) ++ [COLON] ++ anchor_suffix a ++ [separator] ++ content)
                      (current_file st))
            else pass_through cache
        | None => pass_through cache
        end
    | _, _ => pass_through (file_anchors st)
    end.

Definition CLOSE : str := [NL] ++ lit "</workspace_result>".
(** [str::rfind], as the text before the last occurrence. *)
Definition before_last (p s : str) : option str := (λ '(_, r), rev r) <$> split_once (rev p) (rev s).

Definition inject_anchors (stdout : str) : option str :=
  match split_once (lit ">" ++ [NL]) stdout, before_last CLOSE stdout with
  | Some (pre, _), Some upto =>
      let body_start := length pre + 2 in
      if (length upto <? body_start)%nat then None
      else
        let prefix := take body_start stdout in
        let body := slice body_start (length upto) stdout in
        st ← foldl (λ acc line, st ← acc; inject_line st line)
               (Some (mkInjection [] prefix None)) (RustStr.lines body);
        Some (injected st ++ drop (length upto) stdout)
  | _, _ => Some stdout
  end.
End Grep.

(** ** Examples *)

Example sanitized : sanitize_model_path_arg ([DQUOTE] ++ lit "/w/data.ts" ++ [BACKSLASH; chr "n"; DQUOTE]) = lit "/w/data.ts".
Proof. reflexivity. Qed.
Example resolved_display :
  resolve_model_path id (lit "/wt/abc") (Some (lit "/home/u/p")) (lit "/home/u/p/src/main.rs") = lit "/wt/abc/src/main.rs"
  ∧ resolve_model_path id (lit "/wt/abc") None (lit "wt/abc/src/main.rs") = lit "/wt/abc/src/main.rs"
  ∧ resolve_model_path id (lit "/wt/abc") None (lit "../x.rs") = lit "/wt/abc/../x.rs".
Proof. repeat split; vm_compute; reflexivity. Qed.

Definition page : str := lit "<div>" ++ [NL] ++ lit "text".
Definition grep_page (lines : list str) : str :=
  lit "<workspace_result>" ++ [NL] ++ join [NL] lines ++ CLOSE.
(** A matched line that ends in [>] swallows the line break behind it. *)
Example glued_lines :
  @inject_anchors (ContentOnly.content_scheme 3) (λ _, Some page) (lit "/w")
    (grep_page [lit "a.html"; lit "1:<div>"; lit "2-text"])
  = Some (lit "<workspace_result>" ++ [NL] ++ lit "a.html" ++ [NL]
          ++ lit "1:" ++ local_of 3 (lit "<div>") ++ lit ":<div>"
          ++ lit "2:" ++ local_of 3 (lit "text") ++ lit "-text" ++ CLOSE).
Proof. vm_compute. reflexivity. Qed.
(** A file whose name reads as line 0 of the file before it panics. *)
Example line_zero_panics :
  @inject_anchors (ContentOnly.content_scheme 3) (λ _, Some page) (lit "/w")
    (grep_page [lit "a.html"; lit "2:text"; lit "0-notes.md"; lit "1:text"]) = None.
Proof. vm_compute. reflexivity. Qed.
