(* ===== verification/HashToolSafety.v ===== *)
(** The claims on the hashline tools: what a run of the edit tool leaves behind, and that the
    anchors a search prints are ones the edit tool accepts. *)
From Stdlib Require Import String Ascii.
From stdpp Require Import gmap.
From S2P Require Import Prelude RustStr LexPath PatchApply PatchTool HashAnchor HashEdit HashEditSafety HashEditRefine HashTool.
Local Open Scope medley_scope.

(** ** Paths given by the model *)

Lemma trim_end_length s : length (trim_end s) ≤ length s.
Proof.
  unfold trim_end, trim_end_matches. rewrite length_rev, <- (length_rev s).
  generalize (rev s). intros t. induction t as [|c t IH]; simpl; [lia|]. destruct (is_whitespace c); simpl; lia.
Qed.

(** As many rounds as the text has characters are enough: nothing is left to strip. *)
Lemma strip_escapes_done fuel s : length s ≤ fuel →
  strip_suffix [BACKSLASH; chr "n"] (strip_escapes fuel s) = None
  ∧ strip_suffix [BACKSLASH; chr "r"] (strip_escapes fuel s) = None
  ∧ strip_suffix [BACKSLASH; chr "t"] (strip_escapes fuel s) = None.
Proof.
  revert s; induction fuel as [|fuel IH]; intros s Hs; cbn [strip_escapes].
  { by destruct s; simpl in *; [|lia]. }
  set (stripped := match strip_suffix [BACKSLASH; chr "n"] s with Some t => Some t | None => _ end).
  destruct stripped as [t|] eqn:Ht; unfold stripped in Ht.
  - assert (Hlen : length t < length s).
    { destruct (strip_suffix [BACKSLASH; chr "n"] s) eqn:E1; [|destruct (strip_suffix [BACKSLASH; chr "r"] s) eqn:E2];
        simplify_eq; repeat match goal with H : strip_suffix _ _ = Some _ |- _ => apply strip_suffix_Some in H; subst s end;
        rewrite length_app; simpl; lia. }
    apply IH. pose proof (trim_end_length t). lia.
  - by destruct (strip_suffix [BACKSLASH; chr "n"] s), (strip_suffix [BACKSLASH; chr "r"] s).
Qed.

(** ** The edit tool *)

Lemma context_block_total ls a b : b ≤ length ls → is_Some (context_block ls a b).
Proof.
  intros Hb. unfold context_block. destruct (a <? b)%nat; [|done]. by rewrite (proj2 (Nat.leb_le _ _) Hb).
Qed.

Lemma edit_detail_total old_lines d : old_line d - 1 ≤ length old_lines → is_Some (edit_detail old_lines d).
Proof.
  intros Hd. unfold edit_detail. destruct (context_block_total old_lines (old_line d - 1 - 3) (old_line d - 1) Hd) as [x ->].
  cbn [mbind option_bind]. set (after_start := _ + _).
  by destruct (context_block_total old_lines after_start (Nat.min (after_start + 3) (length old_lines)) ltac:(lia)) as [y ->].
Qed.

Section Lawful.
Context `{SchemeLaws}.

(** Every batch has an outcome: an error without content, or new content with details that
    lie in the old file. *)
Lemma apply_edits_outcome content ops path : ∃ r, apply_edits content ops path = Some r
  ∧ ((∃ e, r = failed e) ∨ ∃ a text ds, r = mkApplyResult (EditsApplied a) (Some text) ds
        ∧ Forall (λ d, old_line d - 1 ≤ length (split_on NL content)) ds).
Proof.
  assert ((∃ text, ops = [Write text]) ∨ ¬ ∃ text, ops = [Write text]) as [[text ->]|Hw].
  { destruct ops as [|[| |text] [|]]; try (right; intros [? [=]]; done). left. eauto. }
  - destruct (write_spec content text path) as [[_ [a ->]]|[_ [e ->]]]; eexists; (split; [done|]); [right|left; eauto].
    eexists _, _, _. split; [done|constructor].
  - destruct (batch_spec content ops path) as [(e & -> & _)|(rs & a & ds & Hr & _ & -> & Hd)].
    { intros text ->. apply Hw. eauto. }
    + eexists. split; [done|]. left. eauto.
    + eexists. split; [done|]. right. eexists _, _, _. split; [done|].
      destruct (resolution_fits _ _ _ _ Hr) as [Hf _]. rewrite <- (top_down_perm rs) in Hf.
      rewrite <- split_lines_length. clear -Hd Hf. revert Hd. generalize (splice 0 (repl <$> top_down rs) (split_lines content)).
      intros out Hd. induction Hd as [|b d bs ds Hbd Hd IH]; [constructor|].
      apply Forall_cons in Hf as [[Hb _] Hf]. constructor; [|auto]. destruct Hbd as (-> & _). lia.
Qed.

Lemma answer_applied content path a text ds : Forall (λ d, old_line d - 1 ≤ length (split_on NL content)) ds →
  ∃ ans, to_search_replace (EditsApplied a) path content (Some text) ds = Some (SrEditsApplied ans)
    ∧ old_string ans = content ∧ new_string ans = text.
Proof.
  intros Hd. unfold to_search_replace.
  assert (is_Some (match ds with
                   | [] => Some [mkSrDetail content 1 (default [] (Some text)) 1 [] []]
                   | _ => mapM (edit_detail (split_on NL content)) ds
                   end)) as [details Hds].
  { destruct ds; [done|]. apply mapM_total. intros d' Hin. rewrite Forall_forall in Hd. by apply edit_detail_total, Hd. }
  rewrite Hds. by eexists.
Qed.

Lemma answer_error path content e : ∃ ans, to_search_replace (EditError e) path content None [] = Some ans
  ∧ ∀ a, ans ≠ SrEditsApplied a.
Proof. eexists. split; [done|]. intros a. by destruct (error e). Qed.
End Lawful.

Section Run.
Context {F : Type} `{!FileSystem F} (alias : str → str → bool) `{!FileSystemLaws F alias}.
Context (is_not_found : str → bool) (tilde : str → str) (try_canonicalize : F → str → option str)
  (canonicalize_with_timeout : F → str → str) (try_resolve_unicode_filename : F → str → option str)
  (format_not_found_error : F → str → str → str → str → bool → str).
Notation run := (hashline_run is_not_found tilde try_canonicalize canonicalize_with_timeout
                   try_resolve_unicode_filename format_not_found_error).
Notation on_file := (run_on_file is_not_found format_not_found_error).
Notation new_file := (run_new_file is_not_found canonicalize_with_timeout format_not_found_error).

(** The file at [path] went from [fs] to [text], and nothing else changed. *)
Definition only_wrote (fs fs' : F) (path text : str) : Prop :=
  contents fs' path = Some text ∧ ∀ q, alias path q = false → contents fs' q = contents fs q.
(** A write was tried and failed. *)
Definition write_failed (fs fs' : F) : Prop := ∃ path text e, write_file fs path text = (fs', Err e).

Lemma wrote fs path text fs' : write_file fs path text = (fs', Ok tt) → only_wrote fs fs' path text.
Proof.
  intros Hw. split; [by eapply write_read|]. intros q Hq. change fs' with (fs', Ok (E := str) tt).1. rewrite <- Hw.
  by apply write_frame.
Qed.

Lemma on_file_spec `{SchemeLaws} fs c path : ∃ fs' out, on_file fs c path = Some (fs', out)
  ∧ match out with
    | SrEditsApplied a => only_wrote fs fs' path (new_string a) ∧ contents fs path = Some (old_string a)
        ∧ ∃ r, apply_edits (old_string a) (edits c) path = Some r ∧ new_content r = Some (new_string a)
    | _ => fs' = fs ∨ write_failed fs fs'
    end.
Proof.
  unfold run_on_file, contents. destruct (read_file fs path) as [old|e].
  2: { eexists _, _. split; [done|]. destruct (is_not_found e); by left. }
  destruct (apply_edits_outcome old (edits c) path) as (r & Hr & Ho). rewrite Hr. cbn [mbind option_bind].
  destruct Ho as [(e & ->)|(a & text & ds & -> & Hd)];
    cbn [output new_content edit_details failed].
  - destruct (answer_error path old e) as (ans & -> & Hans). eexists _, _. split; [done|].
    destruct ans as [a| | |]; [by destruct (Hans a)|by left..].
  - destruct (write_file fs path text) as [fs' [[]|e]] eqn:Hw.
    + destruct (answer_applied old path a text ds Hd) as (ans & -> & Hold & Hnew).
      eexists _, _. split; [done|]. simpl. subst. split; [by apply wrote|]. split; [done|]. by eexists.
    + eexists _, _. split; [done|]. simpl. right. by eexists _, _, _.
Qed.

Lemma new_file_spec `{SchemeLaws} fs c path text : edits c = [Write text] →
  ∃ fs' out, new_file fs c path text = Some (fs', out)
  ∧ match out with
    | SrEditsApplied a => only_wrote fs fs' path text ∧ new_string a = text ∧ old_string a = []
    | _ => write_failed fs fs' ∨ ¬ clean text ∧ write_file fs path text = (fs', Ok tt)
    end.
Proof.
  intros Hc. unfold run_new_file. rewrite Hc. destruct (write_file fs path text) as [fs' [[]|e]] eqn:Hw.
  - destruct (write_spec text text (canonicalize_with_timeout fs' path)) as [[Hcl [a ->]]|[Hcl [e ->]]];
      cbn [mbind option_bind output new_content edit_details failed].
    + destruct (answer_applied [] (canonicalize_with_timeout fs' path) a text [] ltac:(constructor)) as (ans & -> & Hold & Hnew).
      eexists _, _. split; [done|]. simpl. split; [by apply wrote|done].
    + destruct (answer_error (canonicalize_with_timeout fs' path) [] e) as (ans & -> & Hans).
      eexists _, _. split; [done|]. destruct ans as [a| | |]; [by destruct (Hans a)|by right..].
  - eexists _, _. split; [done|]. destruct (is_not_found e); left; by eexists _, _, _.
Qed.

(** C38: a run of the edit tool always ends with an answer.  An answer of applied edits
    means that one file, and no other, now holds the text the answer reports: what the
    batch makes of the text the file held before, or a file that did not exist, created by
    a lone write.  Any other answer leaves every file as it was, except that a write itself
    may fail half way, and that a file created with a text that holds anchors is there
    although the answer is an error. *)
Theorem edit_run_outcome fs c :
  let joined := resolve_model_path tilde (call_cwd c) (call_display_cwd c) (file_path c) in
  ∃ fs' r, run fs c = Some (fs', r)
  ∧ match r with
    | Ok (SrEditsApplied a) =>
        (∃ path scheme result, only_wrote fs fs' path (new_string a) ∧ contents fs path = Some (old_string a)
           ∧ build_scheme (call_params c) = Some (Ok scheme)
           ∧ @apply_edits scheme (old_string a) (edits c) path = Some result
           ∧ new_content result = Some (new_string a))
        ∨ try_canonicalize fs joined = None ∧ only_wrote fs fs' joined (new_string a)
          ∧ edits c = [Write (new_string a)]
    | _ => fs' = fs ∨ write_failed fs fs'
        ∨ ∃ text, edits c = [Write text] ∧ ¬ clean text ∧ try_canonicalize fs joined = None
            ∧ write_file fs joined text = (fs', Ok tt)
    end.
Proof.
  intros joined. unfold hashline_run. destruct (edits c) as [|op ops] eqn:Hc; [by eexists _, _; split; [done|left]|].
  rewrite <- Hc. fold joined. destruct (build_scheme_laws (call_params c)) as (o & Hb & Hlaws). rewrite Hb.
  cbn [mbind option_bind]. destruct o as [scheme|e]; [|by eexists _, _; split; [done|left]].
  specialize (Hlaws scheme eq_refl).
  destruct (match try_canonicalize fs joined with Some p => Some p | None => try_resolve_unicode_filename fs joined end)
    as [path|] eqn:Hfound.
  - destruct (on_file_spec fs c path) as (fs' & out & -> & Hout). eexists _, _. split; [done|].
    destruct out; [|destruct Hout; auto..]. left. destruct Hout as (? & ? & r & ? & ?). eauto 10.
  - assert (Hnc : try_canonicalize fs joined = None) by (by destruct (try_canonicalize fs joined)).
    destruct op as [| |text], ops as [|]; try (eexists _, _; split; [done|]; by left).
    destruct (new_file_spec fs c joined text Hc) as (fs' & out & -> & Hout). eexists _, _. split; [done|].
    destruct out as [a| | |]; [|destruct Hout as [?|[? ?]]; eauto 10..].
    right. destruct Hout as (Hwr & Hnew & _). rewrite Hnew. auto.
Qed.
End Run.

(** ** Search results *)

(** The text ends in a character that is neither a newline nor [>]. *)
Definition good_end (s : str) : Prop := ∃ s' c, s = s' ++ [c] ∧ c ≠ NL ∧ c ≠ chr ">".

Lemma good_end_app s t : good_end t → good_end (s ++ t).
Proof. intros (t' & c & -> & ? & ?). exists (s ++ t'), c. by rewrite <- app_assoc. Qed.

Lemma ends_with_snoc c s x : ends_with [c] (s ++ [x]) = (c =? x)%N.
Proof.
  unfold ends_with, strip_suffix. rewrite rev_app_distr. simpl. by destruct (c =? x)%N.
Qed.

Lemma good_end_open s : good_end s → ends_with [NL] s = false ∧ ends_with (lit ">") s = false.
Proof.
  intros (s' & c & -> & Hn & Hg). change (lit ">") with [chr ">"]. rewrite !ends_with_snoc.
  split; apply N.eqb_neq; congruence.
Qed.

Lemma parse_rg_split line n sep content : parse_rg_line line = Some (n, sep, content) →
  ∃ digits, line = digits ++ sep :: content ∧ (sep = COLON ∨ sep = chr "-") ∧ (0 ≤ n)%Z.
Proof.
  unfold parse_rg_line. destruct (drop _ line) as [|c rest] eqn:Hd; [done|].
  destruct (_ =? 0)%nat; [done|]. destruct (negb (c =? COLON)%N && negb (c =? chr "-")%N) eqn:Hs; [done|].
  destruct (parse_uint U64 (leading_digits line)) as [v|] eqn:Hv; [|done]. simpl. intros [= <- <- <-].
  exists (take (length (leading_digits line)) line). split; [by rewrite <- Hd, take_drop|].
  apply parse_uint_range in Hv. split; [|lia].
  apply andb_false_iff in Hs as [Hs|Hs]; apply negb_false_iff, N.eqb_eq in Hs; auto.
Qed.

Lemma rest_good_end line n sep content : parse_rg_line line = Some (n, sep, content) → good_end line →
  good_end ([sep] ++ content).
Proof.
  intros (ds & -> & Hsep & _)%parse_rg_split (s' & c & Hc & Hn & Hg). destruct content as [|x content _] using rev_ind.
  - exists [], sep. split; [done|]. by destruct Hsep; subst sep.
  - exists (sep :: content), x. split; [done|].
    rewrite app_comm_cons, app_assoc in Hc. by apply app_inj_tail in Hc as [_ ->].
Qed.

Section Grep.
Context `{SchemeLaws} (read : str → option str) (cwd : str).
(** The file system finds a file by the components of its path. *)
Hypothesis read_by_components : ∀ p q, components p = components q → read p = read q.
(** A file has fewer lines than a [usize] counts. *)
Hypothesis lines_fit : ∀ p text, read p = Some text → (N.of_nat (length (split_lines text)) < 2 ^ 64)%N.

Definition cache_ok (cache : Cache) : Prop :=
  ∀ p anchors, (p, anchors) ∈ cache → ∃ text, read p = Some text ∧ anchors = generate_anchors (split_lines text).

Lemma get_or_generate_spec cache path : cache_ok cache →
  ∃ cache', cache_ok cache'
    ∧ get_or_generate read cache path = (cache', (λ text, generate_anchors (split_lines text)) <$> read path).
Proof.
  intros Hok. unfold get_or_generate, cached. destruct (List.find _ cache) as [[p anchors]|] eqn:Hf; simpl.
  - exists cache. split; [done|]. apply find_some in Hf as [Hin Hs].
    apply list_elem_of_In, Hok in Hin as (text & Hr & ->). apply bool_decide_eq_true in Hs.
    by rewrite <- (read_by_components _ _ Hs), Hr.
  - destruct (read path) as [text|] eqn:Hr; [|by exists cache]. eexists. split; [|done].
    intros p anchors [[= -> ->]|Hin]%elem_of_cons; eauto.
Qed.

(** The line of a file that a numbered line of the result is about. *)
Definition located (cur : option str) (line : str) : option (list str * nat * char * str) :=
  if str_eqb line (lit "--") then None
  else
    '(n, sep, content) ← parse_rg_line line;
    path ← cur;
    text ← read path;
    if (0 <? n)%Z && (n <=? Z.of_nat (length (split_lines text)))%Z
    then Some (split_lines text, Z.to_nat (n - 1), sep, content) else None.
Definition next_file (cur : option str) (line : str) : option str :=
  if negb (str_eqb line (lit "--")) && is_header line then Some (path_join cwd line) else cur.

(** What the result becomes: a line about a line of a readable file gets an anchor that the
    edit tool accepts for that very line; every other line is kept. *)
Inductive annotated : option str → list str → list str → Prop :=
| an_end cur : annotated cur [] []
| an_kept cur line ls outs : located cur line = None → annotated (next_file cur line) ls outs →
    annotated cur (line :: ls) (line :: outs)
| an_anchored cur line file i sep content a ls outs :
    located cur line = Some (file, i, sep, content) →
    generate_anchors file !! i = Some a → validate_anchor (render a) file = Some (Ok i) →
    annotated cur ls outs →
    annotated cur (line :: ls) ((render a ++ [sep] ++ content) :: outs).

Definition good_line (line : str) : Prop :=
  good_end line ∧ ∀ sep content, parse_rg_line line ≠ Some (0%Z, sep, content).

(** One line, onto a text that is at the start of a line or not. *)
Lemma inject_line_spec st line (brk : str) : cache_ok (file_anchors st) → good_line line →
  (if negb (ends_with [NL] (injected st)) && negb (ends_with (lit ">") (injected st)) then [NL] else []) = brk →
  ∃ st' out, inject_line read cwd st line = Some st' ∧ cache_ok (file_anchors st')
    ∧ injected st' = injected st ++ brk ++ out ∧ good_end out
    ∧ ∀ ls outs, annotated (current_file st') ls outs → annotated (current_file st) (line :: ls) (out :: outs).
Proof.
  intros Hok [Hend Hz] Hbrk. unfold inject_line.
  assert (Hout : (if negb (ends_with [NL] (injected st)) && negb (ends_with (lit ">") (injected st))
                  then injected st ++ [NL] else injected st) = injected st ++ brk).
  { rewrite <- Hbrk. destruct (_ && _); [done|]. by rewrite app_nil_r. }
  rewrite Hout. clear Hout Hbrk.
  assert (Hkept : ∀ cache, cache_ok cache → located (current_file st) line = None → str_eqb line (lit "--") = false →
    ∃ st' out, Some (mkInjection cache ((injected st ++ brk) ++ line)
         (if is_header line then Some (path_join cwd line) else current_file st)) = Some st' ∧ cache_ok (file_anchors st')
      ∧ injected st' = injected st ++ brk ++ out ∧ good_end out
      ∧ ∀ ls outs, annotated (current_file st') ls outs → annotated (current_file st) (line :: ls) (out :: outs)).
  { intros cache Hc Hl Hd. eexists _, line. split; [done|]. split; [done|]. simpl. split; [by rewrite app_assoc|].
    split; [done|]. intros ls outs Ha. apply an_kept; [done|]. unfold next_file. by rewrite Hd. }
  destruct (str_eqb line (lit "--")) eqn:Hdash.
  { eexists _, line. split; [done|]. split; [done|]. simpl. split; [by rewrite app_assoc|]. split; [done|].
    intros ls outs Ha. apply an_kept; [unfold located; by rewrite Hdash|]. unfold next_file. by rewrite Hdash. }
  unfold located in Hkept. rewrite Hdash in Hkept.
  destruct (parse_rg_line line) as [[[n sep] content]|] eqn:Hp; [|by apply Hkept].
  destruct (current_file st) as [path|] eqn:Hcur; [|by apply Hkept]. cbn [mbind option_bind] in Hkept.
  destruct (get_or_generate_spec (file_anchors st) path Hok) as (cache & Hc & ->).
  destruct (read path) as [text|] eqn:Hr; [|by apply Hkept]. cbn [fmap option_fmap option_map mbind option_bind] in Hkept |- *.
  rewrite anchors_length. destruct (parse_rg_split _ _ _ _ Hp) as (_ & _ & _ & Hn0).
  assert (Hn : (0 < n)%Z) by (assert (n ≠ 0%Z) by (intros ->; by apply (Hz sep content)); lia).
  rewrite (proj2 (Z.ltb_lt 0 n) Hn) in Hkept. cbn [andb] in Hkept.
  destruct (Z.ltb_spec (Z.max 0 (n - 1)) (Z.of_nat (length (split_lines text)))) as [Hlt|Hge].
  2: { apply Hkept; [done| |done]. rewrite (proj2 (Z.leb_gt n _)) by lia. done. }
  rewrite (proj2 (Z.eqb_neq n 0)) by lia.
  destruct (anchor_at (split_lines text) (Z.to_nat (n - 1))) as [a Ha]; [lia|]. rewrite Ha. cbn [mbind option_bind].
  eexists _, (render a ++ [sep] ++ content). split; [done|]. split; [done|]. cbn [injected].
  assert (Hren : decimal (Z.to_N n) ++ [COLON] ++ anchor_suffix a ++ [sep] ++ content = render a ++ [sep] ++ content).
  { rewrite render_eq, <- !app_assoc. do 2 f_equal. unfold num. f_equal. rewrite (anchor_line _ _ _ Ha). lia. }
  split; [by rewrite Hren, <- app_assoc|]. split; [apply good_end_app; by eapply rest_good_end|].
  intros ls outs Hann. eapply an_anchored; [|done| |done].
  - unfold located. rewrite Hdash, Hp. simpl. rewrite Hr. simpl.
    by rewrite (proj2 (Z.ltb_lt 0 n) Hn), (proj2 (Z.leb_le n _)) by lia.
  - eapply anchor_found; eauto. pose proof (strip_arrow_anchor _ _ _ [] Ha) as [Hs _]. by rewrite <- render_eq in Hs.
Qed.

Lemma inject_rest ls st : cache_ok (file_anchors st) → good_end (injected st) → Forall good_line ls →
  ∃ st' outs, foldl (λ acc line, st ← acc; inject_line read cwd st line) (Some st) ls = Some st'
    ∧ injected st' = injected st ++ concat (cons NL <$> outs) ∧ annotated (current_file st) ls outs.
Proof.
  intros Hok Hend Hls. revert st Hok Hend; induction Hls as [|line ls Hl Hls IH]; intros st Hok Hend.
  { exists st, []. simpl. rewrite app_nil_r. repeat constructor. }
  destruct (good_end_open _ Hend) as [E1 E2].
  destruct (inject_line_spec st line [NL] Hok Hl) as (st1 & out & Hst & Hok1 & Hinj & Hg & Han); [by rewrite E1, E2|].
  simpl. rewrite Hst. destruct (IH st1 Hok1) as (st' & outs & -> & Hi & Hann).
  { rewrite Hinj. by repeat apply good_end_app. }
  exists st', (out :: outs). split; [done|]. split; [|by apply Han].
  rewrite Hi, Hinj, fmap_cons. simpl. by rewrite <- !app_assoc.
Qed.

Lemma join_concat s ls : join [NL] (s :: ls) = s ++ concat (cons NL <$> ls).
Proof.
  revert s; induction ls as [|t ls IH]; intros s; [by rewrite app_nil_r|].
  change (join [NL] (s :: t :: ls)) with (s ++ [NL] ++ join [NL] (t :: ls)). by rewrite IH.
Qed.

Lemma inject_body pre ls : Forall good_line ls →
  ∃ st outs, foldl (λ acc line, st ← acc; inject_line read cwd st line) (Some (mkInjection [] (pre ++ [NL]) None)) ls = Some st
    ∧ injected st = (pre ++ [NL]) ++ join [NL] outs ∧ annotated None ls outs.
Proof.
  intros Hls. assert (Hok : cache_ok []) by (intros p a Hin; by apply elem_of_nil in Hin).
  destruct Hls as [|line ls Hl Hls].
  { eexists _, []. split; [done|]. simpl. rewrite app_nil_r. repeat constructor. }
  set (st0 := mkInjection [] (pre ++ [NL]) None).
  destruct (inject_line_spec st0 line [] Hok Hl) as (st1 & out & Hst & Hok1 & Hinj & Hg & Han).
  { unfold st0, injected. by rewrite ends_with_snoc. }
  cbn [foldl mbind option_bind]. rewrite Hst. destruct (inject_rest ls st1 Hok1) as (st' & outs & -> & Hi & Hann); [|done|].
  { rewrite Hinj. by apply good_end_app. }
  exists st', (out :: outs). split; [done|]. split; [|by apply (Han ls outs)].
  rewrite Hi, Hinj, join_concat. simpl. by rewrite <- !app_assoc.
Qed.

Lemma split_once_here p r : split_once p (p ++ r) = Some ([], r).
Proof.
  assert (strip_prefix p (p ++ r) = Some r) as Hs by (by apply strip_prefix_Some).
  destruct (p ++ r); simpl; by rewrite Hs.
Qed.

Lemma split_once_Some p s a b : split_once p s = Some (a, b) → s = a ++ p ++ b.
Proof.
  revert a; induction s as [|c s IH]; intros a; simpl.
  - destruct (strip_prefix p []) as [r|] eqn:Hp; [|done]. intros [= <- <-]. by apply strip_prefix_Some in Hp.
  - destruct (strip_prefix p (c :: s)) as [r|] eqn:Hp; [intros [= <- <-]; by apply strip_prefix_Some in Hp|].
    destruct (split_once p s) as [[a' b']|]; [|done]. simpl. intros [= <- <-]. simpl. f_equal. by apply IH.
Qed.

(** on a result of the search tool whose lines neither are empty nor end in [>] nor
    read as line 0 of a file, anchors are put in without a panic and nothing is lost: lines
    stay lines, a numbered line of a readable file gets an anchor that the edit tool accepts
    as exactly that line of that file, and every other line is as it was. *)
Theorem grep_anchors_accepted stdout head body :
  split_once (lit ">" ++ [NL]) stdout = Some (head, body ++ CLOSE) → Forall good_line (RustStr.lines body) →
  ∃ outs, annotated None (RustStr.lines body) outs
    ∧ inject_anchors read cwd stdout = Some (head ++ lit ">" ++ [NL] ++ join [NL] outs ++ CLOSE).
Proof.
  intros Hs Hls. pose proof (split_once_Some _ _ _ _ Hs) as Heq.
  set (pre := head ++ lit ">"). assert (Hsplit : stdout = (pre ++ [NL]) ++ body ++ CLOSE).
  { rewrite Heq. unfold pre. by rewrite <- !app_assoc. }
  assert (Hlast : before_last CLOSE stdout = Some ((pre ++ [NL]) ++ body)).
  { unfold before_last. rewrite Hsplit, app_assoc, rev_app_distr, split_once_here. simpl.
    by rewrite rev_involutive. }
  unfold inject_anchors. rewrite Hs, Hlast.
  assert (Hlen : length head + 2 = length (pre ++ [NL])) by (unfold pre; rewrite !length_app; simpl; lia).
  rewrite Hlen. rewrite (proj2 (Nat.ltb_ge _ _)) by (rewrite (length_app (pre ++ [NL])); lia).
  assert (Htake : take (length (pre ++ [NL])) stdout = pre ++ [NL]) by (rewrite Hsplit; by rewrite take_app_length).
  assert (Hbody : slice (length (pre ++ [NL])) (length ((pre ++ [NL]) ++ body)) stdout = body).
  { rewrite Hsplit, (length_app (pre ++ [NL])). apply slice_middle. }
  rewrite Htake, Hbody. destruct (inject_body pre _ Hls) as (st & outs & -> & Hi & Hann).
  exists outs. split; [done|]. cbn [mbind option_bind]. f_equal.
  rewrite Hi, Hsplit. rewrite (app_assoc (pre ++ [NL]) body CLOSE), drop_app_length.
  unfold pre. by rewrite <- !app_assoc.
Qed.
End Grep.

(** ** Witnesses *)

Definition demo_call : Call := mkCall (lit "/w") None default_params false (lit "a") [Write (lit "new text")].
Definition demo_fs : gmap (list N) str := {[ lit "/w/a" := lit "old"; lit "/w/b" := lit "keep" ]}.

Lemma edit_run_outcome_witness :
  ∃ fs', hashline_run (λ _, true) id (λ fs p, (λ _, p) <$> contents fs p) (λ _ p, p) (λ _ _, None)
           (λ _ _ _ _ _ _, lit "not found") demo_fs demo_call = fs'
  ∧ ∃ fs a, fs' = Some (fs, Ok (SrEditsApplied a)) ∧ new_string a = lit "new text"
  ∧ ∃ path, only_wrote str_eqb demo_fs fs path (lit "new text").
Proof.
  eexists. split; [reflexivity|].
  destruct (edit_run_outcome str_eqb (λ _, true) id (λ fs p, (λ _, p) <$> contents fs p) (λ _ p, p) (λ _ _, None)
    (λ _ _ _ _ _ _, lit "not found") demo_fs demo_call) as (fs & r & Hr & Hm).
  assert (Hx : match hashline_run (λ _, true) id (λ fs p, (λ _, p) <$> contents fs p) (λ _ p, p) (λ _ _, None)
           (λ _ _ _ _ _ _, lit "not found") demo_fs demo_call with
     | Some (_, Ok (SrEditsApplied a)) => str_eqb (new_string a) (lit "new text") | _ => false end = true)
    by (vm_compute; reflexivity).
  rewrite Hr in Hx |- *. destruct r as [[a| | |]|]; try discriminate Hx. apply str_eqb_eq in Hx.
  exists fs, a. split; [done|]. split; [done|]. rewrite Hx in Hm.
  destruct Hm as [(path & _ & _ & Hw & _)|(_ & Hw & _)]; eauto.
Defined.

Lemma grep_anchors_accepted_witness :
  let stdout := grep_page [lit "a.txt"; lit "2:text"] in
  ∃ outs, @inject_anchors (ContentOnly.content_scheme 3) (λ _, Some page) (lit "/w") stdout
          = Some (lit "<workspace_result>" ++ [NL] ++ join [NL] outs ++ CLOSE)
    ∧ @annotated (ContentOnly.content_scheme 3) (λ _, Some page) (lit "/w") None [lit "a.txt"; lit "2:text"] outs.
Proof.
  intros stdout. assert (Hlaws : @SchemeLaws (ContentOnly.content_scheme 3)) by (apply content_only_laws; lia).
  destruct (@grep_anchors_accepted (ContentOnly.content_scheme 3) Hlaws (λ _, Some page) (lit "/w")) with
    (stdout := stdout) (head := lit "<workspace_result") (body := lit "a.txt" ++ [NL] ++ lit "2:text")
    as (outs & Hann & Heq); [done|intros p text [= <-]; vm_compute; reflexivity|vm_compute; reflexivity| |].
  - change (RustStr.lines _) with [lit "a.txt"; lit "2:text"].
    repeat constructor; try (intros; vm_compute; discriminate).
    + by exists (lit "a.tx"), (chr "t").
    + by exists (lit "2:tex"), (chr "t").
  - exists outs. split; [rewrite Heq; done|done].
Defined.
