(* ===== verification/Utf8.v ===== *)
(** [String::from_utf8]: the UTF-8 decoder of the standard library, and that it inverts the
    encoder of RustStr. *)
From Stdlib Require Import String Ascii.
From S2P Require Import Prelude RustStr.
From Stdlib Require Import ZifyN.
Local Open Scope N_scope.
(** [String::from_utf8]: well-formed UTF-8 only (no overlong form, no surrogate). *)
Definition continuation (b : N) : bool := (128 <=? b) && (b <? 192).
Fixpoint from_utf8 (bs : list N) : option str :=
  match bs with
  | [] => Some []
  | b :: r =>
      if b <? 128 then cons b <$> from_utf8 r
      else match r with
           | c1 :: r1 =>
               if negb (continuation c1) then None
               else if (194 <=? b) && (b <? 224) then
                 cons ((b - 192) * 64 + (c1 - 128)) <$> from_utf8 r1
               else match r1 with
                    | c2 :: r2 =>
                        if negb (continuation c2) then None
                        else
                          let c := (b - 224) * 4096 + (c1 - 128) * 64 + (c2 - 128) in
                          if (224 <=? b) && (b <? 240) then
                            if (2048 <=? c) && negb ((55296 <=? c) && (c <? 57344))
                            then cons c <$> from_utf8 r2 else None
                          else match r2 with
                               | c3 :: r3 =>
                                   if negb (continuation c3) then None
                                   else
                                     let c := (b - 240) * 262144 + (c1 - 128) * 4096 + (c2 - 128) * 64 + (c3 - 128) in
                                     if (240 <=? b) && (b <? 245) && (65536 <=? c) && (c <? 1114112)
                                     then cons c <$> from_utf8 r3 else None
                               | [] => None
                               end
                    | [] => None
                    end
           | [] => None
           end
  end.

(** A Unicode scalar value. *)
Definition is_scalar (c : char) : bool := (c <? 55296) || ((57344 <=? c) && (c <? 1114112)).

Ltac n_decide := repeat match goal with
  | |- context [(?a <? ?b)%N] => first [rewrite (proj2 (N.ltb_lt a b)) by lia | rewrite (proj2 (N.ltb_ge a b)) by lia]
  | |- context [(?a <=? ?b)%N] => first [rewrite (proj2 (N.leb_le a b)) by lia | rewrite (proj2 (N.leb_gt a b)) by lia]
  end.

#[local] Ltac Zify.zify_post_hook ::= Z.div_mod_to_equations.

Lemma continuation_low (c : N) : continuation (128 + c mod 64) = true.
Proof. unfold continuation. pose proof (N.mod_lt c 64 ltac:(done)). n_decide. done. Qed.

Lemma from_utf8_char (c : N) r : is_scalar c = true → from_utf8 (utf8_bytes_char c ++ r) = cons c <$> from_utf8 r.
Proof.
  unfold is_scalar. rewrite orb_true_iff, andb_true_iff, !N.ltb_lt, N.leb_le. intros Hc. unfold utf8_bytes_char.
  destruct (N.ltb_spec c 128) as [H1|H1]; [simpl; by rewrite (proj2 (N.ltb_lt c 128))|].
  destruct (N.ltb_spec c 2048) as [H2|H2].
  { cbn [app from_utf8]. rewrite continuation_low. cbn [negb]. n_decide. cbn [andb]. f_equal. f_equal. lia. }
  assert (E1 : c / 4096 = c / 64 / 64) by (by rewrite N.div_div).
  destruct (N.ltb_spec c 65536) as [H3|H3].
  { cbn [app from_utf8]. rewrite !continuation_low. cbn [negb].
    replace ((224 + c / 4096 - 224) * 4096 + (128 + (c / 64) mod 64 - 128) * 64 + (128 + c mod 64 - 128)) with c by lia.
    destruct Hc as [Hc|[Hc _]]; n_decide; done. }
  assert (E2 : c / 262144 = c / 64 / 64 / 64) by (by rewrite !N.div_div).
  cbn [app from_utf8]. rewrite !continuation_low. cbn [negb].
  replace ((240 + c / 262144 - 240) * 262144 + (128 + (c / 4096) mod 64 - 128) * 4096
           + (128 + (c / 64) mod 64 - 128) * 64 + (128 + c mod 64 - 128)) with c by lia.
  n_decide; done.
Qed.

Lemma from_utf8_bytes s : forallb is_scalar s = true → from_utf8 (utf8_bytes s) = Some s.
Proof.
  induction s as [|c s IH]; [done|]. simpl. intros [Hc Hs]%andb_true_iff. unfold utf8_bytes. simpl.
  rewrite from_utf8_char by done. fold (utf8_bytes s). by rewrite IH.
Qed.
