(* ===== verification/HunkTypes.v ===== *)
(** Hunk tracker: data
    (crates/codegen/xai-hunk-tracker/src/types.rs, events.rs, actor/state.rs and
    actor/file_utils.rs).

    A [HunkId] is a UUID: the tracker only compares ids, so an id is the number of the
    [HunkId::new] call that made it.  Counts of lines are [nat], sizes in bytes [N]. *)
From Stdlib Require Import String Ascii.
From stdpp Require Import gmap.
From S2P Require Import Prelude RustStr Utf8 LexPath HashIter.

(** ** Types (types.rs) *)

Definition HunkId : Type := N.

Record HunkLineInfo := mkLineInfo { old_start : nat; old_count : nat; new_start : nat; new_count : nat }.
#[export] Instance HunkLineInfo_eq_dec : EqDecision HunkLineInfo.
Proof. solve_decision. Defined.

Inductive HunkSource :=
| AgentEdit (prompt_index : N)
| ExternalEditOnAgentFile
| External.
#[export] Instance HunkSource_eq_dec : EqDecision HunkSource.
Proof. solve_decision. Defined.

Definition is_agent_edit (s : HunkSource) : bool := match s with AgentEdit _ => true | _ => false end.
Definition is_agent_tracked (s : HunkSource) : bool :=
  match s with AgentEdit _ | ExternalEditOnAgentFile => true | External => false end.
Definition is_external (s : HunkSource) : bool :=
  match s with External | ExternalEditOnAgentFile => true | AgentEdit _ => false end.
Definition prompt_index (s : HunkSource) : option N := match s with AgentEdit p => Some p | _ => None end.

Record Hunk := mkHunk {
  id : HunkId;
  path : str;
  line_info : HunkLineInfo;
  source : HunkSource;
  old_text : option str;
  new_text : str;
  patch : option str;
  created_at : Z;
  selected : bool
}.

Definition line_count (content : str) : nat := Nat.max (length (lines content)) 1.
Definition file_created (fresh : HunkId) (now : Z) (path content : str) (source : HunkSource) : Hunk :=
  mkHunk fresh path (mkLineInfo 0 0 1 (line_count content)) source None content None now false.
Definition file_deleted (fresh : HunkId) (now : Z) (path content : str) (source : HunkSource) : Hunk :=
  mkHunk fresh path (mkLineInfo 1 (line_count content) 0 0) source (Some content) [] None now false.

Inductive HunkAction := Accept | Reject.
Inductive TrackingMode := AgentOnly | AllDirty.
#[export] Instance TrackingMode_eq_dec : EqDecision TrackingMode.
Proof. solve_decision. Defined.
Inductive HunkSourceFilter := FilterAgent | FilterExternal.

Inductive HunkActionError :=
| HunkNotFound (id : HunkId)
| WriteError (path source : str)
| DeleteError (path source : str)
| ReadError (path source : str).

Record SessionStats := mkStats {
  accepted_hunks : Z;
  rejected_hunks : Z;
  accepted_lines_added : Z;
  accepted_lines_removed : Z;
  rejected_lines_added : Z;
  rejected_lines_removed : Z
}.
Definition default_stats : SessionStats := mkStats 0 0 0 0 0 0.

(** ** File contents (actor/state.rs) *)

Definition MAX_TRACKED_TEXT_BYTES : N := 1024 * 1024.

Inductive FileContentState :=
| Missing
| Binary (byte_len : option N)
| TooLarge (byte_len : N)
| LfsPointer (byte_len : N)
| Symlink
| Full (text : str).

Definition as_str (s : FileContentState) : option str := match s with Full t => Some t | _ => None end.
Definition is_diffable (s : FileContentState) : bool := match s with Full _ => true | _ => false end.

Record FileHunkState := mkFileState {
  baseline : FileContentState;
  current_content : FileContentState;
  hunks : list Hunk;
  is_agent_file : bool;
  baseline_accepted : bool
}.
Definition set_hunks (hs : list Hunk) (s : FileHunkState) : FileHunkState :=
  mkFileState (baseline s) (current_content s) hs (is_agent_file s) (baseline_accepted s).
Definition set_current (c : FileContentState) (s : FileHunkState) : FileHunkState :=
  mkFileState (baseline s) c (hunks s) (is_agent_file s) (baseline_accepted s).
Definition set_baseline (b : FileContentState) (accepted : bool) (s : FileHunkState) : FileHunkState :=
  mkFileState b (current_content s) (hunks s) (is_agent_file s) accepted.
Definition set_agent_file (s : FileHunkState) : FileHunkState :=
  mkFileState (baseline s) (current_content s) (hunks s) true (baseline_accepted s).
(** A file that is seen for the first time. *)
Definition new_file_state (b c : FileContentState) (agent : bool) : FileHunkState :=
  mkFileState b c [] agent false.

(** ** Classification of contents (actor/file_utils.rs) *)

Definition byte_length (bs : list N) : N := N.of_nat (length bs).
Definition LFS_POINTER_PREFIX : list N := utf8_bytes (lit "version https://git-lfs.github.com/spec/v1" ++ [NL]).
Definition is_lfs_pointer (bytes : list N) : bool :=
  (byte_length bytes <? 1024)%N && bool_decide (is_Some (strip_prefix LFS_POINTER_PREFIX bytes)).
Definition is_binary (content : list N) : bool := existsb (N.eqb 0) (take (N.to_nat 8000) content).

Definition classify_bytes (bytes : list N) : FileContentState :=
  let byte_len := byte_length bytes in
  if (MAX_TRACKED_TEXT_BYTES <? byte_len)%N then TooLarge byte_len
  else if is_lfs_pointer bytes then LfsPointer byte_len
  else if is_binary bytes then Binary (Some byte_len)
  else match from_utf8 bytes with
       | Some s => Full s
       | None => Binary (Some byte_len)
       end.
Definition classify_string (s : str) : FileContentState :=
  let byte_len := byte_length (utf8_bytes s) in
  if (MAX_TRACKED_TEXT_BYTES <? byte_len)%N then TooLarge byte_len
  else if is_lfs_pointer (utf8_bytes s) then LfsPointer byte_len
  else if is_binary (utf8_bytes s) then Binary (Some byte_len)
  else Full s.
Definition missing_content : FileContentState := Missing.

(** What a path is on disk, to [symlink_metadata] and [File::open]. *)
Inductive DiskEntry :=
| DiskLink
| DiskFile (bytes : list N)
| DiskDir.
(** [read_file_bounded]: a directory opens but cannot be read. *)
Definition read_file_bounded (entry : option DiskEntry) : FileContentState :=
  match entry with
  | None => missing_content
  | Some DiskLink => Symlink
  | Some DiskDir => missing_content
  | Some (DiskFile bytes) =>
      let byte_len := byte_length bytes in
      if (MAX_TRACKED_TEXT_BYTES <? byte_len)%N then TooLarge byte_len
      else
        let prefix := take (N.to_nat 8000) bytes in
        if is_lfs_pointer prefix then LfsPointer byte_len
        else if is_binary prefix then Binary (Some byte_len)
        else match from_utf8 bytes with
             | Some s => Full s
             | None => Binary (Some byte_len)
             end
  end.

(** ** What queries return (types.rs) *)

Inductive FileContentStatus := SMissing | SBinary | STooLarge | SLfsPointer | SSymlink | SFull.
Record FileContentView := mkView {
  v_status : FileContentStatus;
  v_byte_len : option N;
  v_content : option str
}.
Definition from_content_state (s : FileContentState) : FileContentView :=
  match s with
  | Missing => mkView SMissing None None
  | Binary n => mkView SBinary n None
  | TooLarge n => mkView STooLarge (Some n) None
  | LfsPointer n => mkView SLfsPointer (Some n) None
  | Symlink => mkView SSymlink None None
  | Full c => mkView SFull (Some (byte_length (utf8_bytes c))) (Some c)
  end.
Definition default_view : FileContentView := mkView SMissing None None.

Record FileContentEntry := mkEntry {
  fe_path : str;
  fe_baseline : FileContentView;
  fe_current : FileContentView;
  fe_is_agent_file : bool;
  fe_staged : bool
}.
Record FileHunkData := mkHunkData {
  fd_hunks : list Hunk;
  fd_baseline : FileContentView;
  fd_current : FileContentView;
  fd_baseline_content : option str;
  fd_current_content : option str
}.
Record TurnSummary := mkTurnSummary {
  ts_prompt_index : N;
  ts_files : list str;
  ts_pending_hunks : list Hunk;
  ts_lines_added : nat;
  ts_lines_removed : nat
}.
Record SessionSummary := mkSummary {
  su_stats : SessionStats;
  su_turns : list TurnSummary;
  su_files_modified : nat;
  su_files_with_pending : nat;
  su_pending_hunks : nat;
  su_pending_lines_added : nat;
  su_pending_lines_removed : nat;
  su_unattributed_pending : nat
}.

(** ** Snapshots (types.rs) *)

(** [FileHunkStateSnapshot] has the five fields of [FileHunkState]. *)
Record HunkTrackerSnapshot := mkSnapshot {
  sn_file_states : gmap str FileHunkState;
  sn_turn_index : gmap N (gset HunkId);
  sn_session_stats : SessionStats
}.
Record HunkTurnDelta := mkDelta {
  de_prompt_index : N;
  de_file_states : gmap str FileHunkState;
  de_hunk_ids : gset HunkId
}.
Definition set_path (p : str) (h : Hunk) : Hunk :=
  mkHunk (id h) p (line_info h) (source h) (old_text h) (new_text h) (patch h) (created_at h) (selected h).
Definition rewrite_single_path (path old_cwd canonical_old new_cwd : str) : option str :=
  path_join new_cwd <$> (match path_strip_prefix path canonical_old with
                         | Some rel => Some rel
                         | None => path_strip_prefix path old_cwd
                         end).
(** [drain().map(..).collect()]: of two paths rewritten to one, the later of the iteration
    stays. *)
Definition rewrite_paths `{HashOrder} (old_cwd canonical_old_cwd new_cwd : str) (s : HunkTrackerSnapshot)
  : HunkTrackerSnapshot :=
  mkSnapshot
    (foldl (λ m '(p, st),
       let target := default p (rewrite_single_path p old_cwd canonical_old_cwd new_cwd) in
       <[target := set_hunks (set_path target <$> hunks st) st]> m) ∅ (iter (sn_file_states s)))
    (sn_turn_index s) (sn_session_stats s).

(** ** Events (events.rs) *)

Inductive HunkRemovalReason := Accepted | Rejected | Superseded.
Inductive HunkEvent :=
| HunkAdded (path : str) (hunk : Hunk)
| HunkRemoved (path : str) (hunk_id : HunkId) (reason : HunkRemovalReason)
| HunkMoved (path : str) (hunk_id : HunkId) (new_line_info : HunkLineInfo)
| HunkContentChanged (path : str) (hunk : Hunk) (trigger_source : HunkSource)
    (prev_lines_added prev_lines_removed : nat)
| FileAdded (path : str) (is_agent_file : bool)
| FileRemoved (path : str)
| BaselineUpdated (path : str).

(** ** Classifications agree *)

(** Reading a text from disk classifies it as the text itself is classified. *)
Lemma classify_bytes_string s : forallb is_scalar s = true → classify_bytes (utf8_bytes s) = classify_string s.
Proof. intros Hs. unfold classify_bytes, classify_string. by rewrite from_utf8_bytes. Qed.


(** The bounded read gives what classifying the whole file would. *)
Lemma read_bounded_classifies bytes : read_file_bounded (Some (DiskFile bytes)) = classify_bytes bytes.
Proof.
  unfold read_file_bounded, classify_bytes. destruct (MAX_TRACKED_TEXT_BYTES <? byte_length bytes)%N; [done|].
  assert (is_lfs_pointer (take (N.to_nat 8000) bytes) = is_lfs_pointer bytes) as ->.
  { destruct (decide (length bytes ≤ N.to_nat 8000)); [by rewrite take_ge|]. unfold is_lfs_pointer, byte_length.
    rewrite length_take. rewrite !(proj2 (N.ltb_ge _ _)) by lia. done. }
  assert (is_binary (take (N.to_nat 8000) bytes) = is_binary bytes) as ->; [|done].
  unfold is_binary. by rewrite take_take, Nat.min_id.
Qed.
