(* ===== verification/HunkDiff.v ===== *)
(** Hunk tracker: diffs (crates/codegen/xai-hunk-tracker/src/diff.rs).

    The line diff is that of the [similar] crate: the argument [changes] is what
    [iter_all_changes] yields, or [None] when the diff took longer than the timeout.
    [None] of [generate_hunk_patch] is the panic of a subtraction below zero. *)
From Stdlib Require Import String Ascii.
From stdpp Require Import gmap.
From S2P Require Import Prelude RustStr HunkTypes.

Definition CONTEXT_LINES : nat := 3.
Definition MAX_DIFF_FILE_SIZE : N := 1024 * 1024.

Inductive ChangeTag := Equal | Delete | Insert.
Definition Change : Type := ChangeTag * str.

(** ** Hunks of a diff *)

Record HunkBuilder := mkBuilder {
  b_old_start : nat;
  b_new_start : nat;
  b_old_lines : list str;
  b_new_lines : list str
}.
Definition builder_new (old_start new_start : nat) : HunkBuilder := mkBuilder old_start new_start [] [].
Definition add_old_line (line : str) (b : HunkBuilder) : HunkBuilder :=
  mkBuilder (b_old_start b) (b_new_start b) (b_old_lines b ++ [line]) (b_new_lines b).
Definition add_new_line (line : str) (b : HunkBuilder) : HunkBuilder :=
  mkBuilder (b_old_start b) (b_new_start b) (b_old_lines b) (b_new_lines b ++ [line]).
Definition build_hunk (fresh : HunkId) (now : Z) (path : str) (source : HunkSource) (b : HunkBuilder) : Hunk :=
  mkHunk fresh path
    (mkLineInfo (b_old_start b) (length (b_old_lines b)) (b_new_start b) (length (b_new_lines b)))
    source
    (match b_old_lines b with [] => None | ls => Some (concat ls) end)
    (concat (b_new_lines b)) None now false.

(** The loop over the changes; [current_hunk] is the hunk under construction. *)
Fixpoint collect_hunks (changes : list Change) (old_line new_line : nat) (current_hunk : option HunkBuilder)
  : list HunkBuilder :=
  match changes with
  | [] => match current_hunk with Some b => [b] | None => [] end
  | (Equal, _) :: cs =>
      (match current_hunk with Some b => [b] | None => [] end) ++ collect_hunks cs (S old_line) (S new_line) None
  | (Delete, v) :: cs =>
      collect_hunks cs (S old_line) new_line
        (Some (add_old_line v (default (builder_new old_line new_line) current_hunk)))
  | (Insert, v) :: cs =>
      collect_hunks cs old_line (S new_line)
        (Some (add_new_line v (default (builder_new old_line new_line) current_hunk)))
  end.
Definition too_large_to_diff (baseline current : str) : bool :=
  (MAX_DIFF_FILE_SIZE <? N.of_nat (utf8_len baseline))%N || (MAX_DIFF_FILE_SIZE <? N.of_nat (utf8_len current))%N.
Definition compute_hunks (changes : option (list Change)) (fresh : HunkId) (now : Z) (path baseline current : str)
  (source : HunkSource) : list Hunk :=
  if str_eqb baseline current then []
  else if too_large_to_diff baseline current then []
  else match changes with
       | None => []
       | Some cs => imap (λ i b, build_hunk (fresh + N.of_nat i)%N now path source b) (collect_hunks cs 1 1 None)
       end.

(** ** Patches *)

Definition patch_lines (content : str) (start_line remove_count : nat) (insert_text : str) : str :=
  let ls := lines content in
  let start_idx := start_line - 1 in
  let end_idx := Nat.min (start_idx + remove_count) (length ls) in
  let result := take (Nat.min start_idx (length ls)) ls
                ++ (if str_eqb insert_text [] then [] else lines insert_text) ++ drop end_idx ls in
  let output := join [NL] result in
  if ends_with [NL] content && negb (str_eqb output []) then output ++ [NL] else output.

(** [for i in a..b { if let Some(line) = lines.get(i) { writeln!(..) } }] *)
Definition context_lines (ls : list str) (a b : nat) : str :=
  concat ((λ l, [chr " "] ++ l ++ [NL]) <$> take (b - a) (drop a ls)).
Definition marked (mark : string) (text : str) : str :=
  concat ((λ l, lit mark ++ l ++ [NL]) <$> lines text).
Definition header (a b c d : nat) : str :=
  lit "@@ -" ++ decimal (N.of_nat a) ++ lit "," ++ decimal (N.of_nat b) ++ lit " +" ++ decimal (N.of_nat c)
  ++ lit "," ++ decimal (N.of_nat d) ++ lit " @@".
Definition sub_opt (a b : nat) : option nat := if (b <=? a)%nat then Some (a - b) else None.
Definition generate_hunk_patch (baseline current : str) (h : Hunk) : option str :=
  let old_lines := lines baseline in
  let new_lines := lines current in
  let old_start_idx := old_start (line_info h) - 1 in
  let new_start_idx := new_start (line_info h) - 1 in
  let context_before_start := old_start_idx - CONTEXT_LINES in
  let context_before_end := old_start_idx in
  let changes_end_new := new_start_idx + new_count (line_info h) in
  let context_after_end := Nat.min (changes_end_new + CONTEXT_LINES) (length new_lines) in
  let changes_end_old := old_start_idx + old_count (line_info h) in
  let context_after_end_old := Nat.min (changes_end_old + CONTEXT_LINES) (length old_lines) in
  after_old ← sub_opt context_after_end_old changes_end_old;
  after_new ← sub_opt context_after_end changes_end_new;
  let before := context_before_end - context_before_start in
  Some (header (context_before_start + 1) (before + old_count (line_info h) + after_old)
          (context_before_start + 1) (before + new_count (line_info h) + after_new) ++ [NL]
        ++ context_lines old_lines context_before_start context_before_end
        ++ (match old_text h with Some t => marked "-" t | None => [] end)
        ++ marked "+" (new_text h)
        ++ context_lines new_lines changes_end_new context_after_end).

(** ** Matching of hunks *)

Definition hunks_match_content (a b : Hunk) : bool :=
  bool_decide (path a = path b) && bool_decide (old_text a = old_text b) && bool_decide (new_text a = new_text b).
Definition hunk_moved (old new : Hunk) : bool :=
  hunks_match_content old new && negb (bool_decide (line_info old = line_info new)).
(** [saturating_add] cannot saturate on counts of lines. *)
Definition hunks_overlap (a b : Hunk) : bool :=
  if negb (bool_decide (path a = path b)) then false
  else
    let a_start := old_start (line_info a) in
    let a_end := a_start + old_count (line_info a) in
    let b_start := old_start (line_info b) in
    let b_end := b_start + old_count (line_info b) in
    if (old_count (line_info a) =? 0)%nat && (old_count (line_info b) =? 0)%nat then (a_start =? b_start)%nat
    else if (old_count (line_info a) =? 0)%nat then (b_start <=? a_start)%nat && (a_start <=? b_end)%nat
    else if (old_count (line_info b) =? 0)%nat then (a_start <=? b_start)%nat && (b_start <=? a_end)%nat
    else negb ((a_end <? b_start)%nat || (b_end <? a_start)%nat).
Definition calculate_overlap_size (a b : HunkLineInfo) : nat :=
  Nat.min (old_start a + old_count a) (old_start b + old_count b) - Nat.max (old_start a) (old_start b).
(** [usize::abs_diff] *)
Definition abs_diff (a b : nat) : nat := (a - b) + (b - a).
(** [Iterator::min_by_key] keeps the first of several minima, [max_by_key] the last of
    several maxima. *)
Definition min_by_key {A} (key : A → nat) (l : list A) : option A :=
  foldl (λ best x, match best with
                   | None => Some x
                   | Some y => if (key x <? key y)%nat then Some x else Some y
                   end) None l.
Definition max_by_key {A} (key : A → nat) (l : list A) : option A :=
  foldl (λ best x, match best with
                   | None => Some x
                   | Some y => if (key y <=? key x)%nat then Some x else Some y
                   end) None l.
Definition find_matching_old_hunk (new_hunk : Hunk) (old_hunks : list Hunk) : option Hunk :=
  match List.filter (λ o, hunks_match_content o new_hunk) old_hunks with
  | [] =>
      max_by_key (λ o, calculate_overlap_size (line_info o) (line_info new_hunk))
        (List.filter (λ o, hunks_overlap o new_hunk) old_hunks)
  | content_matches =>
      min_by_key (λ o, abs_diff (new_start (line_info o)) (new_start (line_info new_hunk))) content_matches
  end.

(** ** Facts on matching *)

(** Choosing the best of a list picks an element of it. *)
Lemma foldl_choice {A} (better : A → A → bool) (l : list A) (start : option A) x :
  foldl (λ best x, match best with
                   | None => Some x
                   | Some y => if better x y then Some x else Some y
                   end) start l = Some x → start = Some x ∨ x ∈ l.
Proof.
  revert start. induction l as [|y l IH]; simpl; intros start Hx; [by left|].
  destruct (IH _ Hx) as [E|Hin]; [|right; by right].
  destruct start as [z|]; [destruct (better y z)|]; simplify_eq; [right; left|by left|right; left].
Qed.

Lemma find_matching_elem n old o : find_matching_old_hunk n old = Some o → o ∈ old.
Proof.
  unfold find_matching_old_hunk. intros H.
  assert (o ∈ List.filter (λ o, hunks_match_content o n) old ∨ o ∈ List.filter (λ o, hunks_overlap o n) old) as Ho.
  { destruct (List.filter (λ o, hunks_match_content o n) old) as [|c cs];
      apply foldl_choice in H as [H|H]; try done; [by right|by left]. }
  rewrite !elem_of_filterb in Ho. naive_solver.
Qed.

(** ** Examples *)

Definition demo_changes : list Change :=
  [(Equal, lit "a" ++ [NL]); (Delete, lit "b" ++ [NL]); (Insert, lit "x" ++ [NL]); (Insert, lit "y" ++ [NL]);
   (Equal, lit "c" ++ [NL]); (Delete, lit "d" ++ [NL])].
Definition demo_old : str := lit "a" ++ [NL] ++ lit "b" ++ [NL] ++ lit "c" ++ [NL] ++ lit "d" ++ [NL].
Definition demo_new : str := lit "a" ++ [NL] ++ lit "x" ++ [NL] ++ lit "y" ++ [NL] ++ lit "c" ++ [NL].
Example demo_hunks : (λ h, (line_info h, old_text h, new_text h)) <$> compute_hunks (Some demo_changes) 0%N 0%Z (lit "/f") demo_old demo_new External
  = [(mkLineInfo 2 1 2 2, Some (lit "b" ++ [NL]), lit "x" ++ [NL] ++ lit "y" ++ [NL]);
     (mkLineInfo 4 1 5 0, Some (lit "d" ++ [NL]), [])].
Proof. vm_compute. reflexivity. Qed.
(** The patch of a second hunk states the line of the old file for the new one too: the
    context before line 4 of the old file starts at line 1, that before line 5 of the new
    file at line 2. *)
Example second_hunk_header :
  (h ← compute_hunks (Some demo_changes) 0%N 0%Z (lit "/f") demo_old demo_new External !! 1;
   p ← generate_hunk_patch demo_old demo_new h; Some (take 15 p)) = Some (lit "@@ -1,4 +1,3 @@").
Proof. vm_compute. reflexivity. Qed.
(** Text without a final newline, against the same text with one: patching either hunk
    leaves the text as it was. *)
Example final_newline_kept :
  patch_lines (lit "a" ++ [NL] ++ lit "b") 2 1 (lit "b" ++ [NL]) = lit "a" ++ [NL] ++ lit "b"
  ∧ patch_lines (lit "a" ++ [NL] ++ lit "b" ++ [NL]) 2 1 (lit "b") = lit "a" ++ [NL] ++ lit "b" ++ [NL].
Proof. split; vm_compute; reflexivity. Qed.
(** Two patches in a row around a blank line lose it. *)
Example blank_line_lost :
  patch_lines (patch_lines ([NL] ++ lit "y" ++ [NL]) 2 1 []) 1 0 (lit "x" ++ [NL]) = lit "x".
Proof. vm_compute. reflexivity. Qed.
