(* ===== verification/HunkPatch.v ===== *)
(** Hunk tracker: hunks are the diff, and patching with them.

    A hunk is a replacement of lines: [hunk_repl] of the baseline, [hunk_undo] of the
    current content.  Replacing is the [splice] of PatchApply, of lines with their ends. *)
From Stdlib Require Import String Ascii.
From stdpp Require Import gmap.
From S2P Require Import Prelude RustStr PatchApply HunkTypes HunkDiff.

(** ** What a diff is *)

(** The old and the new file of a list of changes. *)
Definition old_side (cs : list Change) : list str :=
  omap (λ '(tag, v), match tag with Insert => None | _ => Some v end) cs.
Definition new_side (cs : list Change) : list str :=
  omap (λ '(tag, v), match tag with Delete => None | _ => Some v end) cs.

(** [str::split_inclusive('\n')]: the lines with their ends. *)
Fixpoint split_inclusive (s : str) : list str :=
  match s with
  | [] => []
  | x :: s' =>
      if (x =? NL)%N then [x] :: split_inclusive s'
      else match split_inclusive s' with
           | [] => [[x]]
           | w :: ws => (x :: w) :: ws
           end
  end.

Definition block (b : HunkBuilder) : Replacement := (b_old_start b - 1, length (b_old_lines b), b_new_lines b).
Definition hunk_repl (h : Hunk) : Replacement :=
  (old_start (line_info h) - 1, old_count (line_info h), split_inclusive (new_text h)).
Definition hunk_undo (h : Hunk) : Replacement :=
  (new_start (line_info h) - 1, new_count (line_info h), split_inclusive (default [] (old_text h))).

(** ** The blocks of a diff *)

(** [blocks o n bs old new]: from line [o] of the old and line [n] of the new file on, the
    files are [old] and [new], equal but for the blocks [bs], between which at least one
    line is equal. *)
Inductive blocks : nat → nat → list HunkBuilder → list str → list str → Prop :=
| blocks_nil o n ls : blocks o n [] ls ls
| blocks_cons o n same b bs old new :
    b_old_start b = o + length same → b_new_start b = n + length same →
    Forall (λ b', b_old_start b + length (b_old_lines b) < b_old_start b'
                  ∧ b_new_start b + length (b_new_lines b) < b_new_start b') bs →
    blocks (b_old_start b + length (b_old_lines b)) (b_new_start b + length (b_new_lines b)) bs old new →
    blocks o n (b :: bs) (same ++ b_old_lines b ++ old) (same ++ b_new_lines b ++ new).

Lemma blocks_ge o n bs old new : blocks o n bs old new → Forall (λ b, o ≤ b_old_start b ∧ n ≤ b_new_start b) bs.
Proof.
  induction 1 as [|o n same b bs old new Ho Hn Hlt _ IH]; [constructor|]. constructor; [lia|].
  eapply Forall_impl; [exact IH|]. simpl. lia.
Qed.
Lemma blocks_equal o n v bs old new : blocks (S o) (S n) bs old new → blocks o n bs (v :: old) (v :: new).
Proof.
  inversion 1 as [|o' n' same b bs' old' new' Ho Hn Hlt Hbs]; subst; [constructor|].
  apply (blocks_cons o n (v :: same)); simpl; [lia|lia|done..].
Qed.

(** The loop of [compute_hunks] cuts the diff into its blocks. *)
Lemma collect_blocks cs :
  (∀ o n, blocks o n (collect_hunks cs o n None) (old_side cs) (new_side cs))
  ∧ ∀ b, blocks (b_old_start b) (b_new_start b)
           (collect_hunks cs (b_old_start b + length (b_old_lines b)) (b_new_start b + length (b_new_lines b)) (Some b))
           (b_old_lines b ++ old_side cs) (b_new_lines b ++ new_side cs).
Proof.
  induction cs as [|[tag v] cs [IHn IHs]].
  - split; [constructor|]. intros b. apply (blocks_cons _ _ []); simpl; [lia|lia|constructor..].
  - assert (IHold : ∀ b, blocks (b_old_start b) (b_new_start b)
       (collect_hunks cs (S (b_old_start b + length (b_old_lines b))) (b_new_start b + length (b_new_lines b))
          (Some (add_old_line v b))) (b_old_lines b ++ v :: old_side cs) (b_new_lines b ++ new_side cs)).
    { intros b. specialize (IHs (add_old_line v b)). simpl in IHs. rewrite length_app, <- app_assoc in IHs. simpl in IHs.
      by replace (S (b_old_start b + length (b_old_lines b))) with (b_old_start b + (length (b_old_lines b) + 1)) by lia. }
    assert (IHnew : ∀ b, blocks (b_old_start b) (b_new_start b)
       (collect_hunks cs (b_old_start b + length (b_old_lines b)) (S (b_new_start b + length (b_new_lines b)))
          (Some (add_new_line v b))) (b_old_lines b ++ old_side cs) (b_new_lines b ++ v :: new_side cs)).
    { intros b. specialize (IHs (add_new_line v b)). simpl in IHs. rewrite length_app, <- app_assoc in IHs. simpl in IHs.
      by replace (S (b_new_start b + length (b_new_lines b))) with (b_new_start b + (length (b_new_lines b) + 1)) by lia. }
    destruct tag; cbn [collect_hunks old_side new_side omap list_omap]; fold (old_side cs) (new_side cs); split.
    + intros o n. apply blocks_equal, IHn.
    + intros b. apply (blocks_cons _ _ []); simpl; [lia|lia| |by apply blocks_equal].
      eapply Forall_impl; [eapply blocks_ge, IHn|]. simpl. lia.
    + intros o n. specialize (IHold (builder_new o n)). simpl in IHold. by rewrite !Nat.add_0_r in IHold.
    + apply IHold.
    + intros o n. specialize (IHnew (builder_new o n)). simpl in IHnew. by rewrite !Nat.add_0_r in IHnew.
    + apply IHnew.
Qed.

(** A diff read backwards. *)
Definition flip (b : HunkBuilder) : HunkBuilder :=
  mkBuilder (b_new_start b) (b_old_start b) (b_new_lines b) (b_old_lines b).
Lemma blocks_flip o n bs old new : blocks o n bs old new → blocks n o (flip <$> bs) new old.
Proof.
  induction 1 as [|o n same b bs old new Ho Hn Hlt _ IH]; [constructor|].
  rewrite fmap_cons. apply (blocks_cons n o same (flip b)); try done. rewrite Forall_fmap. eapply Forall_impl; [exact Hlt|].
  simpl. tauto.
Qed.

Lemma blocks_splice o n bs old new pre : blocks o n bs old new → o = S (length pre) →
  disjoint (length pre) (block <$> bs) (length (pre ++ old)) ∧ splice (length pre) (block <$> bs) (pre ++ old) = new.
Proof.
  intros H. revert pre. induction H as [o n ls|o n same b bs old new Ho Hn Hlt _ IH]; intros pre Hpre; simpl.
  - rewrite length_app, drop_app_length. split; [lia|done].
  - specialize (IH (pre ++ same ++ b_old_lines b)). rewrite !length_app in IH. destruct IH as [Hd Hs]; [lia|].
    unfold r_start, r_len, r_new, block at 1 3 5. simpl. rewrite Ho, Hpre.
    replace (S (length pre) + length same - 1) with (length pre + length same) by lia.
    rewrite <- !app_assoc in Hs. rewrite <- !Nat.add_assoc in *. rewrite !length_app.
    split; [split; [lia|exact Hd]|]. change (list_fmap _ _ block bs) with (block <$> bs). rewrite Hs.
    rewrite drop_app_length, Nat.add_comm, Nat.add_sub, take_app_length. done.
Qed.

Lemma blocks_ascend o n bs old new : blocks o n bs old new → StronglySorted lt (b_old_start <$> bs).
Proof.
  induction 1 as [|o n same b bs old new Ho Hn Hlt _ IH]; [constructor|]. rewrite fmap_cons. constructor; [done|].
  rewrite Forall_fmap. eapply Forall_impl; [exact Hlt|]. simpl. lia.
Qed.

(** The lines of a block are consecutive lines of the file. *)
Lemma blocks_segment o n bs old new b : blocks o n bs old new → b ∈ bs → ∃ x y, new = x ++ b_new_lines b ++ y.
Proof.
  induction 1 as [|o n same b' bs old new Ho Hn Hlt _ IH]; intros Hb; [by apply elem_of_nil in Hb|].
  apply elem_of_cons in Hb as [->|(x & y & ->)%IH]; [by exists same, new|].
  exists (same ++ b_new_lines b' ++ x), y. by rewrite <- !app_assoc.
Qed.

(** ** Lines with their ends *)

Definition terminated (w : str) : Prop := ∃ w', w = w' ++ [NL] ∧ NL ∉ w'.
(** What [split_inclusive] yields: only the last line may lack its end. *)
Fixpoint inclusive (ls : list str) : Prop :=
  match ls with
  | [] => True
  | [w] => terminated w ∨ (w ≠ [] ∧ NL ∉ w)
  | w :: ls' => terminated w ∧ inclusive ls'
  end.

Lemma split_inclusive_line w s : NL ∉ w → split_inclusive (w ++ NL :: s) = (w ++ [NL]) :: split_inclusive s.
Proof.
  induction w as [|x w IH]; intros Hw; simpl; [done|]. apply not_elem_of_cons in Hw as [Hx Hw].
  rewrite (proj2 (N.eqb_neq x NL)) by done. by rewrite IH.
Qed.
Lemma split_inclusive_rest w : NL ∉ w → w ≠ [] → split_inclusive w = [w].
Proof.
  induction w as [|x w IH]; intros Hw Hne; [done|]. simpl. apply not_elem_of_cons in Hw as [Hx Hw].
  rewrite (proj2 (N.eqb_neq x NL)) by done. destruct w as [|y w]; [done|]. by rewrite IH.
Qed.

Lemma concat_split_inclusive s : concat (split_inclusive s) = s.
Proof.
  induction s as [|x s IH]; simpl; [done|]. destruct (N.eqb_spec x NL) as [->|Hx]; simpl; [by rewrite IH|].
  destruct (split_inclusive s); simpl in *; by rewrite <- IH.
Qed.
Lemma inclusive_cons w ls : inclusive ls → terminated w → inclusive (w :: ls).
Proof. destruct ls; simpl; [by left|done]. Qed.
Lemma inclusive_split s : inclusive (split_inclusive s).
Proof.
  induction s as [|x s IH]; simpl; [done|]. destruct (N.eqb_spec x NL) as [->|Hx].
  - apply inclusive_cons; [done|]. exists []. split; [done|]. apply not_elem_of_nil.
  - assert (Ht : ∀ w, terminated w → terminated (x :: w)).
    { intros w (w' & -> & Hw'). exists (x :: w'). split; [done|]. by apply not_elem_of_cons. }
    destruct (split_inclusive s) as [|w [|w2 ws]]; simpl in *.
    + right. split; [done|]. by apply not_elem_of_cons; split; [|apply not_elem_of_nil].
    + destruct IH as [?|[? ?]]; [left; auto|right]. split; [done|]. by apply not_elem_of_cons.
    + destruct IH. auto.
Qed.
Lemma split_concat ls : inclusive ls → split_inclusive (concat ls) = ls.
Proof.
  induction ls as [|w ls IH]; [done|]. intros Hls. simpl concat.
  assert (terminated w ∧ inclusive ls ∨ ls = [] ∧ w ≠ [] ∧ NL ∉ w) as [[(w' & -> & Hw) Hr]|(-> & Hne & Hw)].
  { destruct ls; simpl in *; naive_solver. }
  - rewrite <- app_assoc. simpl. by rewrite split_inclusive_line, IH.
  - simpl. by rewrite app_nil_r, split_inclusive_rest.
Qed.
Lemma inclusive_app a b : inclusive (a ++ b) → inclusive a ∧ inclusive b.
Proof.
  induction a as [|w a IH]; simpl; [done|]. intros H.
  destruct a as [|w' a]; simpl in *; [|destruct H as [? ?]; destruct IH; done].
  destruct b; simpl in *; [done|]. destruct H. split; [by left|done].
Qed.
Lemma split_segment s x m y : split_inclusive s = x ++ m ++ y → split_inclusive (concat m) = m.
Proof.
  intros E. apply split_concat. pose proof (inclusive_split s) as H. rewrite E in H.
  apply inclusive_app in H as [_ H]. by apply inclusive_app in H as [H _].
Qed.

(** ** Hunks and blocks *)

Section Diff.
Context (cs : list Change) (fresh : HunkId) (now : Z) (p b c : str) (src : HunkSource).
Hypothesis (Hold : old_side cs = split_inclusive b) (Hnew : new_side cs = split_inclusive c).
Hypothesis (Hne : b ≠ c) (Hsize : too_large_to_diff b c = false).
Let bs := collect_hunks cs 1 1 None.
Let hs := compute_hunks (Some cs) fresh now p b c src.

Lemma diff_blocks : blocks 1 1 bs (split_inclusive b) (split_inclusive c).
Proof using Hold Hnew. rewrite <- Hold, <- Hnew. apply collect_blocks. Qed.
Lemma hunks_of_blocks : hs = imap (λ i, build_hunk (fresh + N.of_nat i)%N now p src) bs.
Proof using Hne Hsize.
  unfold hs, compute_hunks. rewrite (proj2 (str_eqb_neq b c)) by done. by rewrite Hsize.
Qed.
Lemma hunks_nonempty : hs ≠ [].
Proof using All.
  rewrite hunks_of_blocks. pose proof diff_blocks as H. destruct bs as [|b0 bs']; [|done]. inversion H; subst.
  intros _. apply Hne. rewrite <- (concat_split_inclusive b), <- (concat_split_inclusive c). by f_equal.
Qed.
(** A reading of hunks that does not look at the id is a reading of blocks. *)
Lemma hunks_fmap {B} (f : Hunk → B) (g : HunkBuilder → B) :
  (∀ n x, x ∈ bs → f (build_hunk n now p src x) = g x) → f <$> hs = g <$> bs.
Proof using Hne Hsize.
  intros Hfg. rewrite hunks_of_blocks. apply list_eq. intros i. rewrite !list_lookup_fmap, list_lookup_imap.
  destruct (bs !! i) eqn:Ei; simpl; [|done]. f_equal. apply Hfg. by eapply list_elem_of_lookup_2.
Qed.
Lemma hunks_repl : hunk_repl <$> hs = block <$> bs.
Proof using All.
  apply hunks_fmap. intros n x Hx. unfold hunk_repl, block. simpl.
  destruct (blocks_segment _ _ _ _ _ _ diff_blocks Hx) as (u & v & E). by rewrite (split_segment _ _ _ _ E).
Qed.
Lemma hunks_undo : hunk_undo <$> hs = block <$> (flip <$> bs).
Proof using All.
  rewrite <- list_fmap_compose. apply hunks_fmap. intros n x Hx. unfold hunk_undo, block. simpl.
  destruct (blocks_segment _ _ _ _ _ (flip x) (blocks_flip _ _ _ _ _ diff_blocks)) as (u & v & E);
    [by apply list_elem_of_fmap_2|]. simpl in E.
  replace (default [] _) with (concat (b_old_lines x)) by (by destruct (b_old_lines x)).
  by rewrite (split_segment _ _ _ _ E).
Qed.
Lemma hunks_old_ascend : StronglySorted lt ((λ h, old_start (line_info h)) <$> hs).
Proof using All. rewrite (hunks_fmap _ b_old_start); [|done]. eapply blocks_ascend, diff_blocks. Qed.
Lemma hunks_new_ascend : StronglySorted lt ((λ h, new_start (line_info h)) <$> hs).
Proof using All.
  rewrite (hunks_fmap _ (λ b, b_old_start (flip b))); [|done]. rewrite (list_fmap_compose flip b_old_start).
  eapply blocks_ascend, blocks_flip, diff_blocks.
Qed.
Lemma hunks_splice :
  disjoint 0 (hunk_repl <$> hs) (length (split_inclusive b)) ∧ splice 0 (hunk_repl <$> hs) (split_inclusive b) = split_inclusive c.
Proof using All. rewrite hunks_repl. by apply (blocks_splice 1 1 _ _ _ [] diff_blocks). Qed.
Lemma hunks_unsplice :
  disjoint 0 (hunk_undo <$> hs) (length (split_inclusive c)) ∧ splice 0 (hunk_undo <$> hs) (split_inclusive c) = split_inclusive b.
Proof using All. rewrite hunks_undo. by apply (blocks_splice 1 1 _ _ _ [] (blocks_flip _ _ _ _ _ diff_blocks)). Qed.
End Diff.

(** C35: the hunks of two texts are their difference: for any line diff of the two texts,
    the hunks are not none, they replace lines of the baseline in ascending order without
    overlap, and replacing these lines by the new text of the hunks gives the current
    content; replacing, in the current content, the lines of the hunks by their old text
    gives the baseline back. *)
Theorem hunks_are_diff cs fresh now p b c src :
  old_side cs = split_inclusive b → new_side cs = split_inclusive c → b ≠ c → too_large_to_diff b c = false →
  let hs := compute_hunks (Some cs) fresh now p b c src in
  hs ≠ []
  ∧ (disjoint 0 (hunk_repl <$> hs) (length (split_inclusive b))
     ∧ concat (splice 0 (hunk_repl <$> hs) (split_inclusive b)) = c)
  ∧ (disjoint 0 (hunk_undo <$> hs) (length (split_inclusive c))
     ∧ concat (splice 0 (hunk_undo <$> hs) (split_inclusive c)) = b).
Proof.
  intros Hold Hnew Hne Hsize. cbn zeta. split; [by apply hunks_nonempty|].
  destruct (hunks_splice cs fresh now p b c src Hold Hnew Hne Hsize) as [Hd ->].
  destruct (hunks_unsplice cs fresh now p b c src Hold Hnew Hne Hsize) as [Hd' ->].
  by rewrite !concat_split_inclusive.
Qed.
Lemma hunks_are_diff_witness :
  let hs := compute_hunks (Some demo_changes) 0%N 0%Z (lit "/f") demo_old demo_new External in
  concat (splice 0 (hunk_repl <$> hs) (split_inclusive demo_old)) = demo_new ∧ length hs = 2.
Proof.
  split; [|by vm_compute]. apply (hunks_are_diff demo_changes); [vm_compute; reflexivity..|done|vm_compute; reflexivity].
Defined.
