(* ===== verification/HunkTracker.v ===== *)
(** Hunk tracker: the actor (crates/codegen/xai-hunk-tracker/src/actor/).

    The actor owns the state of every tracked file and handles one command at a time.  A
    [Tracker] is its state with what it shares with the rest of the system: the disk and
    the git repository it reads ([disk]), the events it has sent ([events]) and the number
    of hunk ids made so far ([next_id]).  Operations take and return a [Tracker]; file
    contents, git and the diff come from the interface [Host].  The world is that of the
    start of an operation, but for the operation's own writes: it may change in any way
    between two operations.  Blocking tasks run to their end, and the receiver of the
    events is alive. *)
From Stdlib Require Import String Ascii.
From stdpp Require Import gmap.
From S2P Require Import Prelude RustStr LexPath HashIter HunkTypes HunkDiff.

(** ** The host *)

Record StatusItem := mkItem { item_location : str; item_is_tree_index : bool }.
Inductive HeadEntry := HeadLink | HeadBlob (bytes : list N).

(** The disk and git, as the tracker uses them: [similar]'s line diff ([None] on timeout),
    the clock, the file system ([fs_write] and [remove_file] give the new world and the
    error, if any) and the [gix] repository behind a handle of type [R]. *)
Class Host (D R : Type) := {
  text_diff : D → str → str → option (list Change);
  clock : D → Z;
  disk_entry : D → str → option DiskEntry;
  path_exists : D → str → bool;
  path_is_dir : D → str → bool;
  fs_write : D → str → str → D * option str;
  remove_file : D → str → D * option str;
  canonicalize : D → str → option str;
  discover : D → str → option R;
  workdir : R → option str;
  index_len : D → R → option N;
  index_modified : D → R → option Z;
  head_commit : D → R → option str;
  head_lookup : D → R → str → option HeadEntry;
  git_status : D → R → list str → option (list (option StatusItem))
}.

(** ** State *)

Inductive GitRepoState (R : Type) :=
| Unknown
| NotARepo
| Discovered (repo : R) (prefix : str).
Arguments Unknown {R}.
Arguments NotARepo {R}.
Arguments Discovered {R} _ _.

Record RepoSyncState := mkSync { head_oid : option str; index_mtime : option Z }.
#[export] Instance RepoSyncState_eq_dec : EqDecision RepoSyncState.
Proof. solve_decision. Defined.
Definition default_sync : RepoSyncState := mkSync None None.

Record Tracker (D R : Type) := mkTracker {
  working_dir : str;
  file_states : gmap str FileHunkState;
  turn_index : gmap N (gset HunkId);
  git_dirty_cache : gset str;
  git_staged_cache : gset str;
  git_repo_state : GitRepoState R;
  repo_sync_state : RepoSyncState;
  mode : TrackingMode;
  session_stats : SessionStats;
  next_id : HunkId;
  events : list HunkEvent;
  disk : D
}.
Arguments mkTracker {D R} _ _ _ _ _ _ _ _ _ _ _ _.
Arguments working_dir {D R} _.
Arguments file_states {D R} _.
Arguments turn_index {D R} _.
Arguments git_dirty_cache {D R} _.
Arguments git_staged_cache {D R} _.
Arguments git_repo_state {D R} _.
Arguments repo_sync_state {D R} _.
Arguments mode {D R} _.
Arguments session_stats {D R} _.
Arguments next_id {D R} _.
Arguments events {D R} _.
Arguments disk {D R} _.

Section Actor.
Context {D R : Type} {Hhost : Host D R} {Hord : HashOrder}.
Local Abbreviation Tracker := (Tracker D R).
Implicit Types (t : Tracker).

Definition set_files (m : gmap str FileHunkState) t : Tracker :=
  mkTracker (working_dir t) m (turn_index t) (git_dirty_cache t) (git_staged_cache t) (git_repo_state t)
    (repo_sync_state t) (mode t) (session_stats t) (next_id t) (events t) (disk t).
Definition set_turn_index (ti : gmap N (gset HunkId)) t : Tracker :=
  mkTracker (working_dir t) (file_states t) ti (git_dirty_cache t) (git_staged_cache t) (git_repo_state t)
    (repo_sync_state t) (mode t) (session_stats t) (next_id t) (events t) (disk t).
Definition set_caches (dirty staged : gset str) t : Tracker :=
  mkTracker (working_dir t) (file_states t) (turn_index t) dirty staged (git_repo_state t)
    (repo_sync_state t) (mode t) (session_stats t) (next_id t) (events t) (disk t).
Definition set_repo (g : GitRepoState R) t : Tracker :=
  mkTracker (working_dir t) (file_states t) (turn_index t) (git_dirty_cache t) (git_staged_cache t) g
    (repo_sync_state t) (mode t) (session_stats t) (next_id t) (events t) (disk t).
Definition set_sync (s : RepoSyncState) t : Tracker :=
  mkTracker (working_dir t) (file_states t) (turn_index t) (git_dirty_cache t) (git_staged_cache t)
    (git_repo_state t) s (mode t) (session_stats t) (next_id t) (events t) (disk t).
Definition put_mode (m : TrackingMode) t : Tracker :=
  mkTracker (working_dir t) (file_states t) (turn_index t) (git_dirty_cache t) (git_staged_cache t)
    (git_repo_state t) (repo_sync_state t) m (session_stats t) (next_id t) (events t) (disk t).
Definition set_stats (s : SessionStats) t : Tracker :=
  mkTracker (working_dir t) (file_states t) (turn_index t) (git_dirty_cache t) (git_staged_cache t)
    (git_repo_state t) (repo_sync_state t) (mode t) s (next_id t) (events t) (disk t).
Definition set_next_id (n : HunkId) t : Tracker :=
  mkTracker (working_dir t) (file_states t) (turn_index t) (git_dirty_cache t) (git_staged_cache t)
    (git_repo_state t) (repo_sync_state t) (mode t) (session_stats t) n (events t) (disk t).
Definition send_events (es : list HunkEvent) t : Tracker :=
  mkTracker (working_dir t) (file_states t) (turn_index t) (git_dirty_cache t) (git_staged_cache t)
    (git_repo_state t) (repo_sync_state t) (mode t) (session_stats t) (next_id t) (events t ++ es) (disk t).
Definition set_disk (d : D) t : Tracker :=
  mkTracker (working_dir t) (file_states t) (turn_index t) (git_dirty_cache t) (git_staged_cache t)
    (git_repo_state t) (repo_sync_state t) (mode t) (session_stats t) (next_id t) (events t) d.

Definition send_event (e : HunkEvent) t : Tracker := send_events [e] t.
Definition put_file (p : str) (s : FileHunkState) t : Tracker := set_files (<[p := s]> (file_states t)) t.
Definition remove_path (p : str) t : Tracker := set_files (delete p (file_states t)) t.
Definition tracked (p : str) t : bool := bool_decide (is_Some (file_states t !! p)).

Definition new_tracker (wd : str) (m : TrackingMode) (first_id : HunkId) (d : D) : Tracker :=
  mkTracker wd ∅ ∅ ∅ ∅ Unknown default_sync m default_stats first_id [] d.

(** ** Recomputation of hunks (actor/hunks.rs) *)

Definition remove_from_turn_index (hunk_id : HunkId) (s : HunkSource) (ti : gmap N (gset HunkId))
  : gmap N (gset HunkId) :=
  match prompt_index s with
  | Some p => match ti !! p with Some ids => <[p := ids ∖ {[hunk_id]}]> ti | None => ti end
  | None => ti
  end.
Definition unindex (ti : gmap N (gset HunkId)) (h : Hunk) : gmap N (gset HunkId) :=
  remove_from_turn_index (id h) (source h) ti.
Definition index (ti : gmap N (gset HunkId)) (h : Hunk) : gmap N (gset HunkId) :=
  match prompt_index (source h) with
  | Some p => <[p := {[id h]} ∪ default ∅ (ti !! p)]> ti
  | None => ti
  end.

Definition fresh_hunks (d : D) (fresh : HunkId) (path : str) (baseline current : FileContentState)
  (source : HunkSource) : list Hunk :=
  match baseline, current with
  | Full b, Full c => compute_hunks (text_diff d b c) fresh (clock d) path b c source
  | Full b, Missing => if str_eqb b [] then [] else [file_deleted fresh (clock d) path b source]
  | Missing, Full c => if str_eqb c [] then [] else [file_created fresh (clock d) path c source]
  | _, _ => []
  end.

Definition inherit (best_match new_hunk : Hunk) : Hunk :=
  mkHunk (id best_match) (path new_hunk) (line_info new_hunk)
    (if is_external (source new_hunk) && is_agent_edit (source best_match)
     then source best_match else source new_hunk)
    (old_text new_hunk) (new_text new_hunk) (patch new_hunk) (created_at new_hunk) (selected new_hunk).
Fixpoint claim_ids (claimed_old_ids : gset HunkId) (old_hunks new_hunks : list Hunk) : list Hunk :=
  match new_hunks with
  | [] => []
  | n :: ns =>
      match find_matching_old_hunk n old_hunks with
      | Some best_match =>
          if bool_decide (id best_match ∈ claimed_old_ids) then n :: claim_ids claimed_old_ids old_hunks ns
          else inherit best_match n :: claim_ids ({[id best_match]} ∪ claimed_old_ids) old_hunks ns
      | None => n :: claim_ids claimed_old_ids old_hunks ns
      end
  end.

Definition removal_event (path : str) (reason : HunkRemovalReason) (h : Hunk) : HunkEvent :=
  HunkRemoved path (id h) reason.
Definition change_event (path : str) (old_hunks : list Hunk) (trigger_source : HunkSource) (new_hunk : Hunk)
  : list HunkEvent :=
  match List.find (λ o, hunks_match_content o new_hunk) old_hunks with
  | Some old_hunk =>
      if hunk_moved old_hunk new_hunk then [HunkMoved path (id old_hunk) (line_info new_hunk)] else []
  | None =>
      match List.find (λ o, hunks_overlap o new_hunk) old_hunks with
      | None => [HunkAdded path new_hunk]
      | Some overlapping =>
          let prev := match List.find (λ o, (id o =? id new_hunk)%N) old_hunks with
                      | Some o => o | None => overlapping end in
          [HunkContentChanged path new_hunk trigger_source (new_count (line_info prev))
             (old_count (line_info prev))]
      end
  end.
Definition emit_hunk_diff_events (path : str) (old_hunks new_hunks : list Hunk) (trigger_source : HunkSource)
  : list HunkEvent :=
  (removal_event path Superseded <$>
     List.filter (λ o, negb (existsb (λ n, hunks_overlap o n || hunks_match_content o n) new_hunks)) old_hunks)
  ++ (new_hunks ≫= change_event path old_hunks trigger_source).

Definition recompute_hunks (path : str) (new_current : option FileContentState) (source : HunkSource) t : Tracker :=
  match file_states t !! path with
  | None => t
  | Some s =>
      let old_hunks := hunks s in
      let current := default missing_content new_current in
      let fresh := fresh_hunks (disk t) (next_id t) path (baseline s) current source in
      let new_hunks := claim_ids ∅ old_hunks fresh in
      send_events (emit_hunk_diff_events path old_hunks new_hunks source)
        (set_turn_index (foldl index (foldl unindex (turn_index t) old_hunks) new_hunks)
          (set_next_id (next_id t + N.of_nat (length fresh))%N
            (put_file path (set_hunks new_hunks (set_current current s)) t)))
  end.

(** ** Git (actor/git.rs) *)

Definition open_or_discover (d : D) (cached_state : GitRepoState R) (wd : str)
  : option (R * str * option (R * str)) :=
  match cached_state with
  | Discovered repo prefix => Some (repo, prefix, None)
  | Unknown =>
      repo ← discover d wd;
      repo_root ← workdir repo;
      prefix ← path_strip_prefix (default wd (canonicalize d wd)) (default repo_root (canonicalize d repo_root));
      Some (repo, prefix, Some (repo, prefix))
  | NotARepo => None
  end.
(** Discovery gave no repository: the result to cache. *)
Definition not_discovered (cached_state : GitRepoState R) : option (option (R * str)) :=
  match cached_state with Unknown => Some None | _ => None end.
Definition cache_discovery (discovered : option (option (R * str))) t : Tracker :=
  match discovered with
  | Some (Some (repo, prefix)) => set_repo (Discovered repo prefix) t
  | Some None => set_repo NotARepo t
  | None => t
  end.
Definition is_not_a_repo (g : GitRepoState R) : bool := match g with NotARepo => true | _ => false end.

Definition canonicalize_or_parent (d : D) (path : str) : str :=
  match canonicalize d path with
  | Some c => c
  | None => default path (p ← path_parent path; cp ← canonicalize d p; f ← file_name path; Some (path_join cp f))
  end.
(** The content of a path in the HEAD tree. *)
Definition head_content (d : D) (repo : R) (prefix wd path : str) : FileContentState :=
  default missing_content
    (rel ← path_strip_prefix (canonicalize_or_parent d path) (default wd (canonicalize d wd));
     e ← head_lookup d repo (path_join prefix rel);
     Some (match e with HeadLink => Symlink | HeadBlob bytes => classify_bytes bytes end)).

Definition read_baseline (path : str) t : Tracker * FileContentState :=
  if is_not_a_repo (git_repo_state t) then (t, missing_content)
  else match open_or_discover (disk t) (git_repo_state t) (working_dir t) with
       | None => (cache_discovery (not_discovered (git_repo_state t)) t, missing_content)
       | Some (repo, prefix, discovered) =>
           (cache_discovery (Some <$> discovered) t, head_content (disk t) repo prefix (working_dir t) path)
       end.
Definition baseline_map (f : str → FileContentState) (paths : list str) : gmap str FileContentState :=
  foldl (λ m p, <[p := f p]> m) ∅ paths.
Definition read_baselines_batch (paths : list str) t : Tracker * gmap str FileContentState :=
  if bool_decide (paths = []) || is_not_a_repo (git_repo_state t) then (t, ∅)
  else match open_or_discover (disk t) (git_repo_state t) (working_dir t) with
       | None => (cache_discovery (not_discovered (git_repo_state t)) t,
                  baseline_map (λ _, missing_content) paths)
       | Some (repo, prefix, discovered) =>
           (cache_discovery (Some <$> discovered) t,
            baseline_map (head_content (disk t) repo prefix (working_dir t)) paths)
       end.
Definition read_repo_sync_state t : Tracker * option RepoSyncState :=
  if is_not_a_repo (git_repo_state t) then (t, None)
  else match open_or_discover (disk t) (git_repo_state t) (working_dir t) with
       | None => (cache_discovery (not_discovered (git_repo_state t)) t, None)
       | Some (repo, _, discovered) =>
           (cache_discovery (Some <$> discovered) t,
            Some (mkSync (head_commit (disk t) repo) (index_modified (disk t) repo)))
       end.

(** The path the git caches know a file by. *)
Definition cache_key t (path : str) : str := default path (path_strip_prefix path (working_dir t)).
Definition git_dirty t (path : str) : bool := bool_decide (cache_key t path ∈ git_dirty_cache t).

(** ** File changes (actor/mutations.rs) *)

Definition strip_single_trailing_newline (content : str) : str :=
  match strip_suffix [CR; NL] content with
  | Some c => c
  | None => default content (strip_suffix [NL] content)
  end.
Definition same_text (a b : str) : bool :=
  str_eqb (strip_single_trailing_newline a) (strip_single_trailing_newline b).

Definition record_agent_write (path content : str) (prompt : N) (previous_content : option str) t : Tracker :=
  let current_state := classify_string content in
  if negb (is_diffable current_state) then
    match file_states t !! path with
    | None =>
        let '(t, b) := match previous_content with
                       | Some prev => (t, classify_string prev)
                       | None => read_baseline path t
                       end in
        send_event (FileAdded path true) (put_file path (new_file_state b current_state true) t)
    | Some s => put_file path (set_hunks [] (set_current current_state (set_agent_file s))) t
    end
  else
    let t := match file_states t !! path with
             | None =>
                 let '(t, head) := read_baseline path t in
                 let b := match head with
                          | Missing => match previous_content with
                                       | Some prev => classify_string prev
                                       | None => missing_content
                                       end
                          | other => other
                          end in
                 send_event (FileAdded path true) (put_file path (new_file_state b current_state true) t)
             | Some s => put_file path (set_agent_file s) t
             end in
    recompute_hunks path (Some current_state) (AgentEdit prompt) t.

(** The baseline read ahead, or else from git. *)
Definition take_baseline (path : str) (preloaded : option FileContentState) t : Tracker * FileContentState :=
  match preloaded with Some b => (t, b) | None => read_baseline path t end.
(** Neither in HEAD nor dirty: ignored by git. *)
Definition ignored_path (path : str) (b : FileContentState) t : bool :=
  bool_decide (mode t = AllDirty) && (match b with Missing => true | _ => false end)
  && negb (path_is_dir (disk t) path) && negb (git_dirty t path).
Definition file_source (path : str) t : HunkSource :=
  match file_states t !! path with
  | Some s => if is_agent_file s then ExternalEditOnAgentFile else External
  | None => External
  end.
Definition content_matches_head (path : str) (current head : FileContentState) t : bool :=
  match current, head with
  | Full c, Full h => same_text c h
  | Missing, Missing | Binary _, Binary _ | TooLarge _, TooLarge _ | LfsPointer _, LfsPointer _
  | Symlink, Symlink => true
  | Symlink, Full _ | Full _, Symlink => negb (git_dirty t path)
  | _, _ => false
  end.

Definition process_file_change (path : str) (preloaded : option FileContentState) t : Tracker :=
  match file_states t !! path with
  | None =>
      if bool_decide (mode t = AgentOnly) then t
      else
        let current_state := read_file_bounded (disk_entry (disk t) path) in
        let '(t, b) := take_baseline path preloaded t in
        if ignored_path path b t then t
        else if negb (is_diffable current_state) then
          let t := send_event (FileAdded path false) (put_file path (new_file_state b current_state false) t) in
          if is_diffable b then recompute_hunks path None External t else t
        else
          let t := send_event (FileAdded path false) (put_file path (new_file_state b missing_content false) t) in
          recompute_hunks path (Some current_state) (file_source path t) t
  | Some s =>
      let current_state := read_file_bounded (disk_entry (disk t) path) in
      if baseline_accepted s then
        let '(t, head) := take_baseline path preloaded t in
        if content_matches_head path current_state head t
        then put_file path (set_hunks [] (set_current head (set_baseline head false s))) t
        else recompute_hunks path (Some current_state) (file_source path t) t
      else recompute_hunks path (Some current_state) (file_source path t) t
  end.
Definition handle_file_change (path : str) t : Tracker := process_file_change path None t.

Definition needs_baseline t (p : str) : bool :=
  match file_states t !! p with
  | None => negb (bool_decide (mode t = AgentOnly))
  | Some s => baseline_accepted s
  end.
(** The loop of the batch: [baselines.remove(&path)]. *)
Fixpoint change_all (baselines : gmap str FileContentState) (paths : list str) t : Tracker :=
  match paths with
  | [] => t
  | p :: ps => change_all (delete p baselines) ps (process_file_change p (baselines !! p) t)
  end.
Definition handle_file_changes_batch (paths : list str) t : Tracker :=
  match paths with
  | [] => t
  | _ =>
      let baseline_paths := List.filter (needs_baseline t) paths in
      let '(t, baselines) := match baseline_paths with
                             | [] => (t, ∅)
                             | _ => read_baselines_batch baseline_paths t
                             end in
      change_all baselines paths t
  end.

Definition handle_file_deleted (path : str) t : Tracker :=
  match file_states t !! path with
  | None =>
      if bool_decide (mode t = AgentOnly) then t
      else if path_exists (disk t) path then t
      else
        let '(t, b) := read_baseline path t in
        match b with
        | Missing => t
        | _ =>
            recompute_hunks path None External
              (send_event (FileAdded path false) (put_file path (new_file_state b missing_content false) t))
        end
  | Some _ =>
      if path_exists (disk t) path then handle_file_change path t
      else recompute_hunks path None (file_source path t) t
  end.

(** Hunks that go: out of the turn index, with an event each. *)
Definition drop_hunks (path : str) (hs : list Hunk) t : Tracker :=
  send_events (removal_event path Superseded <$> hs) (set_turn_index (foldl unindex (turn_index t) hs) t).
Definition reset_baseline (path : str) t : Tracker :=
  match file_states t !! path with
  | None => t
  | Some s =>
      send_event (BaselineUpdated path)
        (drop_hunks path (hunks s) (put_file path (set_hunks [] (set_baseline (current_content s) false s)) t))
  end.

Definition TOP_LITERAL : str := lit ":(top,literal)".
(** The dirty and the staged files of a status listing, relative to the working directory. *)
Definition collect_status (prefix : str) (items : list (option StatusItem)) : gset str * gset str :=
  foldl (λ '(dirty, staged) item,
    match item with
    | None => (dirty, staged)
    | Some i =>
        match path_strip_prefix (item_location i) prefix with
        | None => (dirty, staged)
        | Some rel => ({[rel]} ∪ dirty, if item_is_tree_index i then {[rel]} ∪ staged else staged)
        end
    end) (∅, ∅) items.
Definition scan_status (repo : R) (prefix : str) (scope : option (list str)) t : gset str * gset str :=
  match index_len (disk t) repo with
  | None | Some 0%N => (∅, ∅)
  | Some _ =>
      let pathspecs := match scope with
                       | Some rels => (λ rel, TOP_LITERAL ++ path_join prefix rel) <$> rels
                       | None => []
                       end in
      match git_status (disk t) repo pathspecs with
      | None => (∅, ∅)
      | Some items => collect_status prefix items
      end
  end.
Definition refresh_git_dirty_cache (scope : option (list str)) t : Tracker :=
  if is_not_a_repo (git_repo_state t) then t
  else
    let '(dirty, staged, discovered) :=
      match open_or_discover (disk t) (git_repo_state t) (working_dir t) with
      | None => (∅, ∅, not_discovered (git_repo_state t))
      | Some (repo, prefix, discovered) => (scan_status repo prefix scope t, Some <$> discovered)
      end in
    let t := cache_discovery discovered t in
    let paths_to_track := List.filter (λ rel, negb (tracked (path_join (working_dir t) rel) t)) (iter_set dirty) in
    let t := set_caches dirty staged t in
    if bool_decide (mode t = AllDirty)
    then foldl (λ t rel, handle_file_change (path_join (working_dir t) rel) t) t paths_to_track
    else t.

(** Whether a refreshed file has no change left. *)
Definition is_clean (path : str) (b c : FileContentState) t : bool :=
  match b, c with
  | Full b, Full c => same_text b c
  | Binary _, Binary _ | TooLarge _, TooLarge _ | LfsPointer _, LfsPointer _ | Symlink, Symlink
  | LfsPointer _, _ | _, LfsPointer _ | Symlink, Full _ | Full _, Symlink => negb (git_dirty t path)
  | Missing, Missing => negb (path_exists (disk t) path)
  | Missing, _ => negb (git_dirty t path)
  | _, _ => false
  end.
Definition refresh_path (baselines : gmap str FileContentState) t (path : str) : Tracker :=
  let new_baseline := default missing_content (baselines !! path) in
  let new_current := read_file_bounded (disk_entry (disk t) path) in
  match file_states t !! path with
  | None => t
  | Some s0 =>
      let s := set_current new_current (set_baseline new_baseline false s0) in
      if is_clean path new_baseline new_current t then
        if is_agent_file s
        then send_event (BaselineUpdated path) (drop_hunks path (hunks s) (put_file path (set_hunks [] s) t))
        else send_event (FileRemoved path) (drop_hunks path (hunks s) (remove_path path t))
      else
        send_event (BaselineUpdated path)
          (recompute_hunks path (Some new_current)
             (if is_agent_file s then ExternalEditOnAgentFile else External) (put_file path s t))
  end.
Definition refresh_scan t : Tracker :=
  match mode t with
  | AllDirty => refresh_git_dirty_cache None t
  | AgentOnly =>
      match omap (λ p, path_strip_prefix p (working_dir t)) (iter (file_states t)).*1 with
      | [] => set_caches ∅ ∅ t
      | rels => refresh_git_dirty_cache (Some rels) t
      end
  end.
Definition refresh_all_baselines_except (skip : gset str) t : Tracker :=
  if bool_decide (mode t = AgentOnly) && bool_decide (file_states t = ∅) then t
  else
    let '(t, sync) := read_repo_sync_state t in
    if bool_decide (sync = Some (repo_sync_state t)) then t
    else
      let t := match sync with Some s => set_sync s t | None => t end in
      let t := refresh_scan t in
      let paths := List.filter (λ p, bool_decide (p ∉ skip)) (iter (file_states t)).*1 in
      let '(t, baselines) := read_baselines_batch paths t in
      foldl (refresh_path baselines) t paths.
Definition refresh_all_baselines t : Tracker := refresh_all_baselines_except ∅ t.

Definition forget_path t (path : str) : Tracker :=
  match file_states t !! path with
  | None => t
  | Some s => send_event (FileRemoved path) (drop_hunks path (hunks s) (remove_path path t))
  end.
Definition set_mode (m : TrackingMode) t : Tracker :=
  let old_mode := mode t in
  let t := put_mode m t in
  match old_mode, m with
  | AgentOnly, AllDirty => refresh_git_dirty_cache None t
  | AllDirty, AgentOnly =>
      foldl forget_path t (List.filter (λ e, negb (is_agent_file e.2)) (iter (file_states t))).*1
  | _, _ => t
  end.

(** ** Accept and reject (actor/actions.rs) *)

Definition sat_add (a : Z) (n : nat) : Z := Z.min (a + Z.of_nat n) (U64 - 1).
Definition update_session_stats (li : HunkLineInfo) (accepted : bool) (s : SessionStats) : SessionStats :=
  if accepted
  then mkStats (sat_add (accepted_hunks s) 1) (rejected_hunks s)
         (sat_add (accepted_lines_added s) (new_count li)) (sat_add (accepted_lines_removed s) (old_count li))
         (rejected_lines_added s) (rejected_lines_removed s)
  else mkStats (accepted_hunks s) (sat_add (rejected_hunks s) 1)
         (accepted_lines_added s) (accepted_lines_removed s)
         (sat_add (rejected_lines_added s) (new_count li)) (sat_add (rejected_lines_removed s) (old_count li)).

(** [state.hunks.retain(|h| !ids.contains(&h.id))] *)
Definition retain_except (ids : list HunkId) (hs : list Hunk) : list Hunk :=
  List.filter (λ h, negb (bool_decide (id h ∈ ids))) hs.
(** The source of the first remaining hunk, if any. *)
Definition remaining_source (path : str) t : HunkSource :=
  match file_states t !! path with
  | Some s => match hunks s with h :: _ => source h | [] => External end
  | None => External
  end.
(** A stable sort by [Reverse(key)]. *)
Fixpoint insert_desc {A} (key : A → nat) (x : A) (l : list A) : list A :=
  match l with
  | [] => [x]
  | y :: l' => if (key y <=? key x)%nat then x :: l else y :: insert_desc key x l'
  end.
Definition sort_desc {A} (key : A → nat) (l : list A) : list A := foldr (insert_desc key) [] l.

Definition accept_patch (content : str) (h : Hunk) : str :=
  patch_lines content (old_start (line_info h)) (old_count (line_info h)) (new_text h).
Definition reject_patch (content : str) (h : Hunk) : str :=
  patch_lines content (new_start (line_info h)) (new_count (line_info h)) (default [] (old_text h)).

Definition accept_hunk (path : str) (h : Hunk) t : Tracker :=
  match file_states t !! path with
  | None => t
  | Some s =>
      let gone := [removal_event path Accepted h; BaselineUpdated path] in
      match baseline s with
      | Missing =>
          send_events gone
            (put_file path (set_hunks (retain_except [id h] (hunks s)) (set_baseline (current_content s) true s)) t)
      | b =>
          let b' := match b with Full text => Full (accept_patch text h) | _ => b end in
          let t := send_events gone
                     (put_file path (set_hunks (retain_except [id h] (hunks s)) (set_baseline b' true s)) t) in
          recompute_hunks path (Some (current_content s)) (remaining_source path t) t
      end
  end.

Inductive RejectAction :=
| RestoreDeleted (baseline : str)
| DeleteCreated
| RevertChange (patched : str)
| NoOp.
Definition reject_action (s : FileHunkState) (patched : str → str) : RejectAction :=
  match current_content s, baseline s with
  | Missing, Full b => RestoreDeleted b
  | Full _, Missing => DeleteCreated
  | Full current, _ => RevertChange (patched current)
  | _, _ => NoOp
  end.
(** The file write of a rejection, and its error. *)
Definition reject_io (path : str) (a : RejectAction) t : Tracker * result unit HunkActionError :=
  match a with
  | RestoreDeleted text | RevertChange text =>
      let '(d, err) := fs_write (disk t) path text in
      (set_disk d t, match err with Some e => Err (WriteError path e) | None => Ok tt end)
  | DeleteCreated =>
      let '(d, err) := remove_file (disk t) path in
      (set_disk d t, match err with Some e => Err (DeleteError path e) | None => Ok tt end)
  | NoOp => (t, Ok tt)
  end.
(** The state of the file once the write is done: the rejected hunks go, and the hunks
    left of a reverted change are computed again. *)
Definition reject_finish (path : str) (a : RejectAction) (hs : list Hunk) (s : FileHunkState) t : Tracker :=
  let settle c t := send_events (removal_event path Rejected <$> hs)
                      (put_file path (set_hunks (retain_except (id <$> hs) (hunks s)) (set_current c s)) t) in
  match a with
  | RestoreDeleted b => settle (Full b) t
  | DeleteCreated => settle Missing t
  | RevertChange patched =>
      let t := settle (Full patched) t in
      recompute_hunks path (Some (Full patched)) (remaining_source path t) t
  | NoOp => t
  end.
Definition reject_with (path : str) (patched : str → str) (hs : list Hunk) t : Tracker * result unit HunkActionError :=
  match file_states t !! path with
  | None => (t, Ok tt)
  | Some s =>
      let a := reject_action s patched in
      let '(t, r) := reject_io path a t in
      match r with
      | Err e => (t, Err e)
      | Ok _ => (reject_finish path a hs s t, Ok tt)
      end
  end.
Definition reject_hunk (path : str) (h : Hunk) t : Tracker * result unit HunkActionError :=
  reject_with path (λ current, reject_patch current h) [h] t.

Definition is_accept (a : HunkAction) : bool := match a with Accept => true | Reject => false end.
(** The bookkeeping that precedes an action on a hunk. *)
Definition note_action (a : HunkAction) t (h : Hunk) : Tracker :=
  set_turn_index (remove_from_turn_index (id h) (source h) (turn_index t))
    (set_stats (update_session_stats (line_info h) (is_accept a) (session_stats t)) t).

Definition find_hunk (hunk_id : HunkId) t : option (str * Hunk) :=
  head (omap (λ '(p, s), h ← List.find (λ h, (id h =? hunk_id)%N) (hunks s); Some (p, h)) (iter (file_states t))).
Definition apply_hunk_action (hunk_id : HunkId) (action : HunkAction) t : Tracker * result unit HunkActionError :=
  match find_hunk hunk_id t with
  | None => (t, Err (HunkNotFound hunk_id))
  | Some (path, h) =>
      let t := note_action action t h in
      match action with
      | Accept => (accept_hunk path h t, Ok tt)
      | Reject => reject_hunk path h t
      end
  end.

Definition accept_hunks_batch (path : str) (hs : list Hunk) t : Tracker :=
  match hs, file_states t !! path with
  | [], _ | _, None => t
  | _, Some s =>
      let gone := (removal_event path Accepted <$> hs) ++ [BaselineUpdated path] in
      match baseline s with
      | Missing =>
          send_events gone
            (put_file path (set_hunks (retain_except (id <$> hs) (hunks s)) (set_baseline (current_content s) true s)) t)
      | b =>
          let b' := match b with
                    | Full text => Full (foldl accept_patch text (sort_desc (λ h, old_start (line_info h)) hs))
                    | _ => b
                    end in
          let t := send_events gone
                     (put_file path (set_hunks (retain_except (id <$> hs) (hunks s)) (set_baseline b' true s)) t) in
          recompute_hunks path (Some (current_content s)) (remaining_source path t) t
      end
  end.
Definition reject_hunks_batch (path : str) (hs : list Hunk) t : Tracker * result unit HunkActionError :=
  match hs with
  | [] => (t, Ok tt)
  | _ => reject_with path (λ current, foldl reject_patch current (sort_desc (λ h, new_start (line_info h)) hs)) hs t
  end.
Fixpoint apply_action_batch (files_with_hunks : list (str * list Hunk)) (action : HunkAction)
  (affected : list HunkId) t : Tracker * result (list HunkId) HunkActionError :=
  match files_with_hunks with
  | [] => (t, Ok affected)
  | (path, hs) :: rest =>
      let t := foldl (note_action action) t hs in
      let '(t, r) := match action with
                     | Accept => (accept_hunks_batch path hs t, Ok tt)
                     | Reject => reject_hunks_batch path hs t
                     end in
      match r with
      | Err e => (t, Err e)
      | Ok _ => apply_action_batch rest action (affected ++ (id <$> hs)) t
      end
  end.
Definition apply_file_action (path : str) (action : HunkAction) t : Tracker * result (list HunkId) HunkActionError :=
  match file_states t !! path with
  | None => (t, Ok [])
  | Some s => match hunks s with
              | [] => (t, Ok [])
              | hs => apply_action_batch [(path, hs)] action [] t
              end
  end.
(** The files with hunks that a predicate holds of, with these hunks. *)
Definition files_with (P : Hunk → bool) (files : list (str * FileHunkState)) : list (str * list Hunk) :=
  omap (λ '(p, s), match List.filter P (hunks s) with [] => None | hs => Some (p, hs) end) files.
Definition apply_all_action (action : HunkAction) t : Tracker * result (list HunkId) HunkActionError :=
  apply_action_batch (files_with (λ _, true) (iter (file_states t))) action [] t.
Definition of_turn (p : N) (h : Hunk) : bool := bool_decide (prompt_index (source h) = Some p).
(** The hunks of the turn are gathered in a second map, whose order is another one. *)
Definition apply_turn_action (p : N) (action : HunkAction) t : Tracker * result (list HunkId) HunkActionError :=
  apply_action_batch (iter (list_to_map (files_with (of_turn p) (iter (file_states t))) : gmap str (list Hunk)))
    action [] t.

End Actor.
