(* ===== verification/HunkActor.v ===== *)
(** Hunk tracker: queries, snapshots and the command loop
    (crates/codegen/xai-hunk-tracker/src/actor/queries.rs, actor/mod.rs and commands.rs).

    A command that asks for an answer is a command whose handling returns a [Reply]; a
    reply nobody waits for is dropped by the channel.  [None] of a query is the panic of
    [generate_hunk_patch]. *)
From Stdlib Require Import String Ascii.
From stdpp Require Import gmap.
From S2P Require Import Prelude RustStr LexPath HashIter HunkTypes HunkDiff HunkTracker.

Section Actor.
Context {D R : Type} {Hhost : Host D R} {Hord : HashOrder}.
Local Abbreviation Tracker := (Tracker D R).
Implicit Types (t : Tracker).

(** ** Queries (actor/queries.rs) *)

Definition states t : list FileHunkState := (iter (file_states t)).*2.
Definition get_all_hunks t : list Hunk := states t ≫= hunks.
Definition get_hunks_for_path (path : str) t : list Hunk :=
  match file_states t !! path with Some s => hunks s | None => [] end.
Definition set_patch (p : option str) (h : Hunk) : Hunk :=
  mkHunk (id h) (path h) (line_info h) (source h) (old_text h) (new_text h) p (created_at h) (selected h).
Definition with_patch (b c : option str) (h : Hunk) : option Hunk :=
  match b, c with
  | None, None => Some (set_patch None h)
  | _, _ => p ← generate_hunk_patch (default [] b) (default [] c) h; Some (set_patch (Some p) h)
  end.
Definition get_file_hunk_data (path : str) t : option FileHunkData :=
  match file_states t !! path with
  | None => Some (mkHunkData [] default_view default_view None None)
  | Some s =>
      hs ← mapM (with_patch (as_str (baseline s)) (as_str (current_content s))) (hunks s);
      let b := from_content_state (baseline s) in
      let c := from_content_state (current_content s) in
      Some (mkHunkData hs b c (v_content b) (v_content c))
  end.
Definition get_all_tracked_paths t : list str := (iter (file_states t)).*1.
Definition get_hunks_by_source (f : HunkSourceFilter) t : list Hunk :=
  List.filter (λ h, match f with
                    | FilterAgent => is_agent_edit (source h)
                    | FilterExternal => is_external (source h)
                    end) (get_all_hunks t).
Definition get_hunk (hunk_id : HunkId) t : option Hunk := List.find (λ h, (id h =? hunk_id)%N) (get_all_hunks t).
Definition get_hunks_for_turn (p : N) t : list Hunk :=
  match turn_index t !! p with
  | None => []
  | Some ids => omap (λ i, get_hunk i t) (iter_set ids)
  end.

Record TurnData := mkTurnData {
  td_files : gset str;
  td_pending : list Hunk;
  td_lines_added : nat;
  td_lines_removed : nat
}.
Definition default_turn : TurnData := mkTurnData ∅ [] 0 0.
Definition add_pending (path : str) (h : Hunk) (d : TurnData) : TurnData :=
  mkTurnData ({[path]} ∪ td_files d) (td_pending d ++ [h]) (td_lines_added d + new_count (line_info h))
    (td_lines_removed d + old_count (line_info h)).
(** The loop over the hunks of the files: the turns and the count of unattributed hunks. *)
Definition summarize_hunk (path : str) (acc : gmap N TurnData * nat) (h : Hunk) : gmap N TurnData * nat :=
  match prompt_index (source h) with
  | Some p => (<[p := add_pending path h (default default_turn (acc.1 !! p))]> acc.1, acc.2)
  | None => (acc.1, S acc.2)
  end.
Definition summarize_file (acc : gmap N TurnData * nat) (e : str * FileHunkState) : gmap N TurnData * nat :=
  foldl (summarize_hunk e.1) acc (hunks e.2).
Definition has_agent_hunks (s : FileHunkState) : bool :=
  existsb (λ h, bool_decide (is_Some (prompt_index (source h)))) (hunks s).
Definition turn_summary (p : N) (d : TurnData) : TurnSummary :=
  mkTurnSummary p (iter_set (td_files d)) (td_pending d) (td_lines_added d) (td_lines_removed d).
Definition compute_session_summary t : SessionSummary :=
  let files := iter (file_states t) in
  let '(by_prompt, unattributed) := foldl summarize_file (∅, 0) files in
  let turns := sort_by_key (λ ts, N.to_nat (ts_prompt_index ts)) ((λ '(p, d), turn_summary p d) <$> iter by_prompt) in
  let modified := length (List.filter (λ e, has_agent_hunks e.2) files) in
  mkSummary (session_stats t) turns modified modified
    (sum_list_with (λ ts, length (ts_pending_hunks ts)) turns)
    (sum_list_with ts_lines_added turns) (sum_list_with ts_lines_removed turns) unattributed.

Definition is_agent_path (path : str) t : bool :=
  match file_states t !! path with Some s => is_agent_file s | None => false end.
Definition get_staged_files t : gset str := set_map (path_join (working_dir t)) (git_staged_cache t).
Definition get_all_file_contents t : list FileContentEntry :=
  (λ '(p, s), mkEntry p (from_content_state (baseline s)) (from_content_state (current_content s)) (is_agent_file s)
                (bool_decide (cache_key t p ∈ git_staged_cache t))) <$> iter (file_states t).

(** ** Snapshots (actor/mod.rs) *)

Definition snapshot_file_state (s : FileHunkState) : FileHunkState :=
  mkFileState (baseline s) (current_content s) (hunks s) (is_agent_file s) (baseline_accepted s).
Definition take_snapshot t : HunkTrackerSnapshot :=
  mkSnapshot (snapshot_file_state <$> file_states t) (turn_index t) (session_stats t).
Definition take_turn_delta (p : N) t : HunkTurnDelta :=
  let hunk_ids := default ∅ (turn_index t !! p) in
  mkDelta p
    (snapshot_file_state <$> base.filter (λ e, existsb (λ h, bool_decide (id h ∈ hunk_ids)) (hunks e.2) = true)
       (file_states t))
    hunk_ids.
Definition restore_snapshot (s : HunkTrackerSnapshot) t : Tracker :=
  set_stats (sn_session_stats s)
    (set_turn_index (sn_turn_index s) (set_files (snapshot_file_state <$> sn_file_states s) t)).

(** ** Commands (commands.rs) and their handling (actor/mod.rs) *)

Inductive HunkTrackerCommand :=
| RecordAgentWrite (path content : str) (prompt_index : N) (previous_content : option str)
| HandleFileChange (path : str)
| HandleFileDeleted (path : str)
| RefreshGitDirtyCache
| ResetBaseline (path : str)
| SetMode (m : TrackingMode)
| ActOnHunk (hunk_id : HunkId) (action : HunkAction)
| FileAction (path : str) (action : HunkAction)
| AllAction (action : HunkAction)
| TurnAction (prompt_index : N) (action : HunkAction)
| GetAllHunks
| GetHunksForPath (path : str)
| GetFileHunkData (path : str)
| GetHunksBySource (f : HunkSourceFilter)
| GetHunk (hunk_id : HunkId)
| IsAgentFile (path : str)
| GetAllTrackedPaths
| GetStagedFiles
| GetAllFileContents
| GetSessionSummary
| GetTurnHunks (prompt_index : N)
| ResetStats
| RefreshAllBaselines
| SnapshotState
| SnapshotTurnDelta (prompt_index : N)
| RestoreState (s : HunkTrackerSnapshot).

Inductive Reply :=
| NoReply
| RResult (r : result unit HunkActionError)
| RAffected (r : result (list HunkId) HunkActionError)
| RHunks (hs : list Hunk)
| RData (d : option FileHunkData)
| RHunk (h : option Hunk)
| RBool (b : bool)
| RPaths (ps : list str)
| RPathSet (ps : gset str)
| REntries (es : list FileContentEntry)
| RSummary (s : SessionSummary)
| RSnapshot (s : HunkTrackerSnapshot)
| RDelta (d : HunkTurnDelta).

(** [handle_tracker_command] returns [true] in every case: no command stops the actor. *)
Definition handle_tracker_command (cmd : HunkTrackerCommand) t : Tracker * Reply :=
  match cmd with
  | RecordAgentWrite p c i prev => (record_agent_write p c i prev t, NoReply)
  | HandleFileChange p => (handle_file_change p t, NoReply)
  | HandleFileDeleted p => (handle_file_deleted p t, NoReply)
  | RefreshGitDirtyCache => (refresh_git_dirty_cache None t, NoReply)
  | ResetBaseline p => (reset_baseline p t, NoReply)
  | SetMode m => (set_mode m t, NoReply)
  | ActOnHunk i a => let '(t, r) := apply_hunk_action i a t in (t, RResult r)
  | FileAction p a => let '(t, r) := apply_file_action p a t in (t, RAffected r)
  | AllAction a => let '(t, r) := apply_all_action a t in (t, RAffected r)
  | TurnAction i a => let '(t, r) := apply_turn_action i a t in (t, RAffected r)
  | GetAllHunks => (t, RHunks (get_all_hunks t))
  | GetHunksForPath p => (t, RHunks (get_hunks_for_path p t))
  | GetFileHunkData p => (t, RData (get_file_hunk_data p t))
  | GetHunksBySource f => (t, RHunks (get_hunks_by_source f t))
  | GetHunk i => (t, RHunk (get_hunk i t))
  | IsAgentFile p => (t, RBool (is_agent_path p t))
  | GetAllTrackedPaths => (t, RPaths (get_all_tracked_paths t))
  | GetStagedFiles => (t, RPathSet (get_staged_files t))
  | GetAllFileContents => (t, REntries (get_all_file_contents t))
  | GetSessionSummary => (t, RSummary (compute_session_summary t))
  | GetTurnHunks i => (t, RHunks (get_hunks_for_turn i t))
  | ResetStats => (set_stats default_stats t, NoReply)
  | RefreshAllBaselines => (refresh_all_baselines t, NoReply)
  | SnapshotState => (t, RSnapshot (take_snapshot t))
  | SnapshotTurnDelta i => (t, RDelta (take_turn_delta i t))
  | RestoreState s => (restore_snapshot s t, NoReply)
  end.

(** ** Coalescing (actor/mod.rs) *)

Inductive CoalescedPathAction := Changed | Deleted | DeletedThenChanged.
Record CoalescedBatch := mkBatch {
  file_actions : gmap str CoalescedPathAction;
  refresh_all : bool;
  refresh_dirty : bool;
  other_commands : list HunkTrackerCommand;
  command_count : nat
}.
Definition empty_batch : CoalescedBatch := mkBatch ∅ false false [] 0.
Definition add (b : CoalescedBatch) (cmd : HunkTrackerCommand) : CoalescedBatch :=
  let n := S (command_count b) in
  match cmd with
  | HandleFileChange p =>
      let a := match file_actions b !! p with
               | None => Changed
               | Some Deleted => DeletedThenChanged
               | Some a => a
               end in
      mkBatch (<[p := a]> (file_actions b)) (refresh_all b) (refresh_dirty b) (other_commands b) n
  | HandleFileDeleted p =>
      mkBatch (<[p := Deleted]> (file_actions b)) (refresh_all b) (refresh_dirty b) (other_commands b) n
  | RefreshAllBaselines => mkBatch (file_actions b) true (refresh_dirty b) (other_commands b) n
  | RefreshGitDirtyCache => mkBatch (file_actions b) (refresh_all b) true (other_commands b) n
  | _ => mkBatch (file_actions b) (refresh_all b) (refresh_dirty b) (other_commands b ++ [cmd]) n
  end.
Definition is_coalescable (cmd : HunkTrackerCommand) : bool :=
  match cmd with
  | HandleFileChange _ | HandleFileDeleted _ | RefreshAllBaselines | RefreshGitDirtyCache => true
  | _ => false
  end.
Definition drain_and_coalesce (first : HunkTrackerCommand) (queued : list HunkTrackerCommand) : CoalescedBatch :=
  foldl add (add empty_batch first) queued.

Definition is_change (a : CoalescedPathAction) : bool := match a with Deleted => false | _ => true end.
(** A file action of a batch that also refreshes every baseline: the refresh will see the
    tracked files that changed. *)
Definition refresh_file_action (acc : Tracker * gset str) (e : str * CoalescedPathAction) : Tracker * gset str :=
  let '(t, done) := acc in
  if is_change e.2 then
    if tracked e.1 t then (t, done) else (handle_file_change e.1 t, {[e.1]} ∪ done)
  else (if tracked e.1 t then handle_file_deleted e.1 t else t, done).
Definition handle_file_actions (b : CoalescedBatch) t : Tracker :=
  let actions := iter (file_actions b) in
  if refresh_all b then
    let '(t, already_processed) := foldl refresh_file_action (t, ∅) actions in
    refresh_all_baselines_except already_processed t
  else
    let t := foldl (λ t e, if is_change e.2 then t else handle_file_deleted e.1 t) t actions in
    handle_file_changes_batch (List.filter (λ e, is_change e.2) actions).*1 t.
Fixpoint handle_commands (cmds : list HunkTrackerCommand) t : Tracker * list Reply :=
  match cmds with
  | [] => (t, [])
  | c :: cs => let '(t, r) := handle_tracker_command c t in let '(t, rs) := handle_commands cs t in (t, r :: rs)
  end.
Definition handle_coalesced_batch (b : CoalescedBatch) t : Tracker * list Reply :=
  let t := if refresh_dirty b && negb (refresh_all b) then refresh_git_dirty_cache None t else t in
  handle_commands (other_commands b) (handle_file_actions b t).

(** ** The loop *)

(** The start of [run]. *)
Definition start (wd : str) (m : TrackingMode) (first_id : HunkId) (d : D) : Tracker :=
  let t := new_tracker wd m first_id d in
  if bool_decide (m = AllDirty) then refresh_git_dirty_cache None t else t.
(** One turn of [run]: the command received, the commands queued behind it; the commands
    left in the queue. *)
Definition actor_turn (cmd : HunkTrackerCommand) (queued : list HunkTrackerCommand) t
  : Tracker * list Reply * list HunkTrackerCommand :=
  if is_coalescable cmd then (handle_coalesced_batch (drain_and_coalesce cmd queued) t, [])
  else let '(t, r) := handle_tracker_command cmd t in (t, [r], queued).

End Actor.
