(* ===== verification/HunkLoc.v ===== *)
(** Hunk tracker: the lines-of-code sink (crates/codegen/xai-hunk-tracker/src/loc/mod.rs).

    The sink consumes the tracker's events in order and appends attribution records, whose
    sums by author are the session's line counts.  [handle_event] returns the accumulator,
    the records it writes and the aggregates it sends; the writer is one that does not fail
    (a record that cannot be written is dropped with a log line).  Counts of lines stay far
    below [i64]. *)
From Stdlib Require Import String Ascii.
From stdpp Require Import gmap.
From S2P Require Import Prelude RustStr HunkTypes.

(** ** Records *)

Inductive AuthorType := Agent | Human.
Inductive SourceType := TAgentEdit | TExternalEditOnAgentFile | TExternal.
Inductive EventType := Added | Updated | Removed.

Record HunkRecord := mkRecord {
  hr_hunk_id : HunkId;
  hr_file_path : str;
  hr_hunk_start : nat;
  hr_hunk_end : nat;
  hr_lines_added : Z;
  hr_lines_removed : Z;
  hr_author_type : option AuthorType;
  hr_author_id : option str;
  hr_agent_id : str;
  hr_session_id : str;
  hr_timestamp : Z;
  hr_prompt_index : option N;
  hr_source_type : option SourceType;
  hr_event_type : EventType;
  hr_removal_reason : option HunkRemovalReason
}.
Record LocSinkContext := mkCtx {
  session_id : str;
  agent_id : str;
  user_id : option str;
  aggregates : bool  (** whether [aggregate_tx] is there *)
}.
Inductive LocAggregate :=
| LinesChanged (author : AuthorType) (lines_added lines_removed : Z) (file_path : str)
| LinesReverted (lines_added_reverted lines_removed_reverted : Z).

Definition from_hunk (h : Hunk) (ctx : LocSinkContext) (e : EventType) (attribution : HunkSource) : HunkRecord :=
  let '(author, author_id, prompt, src) :=
    match attribution with
    | AgentEdit p => (Agent, Some (agent_id ctx), Some p, TAgentEdit)
    | ExternalEditOnAgentFile => (Human, user_id ctx, None, TExternalEditOnAgentFile)
    | External => (Human, user_id ctx, None, TExternal)
    end in
  let '(start, count) :=
    if (new_count (line_info h) =? 0)%nat then (old_start (line_info h), old_count (line_info h))
    else (new_start (line_info h), new_count (line_info h)) in
  let end_ := if (count =? 0)%nat then start else start + count - 1 in
  mkRecord (id h) (path h) start end_ (Z.of_nat (new_count (line_info h))) (Z.of_nat (old_count (line_info h)))
    (Some author) author_id (agent_id ctx) (session_id ctx) (created_at h) prompt (Some src) e None.
Definition set_lines (added removed : Z) (r : HunkRecord) : HunkRecord :=
  mkRecord (hr_hunk_id r) (hr_file_path r) (hr_hunk_start r) (hr_hunk_end r) added removed (hr_author_type r)
    (hr_author_id r) (hr_agent_id r) (hr_session_id r) (hr_timestamp r) (hr_prompt_index r) (hr_source_type r)
    (hr_event_type r) (hr_removal_reason r).

(** ** The sink *)

Local Abbreviation Acc := (gmap HunkId (Z * Z)).
Definition accumulate (i : HunkId) (r : HunkRecord) (acc : Acc) : Acc :=
  let e := default (0, 0)%Z (acc !! i) in
  <[i := (e.1 + hr_lines_added r, e.2 + hr_lines_removed r)%Z]> acc.
Definition aggregate (ctx : LocSinkContext) (a : LocAggregate) : list LocAggregate :=
  if aggregates ctx then [a] else [].
(** [now] is the clock, for a removal. *)
Definition handle_event (ctx : LocSinkContext) (now : Z) (event : HunkEvent) (acc : Acc)
  : Acc * list HunkRecord * list LocAggregate :=
  match event with
  | HunkAdded _ h =>
      let r := from_hunk h ctx Added (source h) in
      (accumulate (id h) r acc, [r],
       aggregate ctx (LinesChanged (default Agent (hr_author_type r)) (hr_lines_added r) (hr_lines_removed r) (hr_file_path r)))
  | HunkContentChanged _ h trigger prev_added prev_removed =>
      let r := set_lines (Z.of_nat (new_count (line_info h)) - Z.of_nat prev_added)
                 (Z.of_nat (old_count (line_info h)) - Z.of_nat prev_removed) (from_hunk h ctx Updated trigger) in
      (accumulate (id h) r acc, [r],
       aggregate ctx (LinesChanged (default Human (hr_author_type r)) (hr_lines_added r) (hr_lines_removed r) (hr_file_path r)))
  | HunkRemoved p i Accepted => (delete i acc, [], [])
  | HunkRemoved p i reason =>
      match acc !! i with
      | Some (added, removed) =>
          if (added =? 0)%Z && (removed =? 0)%Z then (delete i acc, [], [])
          else (delete i acc,
                [mkRecord i p 0 0 (- added) (- removed) None None (agent_id ctx) (session_id ctx) now None None
                   Removed (Some reason)],
                aggregate ctx (LinesReverted (Z.max added 0) (Z.max removed 0)))
      | None => (acc, [], [])
      end
  | HunkMoved _ _ _ | FileAdded _ _ | FileRemoved _ | BaselineUpdated _ => (acc, [], [])
  end.
(** [run_loc_sink], with its drain: the events in order. *)
Fixpoint run_loc_sink (ctx : LocSinkContext) (now : Z) (events : list HunkEvent) (acc : Acc)
  : Acc * list HunkRecord * list LocAggregate :=
  match events with
  | [] => (acc, [], [])
  | e :: es =>
      let '(acc, rs, gs) := handle_event ctx now e acc in
      let '(acc, rs', gs') := run_loc_sink ctx now es acc in
      (acc, rs ++ rs', gs ++ gs')
  end.

(** ** What the records add up to *)

(** The sum of the records of a hunk, added and removed lines. *)
Definition total (i : HunkId) (rs : list HunkRecord) : Z * Z :=
  foldr (λ r sum, if (hr_hunk_id r =? i)%N then (hr_lines_added r + sum.1, hr_lines_removed r + sum.2)%Z else sum)
    (0, 0)%Z rs.
(** The ledger of a hunk: lines kept for good and lines that stand with the live hunk.  A
    hunk that is added or changes moves the standing lines; accepting keeps them, rejecting
    or superseding takes them back. *)
Definition ledger_step (i : HunkId) (l : (Z * Z) * (Z * Z)) (e : HunkEvent) : (Z * Z) * (Z * Z) :=
  let '((ka, kr), (sa, sr)) := l in
  match e with
  | HunkAdded _ h =>
      if (id h =? i)%N
      then ((ka, kr), (sa + Z.of_nat (new_count (line_info h)), sr + Z.of_nat (old_count (line_info h))))%Z else l
  | HunkContentChanged _ h _ pa pr =>
      if (id h =? i)%N
      then ((ka, kr), (sa + (Z.of_nat (new_count (line_info h)) - Z.of_nat pa),
                       sr + (Z.of_nat (old_count (line_info h)) - Z.of_nat pr)))%Z else l
  | HunkRemoved _ j Accepted => if (j =? i)%N then ((ka + sa, kr + sr), (0, 0))%Z else l
  | HunkRemoved _ j _ => if (j =? i)%N then ((ka, kr), (0, 0))%Z else l
  | _ => l
  end.
Definition ledger (i : HunkId) (es : list HunkEvent) : (Z * Z) * (Z * Z) := foldl (ledger_step i) ((0, 0), (0, 0))%Z es.
Definition balance (l : (Z * Z) * (Z * Z)) : Z * Z := (l.1.1 + l.2.1, l.1.2 + l.2.2)%Z.

Lemma total_app i a b : total i (a ++ b) = ((total i a).1 + (total i b).1, (total i a).2 + (total i b).2)%Z.
Proof.
  induction a as [|r a IH]; simpl; [by destruct (total i b)|].
  destruct (hr_hunk_id r =? i)%N; [|done]. rewrite IH. simpl. f_equal; lia.
Qed.

(** The standing lines are what the sink holds; the records move by what the ledger does. *)
Definition standing (i : HunkId) (acc : Acc) : Z * Z := default (0, 0)%Z (acc !! i).
Lemma from_hunk_lines h ctx e a :
  let r := from_hunk h ctx e a in
  hr_hunk_id r = id h ∧ hr_lines_added r = Z.of_nat (new_count (line_info h))
  ∧ hr_lines_removed r = Z.of_nat (old_count (line_info h)).
Proof. unfold from_hunk. by destruct a, (new_count (line_info h) =? 0)%nat. Qed.
Lemma total_single i r : total i [r] = if (hr_hunk_id r =? i)%N then (hr_lines_added r, hr_lines_removed r) else (0, 0)%Z.
Proof. simpl. by rewrite !Z.add_0_r. Qed.
Lemma standing_accumulate i j r acc :
  standing i (accumulate j r acc)
  = if (j =? i)%N then ((standing i acc).1 + hr_lines_added r, (standing i acc).2 + hr_lines_removed r)%Z
    else standing i acc.
Proof.
  unfold standing, accumulate. destruct (N.eqb_spec j i) as [->|Hne]; [by rewrite lookup_insert_eq|].
  by rewrite lookup_insert_ne.
Qed.
Lemma standing_delete i j acc : standing i (delete j acc) = if (j =? i)%N then (0, 0)%Z else standing i acc.
Proof.
  unfold standing. destruct (N.eqb_spec j i) as [->|Hne]; [by rewrite lookup_delete_eq|]. by rewrite lookup_delete_ne.
Qed.

(** Both components of a ledger equation, by arithmetic. *)
Ltac ledger_arith := unfold balance; simpl;
  repeat match goal with |- _ ∧ _ => split | |- (_, _) = (_, _) => apply pair_equal_spec end; try lia; try done.

Lemma handle_event_ledger ctx now i e acc kept :
  let '(acc', rs, _) := handle_event ctx now e acc in
  let l := (kept, standing i acc) in
  let l' := ledger_step i l e in
  l'.2 = standing i acc' ∧ balance l' = ((balance l).1 + (total i rs).1, (balance l).2 + (total i rs).2)%Z.
Proof.
  destruct kept as [ka kr]. destruct (standing i acc) as [sa sr] eqn:Es.
  assert (Hrem : ∀ p j reason, reason ≠ Accepted →
    let '(acc', rs, _) := handle_event ctx now (HunkRemoved p j reason) acc in
    standing i acc' = (if (j =? i)%N then (0, 0)%Z else (sa, sr))
    ∧ total i rs = if (j =? i)%N then (- sa, - sr)%Z else (0, 0)%Z).
  { intros p j reason Hr. replace (handle_event ctx now (HunkRemoved p j reason) acc) with
      (match acc !! j with
       | Some (added, removed) =>
           if (added =? 0)%Z && (removed =? 0)%Z then (delete j acc, [], [])
           else (delete j acc, [mkRecord j p 0 0 (- added) (- removed) None None (agent_id ctx) (session_id ctx) now None
                   None Removed (Some reason)], aggregate ctx (LinesReverted (Z.max added 0) (Z.max removed 0)))
       | None => (acc, [], [])
       end) by (by destruct reason).
    destruct (acc !! j) as [[a r]|] eqn:Ej.
    - assert (j = i → sa = a ∧ sr = r) as Hji by (intros ->; unfold standing in Es; rewrite Ej in Es; by simplify_eq/=).
      destruct (Z.eqb_spec a 0), (Z.eqb_spec r 0); simpl; rewrite standing_delete, Es;
        destruct (N.eqb_spec j i) as [Hj|Hj]; try (destruct (Hji Hj); subst); split; try done; f_equal; lia.
    - simpl. rewrite Es. destruct (N.eqb_spec j i) as [->|Hj]; [|done].
      unfold standing in Es. rewrite Ej in Es. by simplify_eq/=. }
  destruct e as [p h|p j reason|p j li|p h tr pa pr| | |]; try (simpl; ledger_arith; done).
  - simpl. destruct (from_hunk_lines h ctx Added (source h)) as (E1 & E2 & E3).
    rewrite standing_accumulate, Es, E1, E2, E3. destruct (id h =? i)%N; ledger_arith.
  - specialize (Hrem p j reason). destruct (handle_event ctx now (HunkRemoved p j reason) acc) as [[acc' rs] gs] eqn:Eh.
    destruct reason; [simpl in Eh; simplify_eq; rewrite standing_delete, Es|destruct Hrem as [-> ->]; [done|]..];
      simpl; destruct (j =? i)%N; ledger_arith.
  - simpl. destruct (from_hunk_lines h ctx Updated tr) as (E1 & _ & _).
    rewrite standing_accumulate, Es, E1. simpl. destruct (id h =? i)%N; ledger_arith.
Qed.

(** the records of a hunk add up to its ledger, whatever the events and their order:
    what it had when it was accepted stays counted, what stands with the live hunk counts,
    and a hunk that was rejected or superseded counts for nothing. *)
Theorem loc_records_balance ctx now i es :
  total i (run_loc_sink ctx now es ∅).1.2 = balance (ledger i es).
Proof.
  unfold ledger. assert (∀ acc kept,
    let '(_, rs, _) := run_loc_sink ctx now es acc in
    let l := (kept, standing i acc) in
    balance (foldl (ledger_step i) l es) = ((balance l).1 + (total i rs).1, (balance l).2 + (total i rs).2)%Z) as H.
  { induction es as [|e es IH]; intros acc kept; simpl run_loc_sink.
    - cbn zeta. simpl foldl. destruct (balance _) as [x y]. simpl. by rewrite !Z.add_0_r.
    - pose proof (handle_event_ledger ctx now i e acc kept) as Hstep.
      destruct (handle_event ctx now e acc) as [[acc1 rs1] gs1]. cbn zeta in Hstep. destruct Hstep as [Hst Hb].
      destruct (ledger_step i (kept, standing i acc) e) as [kept1 st1] eqn:El. simpl in Hst. subst st1.
      specialize (IH acc1 kept1). destruct (run_loc_sink ctx now es acc1) as [[acc2 rs2] gs2].
      cbn zeta in *. cbn [foldl]. rewrite El, IH, Hb, total_app. simpl. f_equal; lia. }
  specialize (H ∅ (0, 0)%Z). destruct (run_loc_sink ctx now es ∅) as [[acc rs] gs]. cbn zeta in H.
  change (standing i ∅) with (0, 0)%Z in H. rewrite H. simpl. by destruct (total i rs).
Qed.
