(* ===== verification/HunkWorld.v ===== *)
(** Hunk tracker: what is relied on of the line diff, and a small host that has it: files
    and a HEAD tree in memory, and a diff that keeps the lines it finds again.  The
    examples show behaviours of whole runs. *)
From Stdlib Require Import String Ascii.
From stdpp Require Import gmap.
From S2P Require Import Prelude RustStr LexPath HashIter HunkTypes HunkDiff HunkPatch HunkTracker HunkActor HunkLoc.

(** A line diff of texts without carriage returns splits them at their newlines, and its
    two sides are the two texts. *)
Class LineDiff (D R : Type) `{Host D R} : Prop :=
  line_diff d a b cs : CR ∉ a → CR ∉ b → text_diff d a b = Some cs →
    old_side cs = split_inclusive a ∧ new_side cs = split_inclusive b.

(** ** A host in memory *)

Record World := mkWorld { w_files : gmap str str; w_head : gmap str str; w_writable : bool }.

(** The lines before the first [x] of a list and those after it. *)
Fixpoint cut (x : str) (l : list str) : option (list str * list str) :=
  match l with
  | [] => None
  | y :: l' => if str_eqb x y then Some ([], l') else '(a, b) ← cut x l'; Some (y :: a, b)
  end.
Fixpoint line_changes (a b : list str) : list Change :=
  match a with
  | [] => pair Insert <$> b
  | x :: a' =>
      match cut x b with
      | Some (before, after) => (pair Insert <$> before) ++ (Equal, x) :: line_changes a' after
      | None => (Delete, x) :: line_changes a' b
      end
  end.

Lemma cut_Some x l a b : cut x l = Some (a, b) → l = a ++ x :: b.
Proof.
  revert a. induction l as [|y l IH]; intros a; simpl; [done|]. destruct (str_eqb x y) eqn:E.
  - apply str_eqb_eq in E as ->. by intros [= <- <-].
  - destruct (cut x l) as [[a' b']|]; [|done]. simpl. intros [= <- <-]. simpl. by rewrite (IH a').
Qed.
Lemma old_side_app a b : old_side (a ++ b) = old_side a ++ old_side b.
Proof. apply omap_app. Qed.
Lemma new_side_app a b : new_side (a ++ b) = new_side a ++ new_side b.
Proof. apply omap_app. Qed.
Lemma inserts_sides l : old_side (pair Insert <$> l) = [] ∧ new_side (pair Insert <$> l) = l.
Proof.
  induction l as [|x l [IH1 IH2]]; [done|]. split; [exact IH1|].
  change (new_side (pair Insert <$> x :: l)) with (x :: new_side (pair Insert <$> l)). by rewrite IH2.
Qed.
Lemma side_cons tag x cs :
  old_side ((tag, x) :: cs) = (match tag with Insert => [] | _ => [x] end) ++ old_side cs
  ∧ new_side ((tag, x) :: cs) = (match tag with Delete => [] | _ => [x] end) ++ new_side cs.
Proof. by destruct tag. Qed.
Lemma line_changes_sides a b : old_side (line_changes a b) = a ∧ new_side (line_changes a b) = b.
Proof.
  revert b. induction a as [|x a IH]; intros b; simpl; [apply inserts_sides|].
  destruct (cut x b) as [[before after]|] eqn:E.
  - apply cut_Some in E as ->. destruct (inserts_sides before) as [E1 E2], (IH after) as [E3 E4].
    destruct (side_cons Equal x (line_changes a after)) as [E5 E6].
    by rewrite old_side_app, new_side_app, E1, E2, E5, E6, E3, E4.
  - destruct (IH b) as [E3 E4], (side_cons Delete x (line_changes a b)) as [E5 E6]. by rewrite E5, E6, E3, E4.
Qed.

Definition ROOT : str := lit "/w".
#[export] Instance memory_host : Host World unit := {
  text_diff _ a b := Some (line_changes (split_inclusive a) (split_inclusive b));
  clock _ := 0%Z;
  disk_entry w p := (λ s, DiskFile (utf8_bytes s)) <$> w_files w !! p;
  path_exists w p := bool_decide (is_Some (w_files w !! p));
  path_is_dir _ _ := false;
  fs_write w p s := if w_writable w then (mkWorld (<[p := s]> (w_files w)) (w_head w) true, None)
                    else (w, Some (lit "read-only file system"));
  remove_file w p := if w_writable w then (mkWorld (delete p (w_files w)) (w_head w) true, None)
                     else (w, Some (lit "read-only file system"));
  canonicalize _ p := Some p;
  discover _ _ := Some tt;
  workdir _ := Some ROOT;
  index_len _ _ := Some 1%N;
  index_modified _ _ := Some 0%Z;
  head_commit _ _ := Some (lit "c1");
  head_lookup w _ p := (λ s, HeadBlob (utf8_bytes s)) <$> w_head w !! p;
  git_status w _ _ :=
    Some (omap (λ '(p, s), rel ← path_strip_prefix p ROOT;
                 if bool_decide (w_head w !! rel = Some s) then None else Some (Some (mkItem rel false)))
            (map_to_list (w_files w)))
}.
#[export] Instance memory_line_diff : LineDiff World unit.
Proof. intros d a b cs _ _ [= <-]. apply line_changes_sides. Qed.

(** ** A run *)

Definition text (ls : list string) : str := concat ((λ l, lit l ++ [NL]) <$> ls).
Definition FILE : str := lit "/w/f".
Definition head_text : str := text ["a"; "b"; "c"; "d"; "e"]%string.
Definition agent_text : str := text ["a"; "B"; "c"; "D"; "e"]%string.
(** The file is in HEAD and the agent has written it. *)
Definition world (writable : bool) : World :=
  mkWorld {[FILE := agent_text]} {[lit "f" := head_text]} writable.
Definition started (writable : bool) : Tracker World unit := start ROOT AgentOnly 0%N (world writable).
Definition agent_write : HunkTrackerCommand := RecordAgentWrite FILE agent_text 7%N (Some head_text).
Definition after_write (writable : bool) : Tracker World unit := (actor_turn agent_write [] (started writable)).1.1.
Definition lines_of (t : Tracker World unit) : list (HunkId * HunkLineInfo) :=
  (λ h, (id h, line_info h)) <$> get_all_hunks t.

Example two_hunks : lines_of (after_write true) = [(0%N, mkLineInfo 2 1 2 1); (1%N, mkLineInfo 4 1 4 1)].
Proof. vm_compute. reflexivity. Qed.

(** The agent writes again, and the two hunks become one: the client is told that the second
    hunk changed, but not that the first is gone.  The line counts keep it: four lines are
    counted of a change of three. *)
Definition merged : Tracker World unit :=
  (actor_turn (RecordAgentWrite FILE (text ["a"; "B"; "C"; "D"; "e"]%string) 7%N None) [] (after_write true)).1.1.
Example merged_hunk_stays_counted :
  lines_of merged = [(1%N, mkLineInfo 2 3 2 3)]
  ∧ forallb (λ e, match e with HunkRemoved _ _ _ => false | _ => true end) (events merged) = true
  ∧ let rs := (run_loc_sink (mkCtx [] [] None false) 0 (events merged) ∅).1.2 in
    (total 0%N rs, total 1%N rs) = ((1, 1), (3, 3))%Z.
Proof. vm_compute. repeat split. Qed.

(** A rejection that cannot write its file leaves the hunks where they are, but no longer
    in their turn, and counts them as rejected. *)
Definition not_rejected : Tracker World unit := (actor_turn (FileAction FILE Reject) [] (after_write false)).1.1.
Example failed_reject_forgets_turn :
  (actor_turn (FileAction FILE Reject) [] (after_write false)).1.2
    = [RAffected (Err (WriteError FILE (lit "read-only file system")))]
  ∧ lines_of not_rejected = lines_of (after_write false)
  ∧ id <$> get_hunks_for_turn 7%N (after_write false) = [1; 0]%N
  ∧ get_hunks_for_turn 7%N not_rejected = []
  ∧ rejected_hunks (session_stats not_rejected) = 2%Z.
Proof. vm_compute. repeat split. Qed.

(** A write of the agent that is queued between two file events is recorded after both:
    the content of the second event, newer than the write, is lost. *)
Definition user_text : str := text ["a"; "B"; "c"; "D"; "user"]%string.
Definition later_world : World := mkWorld {[FILE := user_text]} {[lit "f" := head_text]} true.
Definition other_file : HunkTrackerCommand := HandleFileChange (lit "/w/g").
Definition in_order : Tracker World unit :=
  (handle_commands [other_file; agent_write; HandleFileChange FILE] (set_disk later_world (started true))).1.
Definition coalesced : Tracker World unit :=
  (actor_turn other_file [agent_write; HandleFileChange FILE] (set_disk later_world (started true))).1.1.
Example batch_forgets_later_change :
  (current_content <$> file_states in_order !! FILE) = Some (Full user_text)
  ∧ (current_content <$> file_states coalesced !! FILE) = Some (Full agent_text).
Proof. vm_compute. repeat split. Qed.

(** A hunk that only adds the final newline cannot be accepted: it comes back. *)
Definition no_newline : Tracker World unit :=
  (actor_turn (RecordAgentWrite (lit "/w/n") (lit "a" ++ [NL]) 1%N (Some (lit "a"))) [] (started true)).1.1.
Definition accepted_newline : Tracker World unit := (actor_turn (FileAction (lit "/w/n") Accept) [] no_newline).1.1.
Example newline_hunk_stays :
  length (get_all_hunks no_newline) = 1%nat ∧ length (get_all_hunks accepted_newline) = 1%nat
  ∧ (baseline <$> file_states accepted_newline !! lit "/w/n") = Some (Full (lit "a")).
Proof. vm_compute. repeat split. Qed.
