(* ===== verification/HunkInv.v ===== *)
(** Hunk tracker: the invariant of the actor's state.

    [core]: every hunk carries the path it is stored under, hunk ids are unique over all
    files and below the supply, and the turn index sends no live hunk to a turn that is not
    its own.  [shaped]: the hunks of a file are those of the diff of its baseline and its
    content, but for a file of the agent that a refresh found clean.  [complete]: the turn index knows every live agent hunk, which holds
    as long as no action failed on disk.  The [_except] forms leave out one path, the one an
    operation is working on.

    The second part: every operation of the tracker keeps the invariant. *)
From Stdlib Require Import String Ascii.
From stdpp Require Import gmap.
From S2P Require Import Prelude RustStr LexPath HashIter HunkTypes HunkDiff HunkTracker HunkActor.

Section Inv.
Context {D R : Type} {Hhost : Host D R} {Hord : HashOrder}.
(** A lower bound of the id supply, which only grows. *)
Context {floor : HunkId}.
Local Abbreviation Tracker := (Tracker D R).
Implicit Types (t : Tracker) (h : Hunk) (s : FileHunkState) (p q : str).

(** A hunk is live at a path. *)
Definition live t p h : Prop := ∃ s, file_states t !! p = Some s ∧ h ∈ hunks s.

Record core t : Prop := {
  core_floor : (floor ≤ next_id t)%N;
  core_path p h : live t p h → path h = p;
  core_below p h : live t p h → (id h < next_id t)%N;
  core_nodup p s : file_states t !! p = Some s → NoDup (id <$> hunks s);
  core_apart p q h h' : live t p h → live t q h' → id h = id h' → p = q;
  core_turn_below i ids k : turn_index t !! i = Some ids → k ∈ ids → (k < next_id t)%N;
  core_turn_sound i ids p h :
    turn_index t !! i = Some ids → id h ∈ ids → live t p h → prompt_index (source h) = Some i
}.

(** What a hunk says of the change. *)
Definition view h : HunkLineInfo * option str * str := (line_info h, old_text h, new_text h).
(** The hunks are exactly those of the diff of the baseline and the content. *)
Definition diffed s : Prop :=
  ∃ (d : D) n p src, view <$> hunks s = view <$> fresh_hunks d n p (baseline s) (current_content s) src.
(** The one exception: a file of the agent that a refresh took for clean although the diff
    is not empty.  Its text differs in the final newline only, or it is a text that HEAD does
    not have and git did not list. *)
Definition found_clean s : Prop :=
  hunks s = [] ∧ is_agent_file s = true ∧ baseline_accepted s = false
  ∧ match baseline s, current_content s with
    | Full b, Full c => same_text b c = true
    | Missing, Full _ => True
    | _, _ => False
    end.
Definition described s : Prop := diffed s ∨ found_clean s.
Definition shaped_except p t : Prop := ∀ q s, q ≠ p → file_states t !! q = Some s → described s.
Definition shaped t : Prop := ∀ q s, file_states t !! q = Some s → described s.

Definition indexed t h : Prop :=
  ∀ i, prompt_index (source h) = Some i → ∃ ids, turn_index t !! i = Some ids ∧ id h ∈ ids.
Definition complete_except p t : Prop := ∀ q h, q ≠ p → live t q h → indexed t h.
Definition complete t : Prop := ∀ q h, live t q h → indexed t h.

(** [failed]: whether an action has failed so far. *)
Definition inv_except (failed : bool) p t : Prop :=
  core t ∧ shaped_except p t ∧ (failed = false → complete_except p t).
Definition inv (failed : bool) t : Prop := core t ∧ shaped t ∧ (failed = false → complete t).

(** ** Files without hunks *)

Lemma fresh_same (d : D) n p b src : fresh_hunks d n p b b src = [].
Proof. destruct b; simpl; try done. unfold compute_hunks. by rewrite str_eqb_refl. Qed.
Lemma fresh_opaque (d : D) n p b c src : is_diffable c = false → c ≠ Missing → fresh_hunks d n p b c src = [].
Proof. by destruct b, c. Qed.
Lemma fresh_opaque_base (d : D) n p b c src : is_diffable b = false → is_diffable c = false → fresh_hunks d n p b c src = [].
Proof. by destruct b, c. Qed.
Lemma diffed_none t s : hunks s = [] →
  fresh_hunks (disk t) (next_id t) [] (baseline s) (current_content s) External = [] → diffed s.
Proof. intros Eh Ef. exists (disk t), (next_id t), [], External. by rewrite Eh, Ef. Qed.
Lemma diffed_same t s : hunks s = [] → current_content s = baseline s → diffed s.
Proof. intros Eh Ec. apply (diffed_none t); [done|]. by rewrite Ec, fresh_same. Qed.
Lemma described_ne s : described s → hunks s ≠ [] → diffed s.
Proof. by intros [?|[? _]]. Qed.

(** ** Leaving a path out, and settling it *)

Lemma inv_weaken f p t : inv f t → inv_except f p t.
Proof.
  intros (Hc & Hs & Hi). split; [done|]. split; [intros q s _; apply Hs|].
  intros Hf q h _. by apply Hi.
Qed.

Lemma inv_settle f p t :
  inv_except f p t → (∀ s, file_states t !! p = Some s → hunks s = [] ∧ described s) → inv f t.
Proof.
  intros (Hc & Hs & Hi) Hp. split; [done|]. split.
  - intros q s Hq. destruct (decide (q = p)) as [->|Hne]; [by apply Hp|by apply (Hs q)].
  - intros Hf q h Hl. destruct (decide (q = p)) as [->|Hne]; [|by apply (Hi Hf q)].
    destruct Hl as (s & E & Hh). rewrite (proj1 (Hp s E)) in Hh. by apply elem_of_nil in Hh.
Qed.

Lemma inv_fail f p t : inv_except f p t → shaped t → inv true t.
Proof. intros (Hc & _ & _) Hs. by split. Qed.

(** ** Writing a file state with fewer hunks *)

Lemma live_put t p s q h :
  live (put_file p s t) q h ↔ (q = p ∧ h ∈ hunks s) ∨ (q ≠ p ∧ live t q h).
Proof.
  unfold live, put_file. cbn [file_states set_files]. setoid_rewrite lookup_insert_Some. naive_solver.
Qed.

(** The hunks of the new state are among those of the old. *)
Definition fewer t p s' : Prop := sublist (hunks s') (get_hunks_for_path p t).

Lemma fewer_live t p s' h : fewer t p s' → h ∈ hunks s' → live t p h.
Proof.
  unfold fewer, get_hunks_for_path. intros Hs Hh.
  destruct (file_states t !! p) as [s|] eqn:E.
  - exists s. split; [done|]. by eapply elem_of_sublist.
  - apply sublist_nil_r in Hs. rewrite Hs in Hh. by apply elem_of_nil in Hh.
Qed.

Lemma live_put_fewer t p s' q h : fewer t p s' → live (put_file p s' t) q h → live t q h.
Proof. intros Hs [[-> Hh]|[_ Hl]]%live_put; [by eapply fewer_live|done]. Qed.

Lemma inv_put f p s' t : inv_except f p t → fewer t p s' → inv_except f p (put_file p s' t).
Proof.
  intros (Hc & Hs & Hi) Hf. assert (Hl := λ q h, live_put_fewer t p s' q h Hf). split; [split|split].
  - apply (core_floor _ Hc).
  - intros q h H%Hl. by apply (core_path _ Hc).
  - intros q h H%Hl. by apply (core_below _ Hc q).
  - intros q s. unfold put_file. cbn [file_states set_files]. rewrite lookup_insert_Some.
    intros [[<- <-]|[_ E]]; [|by apply (core_nodup _ Hc q)].
    unfold fewer, get_hunks_for_path in Hf. destruct (file_states t !! p) as [s0|] eqn:E.
    + eapply sublist_NoDup; [by apply (core_nodup _ Hc p)|by apply fmap_sublist].
    + apply sublist_nil_r in Hf. rewrite Hf. constructor.
  - intros q q' h h' H1%Hl H2%Hl. by apply (core_apart _ Hc).
  - apply (core_turn_below _ Hc).
  - intros i ids q h Hi' Hin H%Hl. by apply (core_turn_sound _ Hc i ids q h).
  - intros q s Hne. unfold put_file. cbn [file_states set_files]. rewrite lookup_insert_ne by done. by apply Hs.
  - intros Hff q h Hne H%Hl. by apply (Hi Hff q).
Qed.

Lemma inv_put_empty f p s' t : inv f t → hunks s' = [] → described s' → inv f (put_file p s' t).
Proof.
  intros Ht Hs Hd. apply (inv_settle f p).
  - apply inv_put; [by apply inv_weaken|]. unfold fewer. rewrite Hs. apply sublist_nil_l.
  - intros s. unfold put_file. cbn [file_states set_files]. rewrite lookup_insert_eq. by intros [= <-].
Qed.

Lemma inv_remove f p t : inv_except f p t → inv f (remove_path p t).
Proof.
  intros (Hc & Hs & Hi).
  assert (Hl : ∀ q h, live (remove_path p t) q h → q ≠ p ∧ live t q h).
  { intros q h (s & E & Hh). revert E. unfold remove_path. cbn [file_states set_files].
    rewrite lookup_delete_Some. intros [? ?]. split; [done|]. by exists s. }
  split; [split|split].
  - apply (core_floor _ Hc).
  - intros q h [_ H]%Hl. by apply (core_path _ Hc).
  - intros q h [_ H]%Hl. by apply (core_below _ Hc q).
  - intros q s. unfold remove_path. cbn [file_states set_files]. rewrite lookup_delete_Some. intros [_ ?].
    by apply (core_nodup _ Hc q).
  - intros q q' h h' [_ H1]%Hl [_ H2]%Hl. by apply (core_apart _ Hc).
  - apply (core_turn_below _ Hc).
  - intros i ids q h Hi' Hin [_ H]%Hl. by apply (core_turn_sound _ Hc i ids q h).
  - intros q s. unfold remove_path. cbn [file_states set_files]. rewrite lookup_delete_Some. intros [? ?].
    by apply (Hs q).
  - intros Hff q h [Hne H]%Hl. by apply (Hi Hff q).
Qed.

(** ** The turn index *)

Lemma elem_remove_from_turn_index ti i src j ids k :
  remove_from_turn_index i src ti !! j = Some ids → k ∈ ids →
  ∃ ids', ti !! j = Some ids' ∧ k ∈ ids' ∧ (prompt_index src = Some j → k ≠ i).
Proof.
  unfold remove_from_turn_index. destruct (prompt_index src) as [p|]; [|naive_solver].
  destruct (ti !! p) as [ids0|] eqn:E; [|naive_solver].
  rewrite lookup_insert_Some. intros [[-> <-]|[Hne Hj]] Hk; [|naive_solver].
  exists ids0. split; [done|]. set_solver.
Qed.

Lemma remove_from_turn_index_keeps ti i src j ids k :
  ti !! j = Some ids → k ∈ ids → k ≠ i → ∃ ids', remove_from_turn_index i src ti !! j = Some ids' ∧ k ∈ ids'.
Proof.
  unfold remove_from_turn_index. destruct (prompt_index src) as [p|]; [|naive_solver].
  destruct (ti !! p) as [ids0|] eqn:E; [|naive_solver]. intros Hj Hk Hne.
  destruct (decide (p = j)) as [->|?].
  - rewrite lookup_insert_eq. simplify_eq. eexists. split; [done|]. set_solver.
  - rewrite lookup_insert_ne by done. naive_solver.
Qed.

Lemma elem_unindex_all ti hs j ids k :
  foldl unindex ti hs !! j = Some ids → k ∈ ids →
  ∃ ids', ti !! j = Some ids' ∧ k ∈ ids' ∧ ∀ h, h ∈ hs → prompt_index (source h) = Some j → k ≠ id h.
Proof.
  revert ti. induction hs as [|h hs IH]; simpl; intros ti Hj Hk.
  - exists ids. split_and!; [done..|]. intros h Hh. by apply elem_of_nil in Hh.
  - destruct (IH _ Hj Hk) as (ids1 & E1 & Hk1 & Hn1).
    destruct (elem_remove_from_turn_index _ _ _ _ _ _ E1 Hk1) as (ids2 & E2 & Hk2 & Hn2).
    exists ids2. split_and!; [done..|]. intros h' [->|Hh']%elem_of_cons; [done|by apply Hn1].
Qed.

Lemma unindex_all_keeps ti hs j ids k :
  ti !! j = Some ids → k ∈ ids → (∀ h, h ∈ hs → k ≠ id h) → ∃ ids', foldl unindex ti hs !! j = Some ids' ∧ k ∈ ids'.
Proof.
  revert ti ids. induction hs as [|h hs IH]; simpl; intros ti ids Hj Hk Hn; [naive_solver|].
  destruct (remove_from_turn_index_keeps ti (id h) (source h) j ids k) as (ids' & E & Hk'); [done..|apply Hn; by left|].
  apply (IH _ _ E Hk'). intros h' Hh'. apply Hn. by right.
Qed.

Lemma elem_index_all ti hs j ids k :
  foldl index ti hs !! j = Some ids → k ∈ ids →
  (∃ h, h ∈ hs ∧ prompt_index (source h) = Some j ∧ k = id h) ∨ (∃ ids', ti !! j = Some ids' ∧ k ∈ ids').
Proof.
  revert ti. induction hs as [|h hs IH]; simpl; intros ti Hj Hk; [naive_solver|].
  destruct (IH _ Hj Hk) as [(h' & Hh' & ?)|(ids1 & E1 & Hk1)].
  - left. exists h'. split; [by right|done].
  - unfold index in E1. destruct (prompt_index (source h)) as [p|] eqn:Ep; [|naive_solver].
    revert E1. rewrite lookup_insert_Some. intros [[-> <-]|[Hne E1]]; [|naive_solver].
    apply elem_of_union in Hk1 as [Hk1%elem_of_singleton|Hk1].
    + left. exists h. split; [by left|done].
    + right. destruct (ti !! j); simpl in Hk1; [naive_solver|set_solver].
Qed.

Lemma index_keeps ti h j ids k : ti !! j = Some ids → k ∈ ids → ∃ ids', index ti h !! j = Some ids' ∧ k ∈ ids'.
Proof.
  unfold index. destruct (prompt_index (source h)) as [p|]; [|naive_solver]. intros Hj Hk.
  destruct (decide (p = j)) as [->|?].
  - rewrite lookup_insert_eq, Hj. eexists. split; [done|]. simpl. set_solver.
  - rewrite lookup_insert_ne by done. naive_solver.
Qed.

Lemma index_all_keeps ti hs j ids k :
  ti !! j = Some ids → k ∈ ids → ∃ ids', foldl index ti hs !! j = Some ids' ∧ k ∈ ids'.
Proof.
  revert ti ids. induction hs as [|h hs IH]; simpl; intros ti ids Hj Hk; [naive_solver|].
  destruct (index_keeps ti h j ids k Hj Hk) as (ids' & E & Hk'). by apply (IH _ _ E).
Qed.

Lemma index_all_adds ti hs h j :
  h ∈ hs → prompt_index (source h) = Some j → ∃ ids, foldl index ti hs !! j = Some ids ∧ id h ∈ ids.
Proof.
  revert ti. induction hs as [|h' hs IH]; simpl; intros ti Hh Hp; [by apply elem_of_nil in Hh|].
  apply elem_of_cons in Hh as [->|Hh]; [|by apply IH].
  eapply index_all_keeps; [unfold index; rewrite Hp; apply lookup_insert_eq|set_solver].
Qed.

(** Removing from the index hunks that are live nowhere else. *)
Definition foreign_free t p (hs : list Hunk) : Prop := ∀ h q h', h ∈ hs → q ≠ p → live t q h' → id h ≠ id h'.

Lemma inv_unindex f p hs t :
  inv_except f p t → foreign_free t p hs → inv_except f p (set_turn_index (foldl unindex (turn_index t) hs) t).
Proof.
  intros (Hc & Hs & Hi) Hfree. split; [split|split]; try apply Hc; try apply Hs.
  - intros i ids k E Hk. destruct (elem_unindex_all _ _ _ _ _ E Hk) as (ids' & E' & Hk' & _).
    by apply (core_turn_below _ Hc i ids' k).
  - intros i ids q h E Hk. destruct (elem_unindex_all _ _ _ _ _ E Hk) as (ids' & E' & Hk' & _).
    by apply (core_turn_sound _ Hc i ids' q h).
  - intros Hff q h Hne Hl i Hsrc. destruct (Hi Hff q h Hne Hl i Hsrc) as (ids & E & Hin).
    apply (unindex_all_keeps _ _ _ _ _ E Hin). intros h' Hh'. apply not_eq_sym. by apply (Hfree h' q h).
Qed.

Lemma core_foreign_free t p hs : core t → (∀ h, h ∈ hs → live t p h) → foreign_free t p hs.
Proof. intros Hc Hl h q h' Hh Hne Hl' E. apply Hne. symmetry. by apply (core_apart _ Hc p q h h'); [apply Hl|..]. Qed.

Lemma foreign_free_put t p s hs : foreign_free t p hs → foreign_free (put_file p s t) p hs.
Proof. intros Hf h q h' Hh Hne [[-> _]|[_ Hl]]%live_put; [done|by apply (Hf h q h')]. Qed.

(** ** Recomputation *)

Lemma claim_ids_from claimed old new h :
  h ∈ claim_ids claimed old new →
  (∃ n, n ∈ new ∧ id h = id n) ∨ (∃ o, o ∈ old ∧ id h = id o ∧ id o ∉ claimed).
Proof.
  revert claimed. induction new as [|n ns IH]; intros claimed; simpl; [by intros ?%elem_of_nil|].
  assert (Hrec : ∀ c, claimed ⊆ c → h ∈ claim_ids c old ns →
     (∃ n', n' ∈ n :: ns ∧ id h = id n') ∨ (∃ o, o ∈ old ∧ id h = id o ∧ id o ∉ claimed)).
  { intros c Hc [(n' & ? & ?)|(o & ? & ? & ?)]%IH; [left|right]; [exists n'|exists o]; split_and?; try done.
    - by right.
    - set_solver. }
  destruct (find_matching_old_hunk n old) as [o|] eqn:Eo.
  - case_bool_decide as Hin.
    + intros [->|Hh]%elem_of_cons; [left; exists n; split; [by left|done]|by apply (Hrec claimed)].
    + intros [->|Hh]%elem_of_cons; [|apply (Hrec ({[id o]} ∪ claimed)); [set_solver|done]].
      right. exists o. split_and!; [|done|done]. by apply (find_matching_elem n).
  - intros [->|Hh]%elem_of_cons; [left; exists n; split; [by left|done]|by apply (Hrec claimed)].
Qed.

Lemma claim_ids_nodup claimed old new :
  NoDup (id <$> new) → (∀ n o, n ∈ new → o ∈ old → id n ≠ id o) → NoDup (id <$> claim_ids claimed old new).
Proof.
  revert claimed. induction new as [|n ns IH]; intros claimed Hnd Hne; simpl; [constructor|].
  apply NoDup_cons in Hnd as [Hn Hnd].
  assert (IH' : ∀ c, NoDup (id <$> claim_ids c old ns)).
  { intros c. apply IH; [done|]. intros n' o Hn' Ho. apply Hne; [by right|done]. }
  assert (Hkept : ∀ c, NoDup (id <$> n :: claim_ids c old ns)).
  { intros c. apply NoDup_cons. split; [|done]. intros (h & E & Hh)%list_elem_of_fmap.
    destruct (claim_ids_from _ _ _ _ Hh) as [(n' & Hn' & E')|(o & Ho & E' & _)].
    - apply Hn. apply list_elem_of_fmap. exists n'. split; [congruence|done].
    - apply (Hne n o); [by left|done|congruence]. }
  destruct (find_matching_old_hunk n old) as [o|] eqn:Eo; [|apply Hkept].
  case_bool_decide; [apply Hkept|]. apply NoDup_cons. split; [|done].
  intros (h & E & Hh)%list_elem_of_fmap. simpl in E. apply find_matching_elem in Eo.
  destruct (claim_ids_from _ _ _ _ Hh) as [(n' & Hn' & E')|(o' & Ho & E' & Hc)].
  - apply (Hne n' o); [by right|done|congruence].
  - apply Hc. rewrite <- E', <- E. set_solver.
Qed.

(** Claiming an id changes neither the path nor the change itself. *)
Lemma claim_ids_view {B} (f : Hunk → B) claimed old new :
  (∀ o n, f (inherit o n) = f n) → f <$> claim_ids claimed old new = f <$> new.
Proof.
  intros Hf. revert claimed. induction new as [|n ns IH]; intros claimed; simpl; [done|].
  destruct (find_matching_old_hunk n old); [|simpl; by rewrite IH].
  case_bool_decide; simpl; rewrite IH; [done|]. by rewrite Hf.
Qed.

Lemma compute_hunks_ids changes n now p b c src :
  id <$> compute_hunks changes n now p b c src
  = imap (λ i _, n + N.of_nat i)%N (compute_hunks changes n now p b c src).
Proof.
  unfold compute_hunks. destruct (str_eqb b c); [done|]. destruct (too_large_to_diff b c); [done|].
  destruct changes as [cs|]; [|done]. apply list_eq. intros i.
  rewrite list_lookup_fmap, !list_lookup_imap. by destruct (collect_hunks _ _ _ _ !! i).
Qed.
Lemma fresh_hunks_ids d n p b c src :
  id <$> fresh_hunks d n p b c src = imap (λ i _, n + N.of_nat i)%N (fresh_hunks d n p b c src).
Proof.
  unfold fresh_hunks. destruct b, c; try done; try apply compute_hunks_ids;
    destruct (str_eqb _ _); try done; simpl; by rewrite N.add_0_r.
Qed.
Lemma fresh_hunks_range d n p b c src h :
  h ∈ fresh_hunks d n p b c src → (n ≤ id h < n + N.of_nat (length (fresh_hunks d n p b c src)))%N.
Proof.
  intros Hh. assert (id h ∈ id <$> fresh_hunks d n p b c src) as Hi by (by apply list_elem_of_fmap_2).
  rewrite fresh_hunks_ids in Hi. apply elem_of_lookup_imap_1 in Hi as (i & x & -> & Hx).
  apply lookup_lt_Some in Hx. lia.
Qed.
Lemma fresh_hunks_nodup d n p b c src : NoDup (id <$> fresh_hunks d n p b c src).
Proof.
  rewrite fresh_hunks_ids. apply NoDup_alt. intros i j x. rewrite !list_lookup_imap.
  intros (h & _ & E)%fmap_Some (h' & _ & E')%fmap_Some. lia.
Qed.
Lemma fresh_hunks_path d n p b c src h : h ∈ fresh_hunks d n p b c src → path h = p.
Proof.
  unfold fresh_hunks. destruct b, c; intros Hh; try (by apply elem_of_nil in Hh).
  - destruct (str_eqb _ _); [by apply elem_of_nil in Hh|]. by apply list_elem_of_singleton in Hh as ->.
  - destruct (str_eqb _ _); [by apply elem_of_nil in Hh|]. by apply list_elem_of_singleton in Hh as ->.
  - unfold compute_hunks in Hh. destruct (str_eqb _ _); [by apply elem_of_nil in Hh|].
    destruct (too_large_to_diff _ _); [by apply elem_of_nil in Hh|].
    destruct (text_diff _ _ _); [|by apply elem_of_nil in Hh].
    by apply elem_of_lookup_imap_1 in Hh as (i & b & -> & _).
Qed.

(** The hunks a recomputation leaves: ids kept from the old hunks or new, one each. *)
Section Recompute.
Context (t : Tracker) (p : str) (s : FileHunkState) (c : FileContentState) (src : HunkSource).
Hypothesis (Hcore : core t) (Hs : file_states t !! p = Some s).
Let fresh := fresh_hunks (disk t) (next_id t) p (baseline s) c src.
Let news := claim_ids ∅ (hunks s) fresh.

Lemma old_live h : h ∈ hunks s → live t p h.
Proof using Hs. intros Hh. by exists s. Qed.

Lemma new_id h : h ∈ news →
  (next_id t ≤ id h < next_id t + N.of_nat (length fresh))%N ∨ ∃ o, live t p o ∧ id h = id o.
Proof using Hs.
  intros [(n & Hn & ->)|(o & Ho & E & _)]%claim_ids_from; [left; by apply fresh_hunks_range|].
  right. exists o. split; [by apply old_live|done].
Qed.
Lemma new_below h : h ∈ news → (id h < next_id t + N.of_nat (length fresh))%N.
Proof using Hs Hcore.
  intros [?|(o & Ho & ->)]%new_id; [lia|]. pose proof (core_below _ Hcore p o Ho). lia.
Qed.
Lemma new_path h : h ∈ news → path h = p.
Proof using.
  intros Hh. assert (path h ∈ path <$> news) as Hi by (by apply list_elem_of_fmap_2). unfold news in Hi.
  rewrite claim_ids_view in Hi by done. apply list_elem_of_fmap in Hi as (n & -> & Hn).
  by apply (fresh_hunks_path _ _ _ _ _ _ _ Hn).
Qed.
Lemma new_nodup : NoDup (id <$> news).
Proof using Hs Hcore.
  apply claim_ids_nodup; [apply fresh_hunks_nodup|]. intros n o Hn%fresh_hunks_range Ho E.
  pose proof (core_below _ Hcore p o (old_live o Ho)). lia.
Qed.
Lemma new_apart h q h' : h ∈ news → q ≠ p → live t q h' → id h ≠ id h'.
Proof using Hs Hcore.
  intros Hh Hne Hl E. destruct (new_id h Hh) as [?|(o & Ho & E')].
  - pose proof (core_below _ Hcore q h' Hl). lia.
  - apply Hne. symmetry. apply (core_apart _ Hcore p q o h' Ho Hl). congruence.
Qed.

(** The entries of the new turn index. *)
Let ti := foldl index (foldl unindex (turn_index t) (hunks s)) news.

Lemma new_turn_below i ids k : ti !! i = Some ids → k ∈ ids → (k < next_id t + N.of_nat (length fresh))%N.
Proof using Hs Hcore.
  intros E Hk. destruct (elem_index_all _ _ _ _ _ E Hk) as [(h & Hh & _ & ->)|(ids' & E' & Hk')].
  - by apply new_below.
  - destruct (elem_unindex_all _ _ _ _ _ E' Hk') as (ids'' & E'' & Hk'' & _).
    pose proof (core_turn_below _ Hcore i ids'' k E'' Hk''). lia.
Qed.
Lemma new_turn_other i ids q h :
  ti !! i = Some ids → id h ∈ ids → q ≠ p → live t q h → prompt_index (source h) = Some i.
Proof using Hs Hcore.
  intros E Hk Hne Hl. destruct (elem_index_all _ _ _ _ _ E Hk) as [(h' & Hh & _ & Eh)|(ids' & E' & Hk')].
  - destruct (new_apart h' q h Hh Hne Hl). done.
  - destruct (elem_unindex_all _ _ _ _ _ E' Hk') as (ids'' & E'' & Hk'' & _).
    by apply (core_turn_sound _ Hcore i ids'' q h).
Qed.
Lemma new_turn_own i ids h : ti !! i = Some ids → id h ∈ ids → h ∈ news → prompt_index (source h) = Some i.
Proof using Hs Hcore.
  intros E Hk Hh. destruct (elem_index_all _ _ _ _ _ E Hk) as [(h' & Hh' & Hp & Eh)|(ids' & E' & Hk')].
  - by rewrite (NoDup_fmap_eq id news h h' new_nodup Hh Hh' Eh).
  - destruct (elem_unindex_all _ _ _ _ _ E' Hk') as (ids'' & E'' & Hk'' & Hgone).
    destruct (new_id h Hh) as [?|(o & Ho & Eo)].
    + pose proof (core_turn_below _ Hcore i ids'' (id h) E'' Hk''). lia.
    + destruct (Hgone o); [|by apply (core_turn_sound _ Hcore i ids'' p o); [|rewrite <- Eo|]|done].
      destruct Ho as (s' & Es & Ho). by simplify_eq.
Qed.
End Recompute.

Lemma inv_recompute f p c src t : inv_except f p t → inv f (recompute_hunks p c src t).
Proof.
  intros Ht. unfold recompute_hunks. destruct (file_states t !! p) as [s|] eqn:Es;
    [|apply (inv_settle f p); [done|intros s; congruence]].
  destruct Ht as (Hc & Hs & Hi). set (cur := default missing_content c).
  set (fresh := fresh_hunks _ _ _ _ _ _). set (news := claim_ids ∅ (hunks s) fresh).
  set (t' := send_events _ _).
  assert (Hl : ∀ q h, live t' q h → (q = p ∧ h ∈ news) ∨ (q ≠ p ∧ live t q h)) by apply live_put.
  split; [split|split].
  - pose proof (core_floor _ Hc). unfold t'. cbn. lia.
  - intros q h [[-> Hh]|[Hne Hh]]%Hl; [|by apply (core_path _ Hc)]. by apply (new_path t p s cur src).
  - intros q h [[-> Hh]|[Hne Hh]]%Hl; [by apply (new_below t p s cur src)|].
    pose proof (core_below _ Hc q h Hh). unfold t'. cbn. lia.
  - intros q s'. unfold t'. cbn. rewrite lookup_insert_Some. intros [[<- <-]|[_ E]]; [|by apply (core_nodup _ Hc q)].
    by apply new_nodup.
  - intros q q' h h' [[-> Hh]|[Hne Hh]]%Hl [[-> Hh']|[Hne' Hh']]%Hl E; try done.
    + by destruct (new_apart t p s cur src Hc Es h q' h').
    + by destruct (new_apart t p s cur src Hc Es h' q h).
    + by apply (core_apart _ Hc q q' h h').
  - intros i ids k. by apply new_turn_below.
  - intros i ids q h E Hin [[-> Hh]|[Hne Hh]]%Hl.
    + by apply (new_turn_own t p s cur src Hc Es i ids h).
    + by apply (new_turn_other t p s cur src Hc Es i ids q h).
  - intros q s'. unfold t'. cbn. rewrite lookup_insert_Some. intros [[<- <-]|[Hne E]]; [|by apply (Hs q)].
    left. exists (disk t), (next_id t), p, src. by apply (claim_ids_view view).
  - intros Hf q h [[-> Hh]|[Hne Hh]]%Hl i Hp; [by apply index_all_adds|].
    destruct (Hi Hf q h Hne Hh i Hp) as (ids & E & Hin).
    destruct (unindex_all_keeps _ (hunks s) _ _ _ E Hin) as (ids' & E' & Hin').
    { intros o Ho Eo. apply Hne. by apply (core_apart _ Hc q p h o); [|exists s|]. }
    by apply (index_all_keeps _ _ _ _ _ E' Hin').
Qed.

End Inv.
Arguments core {D R} floor t.
Arguments inv_except {D R Hhost} floor failed p t.
Arguments inv {D R Hhost} floor failed t.

(** * Every operation keeps the invariant *)

Section Ops.
Context {D R : Type} {Hhost : Host D R} {Hord : HashOrder}.
Context {floor : HunkId}.
Local Abbreviation Tracker := (Tracker D R).
Local Abbreviation core := (core floor).
Local Abbreviation inv_except := (inv_except floor).
Local Abbreviation inv := (inv floor).
Implicit Types (t : Tracker) (h : Hunk) (s : FileHunkState) (p q : str).

(** ** What the invariant reads *)

Definition same_core t t' : Prop :=
  file_states t' = file_states t ∧ turn_index t' = turn_index t ∧ next_id t' = next_id t.

Lemma same_core_refl t : same_core t t.
Proof. done. Qed.

Lemma inv_except_frame f p t t' : same_core t t' → inv_except f p t → inv_except f p t'.
Proof.
  unfold inv_except, complete_except, shaped_except, indexed, live. intros (E1 & E2 & E3) (Hc & Hs & Hi).
  rewrite E1, E2. split; [|done]. destruct Hc as [H1 H2 H3 H4 H5 H6].
  split; unfold live in *; rewrite ?E1, ?E2, ?E3; done.
Qed.
Lemma inv_frame f t t' : same_core t t' → inv f t → inv f t'.
Proof.
  intros Hsame Ht. destruct (inv_except_frame f [] t t' Hsame (inv_weaken _ _ _ Ht)) as (Hc & _ & _).
  destruct Hsame as (E1 & E2 & E3), Ht as (_ & Hs & Hi). split; [done|].
  unfold shaped, complete, indexed, live. rewrite E1, E2. by split.
Qed.

Lemma cache_discovery_same o t : same_core t (cache_discovery o t).
Proof. by destruct o as [[[]|]|]. Qed.
Lemma read_baseline_same p t : same_core t (read_baseline p t).1.
Proof.
  unfold read_baseline. destruct (is_not_a_repo _); [done|].
  destruct (open_or_discover _ _ _) as [[[??]?]|]; apply cache_discovery_same.
Qed.
Lemma take_baseline_same p o t : same_core t (take_baseline p o t).1.
Proof. destruct o; [done|apply read_baseline_same]. Qed.
Lemma read_baselines_batch_same ps t : same_core t (read_baselines_batch ps t).1.
Proof.
  unfold read_baselines_batch. destruct (_ || _); [done|].
  destruct (open_or_discover _ _ _) as [[[??]?]|]; apply cache_discovery_same.
Qed.
Lemma read_repo_sync_state_same t : same_core t (read_repo_sync_state t).1.
Proof.
  unfold read_repo_sync_state. destruct (is_not_a_repo _); [done|].
  destruct (open_or_discover _ _ _) as [[[??]?]|]; apply cache_discovery_same.
Qed.

(** ** File changes *)

(** A file seen for the first time, or whose hunks are cleared, before the hunks are
    computed. *)
Lemma inv_put_recompute f p s c src es t :
  inv f t → fewer t p s → inv f (recompute_hunks p c src (send_events es (put_file p s t))).
Proof.
  intros Ht Hf. apply inv_recompute. apply (inv_except_frame f p (put_file p s t)); [done|].
  apply inv_put; [by apply inv_weaken|done].
Qed.
Lemma fewer_nil t p s : hunks s = [] → fewer t p s.
Proof. intros E. unfold fewer. rewrite E. apply sublist_nil_l. Qed.
Lemma fewer_same t p s s' : file_states t !! p = Some s → hunks s' = hunks s → fewer t p s'.
Proof. intros E E'. unfold fewer, get_hunks_for_path. by rewrite E, E'. Qed.
Hint Resolve fewer_nil fewer_same same_core_refl : core.

Lemma classify_string_present c : classify_string c ≠ Missing.
Proof. unfold classify_string. by repeat case_goal. Qed.
Lemma inv_record_agent_write f p c i prev t : inv f t → inv f (record_agent_write p c i prev t).
Proof.
  intros Ht. unfold record_agent_write. destruct (negb (is_diffable (classify_string c))) eqn:Hn.
  - assert (Hd : ∀ s, hunks s = [] → current_content s = classify_string c → described s).
    { intros s Eh Ec. left. apply (diffed_none t); [done|]. rewrite Ec. apply fresh_opaque; [by apply negb_true_iff in Hn|].
      apply classify_string_present. }
    destruct (file_states t !! p) as [s|] eqn:Es; [apply inv_put_empty; [done|done|by apply Hd]|].
    destruct prev as [prev|].
    { apply (inv_frame f (put_file p (new_file_state (classify_string prev) (classify_string c) true) t)); [done|].
      apply inv_put_empty; [done|done|by apply Hd]. }
    pose proof (read_baseline_same p t) as Hsame. destruct (read_baseline p t) as [t' b]. simpl in Hsame.
    apply (inv_frame f (put_file p (new_file_state b (classify_string c) true) t')); [done|].
    apply inv_put_empty; [by apply (inv_frame f t)|done|by apply Hd].
  - destruct (file_states t !! p) as [s|] eqn:Es.
    + apply inv_recompute, inv_put; [by apply inv_weaken|]. by eapply fewer_same.
    + pose proof (read_baseline_same p t) as Hsame. destruct (read_baseline p t) as [t' b]. simpl in Hsame.
      apply inv_put_recompute; [by apply (inv_frame f t)|by apply fewer_nil].
Qed.

Lemma inv_process_file_change f p o t : inv f t → inv f (process_file_change p o t).
Proof.
  intros Ht. unfold process_file_change. pose proof (take_baseline_same p o t) as Hsame.
  destruct (file_states t !! p) as [s|] eqn:Es.
  - destruct (baseline_accepted s); [|by apply inv_recompute, inv_weaken].
    destruct (take_baseline p o t) as [t' b]. simpl in Hsame. apply (inv_frame f t t') in Ht; [|done].
    destruct (content_matches_head _ _ _ _); [|by apply inv_recompute, inv_weaken].
    apply inv_put_empty; [done|done|]. left. by apply (diffed_same t).
  - case_bool_decide; [done|]. destruct (take_baseline p o t) as [t' b]. simpl in Hsame.
    apply (inv_frame f t t') in Ht; [|done]. destruct (ignored_path _ _ _); [done|].
    destruct (negb (is_diffable _)) eqn:Hn; [destruct (is_diffable b) eqn:Hb|].
    + by apply inv_put_recompute; [|apply fewer_nil].
    + apply negb_true_iff in Hn. apply (inv_frame f (put_file p (new_file_state b (read_file_bounded (disk_entry (disk t) p)) false) t'));
        [done|]. apply inv_put_empty; [done|done|]. left. by apply (diffed_none t), fresh_opaque_base.
    + by apply inv_put_recompute; [|apply fewer_nil].
Qed.

(** After these the hunks are those of the diff, without an exception. *)
Lemma recompute_diffed p c src t s : file_states (recompute_hunks p c src t) !! p = Some s → diffed s.
Proof.
  unfold recompute_hunks. destruct (file_states t !! p) as [s0|] eqn:Es; [|congruence].
  cbn. rewrite lookup_insert_eq. intros [= <-]. exists (disk t), (next_id t), p, src. by apply (claim_ids_view view).
Qed.
Lemma put_diffed p s s' t : file_states (put_file p s t) !! p = Some s' → diffed s → diffed s'.
Proof. cbn. rewrite lookup_insert_eq. by intros [= <-]. Qed.
Lemma agent_write_diffed p c i prev t s : file_states (record_agent_write p c i prev t) !! p = Some s → diffed s.
Proof.
  unfold record_agent_write. destruct (negb (is_diffable (classify_string c))) eqn:Hn; [|apply recompute_diffed].
  assert (Hd : ∀ s, hunks s = [] → current_content s = classify_string c → diffed s).
  { intros s' Eh Ec. apply (diffed_none t); [done|]. rewrite Ec. apply fresh_opaque; [by apply negb_true_iff in Hn|].
    apply classify_string_present. }
  destruct (file_states t !! p) as [s0|]; [intros Es; eapply put_diffed; [exact Es|by apply Hd]|].
  destruct (match prev with Some _ => _ | None => _ end) as [t' b]. intros Es.
  apply (put_diffed p _ s t' Es). by apply Hd.
Qed.
Lemma file_change_diffed p o t s : file_states (process_file_change p o t) !! p = Some s → diffed s.
Proof.
  unfold process_file_change. pose proof (take_baseline_same p o t) as Hsame.
  destruct (file_states t !! p) as [s0|] eqn:Es.
  - destruct (baseline_accepted s0); [|apply recompute_diffed]. destruct (take_baseline p o t) as [t' b].
    destruct (content_matches_head _ _ _ _); [|apply recompute_diffed].
    intros Hp. apply (put_diffed _ _ _ _ Hp). by apply (diffed_same t).
  - case_bool_decide; [congruence|]. destruct (take_baseline p o t) as [t' b]. simpl in Hsame.
    destruct Hsame as (E & _ & _). destruct (ignored_path _ _ _); [rewrite E; congruence|].
    destruct (negb (is_diffable _)) eqn:Hn; [destruct (is_diffable b) eqn:Hb|]; try apply recompute_diffed.
    intros Hp. apply negb_true_iff in Hn. apply (put_diffed _ _ _ _ Hp). by apply (diffed_none t), fresh_opaque_base.
Qed.

Lemma inv_change_all f ps m t : inv f t → inv f (change_all m ps t).
Proof.
  revert m t. induction ps as [|p ps IH]; intros m t Ht; simpl; [done|].
  by apply IH, inv_process_file_change.
Qed.
Lemma inv_changes_batch f ps t : inv f t → inv f (handle_file_changes_batch ps t).
Proof.
  intros Ht. unfold handle_file_changes_batch. destruct ps as [|p ps]; [done|].
  destruct (List.filter _ _) as [|q qs]; [by apply inv_change_all|].
  pose proof (read_baselines_batch_same (q :: qs) t) as Hsame.
  destruct (read_baselines_batch _ t) as [t' m]. by apply inv_change_all, (inv_frame f t).
Qed.

Lemma inv_handle_file_deleted f p t : inv f t → inv f (handle_file_deleted p t).
Proof.
  intros Ht. unfold handle_file_deleted. destruct (file_states t !! p) as [s|] eqn:Es.
  - destruct (path_exists _ _); [by apply inv_process_file_change|by apply inv_recompute, inv_weaken].
  - case_bool_decide; [done|]. destruct (path_exists _ _); [done|].
    pose proof (read_baseline_same p t) as Hsame. destruct (read_baseline p t) as [t' b]. simpl in Hsame.
    apply (inv_frame f t t') in Ht; [|done].
    destruct b; try done; by apply inv_put_recompute; [|apply fewer_nil].
Qed.

(** ** Hunks that are dropped *)

Lemma inv_drop_put f p s s' es t : inv f t → file_states t !! p = Some s → hunks s' = [] → described s' →
  inv f (send_events es (drop_hunks p (hunks s) (put_file p s' t))).
Proof.
  intros Ht Es Hs' Hd. apply (inv_frame f (set_turn_index (foldl unindex (turn_index t) (hunks s)) (put_file p s' t)));
    [done|]. apply (inv_settle f p).
  - apply (inv_unindex f p (hunks s) (put_file p s' t)); [apply inv_put; [by apply inv_weaken|by apply fewer_nil]|].
    apply foreign_free_put. eapply core_foreign_free; [apply Ht|]. intros h Hh. by exists s.
  - intros s0. cbn. rewrite lookup_insert_eq. by intros [= <-].
Qed.
Lemma inv_drop_remove f p s es t : inv f t → file_states t !! p = Some s →
  inv f (send_events es (drop_hunks p (hunks s) (remove_path p t))).
Proof.
  intros Ht Es.
  apply (inv_frame f (remove_path p (set_turn_index (foldl unindex (turn_index t) (hunks s)) t))); [done|].
  apply inv_remove, inv_unindex; [by apply inv_weaken|].
  eapply core_foreign_free; [apply Ht|]. intros h Hh. by exists s.
Qed.

Lemma inv_reset_baseline f p t : inv f t → inv f (reset_baseline p t).
Proof. intros Ht. unfold reset_baseline. destruct (file_states t !! p) eqn:Es; [|done].
  apply inv_drop_put; [done..|]. left. by apply (diffed_same t).
Qed.

Lemma inv_foldl {A} f (step : Tracker → A → Tracker) (l : list A) t :
  (∀ t x, inv f t → inv f (step t x)) → inv f t → inv f (foldl step t l).
Proof. intros Hstep. revert t. induction l as [|x l IH]; intros t Ht; simpl; [done|]. by apply IH, Hstep. Qed.

Lemma inv_refresh_git_dirty_cache f scope t : inv f t → inv f (refresh_git_dirty_cache scope t).
Proof.
  intros Ht. unfold refresh_git_dirty_cache. destruct (is_not_a_repo _); [done|].
  destruct (match open_or_discover _ _ _ with Some _ => _ | None => _ end) as [[dirty staged] disc].
  pose proof (cache_discovery_same disc t) as Hsame. set (t1 := cache_discovery disc t) in *.
  assert (inv f (set_caches dirty staged t1)) as Ht1
    by (apply (inv_frame f t1); [done|by apply (inv_frame f t)]).
  case_bool_decide; [|done]. apply inv_foldl; [|done]. intros t' x Ht'. by apply inv_process_file_change.
Qed.

(** What a refresh takes for clean. *)
Lemma clean_described t p s : is_agent_file s = true → hunks s = [] → baseline_accepted s = false →
  is_clean p (baseline s) (current_content s) t = true → described s.
Proof.
  intros Ha Eh Eb Hcl.
  assert (Hf : found_clean s ∨ fresh_hunks (disk t) (next_id t) [] (baseline s) (current_content s) External = []).
  { unfold found_clean. destruct (baseline s), (current_content s); simpl in *; try done; auto. }
  destruct Hf as [Hf|Hf]; [by right|left; by apply (diffed_none t)].
Qed.
Lemma inv_refresh_path f m t p : inv f t → inv f (refresh_path m t p).
Proof.
  intros Ht. unfold refresh_path. destruct (file_states t !! p) as [s|] eqn:Es; [|done].
  destruct (is_clean _ _ _ _) eqn:Hcl; [destruct (is_agent_file _) eqn:Ha|].
  - apply (inv_drop_put f p s); [done..|]. by apply (clean_described t p).
  - by apply (inv_drop_remove f p s).
  - apply (inv_frame f (recompute_hunks p (Some (read_file_bounded (disk_entry (disk t) p)))
      (if is_agent_file s then ExternalEditOnAgentFile else External)
      (put_file p (set_current (read_file_bounded (disk_entry (disk t) p))
        (set_baseline (default missing_content (m !! p)) false s)) t))); [done|].
    apply inv_recompute, inv_put; [by apply inv_weaken|]. by eapply fewer_same.
Qed.

Lemma inv_refresh_all f skip t : inv f t → inv f (refresh_all_baselines_except skip t).
Proof.
  intros Ht. unfold refresh_all_baselines_except. destruct (_ && _); [done|].
  pose proof (read_repo_sync_state_same t) as Hsame. destruct (read_repo_sync_state t) as [t1 sync].
  simpl in Hsame. apply (inv_frame f t t1) in Ht; [|done]. case_bool_decide; [done|].
  assert (inv f (match sync with Some s => set_sync s t1 | None => t1 end)) as Ht2
    by (destruct sync; [by apply (inv_frame f t1)|done]).
  set (t2 := match sync with Some s => set_sync s t1 | None => t1 end) in *.
  assert (inv f (refresh_scan t2)) as Ht3.
  { unfold refresh_scan. destruct (mode t2); [|by apply inv_refresh_git_dirty_cache].
    destruct (omap _ _); [by apply (inv_frame f t2)|by apply inv_refresh_git_dirty_cache]. }
  set (t3 := refresh_scan t2) in *. set (ps := List.filter _ _).
  pose proof (read_baselines_batch_same ps t3) as Hsame3. destruct (read_baselines_batch ps t3) as [t4 m].
  apply inv_foldl; [|by apply (inv_frame f t3)]. intros t' x. apply inv_refresh_path.
Qed.

Lemma inv_set_mode f m t : inv f t → inv f (set_mode m t).
Proof.
  intros Ht. assert (inv f (put_mode m t)) as Ht' by (by apply (inv_frame f t)).
  unfold set_mode. destruct (mode t), m; [done|by apply inv_refresh_git_dirty_cache| |done].
  apply inv_foldl; [|done]. intros t1 p Ht1. unfold forget_path.
  destruct (file_states t1 !! p) eqn:Es; [by apply inv_drop_remove|done].
Qed.
End Ops.
