(* ===== verification/HunkSafety.v ===== *)
(** Hunk tracker: actions keep the invariant, so do whole turns of the actor; what the
    queries then return. *)
From Stdlib Require Import String Ascii.
From stdpp Require Import gmap.
From S2P Require Import Prelude RustStr LexPath HashIter HunkTypes HunkDiff HunkTracker HunkActor HunkInv.

Section Safety.
Context {D R : Type} {Hhost : Host D R} {Hord : HashOrder}.
Context {floor : HunkId}.
Local Abbreviation Tracker := (Tracker D R).
Local Abbreviation core := (core floor).
Local Abbreviation inv_except := (inv_except floor).
Local Abbreviation inv := (inv floor).
Implicit Types (t : Tracker) (h : Hunk) (s : FileHunkState) (p q : str) (hs : list Hunk).

(** ** Actions on the hunks of one file *)

(** A single action is a batch of one. *)
Lemma accept_hunk_batch p h t : accept_hunk p h t = accept_hunks_batch p [h] t.
Proof. unfold accept_hunk, accept_hunks_batch. destruct (file_states t !! p) as [s|]; [by destruct (baseline s)|done]. Qed.
Lemma reject_hunk_batch p h t : reject_hunk p h t = reject_hunks_batch p [h] t.
Proof. done. Qed.

Lemma note_actions_eq a hs t :
  file_states (foldl (note_action a) t hs) = file_states t
  ∧ turn_index (foldl (note_action a) t hs) = foldl unindex (turn_index t) hs
  ∧ next_id (foldl (note_action a) t hs) = next_id t.
Proof.
  revert t. induction hs as [|h hs IH]; intros t; simpl; [done|].
  destruct (IH (note_action a t h)) as (-> & -> & ->). done.
Qed.

Lemma note_actions_disk a hs t : disk (foldl (note_action a) t hs) = disk t.
Proof. revert t. induction hs as [|h hs IH]; intros t; [done|]. exact (IH (note_action a t h)). Qed.

(** The state of an action between its bookkeeping and its effect. *)
Definition acting f p t : Prop := inv_except f p t ∧ shaped t.

Lemma acting_noted f p a s hs t :
  inv f t → file_states t !! p = Some s → (∀ h, h ∈ hs → h ∈ hunks s) → acting f p (foldl (note_action a) t hs).
Proof.
  intros Ht Es Hin. destruct (note_actions_eq a hs t) as (E1 & E2 & E3). split.
  - apply (inv_except_frame f p (set_turn_index (foldl unindex (turn_index t) hs) t)); [done|].
    apply inv_unindex; [by apply inv_weaken|]. eapply core_foreign_free; [apply Ht|].
    intros h Hh. exists s. split; [done|by apply Hin].
  - unfold shaped. rewrite E1. apply Ht.
Qed.

Lemma described_lone s : described s → baseline s = Missing ∨ current_content s = Missing → length (hunks s) ≤ 1.
Proof.
  intros [(d & n & p & src & E)|[-> _]] Hm; [|simpl; lia]. apply (f_equal length) in E. rewrite !length_fmap in E.
  rewrite E. unfold fresh_hunks.
  destruct Hm as [->| ->]; [destruct (current_content s)|destruct (baseline s)]; simpl; try lia;
    destruct (str_eqb _ _); simpl; lia.
Qed.
Lemma described_patchable s patched : described s → hunks s ≠ [] → reject_action s patched ≠ NoOp.
Proof.
  intros Hd Hne. destruct (described_ne s Hd Hne) as (d & n & p & src & E). unfold reject_action.
  assert (fresh_hunks d n p (baseline s) (current_content s) src ≠ []) as Hf.
  { intros E0. rewrite E0 in E. by apply fmap_nil_inv in E. }
  unfold fresh_hunks in Hf. by destruct (baseline s), (current_content s).
Qed.

Lemma retain_fewer t p s s' ids :
  file_states t !! p = Some s → hunks s' = retain_except ids (hunks s) → fewer t p s'.
Proof. intros E E'. unfold fewer, get_hunks_for_path. rewrite E, E'. apply filterb_sublist. Qed.
Lemma retain_lone hs s : length (hunks s) ≤ 1 → hs ≠ [] → (∀ h, h ∈ hs → h ∈ hunks s) →
  retain_except (id <$> hs) (hunks s) = [].
Proof.
  intros Hlen Hne Hin. destruct hs as [|h hs]; [done|]. assert (h ∈ hunks s) as Hh by (apply Hin; by left).
  destruct (hunks s) as [|h' [|]]; simpl in Hlen; [by apply elem_of_nil in Hh| |lia].
  apply list_elem_of_singleton in Hh as <-. unfold retain_except. simpl. rewrite bool_decide_true; [done|]. by left.
Qed.

Lemma match_ne {A B} (l : list A) (a b : B) : l ≠ [] → match l with [] => a | _ :: _ => b end = b.
Proof. by destruct l. Qed.

Section File.
Context (f : bool) (p : str) (s : FileHunkState) (hs : list Hunk).
Hypothesis (Hne : hs ≠ []) (Hin : ∀ h, h ∈ hs → h ∈ hunks s).

(** The file is settled when the hunks retained are none. *)
Lemma inv_put_lone s' es t : acting f p t → file_states t !! p = Some s →
  length (hunks s) ≤ 1 → hunks s' = retain_except (id <$> hs) (hunks s) → current_content s' = baseline s' →
  inv f (send_events es (put_file p s' t)).
Proof using All.
  intros Ht Es Hlen E Esame. apply (inv_frame f (put_file p s' t)); [done|]. apply (inv_settle f p).
  - apply inv_put; [apply Ht|]. by eapply retain_fewer.
  - intros s0. cbn. rewrite lookup_insert_eq. intros [= <-].
    assert (hunks s' = []) as Eh by (by rewrite E, retain_lone). split; [done|]. left. by apply (diffed_same t).
Qed.
Lemma inv_put_retained s' es c src t : acting f p t → file_states t !! p = Some s →
  hunks s' = retain_except (id <$> hs) (hunks s) →
  inv f (recompute_hunks p c src (send_events es (put_file p s' t))).
Proof using All.
  intros Ht Es E. apply inv_recompute, (inv_except_frame f p (put_file p s' t)); [done|].
  apply inv_put; [apply Ht|]. by eapply retain_fewer.
Qed.

Lemma inv_accept_batch t : acting f p t → file_states t !! p = Some s → inv f (accept_hunks_batch p hs t).
Proof using All.
  intros Ht Es. unfold accept_hunks_batch. rewrite Es, match_ne by done.
  destruct (baseline s) eqn:Eb; try by apply inv_put_retained.
  apply inv_put_lone; [done..| |done|done]. apply described_lone; [|by left]. destruct Ht as [_ Hs]. by apply (Hs p).
Qed.

Lemma reject_io_same a t : same_core t (reject_io p a t).1.
Proof using. destruct a; simpl; [destruct (fs_write _ _ _)|destruct (remove_file _ _)|destruct (fs_write _ _ _)|]; done. Qed.

Lemma inv_reject_finish patched t : acting f p t → file_states t !! p = Some s →
  reject_action s patched ≠ NoOp → inv f (reject_finish p (reject_action s patched) hs s t).
Proof using All.
  intros Ht Es. unfold reject_finish.
  assert (current_content s = Missing ∨ baseline s = Missing → length (hunks s) ≤ 1) as Hlone.
  { intros Hm. apply described_lone; [|naive_solver]. destruct Ht as [_ Hs]. by apply (Hs p). }
  unfold reject_action.
  destruct (current_content s), (baseline s) eqn:Eb; try done; intros _;
    first [by apply inv_put_retained|apply inv_put_lone; simpl; auto].
Qed.

Lemma inv_reject_batch t t' r : acting f p t → file_states t !! p = Some s →
  reject_hunks_batch p hs t = (t', r) → inv (f || negb (is_ok r)) t'.
Proof using All.
  intros Ht Es. unfold reject_hunks_batch. rewrite match_ne by done.
  unfold reject_with. rewrite Es. set (patched := λ current, _).
  assert (reject_action s patched ≠ NoOp) as Ha.
  { apply described_patchable; [destruct Ht as [_ Hs]; by apply (Hs p)|]. intros E.
    destruct hs as [|h hs']; [done|]. apply (not_elem_of_nil h). rewrite <- E. apply Hin. by left. }
  pose proof (reject_io_same (reject_action s patched) t) as Hsame.
  destruct (reject_io p _ t) as [t1 r1]. simpl in Hsame.
  assert (acting f p t1) as Ht1.
  { split; [by apply (inv_except_frame f p t); [|apply Ht]|]. destruct Hsame as (E1 & _ & _).
    unfold shaped. rewrite E1. apply Ht. }
  destruct r1 as [u|e]; intros [= <- <-]; simpl.
  - rewrite orb_false_r. apply inv_reject_finish; [done| |done]. destruct Hsame as (-> & _). done.
  - rewrite orb_true_r. destruct Ht1 as [H1 H2]. by apply (inv_fail f p).
Qed.
End File.
(** ** Actions touch one file *)

Lemma recompute_other p q c src t : q ≠ p → file_states (recompute_hunks p c src t) !! q = file_states t !! q.
Proof.
  intros Hne. unfold recompute_hunks. destruct (file_states t !! p); [|done]. cbn. by rewrite lookup_insert_ne.
Qed.
Lemma put_other p q s t : q ≠ p → file_states (put_file p s t) !! q = file_states t !! q.
Proof. intros Hne. cbn. by rewrite lookup_insert_ne. Qed.
Lemma put_events_other p q s es t : q ≠ p → file_states (send_events es (put_file p s t)) !! q = file_states t !! q.
Proof. apply put_other. Qed.
Hint Rewrite recompute_other put_events_other using done : hunk_frame.

Lemma accept_other p q hs t : q ≠ p → file_states (accept_hunks_batch p hs t) !! q = file_states t !! q.
Proof.
  intros Hne. unfold accept_hunks_batch. destruct hs as [|h hs]; [done|].
  destruct (file_states t !! p) as [s|]; [|done].
  destruct (baseline s); autorewrite with hunk_frame; done.
Qed.
Lemma reject_other p q hs t : q ≠ p → file_states (reject_hunks_batch p hs t).1 !! q = file_states t !! q.
Proof.
  intros Hne. unfold reject_hunks_batch. destruct hs as [|h hs]; [done|]. unfold reject_with.
  destruct (file_states t !! p) as [s|]; [|done]. set (a := reject_action s _).
  pose proof (reject_io_same p a t) as (E & _). destruct (reject_io p a t) as [t1 [u|e]]; simpl in *; [|by rewrite E].
  rewrite <- E. unfold reject_finish. destruct a; autorewrite with hunk_frame; done.
Qed.

(** ** Batches *)

(** Each file of a batch is tracked, and the hunks to act on are some of its hunks. *)
Definition selects t (l : list (str * list Hunk)) : Prop :=
  NoDup l.*1 ∧ ∀ p hs, (p, hs) ∈ l → hs ≠ [] ∧ ∃ s, file_states t !! p = Some s ∧ ∀ h, h ∈ hs → h ∈ hunks s.

Lemma selects_tail t t' p hs l :
  selects t ((p, hs) :: l) → (∀ q, q ≠ p → file_states t' !! q = file_states t !! q) → selects t' l.
Proof.
  intros [Hnd Hl] Ho. simpl in Hnd. apply NoDup_cons in Hnd as [Hp Hnd]. split; [done|].
  intros q qs Hq. destruct (Hl q qs) as (Hne & s & Es & Hin); [by right|]. split; [done|].
  exists s. split; [|done]. rewrite Ho; [done|]. intros ->. apply Hp. apply list_elem_of_fmap. by exists (p, qs).
Qed.

Lemma inv_apply_batch a l aff f t t' r :
  selects t l → inv f t → apply_action_batch l a aff t = (t', r) → inv (f || negb (is_ok r)) t'.
Proof.
  revert aff t. induction l as [|[p hs] l IH]; intros aff t Hsel Ht; simpl.
  - intros [= <- <-]. by rewrite orb_false_r.
  - destruct (proj2 Hsel p hs) as (Hne & s & Es & Hin); [by left|].
    pose proof (acting_noted f p a s hs t Ht Es Hin) as Hact. destruct (note_actions_eq a hs t) as (E1 & _ & _).
    set (t0 := foldl (note_action a) t hs) in *. rewrite <- E1 in Es. destruct a.
    + apply IH; [|by apply (inv_accept_batch f p s)].
      apply (selects_tail t _ p hs); [done|]. intros q Hq. by rewrite accept_other, E1.
    + destruct (reject_hunks_batch p hs t0) as [t1 r1] eqn:Er.
      pose proof (inv_reject_batch f p s hs Hne Hin t0 t1 r1 Hact Es Er) as Ht1.
      destruct r1 as [u|e]; [|by intros [= <- <-]]. simpl in Ht1. rewrite orb_false_r in Ht1.
      apply IH; [|done]. apply (selects_tail t _ p hs); [done|]. intros q Hq.
      pose proof (reject_other p q hs t0 Hq) as Ho. rewrite Er in Ho. simpl in Ho. by rewrite Ho, E1.
Qed.

Lemma elem_of_files_with P l p hs :
  (p, hs) ∈ files_with P l → hs ≠ [] ∧ ∃ s, (p, s) ∈ l ∧ hs = List.filter P (hunks s).
Proof.
  unfold files_with. rewrite list_elem_of_omap. intros ([q s] & Hq & E).
  destruct (List.filter P (hunks s)) eqn:Ef; [done|]. simplify_eq. rewrite <- Ef. split; [by rewrite Ef|by exists s].
Qed.
Lemma files_with_keys P l : sublist (files_with P l).*1 l.*1.
Proof.
  induction l as [|[q s] l IH]; [constructor|]. unfold files_with in *. simpl.
  destruct (List.filter P (hunks s)); by constructor.
Qed.
Lemma files_with_selects P t : selects t (files_with P (iter (file_states t))).
Proof.
  split; [eapply sublist_NoDup; [apply (iter_keys_NoDup (file_states t))|apply files_with_keys]|].
  intros p hs (Hne & s & Hs%elem_of_iter & ->)%elem_of_files_with. split; [done|]. exists s. split; [done|].
  intros h. rewrite elem_of_filterb. tauto.
Qed.
Lemma turn_selects P t : selects t (iter (list_to_map (files_with P (iter (file_states t))) : gmap str (list Hunk))).
Proof.
  split; [apply (iter_keys_NoDup (list_to_map (files_with P (iter (file_states t))) : gmap str (list Hunk)))|].
  intros p hs H%elem_of_iter%elem_of_list_to_map_2.
  by apply (files_with_selects P t).
Qed.

Lemma apply_file_batch p s a t : file_states t !! p = Some s → hunks s ≠ [] →
  apply_file_action p a t = apply_action_batch [(p, hunks s)] a [] t.
Proof. intros E Hne. unfold apply_file_action. rewrite E. by destruct (hunks s). Qed.
Lemma inv_apply_file f p a t t' r : inv f t → apply_file_action p a t = (t', r) → inv (f || negb (is_ok r)) t'.
Proof.
  intros Ht. unfold apply_file_action. destruct (file_states t !! p) as [s|] eqn:Es;
    [|intros [= <- <-]; by rewrite orb_false_r].
  destruct (hunks s) as [|h hs] eqn:Eh; [intros [= <- <-]; by rewrite orb_false_r|].
  apply inv_apply_batch; [|done]. split; [apply NoDup_singleton|].
  intros q qs [= -> ->]%list_elem_of_singleton. split; [done|]. exists s. by rewrite Eh.
Qed.

Lemma find_hunk_live i t p h : find_hunk i t = Some (p, h) → live t p h ∧ id h = i.
Proof.
  unfold find_hunk. intros Hh%head_Some_elem_of. apply list_elem_of_omap in Hh as ([q s] & Hq%elem_of_iter & E).
  destruct (List.find _ _) as [h'|] eqn:Ef; [|done]. simpl in E. simplify_eq. apply find_In in Ef as [Hin Hid].
  apply N.eqb_eq in Hid. split; [by exists s|done].
Qed.
(** An error of the disk, as opposed to an unknown hunk. *)
Definition disk_error {T} (r : result T HunkActionError) : bool :=
  match r with Err (HunkNotFound _) | Ok _ => false | Err _ => true end.
Lemma reject_with_error p patched hs t t' e : reject_with p patched hs t = (t', Err e) → disk_error (Err e : result unit _) = true.
Proof.
  unfold reject_with. destruct (file_states t !! p) as [s|]; [|done]. set (a := reject_action s _).
  destruct (reject_io p a t) as [t1 r] eqn:Er. unfold reject_io in Er. destruct r as [u|e']; [done|].
  intros [= _ <-]. destruct a; simpl in Er; [destruct (fs_write _ _ _) as [? []]|destruct (remove_file _ _) as [? []]|
    destruct (fs_write _ _ _) as [? []]|]; by simplify_eq.
Qed.
Lemma inv_apply_hunk f i a t t' r : inv f t → apply_hunk_action i a t = (t', r) → inv (f || disk_error r) t'.
Proof.
  intros Ht. unfold apply_hunk_action. destruct (find_hunk i t) as [[p h]|] eqn:Ef.
  - apply find_hunk_live in Ef as [(s & Es & Hh) _].
    assert (Hin : ∀ h', h' ∈ [h] → h' ∈ hunks s) by (by intros h' ->%list_elem_of_singleton).
    pose proof (acting_noted f p a s [h] t Ht Es Hin) as Hact. simpl in Hact. destruct a.
    + rewrite accept_hunk_batch. intros [<- <-]%pair_equal_spec. rewrite orb_false_r. by apply (inv_accept_batch f p s).
    + intros Er. destruct r as [u|e]; [|rewrite (reject_with_error _ _ _ _ _ _ Er)];
        by apply (inv_reject_batch f p s [h] ltac:(done) Hin _ _ _ Hact Es) in Er.
  - intros [= <- <-]. by rewrite orb_false_r.
Qed.

(** ** Snapshots and commands *)

(** A snapshot that agrees with the invariant, of a time when the supply was at most [n]. *)
Definition snapshot_ok f (n : HunkId) (sn : HunkTrackerSnapshot) : Prop :=
  ∃ t0, HunkInv.inv 0%N f t0 ∧ (next_id t0 ≤ n)%N ∧ file_states t0 = sn_file_states sn ∧ turn_index t0 = sn_turn_index sn.

Lemma snapshot_file_state_id s : snapshot_file_state s = s.
Proof. by destruct s. Qed.
Lemma inv_restore f sn t : inv f t → snapshot_ok f (next_id t) sn → inv f (restore_snapshot sn t).
Proof.
  intros Ht (t0 & (Hc & Hs & Hi) & Hle & E1 & E2).
  assert (E : file_states (restore_snapshot sn t) = file_states t0).
  { cbn. rewrite E1. apply map_eq. intros q. rewrite lookup_fmap.
    destruct (sn_file_states sn !! q); simpl; [by rewrite snapshot_file_state_id|done]. }
  assert (Et : turn_index (restore_snapshot sn t) = turn_index t0) by done.
  assert (En : next_id (restore_snapshot sn t) = next_id t) by done.
  unfold inv, shaped, complete, indexed, live in *. rewrite E, Et. split; [|done].
  destruct Hc as [_ H1 H2 H3 H4 H5 H6], Ht as [[Hfl _ _ _ _ _ _] _].
  split; unfold live in *; rewrite ?E, ?Et, ?En; try done.
  - intros p h Hl. specialize (H2 p h Hl). lia.
  - intros i ids k Hids Hk. specialize (H5 i ids k Hids Hk). lia.
Qed.

Definition reply_failed (r : Reply) : bool :=
  match r with RResult r => disk_error r | RAffected r => negb (is_ok r) | _ => false end.
Definition restores_well f n (cmd : HunkTrackerCommand) : Prop :=
  ∀ sn, cmd = RestoreState sn → snapshot_ok f n sn.

Lemma inv_handle_command f cmd t : inv f t → restores_well f (next_id t) cmd →
  inv (f || reply_failed (handle_tracker_command cmd t).2) (handle_tracker_command cmd t).1.
Proof.
  intros Ht Hr. destruct cmd; simpl; rewrite ?orb_false_r; try done; try (by apply (inv_frame f t)).
  - by apply inv_record_agent_write.
  - by apply inv_process_file_change.
  - by apply inv_handle_file_deleted.
  - by apply inv_refresh_git_dirty_cache.
  - by apply inv_reset_baseline.
  - by apply inv_set_mode.
  - destruct (apply_hunk_action _ _ _) as [t' r] eqn:E. by apply (inv_apply_hunk f) in E.
  - destruct (apply_file_action _ _ _) as [t' r] eqn:E. by apply (inv_apply_file f) in E.
  - destruct (apply_all_action _ _) as [t' r] eqn:E.
    by apply (inv_apply_batch _ _ _ f) in E; [|apply files_with_selects|].
  - destruct (apply_turn_action _ _ _) as [t' r] eqn:E.
    by apply (inv_apply_batch _ _ _ f) in E; [|apply turn_selects|].
  - by apply inv_refresh_all.
  - apply inv_restore; [done|by apply Hr].
Qed.
End Safety.
