(* ===== verification/HunkReach.v ===== *)
(** Hunk tracker: whole turns of the actor, the states it reaches, and what its queries
    return in them. *)
From Stdlib Require Import String Ascii.
From stdpp Require Import gmap.
From S2P Require Import Prelude RustStr LexPath HashIter HunkTypes HunkDiff HunkPatch HunkTracker HunkActor HunkLoc HunkWorld HunkInv HunkSafety.

Section Reach.
Context {D R : Type} {Hhost : Host D R} {Hord : HashOrder}.
Local Abbreviation Tracker := (Tracker D R).
Implicit Types (t : Tracker) (h : Hunk) (s : FileHunkState) (p q : str).

(** ** Flags, floors and snapshots *)

Lemma inv_flag (floor : HunkId) f b t : inv floor f t → inv floor (f || b) t.
Proof. intros (Hc & Hs & Hi). split_and!; [done..|]. intros [-> _]%orb_false_iff. by apply Hi. Qed.
Lemma inv_floor (floor n : HunkId) f t : inv floor f t → (n ≤ next_id t)%N → inv n f t.
Proof. intros ([_ H1 H2 H3 H4 H5 H6] & Hs & Hi) Hn. split_and!; [by split|done..]. Qed.

Lemma snapshot_ok_weaken f b n m sn :
  snapshot_ok (D := D) (R := R) f n sn → (n ≤ m)%N → snapshot_ok (D := D) (R := R) (f || b) m sn.
Proof. intros (t0 & Ht & Hle & E) Hm. exists t0. split_and!; [by apply inv_flag|lia|apply E..]. Qed.

Lemma snapshot_ok_taken (floor : HunkId) f t : inv floor f t → snapshot_ok f (next_id t) (take_snapshot t).
Proof.
  intros Ht. exists t. split_and!; [apply (inv_floor floor); [done|lia]|lia| |done].
  simpl. apply map_eq. intros q. rewrite lookup_fmap.
  destruct (file_states t !! q); simpl; [by rewrite snapshot_file_state_id|done].
Qed.

(** ** Rewriting the paths of a snapshot *)

Definition moved a b c p : str := default p (rewrite_single_path p a b c).
Lemma rewrite_paths_lookup a b c sn q st :
  sn_file_states (rewrite_paths a b c sn) !! q = Some st →
  ∃ p s, sn_file_states sn !! p = Some s ∧ moved a b c p = q ∧ st = set_hunks (set_path q <$> hunks s) s.
Proof.
  simpl. assert (Hin : ∀ l (m : gmap str FileHunkState), (∀ p s, (p, s) ∈ l → sn_file_states sn !! p = Some s) →
    foldl (λ m '(p, s), <[moved a b c p := set_hunks (set_path (moved a b c p) <$> hunks s) s]> m) m l !! q = Some st →
    m !! q = Some st ∨
    ∃ p s, sn_file_states sn !! p = Some s ∧ moved a b c p = q ∧ st = set_hunks (set_path q <$> hunks s) s).
  { induction l as [|[p s] l IH]; simpl; intros m Hl Hq; [by left|].
    destruct (IH _ (λ p' s' H', Hl p' s' (list_elem_of_further _ _ _ H')) Hq) as [E|?]; [|by right].
    apply lookup_insert_Some in E as [[E1 E2]|[_ E]]; [|by left].
    right. exists p, s. split_and!; [apply Hl; by left|done|congruence]. }
  intros Hq. destruct (Hin (iter (sn_file_states sn)) ∅) as [E|?]; [|done| |done].
  - intros p s. by rewrite elem_of_iter.
  - by rewrite lookup_empty in E.
Qed.

Lemma snapshot_ok_rewritten f n sn a b c :
  snapshot_ok (D := D) (R := R) f n sn → snapshot_ok (D := D) (R := R) f n (rewrite_paths a b c sn).
Proof.
  intros (t0 & (Hc & Hs & Hi) & Hle & E1 & E2). set (sn' := rewrite_paths a b c sn).
  exists (set_files (sn_file_states sn') t0).
  assert (Hget : ∀ q st, sn_file_states sn' !! q = Some st → ∃ p s, file_states t0 !! p = Some s
    ∧ moved a b c p = q ∧ st = set_hunks (set_path q <$> hunks s) s).
  { rewrite E1. apply rewrite_paths_lookup. }
  assert (Hl : ∀ q h, live (set_files (sn_file_states sn') t0) q h →
    ∃ p h0, live t0 p h0 ∧ moved a b c p = q ∧ h = set_path q h0).
  { intros q h (st & Est & Hh). destruct (Hget q st Est) as (p & s & Es & Ep & ->). simpl in Hh.
    apply list_elem_of_fmap in Hh as (h0 & -> & Hh0). exists p, h0. split_and!; [by exists s|done..]. }
  split_and!; [|done..]. split_and!; [split|..].
  - apply (core_floor _ Hc).
  - by intros q h (p & h0 & _ & _ & ->)%Hl.
  - intros q h (p & h0 & Hh & _ & ->)%Hl. by apply (core_below _ Hc p h0).
  - intros q st Est. destruct (Hget q st Est) as (p & s & Es & _ & ->). simpl.
    rewrite <- list_fmap_compose. by apply (core_nodup _ Hc p).
  - intros q q' h h' (p & h0 & Hh & Eq & ->)%Hl (p' & h0' & Hh' & Eq' & ->)%Hl E.
    by rewrite <- Eq, <- Eq', (core_apart _ Hc p p' h0 h0').
  - apply (core_turn_below _ Hc).
  - intros i ids q h Ei Hin (p & h0 & Hh & _ & ->)%Hl. by apply (core_turn_sound _ Hc i ids p h0).
  - intros q st Est. destruct (Hget q st Est) as (p & s & Es & _ & ->).
    destruct (Hs p s Es) as [(d & m & p' & src & E)|(E & Hf)]; [left|right; split; [simpl; by rewrite E|done]].
    exists d, m, p', src. simpl. rewrite <- list_fmap_compose. exact E.
  - intros Hf q h (p & h0 & Hh & _ & ->)%Hl. apply (Hi Hf p h0 Hh).
Qed.

(** ** Turns of the actor *)

Section Turn.
Context {floor : HunkId}.

Lemma inv_handle_commands cmds f t : inv floor f t → (∀ c, c ∈ cmds → restores_well (D := D) (R := R) f floor c) →
  inv floor (f || existsb reply_failed (handle_commands cmds t).2) (handle_commands cmds t).1.
Proof.
  revert f t. induction cmds as [|c cs IH]; intros f t Ht Hr; simpl; [by rewrite orb_false_r|].
  assert (inv floor (f || reply_failed (handle_tracker_command c t).2) (handle_tracker_command c t).1) as Hc.
  { apply inv_handle_command; [done|]. intros sn E. rewrite <- (orb_false_r f).
    eapply snapshot_ok_weaken; [apply (Hr c); [by left|done]|apply (core_floor _ (proj1 Ht))]. }
  destruct (handle_tracker_command c t) as [t1 r]. simpl in Hc.
  specialize (IH _ t1 Hc). destruct (handle_commands cs t1) as [t2 rs]. simpl in *. rewrite orb_assoc. apply IH.
  intros c' Hc' sn E. eapply snapshot_ok_weaken; [apply (Hr c'); [by right|done]|done].
Qed.

Lemma inv_handle_file_actions f b t : inv floor f t → inv floor f (handle_file_actions b t).
Proof.
  intros Ht. unfold handle_file_actions. destruct (refresh_all b).
  - assert (∀ l acc, inv floor f acc.1 → inv floor f (foldl refresh_file_action acc l).1) as Hl.
    { induction l as [|[p a] l IH]; intros [t' seen] Ht'; simpl in *; [done|]. apply IH.
      destruct (is_change a), (tracked p t'); simpl; try done; [by apply inv_process_file_change|].
      by apply inv_handle_file_deleted. }
    specialize (Hl (iter (file_actions b)) (t, ∅) Ht). destruct (foldl refresh_file_action _ _) as [t' skip].
    by apply inv_refresh_all.
  - apply inv_changes_batch, inv_foldl; [|done]. intros t' [p a] Ht'. simpl.
    destruct (is_change a); [done|by apply inv_handle_file_deleted].
Qed.
End Turn.

Lemma add_other b cmd c : c ∈ other_commands (add b cmd) → c ∈ other_commands b ∨ c = cmd.
Proof. destruct cmd; simpl; try (by left); rewrite elem_of_app, list_elem_of_singleton; tauto. Qed.
Lemma drained_other cmds b c : c ∈ other_commands (foldl add b cmds) → c ∈ other_commands b ∨ c ∈ cmds.
Proof.
  revert b. induction cmds as [|cmd cmds IH]; intros b Hc; simpl in *; [by left|].
  apply IH in Hc as [[Hc| ->]%add_other|Hc]; [by left|right; by left|right; by right].
Qed.

Lemma inv_turn f t cmd queued : inv 0%N f t →
  (∀ c, c ∈ cmd :: queued → restores_well (D := D) (R := R) f (next_id t) c) →
  inv 0%N (f || existsb reply_failed (actor_turn cmd queued t).1.2) (actor_turn cmd queued t).1.1.
Proof.
  intros Ht Hr. apply (inv_floor (next_id t)); [|lia]. apply (inv_floor _ (next_id t)) in Ht; [|lia].
  unfold actor_turn. destruct (is_coalescable cmd); simpl.
  - unfold handle_coalesced_batch. apply inv_handle_commands.
    + apply inv_handle_file_actions. destruct (_ && _); [by apply inv_refresh_git_dirty_cache|done].
    + intros c Hc. apply Hr. apply drained_other in Hc as [[Hc| ->]%add_other|Hc]; [by apply elem_of_nil in Hc|by left|by right].
  - pose proof (inv_handle_command f cmd t Ht (Hr cmd ltac:(by left))) as Hc.
    destruct (handle_tracker_command cmd t) as [t' r]. simpl. by rewrite orb_false_r.
Qed.

(** ** Reachable states *)

(** The states of an actor that is started, sees the disk and the repository change under
    it and handles commands; a snapshot it is given to restore was taken of such a state,
    possibly with its paths rewritten.  The flag says whether an action failed on disk. *)
Inductive reachable : bool → Tracker → Prop :=
| reach_start wd m n d : reachable false (start wd m n d)
| reach_world f t d : reachable f t → reachable f (set_disk d t)
| reach_turn f t cmd queued :
    reachable f t → (∀ sn, RestoreState sn ∈ cmd :: queued → snapshot_of f (next_id t) sn) →
    reachable (f || existsb reply_failed (actor_turn cmd queued t).1.2) (actor_turn cmd queued t).1.1
with snapshot_of : bool → HunkId → HunkTrackerSnapshot → Prop :=
| snapshot_taken f t : reachable f t → snapshot_of f (next_id t) (take_snapshot t)
| snapshot_rewritten f n sn a b c : snapshot_of f n sn → snapshot_of f n (rewrite_paths a b c sn)
| snapshot_later f g n m sn : snapshot_of f n sn → (n ≤ m)%N → snapshot_of (f || g) m sn.

Scheme reachable_mut := Minimality for reachable Sort Prop
  with snapshot_of_mut := Minimality for snapshot_of Sort Prop.

Lemma inv_start wd m n (d : D) : inv 0%N false (start wd m n d).
Proof.
  assert (inv 0%N false (new_tracker (R := R) wd m n d)) as Hn.
  { assert (∀ q h, ¬ live (new_tracker (R := R) wd m n d) q h) as Hl by (by intros q h (s & E & _)).
    split_and!; [split|..]; try (by intros q h ?%Hl); try (by intros q q' h h' ?%Hl); try (simpl; lia); try done.
    intros f q h ?%Hl. done. }
  unfold start. case_bool_decide; [by apply inv_refresh_git_dirty_cache|done].
Qed.

Lemma reachable_inv f t : reachable f t → inv 0%N f t.
Proof.
  apply (reachable_mut (λ f t, inv 0%N f t) (λ f n sn, snapshot_ok (D := D) (R := R) f n sn)).
  - apply inv_start.
  - intros g t' d _ Ht'. by apply (inv_frame g t').
  - intros g t' cmd queued _ Ht' _ Hr. apply inv_turn; [done|]. intros c Hc sn ->. by apply Hr.
  - intros g t' _ Ht'. by eapply snapshot_ok_taken.
  - intros g n sn a b c _. apply snapshot_ok_rewritten.
  - intros g b n m sn _ Hsn Hle. by eapply snapshot_ok_weaken.
Qed.

(** ** Queries *)

Lemma elem_of_all_hunks t h : h ∈ get_all_hunks t ↔ ∃ p, live t p h.
Proof.
  unfold get_all_hunks, states, live. rewrite list_elem_of_bind. split.
  - intros (s & Hh & Hs). apply list_elem_of_fmap in Hs as ([p s'] & -> & Hs%elem_of_iter). by exists p, s'.
  - intros (p & s & Es & Hh). exists s. split; [done|]. apply list_elem_of_fmap. exists (p, s).
    split; [done|]. by apply elem_of_iter.
Qed.

Lemma all_ids_nodup (floor : HunkId) t : core floor t → NoDup (id <$> get_all_hunks t).
Proof.
  intros Hc. unfold get_all_hunks, states.
  assert (∀ l, NoDup l.*1 → (∀ p s, (p, s) ∈ l → file_states t !! p = Some s) → NoDup (id <$> (l.*2 ≫= hunks))) as Hl.
  { induction l as [|[p s] l IH]; simpl; intros Hnd Hin; [constructor|]. apply NoDup_cons in Hnd as [Hp Hnd].
    rewrite fmap_app. apply NoDup_app. split_and!.
    - apply (core_nodup _ Hc p). apply Hin. by left.
    - intros i (h & -> & Hh)%list_elem_of_fmap (h' & E & Hh')%list_elem_of_fmap.
      apply list_elem_of_bind in Hh' as (s' & Hh' & Hs'). apply list_elem_of_fmap in Hs' as ([q s0] & -> & Hq). simpl in Hh'.
      apply Hp. apply list_elem_of_fmap. exists (q, s0). split; [|done]. simpl.
      apply (core_apart _ Hc p q h h'); [exists s; split; [apply Hin; by left|done]| |done].
      exists s0. split; [apply Hin; by right|done].
    - apply IH; [done|]. intros q s' Hq. apply Hin. by right. }
  apply Hl; [apply (iter_keys_NoDup (file_states t))|]. intros p s. by rewrite elem_of_iter.
Qed.

Lemma get_hunk_spec (floor : HunkId) t i h : core floor t → get_hunk i t = Some h ↔ h ∈ get_all_hunks t ∧ id h = i.
Proof.
  intros Hc. unfold get_hunk. split.
  - intros [Hin Hi%N.eqb_eq]%find_In. done.
  - intros [Hin Hi]. destruct (List.find _ _) as [h'|] eqn:Ef.
    + apply find_In in Ef as [Hin' Hi'%N.eqb_eq]. f_equal.
      apply (NoDup_fmap_eq id (get_all_hunks t)); [by eapply all_ids_nodup|done..|congruence].
    + apply (find_None _ _) with (x := h) in Ef; [|done]. apply N.eqb_neq in Ef. done.
Qed.

Lemma elem_of_turn_hunks (floor : HunkId) t i h : core floor t →
  h ∈ get_hunks_for_turn i t ↔ h ∈ get_all_hunks t ∧ ∃ ids, turn_index t !! i = Some ids ∧ id h ∈ ids.
Proof.
  intros Hc. unfold get_hunks_for_turn. destruct (turn_index t !! i) as [ids|].
  - rewrite list_elem_of_omap. setoid_rewrite elem_of_iter_set. setoid_rewrite (get_hunk_spec floor); [|done].
    naive_solver.
  - rewrite elem_of_nil. naive_solver.
Qed.

Lemma turn_hunks_nodup (floor : HunkId) t i : core floor t → NoDup (get_hunks_for_turn i t).
Proof.
  intros Hc. unfold get_hunks_for_turn. destruct (turn_index t !! i) as [ids|]; [|constructor].
  assert (NoDup (iter_set ids)) as Hnd by (rewrite iter_set_elements; apply NoDup_elements).
  induction (iter_set ids) as [|k ks IH]; simpl; [constructor|]. apply NoDup_cons in Hnd as [Hk Hnd].
  destruct (get_hunk k t) as [h|] eqn:Eh; [|by apply IH]. apply NoDup_cons. split; [|by apply IH].
  intros (k' & Hk' & Eh')%list_elem_of_omap.
  apply (get_hunk_spec floor) in Eh as [_ E]; [|done]. apply (get_hunk_spec floor) in Eh' as [_ E']; [|done].
  apply Hk. by rewrite <- E, E'.
Qed.

(** C29: in every state the actor reaches, through any sequence of commands, batches of
    queued commands, restored snapshots and changes of the disk and the repository under
    it, hunk ids are unique over all files, a query by id finds exactly the hunk it names,
    and every hunk is stored under its own path.  The hunks of a file are exactly those of
    the diff of its stored baseline and its stored content (same lines, same old and same new
    text), with one exception: a file of the agent, its baseline not accepted, has none after
    a refresh took it for clean, because the two texts differ in the final newline only or
    because HEAD does not have the file and git did not list it.  Right after an agent write
    or a change of the file was handled there is no exception. *)
Theorem tracker_invariant f t : reachable f t →
  NoDup (id <$> get_all_hunks t)
  ∧ (∀ i h, get_hunk i t = Some h ↔ h ∈ get_all_hunks t ∧ id h = i)
  ∧ (∀ p h, h ∈ get_hunks_for_path p t → path h = p)
  ∧ (∀ p s, file_states t !! p = Some s → diffed (D := D) (R := R) s ∨ found_clean s)
  ∧ (∀ p s content turn prev,
       file_states (record_agent_write p content turn prev t) !! p = Some s → diffed (D := D) (R := R) s)
  ∧ (∀ p s, file_states (handle_file_change p t) !! p = Some s → diffed (D := D) (R := R) s).
Proof.
  intros (Hc & Hs & _)%reachable_inv. split_and!.
  - by eapply all_ids_nodup.
  - intros i h. by eapply get_hunk_spec.
  - intros p h Hh. apply (core_path _ Hc). unfold get_hunks_for_path in Hh.
    destruct (file_states t !! p) as [s|] eqn:Es; [by exists s|by apply elem_of_nil in Hh].
  - exact Hs.
  - intros p s content turn prev. apply agent_write_diffed.
  - intros p s. apply file_change_diffed.
Qed.

(** the query for the hunks of a turn returns only live hunks attributed to that turn;
    and as long as no accept or reject has failed on disk it returns all of them, each
    once. *)
Theorem turn_query_exact f t i : reachable f t →
  (∀ h, h ∈ get_hunks_for_turn i t → h ∈ get_all_hunks t ∧ prompt_index (source h) = Some i)
  ∧ (f = false → get_hunks_for_turn i t ≡ₚ List.filter (of_turn i) (get_all_hunks t)).
Proof.
  intros (Hc & _ & Hi)%reachable_inv.
  assert (Hsound : ∀ h, h ∈ get_hunks_for_turn i t → h ∈ get_all_hunks t ∧ prompt_index (source h) = Some i).
  { intros h (Hh & ids & Ei & Hin)%(elem_of_turn_hunks 0%N); [|done]. split; [done|].
    apply elem_of_all_hunks in Hh as (p & Hl). by apply (core_turn_sound _ Hc i ids p h). }
  split; [done|]. intros Hf. apply NoDup_Permutation.
  - by apply (turn_hunks_nodup 0%N).
  - eapply sublist_NoDup; [|apply filterb_sublist]. eapply (NoDup_fmap_1 id). by eapply all_ids_nodup.
  - intros h. rewrite elem_of_filterb. unfold of_turn. rewrite bool_decide_eq_true. split.
    + intros Hh. by apply Hsound.
    + intros [Hh Hp]. apply (elem_of_turn_hunks 0%N); [done|]. split; [done|].
      apply elem_of_all_hunks in Hh as (p & Hl). by apply (Hi Hf p h Hl).
Qed.
End Reach.

(** ** A reachable state *)

Lemma after_write_reachable writable : reachable false (after_write writable).
Proof.
  apply (reach_turn false (started writable) agent_write []); [apply reach_start|].
  intros sn [=]%list_elem_of_singleton.
Qed.
Lemma not_rejected_reachable : reachable true not_rejected.
Proof.
  assert (existsb reply_failed (actor_turn (FileAction FILE Reject) [] (after_write false)).1.2 = true) as E by (vm_compute; reflexivity).
  rewrite <- E. apply (reach_turn false (after_write false) (FileAction FILE Reject) []); [apply after_write_reachable|].
  intros sn [=]%list_elem_of_singleton.
Qed.

Lemma tracker_invariant_witness :
  get_hunk 1%N (after_write true) ≠ None ∧ NoDup (id <$> get_all_hunks (after_write true))
  ∧ (∀ h, h ∈ get_hunks_for_path FILE (after_write true) → path h = FILE).
Proof.
  destruct (tracker_invariant false (after_write true) (after_write_reachable true)) as (H1 & _ & H2 & _).
  split; [vm_compute; discriminate|]. split; [exact H1|apply H2].
Defined.
Lemma turn_query_exact_witness :
  length (get_hunks_for_turn 7%N (after_write true)) = 2
  ∧ get_hunks_for_turn 7%N (after_write true) ≡ₚ List.filter (of_turn 7%N) (get_all_hunks (after_write true))
  ∧ get_all_hunks not_rejected ≠ []
  ∧ (∀ h, h ∈ get_hunks_for_turn 7%N not_rejected → h ∈ get_all_hunks not_rejected).
Proof.
  split; [vm_compute; reflexivity|]. split; [|split; [vm_compute; discriminate|]].
  - by apply (turn_query_exact false (after_write true) 7%N (after_write_reachable true)).
  - intros h Hh. by apply (turn_query_exact true not_rejected 7%N not_rejected_reachable).
Defined.
