(* ===== verification/HunkSettle.v ===== *)
(** Hunk tracker: accepting or rejecting the hunks of a file settles it.

    [patch_lines] works on the lines of a text without their ends, so it is followed on
    texts of whole lines ([proper]); on others it misplaces the final newline. *)
From Stdlib Require Import String Ascii.
From stdpp Require Import gmap.
From S2P Require Import Prelude RustStr LexPath PatchApply HashIter HunkTypes HunkDiff HunkPatch HunkTracker HunkActor HunkLoc HunkWorld HunkInv HunkSafety HunkReach.

(** ** Texts of whole lines *)

(** Lines without carriage returns, the last one ended. *)
Definition proper (s : str) : bool := ends_with [NL] s && negb (contains_char CR s).
Definition plain (l : str) : Prop := NL ∉ l ∧ CR ∉ l.
Definition term (l : str) : str := l ++ [NL].

Lemma plain_wf l : plain l → wf_line l = true.
Proof.
  intros [Hn Hc]. unfold wf_line, contains_char. apply andb_true_iff. split; apply negb_true_iff.
  - apply not_true_iff_false. rewrite existsb_elem. by intros (x & Hx & <-%N.eqb_eq).
  - apply bool_decide_eq_false. intros Hl. apply Hc. by eapply last_Some_elem_of.
Qed.
Lemma unlines_app a b : unlines (a ++ b) = unlines a ++ unlines b.
Proof. unfold unlines. by rewrite map_app, concat_app. Qed.
Lemma unlines_concat ls : unlines ls = concat (term <$> ls).
Proof. done. Qed.
Lemma lines_unlines ls : Forall plain ls → lines (unlines ls) = ls.
Proof.
  intros Hp. unfold lines. replace (unlines ls) with (join [NL] (ls ++ [[]])) by (by rewrite join_unlines, app_nil_r).
  rewrite split_on_join; [|by destruct ls|].
  - induction Hp as [|l ls Hl Hp IH]; [done|].
    assert (∀ x xs, finish_lines (l :: x :: xs) = l :: finish_lines (x :: xs)) as Hstep.
    { intros x xs. simpl. by rewrite wf_line_strip_cr by (by apply plain_wf). }
    destruct ls as [|l' ls]; [apply Hstep|]. simpl app in *. by rewrite Hstep, IH.
  - apply Forall_app. split; [|by repeat constructor; apply not_elem_of_nil].
    eapply Forall_impl; [exact Hp|]. by intros l [? _].
Qed.
Lemma split_unlines ls : Forall plain ls → split_inclusive (unlines ls) = term <$> ls.
Proof.
  induction 1 as [|l ls [Hl _] Hp IH]; [done|]. unfold unlines in *. simpl. rewrite <- app_assoc. simpl.
  by rewrite split_inclusive_line, IH.
Qed.
Lemma proper_unlines s : proper s = true → ∃ ls, s = unlines ls ∧ ls ≠ [] ∧ Forall plain ls.
Proof.
  unfold proper. rewrite andb_true_iff, negb_true_iff. intros [He Hc].
  assert (CR ∉ s) as Hcr.
  { intros Hin. apply not_true_iff_false in Hc. apply Hc, existsb_elem. exists CR. split; [done|apply N.eqb_refl]. }
  unfold ends_with in He. apply bool_decide_eq_true in He as [s' Es%strip_suffix_Some].
  exists (split_on NL s'). assert (s = unlines (split_on NL s')) as E.
  { pose proof (join_unlines (split_on NL s') []) as Hj. rewrite app_nil_r in Hj. rewrite <- Hj.
    rewrite join_snoc by apply split_on_ne. by rewrite join_split_on, app_nil_r. }
  split; [done|]. split; [apply split_on_ne|]. apply Forall_forall. intros l Hl. split.
  - pose proof (split_on_nosep NL s') as H. rewrite Forall_forall in H. by apply H.
  - intros Hin. apply Hcr. rewrite E. unfold unlines. apply list_elem_of_In, in_concat.
    exists (l ++ [NL]). split; [apply in_map_iff; exists l; split; [done|by apply list_elem_of_In]|].
    apply list_elem_of_In, elem_of_app. by left.
Qed.
Lemma proper_no_cr s : proper s = true → CR ∉ s.
Proof.
  intros [_ H]%andb_true_iff Hin. apply negb_true_iff, not_true_iff_false in H. apply H, existsb_elem.
  exists CR. split; [done|apply N.eqb_refl].
Qed.

(** Patching whole lines, unless it empties the text. *)
Lemma patch_unlines ls start count news : Forall plain ls → Forall plain news → ls ≠ [] →
  patch_lines (unlines ls) start count (unlines news) ≠ [] →
  patch_lines (unlines ls) start count (unlines news)
  = unlines (take (start - 1) ls ++ news ++ drop (start - 1 + count) ls).
Proof.
  intros Hls Hnews Hne. unfold patch_lines. rewrite (lines_unlines ls) by done.
  replace (if str_eqb (unlines news) [] then [] else lines (unlines news)) with news.
  2:{ destruct (str_eqb _ _) eqn:E; [|by rewrite lines_unlines]. apply str_eqb_eq in E.
      destruct news as [|l ls']; [done|]. unfold unlines in E. simpl in E. by destruct l. }
  replace (take ((start - 1) `min` length ls) ls) with (take (start - 1) ls)
    by (destruct (decide (start - 1 ≤ length ls)); [by rewrite Nat.min_l|rewrite Nat.min_r, !take_ge by lia; done]).
  replace (drop ((start - 1 + count) `min` length ls) ls) with (drop (start - 1 + count) ls)
    by (destruct (decide (start - 1 + count ≤ length ls)); [by rewrite Nat.min_l|rewrite Nat.min_r, !drop_ge by lia; done]).
  set (r := take _ _ ++ _ ++ _).
  assert (ends_with [NL] (unlines ls) = true) as ->.
  { destruct (exists_last Hne) as (l0 & x & ->). rewrite unlines_app. unfold ends_with. apply bool_decide_eq_true.
    exists (unlines l0 ++ x). apply strip_suffix_Some. unfold unlines at 2. simpl. by rewrite app_nil_r, app_assoc. }
  simpl. destruct (decide (r = [])) as [->|Hr]; [done|]. destruct (exists_last Hr) as (l0 & x & ->).
  rewrite join_unlines, unlines_app. destruct (str_eqb _ _) eqn:E; [by apply str_eqb_eq in E as ->|].
  intros _. simpl. unfold unlines at 3. simpl. by rewrite app_nil_r, <- app_assoc.
Qed.

(** ** Patches from the end of the file *)

(** What [patch_lines] is given. *)
Definition Edit : Type := nat * nat * str.
Definition apply_edit (e : Edit) (content : str) : str := patch_lines content e.1.1 e.1.2 e.2.
Definition edit_repl (e : Edit) : Replacement := (e.1.1 - 1, e.1.2, split_inclusive e.2).
Definition whole_lines (e : Edit) : Prop := ∃ news, Forall plain news ∧ e.2 = unlines news.
(** The last edit first. *)
Definition patch_all (es : list Edit) (content : str) : str := foldr apply_edit content es.
(** No stage of the edits is the empty text. *)
Fixpoint never_empty (es : list Edit) (content : str) : bool :=
  negb (str_eqb (patch_all es content) []) && match es with [] => true | _ :: es' => never_empty es' content end.

Lemma never_empty_hd es content : never_empty es content = true → patch_all es content ≠ [].
Proof. destruct es; simpl; rewrite andb_true_iff, negb_true_iff; intros [H _]; by apply str_eqb_neq in H. Qed.

Lemma splice_cons from r rs ls : disjoint from (r :: rs) (length ls) →
  let l := take (r_start r + r_len r) ls ++ splice (r_start r + r_len r) rs ls in
  take (r_start r) l ++ r_new r ++ drop (r_start r + r_len r) l = take from ls ++ splice from (r :: rs) ls.
Proof.
  intros Hd l. pose proof (apply_disjoint from (r :: rs) ls Hd) as HB. destruct Hd as [Hfrom Hd].
  pose proof (apply_disjoint _ rs ls Hd) as HA. pose proof (disjoint_le _ _ _ Hd) as Hle.
  rewrite apply_replacements_foldr in HA, HB. cbn [foldr] in HB. rewrite HA in HB. simpl in HB.
  rewrite apply_one_eq in HB; [by injection HB|]. rewrite length_app, length_take. lia.
Qed.

Lemma patch_all_splice ls es from : Forall plain ls → Forall whole_lines es →
  disjoint from (edit_repl <$> es) (length ls) → never_empty es (unlines ls) = true →
  ∃ ls', Forall plain ls' ∧ patch_all es (unlines ls) = unlines ls'
    ∧ term <$> ls' = take from (term <$> ls) ++ splice from (edit_repl <$> es) (term <$> ls).
Proof.
  intros Hls Hes. revert from. induction Hes as [|e es (news & Hn & En) Hes IH]; intros from Hd Hne.
  - exists ls. simpl. by rewrite take_drop.
  - pose proof (never_empty_hd _ _ Hne) as Hout. simpl in Hne. apply andb_true_iff in Hne as [_ Hne].
    cbn [fmap list_fmap] in Hd. rewrite <- (length_fmap term ls) in Hd.
    pose proof (splice_cons _ _ _ _ Hd) as Hs. cbn zeta in Hs.
    destruct Hd as [_ Hd]. rewrite length_fmap in Hd. destruct (IH _ Hd Hne) as (ls1 & Hp1 & E1 & Et1).
    change (patch_all (e :: es) (unlines ls))
      with (patch_lines (patch_all es (unlines ls)) e.1.1 e.1.2 e.2) in *. rewrite E1, En in Hout.
    assert (ls1 ≠ []) as Hne1 by (intros ->; by apply never_empty_hd in Hne; rewrite E1 in Hne).
    exists (take (e.1.1 - 1) ls1 ++ news ++ drop (e.1.1 - 1 + e.1.2) ls1). split; [|split].
    + repeat (apply Forall_app; split); [by apply Forall_take|done|by apply Forall_drop].
    + rewrite E1, En. by apply patch_unlines.
    + rewrite !fmap_app, fmap_take, fmap_drop, Et1. etransitivity; [|exact Hs].
      change (r_new (edit_repl e)) with (split_inclusive e.2). by rewrite En, split_unlines.
Qed.

(** ** Hunks as edits *)

Definition fwd (h : Hunk) : Edit := (old_start (line_info h), old_count (line_info h), new_text h).
Definition bwd (h : Hunk) : Edit := (new_start (line_info h), new_count (line_info h), default [] (old_text h)).

Lemma fmap_view {B} (f : HunkLineInfo * option str * str → B) (g : Hunk → B) (hs hs' : list Hunk) :
  (∀ h, g h = f (view h)) → view <$> hs = view <$> hs' → g <$> hs = g <$> hs'.
Proof.
  intros Hg E. rewrite !(list_fmap_ext g (f ∘ view)) by (intros; apply Hg).
  by rewrite !list_fmap_compose, E.
Qed.

Lemma insert_desc_snoc {A} (key : A → nat) x l : Forall (λ y, key x < key y) l → insert_desc key x l = l ++ [x].
Proof.
  induction 1 as [|y l Hy Hl IH]; simpl; [done|]. destruct (Nat.leb_spec (key y) (key x)); [lia|]. by rewrite IH.
Qed.
(** Ascending keys are turned round. *)
Lemma sort_desc_rev {A} (key : A → nat) l : StronglySorted lt (key <$> l) → sort_desc key l = rev l.
Proof.
  induction l as [|x l IH]; intros Hs; [done|]. rewrite fmap_cons in Hs. inversion Hs as [|? ? Hl Hx]; subst.
  simpl. fold (sort_desc key l). rewrite IH by done. rewrite insert_desc_snoc; [done|].
  rewrite Forall_fmap in Hx. rewrite rev_alt. by apply Forall_reverse.
Qed.
Lemma patch_sorted (f : str → Hunk → str) (e : Hunk → Edit) (key : Hunk → nat) content hs :
  (∀ c h, f c h = apply_edit (e h) c) → StronglySorted lt (key <$> hs) →
  foldl f content (sort_desc key hs) = patch_all (e <$> hs) content.
Proof.
  intros Hf Hs. rewrite sort_desc_rev by done. clear Hs.
  induction hs as [|h hs IH]; [done|]. simpl. by rewrite foldl_app, IH, <- Hf.
Qed.

Section Patch.
Context (cs : list Change) (fresh : HunkId) (now : Z) (p b c : str) (src : HunkSource) (hs : list Hunk).
Hypothesis (Hold : old_side cs = split_inclusive b) (Hnew : new_side cs = split_inclusive c).
Hypothesis (Hne : b ≠ c) (Hsize : too_large_to_diff b c = false).
Hypothesis (Hb : proper b = true) (Hc : proper c = true).
Hypothesis (Hhs : view <$> hs = view <$> compute_hunks (Some cs) fresh now p b c src).

Lemma segment_lines s x m y : proper s = true → split_inclusive s = x ++ m ++ y →
  ∃ news, Forall plain news ∧ concat m = unlines news.
Proof using.
  intros (ls & -> & _ & Hp)%proper_unlines E. rewrite split_unlines in E by done.
  apply fmap_app_inv in E as (l1 & l2 & -> & E & ->). symmetry in E. apply fmap_app_inv in E as (l3 & l4 & -> & _ & ->).
  apply Forall_app in Hp as [_ Hp]. apply Forall_app in Hp as [Hp _]. by exists l3.
Qed.
Lemma fwd_whole : Forall whole_lines (fwd <$> hs).
Proof using All.
  rewrite (fmap_view (B := Edit) (λ v, (old_start v.1.1, old_count v.1.1, v.2)) fwd hs _ ltac:(done) Hhs).
  rewrite hunks_of_blocks by done. apply Forall_fmap, Forall_forall.
  intros h (i & x & -> & Hx%list_elem_of_lookup_2)%elem_of_lookup_imap_1.
  destruct (blocks_segment _ _ _ _ _ _ (diff_blocks cs b c Hold Hnew) Hx) as (u & v & E).
  destruct (segment_lines _ _ _ _ Hc E) as (news & Hn & En). by exists news.
Qed.
Lemma bwd_whole : Forall whole_lines (bwd <$> hs).
Proof using All.
  rewrite (fmap_view (B := Edit) (λ v, (new_start v.1.1, new_count v.1.1, default [] v.1.2)) bwd hs _ ltac:(done) Hhs).
  rewrite hunks_of_blocks by done. apply Forall_fmap, Forall_forall.
  intros h (i & x & -> & Hx%list_elem_of_lookup_2)%elem_of_lookup_imap_1.
  destruct (blocks_segment _ _ _ _ _ (flip x) (blocks_flip _ _ _ _ _ (diff_blocks cs b c Hold Hnew))) as (u & v & E);
    [by apply list_elem_of_fmap_2|].
  destruct (segment_lines _ _ _ _ Hb E) as (news & Hn & En). exists news. split; [done|].
  rewrite <- En. simpl. by destruct (b_old_lines x).
Qed.

Lemma edits_result s s' es : proper s = true → Forall whole_lines es →
  disjoint 0 (edit_repl <$> es) (length (split_inclusive s)) →
  splice 0 (edit_repl <$> es) (split_inclusive s) = split_inclusive s' →
  never_empty es s = true → patch_all es s = s'.
Proof using.
  intros (ls & -> & _ & Hp)%proper_unlines Hes Hd Hs Hn. rewrite split_unlines in Hd, Hs by done.
  rewrite length_fmap in Hd. destruct (patch_all_splice ls es 0 Hp Hes Hd Hn) as (ls' & _ & -> & E).
  rewrite take_0, Hs in E. simpl in E. rewrite unlines_concat, E. apply concat_split_inclusive.
Qed.

(** Accepting every hunk of a file makes its baseline the content, rejecting every hunk its
    content the baseline. *)
Lemma accept_all : never_empty (fwd <$> hs) b = true →
  foldl accept_patch b (sort_desc (λ h, old_start (line_info h)) hs) = c.
Proof using All.
  intros Hn. rewrite (patch_sorted accept_patch fwd).
  - apply edits_result; [done|apply fwd_whole| | |done]; rewrite <- list_fmap_compose;
      rewrite (fmap_view (B := Replacement) (λ v, (old_start v.1.1 - 1, old_count v.1.1, split_inclusive v.2)) (edit_repl ∘ fwd) hs _ ltac:(done) Hhs);
      by apply (hunks_splice cs fresh now p b c src).
  - done.
  - rewrite (fmap_view (λ v, old_start v.1.1) (λ h, old_start (line_info h)) hs _ ltac:(done) Hhs). by apply hunks_old_ascend.
Qed.
Lemma reject_all : never_empty (bwd <$> hs) c = true →
  foldl reject_patch c (sort_desc (λ h, new_start (line_info h)) hs) = b.
Proof using All.
  intros Hn. rewrite (patch_sorted reject_patch bwd).
  - apply edits_result; [done|apply bwd_whole| | |done]; rewrite <- list_fmap_compose;
      rewrite (fmap_view (B := Replacement) (λ v, (new_start v.1.1 - 1, new_count v.1.1, split_inclusive (default [] v.1.2))) (edit_repl ∘ bwd) hs _ ltac:(done) Hhs);
      by apply (hunks_unsplice cs fresh now p b c src).
  - done.
  - rewrite (fmap_view (λ v, new_start v.1.1) (λ h, new_start (line_info h)) hs _ ltac:(done) Hhs). by apply hunks_new_ascend.
Qed.
End Patch.

(** ** Files *)

Section File.
Context {D R : Type} {Hhost : Host D R} {Hord : HashOrder} {Hdiff : LineDiff D R}.
Local Abbreviation Tracker := (Tracker D R).
Implicit Types (t : Tracker) (s : FileHunkState) (p q : str).

Lemma described_diff s b c : described (D := D) (R := R) s → hunks s ≠ [] → baseline s = Full b → current_content s = Full c →
  ∃ (d : D) n p src cs, text_diff d b c = Some cs ∧ b ≠ c ∧ too_large_to_diff b c = false
    ∧ view <$> hunks s = view <$> compute_hunks (Some cs) n (clock d) p b c src.
Proof using.
  intros Hd Hne Eb Ec. destruct (described_ne s Hd Hne) as (d & n & p & src & E). rewrite Eb, Ec in E. simpl in E.
  assert (compute_hunks (text_diff d b c) n (clock d) p b c src ≠ []) as Hn.
  { intros E0. rewrite E0 in E. by apply fmap_nil_inv in E. }
  exists d, n, p, src. unfold compute_hunks in Hn. destruct (str_eqb b c) eqn:Es; [done|].
  destruct (too_large_to_diff b c) eqn:El; [done|]. destruct (text_diff d b c) as [cs|]; [|done].
  exists cs. apply str_eqb_neq in Es. done.
Qed.

(** All hunks of a file, for an action on the file. *)
Lemma retain_all hs : retain_except (id <$> hs) hs = [].
Proof using.
  unfold retain_except. enough (∀ l, (∀ h, h ∈ l → h ∈ hs) →
    List.filter (λ h, negb (bool_decide (id h ∈ id <$> hs))) l = []) as H by (by apply H).
  induction l as [|h l IH]; intros Hl; [done|]. simpl.
  rewrite bool_decide_true by (apply list_elem_of_fmap_2, Hl; by left). apply IH. intros h' Hh'. apply Hl. by right.
Qed.
Lemma recompute_clean p c src t s : file_states t !! p = Some s → baseline s = Full c → hunks s = [] →
  let t' := recompute_hunks p (Some (Full c)) src t in
  file_states t' = <[p := set_hunks [] (set_current (Full c) s)]> (file_states t) ∧ disk t' = disk t.
Proof using.
  intros Es Eb Eh. unfold recompute_hunks. rewrite Es, Eb, Eh. simpl. unfold compute_hunks.
  by rewrite (proj2 (str_eqb_eq c c)).
Qed.

(** The state of a settled file. *)
Definition settled t p (c : str) : Prop :=
  ∃ s, file_states t !! p = Some s ∧ baseline s = Full c ∧ current_content s = Full c ∧ hunks s = [].

Lemma accept_settles t p s b c : file_states t !! p = Some s → hunks s ≠ [] → baseline s = Full b →
  current_content s = Full c → foldl accept_patch b (sort_desc (λ h, old_start (line_info h)) (hunks s)) = c →
  settled (accept_hunks_batch p (hunks s) t) p c ∧ disk (accept_hunks_batch p (hunks s) t) = disk t.
Proof using.
  intros Es Hne Eb Ec Hpatch. unfold accept_hunks_batch. rewrite Es, match_ne by done. rewrite Eb, Ec, Hpatch, retain_all.
  set (s1 := set_hunks [] (set_baseline (Full c) true s)).
  set (t1 := send_events _ (put_file p s1 t)).
  assert (file_states t1 !! p = Some s1) as E1 by apply lookup_insert_eq.
  destruct (recompute_clean p c (remaining_source p t1) t1 s1) as [Ef Ed]; [done..|]. split; [|done].
  exists (set_hunks [] (set_current (Full c) s1)). rewrite Ef, lookup_insert_eq. done.
Qed.
Lemma reject_settles t p s b c d : file_states t !! p = Some s → hunks s ≠ [] → baseline s = Full b →
  current_content s = Full c → foldl reject_patch c (sort_desc (λ h, new_start (line_info h)) (hunks s)) = b →
  fs_write (disk t) p b = (d, None) →
  ∃ t', reject_hunks_batch p (hunks s) t = (t', Ok tt) ∧ settled t' p b ∧ disk t' = d.
Proof using.
  intros Es Hne Eb Ec Hpatch Hw. unfold reject_hunks_batch, reject_with. rewrite match_ne, Es by done.
  unfold reject_action. rewrite Eb, Ec, Hpatch. simpl. rewrite Hw, retain_all. eexists. split; [done|].
  set (s1 := set_hunks [] (set_current (Full b) s)).
  set (t1 := send_events _ (put_file p s1 (set_disk d t))).
  assert (file_states t1 !! p = Some s1) as E1 by apply lookup_insert_eq.
  destruct (recompute_clean p b (remaining_source p t1) t1 s1) as [Ef Ed]; [done..|]. split; [|done].
  exists (set_hunks [] (set_current (Full b) s1)). rewrite Ef, lookup_insert_eq. done.
Qed.

(** accepting the hunks of a changed text file, in any state the actor reaches, answers
    with the ids of all its hunks and leaves it with none: its baseline is its content,
    nothing is written to disk and no other file changes.  For texts of whole lines of which
    no stage of the patching is empty. *)
Theorem accept_file_settles f t p s b c : reachable f t → file_states t !! p = Some s → hunks s ≠ [] →
  baseline s = Full b → current_content s = Full c → proper b = true → proper c = true →
  never_empty (fwd <$> hunks s) b = true →
  ∃ t', apply_file_action p Accept t = (t', Ok (id <$> hunks s)) ∧ settled t' p c
    ∧ disk t' = disk t ∧ ∀ q, q ≠ p → file_states t' !! q = file_states t !! q.
Proof.
  intros (_ & Hs & _)%reachable_inv Es Hne Eb Ec Hb Hc Hn. specialize (Hs p s Es).
  destruct (described_diff s b c Hs Hne Eb Ec) as (d & n & p' & src & cs & Hcs & Hbc & Hsz & Hv).
  destruct (line_diff d b c cs) as [Ho Hw]; [by apply proper_no_cr..|done|].
  pose proof (accept_all cs n (clock d) p' b c src (hunks s) Ho Hw Hbc Hsz Hb Hc Hv Hn) as Hpatch.
  rewrite (apply_file_batch p s) by done. cbn [apply_action_batch].
  destruct (note_actions_eq Accept (hunks s) t) as (E1 & _ & _).
  pose proof (note_actions_disk Accept (hunks s) t) as Ed. set (t0 := foldl (note_action Accept) t (hunks s)) in *.
  destruct (accept_settles t0 p s b c) as [Hset Hd]; [by rewrite E1|done..|].
  eexists. split; [done|]. split; [done|]. split; [by rewrite Hd|]. intros q Hq. by rewrite accept_other, E1.
Qed.

(** C30: rejecting the hunks of a changed text file, in any state the actor reaches, writes
    its baseline to disk.  When the write succeeds the answer is the ids of all its hunks
    and the file is left with none, its content the baseline; when it fails the answer is
    the error of the write and every file keeps its state.  No other file changes.  For
    texts that end in a line feed and hold no carriage return, when no stage of the patching
    is empty. *)
Theorem reject_file_settles f t p s b c d err : reachable f t → file_states t !! p = Some s → hunks s ≠ [] →
  baseline s = Full b → current_content s = Full c → proper b = true → proper c = true →
  never_empty (bwd <$> hunks s) c = true → fs_write (disk t) p b = (d, err) →
  ∃ t', disk t' = d ∧ (∀ q, q ≠ p → file_states t' !! q = file_states t !! q) ∧
    match err with
    | None => apply_file_action p Reject t = (t', Ok (id <$> hunks s)) ∧ settled t' p b
    | Some e => apply_file_action p Reject t = (t', Err (WriteError p e)) ∧ file_states t' = file_states t
    end.
Proof.
  intros (_ & Hs & _)%reachable_inv Es Hne Eb Ec Hb Hc Hn Hw. specialize (Hs p s Es).
  destruct (described_diff s b c Hs Hne Eb Ec) as (d0 & n & p' & src & cs & Hcs & Hbc & Hsz & Hv).
  destruct (line_diff d0 b c cs) as [Ho Hnw]; [by apply proper_no_cr..|done|].
  pose proof (reject_all cs n (clock d0) p' b c src (hunks s) Ho Hnw Hbc Hsz Hb Hc Hv Hn) as Hpatch.
  rewrite (apply_file_batch p s) by done. cbn [apply_action_batch].
  destruct (note_actions_eq Reject (hunks s) t) as (E1 & _ & _).
  pose proof (note_actions_disk Reject (hunks s) t) as Ed. set (t0 := foldl (note_action Reject) t (hunks s)) in *.
  destruct err as [e|].
  - exists (set_disk d t0). split; [done|]. split; [intros q _; by rewrite <- E1|]. split; [|done].
    unfold reject_hunks_batch, reject_with. rewrite match_ne, E1, Es by done.
    unfold reject_action. rewrite Eb, Ec, Hpatch. simpl. by rewrite Ed, Hw.
  - destruct (reject_settles t0 p s b c d) as (t' & Er & Hset & Hd); [by rewrite E1|done..|by rewrite Ed|].
    exists t'. split; [done|]. split.
    + intros q Hq. pose proof (reject_other p q (hunks s) t0 Hq) as Hother. rewrite Er in Hother. simpl in Hother.
      by rewrite Hother, E1.
    + by rewrite Er.
Qed.
End File.

Definition file_of (t : Tracker World unit) : FileHunkState :=
  default (new_file_state Missing Missing false) (file_states t !! FILE).
Lemma accept_file_settles_witness :
  ∃ t', apply_file_action FILE Accept (after_write true) = (t', Ok [0; 1]%N) ∧ settled t' FILE agent_text.
Proof.
  destruct (accept_file_settles false (after_write true) FILE (file_of (after_write true)) head_text agent_text)
    as (t' & Ha & Hs & _); [apply after_write_reachable|vm_compute; reflexivity|vm_compute; discriminate|
    vm_compute; reflexivity..|].
  exists t'. split; [exact Ha|exact Hs].
Defined.
Lemma reject_file_settles_witness :
  (∃ t', apply_file_action FILE Reject (after_write true) = (t', Ok [0; 1]%N) ∧ settled t' FILE head_text
     ∧ w_files (disk t') !! FILE = Some head_text)
  ∧ ∃ t', apply_file_action FILE Reject (after_write false) = (t', Err (WriteError FILE (lit "read-only file system")))
     ∧ file_states t' = file_states (after_write false).
Proof.
  split.
  - destruct (reject_file_settles false (after_write true) FILE (file_of (after_write true)) head_text agent_text
      (mkWorld {[FILE := head_text]} {[lit "f" := head_text]} true) None)
      as (t' & Hd & _ & Ha & Hs); [apply after_write_reachable|vm_compute; reflexivity|vm_compute; discriminate|
      vm_compute; reflexivity..|].
    exists t'. rewrite Hd. split; [exact Ha|split; [exact Hs|vm_compute; reflexivity]].
  - destruct (reject_file_settles false (after_write false) FILE (file_of (after_write false)) head_text agent_text
      (world false) (Some (lit "read-only file system")))
      as (t' & _ & _ & Ha & Hs); [apply after_write_reachable|vm_compute; reflexivity|vm_compute; discriminate|
      vm_compute; reflexivity..|].
    exists t'. split; [exact Ha|exact Hs].
Defined.
