(* ===== verification/ExecRisk.v ===== *)
(** Execution risk of a bash request
    (crates/codegen/xai-grok-workspace/src/permission/exec_risk.rs): options that make an
    ordinary program start another one, git queries that only read, and what the
    configuration of a repository would run.

    libgit2 and the files of a repository are the interface [GitWorld]. *)
From Stdlib Require Import String Ascii.
From S2P Require Import Prelude RustStr LexPath Shell.
Import Argv.

(** ** Normalization *)

Definition EXEC_NORMALIZE_ROUNDS : nat := MAX_WRAPPER_DEPTH + MAX_TRANSPARENT_PREFIX_DEPTH.

Inductive NormalizedArgv := NReady (words : list str) | NFailClosed.

(** The [for] loop of [normalize_for_exec_risk].  Every peel is a suffix of the words, so
    the same length is the same slice ([ptr::eq] and [len]). *)
Fixpoint exec_normalize_go (rounds : nat) (current : list str) : NormalizedArgv :=
  match rounds with
  | O => NFailClosed
  | S rounds' =>
      let checked := unwrap_wrappers_checked current in
      if cw_exhausted checked || cw_has_split_string checked || cw_has_chdir checked then NFailClosed
      else
        let after_wrap := cw_words checked in
        match peel_transparent_prefixes after_wrap with
        | AmbiguousPeel => NFailClosed
        | Ready after_trans =>
            if (length after_trans =? length current)%nat then NReady after_trans
            else if (length after_trans =? length after_wrap)%nat then NReady after_trans
            else exec_normalize_go rounds' after_trans
        end
  end.
Definition normalize_for_exec_risk (words : list str) : NormalizedArgv :=
  exec_normalize_go EXEC_NORMALIZE_ROUNDS words.

(** What the loop returns is the command that really runs: the end of the chain of peels. *)
Lemma unwrap_wrappers_rtc ws : rtc peel ws (unwrap_wrappers ws).
Proof. apply unwrap_go_rtc. Qed.
Lemma unwrap_wrappers_length ws : length (unwrap_wrappers ws) ≤ length ws.
Proof. destruct (rtc_peel_suffix _ _ (unwrap_wrappers_rtc ws)) as [k ->]. rewrite length_drop. lia. Qed.

Lemma rtc_peel_same_length ws inner : rtc peel ws inner → length inner = length ws → inner = ws.
Proof.
  intros [k ->]%rtc_peel_suffix Hl. rewrite length_drop in Hl. destruct k; [done|].
  destruct ws; simpl in *; [done|lia].
Qed.

Lemma unwrap_go_nf rounds cmd cd ss un :
  let p := unwrap_go rounds cmd cd ss un in
  cw_exhausted p = false → strip_wrapper_command (cw_words p) = None.
Proof.
  revert cmd cd ss un; induction rounds as [|rounds IH]; intros cmd cd ss un; simpl.
  - destruct (strip_wrapper_command cmd) eqn:E; [|done].
    apply strip_wrapper_not_prefix in E as [Hw _]. by rewrite Hw.
  - destruct (strip_wrapper_command cmd) eqn:E; [apply IH|done].
Qed.

Lemma peel_transparent_go_nf rounds cmd inner :
  peel_transparent_go rounds cmd = Ready inner → strip_transparent_prefix inner = NotPrefix.
Proof.
  revert cmd; induction rounds as [|rounds IH]; intros cmd; simpl;
    destruct (strip_transparent_prefix cmd) eqn:E; naive_solver.
Qed.

Lemma normalize_for_exec_risk_nf ws inner :
  normalize_for_exec_risk ws = NReady inner → rtc peel ws inner ∧ nf peel inner.
Proof.
  unfold normalize_for_exec_risk. generalize EXEC_NORMALIZE_ROUNDS. intros rounds. revert ws.
  induction rounds as [|rounds IH]; intros ws; simpl; [done|].
  pose proof (unwrap_go_rtc MAX_WRAPPER_DEPTH ws false false false : rtc peel ws (cw_words (unwrap_wrappers_checked ws))) as Hu.
  pose proof (unwrap_go_nf MAX_WRAPPER_DEPTH ws false false false
              : cw_exhausted (unwrap_wrappers_checked ws) = false →
                strip_wrapper_command (cw_words (unwrap_wrappers_checked ws)) = None) as Hn.
  destruct (cw_exhausted _); [done|]. specialize (Hn eq_refl). simpl.
  destruct (_ || _); [done|].
  destruct (peel_transparent_prefixes _) as [after|] eqn:Et; [|done].
  pose proof (peel_transparent_go_rtc _ _ _ Et) as Ht. apply peel_transparent_go_nf in Et.
  assert (Hsame : length after = length (cw_words (unwrap_wrappers_checked ws)) → nf peel after).
  { intros Hl. apply rtc_peel_same_length in Ht; [|done]. intros [x [Hp|Hp]]; congruence. }
  destruct (Nat.eqb_spec (length after) (length ws)) as [Hl|]; [intros [= <-]|].
  { split; [by etrans|]. apply Hsame. destruct (rtc_peel_suffix _ _ Hu) as [k Hk].
    destruct (rtc_peel_suffix _ _ Ht) as [j Hj]. rewrite Hj, Hk, !length_drop in *. lia. }
  destruct (Nat.eqb_spec (length after) (length (cw_words (unwrap_wrappers_checked ws)))); [intros [= <-]|].
  { split; [by etrans|auto]. }
  intros [Hr Hnf]%IH. split; [|done]. by do 2 (etrans; [done|]).
Qed.

(** ** Options *)

Definition DASH : str := lit "-".
Definition DDASH : str := lit "--".
Definition starts_dash (tok : str) : bool := starts_with DASH tok.

Definition is_accepted_long_option_prefix (flag full : str) (min_len : nat) : bool :=
  starts_with DDASH flag && (min_len <=? utf8_len flag)%nat && starts_with flag full
  && forallb (λ b, is_ascii_alphanumeric b || (b =? chr "-")%N) flag.

(** The part of an option in front of its first [=]. *)
Definition before_eq (w : str) : str :=
  match split_once (lit "=") w with Some (f, _) => f | None => w end.

Definition strip_exe (name : str) : str := default name (strip_suffix (lit ".exe") name).

Definition normalized_program_name (words : list str) : option str :=
  raw ← head words;
  match basename raw with
  | [] => None
  | base => Some (strip_exe (to_ascii_lowercase base))
  end.
Definition is_git_program (words : list str) : bool :=
  bool_decide (normalized_program_name words = Some (lit "git")).
Definition is_sort_program (words : list str) : bool :=
  bool_decide (normalized_program_name words = Some (lit "sort")).
Definition normalized_token_basename (token : str) : str := strip_exe (to_ascii_lowercase (basename token)).

Fixpoint sort_scan (ws : list str) : bool :=
  match ws with
  | [] => false
  | w :: ws' =>
      if str_eqb w DDASH then false
      else if str_eqb w (lit "--compress-program") || starts_with (lit "--compress-program=") w then true
      else is_accepted_long_option_prefix (before_eq w) (lit "--compress-program") 4 || sort_scan ws'
  end.
Definition sort_has_compress_program_flag (words : list str) : bool := sort_scan (tail words).

Definition is_git_config_env_flag (tok : str) : bool :=
  str_eqb tok (lit "--config-env") || starts_with (lit "--config-env=") tok
  || is_accepted_long_option_prefix (before_eq tok) (lit "--config-env") 4.

Definition is_git_repo_retarget_flag (tok : str) : bool :=
  str_eqb tok (lit "--git-dir") || starts_with (lit "--git-dir=") tok
  || str_eqb tok (lit "--work-tree") || starts_with (lit "--work-tree=") tok
  || is_accepted_long_option_prefix (before_eq tok) (lit "--git-dir") 4
  || is_accepted_long_option_prefix (before_eq tok) (lit "--work-tree") 4.

Definition is_attached_git_config_c (tok : str) : bool :=
  starts_with (lit "-c") tok && (2 <? utf8_len tok)%nat && negb (starts_with DDASH tok).

Definition attached_git_c_path (tok : str) : option str :=
  match strip_prefix (lit "-C") tok with
  | Some (c :: rest) => if starts_with DDASH tok then None else Some (c :: rest)
  | _ => None
  end.

Definition git_global_option_takes_value (tok : str) : bool :=
  one_of tok [lit "-C"; lit "-c"; lit "--git-dir"; lit "--work-tree"; lit "--namespace";
              lit "--super-prefix"; lit "--exec-path"; lit "--list-cmds"; lit "--attr-source";
              lit "--config-env"]
  || is_accepted_long_option_prefix tok (lit "--config-env") 4
  || is_accepted_long_option_prefix tok (lit "--git-dir") 4
  || is_accepted_long_option_prefix tok (lit "--work-tree") 4
  || is_accepted_long_option_prefix tok (lit "--namespace") 7
  || is_accepted_long_option_prefix tok (lit "--super-prefix") 8
  || is_accepted_long_option_prefix tok (lit "--exec-path") 7
  || is_accepted_long_option_prefix tok (lit "--list-cmds") 7
  || is_accepted_long_option_prefix tok (lit "--attr-source") 8.

(** The next word, when an option in front of it takes it as its value. *)
Definition takes_next (tok : str) (n : str) : bool :=
  negb (contains_char (chr "=") tok) && git_global_option_takes_value tok
  && (negb (starts_dash n) || str_eqb n DASH).

(** The [while] loop of [git_has_exec_risk_global] over [words[1..]]. *)
Fixpoint git_global_scan (ws : list str) : bool :=
  match ws with
  | [] => false
  | tok :: ws' =>
      if str_eqb tok DDASH then false
      else if negb (starts_dash tok) || str_eqb tok DASH then false
      else if str_eqb tok (lit "-c") || is_attached_git_config_c tok || is_git_config_env_flag tok
              || is_git_repo_retarget_flag tok then true
      else if bool_decide (is_Some (attached_git_c_path tok)) then git_global_scan ws'
      else match ws' with
           | n :: ws'' => if takes_next tok n then git_global_scan ws'' else git_global_scan ws'
           | [] => false
           end
  end.
Definition git_has_exec_risk_global (words : list str) : bool := git_global_scan (tail words).

Definition segment_has_exec_risk_flag (words : list str) : bool :=
  if is_sort_program words then sort_has_compress_program_flag words
  else if is_git_program words then git_has_exec_risk_global words
  else false.

Record SegmentExecFacts := mkFacts { exec_risk : bool; has_git : bool }.
Definition segment_exec_facts (words : list str) : SegmentExecFacts :=
  match normalize_for_exec_risk words with
  | NFailClosed => mkFacts true false
  | NReady inner => mkFacts (segment_has_exec_risk_flag inner) (is_git_program inner)
  end.

(** ** Git queries that only read *)

Definition SAFE_GIT_SUBCOMMANDS : list str :=
  [lit "status"; lit "branch"; lit "log"; lit "diff"; lit "ls-files"; lit "show"; lit "rev-parse";
   lit "blame"; lit "grep"; lit "describe"; lit "merge-base"; lit "check-ignore"; lit "check-attr";
   lit "cat-file"; lit "ls-tree"; lit "show-ref"; lit "for-each-ref"; lit "rev-list"; lit "name-rev";
   lit "count-objects"; lit "shortlog"].
Definition GIT_QUERY_UNSAFE_OPTIONS : list str :=
  [lit "--filters"; lit "--textconv"; lit "--output"; lit "--ext-diff"; lit "--open-files-in-pager"].

Definition git_query_option_is_unsafe (word : str) : bool :=
  let flag := before_eq word in
  (2 <? utf8_len flag)%nat && existsb (starts_with flag) GIT_QUERY_UNSAFE_OPTIONS.

(** The [loop] of [git_safe_query_verb_index]; [i] is the index of the head of [ws]. *)
Fixpoint verb_index_go (i : nat) (ws : list str) : option nat :=
  match ws with
  | [] => None
  | tok :: ws' =>
      if str_eqb tok DASH || str_eqb tok DDASH then None
      else if negb (starts_dash tok) then Some i
      else if str_eqb tok (lit "-C") then
        match ws' with [] => None | _ :: ws'' => verb_index_go (2 + i) ws'' end
      else if bool_decide (is_Some (attached_git_c_path tok)) || str_eqb tok (lit "--no-pager")
              || str_eqb tok (lit "-P") then verb_index_go (1 + i) ws'
      else None
  end.
Definition git_safe_query_verb_index (words : list str) : option nat := verb_index_go 1 (tail words).

Definition head_is_git (words : list str) : bool := bool_decide (head words = Some (lit "git")).

Definition git_words_have_unsafe_query_option (words : list str) : bool :=
  head_is_git words
  && (existsb git_query_option_is_unsafe (tail words)
      || match git_safe_query_verb_index words with
         | Some i => bool_decide (words !! i = Some (lit "grep")) && existsb (starts_with (lit "-O")) (tail words)
         | None => false
         end).

Definition git_words_are_read_only_query (words : list str) : bool :=
  head_is_git words
  && negb (git_has_exec_risk_global words)
  && match git_safe_query_verb_index words with
     | None => false
     | Some verb_idx =>
         match words !! verb_idx with
         | Some verb => one_of verb SAFE_GIT_SUBCOMMANDS && negb (git_words_have_unsafe_query_option words)
         | None => false
         end
     end.

(** ** The configuration of the repository *)

Inductive ConfigLevel := LevelLocal | LevelWorktree | LevelOther.
Record ConfigEntry := mkEntry { level : ConfigLevel; entry_name : option str; entry_value : option str }.
(** [File::open] and then [metadata] *)
Inductive Opened := OpenedFile (is_file : bool) | OpenedNoMetadata | OpenNotFound | OpenFailed.

Class GitWorld := {
  Repository : Type;
  (** [Repository::discover]: no repository is the error [NotFound] of class [Repository]. *)
  discover : str → result Repository bool;
  repo_path : Repository → str;
  commondir : Repository → str;
  file_open : str → Opened;
  (** [repo.config()] and [config.entries(None)] *)
  config_entries : Repository → option (list (option ConfigEntry));
  (** [Config::parse_bool(value).is_ok()] *)
  parse_bool_ok : str → bool
}.

Section Ambient.
Context `{GitWorld}.

Definition local_git_config_entry_is_exec (name value : str) : bool :=
  let name := to_ascii_lowercase name in
  let value := trim value in
  if str_eqb value [] then false
  else if str_eqb name (lit "core.fsmonitor") then negb (parse_bool_ok value)
  else if str_eqb name (lit "diff.external") then true
  else
    match strip_prefix (lit "diff.") name with
    | Some rest => ends_with (lit ".command") rest || ends_with (lit ".textconv") rest
                   || ends_with (lit ".external") rest
    | None => false
    end
    || match strip_prefix (lit "alias.") name with
       | Some alias => one_of alias SAFE_GIT_SUBCOMMANDS && starts_with (lit "!") value
       | None => false
       end.

Definition path_unreadable (path : str) : bool :=
  match file_open path with
  | OpenedFile is_file => negb is_file
  | OpenedNoMetadata => true
  | OpenNotFound => false
  | OpenFailed => true
  end.

(** The loop over the entries; [None] is an entry that cannot be read. *)
Definition entry_has_exec_risk (entry : option ConfigEntry) : bool :=
  match entry with
  | None => true
  | Some e =>
      match level e with
      | LevelLocal | LevelWorktree =>
          local_git_config_entry_is_exec (default [] (entry_name e)) (default [] (entry_value e))
      | LevelOther => false
      end
  end.

Definition local_repo_config_has_exec_risk (cwd : str) : bool :=
  match discover cwd with
  | Err not_a_repository => negb not_a_repository
  | Ok repo =>
      if path_unreadable (path_join (commondir repo) (lit "config"))
         || path_unreadable (path_join (repo_path repo) (lit "config"))
         || path_unreadable (path_join (repo_path repo) (lit "config.worktree")) then true
      else match config_entries repo with
           | None => true
           | Some entries => existsb entry_has_exec_risk entries
           end
  end.

(** ** Where git would run *)

Definition is_static_path_operand (p : str) : bool :=
  negb (str_eqb p []) && negb (str_eqb p DASH) && negb (starts_dash p)
  && negb (contains_char (chr "$") p) && negb (contains_char (chr "`") p) && negb (contains (lit "$(") p).

Definition join_cwd (base operand : str) : str :=
  if is_absolute operand then operand else path_join base operand.

Fixpoint chdir_target (target : option str) (ws : list str) : option (option str) :=
  match ws with
  | [] => Some target
  | tok :: ws' =>
      if str_eqb tok DDASH then Some (head ws')
      else if starts_dash tok then None
      else match target with Some _ => None | None => chdir_target (Some tok) ws' end
  end.
Definition apply_literal_chdir (cwd : str) (words : list str) : option str :=
  scanned ← chdir_target None (tail words);
  target ← scanned;
  if is_static_path_operand target then Some (join_cwd cwd target) else None.

Fixpoint git_cwd_go (cwd : str) (ws : list str) : option str :=
  match ws with
  | [] => Some cwd
  | tok :: ws' =>
      if str_eqb tok DDASH || negb (starts_dash tok) || str_eqb tok DASH then Some cwd
      else if is_git_repo_retarget_flag tok then None
      else if str_eqb tok (lit "-C") then
        match ws' with
        | [] => None
        | path :: ws'' => if is_static_path_operand path then git_cwd_go (join_cwd cwd path) ws'' else None
        end
      else match attached_git_c_path tok with
           | Some path => if is_static_path_operand path then git_cwd_go (join_cwd cwd path) ws' else None
           | None =>
               match ws' with
               | n :: ws'' => if takes_next tok n then git_cwd_go cwd ws'' else git_cwd_go cwd ws'
               | [] => Some cwd
               end
           end
  end.
Definition git_effective_cwd (words : list str) (start_cwd : str) : option str := git_cwd_go start_cwd (tail words).

Inductive AmbientScanPlan := PlanFailClosed | CheckDirs (dirs : list str).

Fixpoint ambient_go (cwd : str) (git_cwds : list str) (raw_segments : list (list str)) : AmbientScanPlan :=
  match raw_segments with
  | [] => match git_cwds with [] => PlanFailClosed | _ => CheckDirs git_cwds end
  | raw :: rest =>
      match normalize_for_exec_risk raw with
      | NFailClosed => PlanFailClosed
      | NReady words =>
          match normalized_program_name words with
          | Some name =>
              if one_of name [lit "cd"; lit "pushd"] then
                match apply_literal_chdir cwd words with
                | Some next => ambient_go next git_cwds rest
                | None => PlanFailClosed
                end
              else if str_eqb name (lit "popd") then PlanFailClosed
              else if str_eqb name (lit "git") then
                match git_effective_cwd words cwd with
                | Some effective => ambient_go cwd (git_cwds ++ [effective]) rest
                | None => PlanFailClosed
                end
              else ambient_go cwd git_cwds rest
          | None => ambient_go cwd git_cwds rest
          end
      end
  end.
Definition ambient_scan_plan_from_segments (raw_segments : list (list str)) (session_cwd : str)
  : AmbientScanPlan := ambient_go session_cwd [] raw_segments.

Definition ambient_exec_risk_from_plan (plan : AmbientScanPlan) : bool :=
  match plan with
  | PlanFailClosed => true
  | CheckDirs dirs => existsb local_repo_config_has_exec_risk dirs
  end.
End Ambient.

(** ** Scripts that do not decompose *)

Definition trim_matches (p : char → bool) (s : str) : str := trim_end_matches p (drop_while p s).

Definition token_break (c : char) : bool :=
  is_whitespace c || existsb (N.eqb c) (lit "|&;()`<>") || (c =? NL)%N.
Definition token_quote (c : char) : bool := existsb (N.eqb c) [SQUOTE; DQUOTE; chr "`"].
Definition script_may_invoke_git (cmd : str) : bool :=
  existsb (λ token, let trimmed := trim_matches token_quote token in
                    negb (str_eqb trimmed []) && str_eqb (normalized_token_basename trimmed) (lit "git"))
    (split_where token_break cmd).
