(* ===== verification/AutoRisk.v ===== *)
(** Static risk of a request
    (crates/codegen/xai-grok-workspace/src/permission/auto_mode/security_findings.rs and, of
    auto_mode/mod.rs, the environment tiers and the rule-based classifier): the closed set
    of security findings, what an environment assignment can change, and which commands are
    routine. *)
From Stdlib Require Import String Ascii.
From S2P Require Import Prelude RustStr Json LexPath Shell Rules Policy ShellWords ExecRisk.
Import Argv Script.

(** ** Findings *)

Inductive ClassifierSecurityFinding :=
| FailClosedPolicy | UnparseableShell | OpaqueShell | ExecOrAmbientGit | EnvInjection
| UnvettedEnv | FileWrite | DangerousCommand | SpecialExecSurface.
Global Instance finding_eq_dec : EqDecision ClassifierSecurityFinding.
Proof. solve_decision. Defined.

Definition finding_rank (f : ClassifierSecurityFinding) : nat :=
  match f with
  | FailClosedPolicy => 0 | UnparseableShell => 1 | OpaqueShell => 2 | ExecOrAmbientGit => 3
  | EnvInjection => 4 | UnvettedEnv => 5 | FileWrite => 6 | DangerousCommand => 7
  | SpecialExecSurface => 8
  end.

Definition token (f : ClassifierSecurityFinding) : str :=
  match f with
  | FailClosedPolicy => lit "fail_closed_policy"
  | UnparseableShell => lit "unparseable_shell"
  | OpaqueShell => lit "opaque_shell"
  | ExecOrAmbientGit => lit "exec_or_ambient_git"
  | EnvInjection => lit "env_injection"
  | UnvettedEnv => lit "unvetted_env"
  | FileWrite => lit "file_write"
  | DangerousCommand => lit "dangerous_command"
  | SpecialExecSurface => lit "special_exec_surface"
  end.
Definition description (f : ClassifierSecurityFinding) : str :=
  match f with
  | FailClosedPolicy => lit "permission policy could not determine whether a rule applies"
  | UnparseableShell => lit "shell structure could not be fully parsed"
  | OpaqueShell => lit "invokes a nested or dynamically supplied shell command"
  | ExecOrAmbientGit => lit "may run code via an execution callback or ambient Git configuration"
  | EnvInjection => lit "sets environment variables that can change which code executes"
  | UnvettedEnv => lit "sets environment variables outside the known-safe set"
  | FileWrite => lit "writes to a real file rather than a sink"
  | DangerousCommand => lit "a destructive or high-impact command"
  | SpecialExecSurface =>
      lit "options or tools that can write arbitrary output, execute code, override config/identity, or disclose the process environment"
  end.
Definition is_grant_floor (f : ClassifierSecurityFinding) : bool :=
  match f with
  | FileWrite | UnvettedEnv | EnvInjection | OpaqueShell | ExecOrAmbientGit | SpecialExecSurface => true
  | _ => false
  end.

(** [BashSecurityAssessment]: a [BTreeSet], its elements in order. *)
Definition Assessment : Type := list ClassifierSecurityFinding.
Fixpoint insert_finding (f : ClassifierSecurityFinding) (a : Assessment) : Assessment :=
  match a with
  | [] => [f]
  | g :: a' =>
      if (finding_rank f <? finding_rank g)%nat then f :: a
      else if (finding_rank f =? finding_rank g)%nat then a
      else g :: insert_finding f a'
  end.
Definition assessment_is_empty (a : Assessment) : bool := match a with [] => true | _ => false end.
Definition has_finding (a : Assessment) (f : ClassifierSecurityFinding) : bool := bool_decide (f ∈ a).
Definition constrains_broad_grant (a : Assessment) : bool := existsb is_grant_floor a.
Definition tokens (a : Assessment) : list str := token <$> a.
Definition render_glossary (a : Assessment) : str :=
  join [NL] ((λ f, lit "- " ++ token f ++ lit ": " ++ description f) <$> a).

Lemma finding_rank_inj f g : finding_rank f = finding_rank g → f = g.
Proof. by destruct f, g. Qed.

Lemma elem_of_insert_finding f g a : g ∈ insert_finding f a ↔ g = f ∨ g ∈ a.
Proof.
  induction a as [|h a IH]; simpl; [set_solver|].
  destruct (Nat.ltb_spec (finding_rank f) (finding_rank h)); [set_solver|].
  destruct (Nat.eqb_spec (finding_rank f) (finding_rank h)) as [->%finding_rank_inj|]; set_solver.
Qed.

(** ** Environment assignments *)

Inductive EnvRisk := EnvSafe | EnvUnvetted | EnvInjected.
Global Instance EnvRisk_eq_dec : EqDecision EnvRisk.
Proof. solve_decision. Defined.
Definition env_max (a b : EnvRisk) : EnvRisk :=
  match a, b with
  | EnvInjected, _ | _, EnvInjected => EnvInjected
  | EnvUnvetted, _ | _, EnvUnvetted => EnvUnvetted
  | EnvSafe, EnvSafe => EnvSafe
  end.

Definition SAFE_ENV_KEYS : list str :=
  [lit "CARGO_TERM_COLOR"; lit "CARGO_TERM_PROGRESS_WHEN"; lit "RUST_LOG"; lit "RUST_LOG_STYLE";
   lit "RUST_BACKTRACE"; lit "RUST_TEST_THREADS"; lit "RUST_MIN_STACK"; lit "NO_COLOR"; lit "CLICOLOR";
   lit "CLICOLOR_FORCE"; lit "FORCE_COLOR"; lit "COLORTERM"].
Definition is_safe_env_key (key : str) : bool := one_of key SAFE_ENV_KEYS.
Definition INJECTION_ENV_KEYS : list str :=
  [lit "LD_PRELOAD"; lit "LD_AUDIT"; lit "BASH_ENV"; lit "ENV"; lit "IFS"; lit "PATH";
   lit "GIT_EXTERNAL_DIFF"; lit "GIT_PROXY_COMMAND"; lit "PROMPT_COMMAND"].
Definition INJECTION_ENV_KEY_PREFIXES : list str := [lit "DYLD_"; lit "GIT_CONFIG"].
Definition env_key_risk (key : str) : EnvRisk :=
  if is_safe_env_key key then EnvSafe
  else if one_of key INJECTION_ENV_KEYS || existsb (λ p, starts_with p key) INJECTION_ENV_KEY_PREFIXES
  then EnvInjected
  else EnvUnvetted.

(** The arguments of one [env]; [None] is the early return of [Injection]. *)
Fixpoint env_args_risk (risk : EnvRisk) (options_done : bool) (args : list str) : option EnvRisk :=
  match args with
  | [] => Some risk
  | arg :: args' =>
      if str_eqb arg DDASH then env_args_risk risk true args'
      else if negb options_done && starts_dash arg then None
      else match split_once (lit "=") arg with
           | Some (key, _) => env_args_risk (env_max risk (env_key_risk key)) options_done args'
           | None => Some risk
           end
  end.
Fixpoint command_env_go (rounds : nat) (risk : EnvRisk) (current : list str) : EnvRisk :=
  match rounds with
  | O => risk
  | S rounds' =>
      let scanned := if head_is (lit "env") current then env_args_risk risk false (tail current) else Some risk in
      match scanned with
      | None => EnvInjected
      | Some risk =>
          match strip_wrapper_command current with
          | Some inner => command_env_go rounds' risk inner
          | None => risk
          end
      end
  end.
Definition command_env_risk (words : list str) : EnvRisk := command_env_go 8 EnvSafe words.

Definition assignment_key (node : Node) : str :=
  let named := omap (λ child, if str_eqb (kind child) (lit "variable_name") then utf8_text child else None)
                 (children node) in
  match named with
  | text :: _ => text
  | [] => match utf8_text node with Some t => before_eq t | None => [] end
  end.

(** (a) the assignments of the tree, in the order of the stack; (b) the [env] commands. *)
Definition script_env_risk (root : Node) (cmds : list PlainCommand) : EnvRisk :=
  let risk := foldl (λ risk node, if str_eqb (kind node) (lit "variable_assignment")
                                  then env_max risk (env_key_risk (assignment_key node)) else risk)
                EnvSafe (visit root) in
  foldl (λ risk c, env_max risk (command_env_risk (pc_words c))) risk cmds.

(** ** Routine commands *)

Definition ROUTINE_PREFIXES : list str :=
  [lit "cargo "; lit "git add"; lit "git commit"; lit "git checkout"; lit "git switch"; lit "git stash";
   lit "git pull"; lit "git fetch"; lit "git worktree list"; lit "pytest"; lit "python "; lit "python3 ";
   lit "node "; lit "rustc "; lit "rustfmt"; lit "clippy"; lit "make "; lit "cmake "; lit "cd"; lit "pushd";
   lit "popd"; lit "ls"; lit "pwd"; lit "echo "; lit "printf "; lit "cat "; lit "head "; lit "tail "; lit "wc ";
   lit "rg "; lit "grep "; lit "which "; lit "type "; lit "true"; lit "false"; lit "test "; lit "sort ";
   lit "uniq "; lit "tr "; lit "cut "; lit "diff "; lit "jq "; lit "date"; lit "whoami"; lit "hostname";
   lit "uname"; lit "nproc"; lit "printenv"; lit "stat "; lit "file "; lit "tree"; lit "basename ";
   lit "dirname "; lit "realpath "; lit "readlink "; lit "strings "; lit "sleep "; lit "df "; lit "du ";
   lit "ps "; lit "top"; lit "htop"; lit "bazel "; lit "just "; lit "go "; lit "kubectl get";
   lit "kubectl logs"; lit "kubectl describe"; lit "set"].
Definition KUBECTL_UNSAFE_FLAGS : list str :=
  [lit "--kubeconfig"; lit "--context"; lit "--cluster"; lit "--server"; lit "-s"; lit "--token"; lit "--user";
   lit "--as"; lit "--as-group"; lit "--as-uid"; lit "--as-user-extra"; lit "--username"; lit "--password";
   lit "--client-certificate"; lit "--client-key"; lit "--certificate-authority"].
Definition NPM_SAFE_SUBCOMMANDS : list str :=
  [lit "install"; lit "i"; lit "ci"; lit "add"; lit "remove"; lit "rm"; lit "uninstall"; lit "update"; lit "up";
   lit "upgrade"; lit "test"; lit "t"; lit "run"; lit "run-script"; lit "start"; lit "build"; lit "audit";
   lit "list"; lit "ls"; lit "ll"; lit "outdated"; lit "why"; lit "view"; lit "info"; lit "dedupe"; lit "prune";
   lit "version"; lit "pack"; lit "config"; lit "link"; lit "unlink"; lit "rebuild"; lit "store"; lit "fetch";
   lit "import"].
Definition UV_SAFE_SUBCOMMANDS : list str :=
  [lit "sync"; lit "pip"; lit "lock"; lit "venv"; lit "add"; lit "remove"; lit "tree"; lit "export";
   lit "build"; lit "version"; lit "python"; lit "cache"; lit "init"; lit "self"; lit "help"].
Definition RUSTUP_SAFE_SUBCOMMANDS : list str :=
  [lit "show"; lit "toolchain"; lit "component"; lit "target"; lit "default"; lit "update"; lit "which";
   lit "doc"; lit "self"; lit "completions"; lit "set"; lit "override"].

Definition is_lone_wrapper (words : list str) : bool := (length words =? 1)%nat && is_wrapper_command words.
Definition find_is_read_only (words : list str) : bool :=
  negb (existsb (λ w, one_of w [lit "-delete"; lit "-exec"; lit "-execdir"; lit "-ok"; lit "-okdir";
                               lit "-fprint"; lit "-fprint0"; lit "-fprintf"; lit "-fls"]) words).
Definition nonflag_tokens (inner : list str) (n : nat) : list str :=
  take n (List.filter (λ w, negb (starts_dash w)) (tail inner)).
Definition gh_subcommand_is_read_only (inner : list str) : bool :=
  match nonflag_tokens inner 2 with
  | [group; sub] =>
      (one_of group [lit "pr"; lit "issue"; lit "release"; lit "run"; lit "workflow"; lit "repo"; lit "gist"]
       && one_of sub [lit "view"; lit "list"; lit "status"; lit "checks"; lit "diff"])
      || (str_eqb group (lit "auth") && str_eqb sub (lit "status"))
  | [w] => str_eqb w (lit "status")
  | _ => false
  end.

Definition is_npm (head : str) : bool := one_of head [lit "npm"; lit "pnpm"; lit "yarn"].
Definition launcher_subcommand (head : str) (inner : list str) : option str :=
  sub ← inner !! 1%nat;
  Some (if is_npm head && str_eqb sub (lit "x") then lit "exec"
        else if is_npm head && str_eqb sub (lit "innit") then lit "init"
        else sub).
Definition is_remote_launcher (head : str) (inner : list str) : bool :=
  if str_eqb head (lit "npx") || str_eqb head (lit "uvx") then true
  else if str_eqb head (lit "uv") && bool_decide (inner !! 1%nat = Some (lit "tool"))
          && bool_decide (inner !! 2%nat = Some (lit "run")) then true
  else match launcher_subcommand head inner with
       | None => false
       | Some sub =>
           is_npm head
           && (one_of sub [lit "dlx"; lit "create"; lit "explore"]
               || (str_eqb sub (lit "init")
                   && match inner !! 2%nat with Some a => negb (starts_dash a) | None => false end))
       end.

Inductive LaunchTarget := NotLauncher | LaunchInner (words : list str) | LaunchUnresolved.
(** Where the launched command starts: [inl] is an early return. *)
Definition launch_start (head sub : str) (inner : list str) : LaunchTarget + nat :=
  if str_eqb head (lit "uv") && str_eqb sub (lit "run") then inr 2%nat
  else if str_eqb head (lit "rustup") && str_eqb sub (lit "run") then
    match inner !! 2%nat with
    | Some toolchain => if starts_dash toolchain then inl LaunchUnresolved else inr 3%nat
    | None => inl LaunchUnresolved
    end
  else if is_npm head && str_eqb sub (lit "exec") then
    inr (if bool_decide (inner !! 2%nat = Some DDASH) then 3%nat else 2%nat)
  else inl NotLauncher.
Definition explicit_launch_target (head : str) (inner : list str) : LaunchTarget :=
  match launcher_subcommand head inner with
  | None => NotLauncher
  | Some sub =>
      match launch_start head sub inner with
      | inl t => t
      | inr start =>
          match inner !! start with
          | Some tok => if starts_dash tok then LaunchUnresolved else LaunchInner (drop start inner)
          | None => LaunchUnresolved
          end
      end
  end.
Definition launched_writes_nonsink (words : list str) : bool :=
  existsb (λ p, negb (is_safe_write_sink p)) (command_words_write_paths words).

Definition is_package_manager (prog : str) : bool :=
  one_of prog [lit "uv"; lit "uvx"; lit "npm"; lit "npx"; lit "pnpm"; lit "yarn"; lit "rustup"].
(** [routine] is [bash_command_is_routine], called for a launched command. *)
Definition package_manager_subcommand_is_routine (routine : list str → bool) (prog : str) (inner : list str)
  : option bool :=
  if negb (is_package_manager prog) then None
  else if is_remote_launcher prog inner then Some false
  else match explicit_launch_target prog inner with
       | LaunchUnresolved => Some false
       | LaunchInner launched =>
           Some (bool_decide (command_env_risk launched = EnvSafe)
                 && negb (launched_writes_nonsink launched) && routine launched)
       | NotLauncher =>
           Some (match launcher_subcommand prog inner with
                 | None => false
                 | Some s =>
                     if is_npm prog then one_of s NPM_SAFE_SUBCOMMANDS
                     else if str_eqb prog (lit "uv") then one_of s UV_SAFE_SUBCOMMANDS
                     else if str_eqb prog (lit "rustup") then one_of s RUSTUP_SAFE_SUBCOMMANDS
                     else false
                 end)
       end.

Definition matches_routine_prefix (joined p : str) : bool :=
  let base := trim p in
  str_eqb joined base
  || match strip_prefix base joined with Some rest => starts_with (lit " ") rest | None => false end.

(** The checks of [bash_command_is_routine] after the package managers. *)
Definition plain_command_is_routine (head : str) (inner : list str) : bool :=
  if str_eqb head (lit "find") then find_is_read_only inner
  else if str_eqb head (lit "git") && git_words_are_read_only_query inner then true
  else if str_eqb head (lit "git") && git_words_have_unsafe_query_option inner then false
  else if str_eqb head (lit "tree")
          && existsb (λ w, (starts_dash w && negb (starts_with DDASH w) && contains_char (chr "o") w)
                           || starts_with (lit "--output") w) inner then false
  else if str_eqb head (lit "rg")
          && existsb (λ w, str_eqb w (lit "--pre") || starts_with (lit "--pre=") w) inner then false
  else if str_eqb head (lit "kubectl")
          && existsb (λ w, one_of (before_eq w) KUBECTL_UNSAFE_FLAGS) (tail inner) then false
  else if str_eqb head (lit "gh") then gh_subcommand_is_read_only inner
  else existsb (matches_routine_prefix (to_ascii_lowercase (join (lit " ") inner))) ROUTINE_PREFIXES.

(** A launched command is shorter than its launcher, so the length of the words is fuel
    enough ([routine_go_enough]). *)
Fixpoint routine_go (fuel : nat) (words : list str) : bool :=
  match fuel with
  | O => false
  | S fuel' =>
      match unwrap_wrappers words with
      | [] => true
      | w :: rest =>
          if is_lone_wrapper (w :: rest) then true
          else
            let head := to_ascii_lowercase (basename w) in
            match package_manager_subcommand_is_routine (routine_go fuel') head (w :: rest) with
            | Some routine => routine
            | None => plain_command_is_routine head (w :: rest)
            end
      end
  end.
Definition bash_command_is_routine (words : list str) : bool := routine_go (S (length words)) words.

(** ** The fuel is enough *)

Lemma explicit_launch_shorter head inner launched :
  explicit_launch_target head inner = LaunchInner launched → length launched < length inner.
Proof.
  unfold explicit_launch_target. destruct (launcher_subcommand _ _) as [sub|] eqn:E; [|done].
  unfold launcher_subcommand in E. destruct (inner !! 1%nat) as [w|] eqn:E1; [|done].
  apply lookup_lt_Some in E1. destruct (launch_start _ _ _) as [t|start] eqn:Es.
  - intros ->. revert Es. unfold launch_start. repeat case_match; congruence.
  - assert (2 <= start) by (revert Es; unfold launch_start; repeat case_match; intros [= <-]; lia).
    destruct (inner !! start) as [tok|]; [|done]. destruct (starts_dash tok); [done|].
    intros [= <-]. rewrite length_drop. lia.
Qed.

Lemma package_manager_ext r1 r2 prog inner :
  (∀ launched, length launched < length inner → r1 launched = r2 launched) →
  package_manager_subcommand_is_routine r1 prog inner = package_manager_subcommand_is_routine r2 prog inner.
Proof.
  intros Hr. unfold package_manager_subcommand_is_routine.
  destruct (negb _); [done|]. destruct (is_remote_launcher _ _); [done|].
  destruct (explicit_launch_target _ _) eqn:E; [done| |done].
  apply explicit_launch_shorter in E. by rewrite (Hr _ E).
Qed.

Lemma routine_go_enough fuel words : length words < fuel → routine_go fuel words = bash_command_is_routine words.
Proof.
  unfold bash_command_is_routine. revert words.
  enough (Hgo : ∀ fuel fuel' words, length words < fuel → length words < fuel' →
                  routine_go fuel words = routine_go fuel' words) by (intros; apply Hgo; lia).
  clear fuel. intros fuel; induction fuel as [|fuel IH]; intros fuel' words Hl Hl'; [lia|]. destruct fuel' as [|fuel']; [lia|]. simpl.
  pose proof (unwrap_wrappers_length words) as Hu. destruct (unwrap_wrappers words) as [|w rest]; [done|].
  destruct (is_lone_wrapper _); [done|].
  rewrite (package_manager_ext _ (routine_go fuel')); [done|].
  intros launched Hlt. apply IH; lia.
Qed.
