(* ===== verification/Prompter.v ===== *)
(** The permission prompt
    (crates/codegen/xai-grok-workspace/src/permission/prompter.rs and hub_permission.rs, the
    qualified MCP names of crates/codegen/xai-grok-mcp/src/servers.rs and of
    crates/common/xai-tool-protocol/src/ids.rs, and [primary_command_from_script] of
    permission/bash_command_splitting.rs): the options offered for an access and what the
    client's answer means.

    The client is a parameter: it answers the options with one of the replies of the
    protocol ([PromptReply]). *)
From Stdlib Require Import String Ascii.
From stdpp Require Import gmap.
From S2P Require Import Prelude RustStr Json LexPath Shell Rules Policy ShellWords ExecRisk AutoRisk AutoMode.
From S2P Require Import NetFilter WebFetch.
Import Argv Script.

(** ** Qualified MCP names *)

Definition is_id_char (c : char) : bool := is_ascii_alphanumeric c || (c =? chr "_")%N || (c =? chr "-")%N.
Definition is_valid_segment (s : str) : bool := negb (str_eqb s []) && forallb is_id_char s.
Definition is_well_formed_tool_id (s : str) : bool :=
  match split_on (chr ":") s with
  | [first] => is_valid_segment first
  | [first; second] => is_valid_segment first && is_valid_segment second
  | _ => false
  end.
(** [ToolId::new(s).is_ok()] *)
Definition tool_id_ok (s : str) : bool := negb (str_eqb s []) && is_well_formed_tool_id s.

Definition MCP_TOOL_NAME_DELIMITER : str := lit "__".
(** The positions of the windows of two bytes that are the delimiter. *)
Fixpoint boundaries (i : nat) (s : str) : list nat :=
  match s with
  | a :: ((b :: _) as s') =>
      if (a =? chr "_")%N && (b =? chr "_")%N then i :: boundaries (S i) s' else boundaries (S i) s'
  | _ => []
  end.
(** The name with its server and its tool. *)
Definition parse_mcp_qualified_name (name : str) : option (str * str) :=
  match boundaries 0 name with
  | [boundary] =>
      let server := take boundary name in
      let tool := drop (2 + boundary) name in
      if str_eqb server [] || str_eqb tool [] then None
      else if tool_id_ok name then Some (server, tool) else None
  | _ => None
  end.

(** ** Outcomes *)

Inductive PromptOutcome :=
| OAllowOnce
| OAllowAlways
| OAllowEditsForSession
| OAllowAlwaysBashCommand (prefix : str)
| OAllowAlwaysBashGlob (pattern : str)
| OAllowAlwaysDomain (domain : str)
| OAllowAlwaysMcpTool (tool_name : str)
| OAllowAlwaysMcpServer (server : str)
| ORejectOnce
| ORejectAlwaysBashCommand (prefix : str)
| OCancelled
| OFollowupMessage (msg : str)
| OError (e : str).

Inductive PromptOutcomeKind :=
| KAllowOnce | KAllowAlways | KAllowEditsForSession | KAllowAlwaysBash | KAllowAlwaysBashGlob
| KAllowAlwaysDomain | KAllowAlwaysMcpTool | KAllowAlwaysMcpServer | KRejectOnce
| KRejectAlwaysBash | KCancelled | KFollowup | KError.
Global Instance outcome_kind_eq_dec : EqDecision PromptOutcomeKind.
Proof. solve_decision. Defined.
Definition outcome_kind (o : PromptOutcome) : PromptOutcomeKind :=
  match o with
  | OAllowOnce => KAllowOnce | OAllowAlways => KAllowAlways | OAllowEditsForSession => KAllowEditsForSession
  | OAllowAlwaysBashCommand _ => KAllowAlwaysBash | OAllowAlwaysBashGlob _ => KAllowAlwaysBashGlob
  | OAllowAlwaysDomain _ => KAllowAlwaysDomain | OAllowAlwaysMcpTool _ => KAllowAlwaysMcpTool
  | OAllowAlwaysMcpServer _ => KAllowAlwaysMcpServer | ORejectOnce => KRejectOnce
  | ORejectAlwaysBashCommand _ => KRejectAlwaysBash | OCancelled => KCancelled
  | OFollowupMessage _ => KFollowup | OError _ => KError
  end.
Definition outcome_wire (k : PromptOutcomeKind) : str :=
  match k with
  | KAllowOnce => lit "allow_once" | KAllowAlways => lit "allow_always"
  | KAllowEditsForSession => lit "allow_edits_for_session" | KAllowAlwaysBash => lit "allow_always_bash"
  | KAllowAlwaysBashGlob => lit "allow_always_bash_glob" | KAllowAlwaysDomain => lit "allow_always_domain"
  | KAllowAlwaysMcpTool => lit "allow_always_mcp_tool" | KAllowAlwaysMcpServer => lit "allow_always_mcp_server"
  | KRejectOnce => lit "reject_once" | KRejectAlwaysBash => lit "reject_always_bash"
  | KCancelled => lit "cancelled" | KFollowup => lit "followup" | KError => lit "error"
  end.

Inductive ClientType := Generic | GrokTUI | GrokWeb | Nebula | Extension | GrokPager | Desktop.
(** The clients with the interactive prompt. *)
Definition fancy_client (c : ClientType) : bool :=
  match c with GrokTUI | GrokPager | Desktop => true | _ => false end.
Definition client_supports_enable_always_approve (c : ClientType) : bool := fancy_client c.

Definition tool_name_for_access (access : AccessKind) : str :=
  match access with
  | ARead _ => lit "read_file" | AGrep _ _ => lit "grep" | AEdit _ => lit "search_replace"
  | ABash _ => lit "run_terminal_command" | AMcp name _ => lit "mcp:" ++ name
  | AWebFetch _ => lit "web_fetch" | AWebSearch _ => lit "web_search"
  end.

(** ** Options *)

Inductive OptionKind := AllowOnceKind | AllowAlwaysKind | RejectOnceKind | RejectAlwaysKind.
Record PermissionOption := mkOption {
  option_id : str;
  option_name : str;
  option_kind : OptionKind;
  option_meta : option json
}.
(** [IndexMap]: the options in order, one per id. *)
Definition Options : Type := list PermissionOption.
Fixpoint options_insert (o : PermissionOption) (m : Options) : Options :=
  match m with
  | [] => [o]
  | p :: m' => if str_eqb (option_id p) (option_id o) then o :: m' else p :: options_insert o m'
  end.
Definition options_extend (m base : Options) : Options := foldl (λ m o, options_insert o m) m base.
Definition shift_remove (id : str) (m : Options) : Options := List.filter (λ p, negb (str_eqb (option_id p) id)) m.
Definition options_get (id : str) (m : Options) : option PermissionOption :=
  List.find (λ p, str_eqb (option_id p) id) m.

Definition REJECT_ONCE_LABEL : str := lit "No, and tell Grok what to do differently".
Definition ALLOW_EDITS_SESSION_OPTION_ID : str := lit "allow-edits-session".
Definition ENABLE_ALWAYS_APPROVE_OPTION_ID : str := lit "enable-always-approve".
Definition enable_always_approve_option : PermissionOption :=
  mkOption ENABLE_ALWAYS_APPROVE_OPTION_ID (lit "Yes, and don't ask again for anything (always-approve mode)")
    AllowOnceKind None.
Definition plain (id name : str) (k : OptionKind) : PermissionOption := mkOption id name k None.

Definition edit_options : Options :=
  [plain ALLOW_EDITS_SESSION_OPTION_ID (lit "Yes, allow all edits during this session") AllowAlwaysKind;
   plain (lit "allow-once") (lit "Yes") AllowOnceKind;
   plain (lit "reject-once") REJECT_ONCE_LABEL RejectOnceKind].
Definition bash_options : Options :=
  [plain (lit "allow-once") (lit "Yes, proceed") AllowOnceKind;
   plain (lit "reject-once") REJECT_ONCE_LABEL RejectOnceKind].
Definition generic_bash_options : Options :=
  [plain (lit "always-allow") (lit "Yes, and don't ask again for bash commands") AllowAlwaysKind;
   plain (lit "allow-once") (lit "Yes, proceed") AllowOnceKind;
   plain (lit "reject-once") REJECT_ONCE_LABEL RejectOnceKind;
   plain (lit "reject-always") (lit "No, and don't run bash commands") RejectAlwaysKind].
Definition fallback_options : Options :=
  [plain (lit "always-allow") (lit "always allow") AllowAlwaysKind;
   plain (lit "allow-once") (lit "allow once") AllowOnceKind;
   plain (lit "reject-once") (lit "reject once") RejectOnceKind].
Definition REMEMBER_TOOL_APPROVALS_GATED_IDS : list str :=
  [lit "allow-always-command"; lit "reject-always-command"; lit "allow-always-mcp"; lit "allow-always-domain";
   lit "always-allow"; lit "reject-always"].
Definition prepend_enable_always_approve (c : ClientType) (base : Options) : Options :=
  if client_supports_enable_always_approve c then options_extend [enable_always_approve_option] base else base.

Definition is_setup_command (cmd : list str) : bool :=
  match cmd with
  | [] => true
  | w :: _ => one_of w [lit "cd"; lit "pushd"; lit "popd"; lit "export"; lit "unset"; lit "set"; lit "sleep"; lit "timeout"]
  end.

Section Prompt.
Context `{PolicyEnv, WebEnv, SerdeJson}.

(** [primary_command_from_script(..).highlighted_words] *)
Definition primary_words (script : str) : option (list str) :=
  commands ← all_commands_from_script try_parse_shell script;
  primary ← List.find (λ c, negb (is_setup_command (pc_words c))) commands;
  Some (pc_words primary).

Definition bash_scope_option (id prefix : str) (k : OptionKind) (primary : list str) : PermissionOption :=
  mkOption id (prefix ++ lit " " ++ join (lit " ") primary) k
    (Some (json_object [(lit "prompt_prefix", JString prefix)])).

Definition mcp_options (tool_name : str) : Options :=
  let server_prefix := match parse_mcp_qualified_name tool_name with
                       | Some (server, _) => JString server
                       | None => JNull
                       end in
  [mkOption (lit "allow-always-mcp") (lit "Always allow: " ++ tool_name) AllowAlwaysKind
     (Some (json_object [(lit "prompt_prefix", JString (lit "Always allow:")); (lit "tool_name", JString tool_name);
                         (lit "server_prefix", server_prefix)]));
   plain (lit "allow-once") (lit "Yes") AllowOnceKind;
   plain (lit "reject-once") REJECT_ONCE_LABEL RejectOnceKind].

Definition build_options_inner (client : ClientType) (access : AccessKind) : Options :=
  match access with
  | AEdit _ => edit_options
  | ABash cmd =>
      if fancy_client client then
        match primary_words cmd with
        | Some primary =>
            options_insert (bash_scope_option (lit "reject-always-command") (lit "Never allow:") RejectAlwaysKind primary)
              (options_extend
                 [bash_scope_option (lit "allow-always-command") (lit "Always allow:") AllowAlwaysKind primary]
                 bash_options)
        | None => options_extend [] bash_options
        end
      else generic_bash_options
  | AWebFetch url =>
      let domain := default (lit "unknown domain") (domain_from_url url) in
      [plain (lit "allow-always-domain") (lit "Yes, always allow " ++ domain ++ lit " this session") AllowAlwaysKind;
       plain (lit "allow-once") (lit "Yes, allow once") AllowOnceKind;
       plain (lit "reject-once") REJECT_ONCE_LABEL RejectOnceKind]
  | AMcp tool_name _ => if fancy_client client then mcp_options tool_name else fallback_options
  | ARead _ | AGrep _ _ | AWebSearch _ => fallback_options
  end.
Definition build_options (client : ClientType) (remember_tool_approvals : bool) (access : AccessKind) : Options :=
  let base := build_options_inner client access in
  let base := if remember_tool_approvals then base
              else foldl (λ m id, shift_remove id m) base REMEMBER_TOOL_APPROVALS_GATED_IDS in
  prepend_enable_always_approve client base.

(** ** What the answer means *)

Inductive McpScopeSelection := ScopeTool (tool_name : str) | ScopeServer (server : str).
(** [from_value::<McpScopeSelection>]: tagged by ["kind"] *)
Definition mcp_scope_from_value (m : json) : option McpScopeSelection :=
  kind ← json_get (lit "kind") m ≫= json_as_str;
  if str_eqb kind (lit "tool") then ScopeTool <$> (json_get (lit "tool_name") m ≫= json_as_str)
  else if str_eqb kind (lit "server") then ScopeServer <$> (json_get (lit "server") m ≫= json_as_str)
  else None.

Record BashCommandSelectedTerms := mkTerms { command_parts : list str; is_glob : bool }.
Definition bash_terms_from_value (m : json) : option BashCommandSelectedTerms :=
  parts ← (match json_get (lit "command_parts") m with
           | Some (JArray l) => mapM json_as_str l
           | _ => None
           end);
  glob ← (match json_get (lit "is_glob") m with Some v => json_as_bool v | None => Some false end);
  Some (mkTerms parts glob).

Definition always_mcp_outcome (meta : option json) (access : AccessKind) : PromptOutcome :=
  let own := match access with AMcp name _ => OAllowAlwaysMcpTool name | _ => OAllowAlways end in
  match meta ≫= mcp_scope_from_value with
  | Some (ScopeTool tool_name) => OAllowAlwaysMcpTool tool_name
  | Some (ScopeServer []) => own
  | Some (ScopeServer server) => OAllowAlwaysMcpServer server
  | None => own
  end.
Definition always_domain_outcome (access : AccessKind) : PromptOutcome :=
  match access with
  | AWebFetch url =>
      match domain_from_url url with
      | Some (c :: d) => OAllowAlwaysDomain (c :: d)
      | _ => OAllowOnce
      end
  | _ => OAllowOnce
  end.
Definition always_command_outcome (meta : option json) (access : AccessKind) : PromptOutcome :=
  match meta ≫= bash_terms_from_value with
  | Some terms =>
      let pattern := join (lit " ") (command_parts terms) in
      if is_glob terms then OAllowAlwaysBashGlob pattern else OAllowAlwaysBashCommand pattern
  | None =>
      match access with
      | ABash cmd =>
          match primary_words cmd with
          | Some primary => OAllowAlwaysBashCommand (join (lit " ") primary)
          | None => OAllowAlways
          end
      | _ => OAllowAlways
      end
  end.
Definition allow_always_outcome (id : str) (meta : option json) (access : AccessKind) : PromptOutcome :=
  if str_eqb id ENABLE_ALWAYS_APPROVE_OPTION_ID then OAllowOnce
  else if str_eqb id (lit "allow-always-mcp") then always_mcp_outcome meta access
  else if str_eqb id (lit "allow-always-domain") then always_domain_outcome access
  else if str_eqb id (lit "allow-always-command") then always_command_outcome meta access
  else if str_eqb id ALLOW_EDITS_SESSION_OPTION_ID then OAllowEditsForSession
  else OAllowAlways.
Definition reject_once_outcome (meta : option json) : PromptOutcome :=
  match (meta ≫= json_get (lit "followup_message")) ≫= json_as_str with
  | Some followup => if str_eqb (trim followup) [] then ORejectOnce else OFollowupMessage followup
  | None => ORejectOnce
  end.
Definition reject_always_outcome (id : str) (meta : option json) (access : AccessKind) : PromptOutcome :=
  if str_eqb id (lit "reject-always-command") then
    match meta ≫= bash_terms_from_value with
    | Some terms => ORejectAlwaysBashCommand (join (lit " ") (command_parts terms))
    | None =>
        match access with
        | ABash cmd =>
            match primary_words cmd with
            | Some primary => ORejectAlwaysBashCommand (join (lit " ") primary)
            | None => ORejectOnce
            end
        | _ => ORejectOnce
        end
    end
  else ORejectOnce.
Definition map_selected_outcome (permission_options : Options) (id : str) (meta : option json)
  (access : AccessKind) : PromptOutcome :=
  match options_get id permission_options with
  | None => OError (lit "unknown permission option")
  | Some option =>
      match option_kind option with
      | AllowOnceKind => OAllowOnce
      | AllowAlwaysKind => allow_always_outcome id meta access
      | RejectOnceKind => reject_once_outcome meta
      | RejectAlwaysKind => reject_always_outcome id meta access
      end
  end.

(** ** Answers from chat (hub_permission.rs) *)

Definition scope_kind_value (reply : json) : option (str * option str) :=
  scope ← json_get (lit "scope") reply;
  kind ← json_get (lit "kind") scope ≫= json_as_str;
  Some (kind, json_get (lit "value") scope ≫= json_as_str).
Definition reply_outcome_name (reply : json) : str :=
  match json_get (lit "outcome") reply with
  | Some (JString s) => s
  | Some (JNumber n) =>
      if (n =? 1)%Z then lit "approve" else if (n =? 2)%Z then lit "reject"
      else if (n =? 3)%Z then lit "always_approve" else if (n =? 4)%Z then lit "always_reject" else []
  | _ => []
  end.
Definition always_approve_outcome (reply : json) : PromptOutcome :=
  match scope_kind_value reply with
  | Some (kind, Some value) =>
      if str_eqb kind (lit "bash_command") then OAllowAlwaysBashCommand value
      else if str_eqb kind (lit "bash_glob") then OAllowAlwaysBashGlob value
      else if str_eqb kind (lit "server_prefix") then OAllowAlwaysMcpServer value
      else if str_eqb kind (lit "domain") then OAllowAlwaysDomain value
      else OAllowAlways
  | _ => OAllowAlways
  end.
Definition reply_to_outcome (reply : json) : PromptOutcome :=
  let outcome := reply_outcome_name reply in
  if str_eqb outcome (lit "approve") then OAllowOnce
  else if str_eqb outcome (lit "always_approve") then always_approve_outcome reply
  else if str_eqb outcome (lit "reject") then
    match json_get (lit "followup_message") reply ≫= json_as_str with
    | Some (c :: message) => OFollowupMessage (c :: message)
    | _ => ORejectOnce
    end
  else if str_eqb outcome (lit "always_reject") then
    match scope_kind_value reply with
    | Some (kind, Some value) =>
        if str_eqb kind (lit "bash_command") then ORejectAlwaysBashCommand value else ORejectOnce
    | _ => ORejectOnce
    end
  else if str_eqb outcome (lit "cancelled") then OCancelled
  else ORejectOnce.

Definition scope_for_access (access : AccessKind) : str :=
  match access with ABash _ | AEdit _ | AMcp _ _ => lit "write" | _ => lit "read" end.
Definition describe_access (access : AccessKind) : str :=
  match access with
  | ABash _ => lit "Run a terminal command"
  | AEdit path => lit "Edit " ++ path
  | AMcp name _ => lit "Run MCP tool " ++ name
  | AWebFetch url => lit "Fetch " ++ url
  | AWebSearch query => lit "Search the web for " ++ query
  | ARead _ => lit "Read a file"
  | AGrep _ _ => lit "Search file contents"
  end.
Definition build_permission_payload (access : AccessKind) (tool_call_id : str) : json :=
  json_object
    ([(lit "tool_call_id", JString tool_call_id); (lit "tool_name", JString (tool_name_for_access access));
      (lit "description", JString (describe_access access)); (lit "scope", JString (scope_for_access access))]
     ++ match access with
        | ABash command => [(lit "bash_command", JString command)]
        | AEdit path => [(lit "edit_file_paths", JArray [JString path])]
        | _ => []
        end).

Definition arg_str (args : json) (key alt : str) (missing : str) : str :=
  default missing ((match json_get key args with Some v => Some v | None => json_get alt args end) ≫= json_as_str).
Definition access_kind_for_hub_tool (tool_name : str) (args : json) : option AccessKind :=
  let name := default [] (last (split_on (chr ":") tool_name)) in
  let name := default name (strip_prefix (lit "GrokBuild:") name) in
  if one_of name [lit "run_terminal_command"; lit "run_terminal_cmd"; lit "bash"; lit "shell"] then
    Some (ABash (arg_str args (lit "command") (lit "full_command") []))
  else if one_of name [lit "search_replace"; lit "hashline_edit"; lit "write"; lit "write_file"] then
    Some (AEdit (arg_str args (lit "file_path") (lit "path") (lit "unknown")))
  else if str_eqb name (lit "apply_patch") then Some (AEdit (lit "apply_patch"))
  else if str_eqb name (lit "web_fetch") then
    Some (AWebFetch (default [] (json_get (lit "url") args ≫= json_as_str)))
  else if contains (lit "__") name || starts_with (lit "mcp") name then Some (AMcp tool_name args)
  else None.

(** ** One prompt *)

(** What comes back for a prompt: a local client or chat. *)
Inductive PromptReply :=
| ClientCancelled
| ClientSelected (option_id : str) (meta : option json)
| ClientUnknownOutcome
| ClientFailed
| HubReply (reply : json)
| HubFailed (e : str).
Definition prompt_outcome (client : ClientType) (remember_tool_approvals : bool) (access : AccessKind)
  (r : PromptReply) : PromptOutcome :=
  match r with
  | ClientCancelled => OCancelled
  | ClientSelected id meta => map_selected_outcome (build_options client remember_tool_approvals access) id meta access
  | ClientUnknownOutcome => OError (lit "unknown permission outcome")
  | ClientFailed => OError (lit "failed to request permission")
  | HubReply reply =>
      match reply_to_outcome reply, access with
      | OAllowAlways, AEdit _ => OAllowEditsForSession
      | other, _ => other
      end
  | HubFailed e => OError (lit "hub permission request failed: " ++ e)
  end.
End Prompt.
