(* ===== verification/PermState.v ===== *)
(** The grants a user has given
    (crates/codegen/xai-grok-workspace/src/permission/state.rs): the state, its file per
    working directory and client, and what loading changes in a file of an older version.

    The TOML reader and the files are the interface [StateFiles]. *)
From Stdlib Require Import String Ascii.
From stdpp Require Import gmap.
From S2P Require Import Prelude RustStr LexPath.
Local Open Scope Z_scope.

Inductive EditPolicy := EditAsk | EditAllow | EditReject.
Global Instance EditPolicy_eq_dec : EqDecision EditPolicy.
Proof. solve_decision. Defined.

Record PermissionState := mkState {
  edit_policy : EditPolicy;
  allow_bash_execute : bool;
  allowed_bash_commands : gset str;
  disallowed_bash_commands : gset str;
  allowed_bash_globs : gset str;
  allowed_web_fetch_domains : gset str;
  allowed_mcp_tools : gset str;
  allowed_mcp_servers : gset str;
  validated_mcp_server_grants_version : Z
}.
Definition VALIDATED_MCP_SERVER_GRANTS_VERSION : Z := 1.
Definition default_state : PermissionState :=
  mkState EditAsk false ∅ ∅ ∅ ∅ ∅ ∅ VALIDATED_MCP_SERVER_GRANTS_VERSION.

(** ** Reading a file *)

(** The fields found in a TOML table; a version that is not an integer is [Some None]. *)
Record RawState := mkRaw {
  raw_edit_policy : option EditPolicy;
  raw_allow_bash_execute : option bool;
  raw_allowed_bash_commands : option (gset str);
  raw_disallowed_bash_commands : option (gset str);
  raw_allowed_bash_globs : option (gset str);
  raw_allowed_web_fetch_domains : option (gset str);
  raw_allowed_mcp_tools : option (gset str);
  raw_allowed_mcp_servers : option (gset str);
  raw_version : option (option Z)
}.
Definition deserialize_mcp_server_grants_version (value : option Z) : Z :=
  match value with Some version => if 0 <=? version then version else 0 | None => 0 end.
Definition state_from_raw (r : RawState) : PermissionState :=
  mkState (default EditAsk (raw_edit_policy r)) (default false (raw_allow_bash_execute r))
    (default ∅ (raw_allowed_bash_commands r)) (default ∅ (raw_disallowed_bash_commands r))
    (default ∅ (raw_allowed_bash_globs r)) (default ∅ (raw_allowed_web_fetch_domains r))
    (default ∅ (raw_allowed_mcp_tools r)) (default ∅ (raw_allowed_mcp_servers r))
    (match raw_version r with Some v => deserialize_mcp_server_grants_version v | None => 0 end).

Inductive FileRead := ReadOk (s : str) | ReadNotFound | ReadError.
Class StateFiles := {
  read_state_file : str → FileRead;
  (** the table of a file that parses with every field of its type *)
  toml_table : str → option RawState
}.

(** A state handed to the writer, with the file it goes to. *)
Definition Written : Type := str * PermissionState.

Section Load.
Context `{StateFiles}.

Definition sanitize_client_id (id : str) : str :=
  List.map (λ c, if is_ascii_alphanumeric c || (c =? chr "-")%N || (c =? chr "_")%N then c else chr "_") id.
Definition state_file_path (dir : str) (client_identifier : option str) : str :=
  match client_identifier with
  | Some id => path_join dir (lit "permission_" ++ sanitize_client_id id ++ lit ".toml")
  | None => path_join dir (lit "permission.toml")
  end.

Definition without_servers (st : PermissionState) : PermissionState :=
  mkState (edit_policy st) (allow_bash_execute st) (allowed_bash_commands st) (disallowed_bash_commands st)
    (allowed_bash_globs st) (allowed_web_fetch_domains st) (allowed_mcp_tools st) ∅
    VALIDATED_MCP_SERVER_GRANTS_VERSION.

Definition try_load_state (path : str) : option PermissionState * list Written :=
  match read_state_file path with
  | ReadOk s =>
      let st := match toml_table s with Some raw => state_from_raw raw | None => default_state end in
      if validated_mcp_server_grants_version st <? VALIDATED_MCP_SERVER_GRANTS_VERSION
      then (Some (without_servers st), [(path, without_servers st)])
      else (Some st, [])
  | ReadNotFound | ReadError => (None, [])
  end.
Definition load_state_from_dir (dir : str) (client_identifier : option str) : PermissionState * list Written :=
  let shared := let '(st, w) := try_load_state (state_file_path dir None) in (default default_state st, w) in
  match client_identifier with
  | Some id =>
      match try_load_state (state_file_path dir (Some id)) with
      | (Some st, w) => (st, w)
      | (None, w) => let '(st, w') := shared in (st, w ++ w')
      end
  | None => shared
  end.

Definition with_edit_policy (p : EditPolicy) (st : PermissionState) : PermissionState :=
  mkState p (allow_bash_execute st) (allowed_bash_commands st) (disallowed_bash_commands st)
    (allowed_bash_globs st) (allowed_web_fetch_domains st) (allowed_mcp_tools st) (allowed_mcp_servers st)
    (validated_mcp_server_grants_version st).

(** Loading, and the downgrade of a persisted [edit_policy = Allow] when the actor starts. *)
Definition start_state (dir : str) (client_identifier : option str) : PermissionState * list Written :=
  let '(st, w) := load_state_from_dir dir client_identifier in
  match edit_policy st with
  | EditAllow =>
      let st := with_edit_policy EditAsk st in
      (st, w ++ [(state_file_path dir client_identifier, st)])
  | _ => (st, w)
  end.

(** ** Nothing of an older version survives *)

(** A state the actor may start from: no session-wide edit grant, and every server grant was
    made from a validated name. *)
Definition current_state (st : PermissionState) : Prop :=
  edit_policy st ≠ EditAllow ∧ VALIDATED_MCP_SERVER_GRANTS_VERSION ≤ validated_mcp_server_grants_version st.

Lemma try_load_version path st w :
  try_load_state path = (Some st, w) → VALIDATED_MCP_SERVER_GRANTS_VERSION ≤ validated_mcp_server_grants_version st.
Proof.
  unfold try_load_state. destruct (read_state_file path); [|done..].
  destruct (Z.ltb_spec (validated_mcp_server_grants_version
    (match toml_table s with Some raw => state_from_raw raw | None => default_state end))
    VALIDATED_MCP_SERVER_GRANTS_VERSION); intros [= <- <-]; [done|lia].
Qed.

Lemma load_version dir id :
  VALIDATED_MCP_SERVER_GRANTS_VERSION ≤ validated_mcp_server_grants_version (load_state_from_dir dir id).1.
Proof.
  assert (Hs : ∀ path, VALIDATED_MCP_SERVER_GRANTS_VERSION
                       ≤ validated_mcp_server_grants_version (default default_state (try_load_state path).1)).
  { intros path. destruct (try_load_state path) as [[st|] w] eqn:E; [|done]. by eapply try_load_version. }
  unfold load_state_from_dir. specialize (Hs (state_file_path dir None)) as Hshared.
  destruct (try_load_state (state_file_path dir None)) as [sh wsh].
  destruct id as [id|]; [|done]. specialize (Hs (state_file_path dir (Some id))).
  by destruct (try_load_state (state_file_path dir (Some id))) as [[st|] w].
Qed.

Lemma start_current dir id : current_state (start_state dir id).1.
Proof.
  unfold start_state. pose proof (load_version dir id) as Hv.
  destruct (load_state_from_dir dir id) as [st w]. destruct (edit_policy st) eqn:E; simpl in *;
    (split; [|exact Hv]); simpl; congruence.
Qed.
End Load.
