(* ===== verification/ManagerBash.v ===== *)
(** What is known of a request before anyone is asked
    (crates/codegen/xai-grok-workspace/src/permission/manager/mod.rs): the built-in safe
    lists, the evaluation of a bash script segment by segment, and the decisions that the
    user's standing grants make. *)
From Stdlib Require Import String Ascii.
From stdpp Require Import gmap.
From S2P Require Import Prelude RustStr HashIter Json LexPath Shell Rules Policy ShellWords ExecRisk AutoRisk AutoMode.
From S2P Require Import NetFilter WebFetch Prompter PermState.
Import Argv Script.

(** ** Options that must not ride a safe list *)

Definition first_is (w : str) (words : list str) : bool := bool_decide (head words = Some w).

Definition rg_has_pre_flag (words : list str) : bool :=
  first_is (lit "rg") words && existsb (λ w, str_eqb w (lit "--pre") || starts_with (lit "--pre=") w) words.
Definition kubectl_has_unsafe_flag (words : list str) : bool :=
  first_is (lit "kubectl") words && existsb (λ w, one_of (before_eq w) KUBECTL_UNSAFE_FLAGS) (tail words).

Definition PS_VALUE_FLAGS : list str :=
  [lit "-o"; lit "-O"; lit "--format"; lit "--sort"; lit "-p"; lit "-q"; lit "-t"; lit "-u"; lit "-U"; lit "-g";
   lit "-G"; lit "-C"; lit "-s"; lit "--pid"; lit "--ppid"; lit "--sid"; lit "--tty"; lit "--user"; lit "--group";
   lit "--cols"; lit "--columns"; lit "--width"; lit "o"; lit "O"].
Definition ends_with_char (cs : str) (s : str) : bool :=
  match last s with Some c => existsb (N.eqb c) cs | None => false end.
Fixpoint ps_scan (skip_next : bool) (ws : list str) : bool :=
  match ws with
  | [] => false
  | s :: ws' =>
      if skip_next then ps_scan false ws'
      else if starts_with (lit "--format=") s || starts_with (lit "--sort=") s then ps_scan false ws'
      else if one_of s PS_VALUE_FLAGS then ps_scan true ws'
      else if starts_with (lit "-o") s || starts_with (lit "-O") s then ps_scan false ws'
      else
        let has_upper_e := contains_char (chr "E") s in
        let has_lower_e := contains_char (chr "e") s in
        let dashless := negb (starts_dash s) in
        let bsd_selector_cluster := starts_dash s && negb (starts_with DDASH s)
                                    && (contains_char (chr "a") s || contains_char (chr "x") s) in
        if has_upper_e || (has_lower_e && (dashless || bsd_selector_cluster)) then true
        else if starts_dash s && negb (starts_with DDASH s) && ends_with_char (lit "oO") s then ps_scan true ws'
        else ps_scan false ws'
  end.
Definition ps_dumps_environment (words : list str) : bool := first_is (lit "ps") words && ps_scan false (tail words).

(** ** Safe lists *)

(** [cmd == pattern || cmd.starts_with(pattern) && the next byte is a space] *)
Definition command_has_prefix (cmd pattern : str) : bool :=
  str_eqb cmd pattern
  || match strip_prefix pattern cmd with Some (c :: _) => (c =? chr " ")%N | _ => false end.

Definition is_safe_git_query_prefix (cmd : str) : bool :=
  match strip_prefix (lit "git ") cmd with
  | Some rest => existsb (command_has_prefix rest) SAFE_GIT_SUBCOMMANDS
  | None => false
  end.
Definition SAFE_COMMAND_PREFIXES : list str :=
  [lit "ls"; lit "cat"; lit "pwd"; lit "date"; lit "whoami"; lit "hostname"; lit "uptime"; lit "grep"; lit "rg";
   lit "kubectl get"; lit "kubectl logs"; lit "kubectl describe"; lit "ps"; lit "bin/explorer ls"; lit "head";
   lit "tail"; lit "wc"; lit "sort"; lit "uniq"; lit "tr"; lit "cut"].
Definition is_safe_command_words_str (cmd : str) : bool :=
  existsb (command_has_prefix cmd) SAFE_COMMAND_PREFIXES || is_safe_git_query_prefix cmd.
Definition ALWAYS_SAFE_COMMANDS : list str :=
  [lit "ls"; lit "cat"; lit "pwd"; lit "date"; lit "whoami"; lit "hostname"; lit "uptime"; lit "ps"; lit "grep";
   lit "rg"; lit "kubectl get"; lit "kubectl logs"; lit "kubectl describe"; lit "bin/explorer ls"].

Definition joined (words : list str) : str := join (lit " ") words.
(** The special surfaces that both lists exclude. *)
Definition excluded_surface (words : list str) : bool :=
  rg_has_pre_flag words || kubectl_has_unsafe_flag words || ps_dumps_environment words.
Definition is_safe_command_words (words : list str) : bool :=
  match words with
  | [] => false
  | _ =>
      if excluded_surface words then false
      else if first_is (lit "git") words then git_words_are_read_only_query words
      else is_safe_command_words_str (joined words)
  end.
Definition is_always_safe_command_words (words : list str) : bool :=
  match words with
  | [] => false
  | _ =>
      if excluded_surface words then false
      else if first_is (lit "git") words then git_words_are_read_only_query words
      else existsb (command_has_prefix (joined words)) ALWAYS_SAFE_COMMANDS
  end.

Fixpoint flags_after (n : nat) (ws : list str) : nat :=
  match ws with
  | w :: ws' => if starts_dash w then flags_after (S n) ws' else n
  | [] => n
  end.
Definition default_always_allow_scope (words : list str) : nat :=
  match words with
  | [] => 0
  | w :: _ =>
      if is_safe_command_words words && is_safe_command_words_str w then 1
      else if is_safe_command_words words && (2 <=? length words)%nat
              && is_safe_command_words_str (joined (take 2 words)) then 2
      else let n := (length words `min` 2)%nat in flags_after n (drop n words)
  end.

Definition DANGEROUS_COMMANDS : list str :=
  [lit "rm"; lit "chmod"; lit "chown"; lit "chgrp"; lit "chattr"; lit "pkill"; lit "kill"; lit "killall"; lit "git push"].
Definition is_dangerous_command_words (words : list str) : bool :=
  match words with [] => false | _ => existsb (command_has_prefix (joined words)) DANGEROUS_COMMANDS end.
Definition matches_whitelist_prefix (segment_str allowed_prefix : str) : bool :=
  command_has_prefix segment_str allowed_prefix.

(** ** Evaluation of a script *)

Inductive SegmentEvaluation :=
| AutoAllow (via_session_grant : bool)
| RejectSegment (reason : str)
| NeedsPrompts (segments : list str)
| Unparseable.

Record BashEvaluation := mkEvaluation {
  segments : SegmentEvaluation;
  exact_grant : bool;
  all_segments_granted : bool;
  assessment : Assessment;
  ambient_segments : option (list (list str))
}.
Definition set_assessment (e : BashEvaluation) (a : Assessment) : BashEvaluation :=
  mkEvaluation (segments e) (exact_grant e) (all_segments_granted e) a (ambient_segments e).

Definition env_risk_finding (risk : EnvRisk) : option ClassifierSecurityFinding :=
  match risk with EnvInjected => Some EnvInjection | EnvUnvetted => Some UnvettedEnv | EnvSafe => None end.
Definition unparseable_exec_risk (cmd : str) : bool := script_may_invoke_git cmd.
Definition insert_if (b : bool) (f : ClassifierSecurityFinding) (a : Assessment) : Assessment :=
  if b then insert_finding f a else a.
Lemma elem_of_insert_if b f g a : g ∈ insert_if b f a ↔ (b = true ∧ g = f) ∨ g ∈ a.
Proof. unfold insert_if. destruct b; [rewrite elem_of_insert_finding|]; naive_solver. Qed.

(** The locals of the segment loop. *)
Record SegmentScan := mkScan {
  needs_prompt : list str;
  scan_via_grant : bool;
  scan_all_granted : bool;
  scan_exec_risk : bool;
  scan_has_git : bool;
  ambient_raw : list (list str);
  scan_assessment : Assessment
}.

Section Evaluate.
Context `{PolicyEnv, TreeFields, HashOrder}.

Definition matches_bash_glob (segment_str pattern : str) : bool := bash_pattern_matches_command pattern segment_str.
Definition matches_grant (st : PermissionState) (s : str) : bool :=
  existsb (matches_whitelist_prefix s) (iter_set (allowed_bash_commands st))
  || existsb (matches_bash_glob s) (iter_set (allowed_bash_globs st)).
Definition disallowed_by (st : PermissionState) (s : str) : option str :=
  List.find (matches_whitelist_prefix s) (iter_set (disallowed_bash_commands st)).
(** Options that need an exact grant. *)
Definition special_exec_surface (words : list str) : bool :=
  kubectl_has_unsafe_flag words || rg_has_pre_flag words || ps_dumps_environment words
  || git_words_have_unsafe_query_option words.

(** One segment up to [is_setup_command]: what is recorded of every command. *)
Definition note_segment (raw_words : list str) (sc : SegmentScan) : SegmentScan :=
  let opaque := words_are_opaque_shell (Literal <$> unwrap_wrappers raw_words) in
  let facts := segment_exec_facts raw_words in
  mkScan (needs_prompt sc) (scan_via_grant sc) (scan_all_granted sc) (scan_exec_risk sc || exec_risk facts)
    (scan_has_git sc || has_git facts) (ambient_raw sc ++ [raw_words])
    (insert_if (exec_risk facts) ExecOrAmbientGit (insert_if opaque OpaqueShell (scan_assessment sc))).

(** The rest of a segment that is not setup and not disallowed. *)
Definition judge_segment (st : PermissionState) (honor_safe_lists : bool) (words : list str) (sc : SegmentScan)
  : SegmentScan :=
  let s := joined words in
  let matched_grant := matches_grant st s in
  let all_granted := scan_all_granted sc && matched_grant in
  let prompt f := mkScan (needs_prompt sc ++ [s]) (scan_via_grant sc) all_granted (scan_exec_risk sc)
                    (scan_has_git sc) (ambient_raw sc) (f (scan_assessment sc)) in
  if is_dangerous_command_words words then prompt (insert_finding DangerousCommand)
  else if special_exec_surface words && negb (bool_decide (s ∈ allowed_bash_commands st))
  then prompt (insert_finding SpecialExecSurface)
  else
    let matched_safe := honor_safe_lists && (is_safe_command_words words || is_always_safe_command_words words) in
    if matched_grant || matched_safe
    then mkScan (needs_prompt sc) (scan_via_grant sc || matched_grant) all_granted (scan_exec_risk sc)
           (scan_has_git sc) (ambient_raw sc) (scan_assessment sc)
    else prompt (λ a, a).

(** The [for] loop; [inl] is the early return for a disallowed segment. *)
Fixpoint scan_segments (st : PermissionState) (honor_safe_lists : bool) (cmds : list PlainCommand) (sc : SegmentScan)
  : (str * SegmentScan) + SegmentScan :=
  match cmds with
  | [] => inr sc
  | c :: cmds' =>
      let sc := note_segment (pc_words c) sc in
      let words := unwrap_wrappers (pc_words c) in
      if is_setup_command words then scan_segments st honor_safe_lists cmds' sc
      else match disallowed_by st (joined words) with
           | Some d => inl (d, sc)
           | None => scan_segments st honor_safe_lists cmds' (judge_segment st honor_safe_lists words sc)
           end
  end.

Definition session_reject_reason (d : str) : str :=
  lit "User previously rejected `" ++ d ++ lit "` for this session".

(** The evaluation of a script that decomposed, from the findings of the whole tree. *)
Definition evaluate_segments (st : PermissionState) (honor_safe_lists : bool) (exact : bool)
  (cmds : list PlainCommand) (a : Assessment) : BashEvaluation :=
  match scan_segments st honor_safe_lists cmds (mkScan [] false true false false [] a) with
  | inl (d, sc) =>
      mkEvaluation (RejectSegment (session_reject_reason d)) exact (scan_all_granted sc) (scan_assessment sc) None
  | inr sc =>
      mkEvaluation
        (match needs_prompt sc with [] => AutoAllow (scan_via_grant sc) | ss => NeedsPrompts ss end)
        exact (scan_all_granted sc) (scan_assessment sc)
        (if scan_has_git sc && negb (scan_exec_risk sc) then Some (ambient_raw sc) else None)
  end.

(** The findings of the tree as a whole. *)
Definition tree_assessment (tree : Tree) : Assessment :=
  let write := insert_if (existsb (λ path, negb (is_safe_write_sink path))
                            (command_write_paths_in_tree (root_node tree))) FileWrite [] in
  match env_risk_finding (script_env_risk (root_node tree)
                            (default [] (try_parse_word_only_commands_sequence tree))) with
  | Some finding => insert_finding finding write
  | None => write
  end.

Definition evaluate_bash (cmd : str) (st : PermissionState) (honor_safe_lists : bool) : BashEvaluation :=
  let exact := bool_decide (cmd ∈ allowed_bash_commands st) in
  match try_parse_shell cmd with
  | None =>
      mkEvaluation Unparseable exact false
        (insert_if (unparseable_exec_risk cmd) ExecOrAmbientGit (insert_finding UnparseableShell [])) None
  | Some tree =>
      match try_parse_word_only_commands_sequence tree with
      | None =>
          mkEvaluation Unparseable exact false
            (insert_if (unparseable_exec_risk cmd) ExecOrAmbientGit
               (insert_if (tree_has_opaque_shell (root_node tree)) OpaqueShell
                  (insert_finding UnparseableShell (tree_assessment tree)))) None
      | Some cmds => evaluate_segments st honor_safe_lists exact cmds (tree_assessment tree)
      end
  end.

(** ** Decisions of standing grants *)

Definition clamp_yolo (requested : bool) (yolo_pin : option str) : bool :=
  requested && negb (bool_decide (is_Some yolo_pin)).
Definition persisted_bash_auto_allows (st : PermissionState) (cmd : str) (yolo_pin : option str) : bool :=
  (allow_bash_execute st && negb (bool_decide (is_Some yolo_pin))) || bool_decide (cmd ∈ allowed_bash_commands st).
Definition bash_request_floor_requires_prompt (e : option BashEvaluation) : bool :=
  match e with Some e => negb (exact_grant e) && constrains_broad_grant (assessment e) | None => false end.
Definition bash_assessment_is_clear (e : option BashEvaluation) : bool :=
  match e with Some e => assessment_is_empty (assessment e) | None => true end.
Definition classifier_assessment (e : option BashEvaluation) (fail_closed_policy : bool) : Assessment :=
  insert_if fail_closed_policy FailClosedPolicy (match e with Some e => assessment e | None => [] end).
Definition sandbox_may_auto_allow_bash (e : option BashEvaluation) (sandbox_active : bool) : bool :=
  sandbox_active && negb (bash_request_floor_requires_prompt e).

(** [decision_reason]s *)
Definition SESSION_DENY : str := lit "session_deny".
Definition SESSION_GRANT : str := lit "session_grant".
Definition SAFE_COMMAND : str := lit "safe_command".
Definition STATIC_ALLOWLIST : str := lit "static_allowlist".
Definition PERSISTED_GRANT : str := lit "persisted_grant".

Record BashGrantOpts := mkOpts { honor_lists : bool; allow_blanket : bool; conservative_blanket : bool }.
Definition PRE_CLASSIFIER : BashGrantOpts := mkOpts true true true.
Definition ASK_FLOOR_REMEMBER : BashGrantOpts := mkOpts false false false.
Definition post_classify (auto_forced_prompt : bool) : BashGrantOpts := mkOpts true (negb auto_forced_prompt) false.

Definition bash_grant_pre_decision (cmd : str) (e : BashEvaluation) (st : PermissionState) (yolo_pin : option str)
  (opts : BashGrantOpts) : option (Decision * str) :=
  match segments e with
  | RejectSegment reason => Some (DReject reason, SESSION_DENY)
  | AutoAllow via_session_grant =>
      if bash_request_floor_requires_prompt (Some e) then None
      else if negb (honor_lists opts) && negb (all_segments_granted e) then None
      else Some (DAllow, if via_session_grant then SESSION_GRANT else SAFE_COMMAND)
  | NeedsPrompts _ =>
      if bash_request_floor_requires_prompt (Some e) then None
      else if negb (allow_blanket opts)
              || (conservative_blanket opts && has_finding (assessment e) DangerousCommand) then None
      else if persisted_bash_auto_allows st cmd yolo_pin then Some (DAllow, SESSION_GRANT) else None
  | Unparseable =>
      if bash_request_floor_requires_prompt (Some e) then None
      else if negb (allow_blanket opts) then None
      else if (if conservative_blanket opts then exact_grant e else persisted_bash_auto_allows st cmd yolo_pin)
      then Some (DAllow, SESSION_GRANT) else None
  end.

Definition mcp_server_prefix_allowed (name : str) (servers : gset str) : bool :=
  negb (bool_decide (servers = ∅))
  && match parse_mcp_qualified_name name with
     | Some (server, _) => bool_decide (server ∈ servers)
     | None => false
     end.
Definition mcp_pre_decision (name : str) (st : PermissionState) (policy_forced_prompt remember_tool_approvals : bool)
  : option Decision :=
  if policy_forced_prompt && negb remember_tool_approvals then None
  else if bool_decide (name ∈ allowed_mcp_tools st) then Some DAllow
  else if mcp_server_prefix_allowed name (allowed_mcp_servers st) then Some DAllow
  else None.

Context `{WebEnv}.

Definition web_grant (url : str) (st : PermissionState) (matcher : gmap str HostEntry) (honor_static : bool)
  (session_reason : str) : option (Decision * str) :=
  match url_parse url with
  | Err _ => None
  | Ok parsed_url =>
      if honor_static && negb (bool_decide (is_Some (matcher_check matcher parsed_url)))
      then Some (DAllow, STATIC_ALLOWLIST)
      else match host_str parsed_url with
           | None => None
           | Some host =>
               if bool_decide (normalize_domain host ∈ allowed_web_fetch_domains st)
               then Some (DAllow, session_reason) else None
           end
  end.

Definition session_grant_pre_decision (access : AccessKind) (e : option BashEvaluation) (st : PermissionState)
  (allow_edits_for_session : bool) (matcher : gmap str HostEntry) (honor_static_web_allowlist : bool)
  (yolo_pin : option str) : option (Decision * str) :=
  match access with
  | AMcp name _ => (λ d, (d, SESSION_GRANT)) <$> mcp_pre_decision name st false false
  | AWebFetch url => web_grant url st matcher honor_static_web_allowlist SESSION_GRANT
  | AEdit _ => if allow_edits_for_session then Some (DAllow, SESSION_GRANT) else None
  | ABash cmd => e ← e; bash_grant_pre_decision cmd e st yolo_pin PRE_CLASSIFIER
  | ARead _ | AGrep _ _ | AWebSearch _ => None
  end.
End Evaluate.
