(* ===== verification/Manager.v ===== *)
(** The permission manager
    (crates/codegen/xai-grok-workspace/src/permission/manager/mod.rs, manager/reasons.rs and
    manager/request_classification.rs, with the types of permission/types.rs): the actor that
    decides every request, and the handle that sends it commands.

    The actor is the only writer of its state, so a command is a function on [Actor].  What
    happens around one request is its [Surroundings]: when the requester goes away, how the
    side query and the client answer, whether a sandbox is active.  Every request yields one
    event and at most one answer ([Handled]).  Git, the URL parser, the shell parser, the
    file system and JSON are the interfaces of the components used. *)
From Stdlib Require Import String Ascii.
From stdpp Require Import gmap.
From S2P Require Import Prelude RustStr Json Shell LexPath Rules Policy ShellWords ShellAccess GatePreflight NetFilter WebFetch HashIter ExecRisk AutoRisk AutoMode Prompter PermState ManagerBash.
Import Argv Script.

(** ** Decision reasons (reasons.rs) *)

Definition YOLO : str := lit "yolo".
Definition POLICY_ALLOW : str := lit "policy_allow".
Definition POLICY_DENY : str := lit "policy_deny".
Definition AUTO_FAST_PATH : str := lit "auto_fast_path".
Definition AUTO_CLASSIFIER_ALLOW : str := lit "auto_classifier_allow".
Definition AUTO_CLASSIFIER_DENY : str := lit "auto_classifier_deny".
Definition AUTO_CLASSIFIER_TIMEOUT : str := lit "auto_classifier_timeout".
Definition AUTO_CLASSIFIER_UNAVAILABLE : str := lit "auto_classifier_unavailable".
Definition AUTO_DENIAL_LIMIT : str := lit "auto_denial_limit".
Definition SANDBOX_AUTO : str := lit "sandbox_auto".
Definition PROMPT_DENY : str := lit "prompt_deny".
Definition NEEDS_USER : str := lit "needs_user".
Definition BASH_REQUEST_FLOOR : str := lit "bash_request_floor".
Definition OPAQUE_SHELL : str := lit "opaque_shell".
Definition REQUESTER_GONE : str := lit "requester_gone".

(** ** Classification of one request (request_classification.rs) *)

Definition AUTO_DENY_CONSECUTIVE_LIMIT : N := 3.
Definition AUTO_DENY_TOTAL_LIMIT : N := 20.
Definition AUTO_DENY_GUIDANCE : str :=
  lit "Take a safer approach that stays within what the user asked for; do not retry this exact action or attempt to work around the denial. If no safer alternative exists, ask the user how to proceed.".

Record DenialCounters := mkCounters { dc_consecutive : N; dc_total : N }.

Inductive ClassificationSource := FromClassifier (s : ClassifierSource) | NotWired.
Definition classification_kind (s : ClassificationSource) : ClassifierSourceKind :=
  match s with FromClassifier s => source_kind s | NotWired => KNotWired end.
Record ClassificationOutcome := mkClassified {
  co_verdict : ClassifierVerdict;
  co_source : ClassificationSource;
  co_latency_ms : option Z
}.
Inductive RequestClassification :=
| NotClassified
| FastPathClassified
| Classified (a : Assessment) (outcome : option ClassificationOutcome).
Definition classifier_source (c : RequestClassification) : option ClassifierSourceKind :=
  match c with
  | NotClassified => None
  | FastPathClassified => Some KFastPath
  | Classified _ outcome => classification_kind ∘ co_source <$> outcome
  end.
Definition classifier_verdict (c : RequestClassification) : option ClassifierVerdict :=
  match c with Classified _ outcome => co_verdict <$> outcome | _ => None end.
Definition classifier_latency_ms (c : RequestClassification) : option Z :=
  match c with Classified _ outcome => outcome ≫= co_latency_ms | _ => None end.
Definition security_findings_tokens (c : RequestClassification) : option (list str) :=
  match c with Classified a _ => Some (tokens a) | _ => None end.

(** ** Requests, events, answers (types.rs) *)

Record RequestPathContext := mkPathContext { real_cwd : str; pc_display_cwd : option str }.
Record Request := mkRequest {
  access : AccessKind;
  tool_call_id : str;
  path_context : option RequestPathContext;
  req_session_id : option str;
  req_subagent_type : option str;
  req_subagent_description : option str
}.

Record PermissionEvent := mkEvent {
  ev_tool_id : str;
  ev_tool_name : str;
  ev_access_kind : str;
  ev_access_detail : option str;
  ev_yolo_mode : bool;
  ev_auto_approved : bool;
  ev_user_prompted : bool;
  ev_decision : str;
  ev_prompt_outcome : option str;
  ev_reject_reason : option str;
  ev_timestamp : Z;
  ev_subagent_session_id : option str;
  ev_subagent_type : option str;
  ev_subagent_description : option str;
  ev_permission_mode : str;
  ev_decision_reason : option str;
  ev_classifier_source : option str;
  ev_classifier_latency_ms : option Z;
  ev_auto_denials_consecutive : option N;
  ev_auto_denials_total : option N;
  ev_wait_ms : Z;
  ev_queue_depth : N;
  ev_security_findings : option (list str);
  ev_classifier_verdict : option str
}.

(** The moments at which the actor looks whether the requester is still there. *)
Inductive Stage := AtDequeue | AfterScan | WhileClassifying | BeforePrompt | WhilePrompting | AfterAnswer.
Definition stage_rank (s : Stage) : nat :=
  match s with
  | AtDequeue => 0 | AfterScan => 1 | WhileClassifying => 2 | BeforePrompt => 3 | WhilePrompting => 4 | AfterAnswer => 5
  end.

Record Surroundings := mkSurroundings {
  (** the first moment at which the requester is seen to be gone, if it goes *)
  gone_from : option Stage;
  (** the blocking task of the ambient scan ran to its end *)
  scan_joined : bool;
  side_query : SideQuery;
  classify_latency_ms : Z;
  sandbox_auto_allow : bool;
  reply : PromptReply;
  now : Z;
  waited_ms : Z;
  in_flight : N
}.
Definition is_closed (sur : Surroundings) (at_ : Stage) : bool :=
  match gone_from sur with Some s => (stage_rank s <=? stage_rank at_)%nat | None => false end.

(** ** The actor *)

Record Settings := mkSettings {
  manager_cwd : str;
  client_type : ClientType;
  permission_config : option PermissionConfig;
  web_fetch_allowed_domains : list str;
  remember_tool_approvals : bool;
  yolo_pin : option str
}.
Record Actor := mkActor {
  st : PermissionState;
  yolo_mode : bool;
  auto_mode : bool;
  auto_classifier : option Classifier;
  auto_consecutive_denials : N;
  auto_total_denials : N;
  classifier_turns : list ClassifierTurn;
  recorded_permission_decisions : list ClassifierTurn;
  actor_instructions : option str;
  pin_refusal_logged : bool;
  allow_edits_for_session : bool
}.

Definition set_st (s : PermissionState) (a : Actor) : Actor :=
  mkActor s (yolo_mode a) (auto_mode a) (auto_classifier a) (auto_consecutive_denials a) (auto_total_denials a)
    (classifier_turns a) (recorded_permission_decisions a) (actor_instructions a) (pin_refusal_logged a)
    (allow_edits_for_session a).
Definition set_modes (yolo auto : bool) (a : Actor) : Actor :=
  mkActor (st a) yolo auto (auto_classifier a) (auto_consecutive_denials a) (auto_total_denials a)
    (classifier_turns a) (recorded_permission_decisions a) (actor_instructions a) (pin_refusal_logged a)
    (allow_edits_for_session a).
Definition set_classifier (c : option Classifier) (a : Actor) : Actor :=
  mkActor (st a) (yolo_mode a) (auto_mode a) c (auto_consecutive_denials a) (auto_total_denials a)
    (classifier_turns a) (recorded_permission_decisions a) (actor_instructions a) (pin_refusal_logged a)
    (allow_edits_for_session a).
Definition set_denials (consecutive total : N) (a : Actor) : Actor :=
  mkActor (st a) (yolo_mode a) (auto_mode a) (auto_classifier a) consecutive total
    (classifier_turns a) (recorded_permission_decisions a) (actor_instructions a) (pin_refusal_logged a)
    (allow_edits_for_session a).
Definition set_turns (ts : list ClassifierTurn) (a : Actor) : Actor :=
  mkActor (st a) (yolo_mode a) (auto_mode a) (auto_classifier a) (auto_consecutive_denials a) (auto_total_denials a)
    ts (recorded_permission_decisions a) (actor_instructions a) (pin_refusal_logged a) (allow_edits_for_session a).
Definition set_recorded (ts : list ClassifierTurn) (a : Actor) : Actor :=
  mkActor (st a) (yolo_mode a) (auto_mode a) (auto_classifier a) (auto_consecutive_denials a) (auto_total_denials a)
    (classifier_turns a) ts (actor_instructions a) (pin_refusal_logged a) (allow_edits_for_session a).
Definition set_instructions (i : option str) (a : Actor) : Actor :=
  mkActor (st a) (yolo_mode a) (auto_mode a) (auto_classifier a) (auto_consecutive_denials a) (auto_total_denials a)
    (classifier_turns a) (recorded_permission_decisions a) i (pin_refusal_logged a) (allow_edits_for_session a).
Definition set_refusal_logged (b : bool) (a : Actor) : Actor :=
  mkActor (st a) (yolo_mode a) (auto_mode a) (auto_classifier a) (auto_consecutive_denials a) (auto_total_denials a)
    (classifier_turns a) (recorded_permission_decisions a) (actor_instructions a) b (allow_edits_for_session a).
Definition set_allow_edits (b : bool) (a : Actor) : Actor :=
  mkActor (st a) (yolo_mode a) (auto_mode a) (auto_classifier a) (auto_consecutive_denials a) (auto_total_denials a)
    (classifier_turns a) (recorded_permission_decisions a) (actor_instructions a) (pin_refusal_logged a) b.

(** Grants added to the state. *)
Definition grant_bash_command (c : str) (s : PermissionState) : PermissionState :=
  mkState (edit_policy s) (allow_bash_execute s) ({[c]} ∪ allowed_bash_commands s) (disallowed_bash_commands s)
    (allowed_bash_globs s) (allowed_web_fetch_domains s) (allowed_mcp_tools s) (allowed_mcp_servers s)
    (validated_mcp_server_grants_version s).
Definition deny_bash_command (c : str) (s : PermissionState) : PermissionState :=
  mkState (edit_policy s) (allow_bash_execute s) (allowed_bash_commands s) ({[c]} ∪ disallowed_bash_commands s)
    (allowed_bash_globs s) (allowed_web_fetch_domains s) (allowed_mcp_tools s) (allowed_mcp_servers s)
    (validated_mcp_server_grants_version s).
Definition grant_bash_glob (g : str) (s : PermissionState) : PermissionState :=
  mkState (edit_policy s) (allow_bash_execute s) (allowed_bash_commands s) (disallowed_bash_commands s)
    ({[g]} ∪ allowed_bash_globs s) (allowed_web_fetch_domains s) (allowed_mcp_tools s) (allowed_mcp_servers s)
    (validated_mcp_server_grants_version s).
Definition grant_domain (d : str) (s : PermissionState) : PermissionState :=
  mkState (edit_policy s) (allow_bash_execute s) (allowed_bash_commands s) (disallowed_bash_commands s)
    (allowed_bash_globs s) ({[d]} ∪ allowed_web_fetch_domains s) (allowed_mcp_tools s) (allowed_mcp_servers s)
    (validated_mcp_server_grants_version s).
Definition grant_mcp_tool (t : str) (s : PermissionState) : PermissionState :=
  mkState (edit_policy s) (allow_bash_execute s) (allowed_bash_commands s) (disallowed_bash_commands s)
    (allowed_bash_globs s) (allowed_web_fetch_domains s) ({[t]} ∪ allowed_mcp_tools s) (allowed_mcp_servers s)
    (validated_mcp_server_grants_version s).
Definition grant_mcp_server (sv : str) (s : PermissionState) : PermissionState :=
  mkState (edit_policy s) (allow_bash_execute s) (allowed_bash_commands s) (disallowed_bash_commands s)
    (allowed_bash_globs s) (allowed_web_fetch_domains s) (allowed_mcp_tools s) ({[sv]} ∪ allowed_mcp_servers s)
    (validated_mcp_server_grants_version s).

(** What a command leaves behind: the events sent to the trace, the answer sent to the
    requester, and the states handed to [persist_state]. *)
Record Handled := mkHandled {
  after : Actor;
  events : list PermissionEvent;
  answer : option (Decision * PermissionEvent);
  saved : list PermissionState
}.

(** The domains [web_fetch] may reach unless the user lists others
    (crates/codegen/xai-grok-tools/src/implementations/grok_build/web_fetch/config.rs). *)
Definition DEFAULT_ALLOWED_DOMAINS : list str :=
  [lit "x.ai"; lit "console.x.ai"; lit "docs.x.ai"; lit "api.x.ai"; lit "docs.python.org";
   lit "en.cppreference.com"; lit "docs.oracle.com"; lit "learn.microsoft.com"; lit "developer.mozilla.org";
   lit "go.dev"; lit "pkg.go.dev"; lit "www.php.net"; lit "docs.swift.org"; lit "kotlinlang.org";
   lit "ruby-doc.org"; lit "doc.rust-lang.org"; lit "docs.rs"; lit "www.typescriptlang.org"; lit "react.dev";
   lit "angular.io"; lit "vuejs.org"; lit "nextjs.org"; lit "expressjs.com"; lit "nodejs.org"; lit "bun.sh";
   lit "jquery.com"; lit "getbootstrap.com"; lit "tailwindcss.com"; lit "d3js.org"; lit "threejs.org";
   lit "redux.js.org"; lit "webpack.js.org"; lit "jestjs.io"; lit "reactrouter.com";
   lit "docs.djangoproject.com"; lit "flask.palletsprojects.com"; lit "fastapi.tiangolo.com";
   lit "pandas.pydata.org"; lit "numpy.org"; lit "www.tensorflow.org"; lit "pytorch.org";
   lit "scikit-learn.org"; lit "matplotlib.org"; lit "requests.readthedocs.io"; lit "jupyter.org";
   lit "laravel.com"; lit "symfony.com"; lit "wordpress.org"; lit "docs.spring.io"; lit "hibernate.org";
   lit "tomcat.apache.org"; lit "gradle.org"; lit "maven.apache.org"; lit "asp.net";
   lit "dotnet.microsoft.com"; lit "nuget.org"; lit "blazor.net"; lit "reactnative.dev";
   lit "docs.flutter.dev"; lit "developer.apple.com"; lit "developer.android.com"; lit "keras.io";
   lit "spark.apache.org"; lit "huggingface.co"; lit "www.kaggle.com"; lit "redis.io";
   lit "www.postgresql.org"; lit "dev.mysql.com"; lit "www.sqlite.org"; lit "graphql.org"; lit "prisma.io";
   lit "docs.aws.amazon.com"; lit "cloud.google.com"; lit "kubernetes.io"; lit "www.docker.com";
   lit "www.terraform.io"; lit "www.ansible.com"; lit "vercel.com/docs"; lit "docs.netlify.com";
   lit "devcenter.heroku.com"; lit "cypress.io"; lit "selenium.dev"; lit "docs.unity.com";
   lit "docs.unrealengine.com"; lit "git-scm.com"; lit "nginx.org"; lit "httpd.apache.org"].

(** ** One request *)

Section Request.
Context `{PolicyEnv, TreeFields, HashOrder, WebEnv, SerdeJson, GitWorld, FileSystem}.
(** [shellexpand::tilde] and the prose of the classifier's system prompt *)
Context (tilde : str → str) (system_prompt : str).
Context (cfg : Settings).

Definition compiled_policy : option CompiledPolicy := compile <$> permission_config cfg.
Definition actor_prompt_policy : PromptPolicy :=
  match permission_config cfg with Some c => prompt_policy c | None => PromptAsk end.
Definition static_domain_matcher : gmap str HostEntry := matcher_new (web_fetch_allowed_domains cfg).

Definition request_cwd (r : Request) : str :=
  match path_context r with Some c => real_cwd c | None => manager_cwd cfg end.
Definition access_detail (r : Request) : option str :=
  match access r with
  | ARead _ => None
  | AGrep path _ => path
  | AEdit path => Some path
  | ABash cmd => Some cmd
  | AMcp name input => Some (mcp_access_detail name input)
  | AWebFetch url => Some url
  | AWebSearch query => Some query
  end.
Definition tool_name (r : Request) : str := tool_name_for_access (access r).

Definition permission_mode_str (a : Actor) : str :=
  if yolo_mode a then lit "always-approve" else if auto_mode a then lit "auto" else lit "ask".
Definition decision_wire (d : Decision) : str * option str :=
  match d with
  | DAllow => (lit "allow", None)
  | DAsk => (lit "ask", None)
  | DReject reason | DPolicyDeny reason => (lit "reject", Some reason)
  | DFollowupMessage _ => (lit "followup", None)
  | DCancelled => (lit "cancelled", None)
  end.

Section Handle.
(** The actor when the request is taken from the queue. *)
Context (a : Actor) (r : Request) (sur : Surroundings).

Definition entry_counters : DenialCounters := mkCounters (auto_consecutive_denials a) (auto_total_denials a).

Definition emit_event (denials : DenialCounters) (c : RequestClassification) (d : Decision)
  (auto_approved user_prompted : bool) (outcome : option str) (reason : option str) : PermissionEvent :=
  mkEvent (tool_call_id r) (tool_name r) (access_kind_name (access r)) (access_detail r) (yolo_mode a)
    auto_approved user_prompted (decision_wire d).1 outcome (decision_wire d).2 (now sur) (req_session_id r)
    (req_subagent_type r) (req_subagent_description r) (permission_mode_str a) reason
    (source_kind_wire <$> classifier_source c) (classifier_latency_ms c)
    (if auto_mode a then Some (dc_consecutive denials) else None)
    (if auto_mode a then Some (dc_total denials) else None)
    (waited_ms sur) (in_flight sur) (security_findings_tokens c) (verdict_wire <$> classifier_verdict c).

(** An answer without a prompt. *)
Definition resolve (a' : Actor) (denials : DenialCounters) (c : RequestClassification) (d : Decision)
  (auto_approved : bool) (reason : str) : Handled :=
  let event := emit_event denials c d auto_approved false None (Some reason) in
  mkHandled a' [event] (Some (d, event)) [].
(** The requester is gone: the event only. *)
Definition abandon (c : RequestClassification) : Handled :=
  mkHandled a [emit_event entry_counters c DCancelled false false None (Some REQUESTER_GONE)] None [].

(** [bash_evaluation], with the ambient scan; [inl] when the requester left meanwhile. *)
Definition request_evaluation : Handled + option BashEvaluation :=
  match access r with
  | ABash cmd =>
      let e := evaluate_bash cmd (st a) true in
      match ambient_segments e with
      | None => inr (Some e)
      | Some raw =>
          let ambient_risk := match ambient_scan_plan_from_segments raw (request_cwd r) with
                              | PlanFailClosed => true
                              | CheckDirs dirs =>
                                  if scan_joined sur then ambient_exec_risk_from_plan (CheckDirs dirs) else true
                              end in
          if is_closed sur AfterScan then inl (abandon NotClassified)
          else inr (Some (mkEvaluation (segments e) (exact_grant e) (all_segments_granted e)
                            (insert_if ambient_risk ExecOrAmbientGit (assessment e)) None))
      end
  | _ => inr None
  end.

Definition protected_edit : option ProtectedEditReason :=
  match access r with
  | AEdit path =>
      edit_target_protection
        (match path_context r with
         | Some c => resolve_model_path tilde (real_cwd c) (pc_display_cwd c) path
         | None => resolve_model_path tilde (manager_cwd cfg) None path
         end)
  | _ => None
  end.
Definition is_protected : bool := bool_decide (is_Some protected_edit).
Definition gates : GatePreflight := preflight compiled_policy (access r) (request_cwd r) (auto_mode a).

(** What the auto mode hands on when it does not answer: the actor, the cells of the
    request, and why it forces a prompt. *)
Record AutoPass := mkPass {
  ap_actor : Actor;
  ap_denials : DenialCounters;
  ap_class : RequestClassification;
  ap_reason : option str
}.
Definition auto_forced_prompt (p : AutoPass) : bool := bool_decide (is_Some (ap_reason p)).

Definition block_reason (o : option ClassifierOutcome) : str :=
  match o ≫= outcome_reason with
  | Some why => lit "Auto mode blocked this action (" ++ trim_end_matches (N.eqb (chr ".")) why ++ lit "). "
                ++ AUTO_DENY_GUIDANCE
  | None => lit "Auto mode blocked this action. " ++ AUTO_DENY_GUIDANCE
  end.

(** The match on the verdict. *)
Definition act_on_verdict (c : RequestClassification) (o : option ClassifierOutcome) : Handled + AutoPass :=
  let verdict := match o with Some o => verdict o | None => VUnavailable end in
  let timed_out := match o with Some o => is_timeout o | None => false end in
  match verdict with
  | VAllow =>
      inl (resolve (set_denials 0 (auto_total_denials a) a) (mkCounters 0 (auto_total_denials a)) c
             DAllow true AUTO_CLASSIFIER_ALLOW)
  | VBlock =>
      if (auto_consecutive_denials a <? AUTO_DENY_CONSECUTIVE_LIMIT)%N
         && (auto_total_denials a <? AUTO_DENY_TOTAL_LIMIT)%N then
        let consecutive := (auto_consecutive_denials a + 1)%N in
        let total := (auto_total_denials a + 1)%N in
        inl (resolve (set_denials consecutive total a) (mkCounters consecutive total) c
               (DPolicyDeny (block_reason o)) false AUTO_CLASSIFIER_DENY)
      else inr (mkPass a entry_counters c (Some AUTO_DENIAL_LIMIT))
  | VUnavailable =>
      inr (mkPass a entry_counters c
             (Some (if timed_out then AUTO_CLASSIFIER_TIMEOUT else AUTO_CLASSIFIER_UNAVAILABLE)))
  end.

Definition classifier_context (findings : Assessment) : ClassifierContext :=
  mkContext (classifier_turns a ++ recorded_permission_decisions a) (actor_instructions a) findings.

(** The arm [AutoFastPath::Classify]. *)
Definition classify_route (e : option BashEvaluation) : Handled + AutoPass :=
  let findings := classifier_assessment e (defers_gate_ask gates) in
  match auto_classifier a with
  | Some clf =>
      if is_closed sur WhileClassifying then inl (abandon (Classified findings None))
      else
        let o := clf (side_query sur) (tool_name r) (access r) (access_detail r) (classifier_context findings) in
        act_on_verdict
          (Classified findings
             (Some (mkClassified (verdict o) (FromClassifier (outcome_source o)) (Some (classify_latency_ms sur)))))
          (Some o)
  | None =>
      act_on_verdict (Classified findings (Some (mkClassified VUnavailable NotWired None))) None
  end.

Definition auto_route (e : option BashEvaluation) : Handled + AutoPass :=
  if auto_mode a && admits_auto_classifier gates then
    let needs_user := is_protected || access_requires_user_interaction (tool_name r) (access r) in
    match auto_mode_fast_path (access r) (tool_name r) needs_user with
    | FastAllow => inl (resolve a entry_counters FastPathClassified DAllow true AUTO_FAST_PATH)
    | FastPromptUser => inr (mkPass a entry_counters NotClassified (Some NEEDS_USER))
    | FastClassify => classify_route e
    end
  else inr (mkPass a entry_counters NotClassified None).

(** The pre-decision after the auto mode. *)
Definition late_pre_decision (e : option BashEvaluation) (p : AutoPass) : option (Decision * str) :=
  match access r with
  | ARead _ | AGrep _ _ => if policy_forced_prompt gates then None else Some (DAllow, SAFE_COMMAND)
  | AWebSearch _ => Some (DAllow, SAFE_COMMAND)
  | AMcp name _ =>
      (λ d, (d, PERSISTED_GRANT)) <$> mcp_pre_decision name (st a) (policy_forced_prompt gates) (remember_tool_approvals cfg)
  | AEdit _ =>
      if allow_edits_for_session a && negb is_protected then Some (DAllow, PERSISTED_GRANT)
      else match edit_policy (st a) with
           | EditReject => Some (DReject (lit "edits prohibited"), SESSION_DENY)
           | EditAsk | EditAllow => None
           end
  | ABash cmd =>
      if bash_request_floor_requires_prompt e then None
      else match e with
           | None => None
           | Some e =>
               if policy_forced_prompt gates then
                 if remember_tool_approvals cfg && negb (auto_forced_prompt p) && negb (shell_file_forced_prompt gates)
                 then bash_grant_pre_decision cmd e (st a) (yolo_pin cfg) ASK_FLOOR_REMEMBER
                 else None
               else bash_grant_pre_decision cmd e (st a) (yolo_pin cfg) (post_classify (auto_forced_prompt p))
           end
  | AWebFetch url => web_grant url (st a) static_domain_matcher true PERSISTED_GRANT
  end.
Definition auto_prompt_blocks_allow (access : AccessKind) : bool := match access with ABash _ => false | _ => true end.
Definition pre_decision (e : option BashEvaluation) (p : AutoPass) : option (Decision * str) :=
  match late_pre_decision e p with
  | Some (DAllow, reason) =>
      if auto_forced_prompt p && auto_prompt_blocks_allow (access r) then None else Some (DAllow, reason)
  | other => other
  end.

(** The prompt source kept for the event. *)
Definition trigger_of (e : option BashEvaluation) (p : AutoPass) : str :=
  let opaque_floor := match e with
                      | Some e => negb (exact_grant e) && has_finding (assessment e) OpaqueShell
                      | None => false
                      end in
  default (if opaque_floor then OPAQUE_SHELL
           else if bash_request_floor_requires_prompt e then BASH_REQUEST_FLOOR else NEEDS_USER)
    (prompt_trigger gates (ap_reason p)).

(** ** The user's answer *)

(** The actor after the answer, the decision, the effective kind, the states persisted. *)
Definition Answered : Type := Actor * Decision * PromptOutcomeKind * list PermissionState.
Definition USER_REJECTED : Decision := DReject (lit "User rejected the execution").
Definition PROMPT_FAILED (e : str) : Decision := DReject (lit "Failed to request permission from user: " ++ e).

(** A new state, kept and persisted. *)
Definition persisting (b : Actor) (s : PermissionState) (d : Decision) (k : PromptOutcomeKind) : Answered :=
  (set_st s b, d, k, [s]).
Definition plainly (b : Actor) (d : Decision) (k : PromptOutcomeKind) : Answered := (b, d, k, []).

Definition answer_bash (b : Actor) (cmd : str) (o : PromptOutcome) : Answered :=
  match o with
  | OAllowOnce => plainly b DAllow (outcome_kind o)
  | OAllowAlways => persisting b (grant_bash_command cmd (st b)) DAllow (outcome_kind o)
  | OAllowAlwaysBashCommand prefix => persisting b (grant_bash_command prefix (st b)) DAllow (outcome_kind o)
  | OAllowAlwaysBashGlob pattern => persisting b (grant_bash_glob pattern (st b)) DAllow (outcome_kind o)
  | OAllowAlwaysDomain _ | OAllowAlwaysMcpTool _ | OAllowAlwaysMcpServer _ | OAllowEditsForSession =>
      plainly b DAllow KAllowOnce
  | ORejectOnce => plainly b USER_REJECTED (outcome_kind o)
  | ORejectAlwaysBashCommand prefix =>
      persisting b (deny_bash_command prefix (st b))
        (DReject (lit "User rejected the execution and excluded " ++ prefix ++ lit " from this session")) (outcome_kind o)
  | OCancelled => plainly b DCancelled (outcome_kind o)
  | OFollowupMessage msg => plainly b (DFollowupMessage msg) (outcome_kind o)
  | OError e => plainly b (PROMPT_FAILED e) (outcome_kind o)
  end.

Definition answer_other (b : Actor) (o : PromptOutcome) : Answered :=
  match o with
  | OAllowOnce => plainly b DAllow (outcome_kind o)
  | OAllowEditsForSession => plainly (set_allow_edits true b) DAllow (outcome_kind o)
  | OAllowAlways =>
      persisting b (match access r with AMcp name _ => grant_mcp_tool name (st b) | _ => st b end) DAllow (outcome_kind o)
  | OAllowAlwaysBashCommand _ | OAllowAlwaysBashGlob _ => plainly b DAllow KAllowAlwaysBash
  | OAllowAlwaysDomain domain =>
      match access r with
      | AWebFetch _ => persisting b (grant_domain domain (st b)) DAllow (outcome_kind o)
      | _ => plainly b DAllow (outcome_kind o)
      end
  | OAllowAlwaysMcpTool _ =>
      match access r with
      | AMcp name _ => persisting b (grant_mcp_tool name (st b)) DAllow (outcome_kind o)
      | _ => plainly b DAllow (outcome_kind o)
      end
  | OAllowAlwaysMcpServer server_prefix =>
      match access r with
      | AMcp name _ =>
          match parse_mcp_qualified_name name with
          | Some (canonical, _) =>
              if str_eqb canonical server_prefix
              then persisting b (grant_mcp_server canonical (st b)) DAllow (outcome_kind o)
              else persisting b (grant_mcp_tool name (st b)) DAllow (outcome_kind o)
          | None => persisting b (grant_mcp_tool name (st b)) DAllow (outcome_kind o)
          end
      | _ => plainly b DAllow (outcome_kind o)
      end
  | ORejectAlwaysBashCommand _ | ORejectOnce => plainly b USER_REJECTED (outcome_kind o)
  | OCancelled => plainly b DCancelled (outcome_kind o)
  | OError e => plainly b (PROMPT_FAILED e) (outcome_kind o)
  | OFollowupMessage msg => plainly b (DFollowupMessage msg) (outcome_kind o)
  end.

Definition prompted_decision_approved (d : Decision) (outcome_str : str) : option bool :=
  match d with
  | DAllow => Some true
  | DReject _ => if str_eqb outcome_str (lit "error") then None else Some false
  | _ => None
  end.
Definition MAX_RECORDED_PERMISSION_DECISIONS : nat := 12.
Definition record_decision (approved : bool) (b : Actor) : Actor :=
  let ts := recorded_permission_decisions b
            ++ [PermissionDecisionTurn (tool_name r) (permission_decision_args (access r) (access_detail r)) approved] in
  set_recorded (drop (length ts - MAX_RECORDED_PERMISSION_DECISIONS) ts) b.

Definition ask_user (e : option BashEvaluation) (p : AutoPass) : Handled :=
  let outcome := if is_closed sur WhilePrompting then OCancelled
                 else prompt_outcome (client_type cfg) (remember_tool_approvals cfg) (access r) (reply sur) in
  let '(b, d, kind, persisted) := match access r with
                                  | ABash cmd => answer_bash (ap_actor p) cmd outcome
                                  | _ => answer_other (ap_actor p) outcome
                                  end in
  let outcome_str := outcome_wire kind in
  let b := match prompted_decision_approved d outcome_str with Some approved => record_decision approved b | None => b end in
  let requester_gone := match d with DCancelled => is_closed sur AfterAnswer | _ => false end in
  let trigger := if requester_gone then REQUESTER_GONE else trigger_of e p in
  let event := emit_event (ap_denials p) (ap_class p) d false true (Some outcome_str) (Some trigger) in
  let b := if negb (str_eqb outcome_str (lit "error")) && negb requester_gone
           then set_denials 0 (auto_total_denials b) b else b in
  mkHandled b [event] (Some (d, event)) persisted.

(** From the sandbox to the prompt. *)
Definition after_auto (e : option BashEvaluation) (p : AutoPass) : Handled :=
  let late := resolve (ap_actor p) (ap_denials p) (ap_class p) in
  let is_bash := match access r with ABash _ => true | _ => false end in
  if is_bash && sandbox_may_auto_allow_bash e (sandbox_auto_allow sur) && negb (policy_forced_prompt gates)
     && negb (auto_forced_prompt p)
  then late DAllow true SANDBOX_AUTO
  else
    let policy := match policy_decision gates with
                  | Some DAsk | None => None
                  | Some DAllow =>
                      if is_protected || auto_forced_prompt p || bash_request_floor_requires_prompt e
                      then None else Some DAllow
                  | Some d => Some d
                  end in
    match policy with
    | Some d => late d true POLICY_ALLOW
    | None =>
        match pre_decision e p with
        | Some (d, reason) => late d true reason
        | None =>
            match actor_prompt_policy with
            | PromptDeny =>
                late (DPolicyDeny (lit "denied by prompt policy (tool not pre-approved)")) false PROMPT_DENY
            | _ =>
                if is_closed sur BeforePrompt
                then mkHandled (ap_actor p)
                       [emit_event (ap_denials p) (ap_class p) DCancelled false false None (Some REQUESTER_GONE)] None []
                else ask_user e p
            end
        end
    end.

(** From the managed deny to the auto mode. *)
Definition decide_request (e : option BashEvaluation) : Handled :=
  let early := resolve a entry_counters NotClassified in
  let unforced := negb (policy_forced_prompt gates) && negb (shell_forced_prompt gates) && negb is_protected in
  match policy_decision gates with
  | Some (DReject reason) => early (DPolicyDeny reason) false POLICY_DENY
  | policy =>
      if yolo_mode a && negb (shell_forced_prompt gates) then early DAllow true YOLO
      else
        let web_allowlist_is_default := bool_decide (web_fetch_allowed_domains cfg = DEFAULT_ALLOWED_DOMAINS) in
        match (if unforced
               then session_grant_pre_decision (access r) e (st a) (allow_edits_for_session a) static_domain_matcher
                      (negb (auto_mode a && web_allowlist_is_default)) (yolo_pin cfg)
               else None) with
        | Some (d, reason) => early d true reason
        | None =>
            if auto_mode a && unforced && bash_assessment_is_clear e
               && match policy with Some DAllow => true | _ => false end
            then early DAllow true POLICY_ALLOW
            else match auto_route e with
                 | inl handled => handled
                 | inr p => after_auto e p
                 end
        end
  end.

Definition handle_request : Handled :=
  if is_closed sur AtDequeue then abandon NotClassified
  else match request_evaluation with
       | inl handled => handled
       | inr e => decide_request e
       end.
End Handle.

(** ** Commands *)

Inductive PermissionCommand :=
| CmdRequest (r : Request) (sur : Surroundings)
| CmdSetYoloMode (enabled : bool)
| CmdSetAutoMode (enabled : bool)
| CmdSetClassifier (c : option Classifier)
| CmdSetClassifierTranscript (ts : list ClassifierTurn)
| CmdSetProjectInstructions (i : option str)
| CmdResetState
| CmdShutdown.

Definition quiet (a : Actor) : Handled := mkHandled a [] None [].

Definition actor_step (a : Actor) (c : PermissionCommand) : Handled :=
  match c with
  | CmdSetYoloMode enabled =>
      let clamped := clamp_yolo enabled (yolo_pin cfg) in
      let a := if enabled && negb clamped && negb (pin_refusal_logged a) then set_refusal_logged true a else a in
      quiet (set_modes clamped (if clamped then false else auto_mode a) a)
  | CmdSetAutoMode enabled =>
      let a := set_modes (if enabled then false else yolo_mode a) enabled a in
      quiet (match auto_classifier a with
             | None => if enabled then set_classifier (Some (default_auto_mode_classifier system_prompt)) a else a
             | Some _ => a
             end)
  | CmdSetClassifier c => quiet (set_classifier c a)
  | CmdSetClassifierTranscript ts => quiet (set_turns ts a)
  | CmdSetProjectInstructions i => quiet (set_instructions i a)
  | CmdResetState => mkHandled (set_allow_edits false (set_st default_state a)) [] None [default_state]
  | CmdRequest r sur => handle_request a r sur
  | CmdShutdown => quiet a
  end.

(** ** Start *)

Definition initial_yolo_of (requested : bool) : bool := clamp_yolo requested (yolo_pin cfg).
Definition seed_auto_of (requested : bool) : bool :=
  negb (initial_yolo_of requested)
  && match permission_config cfg with
     | Some c => match prompt_policy c with PromptAuto => true | _ => false end
     | None => false
     end.
Definition start_actor (loaded : PermissionState) (requested_yolo : bool) : Actor :=
  mkActor loaded (initial_yolo_of requested_yolo) (seed_auto_of requested_yolo)
    (Some (default_auto_mode_classifier system_prompt)) 0 0 [] [] None false false.

(** ** Handles *)

(** The flags shared with the handles ([AtomicBool]s). *)
Record Flags := mkFlags { yolo_state : bool; auto_state : bool; side_query_wired : bool }.
Definition start_flags (requested_yolo : bool) : Flags :=
  mkFlags (initial_yolo_of requested_yolo) (seed_auto_of requested_yolo) false.

Inductive HandleCall :=
| SetYoloMode (enabled : bool)
| SetAutoMode (enabled : bool)
| SetClassifier (c : option Classifier)
| SetClassifierWithSideQuery (c : Classifier) (has_side_query : bool)
| SetLlmSideQueryWired (wired : bool)
| SetClassifierTranscript (ts : list ClassifierTurn)
| SetProjectInstructions (i : option str)
| ResetState
| RequestDecision (r : Request) (sur : Surroundings)
| Shutdown.

(** One atomic operation: a store to a flag, or a command put on the channel. *)
Inductive Atom := StoreYolo (b : bool) | StoreAuto (b : bool) | StoreWired (b : bool) | SendCommand (c : PermissionCommand).

(** The operations of a call, in order. *)
Definition call_atoms (c : HandleCall) : list Atom :=
  match c with
  | SetYoloMode enabled =>
      let clamped := clamp_yolo enabled (yolo_pin cfg) in
      [StoreYolo clamped] ++ (if clamped then [StoreAuto false] else []) ++ [SendCommand (CmdSetYoloMode enabled)]
  | SetAutoMode enabled =>
      [StoreAuto enabled] ++ (if enabled then [StoreYolo false] else []) ++ [SendCommand (CmdSetAutoMode enabled)]
  | SetClassifier c => [StoreWired false; SendCommand (CmdSetClassifier c)]
  | SetClassifierWithSideQuery c has_side_query => [StoreWired has_side_query; SendCommand (CmdSetClassifier (Some c))]
  | SetLlmSideQueryWired wired => [StoreWired wired]
  | SetClassifierTranscript ts => [SendCommand (CmdSetClassifierTranscript ts)]
  | SetProjectInstructions i => [SendCommand (CmdSetProjectInstructions i)]
  | ResetState => [SendCommand CmdResetState]
  | RequestDecision r sur => [SendCommand (CmdRequest r sur)]
  | Shutdown => [SendCommand CmdShutdown]
  end.
(** What the actor stores when it handles a command. *)
Definition command_stores (c : PermissionCommand) : list Atom :=
  match c with
  | CmdSetYoloMode enabled =>
      let clamped := clamp_yolo enabled (yolo_pin cfg) in [StoreYolo clamped] ++ (if clamped then [StoreAuto false] else [])
  | CmdSetAutoMode enabled => [StoreAuto enabled] ++ (if enabled then [StoreYolo false] else [])
  | _ => []
  end.

(** The actor with its queue and the flags, the calls in progress on any thread, and what the
    actor has still to store for the command it handled last. *)
Record System := mkSystem {
  actor : Actor;
  flags : Flags;
  queue : list PermissionCommand;
  stopped : bool;
  calls : list (list Atom);
  storing : list Atom
}.
Definition with_flags (f : Flags) (s : System) : System := mkSystem (actor s) f (queue s) (stopped s) (calls s) (storing s).
Definition with_calls (cs : list (list Atom)) (s : System) : System :=
  mkSystem (actor s) (flags s) (queue s) (stopped s) cs (storing s).
Definition with_storing (l : list Atom) (s : System) : System :=
  mkSystem (actor s) (flags s) (queue s) (stopped s) (calls s) l.
Definition perform (o : Atom) (s : System) : System :=
  let f := flags s in
  match o with
  | StoreYolo b => with_flags (mkFlags b (auto_state f) (side_query_wired f)) s
  | StoreAuto b => with_flags (mkFlags (yolo_state f) b (side_query_wired f)) s
  | StoreWired b => with_flags (mkFlags (yolo_state f) (auto_state f) b) s
  | SendCommand c =>
      if stopped s then s else mkSystem (actor s) (flags s) (queue s ++ [c]) (stopped s) (calls s) (storing s)
  end.

(** A call begins on some handle; a call in progress does its next operation; the actor does
    its next store; the actor, done storing, takes the next command from its queue.  The
    label is what the actor produced. *)
Inductive sstep : System → option Handled → System → Prop :=
| call_begins s c : sstep s None (with_calls (calls s ++ [call_atoms c]) s)
| call_continues s i o rest :
    calls s !! i = Some (o :: rest) → sstep s None (perform o (with_calls (<[i := rest]> (calls s)) s))
| actor_stores s o rest : storing s = o :: rest → sstep s None (perform o (with_storing rest s))
| actor_takes a f c q cs :
    sstep (mkSystem a f (c :: q) false cs []) (Some (actor_step a c))
      (mkSystem (after (actor_step a c)) f q (match c with CmdShutdown => true | _ => false end) cs (command_stores c)).

Definition start_system (loaded : PermissionState) (requested_yolo : bool) : System :=
  mkSystem (start_actor loaded requested_yolo) (start_flags requested_yolo) [] false [] [].
(** A run from a fresh manager, with everything the actor produced. *)
Inductive run (loaded : PermissionState) (requested_yolo : bool) : System → list Handled → Prop :=
| run_start : run loaded requested_yolo (start_system loaded requested_yolo) []
| run_step s hs h s' : run loaded requested_yolo s hs → sstep s h s' →
    run loaded requested_yolo s' (hs ++ match h with Some h => [h] | None => [] end).
End Request.
