(* ===== verification/ManagerCourse.v ===== *)
(** The courses a permission request can take: one case per way in which the manager of
    Manager.v comes to an answer, with what held on that way.  The theorems of ManagerSafety
    go through these cases and not through the code again. *)
From Stdlib Require Import String Ascii.
From stdpp Require Import gmap.
From S2P Require Import Prelude RustStr Json Shell LexPath Rules Policy ShellWords ShellAccess GatePreflight NetFilter WebFetch HashIter ExecRisk AutoRisk AutoMode Prompter PermState ManagerBash Manager.

Section Course.
Context `{PolicyEnv, TreeFields, HashOrder, WebEnv, SerdeJson, GitWorld, FileSystem}.
Context (tilde : str → str) (cfg : Settings).
Context (a : Actor) (r : Request) (sur : Surroundings).

Local Notation g := (gates cfg a r).
Local Notation guarded := (is_protected tilde cfg r).

Definition unforced : bool := negb (policy_forced_prompt g) && negb (shell_forced_prompt g) && negb guarded.
(** The request came past the managed deny and the always-approve mode. *)
Definition came_past (e : option BashEvaluation) : Prop :=
  request_evaluation cfg a r sur = inr e
  ∧ (∀ reason, policy_decision g ≠ Some (DReject reason))
  ∧ yolo_mode a && negb (shell_forced_prompt g) = false.
(** In auto mode, and no rule asked for the user. *)
Definition auto_admitted : Prop := auto_mode a = true ∧ admits_auto_classifier g = true.
Definition needs_user : bool := guarded || access_requires_user_interaction (tool_name r) (access r).
(** The classifier's outcome for this request. *)
Definition judged (clf : Classifier) (e : option BashEvaluation) : ClassifierOutcome :=
  clf (side_query sur) (tool_name r) (access r) (access_detail r)
    (classifier_context a (classifier_assessment e (defers_gate_ask g))).
(** The auto mode did not answer. *)
Definition passed (e : option BashEvaluation) (p : AutoPass) : Prop := auto_route tilde cfg a r sur e = inr p.

Inductive course : Handled → Prop :=
| course_gone b ds c : is_Some (gone_from sur) → b = a →
    course (mkHandled b [emit_event a r sur ds c DCancelled false false None (Some REQUESTER_GONE)] None [])
| course_deny reason : policy_decision g = Some (DReject reason) →
    course (resolve a r sur a (entry_counters a) NotClassified (DPolicyDeny reason) false POLICY_DENY)
| course_yolo e : request_evaluation cfg a r sur = inr e → (∀ reason, policy_decision g ≠ Some (DReject reason)) →
    yolo_mode a = true → shell_forced_prompt g = false →
    course (resolve a r sur a (entry_counters a) NotClassified DAllow true YOLO)
| course_grant e d reason honor : came_past e → unforced = true →
    session_grant_pre_decision (access r) e (st a) (allow_edits_for_session a) (static_domain_matcher cfg) honor (yolo_pin cfg)
      = Some (d, reason) →
    course (resolve a r sur a (entry_counters a) NotClassified d true reason)
| course_clear e : came_past e → auto_mode a = true → unforced = true → bash_assessment_is_clear e = true →
    policy_decision g = Some DAllow →
    course (resolve a r sur a (entry_counters a) NotClassified DAllow true POLICY_ALLOW)
| course_fast e : came_past e → auto_admitted → auto_mode_fast_path (access r) (tool_name r) needs_user = FastAllow →
    course (resolve a r sur a (entry_counters a) FastPathClassified DAllow true AUTO_FAST_PATH)
| course_classified_allow e clf c : came_past e → auto_admitted → needs_user = false →
    auto_classifier a = Some clf → verdict (judged clf e) = VAllow →
    course (resolve a r sur (set_denials 0 (auto_total_denials a) a) (mkCounters 0 (auto_total_denials a)) c
              DAllow true AUTO_CLASSIFIER_ALLOW)
| course_classified_block e clf c : came_past e → auto_admitted → auto_classifier a = Some clf →
    verdict (judged clf e) = VBlock →
    (auto_consecutive_denials a < AUTO_DENY_CONSECUTIVE_LIMIT)%N → (auto_total_denials a < AUTO_DENY_TOTAL_LIMIT)%N →
    course (resolve a r sur (set_denials (auto_consecutive_denials a + 1) (auto_total_denials a + 1) a)
              (mkCounters (auto_consecutive_denials a + 1) (auto_total_denials a + 1)) c
              (DPolicyDeny (block_reason (Some (judged clf e)))) false AUTO_CLASSIFIER_DENY)
| course_sandbox e p cmd : came_past e → passed e p → access r = ABash cmd → sandbox_auto_allow sur = true →
    bash_request_floor_requires_prompt e = false → policy_forced_prompt g = false → auto_forced_prompt p = false →
    course (resolve a r sur a (entry_counters a) (ap_class p) DAllow true SANDBOX_AUTO)
| course_policy e p d : came_past e → passed e p → policy_decision g = Some d → d ≠ DAsk →
    (d = DAllow → guarded = false ∧ auto_forced_prompt p = false ∧ bash_request_floor_requires_prompt e = false) →
    course (resolve a r sur a (entry_counters a) (ap_class p) d true POLICY_ALLOW)
| course_late e p d reason : came_past e → passed e p → pre_decision tilde cfg a r e p = Some (d, reason) →
    course (resolve a r sur a (entry_counters a) (ap_class p) d true reason)
| course_prompt_deny e p : came_past e → passed e p → pre_decision tilde cfg a r e p = None →
    actor_prompt_policy cfg = PromptDeny →
    course (resolve a r sur a (entry_counters a) (ap_class p)
              (DPolicyDeny (lit "denied by prompt policy (tool not pre-approved)")) false PROMPT_DENY)
| course_ask e p : came_past e → passed e p → pre_decision tilde cfg a r e p = None →
    actor_prompt_policy cfg ≠ PromptDeny → is_closed sur BeforePrompt = false →
    course (ask_user cfg a r sur e p).

Lemma closed_gone s : is_closed sur s = true → is_Some (gone_from sur).
Proof. unfold is_closed. destruct (gone_from sur); [eauto|done]. Qed.

(** What the auto mode hands on is the actor of the request. *)
Lemma passed_unchanged e p : passed e p → ap_actor p = a ∧ ap_denials p = entry_counters a.
Proof.
  unfold passed, auto_route, classify_route, act_on_verdict. intros Hp. repeat case_match; by simplify_eq.
Qed.

Lemma auto_answers e h : came_past e → auto_route tilde cfg a r sur e = inl h → course h.
Proof.
  intros He. unfold auto_route. destruct (auto_mode a) eqn:Ha; [|done]. simpl.
  destruct (admits_auto_classifier g) eqn:Hd; [|done].
  assert (Hadm : auto_admitted) by done.
  fold needs_user. destruct (auto_mode_fast_path _ _ _) eqn:Hf; [intros [= <-]; by eapply course_fast|done|].
  assert (Hn : needs_user = false) by (unfold auto_mode_fast_path in Hf; by destruct needs_user).
  unfold classify_route. destruct (auto_classifier a) as [clf|] eqn:Hc; [|done].
  destruct (is_closed sur WhileClassifying) eqn:Hg.
  { intros [= <-]. apply course_gone; [by eapply closed_gone|done]. }
  unfold act_on_verdict. fold (judged clf e). destruct (verdict (judged clf e)) eqn:Hv; [| |done].
  - intros [= <-]. by eapply course_classified_allow.
  - destruct (_ && _) eqn:Hb; [|done]. intros [= <-]. bool_to_prop.
    eapply course_classified_block; try done; by apply N.ltb_lt.
Qed.

Lemma after_auto_course e p : came_past e → passed e p → course (after_auto tilde cfg a r sur e p).
Proof.
  intros He Hp. destruct (passed_unchanged _ _ Hp) as [Ha Hd]. unfold after_auto. rewrite Ha, Hd.
  destruct (_ && negb (auto_forced_prompt p)) eqn:Hs.
  { bool_to_prop. destruct (access r) eqn:Hacc; try done.
    match goal with H : sandbox_may_auto_allow_bash _ _ = true |- _ => apply andb_true_iff in H as [? ?] end.
    bool_to_prop. by eapply course_sandbox. }
  clear Hs.
  destruct (match policy_decision g with Some DAsk | None => None | Some DAllow => _ | Some d => Some d end)
    as [d|] eqn:Hpol.
  { destruct (policy_decision g) as [d'|] eqn:Hg; [|done].
    destruct d'; try done; try (simplify_eq; by eapply course_policy).
    destruct (_ || _) eqn:Hfl; [done|]. injection Hpol as <-. bool_to_prop. by eapply course_policy. }
  destruct (pre_decision _ _ _ _ _ _) as [[d reason]|] eqn:Hpre; [by eapply course_late|].
  destruct (actor_prompt_policy cfg) eqn:Hpp; [|by eapply course_prompt_deny|];
    (destruct (is_closed sur BeforePrompt) eqn:Hc;
     [apply course_gone; [by eapply closed_gone|done]|eapply course_ask; try done; by rewrite Hpp]).
Qed.

Lemma decide_course e : request_evaluation cfg a r sur = inr e → course (decide_request tilde cfg a r sur e).
Proof.
  intros He. unfold decide_request.
  assert (Hrest : (∀ reason, policy_decision g ≠ Some (DReject reason)) →
    course (if yolo_mode a && negb (shell_forced_prompt g)
            then resolve a r sur a (entry_counters a) NotClassified DAllow true YOLO
            else match (if unforced
               then session_grant_pre_decision (access r) e (st a) (allow_edits_for_session a) (static_domain_matcher cfg)
                      (negb (auto_mode a && bool_decide (web_fetch_allowed_domains cfg = DEFAULT_ALLOWED_DOMAINS))) (yolo_pin cfg)
               else None) with
        | Some (d, reason) => resolve a r sur a (entry_counters a) NotClassified d true reason
        | None =>
            if auto_mode a && unforced && bash_assessment_is_clear e
               && match policy_decision g with Some DAllow => true | _ => false end
            then resolve a r sur a (entry_counters a) NotClassified DAllow true POLICY_ALLOW
            else match auto_route tilde cfg a r sur e with
                 | inl handled => handled
                 | inr p => after_auto tilde cfg a r sur e p
                 end
        end)).
  { intros Hnd. destruct (_ && negb _) eqn:Hy.
    { bool_to_prop. by eapply course_yolo. }
    assert (Hp : came_past e) by done.
    destruct (if unforced then _ else None) as [[d reason]|] eqn:Hs.
    { destruct unforced eqn:Hu; [|done]. by eapply course_grant. }
    destruct (_ && match policy_decision g with Some DAllow => true | _ => false end) eqn:Hcl.
    { bool_to_prop. destruct (policy_decision g) as [[]|] eqn:Hpd; try done. by eapply course_clear. }
    destruct (auto_route _ _ _ _ _ _) eqn:Hr; [by eapply auto_answers|by apply after_auto_course]. }
  destruct (policy_decision g) as [[]|] eqn:Hd; try (apply Hrest; congruence).
  by apply course_deny.
Qed.

Lemma handle_course : course (handle_request tilde cfg a r sur).
Proof.
  unfold handle_request. destruct (is_closed sur AtDequeue) eqn:Hc.
  { apply course_gone; [by eapply closed_gone|done]. }
  destruct (request_evaluation cfg a r sur) as [h|e] eqn:He; [|by apply decide_course].
  unfold request_evaluation in He. destruct (access r); try done.
  destruct (ambient_segments _); [|done]. destruct (is_closed sur AfterScan) eqn:Hs; [|done].
  injection He as <-. apply course_gone; [by eapply closed_gone|done].
Qed.
End Course.
