(* ===== verification/ManagerDemo.v ===== *)
(** A concrete environment for the witnesses of the permission manager: a compact JSON
    printer, a world without repositories, and one manager with its requests. *)
From Stdlib Require Import String Ascii.
From stdpp Require Import gmap.
From S2P Require Import Prelude RustStr Json Shell LexPath Rules Policy PolicySafety ShellWords ShellAccess ShellAccessSafety GatePreflight NetFilter WebFetch HashIter ExecRisk AutoRisk AutoMode Prompter PermState ManagerBash Manager.

(** ** JSON on one line *)

Definition escape_char (c : char) : str :=
  if (c =? NL)%N then [BACKSLASH; chr "n"]
  else if (c =? DQUOTE)%N || (c =? BACKSLASH)%N then [BACKSLASH; c] else [c].
Definition quoted (s : str) : str := [DQUOTE] ++ flat_map escape_char s ++ [DQUOTE].
Definition demo_number (z : Z) : str := (if (z <? 0)%Z then lit "-" else []) ++ decimal (Z.abs_N z).
Fixpoint compact (v : json) : str :=
  match v with
  | JNull => lit "null"
  | JBool b => if b then lit "true" else lit "false"
  | JNumber z => demo_number z
  | JString s => quoted s
  | JArray l => lit "[" ++ flat_map (λ v, compact v ++ lit ",") l ++ lit "]"
  | JObject m => lit "{" ++ flat_map (λ '(k, v), quoted k ++ lit ":" ++ compact v ++ lit ",") m ++ lit "}"
  end.

Lemma quoted_line s : NL ∉ quoted s.
Proof.
  unfold quoted. rewrite !elem_of_app, !list_elem_of_singleton. intros [|[Hin|]]; try done.
  induction s as [|c s IH]; simpl in Hin; [by apply not_elem_of_nil in Hin|].
  apply elem_of_app in Hin as [Hc|?]; [|auto]. revert Hc. unfold escape_char.
  destruct (N.eqb_spec c NL) as [|Hne]; [by rewrite !elem_of_cons, elem_of_nil; intros [?|[?|?]]|].
  destruct (_ || _); rewrite !elem_of_cons, elem_of_nil; [intros [?|[?|?]]|intros [?|?]]; done || congruence.
Qed.
Lemma number_line z : NL ∉ demo_number z.
Proof.
  unfold demo_number. rewrite elem_of_app. intros [Hs|Hd].
  - destruct (z <? 0)%Z; [apply list_elem_of_singleton in Hs|apply not_elem_of_nil in Hs]; done.
  - pose proof (decimal_digits (Z.abs_N z)) as Hall. rewrite Forall_forall in Hall. by apply Hall in Hd.
Qed.
Lemma line_app s t : NL ∉ s → NL ∉ t → NL ∉ s ++ t.
Proof. intros. by apply not_elem_of_app. Qed.
Lemma compact_line : ∀ v, NL ∉ compact v.
Proof.
  assert (Hc : ∀ s : str, bool_decide (NL ∉ s) = true → NL ∉ s) by (intros s Hs; exact (proj1 (bool_decide_eq_true _) Hs)).
  fix IH 1. intros [|b|z|s|l|m]; [by apply Hc|destruct b; by apply Hc|apply number_line|apply quoted_line| |];
    cbn [compact]; (apply line_app; [by apply Hc|]); (apply line_app; [|by apply Hc]).
  - induction l as [|v l IHl]; cbn [flat_map]; [by apply Hc|].
    apply line_app; [|exact IHl]. apply line_app; [apply IH|by apply Hc].
  - induction m as [|[k v] m IHm]; cbn [flat_map]; [by apply Hc|].
    apply line_app; [|exact IHm]. apply line_app; [apply quoted_line|].
    apply line_app; [by apply Hc|]. apply line_app; [apply IH|by apply Hc].
Qed.

(** A reader that knows two replies. *)
Definition reply_text (b : bool) : str := compact (JObject [(lit "shouldBlock", JBool b)]).
#[local] Instance demo_json : SerdeJson := {|
  preserve_order := true;
  to_json_string := compact;
  from_json_str s :=
    if str_eqb s (reply_text false) then Some (JObject [(lit "shouldBlock", JBool false)])
    else if str_eqb s (reply_text true) then Some (JObject [(lit "shouldBlock", JBool true)]) else None;
  compact_is_line := compact_line
|}.

(** No repository anywhere. *)
#[local] Instance demo_git : GitWorld := {|
  Repository := unit;
  discover _ := Err true;
  repo_path _ := [];
  commondir _ := [];
  file_open _ := OpenNotFound;
  config_entries _ := None;
  parse_bool_ok _ := false
|}.

(** ** One manager *)

Definition demo_rules_managed : PermissionConfig :=
  mkConfig [mkRule Deny FBash (Some (lit "rm")) Glob; mkRule Ask FBash (Some (lit "make")) Glob] PromptAsk.
Definition demo_settings (c : PermissionConfig) (pin : option str) : Settings :=
  mkSettings (lit "/work") GrokTUI (Some c) [lit "docs.rs"] true pin.
Definition demo_state : PermissionState :=
  mkState EditAsk false {[ lit "make" ]} ∅ ∅ ∅ ∅ ∅ VALIDATED_MCP_SERVER_GRANTS_VERSION.
Definition demo_actor (yolo auto : bool) (clf : Classifier) : Actor :=
  mkActor demo_state yolo auto (Some clf) 0 0 [] [] None false false.
Definition demo_request (acc : AccessKind) : Request := mkRequest acc (lit "call-1") None None None None.
Definition demo_side_query : SideQuery := mkSideQuery (λ _, RequestChannelClosed) (λ _, Err FTimeout).
Definition demo_surroundings (r : PromptReply) : Surroundings :=
  mkSurroundings None true demo_side_query 5 false r 0 0 0.
