(* ===== verification/ManagerEval.v ===== *)
(** What the evaluation of a bash script means: each command of the script is held against
    the user's grants and the safe lists on its own, so that a chain is allowed exactly when
    all of its commands are. *)
From Stdlib Require Import String Ascii.
From stdpp Require Import gmap.
From S2P Require Import Prelude RustStr HashIter Json LexPath Shell Rules Policy ShellWords ExecRisk AutoRisk AutoMode.
From S2P Require Import NetFilter WebFetch Prompter PermState ManagerBash.
Import Argv Script.

Section Eval.
Context `{PolicyEnv, TreeFields, HashOrder}.
Context (st : PermissionState) (honor : bool).

(** The program a command runs, its wrappers peeled, as the lists see it. *)
Definition runs (c : PlainCommand) : list str := unwrap_wrappers (pc_words c).
Definition setup (c : PlainCommand) : Prop := is_setup_command (runs c) = true.
Definition refused (c : PlainCommand) : Prop :=
  ∃ d, d ∈ disallowed_bash_commands st ∧ matches_whitelist_prefix (joined (runs c)) d = true.
Definition granted (c : PlainCommand) : Prop :=
  (∃ p, p ∈ allowed_bash_commands st ∧ matches_whitelist_prefix (joined (runs c)) p = true)
  ∨ (∃ g, g ∈ allowed_bash_globs st ∧ matches_bash_glob (joined (runs c)) g = true).
Definition safe_listed (c : PlainCommand) : Prop :=
  honor = true ∧ (is_safe_command_words (runs c) = true ∨ is_always_safe_command_words (runs c) = true).
(** A command that may run without a question. *)
Definition covered (c : PlainCommand) : Prop :=
  setup c
  ∨ (¬ refused c ∧ is_dangerous_command_words (runs c) = false
     ∧ (special_exec_surface (runs c) = true → joined (runs c) ∈ allowed_bash_commands st)
     ∧ (granted c ∨ safe_listed c)).

Lemma matches_grant_spec c : matches_grant st (joined (runs c)) = true ↔ granted c.
Proof.
  unfold matches_grant, granted. rewrite orb_true_iff, !existsb_elem.
  split; (intros [(x & Hx & Hm)|(x & Hx & Hm)]; [left|right]; exists x; split; try done);
    by apply elem_of_iter_set.
Qed.

Lemma disallowed_spec c : is_Some (disallowed_by st (joined (runs c))) ↔ refused c.
Proof.
  unfold disallowed_by, refused. split.
  - intros [d Hd]. apply find_In in Hd as [Hin Hm]. exists d. by rewrite <- elem_of_iter_set.
  - intros (d & Hin & Hm). apply existsb_find, existsb_elem. exists d. by rewrite elem_of_iter_set.
Qed.

(** One judged segment: whether it adds a prompt, and the running conjunction of grants. *)
Lemma judge_prompts c sc : ¬ setup c → ¬ refused c →
  needs_prompt (judge_segment st honor (runs c) sc) = [] ↔ needs_prompt sc = [] ∧ covered c.
Proof.
  intros Hs Hr. unfold judge_segment, covered, safe_listed. rewrite <- matches_grant_spec.
  assert (Happ : ∀ (l : list str) x, l ++ [x] = [] ↔ False) by (intros [|? ?] ?; split; done).
  destruct (is_dangerous_command_words (runs c)); simpl; [rewrite Happ; naive_solver|].
  destruct (special_exec_surface (runs c)); simpl; [case_bool_decide; simpl; [|rewrite Happ; naive_solver]|];
    (destruct (matches_grant st (joined (runs c))); simpl; [naive_solver|]; destruct honor; simpl;
     [destruct (is_safe_command_words (runs c)); simpl; [naive_solver|];
      destruct (is_always_safe_command_words (runs c)); simpl; [naive_solver|]|]; rewrite Happ; naive_solver).
Qed.
Lemma judge_granted c sc :
  scan_all_granted (judge_segment st honor (runs c) sc) = true ↔ scan_all_granted sc = true ∧ granted c.
Proof.
  unfold judge_segment. rewrite <- matches_grant_spec, <- andb_true_iff. by repeat case_match.
Qed.

(** The loop, from any point. *)
Lemma scan_spec cs sc :
  match scan_segments st honor cs sc with
  | inl _ => Exists (λ c, ¬ setup c ∧ refused c) cs
  | inr sc' =>
      Forall (λ c, setup c ∨ ¬ refused c) cs
      ∧ (needs_prompt sc' = [] ↔ needs_prompt sc = [] ∧ Forall covered cs)
      ∧ (scan_all_granted sc' = true ↔ scan_all_granted sc = true ∧ Forall (λ c, setup c ∨ granted c) cs)
  end.
Proof.
  revert sc; induction cs as [|c cs IH]; intros sc; simpl; [split_and!; rewrite ?Forall_nil; naive_solver|].
  fold (runs c). destruct (is_setup_command (runs c)) eqn:Es.
  - specialize (IH (note_segment (pc_words c) sc)). destruct (scan_segments _ _ _ _); [by right|].
    assert (setup c) by done. rewrite !Forall_cons. unfold covered in *. simpl in IH. naive_solver.
  - assert (Hs : ¬ setup c) by (unfold setup; congruence).
    pose proof (disallowed_spec c) as Hd. destruct (disallowed_by st (joined (runs c))) as [d|] eqn:Ed.
    + left. split; [done|]. apply Hd. eauto.
    + assert (Hr : ¬ refused c) by (intros [? ?]%Hd; done).
      specialize (IH (judge_segment st honor (runs c) (note_segment (pc_words c) sc))).
      destruct (scan_segments _ _ _ _) as [|sc']; [by right|].
      rewrite (judge_prompts c _ Hs Hr), judge_granted in IH. simpl in IH. rewrite !Forall_cons. naive_solver.
Qed.

(** The reject of a decomposed script names a refused command; an allow means that every
    command is covered; and [all_segments_granted] that every one but setup is granted. *)
Lemma evaluate_segments_spec exact cs a :
  let e := evaluate_segments st honor exact cs a in
  ((∃ reason, segments e = RejectSegment reason) ↔ Exists (λ c, ¬ setup c ∧ refused c) cs)
  ∧ ((∃ via, segments e = AutoAllow via) ↔ Forall covered cs)
  ∧ (∀ via, segments e = AutoAllow via → all_segments_granted e = true → Forall (λ c, setup c ∨ granted c) cs).
Proof.
  unfold evaluate_segments. pose proof (scan_spec cs (mkScan [] false true false false [] a)) as Hs.
  destruct (scan_segments _ _ _ _) as [[d sc]|sc]; simpl.
  - split_and!; [naive_solver| |done]. split; [by intros []|]. intros Hc. exfalso.
    rewrite Exists_exists in Hs. destruct Hs as (c & Hin & Hn & Hr). rewrite Forall_forall in Hc.
    destruct (Hc c Hin) as [?|(? & _)]; done.
  - destruct Hs as (Hnr & Hp & Hg). split_and!.
    + split; [intros [? ?]; by destruct (needs_prompt sc)|].
      rewrite Exists_exists, Forall_forall in *. intros (c & Hin & Hn & Hr). destruct (Hnr c Hin); done.
    + destruct (needs_prompt sc) eqn:En; simpl in *; [naive_solver|]. split; [by intros []|]. naive_solver.
    + intros via Hv Hall. destruct Hg as [Hg _]. by apply Hg in Hall as [_ ?].
Qed.
End Eval.
