(* ===== verification/ManagerSafety.v ===== *)
(** The claims on one decision of the permission manager: a managed deny is final, what a
    standing grant covers, which requests no grant can cover, and how binding an ask rule is. *)
From Stdlib Require Import String Ascii.
From stdpp Require Import gmap.
From S2P Require Import Prelude RustStr Json Shell LexPath Rules Policy PolicySafety ShellWords ShellAccess ShellAccessSafety GatePreflight NetFilter WebFetch HashIter ExecRisk AutoRisk AutoMode Prompter PermState ManagerBash Manager ManagerCourse ManagerDemo ManagerEval.
Import Argv Script.

Section Safety.
Context `{PolicyEnv, TreeFields, HashOrder, WebEnv, SerdeJson, GitWorld, FileSystem}.
Context (tilde : str → str) (cfg : Settings).

Lemma request_evaluation_bash a r sur cmd e :
  access r = ABash cmd → request_evaluation cfg a r sur = inr e →
  ∃ e', e = Some e' ∧ segments e' = segments (evaluate_bash cmd (st a) true)
        ∧ exact_grant e' = bool_decide (cmd ∈ allowed_bash_commands (st a))
        ∧ all_segments_granted e' = all_segments_granted (evaluate_bash cmd (st a) true)
        ∧ (∀ f, f ∈ assessment (evaluate_bash cmd (st a) true) → f ∈ assessment e').
Proof.
  intros Ha. unfold request_evaluation. rewrite Ha.
  assert (Hx : exact_grant (evaluate_bash cmd (st a) true) = bool_decide (cmd ∈ allowed_bash_commands (st a))).
  { unfold evaluate_bash, evaluate_segments. repeat case_match; done. }
  destruct (ambient_segments _); [destruct (is_closed sur AfterScan); [done|]|]; intros [= <-]; eexists; split_and!; try done.
  simpl. intros f Hf. apply elem_of_insert_if. by right.
Qed.
Lemma request_evaluation_other a r sur e :
  (∀ cmd, access r ≠ ABash cmd) → request_evaluation cfg a r sur = inr e → e = None.
Proof. intros Ha. unfold request_evaluation. destruct (access r) eqn:Hr; try (by intros [= <-]). by destruct (Ha cmd). Qed.

(** An answer that came from the user. *)
Lemma ask_user_prompted a r sur e p d ev :
  answer (ask_user cfg a r sur e p) = Some (d, ev) → ev_user_prompted ev = true.
Proof.
  unfold ask_user. destruct (match access r with ABash cmd => _ | _ => _ end) as [[[b d'] k] w].
  simpl. by intros [= <- <-].
Qed.

(** ** A managed deny is final *)

(** C3: A managed deny is final.  When a deny rule meets the access or one of the bash gates
    rejects the command, the request is denied, whatever the mode (always-approve and auto
    included), the grants, the classifier, the sandbox and the prompt would say: nobody is
    asked, nothing is granted or persisted, and the actor is as before.  Only a requester
    that left gets no answer. *)
Theorem managed_deny_is_final a r sur :
  rejects (policy_decision (gates cfg a r)) →
  let h := handle_request tilde cfg a r sur in
  after h = a ∧ saved h = []
  ∧ match answer h with
    | Some (d, ev) => (∃ reason, d = DPolicyDeny reason) ∧ ev_user_prompted ev = false ∧ ev_auto_approved ev = false
    | None => is_Some (gone_from sur)
    end.
Proof.
  intros [reason Hr]. simpl. destruct (handle_course tilde cfg a r sur);
    repeat match goal with H : came_past _ _ _ _ _ |- _ => destruct H as (_ & H & _) end; try (by exfalso; naive_solver).
  - by subst.
  - simpl. split_and!; try done. by eexists.
Qed.

(** ** What standing grants cover *)

(** The reasons under which a grant answers. *)
Definition by_grant (ev : PermissionEvent) : Prop :=
  ev_user_prompted ev = false
  ∧ (ev_decision_reason ev = Some SESSION_GRANT ∨ ev_decision_reason ev = Some SAFE_COMMAND).

Lemma resolve_by_grant a r sur a' ds c d auto reason ev :
  answer (resolve a r sur a' ds c d auto reason) = Some (DAllow, ev) → by_grant ev →
  d = DAllow ∧ (reason = SESSION_GRANT ∨ reason = SAFE_COMMAND).
Proof. intros [= -> <-] [_ [[=]|[=]]]; eauto. Qed.

Lemma bash_grant_allows cmd e s pin opts reason :
  bash_grant_pre_decision cmd e s pin opts = Some (DAllow, reason) →
  bash_request_floor_requires_prompt (Some e) = false
  ∧ ((∃ via, segments e = AutoAllow via)
     ∨ exact_grant e = true ∨ persisted_bash_auto_allows s cmd pin = true).
Proof. unfold bash_grant_pre_decision. intros Hg. repeat case_match; simplify_eq; eauto. Qed.

Lemma persisted_allows s cmd pin : persisted_bash_auto_allows s cmd pin = true →
  cmd ∈ allowed_bash_commands s ∨ allow_bash_execute s = true ∧ pin = None.
Proof.
  unfold persisted_bash_auto_allows. intros [Hb|Hb]%orb_true_iff; bool_to_prop; [right|left; done].
  split; [done|]. destruct pin; [|done]. exfalso. naive_solver.
Qed.

(** No two reasons are the same text. *)
Ltac reason_clash :=
  match goal with H : _ = SESSION_GRANT ∨ _ = SAFE_COMMAND |- _ => exfalso; destruct H as [H|H]; vm_compute in H; discriminate end.

(** The late pre-decision of a bash command is a decision of the grants. *)
Lemma late_bash a r cmd e p d reason : access r = ABash cmd →
  pre_decision tilde cfg a r (Some e) p = Some (d, reason) →
  ∃ opts, bash_grant_pre_decision cmd e (st a) (yolo_pin cfg) opts = Some (d, reason).
Proof.
  intros Hacc Hp. assert (Hl : late_pre_decision tilde cfg a r (Some e) p = Some (d, reason)).
  { revert Hp. unfold pre_decision. rewrite Hacc. simpl. rewrite andb_false_r.
    by destruct (late_pre_decision _ _ _ _ _ _) as [[[] ?]|]. }
  revert Hl. unfold late_pre_decision. rewrite Hacc. repeat case_match; eauto; done.
Qed.

(** The grant that answered a bash request. *)
Lemma bash_answered_by_grant a r sur cmd ev : access r = ABash cmd →
  answer (handle_request tilde cfg a r sur) = Some (DAllow, ev) → by_grant ev →
  ∃ e opts reason, request_evaluation cfg a r sur = inr (Some e)
    ∧ bash_grant_pre_decision cmd e (st a) (yolo_pin cfg) opts = Some (DAllow, reason).
Proof.
  intros Hacc Hans Hby.
  destruct (handle_course tilde cfg a r sur) as
    [| | |e d reason honor Hpast _ Hgrant| | | | | | |e p d reason Hpast _ Hlate| |]; try done;
    try (apply resolve_by_grant in Hans as [Hd Hreason]; [|done]); try reason_clash; try subst d.
  - destruct Hpast as (Hev & _). destruct (request_evaluation_bash _ _ _ _ _ Hacc Hev) as (e' & -> & _).
    rewrite Hacc in Hgrant. simpl in Hgrant. eauto 10.
  - destruct Hpast as (Hev & _). destruct (request_evaluation_bash _ _ _ _ _ Hacc Hev) as (e' & -> & _).
    destruct (late_bash _ _ _ _ _ _ _ Hacc Hlate) as [opts Hg]. eauto 10.
  - apply ask_user_prompted in Hans. destruct Hby. congruence.
Qed.

(** A refused command, when no rule asks for the user. *)
Lemma handle_bash_rejected a r sur cmd reason : access r = ABash cmd → yolo_mode a = false →
  ¬ rejects (policy_decision (gates cfg a r)) → policy_forced_prompt (gates cfg a r) = false →
  shell_forced_prompt (gates cfg a r) = false → gone_from sur = None →
  segments (evaluate_bash cmd (st a) true) = RejectSegment reason →
  ∃ ev, answer (handle_request tilde cfg a r sur) = Some (DReject reason, ev).
Proof.
  intros Hacc Hy Hnr Hpf Hsf Hgone Hseg.
  assert (Hopen : ∀ s, is_closed sur s = false) by (intros s; unfold is_closed; by rewrite Hgone).
  unfold handle_request. rewrite Hopen.
  destruct (request_evaluation cfg a r sur) as [h|e] eqn:He.
  { unfold request_evaluation in He. rewrite Hacc, Hopen in He. by destruct (ambient_segments _). }
  destruct (request_evaluation_bash _ _ _ _ _ Hacc He) as (e' & -> & Hs & _).
  assert (Hp : is_protected tilde cfg r = false) by (unfold is_protected, protected_edit; by rewrite Hacc).
  unfold decide_request. rewrite Hy, Hpf, Hsf, Hp, Hacc. simpl. unfold bash_grant_pre_decision. rewrite Hs, Hseg.
  destruct (policy_decision _) as [[]|] eqn:Hd; try (eexists; reflexivity).
  destruct Hnr. by eexists.
Qed.

(** C5: What a standing grant covers, for a bash request whose script decomposes into plain
    commands.  When it is allowed by the user's grants or the built-in lists, with no one
    asked, then there are three ways.  The user granted this very command; or the script has
    no effect that a broad grant cannot vouch for (a file written, an environment changed, a
    nested shell, code run by git) and the blanket grant of all commands is in force, which a
    managed pin on always-approve rules out; or it has no such effect and every command of
    the script, its wrappers peeled, is covered on its own: it is a setup command, or granted
    or safe-listed, not destructive, not refused and without an option that starts programs.
    And outside the always-approve mode, when no policy rule rejects the request, no rule or
    gate forces a question and the requester stays, a script with a command, other than a
    setup command, that the user refused for the session is rejected, wherever the command
    stands in the chain. *)
Theorem standing_grants_cover a r sur cmd tree cs :
  access r = ABash cmd → try_parse_shell cmd = Some tree → try_parse_word_only_commands_sequence tree = Some cs →
  let h := handle_request tilde cfg a r sur in
  (∀ ev, answer h = Some (DAllow, ev) → by_grant ev →
     cmd ∈ allowed_bash_commands (st a)
     ∨ (constrains_broad_grant (assessment (evaluate_bash cmd (st a) true)) = false
        ∧ (allow_bash_execute (st a) = true ∧ yolo_pin cfg = None ∨ Forall (covered (st a) true) cs)))
  ∧ (yolo_mode a = false → ¬ rejects (policy_decision (gates cfg a r)) → policy_forced_prompt (gates cfg a r) = false →
     shell_forced_prompt (gates cfg a r) = false → gone_from sur = None →
     Exists (λ c, ¬ setup c ∧ refused (st a) c) cs → ∃ reason ev, answer h = Some (DReject reason, ev)).
Proof.
  intros Hacc Htree Hcs. simpl.
  assert (Hev : evaluate_bash cmd (st a) true
                = evaluate_segments (st a) true (bool_decide (cmd ∈ allowed_bash_commands (st a))) cs (tree_assessment tree)).
  { unfold evaluate_bash. by rewrite Htree, Hcs. }
  destruct (evaluate_segments_spec (st a) true (bool_decide (cmd ∈ allowed_bash_commands (st a))) cs (tree_assessment tree))
    as (Hrej & Hall & _). rewrite <- Hev in Hrej, Hall. split.
  - intros ev Hans Hby. destruct (bash_answered_by_grant _ _ _ _ _ Hacc Hans Hby) as (e & opts & reason & He & Hg).
    destruct (request_evaluation_bash _ _ _ _ _ Hacc He) as (e' & [= <-] & Hseg & Hx & _ & Hsub).
    apply bash_grant_allows in Hg as [Hfl Hway].
    destruct (decide (cmd ∈ allowed_bash_commands (st a))) as [|Hn]; [by left|right].
    rewrite bool_decide_eq_false_2 in Hx by done. simpl in Hfl. rewrite Hx in Hfl. simpl in Hfl. split.
    + apply not_true_iff_false. intros (f & Hf & Hfloor)%existsb_elem. apply not_true_iff_false in Hfl. apply Hfl.
      apply existsb_elem. eauto.
    + destruct Hway as [[via Hv]|[?|Hp]]; [right; apply Hall; exists via; congruence|congruence|].
      apply persisted_allows in Hp as [?|?]; [done|by left].
  - intros Hy Hnr Hpf Hsf Hgone [reason Hr]%Hrej.
    destruct (handle_bash_rejected a r sur cmd reason) as [ev Hans]; eauto.
Qed.

(** ** What no grant can cover *)

(** The findings of the script stay in the evaluation of the request. *)
Lemma floor_stays a r sur cmd e : access r = ABash cmd → request_evaluation cfg a r sur = inr e →
  cmd ∉ allowed_bash_commands (st a) → constrains_broad_grant (assessment (evaluate_bash cmd (st a) true)) = true →
  bash_request_floor_requires_prompt e = true ∧ bash_assessment_is_clear e = false.
Proof.
  intros Hacc He Hn (f & Hf & Hfloor)%existsb_elem.
  destruct (request_evaluation_bash _ _ _ _ _ Hacc He) as (e' & -> & _ & Hx & _ & Hsub). apply Hsub in Hf.
  rewrite bool_decide_eq_false_2 in Hx by done. simpl. rewrite Hx. split.
  - simpl. apply existsb_elem. eauto.
  - by destruct (assessment e'); [set_solver|].
Qed.

(** The fast path of a bash command is for the commands that do nothing. *)
Definition NOOPS : list str := [lit "true"; lit ":"; lit "false"].
Lemma fast_bash r cmd b : access r = ABash cmd → auto_mode_fast_path (access r) (tool_name r) b = FastAllow →
  b = false ∧ one_of (trim cmd) NOOPS = true.
Proof.
  unfold tool_name. intros ->. unfold auto_mode_fast_path. destruct b; [done|].
  assert (Ht : is_auto_mode_allowlisted_tool_name (tool_name_for_access (ABash cmd)) = false) by (by vm_compute).
  rewrite Ht. simpl. fold NOOPS. by destruct (one_of (trim cmd) NOOPS).
Qed.

(** An unprompted allow of an edit that is not guarded by a protected path. *)
Lemma fast_unguarded r acc b : auto_mode_fast_path acc (tool_name r) b = FastAllow → b = false.
Proof. unfold auto_mode_fast_path. by destruct b. Qed.

Lemma guarded_is_edit r : is_protected tilde cfg r = true → ∃ path, access r = AEdit path.
Proof. unfold is_protected, protected_edit. intros [? Hp]%bool_decide_eq_true. destruct (access r); eauto; done. Qed.

Lemma late_guarded a r e p d reason : is_protected tilde cfg r = true →
  pre_decision tilde cfg a r e p = Some (d, reason) → d ≠ DAllow.
Proof.
  intros Hg. destruct (guarded_is_edit _ Hg) as [path Hacc].
  unfold pre_decision, late_pre_decision. rewrite Hacc, Hg, andb_false_r. simpl.
  intros Hp ->. repeat case_match; simplify_eq.
Qed.

(** Outside the always-approve mode, an answer that came without a prompt is not for a
    protected edit. *)
Lemma unprompted_unguarded a r sur ev :
  yolo_mode a = false → answer (handle_request tilde cfg a r sur) = Some (DAllow, ev) → ev_user_prompted ev = false →
  is_protected tilde cfg r = false.
Proof.
  intros Hy Hans Hnp. apply not_true_iff_false. intros Hg. destruct (guarded_is_edit _ Hg) as [path Hacc].
  assert (Hun : unforced tilde cfg a r = false) by (unfold unforced; by rewrite Hg, andb_false_r).
  assert (Hnu : needs_user tilde cfg r = true) by (unfold needs_user; by rewrite Hg).
  destruct (handle_course tilde cfg a r sur) as
    [| | | | |e ? ? Hf| | | |? ? ? ? ? ? ? Hd|? ? ? ? ? ? Hl| |]; try done; try congruence.
  - apply fast_unguarded in Hf. congruence.
  - injection Hans as -> _. destruct (Hd eq_refl). congruence.
  - injection Hans as -> _. by eapply late_guarded.
  - apply ask_user_prompted in Hans. congruence.
Qed.

(** The only ways to an unprompted allow of a script that the grants cannot vouch for. *)
Lemma unvouched_bash a r sur cmd ev :
  yolo_mode a = false → answer (handle_request tilde cfg a r sur) = Some (DAllow, ev) → ev_user_prompted ev = false →
  access r = ABash cmd → cmd ∉ allowed_bash_commands (st a) →
  constrains_broad_grant (assessment (evaluate_bash cmd (st a) true)) = true →
  ∃ e, came_past cfg a r sur e ∧ auto_mode a = true
    ∧ (one_of (trim cmd) NOOPS = true
       ∨ ∃ clf, auto_classifier a = Some clf ∧ verdict (judged cfg a r sur clf e) = VAllow).
Proof.
  intros Hy Hans Hnp Hacc Hn Hfl.
  assert (Hs : ∀ e, came_past cfg a r sur e →
    bash_request_floor_requires_prompt e = true ∧ bash_assessment_is_clear e = false).
  { intros e (He & _). by eapply floor_stays. }
  assert (Hg : ∀ e opts reason, came_past cfg a r sur (Some e) →
    bash_grant_pre_decision cmd e (st a) (yolo_pin cfg) opts ≠ Some (DAllow, reason)).
  { intros e opts reason Hp [Hf _]%bash_grant_allows. destruct (Hs _ Hp). congruence. }
  assert (Hsome : ∀ e, came_past cfg a r sur e → ∃ e', e = Some e').
  { intros e (He & _). destruct (request_evaluation_bash _ _ _ _ _ Hacc He) as (e' & -> & _). eauto. }
  destruct (handle_course tilde cfg a r sur) as
    [| | |e d reason ? Hp Hu Hgr|e Hp ? ? Hc|e Hp [Ha _] Hf|e clf c Hp [Ha _] Hnu Hclf Hv|
     |? ? ? Hp|? ? ? Hp ? ? ? Hd|e p d reason Hp ? Hl| |]; try done; try (destruct (Hs _ Hp); congruence);
    try congruence; try (injection Hans as -> _).
  - destruct (Hsome _ Hp) as [e' ->]. rewrite Hacc in Hgr. by eapply Hg in Hgr.
  - exists e. split_and!; [done..|left]. by eapply fast_bash.
  - exists e. eauto 10.
  - destruct (Hs _ Hp), (Hd eq_refl) as (_ & _ & ?). congruence.
  - destruct (Hsome _ Hp) as [e' ->]. destruct (late_bash _ _ _ _ _ _ _ Hacc Hl) as [opts Hgr]. by eapply Hg in Hgr.
  - apply ask_user_prompted in Hans. congruence.
Qed.

(** C4: What no grant can cover.  Outside the always-approve mode, an edit of a protected
    path (git and agent hooks, [.ssh], the shell's start-up files, [/etc], ...) is never
    allowed without the user being asked.  And a script that writes files, changes the
    environment, runs a nested shell or lets git run code, and that the user did not grant
    word for word, is allowed without a question only in auto mode: when it is one of the
    commands that do nothing, or when the installed classifier allowed it having been shown
    every one of those findings.  No broad grant, safe list, allow rule or sandbox suffices. *)
Theorem floors_need_judgement a r sur ev :
  yolo_mode a = false → answer (handle_request tilde cfg a r sur) = Some (DAllow, ev) → ev_user_prompted ev = false →
  is_protected tilde cfg r = false
  ∧ ∀ cmd, access r = ABash cmd → cmd ∉ allowed_bash_commands (st a) →
      constrains_broad_grant (assessment (evaluate_bash cmd (st a) true)) = true →
      auto_mode a = true
      ∧ (one_of (trim cmd) NOOPS = true
         ∨ ∃ clf findings, auto_classifier a = Some clf
             ∧ verdict (clf (side_query sur) (tool_name r) (ABash cmd) (Some cmd) (classifier_context a findings)) = VAllow
             ∧ ∀ f, f ∈ assessment (evaluate_bash cmd (st a) true) → f ∈ findings).
Proof.
  intros Hy Hans Hnp. split; [by eapply unprompted_unguarded|]. intros cmd Hacc Hn Hfl.
  destruct (unvouched_bash _ _ _ _ _ Hy Hans Hnp Hacc Hn Hfl) as (e & Hp & Ha & [Ht|(clf & Hclf & Hv)]);
    (split; [done|]); [by left|right].
  exists clf, (classifier_assessment e (defers_gate_ask (gates cfg a r))). split_and!; [done| |].
  - unfold judged, access_detail in Hv. by rewrite Hacc in Hv.
  - destruct Hp as (He & _). destruct (request_evaluation_bash _ _ _ _ _ Hacc He) as (e' & -> & _ & _ & _ & Hsub).
    intros f Hff. apply elem_of_insert_if. right. by apply Hsub.
Qed.

(** ** How binding an ask rule is *)

(** What the user has already said about an access that a rule asks about. *)
Definition already_answered (a : Actor) (r : Request) : Prop :=
  match access r with
  | ARead _ | AGrep _ _ => False
  | AWebSearch _ => True
  | AEdit _ => allow_edits_for_session a = true ∧ is_protected tilde cfg r = false
  | AMcp name _ =>
      remember_tool_approvals cfg = true
      ∧ (name ∈ allowed_mcp_tools (st a)
         ∨ ∃ server tool, parse_mcp_qualified_name name = Some (server, tool) ∧ server ∈ allowed_mcp_servers (st a))
  | ABash cmd =>
      remember_tool_approvals cfg = true ∧ shell_file_forced_prompt (gates cfg a r) = false
      ∧ ∃ tree cs, try_parse_shell cmd = Some tree ∧ try_parse_word_only_commands_sequence tree = Some cs
          ∧ Forall (λ c, setup c ∨ granted (st a) c) cs ∧ Forall (covered (st a) true) cs
  | AWebFetch url =>
      ∃ u, url_parse url = Ok u
        ∧ (matcher_check (static_domain_matcher cfg) u = None
           ∨ ∃ host, host_str u = Some host ∧ normalize_domain host ∈ allowed_web_fetch_domains (st a))
  end.

Lemma mcp_granted name s forced remember : mcp_pre_decision name s forced remember = Some DAllow →
  (forced = true → remember = true)
  ∧ (name ∈ allowed_mcp_tools s
     ∨ ∃ server tool, parse_mcp_qualified_name name = Some (server, tool) ∧ server ∈ allowed_mcp_servers s).
Proof.
  unfold mcp_pre_decision, mcp_server_prefix_allowed. destruct (forced && _) eqn:Hr; [done|].
  assert (Hrem : forced = true → remember = true) by (intros ->; by destruct remember).
  case_bool_decide; [by auto|]. destruct (negb (bool_decide (_ = ∅))); simpl; [|done].
  destruct (parse_mcp_qualified_name name) as [[server tool]|]; [|done].
  case_bool_decide; [|done]. intros _. split; [done|]. right. by exists server, tool.
Qed.

Lemma web_granted url s matcher honor reason reason' : web_grant url s matcher honor reason = Some (DAllow, reason') →
  ∃ u, url_parse url = Ok u
    ∧ (matcher_check matcher u = None ∨ ∃ host, host_str u = Some host ∧ normalize_domain host ∈ allowed_web_fetch_domains s).
Proof.
  unfold web_grant. destruct (url_parse url) as [u|]; [|done]. exists u. split; [done|].
  destruct (honor && _) eqn:Hm.
  { bool_to_prop. left. destruct (matcher_check matcher u); [|done]. exfalso. naive_solver. }
  destruct (host_str u) as [host|]; [|done]. case_bool_decide; [|done]. eauto.
Qed.

(** What the remembered grants of a bash command are, when a rule asks. *)
Lemma remembered_bash cmd s x pin reason a r sur e : access r = ABash cmd → s = st a →
  request_evaluation cfg a r sur = inr (Some e) → x = DAllow →
  bash_grant_pre_decision cmd e s pin ASK_FLOOR_REMEMBER = Some (x, reason) →
  ∃ tree cs, try_parse_shell cmd = Some tree ∧ try_parse_word_only_commands_sequence tree = Some cs
    ∧ Forall (λ c, setup c ∨ granted s c) cs ∧ Forall (covered s true) cs.
Proof.
  intros Hacc -> He ->. destruct (request_evaluation_bash _ _ _ _ _ Hacc He) as (e' & [= <-] & Hseg & _ & Hall & _).
  unfold bash_grant_pre_decision.
  destruct (bash_request_floor_requires_prompt (Some e)), (segments e) as [via|?|?|] eqn:Es; try done.
  destruct (all_segments_granted e) eqn:Ea; [|done]. intros _.
  symmetry in Hseg, Hall. unfold evaluate_bash in Hseg, Hall.
  destruct (try_parse_shell cmd) as [tree|]; [|done].
  destruct (try_parse_word_only_commands_sequence tree) as [cs|] eqn:Hcs; [|done].
  exists tree, cs. split_and!; [done..| |].
  - eapply evaluate_segments_spec; [exact Hseg|exact Hall].
  - eapply evaluate_segments_spec. by exists via.
Qed.

Lemma late_answered a r sur e p reason : came_past cfg a r sur e →
  policy_forced_prompt (gates cfg a r) = true →
  pre_decision tilde cfg a r e p = Some (DAllow, reason) → already_answered a r.
Proof.
  intros Hp Hforced Hpre.
  assert (Hl : late_pre_decision tilde cfg a r e p = Some (DAllow, reason)).
  { revert Hpre. unfold pre_decision. destruct (late_pre_decision _ _ _ _ _ _) as [[[] ?]|]; try done.
    by destruct (_ && _). }
  revert Hl. unfold late_pre_decision, already_answered. rewrite Hforced.
  destruct (access r) as [| |path|cmd|name ?|url|] eqn:Hacc; try done.
  - destruct (_ && _) eqn:He; [|by destruct (edit_policy (st a))]. by bool_to_prop.
  - destruct Hp as (He & _). destruct (request_evaluation_bash _ _ _ _ _ Hacc He) as (e' & -> & _).
    destruct (bash_request_floor_requires_prompt _); [done|]. destruct (_ && negb (shell_file_forced_prompt _)) eqn:Hr; [|done].
    bool_to_prop. intros Hg. split_and!; [done..|]. by eapply remembered_bash.
  - destruct (mcp_pre_decision _ _ _ _) as [d|] eqn:Hm; [|done]. intros [= -> _].
    apply mcp_granted in Hm as [Hr ?]. auto.
  - apply web_granted.
Qed.

(** How binding an ask rule is.  When a rule asks about an access (or a gate cannot tell
    and the auto mode may not decide for it), the access is allowed without the user being
    asked only on what the user said before: never for reading and searching files; for a
    command or an MCP tool only if approvals are remembered and every command of the script
    is granted; for an edit only after edits were allowed for the session, and never for a
    protected path.  A web search, and a fetch from an allowed domain, go through. *)
Theorem ask_rules_bind a r sur ev :
  policy_decision (gates cfg a r) = Some DAsk → admits_auto_classifier (gates cfg a r) = false →
  yolo_mode a && negb (shell_forced_prompt (gates cfg a r)) = false →
  answer (handle_request tilde cfg a r sur) = Some (DAllow, ev) →
  ev_user_prompted ev = true ∨ already_answered a r.
Proof.
  intros Hask Hadm Hy Hans.
  assert (Hforced : policy_forced_prompt (gates cfg a r) = true) by (unfold policy_forced_prompt; by rewrite Hask).
  assert (Hun : unforced tilde cfg a r = false) by (unfold unforced; by rewrite Hforced).
  destruct (handle_course tilde cfg a r sur) as
    [| |? ? ? Hyt Hns| | |e ? [_ ?] ?|e ? ? ? [_ ?]| | | |e p d reason Hp _ Hl| |]; try done; try congruence.
  - by rewrite Hyt, Hns in Hy.
  - injection Hans as -> _. right. by eapply late_answered.
  - left. by eapply ask_user_prompted.
Qed.

(** ** Answers when approvals are not remembered *)

Lemma elem_of_options_insert o o' m : o ∈ options_insert o' m → o = o' ∨ o ∈ m.
Proof.
  induction m as [|p m IH]; simpl; [by intros ->%list_elem_of_singleton; left|].
  destruct (str_eqb _ _); rewrite !elem_of_cons; [tauto|]. intros [?|?%IH]; tauto.
Qed.
Lemma elem_of_options_extend o m base : o ∈ options_extend m base → o ∈ m ∨ o ∈ base.
Proof.
  revert m. induction base as [|b base IH]; intros m; [by left|]. rewrite elem_of_cons.
  intros [[?|?]%elem_of_options_insert|?]%(IH (options_insert b m)); tauto.
Qed.
Lemma elem_of_shift_remove o ids m : o ∈ foldl (λ m id, shift_remove id m) m ids → option_id o ∉ ids ∧ o ∈ m.
Proof.
  revert m. induction ids as [|id ids IH]; intros m Ho; [split; [apply not_elem_of_nil|done]|].
  apply IH in Ho as [Hids Ho]. apply list_elem_of_In, filter_In in Ho as [Ho Hid]. apply list_elem_of_In in Ho.
  apply negb_true_iff, str_eqb_neq in Hid. rewrite not_elem_of_cons. done.
Qed.

(** An option whose choice outlives the request. *)
Definition lasting (o : PermissionOption) : bool :=
  match option_kind o with AllowAlwaysKind | RejectAlwaysKind => true | _ => false end.
Definition gated (o : PermissionOption) : bool :=
  negb (lasting o) || one_of (option_id o) (ALLOW_EDITS_SESSION_OPTION_ID :: REMEMBER_TOOL_APPROVALS_GATED_IDS).
Lemma options_gated client acc o : o ∈ build_options_inner client acc → gated o = true.
Proof.
  assert (Hall : ∀ m, forallb gated m = true → o ∈ m → gated o = true).
  { intros m Hm Ho. rewrite forallb_forall in Hm. by apply Hm, list_elem_of_In. }
  destruct acc; simpl; try (by apply Hall).
  - destruct (fancy_client client); [|by apply Hall]. destruct (primary_words cmd) as [ws|]; by apply Hall.
  - destruct (fancy_client client); by apply Hall.
Qed.

(** What is left to choose when approvals are not remembered. *)
Lemma unremembered_option client acc o : o ∈ build_options client false acc → lasting o = true →
  option_id o = ALLOW_EDITS_SESSION_OPTION_ID.
Proof.
  intros Ho Hl. assert (Hb : option_id o ∉ REMEMBER_TOOL_APPROVALS_GATED_IDS ∧ o ∈ build_options_inner client acc).
  { apply elem_of_shift_remove. unfold build_options, prepend_enable_always_approve in Ho.
    destruct (client_supports_enable_always_approve client); [|done].
    apply elem_of_options_extend in Ho as [->%list_elem_of_singleton|?]; done. }
  destruct Hb as [Hg Hin%options_gated]. unfold gated in Hin. rewrite Hl in Hin.
  apply one_of_In, elem_of_cons in Hin as [?|?]; done.
Qed.

(** The answers that are forgotten with the session. *)
Definition momentary (o : PromptOutcome) : bool :=
  match o with
  | OAllowOnce | OAllowEditsForSession | ORejectOnce | OCancelled | OFollowupMessage _ | OError _ => true
  | _ => false
  end.
Lemma unremembered_outcome client acc reply : (∀ v, reply ≠ HubReply v) →
  momentary (prompt_outcome client false acc reply) = true.
Proof.
  intros Hr. destruct reply as [|id meta| | |v|]; try done; [|by destruct (Hr v)]. simpl. unfold map_selected_outcome.
  destruct (options_get id _) as [o|] eqn:Eo; [|done]. apply find_In in Eo as [Hin Hid%str_eqb_eq].
  pose proof (unremembered_option client acc o Hin) as Hl. unfold lasting in Hl. rewrite Hid in Hl.
  destruct (option_kind o); try rewrite (Hl eq_refl); try done.
  unfold reject_once_outcome. repeat case_match; done.
Qed.

(** When approvals are not remembered, an answer leaves nothing behind.  Whatever option
    the client reports as chosen, offered or not, no command, domain, tool or server is
    granted or refused beyond the request: the grants are as before and nothing is
    persisted.  Only edits may be allowed for the rest of the session. *)
Theorem unremembered_answers a r sur :
  remember_tool_approvals cfg = false → (∀ v, reply sur ≠ HubReply v) →
  let h := handle_request tilde cfg a r sur in st (after h) = st a ∧ saved h = [].
Proof.
  intros Hrem Hreply. simpl. destruct (handle_course tilde cfg a r sur) as [| | | | | | | | | | | |e p _ Hp]; try done; [by subst|].
  destruct (passed_unchanged _ _ _ _ _ _ _ Hp) as [Ha _]. unfold ask_user. rewrite Ha, Hrem.
  set (o := if is_closed sur WhilePrompting then _ else _).
  assert (Hm : momentary o = true) by (subst o; destruct (is_closed sur WhilePrompting); [done|by apply unremembered_outcome]).
  clearbody o. assert (Hans : let x := match access r with ABash cmd => answer_bash a cmd o | _ => answer_other r a o end in
    st x.1.1.1 = st a ∧ x.2 = []) by (destruct (access r), o; done).
  destruct (match access r with ABash cmd => _ | _ => _ end) as [[[b d] k] w]. simpl in *. destruct Hans as [<- ->].
  by destruct (prompted_decision_approved d _), (_ && _).
Qed.
End Safety.

(** ** Witnesses *)

Section Demo.
#[local] Existing Instances demo demo_fields demo_fs demo_web key_order demo_json demo_git.

Lemma managed_deny_is_final_witness :
  let h := handle_request id (demo_settings demo_rules_managed None) (demo_actor true true (FixedClassifier VAllow))
             (demo_request (ABash (lit "rm -rf /"))) (demo_surroundings ClientCancelled) in
  saved h = [] ∧ after h = demo_actor true true (FixedClassifier VAllow).
Proof.
  edestruct (managed_deny_is_final id (demo_settings demo_rules_managed None) (demo_actor true true (FixedClassifier VAllow))
    (demo_request (ABash (lit "rm -rf /"))) (demo_surroundings ClientCancelled)) as (Ha & Hs & _).
  { eexists. vm_compute. reflexivity. }
  split; [exact Hs|exact Ha].
Defined.

Definition demo_chain : str := lit "make test; ls".
Definition demo_chain_tree : Tree := default (mkTree (word_node []) true) (demo_parse demo_chain).
Definition demo_chain_commands : list PlainCommand := default [] (try_parse_word_only_commands_sequence demo_chain_tree).
Definition free_settings : Settings := demo_settings (mkConfig [] PromptAsk) None.
Lemma standing_grants_cover_witness :
  demo_chain ∉ allowed_bash_commands demo_state ∧ Forall (covered demo_state true) demo_chain_commands.
Proof.
  assert (Hn : demo_chain ∉ allowed_bash_commands demo_state) by (apply (bool_decide_unpack _); vm_compute; exact I).
  split; [exact Hn|].
  destruct (standing_grants_cover id free_settings (demo_actor false false (FixedClassifier VBlock))
    (demo_request (ABash demo_chain)) (demo_surroundings ClientCancelled) demo_chain demo_chain_tree demo_chain_commands)
    as [Hcov _]; [reflexivity|vm_compute; reflexivity|vm_compute; reflexivity|].
  edestruct Hcov as [Hin|[_ [[Hx _]|Hall]]]; [vm_compute; reflexivity|split; [reflexivity|left; reflexivity]
    |by destruct Hn|discriminate Hx|exact Hall].
Defined.

Lemma floors_need_judgement_witness :
  auto_mode (demo_actor false true (FixedClassifier VAllow)) = true
  ∧ is_protected id free_settings (demo_request (ABash (lit "bash -c ls"))) = false.
Proof.
  split; [reflexivity|].
  eapply (floors_need_judgement id free_settings (demo_actor false true (FixedClassifier VAllow))
    (demo_request (ABash (lit "bash -c ls"))) (demo_surroundings ClientCancelled)); [reflexivity|vm_compute; reflexivity|reflexivity].
Defined.

Lemma ask_rules_bind_witness :
  already_answered id (demo_settings demo_rules_managed None) (demo_actor false false (FixedClassifier VBlock))
    (demo_request (ABash (lit "make"))).
Proof.
  edestruct (ask_rules_bind id (demo_settings demo_rules_managed None) (demo_actor false false (FixedClassifier VBlock))
    (demo_request (ABash (lit "make"))) (demo_surroundings ClientCancelled)) as [Hp|Ha];
    [vm_compute; reflexivity|vm_compute; reflexivity|reflexivity|vm_compute; reflexivity|discriminate Hp|exact Ha].
Defined.

Definition forgetful : Settings := mkSettings (lit "/work") GrokTUI None [] false None.
Lemma unremembered_answers_witness :
  saved (handle_request id forgetful (demo_actor false false (FixedClassifier VBlock)) (demo_request (ABash (lit "npx foo")))
           (demo_surroundings (ClientSelected (lit "allow-always-command") None))) = [].
Proof.
  refine (proj2 (unremembered_answers id forgetful (demo_actor false false (FixedClassifier VBlock))
    (demo_request (ABash (lit "npx foo"))) (demo_surroundings (ClientSelected (lit "allow-always-command") None)) eq_refl _)).
  intros v Hv. discriminate Hv.
Defined.

(** ** Where the code and its comments differ *)

(** How a request is answered: the decision, whether the user was asked, and the reason. *)
Definition outcome_of (c : PermissionConfig) (s : PermissionState) (acc : AccessKind) : option (Decision * bool * option str) :=
  (λ '(d, ev), (d, ev_user_prompted ev, ev_decision_reason ev))
  <$> answer (handle_request id (demo_settings c None) (set_st s (demo_actor false false (FixedClassifier VBlock)))
                (demo_request acc) (demo_surroundings ClientCancelled)).

(** A command of the setup list needs no grant to satisfy an ask rule. *)
Example setup_passes_ask_rule :
  outcome_of (mkConfig [mkRule Ask FBash (Some (lit "sleep")) Glob] PromptAsk) default_state (ABash (lit "sleep 9"))
  = Some (DAllow, false, Some SAFE_COMMAND).
Proof. vm_compute. reflexivity. Qed.
(** A destructive command is approved by an exact grant, and by the blanket grant. *)
Example granted_rm_passes :
  outcome_of (mkConfig [] PromptAsk) (grant_bash_command (lit "rm x") default_state) (ABash (lit "rm x"))
  = Some (DAllow, false, Some SESSION_GRANT).
Proof. vm_compute. reflexivity. Qed.
Example blanket_kill_passes :
  outcome_of (mkConfig [] PromptAsk) (mkState EditAsk true ∅ ∅ ∅ ∅ ∅ ∅ VALIDATED_MCP_SERVER_GRANTS_VERSION) (ABash (lit "kill 5"))
  = Some (DAllow, false, Some SESSION_GRANT).
Proof. vm_compute. reflexivity. Qed.
(** An ask rule about web searches asks nobody. *)
Example web_search_passes_ask_rule :
  outcome_of (mkConfig [mkRule Ask FWebSearch None Glob] PromptAsk) default_state (AWebSearch (lit "q"))
  = Some (DAllow, false, Some SAFE_COMMAND).
Proof. vm_compute. reflexivity. Qed.
(** A domain granted from chat is kept as it was sent, and looked up in normal form. *)
Example chat_domain_never_matches :
  let c := demo_settings (mkConfig [] PromptAsk) None in
  let ask := demo_request (AWebFetch (lit "www.rust-lang.org")) in
  let reply := HubReply (JObject [(lit "outcome", JString (lit "always_approve"));
                 (lit "scope", JObject [(lit "kind", JString (lit "domain")); (lit "value", JString (lit "www.rust-lang.org"))])]) in
  let first := handle_request id c (demo_actor false false (FixedClassifier VBlock)) ask (demo_surroundings reply) in
  let second := handle_request id c (after first) ask (demo_surroundings ClientCancelled) in
  (allowed_web_fetch_domains (st (after first)), (λ '(d, ev), (d, ev_user_prompted ev)) <$> answer second)
  = ({[ lit "www.rust-lang.org" ]}, Some (DCancelled, true)).
Proof. vm_compute. reflexivity. Qed.
End Demo.
