(* ===== verification/ManagerRun.v ===== *)
(** The permission manager over a whole run: the commands of any number of handles, taken one
    by one from the queue.  What stays true of the modes, of the denial counters and of the
    grants, and how the trace of events tells it.

    A step changes the actor only as its event says; the theorems are inductions over [run]
    from that. *)
From Stdlib Require Import String Ascii.
From stdpp Require Import gmap.
From S2P Require Import Prelude RustStr Json Shell LexPath Rules Policy ShellWords ShellAccess GatePreflight NetFilter WebFetch HashIter ExecRisk AutoRisk AutoMode Prompter PermState ManagerBash Manager ManagerCourse.

(** ** What an event says of the counters *)

Definition is_auto_deny (ev : PermissionEvent) : bool := bool_decide (ev_decision_reason ev = Some AUTO_CLASSIFIER_DENY).
(** The classifier allowed, or the user answered. *)
Definition ends_streak (ev : PermissionEvent) : bool :=
  bool_decide (ev_decision_reason ev = Some AUTO_CLASSIFIER_ALLOW)
  || (ev_user_prompted ev && negb (bool_decide (ev_prompt_outcome ev = Some (lit "error")))
      && negb (bool_decide (ev_decision_reason ev = Some REQUESTER_GONE))).
Definition streak_step (n : N) (ev : PermissionEvent) : N :=
  (if is_auto_deny ev then n + 1 else if ends_streak ev then 0 else n)%N.
(** The auto-mode denials in a row, and all of them. *)
Definition streak (evs : list PermissionEvent) : N := foldl streak_step 0%N evs.
Definition auto_denials (evs : list PermissionEvent) : nat := length (List.filter is_auto_deny evs).

(** ** What an event says of the grants *)

(** One entry of the permission state. *)
Inductive Grant :=
| GCommand (c : str) | GGlob (g : str) | GRefusal (c : str) | GDomain (d : str) | GTool (t : str) | GServer (sv : str).
Definition holds (s : PermissionState) (g : Grant) : Prop :=
  match g with
  | GCommand c => c ∈ allowed_bash_commands s
  | GGlob g => g ∈ allowed_bash_globs s
  | GRefusal c => c ∈ disallowed_bash_commands s
  | GDomain d => d ∈ allowed_web_fetch_domains s
  | GTool t => t ∈ allowed_mcp_tools s
  | GServer sv => sv ∈ allowed_mcp_servers s
  end.
(** The user was asked about an access of the grant's kind, and said so. *)
Definition given_in (ev : PermissionEvent) (g : Grant) : Prop :=
  ev_user_prompted ev = true
  ∧ match g with
    | GCommand _ | GGlob _ => ev_access_kind ev = lit "bash" ∧ ev_decision ev = lit "allow"
    | GRefusal _ => ev_access_kind ev = lit "bash" ∧ ev_decision ev = lit "reject"
    | GDomain _ => ev_access_kind ev = lit "web_fetch" ∧ ev_decision ev = lit "allow"
    | GTool t => ev_access_kind ev = lit "mcp" ∧ ev_tool_name ev = lit "mcp:" ++ t ∧ ev_decision ev = lit "allow"
    | GServer sv =>
        ∃ name tool, ev_access_kind ev = lit "mcp" ∧ ev_tool_name ev = lit "mcp:" ++ name
          ∧ parse_mcp_qualified_name name = Some (sv, tool) ∧ ev_decision ev = lit "allow"
    end.
Definition edits_given_in (ev : PermissionEvent) : Prop :=
  ev_user_prompted ev = true ∧ ev_prompt_outcome ev = Some (lit "allow_edits_for_session").

Definition modes (a : Actor) : bool * bool := (yolo_mode a, auto_mode a).

Section Run.
Context `{PolicyEnv, TreeFields, HashOrder, WebEnv, SerdeJson, GitWorld, FileSystem}.
Context (tilde : str → str) (cfg : Settings).

(** ** One request *)

(** The reasons under which grants and lists answer. *)
Definition GRANT_REASONS : list str := [SESSION_DENY; SESSION_GRANT; SAFE_COMMAND; STATIC_ALLOWLIST; PERSISTED_GRANT].

Lemma bash_grant_reason cmd e s pin opts d reason :
  bash_grant_pre_decision cmd e s pin opts = Some (d, reason) → reason ∈ GRANT_REASONS.
Proof. unfold bash_grant_pre_decision. intros Hg. repeat case_match; simplify_eq; set_solver. Qed.
Lemma web_grant_reason url s m honor sr d reason :
  sr ∈ GRANT_REASONS → web_grant url s m honor sr = Some (d, reason) → reason ∈ GRANT_REASONS.
Proof. unfold web_grant. intros Hs Hg. repeat case_match; simplify_eq; set_solver. Qed.
Lemma session_grant_reason acc e s edits m honor pin d reason :
  session_grant_pre_decision acc e s edits m honor pin = Some (d, reason) → reason ∈ GRANT_REASONS.
Proof.
  destruct acc; simpl; try done.
  - destruct edits; [|done]. intros [= <- <-]. set_solver.
  - destruct e as [e|]; [|done]. apply bash_grant_reason.
  - destruct (mcp_pre_decision _ _ _ _); [|done]. intros [= <- <-]. set_solver.
  - apply web_grant_reason. set_solver.
Qed.
Lemma pre_decision_reason a r e p d reason :
  pre_decision tilde cfg a r e p = Some (d, reason) → reason ∈ GRANT_REASONS.
Proof.
  intros Hp. assert (Hl : late_pre_decision tilde cfg a r e p = Some (d, reason)).
  { revert Hp. unfold pre_decision. destruct (late_pre_decision _ _ _ _ _ _) as [[[] ?]|]; try done. by destruct (_ && _). }
  revert Hl. unfold late_pre_decision. destruct (access r); intros Hl;
    try (repeat case_match; simplify_eq; first [by eapply bash_grant_reason|set_solver]).
  - destruct (mcp_pre_decision _ _ _ _); [|done]. injection Hl as <- <-. set_solver.
  - eapply web_grant_reason; [|done]. set_solver.
Qed.

(** What one request does to the actor, as its one event says. *)
Record step_of (a : Actor) (r : Request) (h : Handled) (ev : PermissionEvent) : Prop := {
  step_events : events h = [ev];
  step_answer d ev' : answer h = Some (d, ev') → ev' = ev ∧ ev_decision ev = (decision_wire d).1;
  step_names : ev_tool_id ev = tool_call_id r ∧ ev_tool_name ev = tool_name r ∧ ev_access_kind ev = access_kind_name (access r);
  step_modes : modes (after h) = modes a ∧ ev_yolo_mode ev = yolo_mode a;
  step_yolo : ev_decision_reason ev = Some YOLO → yolo_mode a = true;
  step_streak : auto_consecutive_denials (after h) = streak_step (auto_consecutive_denials a) ev;
  step_total : auto_total_denials (after h) = (auto_total_denials a + if is_auto_deny ev then 1 else 0)%N;
  step_budget : is_auto_deny ev = true →
    (auto_consecutive_denials a < AUTO_DENY_CONSECUTIVE_LIMIT)%N ∧ (auto_total_denials a < AUTO_DENY_TOTAL_LIMIT)%N;
  step_saved : st (after h) = default (st a) (last (saved h));
  step_kept : edit_policy (st (after h)) = edit_policy (st a) ∧ allow_bash_execute (st (after h)) = allow_bash_execute (st a);
  step_grants g : holds (st (after h)) g → holds (st a) g ∨ given_in ev g;
  step_edits : allow_edits_for_session (after h) = true → allow_edits_for_session a = true ∨ edits_given_in ev
}.

Lemma resolve_step a r sur ds c d auto reason : (reason = YOLO → yolo_mode a = true) →
  reason ≠ AUTO_CLASSIFIER_DENY → reason ≠ AUTO_CLASSIFIER_ALLOW →
  step_of a r (resolve a r sur a ds c d auto reason) (emit_event a r sur ds c d auto false None (Some reason)).
Proof.
  intros Hy Hd Ha.
  assert (Hnd : is_auto_deny (emit_event a r sur ds c d auto false None (Some reason)) = false).
  { unfold is_auto_deny. apply bool_decide_eq_false_2. simpl. by intros [= ?]. }
  split; simpl; try done; rewrite ?Hnd; try done; auto; try lia.
  - by intros ? ? [= <- <-].
  - intros [= ?]. auto.
  - unfold streak_step, ends_streak. rewrite Hnd. simpl. rewrite bool_decide_eq_false_2; [done|]. by intros [= ?].
Qed.

(** What an answer of the user does to the actor. *)
Record answered (b : Actor) (r : Request) (x : Answered) : Prop := {
  answered_modes : modes x.1.1.1 = modes b;
  answered_denials : auto_consecutive_denials x.1.1.1 = auto_consecutive_denials b
                     ∧ auto_total_denials x.1.1.1 = auto_total_denials b;
  answered_saved : st x.1.1.1 = default (st b) (last x.2);
  answered_kept : edit_policy (st x.1.1.1) = edit_policy (st b) ∧ allow_bash_execute (st x.1.1.1) = allow_bash_execute (st b);
  answered_grants g ev : holds (st x.1.1.1) g → ev_user_prompted ev = true →
    ev_tool_name ev = tool_name r → ev_access_kind ev = access_kind_name (access r) →
    ev_decision ev = (decision_wire x.1.1.2).1 → holds (st b) g ∨ given_in ev g;
  answered_edits : allow_edits_for_session x.1.1.1 = true →
    allow_edits_for_session b = true ∨ x.1.2 = KAllowEditsForSession
}.

Lemma plainly_answered b r d k : answered b r (plainly b d k).
Proof. split; simpl; auto. Qed.
(** A state with one more entry than before. *)
Lemma persisting_answered b r s d k :
  edit_policy s = edit_policy (st b) → allow_bash_execute s = allow_bash_execute (st b) →
  (∀ g ev, holds s g → ev_user_prompted ev = true → ev_tool_name ev = tool_name r →
     ev_access_kind ev = access_kind_name (access r) → ev_decision ev = (decision_wire d).1 → holds (st b) g ∨ given_in ev g) →
  answered b r (persisting b s d k).
Proof. intros He Hb Hg. split; simpl; auto. Qed.

(** The new entry is the one the event accounts for; the others were there. *)
Ltac new_grant Hacc :=
  apply persisting_answered; [done..|]; intros [] ev Hg ? Hn Hk ?; unfold tool_name in *; rewrite Hacc in *; simpl in *; auto;
  apply elem_of_union in Hg as [->%elem_of_singleton|Hg]; [right; split; [done|]|by left].

Lemma answer_bash_answered b r cmd o : access r = ABash cmd → answered b r (answer_bash b cmd o).
Proof.
  intros Hacc. destruct o; simpl; try apply plainly_answered; new_grant Hacc; done.
Qed.

Lemma answer_other_answered b r o : answered b r (answer_other r b o).
Proof.
  assert (Htool : ∀ name input k, access r = AMcp name input →
    answered b r (persisting b (grant_mcp_tool name (st b)) DAllow k)) by (intros name input k Hacc; new_grant Hacc; done).
  unfold answer_other. destruct o; try apply plainly_answered.
  - destruct (access r) as [| | | |name ?| |] eqn:Hacc; try (by eapply Htool);
      (apply persisting_answered; auto).
  - split; simpl; auto.
  - destruct (access r) eqn:Hacc; try apply plainly_answered. new_grant Hacc; done.
  - destruct (access r) eqn:Hacc; try apply plainly_answered. by eapply Htool.
  - destruct (access r) as [| | | |name ?| |] eqn:Hacc; try apply plainly_answered.
    destruct (parse_mcp_qualified_name name) as [[c tool]|] eqn:Hq; [|by eapply Htool].
    destruct (str_eqb c _); [|by eapply Htool]. new_grant Hacc. by exists name, tool.
Qed.

(** Why the auto mode hands on a request. *)
Definition PASS_REASONS : list str := [NEEDS_USER; AUTO_DENIAL_LIMIT; AUTO_CLASSIFIER_TIMEOUT; AUTO_CLASSIFIER_UNAVAILABLE].
Lemma passed_reason a r sur e p reason : passed tilde cfg a r sur e p → ap_reason p = Some reason → reason ∈ PASS_REASONS.
Proof.
  unfold passed, auto_route, classify_route, act_on_verdict. intros Hp Hr.
  repeat case_match; simplify_eq/=; set_solver.
Qed.
(** The triggers of a prompt. *)
Definition TRIGGERS : list str :=
  PASS_REASONS ++ [POLICY_ASK; BASH_COMMAND_GATE_ASK; SHELL_FILE_GATE_ASK; OPAQUE_SHELL; BASH_REQUEST_FLOOR].
Lemma trigger_listed a r sur e p : passed tilde cfg a r sur e p → trigger_of cfg a r e p ∈ TRIGGERS.
Proof.
  intros Hp. unfold trigger_of, prompt_trigger.
  assert (Hd : ∀ b c : bool, (if b then OPAQUE_SHELL else if c then BASH_REQUEST_FLOOR else NEEDS_USER) ∈ TRIGGERS)
    by (intros [] []; set_solver).
  assert (Ha : ∀ x, x ∈ TRIGGERS → default x (ap_reason p) ∈ TRIGGERS).
  { intros x Hx. destruct (ap_reason p) as [reason|] eqn:Hr; [|done]. apply (passed_reason _ _ _ _ _ _ Hp) in Hr.
    set_solver. }
  match goal with |- default ?t _ ∈ _ => set (x := t) end. assert (Hx : x ∈ TRIGGERS) by apply Hd. clearbody x. clear Hd.
  destruct (is_direct_ask _); [set_solver|]. destruct (defers_gate_ask _); [by apply Ha|].
  destruct (is_ask _); [set_solver|]. destruct (shell_file_forced_prompt _); [set_solver|by apply Ha].
Qed.

(** The reasons that count, which neither a grant nor a prompt gives. *)
Definition COUNTED : list str := [AUTO_CLASSIFIER_DENY; AUTO_CLASSIFIER_ALLOW; REQUESTER_GONE; YOLO].
Lemma uncounted reason : reason ∈ GRANT_REASONS ++ TRIGGERS → reason ∉ COUNTED.
Proof.
  assert (Hall : Forall (λ t, t ∉ COUNTED) (GRANT_REASONS ++ TRIGGERS)) by (apply (bool_decide_unpack _); by vm_compute).
  rewrite Forall_forall in Hall. apply Hall.
Qed.

(** The event of a prompt, in the counts. *)
Lemma asked_streak a r sur ds c d kind (gone : bool) reason n : reason ∈ TRIGGERS →
  let ev := emit_event a r sur ds c d false true (Some (outcome_wire kind)) (Some (if gone then REQUESTER_GONE else reason)) in
  is_auto_deny ev = false ∧ ev_decision_reason ev ≠ Some YOLO
  ∧ streak_step n ev = if negb (str_eqb (outcome_wire kind) (lit "error")) && negb gone then 0%N else n.
Proof.
  intros Ht ev. assert (Hu : reason ∉ COUNTED) by (apply uncounted; set_solver).
  assert (Hr : ∀ x, x ∈ [AUTO_CLASSIFIER_DENY; AUTO_CLASSIFIER_ALLOW; YOLO] → ev_decision_reason ev ≠ Some x).
  { intros x Hx [= Hr]. destruct gone; [|subst x; set_solver]. subst x. revert Hx. apply (bool_decide_unpack _). by vm_compute. }
  assert (Hd : is_auto_deny ev = false) by (apply bool_decide_eq_false_2, Hr; set_solver).
  split_and!; [done|apply Hr; set_solver|].
  unfold streak_step, ends_streak. rewrite Hd, (bool_decide_eq_false_2 (_ = Some AUTO_CLASSIFIER_ALLOW)) by (apply Hr; set_solver).
  assert (Hg : bool_decide (ev_decision_reason ev = Some REQUESTER_GONE) = gone).
  { subst ev. simpl. clear -Hu. destruct gone; [by apply bool_decide_eq_true_2|].
    apply bool_decide_eq_false_2. intros [= ->]. set_solver. }
  rewrite Hg. simpl. destruct (str_eqb _ _) eqn:He.
  - apply str_eqb_eq in He as ->. by rewrite bool_decide_eq_true_2.
  - rewrite bool_decide_eq_false_2; [done|]. intros [= Hx]. by rewrite Hx, str_eqb_refl in He.
Qed.

Lemma ask_user_step a r sur e p : passed tilde cfg a r sur e p → ∃ ev, step_of a r (ask_user cfg a r sur e p) ev.
Proof.
  intros Hp. destruct (passed_unchanged _ _ _ _ _ _ _ Hp) as [Ha Hds]. pose proof (trigger_listed _ _ _ _ _ Hp) as Ht.
  unfold ask_user. rewrite Ha, Hds. set (o := if is_closed sur WhilePrompting then _ else _).
  assert (Hx : answered a r (match access r with ABash cmd => answer_bash a cmd o | _ => answer_other r a o end)).
  { destruct (access r) eqn:Hacc; try apply answer_other_answered. by apply answer_bash_answered. }
  destruct (match access r with ABash cmd => _ | _ => _ end) as [[[b d] k] w]. destruct Hx as [Hm Hdn Hs Hk Hg He]. simpl in *.
  set (b' := match prompted_decision_approved d (outcome_wire k) with Some approved => _ | None => b end).
  assert (Hb : modes b' = modes b ∧ st b' = st b ∧ allow_edits_for_session b' = allow_edits_for_session b
    ∧ auto_consecutive_denials b' = auto_consecutive_denials b ∧ auto_total_denials b' = auto_total_denials b)
    by (subst b'; by destruct (prompted_decision_approved _ _)).
  destruct Hb as (Hbm & Hbs & Hbe & Hbc & Hbt), Hdn as [Hc Htot], Hk as [Hk1 Hk2].
  set (gone := match d with DCancelled => is_closed sur AfterAnswer | _ => false end).
  destruct (asked_streak a r sur (entry_counters a) (ap_class p) d k gone _ (auto_consecutive_denials a) Ht) as (Hnd & Hny & Hst).
  set (ev := emit_event _ _ _ _ _ _ _ _ _ _) in *.
  exists ev. split; simpl; try done; try (destruct (_ && _); simpl; congruence).
  - by intros ? ? [= <- <-].
  - split; [|done]. rewrite <- Hm, <- Hbm. by destruct (_ && _).
  - rewrite Hnd. destruct (_ && _); simpl; lia.
  - destruct (_ && _); simpl; rewrite Hbs; auto.
  - intros g. replace (st _) with (st b) by (by destruct (_ && _)). intros Hh. by apply Hg.
  - replace (allow_edits_for_session _) with (allow_edits_for_session b) by (by destruct (_ && _)).
    intros [?| ->]%He; [by left|by right].
Qed.

Lemma handle_step a r sur : ∃ ev, step_of a r (handle_request tilde cfg a r sur) ev.
Proof.
  assert (Hg : ∀ ds c d auto reason, reason ∈ GRANT_REASONS →
    ∃ ev, step_of a r (resolve a r sur a ds c d auto reason) ev).
  { intros ds c d auto reason Hr. assert (Hu : reason ∉ COUNTED) by (apply uncounted; set_solver).
    eexists. apply resolve_step; [intros ->|intros ->..]; set_solver. }
  destruct (handle_course tilde cfg a r sur) as
    [b ds c ? ->| |e ? ? Hy ?|e d reason honor ? ? Hs| | |e clf c|e clf c ? ? ? ? Hc Ht| | |e p d reason ? ? Hl| |e p ? Hp];
    try (eexists; apply resolve_step; [try done; intros Hr; vm_compute in Hr; discriminate|
           intros Hr; vm_compute in Hr; discriminate..]).
  - eexists. split; simpl; try done; auto. exact (eq_sym (N.add_0_r _)).
  - eapply Hg. by eapply session_grant_reason.
  - eexists. split; simpl; try done; auto; [by intros ? ? [= <- <-]|exact (eq_sym (N.add_0_r _))].
  - eexists. split; simpl; try done; auto. by intros ? ? [= <- <-].
  - eapply Hg. by eapply pre_decision_reason.
  - by eapply ask_user_step.
Qed.

(** ** The modes *)

Inductive Flag := FYolo | FAuto.
Definition flag_of (fl : Flag) (f : Flags) : bool := match fl with FYolo => yolo_state f | FAuto => auto_state f end.
Definition mode_of (fl : Flag) (a : Actor) : bool := match fl with FYolo => yolo_mode a | FAuto => auto_mode a end.
Definition store_of (fl : Flag) (o : Atom) : option bool :=
  match fl, o with FYolo, StoreYolo b | FAuto, StoreAuto b => Some b | _, _ => None end.
(** Handling the command stores to the flag. *)
Definition writes (fl : Flag) (c : PermissionCommand) : bool :=
  existsb (λ o, bool_decide (is_Some (store_of fl o))) (command_stores cfg c).

Lemma store_of_flag fl fl' o b b' : store_of fl o = Some b → store_of fl' o = Some b' → fl = fl'.
Proof. by destruct fl, fl', o. Qed.
Lemma perform_flag fl o s : flag_of fl (flags (perform o s)) = default (flag_of fl (flags s)) (store_of fl o).
Proof. destruct o, fl; simpl; try done; by destruct (stopped s). Qed.
Lemma perform_rest o s : actor (perform o s) = actor s ∧ stopped (perform o s) = stopped s ∧ calls (perform o s) = calls s
  ∧ storing (perform o s) = storing s
  ∧ queue (perform o s) = queue s ++ match o with SendCommand c => if stopped s then [] else [c] | _ => [] end.
Proof. destruct o; simpl; rewrite ?app_nil_r; try done. destruct (stopped s) eqn:E; simpl; by rewrite ?app_nil_r, ?E. Qed.

(** Every store of a call in progress is followed by a command that stores to the same flag. *)
Fixpoint announced (l : list Atom) : Prop :=
  match l with
  | [] => True
  | o :: rest => (∀ fl, is_Some (store_of fl o) → ∃ c, SendCommand c ∈ rest ∧ writes fl c = true) ∧ announced rest
  end.
Lemma call_announced c : announced (call_atoms cfg c).
Proof.
  destruct c; simpl; try (split_and!; try done; intros []; by intros [? [=]]).
  - assert (Hw : writes FYolo (CmdSetYoloMode enabled) = true) by done.
    destruct (clamp_yolo enabled (yolo_pin cfg)) eqn:Hc; simpl.
    + assert (Hw' : writes FAuto (CmdSetYoloMode enabled) = true) by (unfold writes; simpl; by rewrite Hc).
      split_and!; try done; intros [] [? [=]]; eexists; (split; [by repeat constructor|done]).
    + split_and!; try done; intros [] [? [=]]; eexists; (split; [by repeat constructor|done]).
  - destruct enabled; simpl; split_and!; try done; intros [] [? [=]]; eexists; (split; [by repeat constructor|done]).
Qed.

Definition exclusive (a : Actor) : Prop := yolo_mode a && auto_mode a = false.
Definition unpinned (a : Actor) : Prop := is_Some (yolo_pin cfg) → yolo_mode a = false.
Lemma clamp_pinned b : is_Some (yolo_pin cfg) → clamp_yolo b (yolo_pin cfg) = false.
Proof. intros Hp. unfold clamp_yolo. by rewrite bool_decide_eq_true_2, andb_false_r. Qed.

(** No operation of a call, and no store of the actor, turns always-approve on under a pin. *)
Lemma atoms_pinned l : is_Some (yolo_pin cfg) → (∃ c, l = call_atoms cfg c) ∨ (∃ c, l = command_stores cfg c) →
  ∀ o, o ∈ l → o ≠ StoreYolo true.
Proof.
  intros Hp Hl o Ho ->. destruct Hl as [[c ->]|[c ->]]; destruct c; simpl in Ho;
    rewrite ?(clamp_pinned _ Hp) in Ho; try destruct enabled; simpl in Ho; set_solver.
Qed.

Context (system_prompt : str).
Local Notation handles a c := (actor_step tilde system_prompt cfg a c).

(** What a command does to the modes is what the actor then stores. *)
Lemma stores_modes fl a c o : o ∈ command_stores cfg c → is_Some (store_of fl o) → store_of fl o = Some (mode_of fl (after (handles a c))).
Proof.
  destruct c; simpl; try (by intros ?%not_elem_of_nil).
  - destruct (clamp_yolo enabled (yolo_pin cfg)), fl; simpl; rewrite ?elem_of_cons, elem_of_nil;
      intros Ho [? Hs]; destruct_or?; by subst o.
  - destruct enabled, fl, (auto_classifier a); simpl; rewrite ?elem_of_cons, elem_of_nil;
      intros Ho [? Hs]; destruct_or?; by subst o.
Qed.
Lemma unwritten_mode fl a c : writes fl c = false → mode_of fl (after (handles a c)) = mode_of fl a.
Proof.
  destruct c; simpl; try done.
  - intros _. destruct (handle_step a r sur) as [ev Hs]. destruct (step_modes _ _ _ _ Hs) as [[= Hy Ha] _]. by destruct fl.
  - unfold writes. simpl. destruct fl; simpl; [done|]. destruct (clamp_yolo _ _); simpl; [done|].
    by destruct (enabled && _ && _).
  - unfold writes. simpl. by destruct fl, enabled, (auto_classifier a).
Qed.
Lemma command_legal a c : exclusive a → unpinned a → exclusive (after (handles a c)) ∧ unpinned (after (handles a c)).
Proof.
  unfold exclusive, unpinned. intros He Hp. destruct c; simpl; try done.
  - destruct (handle_step a r sur) as [ev Hs]. by destruct (step_modes _ _ _ _ Hs) as [[= -> ->] _].
  - split; [|apply clamp_pinned]. by destruct (clamp_yolo _ _).
  - destruct (auto_classifier a), enabled; simpl; rewrite ?andb_false_r; auto.
Qed.

(** A command that will be handled: in the queue, or to be sent by a call in progress. *)
Definition awaited (s : System) (c : PermissionCommand) : Prop :=
  c ∈ queue s ∨ ∃ l, l ∈ calls s ∧ SendCommand c ∈ l.
(** A flag is the actor's mode, or it will be stored to again. *)
Definition agrees (s : System) (fl : Flag) : Prop :=
  flag_of fl (flags s) = mode_of fl (actor s)
  ∨ (∃ c, awaited s c ∧ writes fl c = true)
  ∨ (∃ o, o ∈ storing s ∧ is_Some (store_of fl o)).

Record mode_inv (s : System) : Prop := {
  inv_legal : exclusive (actor s) ∧ unpinned (actor s);
  inv_calls : Forall announced (calls s);
  inv_storing : Forall (λ o, ∃ fl, store_of fl o = Some (mode_of fl (actor s))) (storing s);
  inv_agree : stopped s = false → ∀ fl, agrees s fl;
  inv_pin : is_Some (yolo_pin cfg) →
    yolo_state (flags s) = false ∧ (∀ l, l ∈ calls s → StoreYolo true ∉ l) ∧ StoreYolo true ∉ storing s
}.

(** A store that is not [StoreYolo true] keeps the flag off. *)
Lemma perform_pinned o s : o ≠ StoreYolo true → yolo_state (flags s) = false → yolo_state (flags (perform o s)) = false.
Proof. intros Ho Hy. pose proof (perform_flag FYolo o s) as Hf. simpl in Hf. rewrite Hf. by destruct o as [[]| | |]. Qed.

Lemma call_begins_inv s c : mode_inv s → mode_inv (with_calls (calls s ++ [call_atoms cfg c]) s).
Proof.
  intros [Hl Hc Hs Ha Hp]. split; simpl; try done.
  - apply Forall_app. split; [done|]. apply Forall_singleton, call_announced.
  - intros Hst fl. destruct (Ha Hst fl) as [?|[(c' & Hin & Hw)|?]]; [by left| |by right; right].
    right; left. exists c'. split; [|done]. destruct Hin as [?|(l & Hl' & ?)]; [by left|right].
    exists l. split; [|done]. simpl. apply elem_of_app. by left.
  - intros Hpin. destruct (Hp Hpin) as (Hy & Hcs & Hst). split_and!; [done| |done].
    intros l [?|Hlast]%elem_of_app; [auto|]. apply list_elem_of_singleton in Hlast as ->. intros Hin.
    by apply (atoms_pinned (call_atoms cfg c) Hpin (or_introl (ex_intro _ c eq_refl)) _ Hin).
Qed.

(** The commands that were awaited still are when a call goes on. *)
Lemma awaited_continues s i o rest c : stopped s = false → calls s !! i = Some (o :: rest) →
  awaited s c → awaited (perform o (with_calls (<[i := rest]> (calls s)) s)) c.
Proof.
  intros Hst Hi Hc. unfold awaited. destruct (perform_rest o (with_calls (<[i := rest]> (calls s)) s)) as (_ & _ & -> & _ & ->).
  simpl. rewrite Hst. destruct Hc as [Hq|(l & Hl & Hin)]; [left; by apply elem_of_app; left|].
  apply list_elem_of_lookup in Hl as [j Hj]. destruct (decide (i = j)) as [<-|Hne].
  - rewrite Hi in Hj. injection Hj as <-. apply elem_of_cons in Hin as [<-|Hin].
    + left. apply elem_of_app. right. by apply list_elem_of_singleton.
    + right. exists rest. split; [|done]. apply list_elem_of_lookup. exists i.
      apply list_lookup_insert_eq. by eapply lookup_lt_Some.
  - right. exists l. split; [|done]. apply list_elem_of_lookup. exists j. by rewrite list_lookup_insert_ne.
Qed.

Lemma call_continues_inv s i o rest : calls s !! i = Some (o :: rest) → mode_inv s →
  mode_inv (perform o (with_calls (<[i := rest]> (calls s)) s)).
Proof.
  intros Hi [Hl Hc Hs Ha Hp]. pose proof (perform_rest o (with_calls (<[i := rest]> (calls s)) s)) as (Ea & Es & Ec & Est & _).
  assert (Hcall : announced (o :: rest)) by (rewrite Forall_lookup in Hc; by eapply Hc).
  split; rewrite ?Ea, ?Es, ?Ec, ?Est; simpl; try done.
  - by apply Forall_insert; [|apply Hcall].
  - intros Hst fl. unfold agrees. rewrite Ea, Est, perform_flag. simpl. destruct (store_of fl o) as [b|] eqn:Eo; simpl.
    + right; left. destruct (proj1 Hcall fl) as (c & Hin & Hw); [by eexists|]. exists c. split; [|done]. right.
      exists rest. rewrite Ec. simpl. split; [|done]. apply list_elem_of_lookup. exists i.
      apply list_lookup_insert_eq. by eapply lookup_lt_Some.
    + destruct (Ha Hst fl) as [?|[(c & Hin & Hw)|?]]; [by left| |by right; right].
      right; left. exists c. split; [|done]. by apply awaited_continues.
  - intros Hpin. destruct (Hp Hpin) as (Hy & Hcs & Hst). assert (Hcall' : StoreYolo true ∉ o :: rest) by (by eapply Hcs, list_elem_of_lookup_2).
    apply not_elem_of_cons in Hcall' as [Hne Hrest]. split_and!; [by apply perform_pinned| |done].
    intros l Hl'. apply list_elem_of_lookup in Hl' as [j Hj]. apply list_lookup_insert_Some in Hj as [(_ & <- & _)|[_ Hj]]; [done|].
    by eapply Hcs, list_elem_of_lookup_2.
Qed.

Lemma actor_stores_inv s o rest : storing s = o :: rest → mode_inv s → mode_inv (perform o (with_storing rest s)).
Proof.
  intros Ho [Hl Hc Hs Ha Hp]. pose proof (perform_rest o (with_storing rest s)) as (Ea & Es & Ec & Est & Eq).
  rewrite Ho in Hs. apply Forall_cons in Hs as [[fl' Hfl] Hs].
  split; rewrite ?Ea, ?Es, ?Ec, ?Est; simpl; try done.
  - intros Hst fl. unfold agrees, awaited. rewrite Ea, Ec, Est, Eq, perform_flag. simpl.
    destruct (store_of fl o) as [b|] eqn:Eo; simpl.
    + pose proof (store_of_flag _ _ _ _ _ Eo Hfl) as <-. left. rewrite Hfl in Eo. congruence.
    + destruct (Ha Hst fl) as [?|[(c & Hin & Hw)|(o' & Hin & Hw)]]; [by left|right; left|right; right].
      * exists c. split; [|done]. destruct Hin as [?|?]; [left; apply elem_of_app; by left|by right].
      * exists o'. split; [|done]. rewrite Ho in Hin. apply elem_of_cons in Hin as [->|?]; [|done].
        rewrite Eo in Hw. by destruct Hw.
  - intros Hpin. destruct (Hp Hpin) as (Hy & Hcs & Hst). rewrite Ho, not_elem_of_cons in Hst.
    destruct Hst as [Hne Hrest]. split_and!; [by apply perform_pinned|done|done].
Qed.

Lemma actor_takes_inv a f c q cs : mode_inv (mkSystem a f (c :: q) false cs []) →
  mode_inv (mkSystem (after (handles a c)) f q (match c with CmdShutdown => true | _ => false end) cs (command_stores cfg c)).
Proof.
  intros [[He Hu] Hc _ Ha Hp]. simpl in *. split; simpl; try done.
  - by apply command_legal.
  - apply Forall_forall. intros o Ho. assert (Hst : ∃ fl, is_Some (store_of fl o)).
    { destruct c; simpl in Ho; try (by apply not_elem_of_nil in Ho).
      - destruct (clamp_yolo _ _); simpl in Ho; rewrite ?elem_of_cons, elem_of_nil in Ho; destruct_or?; subst o; first [exists FYolo; by eexists|exists FAuto; by eexists].
      - destruct enabled; simpl in Ho; rewrite ?elem_of_cons, elem_of_nil in Ho; destruct_or?; subst o; first [exists FYolo; by eexists|exists FAuto; by eexists]. }
    destruct Hst as [fl Hst]. exists fl. by apply stores_modes.
  - intros _ fl. unfold agrees. simpl. destruct (writes fl c) eqn:Hw.
    { right; right. unfold writes in Hw. apply existsb_elem in Hw as (o & Ho & Hs%bool_decide_eq_true). eauto. }
    rewrite (unwritten_mode _ _ _ Hw). destruct (Ha eq_refl fl) as [?|[(c' & Hin & Hw')|(o & Ho & _)]];
      [by left|right; left|by apply not_elem_of_nil in Ho].
    exists c'. split; [|done]. destruct Hin as [Hin|?]; [|by right]. simpl in Hin. apply elem_of_cons in Hin as [->|?]; [congruence|by left].
  - intros Hpin. destruct (Hp Hpin) as (Hy & Hcs & _). split_and!; [done..|]. intros Hin.
    by apply (atoms_pinned (command_stores cfg c) Hpin (or_intror (ex_intro _ c eq_refl)) _ Hin).
Qed.

Lemma mode_inv_run loaded yolo s hs : run tilde system_prompt cfg loaded yolo s hs → mode_inv s.
Proof.
  induction 1 as [|s hs h s' _ IH Hs].
  - split; simpl; try done.
    + unfold exclusive, unpinned. simpl. unfold seed_auto_of, initial_yolo_of. split; [by destruct (clamp_yolo yolo (yolo_pin cfg))|by apply clamp_pinned].
    + intros _ []; by left.
    + intros Hpin. split_and!; [by apply clamp_pinned|intros l ?%not_elem_of_nil; done|apply not_elem_of_nil].
  - destruct Hs; [by apply call_begins_inv|by eapply call_continues_inv|by apply actor_stores_inv|by apply actor_takes_inv].
Qed.
End Run.
