(* ===== verification/ManagerTrace.v ===== *)
(** The claims on whole runs of the permission manager: the modes, the denial budget of the
    auto mode, and where every grant comes from. *)
From Stdlib Require Import String Ascii.
From stdpp Require Import gmap.
From S2P Require Import Prelude RustStr Json Shell LexPath Rules Policy PolicySafety ShellWords ShellAccess ShellAccessSafety GatePreflight NetFilter WebFetch HashIter ExecRisk AutoRisk AutoMode Prompter PermState ManagerBash Manager ManagerCourse ManagerDemo ManagerRun.

(** The trace of a run. *)
Definition all_events (hs : list Handled) : list PermissionEvent := concat (events <$> hs).

Lemma all_events_snoc hs h : all_events (hs ++ [h]) = all_events hs ++ events h.
Proof. unfold all_events. rewrite fmap_app, concat_app. simpl. by rewrite app_nil_r. Qed.
Lemma streak_snoc evs ev : streak (evs ++ [ev]) = streak_step (streak evs) ev.
Proof. unfold streak. by rewrite foldl_app. Qed.
Lemma auto_denials_app evs evs' : auto_denials (evs ++ evs') = auto_denials evs + auto_denials evs'.
Proof. unfold auto_denials. by rewrite List.filter_app, length_app. Qed.
Lemma auto_denials_one ev : auto_denials [ev] = if is_auto_deny ev then 1 else 0.
Proof. unfold auto_denials. simpl. by destruct (is_auto_deny ev). Qed.

(** A stretch in which nothing ends the streak adds to it. *)
Lemma streak_stretch evs stretch : Forall (λ ev, ends_streak ev = false) stretch →
  streak (evs ++ stretch) = (streak evs + N.of_nat (auto_denials stretch))%N.
Proof.
  induction stretch as [|ev stretch IH] using rev_ind; intros Hall; [rewrite app_nil_r; symmetry; apply N.add_0_r|].
  apply Forall_app in Hall as [Hall Hev]. rewrite Forall_singleton in Hev.
  rewrite app_assoc, streak_snoc, IH, auto_denials_app by done. unfold streak_step. rewrite Hev.
  rewrite auto_denials_one. destruct (is_auto_deny ev); lia.
Qed.

Lemma more_evidence (Q : PermissionEvent → Prop) evs ev :
  (∃ ev', ev' ∈ evs ∧ Q ev') ∨ Q ev → ∃ ev', ev' ∈ evs ++ [ev] ∧ Q ev'.
Proof.
  intros [(ev' & Hin & Hq)|Hq]; [exists ev'|exists ev]; (split; [apply elem_of_app|done]); [by left|right].
  by apply list_elem_of_singleton.
Qed.

Section Trace.
Context `{PolicyEnv, TreeFields, HashOrder, WebEnv, SerdeJson, GitWorld, FileSystem}.
Context (tilde : str → str) (system_prompt : str) (cfg : Settings) (loaded : PermissionState) (yolo : bool).

Local Notation runs s hs := (run tilde system_prompt cfg loaded yolo s hs).

Local Notation handles a c := (actor_step tilde system_prompt cfg a c).

(** A command other than a request leaves no event. *)
Lemma command_step a c : let h := handles a c in
  (∃ r ev, step_of a r h ev)
  ∨ (events h = [] ∧ answer h = None ∧ auto_consecutive_denials (after h) = auto_consecutive_denials a
     ∧ auto_total_denials (after h) = auto_total_denials a
     ∧ ((saved h = [] ∧ st (after h) = st a ∧ allow_edits_for_session (after h) = allow_edits_for_session a)
        ∨ (saved h = [default_state] ∧ st (after h) = default_state ∧ allow_edits_for_session (after h) = false))).
Proof.
  destruct c; simpl; try (right; split_and!; try done; by auto).
  - left. exists r. apply handle_step.
  - right. destruct (enabled && _ && _); split_and!; auto.
  - right. destruct enabled, (auto_classifier a); split_and!; auto.
Qed.

Lemma sstep_actor s h s' : sstep tilde system_prompt cfg s h s' →
  match h with
  | Some h => ∃ c, h = handles (actor s) c ∧ actor s' = after h
  | None => actor s' = actor s
  end.
Proof.
  intros Hs. destruct Hs as [| | |a f c q cs]; [done|..].
  - by destruct (perform_rest o (with_calls (<[i:=rest]> (calls s)) s)) as (-> & _).
  - by destruct (perform_rest o (with_storing rest s)) as (-> & _).
  - by exists c.
Qed.

(** What holds at the start and is kept by every command holds of the actor and the trace of
    every run. *)
Lemma run_invariant (P : Actor → list Handled → Prop) :
  P (start_actor system_prompt cfg loaded yolo) [] →
  (∀ a hs c, P a hs → P (after (handles a c)) (hs ++ [handles a c])) →
  ∀ s hs, runs s hs → P (actor s) hs.
Proof.
  intros Hstart Hkeep s hs. induction 1 as [|s hs h s' _ IH Hs]; [done|].
  apply sstep_actor in Hs. destruct h as [h|]; [destruct Hs as (c & -> & ->); by apply Hkeep|].
  by rewrite Hs, app_nil_r.
Qed.

(** ** The modes *)

(** Every call is done, every command handled, every flag stored. *)
Definition at_rest (s : System) : Prop :=
  stopped s = false ∧ queue s = [] ∧ storing s = [] ∧ Forall (λ l, l = []) (calls s).

(** C26: The two modes.  In every run, with any number of calls in progress on any threads whose
    stores and sends interleave with each other and with the actor's own stores, the actor
    never decides with always-approve and auto both on; whenever no call is in progress, the
    queue is empty and the actor's stores are done, the flags the handles read are the modes
    the actor decides by; and under a managed pin always-approve never comes on, neither in
    the actor nor for a moment in the flag, so that no request is approved by it. *)
Theorem modes_agree s hs : runs s hs →
  yolo_mode (actor s) && auto_mode (actor s) = false
  ∧ (at_rest s → yolo_state (flags s) = yolo_mode (actor s) ∧ auto_state (flags s) = auto_mode (actor s))
  ∧ (is_Some (yolo_pin cfg) →
     yolo_mode (actor s) = false ∧ yolo_state (flags s) = false
     ∧ ∀ ev, ev ∈ all_events hs → ev_yolo_mode ev = false ∧ ev_decision_reason ev ≠ Some YOLO).
Proof.
  intros Hrun. pose proof (mode_inv_run _ _ _ _ _ _ _ Hrun) as [[He Hu] _ _ Ha Hp]. split_and!; [done| |].
  - intros (Hst & Hq & Hsto & Hc). assert (Hrest : ∀ fl, flag_of fl (flags s) = mode_of fl (actor s)).
    { intros fl. destruct (Ha Hst fl) as [?|[(c & [Hin|(l & Hl & Hin)] & _)|(o & Hin & _)]]; [done|..].
      - rewrite Hq in Hin. by apply not_elem_of_nil in Hin.
      - rewrite Forall_forall in Hc. rewrite (Hc l Hl) in Hin. by apply not_elem_of_nil in Hin.
      - rewrite Hsto in Hin. by apply not_elem_of_nil in Hin. }
    exact (conj (Hrest FYolo) (Hrest FAuto)).
  - intros Hpin. split_and!; [by apply Hu|by apply Hp|]. clear - Hrun Hpin.
    induction Hrun as [|s hs h s' Hrun IH Hs]; [intros ev []%not_elem_of_nil|].
    destruct (mode_inv_run _ _ _ _ _ _ _ Hrun) as [[_ Hu] _ _ _ _].
    apply sstep_actor in Hs. destruct h as [h|]; [|by rewrite app_nil_r]. destruct Hs as (c & -> & _).
    intros ev. rewrite all_events_snoc, elem_of_app. intros [?|Hev]; [auto|].
    destruct (command_step (actor s) c) as [(r & ev' & Hst)|(Hno & _)]; [|by rewrite Hno in Hev; apply not_elem_of_nil in Hev].
    rewrite (step_events _ _ _ _ Hst), list_elem_of_singleton in Hev. subst ev'.
    specialize (Hu Hpin). split; [|intros Hy].
    + by destruct (step_modes _ _ _ _ Hst) as [_ ->].
    + apply (step_yolo _ _ _ _ Hst) in Hy. congruence.
Qed.

(** ** The denial budget *)

Definition budget_inv (a : Actor) (hs : list Handled) : Prop :=
  auto_consecutive_denials a = streak (all_events hs)
  ∧ auto_total_denials a = N.of_nat (auto_denials (all_events hs))
  ∧ (auto_denials (all_events hs) ≤ 20)%nat
  ∧ ∀ evs rest, all_events hs = evs ++ rest → (streak evs ≤ AUTO_DENY_CONSECUTIVE_LIMIT)%N.

Lemma budget_inv_run s hs : runs s hs → budget_inv (actor s) hs.
Proof.
  revert s hs. apply run_invariant.
  { split_and!; try done; [apply Nat.le_0_l|]. intros [|? evs] rest; done. }
  intros a hs c (Hc & Ht & Hb & Hp). unfold budget_inv. rewrite all_events_snoc.
  destruct (command_step a c) as [(r & ev & Hst)|(Hno & _ & Hc' & Ht' & _)]; [|by rewrite Hno, app_nil_r, Hc', Ht'].
  rewrite (step_events _ _ _ _ Hst), streak_snoc, auto_denials_app.
  pose proof (step_streak _ _ _ _ Hst) as Hk. pose proof (step_total _ _ _ _ Hst) as Htot.
  pose proof (step_budget _ _ _ _ Hst) as Hbud. rewrite <- Hc, auto_denials_one.
  unfold AUTO_DENY_CONSECUTIVE_LIMIT, AUTO_DENY_TOTAL_LIMIT in *.
  assert (Hlast : (streak_step (auto_consecutive_denials a) ev ≤ 3)%N).
  { unfold streak_step in *. specialize (Hp _ [] (eq_sym (app_nil_r _))). rewrite <- Hc in Hp.
    destruct (is_auto_deny ev); [destruct (Hbud eq_refl); lia|]. destruct (ends_streak ev); lia. }
  split_and!; [done|rewrite Htot, Ht; destruct (is_auto_deny ev); simpl; lia| |].
  - destruct (is_auto_deny ev); simpl; [destruct (Hbud eq_refl); lia|lia].
  - intros evs rest Heq. destruct rest as [|x rest] using rev_ind.
    + rewrite app_nil_r in Heq. subst evs. by rewrite streak_snoc, <- Hc.
    + rewrite app_assoc in Heq. apply app_inj_tail in Heq as [Heq _]. by eapply Hp.
Qed.

(** The denial budget of the auto mode.  The actor's two counters are what the trace
    says: the classifier's denials since it last allowed or the user last answered, and all
    of its denials.  A run has at most twenty denials by the classifier, and no stretch of
    the trace without an answer of the user and without an allow of the classifier has more
    than three; beyond that a blocked request goes to the user. *)
Theorem denial_budget s hs : runs s hs →
  auto_consecutive_denials (actor s) = streak (all_events hs)
  ∧ auto_total_denials (actor s) = N.of_nat (auto_denials (all_events hs))
  ∧ (auto_denials (all_events hs) ≤ 20)%nat
  ∧ ∀ before stretch rest, all_events hs = before ++ stretch ++ rest →
      Forall (λ ev, ends_streak ev = false) stretch → (auto_denials stretch ≤ 3)%nat.
Proof.
  intros (Hc & Ht & Hb & Hp)%budget_inv_run. split_and!; [done..|].
  intros before stretch rest Heq Hall. rewrite app_assoc in Heq. apply Hp in Heq.
  rewrite streak_stretch in Heq by done. unfold AUTO_DENY_CONSECUTIVE_LIMIT in Heq. lia.
Qed.

(** ** Where the grants come from *)

(** A reset leaves no event and hands a state to the writer. *)
Definition is_reset (h : Handled) : bool := match events h, saved h with [], _ :: _ => true | _, _ => false end.
(** The state a run started from or was last reset to, and what happened since. *)
Definition epoch (hs : list Handled) : PermissionState * list Handled :=
  foldl (λ x h, if is_reset h then (default_state, []) else (x.1, x.2 ++ [h])) (loaded, []) hs.
Lemma epoch_snoc hs h : epoch (hs ++ [h]) = if is_reset h then (default_state, []) else ((epoch hs).1, (epoch hs).2 ++ [h]).
Proof. unfold epoch. by rewrite foldl_app. Qed.

Definition last_saved (hs : list Handled) : PermissionState := default loaded (last (concat (saved <$> hs))).
Lemma last_saved_snoc hs h : last_saved (hs ++ [h]) = default (last_saved hs) (last (saved h)).
Proof.
  unfold last_saved. rewrite fmap_app, concat_app. simpl. rewrite app_nil_r, last_app. by destruct (last (saved h)).
Qed.

Definition grants_inv (a : Actor) (hs : list Handled) : Prop :=
  st a = last_saved hs
  ∧ (edit_policy (st a) = edit_policy (epoch hs).1 ∧ allow_bash_execute (st a) = allow_bash_execute (epoch hs).1)
  ∧ (∀ g, holds (st a) g → holds (epoch hs).1 g ∨ ∃ ev, ev ∈ all_events (epoch hs).2 ∧ given_in ev g)
  ∧ (allow_edits_for_session a = true → ∃ ev, ev ∈ all_events (epoch hs).2 ∧ edits_given_in ev)
  ∧ Forall (λ h, ∀ d ev, answer h = Some (d, ev) → events h = [ev] ∧ ev_decision ev = (decision_wire d).1) hs.

Lemma grants_inv_run s hs : runs s hs → grants_inv (actor s) hs.
Proof.
  revert s hs. apply run_invariant.
  { split_and!; try done; by left. }
  intros a hs c (Hst & [He Hb] & Hg & Hed & Hans). unfold grants_inv.
  rewrite epoch_snoc, last_saved_snoc, Forall_app, Forall_singleton.
  destruct (command_step a c) as [(r & ev & Hev)|(Hnil & Hno & _ & _ & [(Hsv & Hs' & Hed')|(Hsv & Hs' & Hed')])].
  - assert (Hres : is_reset (handles a c) = false) by (unfold is_reset; by rewrite (step_events _ _ _ _ Hev)).
    rewrite Hres. simpl. rewrite all_events_snoc, (step_events _ _ _ _ Hev). destruct (step_kept _ _ _ _ Hev) as [-> ->].
    split_and!; [by rewrite (step_saved _ _ _ _ Hev), Hst|done|done| | |done|].
    + intros g [[?|Hh]%Hg|Hh]%(step_grants _ _ _ _ Hev); [by left|right; apply more_evidence; auto..].
    + intros [Hh%Hed|Hh]%(step_edits _ _ _ _ Hev); apply more_evidence; auto.
    + intros d ev' [-> ?]%(step_answer _ _ _ _ Hev). done.
  - unfold is_reset. rewrite Hnil, Hsv, Hs', Hed'. simpl. rewrite all_events_snoc, Hnil, app_nil_r. split_and!; try done.
    by rewrite Hno.
  - unfold is_reset. rewrite Hnil, Hsv, Hs', Hed'. split_and!; auto; [done|]. by rewrite Hno.
Qed.

(** C6: Every grant is the user's.  At every moment of a run the state the actor decides by is
    the last one handed to the writer (or the one loaded); a remembered command, glob,
    domain, MCP tool or server, and every refusal, was in the state the run started from or
    was given in answer to a prompt since the last reset, for an access of that kind (for an
    MCP tool: for that very tool; for a server: for one of its tools); session-wide edits
    come from such an answer too, and nothing a run does turns the edit policy or the
    blanket bash grant on.  And each answered request left the one event that carries its
    decision. *)
Theorem grants_are_the_users s hs : runs s hs →
  st (actor s) = last_saved hs
  ∧ (edit_policy (st (actor s)) = edit_policy (epoch hs).1
     ∧ allow_bash_execute (st (actor s)) = allow_bash_execute (epoch hs).1)
  ∧ (∀ g, holds (st (actor s)) g → holds (epoch hs).1 g ∨ ∃ ev, ev ∈ all_events (epoch hs).2 ∧ given_in ev g)
  ∧ (allow_edits_for_session (actor s) = true → ∃ ev, ev ∈ all_events (epoch hs).2 ∧ edits_given_in ev)
  ∧ Forall (λ h, ∀ d ev, answer h = Some (d, ev) → events h = [ev] ∧ ev_decision ev = (decision_wire d).1) hs.
Proof. apply grants_inv_run. Qed.

(** ** Scripted runs *)

(** One move of a scripted run; a move that is not possible changes nothing. *)
Inductive Move := Begin (c : HandleCall) | Continue (i : nat) | Store | Take.
Definition make_move (x : System * list Handled) (m : Move) : System * list Handled :=
  let '(s, hs) := x in
  match m with
  | Begin c => (with_calls (calls s ++ [call_atoms cfg c]) s, hs)
  | Continue i =>
      match calls s !! i with
      | Some (o :: rest) => (perform o (with_calls (<[i := rest]> (calls s)) s), hs)
      | _ => x
      end
  | Store => match storing s with o :: rest => (perform o (with_storing rest s), hs) | [] => x end
  | Take =>
      match s with
      | mkSystem a f (c :: q) false cs [] =>
          (mkSystem (after (handles a c)) f q (match c with CmdShutdown => true | _ => false end) cs (command_stores cfg c),
           hs ++ [handles a c])
      | _ => x
      end
  end.
Definition play (ms : list Move) : System * list Handled := foldl make_move (start_system system_prompt cfg loaded yolo, []) ms.

Lemma run_silent s hs s' : runs s hs → sstep tilde system_prompt cfg s None s' → runs s' hs.
Proof. intros Hr Hs. rewrite <- (app_nil_r hs). by apply (run_step _ _ _ _ _ s hs None). Qed.
Lemma play_runs ms : runs (play ms).1 (play ms).2.
Proof.
  induction ms as [|m ms IH] using rev_ind; [apply run_start|].
  unfold play in *. rewrite foldl_app. simpl. destruct (foldl _ _ ms) as [s hs]. simpl in *. destruct m as [c|i| |]; simpl.
  - by eapply run_silent; [|constructor].
  - destruct (calls s !! i) as [[|o rest]|] eqn:Ei; simpl; try done. by eapply run_silent; [|constructor].
  - destruct (storing s) as [|o rest] eqn:Es; simpl; [done|]. by eapply run_silent; [|constructor].
  - destruct s as [a f [|c q] [] cs [|o l]]; simpl; try done.
    eapply (run_step _ _ _ _ _ _ hs (Some (handles a c))); [exact IH|constructor].
Qed.
End Trace.

(** ** Witnesses *)

Section Demo.
#[local] Existing Instances demo demo_fields demo_fs demo_web key_order demo_json demo_git.

Definition auto_settings (pin : option str) : Settings := demo_settings (mkConfig [] PromptAuto) pin.
Definition ask_about (cmd : str) (reply : PromptReply) : HandleCall :=
  RequestDecision (demo_request (ABash cmd)) (demo_surroundings reply).

(** Two threads switch to different modes and their stores cross; both flags are off while the
    commands are still queued. *)
Definition crossed : list Move :=
  [Begin (SetYoloMode true); Begin (SetAutoMode true); Continue 0; Continue 1; Continue 1; Continue 0; Continue 0; Continue 1].
Definition both_off (x : System * list Handled) : bool * bool := (yolo_state (flags x.1), auto_state (flags x.1)).
Example crossed_stores : both_off (play id [] (auto_settings None) demo_state false crossed) = (false, false).
Proof. vm_compute. reflexivity. Qed.
Definition settled : System * list Handled :=
  play id [] (auto_settings None) demo_state false (crossed ++ [Take; Store; Store; Take; Store; Store]).
Lemma modes_agree_witness :
  yolo_state (flags settled.1) = yolo_mode (actor settled.1) ∧ auto_state (flags settled.1) = auto_mode (actor settled.1).
Proof.
  apply (modes_agree id [] (auto_settings None) demo_state false settled.1 settled.2 (play_runs _ _ _ _ _ _)).
  split; [reflexivity|]. split; [reflexivity|]. split; [reflexivity|].
  assert (Hc : calls settled.1 = [[]; []]) by (vm_compute; reflexivity). rewrite Hc. by repeat constructor.
Defined.

(** Four blocked commands: three are denied, the fourth goes to the user, who cancels. *)
Definition blocked : System * list Handled :=
  play id [] (auto_settings None) demo_state false
    ([Begin (SetClassifier (Some (FixedClassifier VBlock))); Continue 0; Continue 0; Take]
     ++ concat ((λ i, [Begin (ask_about (lit "npx foo") ClientCancelled); Continue i; Take]) <$> [1; 2; 3; 4])).
Example four_blocked :
  (auto_denials (all_events blocked.2), streak (all_events blocked.2), ev_user_prompted <$> all_events blocked.2)
  = (3, 0%N, [false; false; false; true]).
Proof. vm_compute. reflexivity. Qed.
Lemma denial_budget_witness :
  auto_total_denials (actor blocked.1) = N.of_nat (auto_denials (all_events blocked.2)) ∧ auto_denials (all_events blocked.2) ≤ 20.
Proof.
  destruct (denial_budget id [] (auto_settings None) demo_state false blocked.1 blocked.2 (play_runs _ _ _ _ _ _))
    as (_ & Ht & Hb & _). split; [exact Ht|exact Hb].
Defined.

(** A command granted at a prompt. *)
Definition granting : System * list Handled :=
  play id [] (demo_settings (mkConfig [] PromptAsk) None) demo_state false
    [Begin (ask_about (lit "npx foo") (ClientSelected (lit "allow-always-command") None)); Continue 0; Take].
Lemma grants_are_the_users_witness :
  ∃ ev, ev ∈ all_events (epoch demo_state granting.2).2 ∧ given_in ev (GCommand (lit "npx foo")).
Proof.
  destruct (grants_are_the_users id [] (demo_settings (mkConfig [] PromptAsk) None) demo_state false
    granting.1 granting.2 (play_runs _ _ _ _ _ _)) as (_ & _ & Hg & _).
  destruct (Hg (GCommand (lit "npx foo"))) as [Hold|Hnew]; [| |exact Hnew].
  - apply (bool_decide_unpack (lit "npx foo" ∈ allowed_bash_commands (st (actor granting.1)))). vm_compute. exact I.
  - exfalso. revert Hold. apply (bool_decide_unpack (lit "npx foo" ∉ allowed_bash_commands demo_state)). vm_compute. exact I.
Defined.
End Demo.
