(* ===== verification/Conversation.v ===== *)
(** The conversation with the model
    (crates/codegen/xai-grok-sampling-types/src/conversation.rs): its items, the request
    and the response built of them, the pairing of tool calls with their results and its
    repair, and the cut of a conversation at a prompt.

    The items of the Responses API ([rs::ReasoningItem] and the backend tool calls) are
    records of the fields the source reads. *)
From stdpp Require Import base list strings.
From S2P Require Import Prelude RustStr Json.
Open Scope N_scope.

(** * Items *)

Inductive ContentPart := PText (text : str) | PImage (url : str).

Inductive SyntheticReason :=
  | CompactionMeta | SystemReminder | ProjectInstructions | AutoContinue | AutoRecovery | Interjection
  | TaskCompleted | SubagentCompleted | NotificationDrain | GoalSummary | GoalClassifierNudge
  | SchedulerFired | StopHookFeedback | WorkingDirectorySwitch | UnknownReason.

Definition starts_prompt_turn (r : SyntheticReason) : bool :=
  match r with
  | TaskCompleted | SubagentCompleted | NotificationDrain | GoalClassifierNudge | SchedulerFired => true
  | CompactionMeta | SystemReminder | ProjectInstructions | AutoContinue | AutoRecovery | Interjection
  | GoalSummary | StopHookFeedback | WorkingDirectorySwitch | UnknownReason => false
  end.

Inductive PriorTurnInterrupt := MidTurnAbort | PermissionRejected | PermissionCancelled | UnknownInterrupt.

Record UserItem := mkUser {
  user_content : list ContentPart;
  synthetic_reason : option SyntheticReason;
  cwd_generation : option N;
  prior_turn_interrupt : option PriorTurnInterrupt;
  prompt_index : option nat
}.

Record ToolCall := mkCall { call_id : str; call_name : str; arguments : str }.

Record AssistantItem := mkAssistant {
  assistant_content : str;
  tool_calls : list ToolCall;
  model_id : option str;
  model_fingerprint : option str;
  reasoning_effort : option str
}.

Record ToolResultItem := mkToolResult {
  tool_call_id : str;
  result_content : str;
  result_images : list ContentPart
}.

Inductive WebSearchAction :=
  | ActSearch (query : str) | ActOpenPage (url : option str) | ActFind (pattern url : str) | ActFindInPage (pattern url : str).
Inductive BackendToolKind :=
  | KWebSearch (id : str) (action : WebSearchAction)
  | KXSearch (id name input : str)
  | KCodeInterpreter (id : str) (code : option str).

Record ReasoningItem := mkReasoning {
  reasoning_id : str;
  summary : list str;
  reasoning_content : option (list str);
  encrypted_content : option str;
  reasoning_status : option str
}.

Inductive ConversationItem :=
  | CSystem (content : str)
  | CUser (u : UserItem)
  | CAssistant (a : AssistantItem)
  | CToolResult (t : ToolResultItem)
  | CBackend (k : BackendToolKind)
  | CReasoning (r : ReasoningItem).

#[export] Instance ContentPart_eq_dec : EqDecision ContentPart.
Proof. solve_decision. Defined.
#[export] Instance SyntheticReason_eq_dec : EqDecision SyntheticReason.
Proof. solve_decision. Defined.
#[export] Instance PriorTurnInterrupt_eq_dec : EqDecision PriorTurnInterrupt.
Proof. solve_decision. Defined.
#[export] Instance ToolCall_eq_dec : EqDecision ToolCall.
Proof. solve_decision. Defined.
#[export] Instance ToolResultItem_eq_dec : EqDecision ToolResultItem.
Proof. solve_decision. Defined.

Definition backend_id (k : BackendToolKind) : str :=
  match k with KWebSearch id _ => id | KXSearch id _ _ => id | KCodeInterpreter id _ => id end.

(** [&c\[..100\]]: [None] when byte 100 is inside a character, where the slice panics. *)
Definition slice_bytes_to (n : nat) (c : str) : option str :=
  let t := take_utf8 n c in if (utf8_len t =? n)%nat then Some t else None.

Definition code_preview (c : str) : option str :=
  if (100 <? utf8_len c)%nat then (λ p, p ++ lit "...") <$> slice_bytes_to 100 c else Some c.

Definition text_summary (k : BackendToolKind) : option str :=
  match k with
  | KWebSearch _ action =>
      Some (lit "[backend web_search] "
            ++ match action with
               | ActSearch q => lit "search: " ++ q
               | ActOpenPage url => lit "open: " ++ default (lit "?") url
               | ActFind pattern url | ActFindInPage pattern url =>
                   lit "find " ++ [DQUOTE] ++ pattern ++ [DQUOTE] ++ lit " in " ++ url
               end)
  | KXSearch _ name input => Some (lit "[backend x_search] " ++ name ++ lit "(" ++ input ++ lit ")")
  | KCodeInterpreter _ code =>
      (λ p, lit "[backend code_interpreter] " ++ p)
      <$> match code with Some c => code_preview c | None => Some [] end
  end.

Definition reasoning_item_text (r : ReasoningItem) : str :=
  join [NL] (summary r ++ default [] (reasoning_content r)).

Definition synthesized_reasoning_item (text : str) : ReasoningItem := mkReasoning [] [text] None None None.

(** * Constructors *)

Definition tool_result (id content : str) : ConversationItem := CToolResult (mkToolResult id content []).
Definition assistant_text (content : str) : ConversationItem := CAssistant (mkAssistant content [] None None None).
Definition working_directory_switch (content : str) (generation : N) : ConversationItem :=
  CUser (mkUser [PText content] (Some WorkingDirectorySwitch) (Some generation) None None).
Definition working_directory_switch_generation (item : ConversationItem) : option N :=
  match item with
  | CUser u => match synthetic_reason u with Some WorkingDirectorySwitch => cwd_generation u | _ => None end
  | _ => None
  end.
Definition set_prompt_index (i : nat) (item : ConversationItem) : ConversationItem :=
  match item with
  | CUser u => CUser (mkUser (user_content u) (synthetic_reason u) (cwd_generation u) (prior_turn_interrupt u) (Some i))
  | _ => item
  end.

(** * Images *)

Definition IMAGE_REMOVED : str := lit "[image removed " ++ [8212] ++ lit " conversation too large]".
Definition is_image (p : ContentPart) : bool := match p with PImage _ => true | PText _ => false end.
Definition strip_part (p : ContentPart) : ContentPart := if is_image p then PText IMAGE_REMOVED else p.
Definition with_content (parts : list ContentPart) (u : UserItem) : UserItem :=
  mkUser parts (synthetic_reason u) (cwd_generation u) (prior_turn_interrupt u) (prompt_index u).

Definition strip_item (item : ConversationItem) : ConversationItem * nat :=
  match item with
  | CUser u => (CUser (with_content (strip_part <$> user_content u) u), length (List.filter is_image (user_content u)))
  | CToolResult t =>
      (CToolResult (mkToolResult (tool_call_id t) (result_content t) []), length (result_images t))
  | _ => (item, O)
  end.

(** [ConversationRequest::strip_images] on the items: what is left and how many images went. *)
Definition strip_images (items : list ConversationItem) : list ConversationItem * nat :=
  ((λ i, (strip_item i).1) <$> items, sum_list ((λ i, (strip_item i).2) <$> items)).

Definition image_count (items : list ConversationItem) : nat := (strip_images items).2.

(** * Responses *)

Inductive StopReason := Stop | Length | ToolCalls | ContentFilter.
#[export] Instance StopReason_eq_dec : EqDecision StopReason.
Proof. solve_decision. Defined.
Definition stop_reason_str (r : StopReason) : str :=
  match r with
  | Stop => lit "stop" | Length => lit "length" | ToolCalls => lit "tool_calls" | ContentFilter => lit "content_filter"
  end.

Record TokenUsage := mkUsage {
  prompt_tokens : N; completion_tokens : N; total_tokens : N; reasoning_tokens : N;
  cached_prompt_tokens : N; cache_creation_prompt_tokens : N
}.

Definition reported_cost_ticks (raw : option Z) : option Z :=
  match raw with Some t => if (0 <? t)%Z then Some t else None | None => None end.

Definition assistant_of (item : ConversationItem) : option AssistantItem :=
  match item with CAssistant a => Some a | _ => None end.
Definition reasoning_of (item : ConversationItem) : option ReasoningItem :=
  match item with CReasoning r => Some r | _ => None end.

(** The trailing [Assistant] item. *)
Definition assistant (items : list ConversationItem) : option AssistantItem := head (omap assistant_of (rev items)).
Definition reasoning_items (items : list ConversationItem) : list ReasoningItem := omap reasoning_of items.

Inductive EmptyReason := ReasoningOnly | NoVisibleContent.
#[export] Instance EmptyReason_eq_dec : EqDecision EmptyReason.
Proof. solve_decision. Defined.
Definition empty_reason_str (r : EmptyReason) : str :=
  match r with ReasoningOnly => lit "reasoning_only" | NoVisibleContent => lit "no_visible_content" end.

Definition is_nil {A} (l : list A) : bool := match l with [] => true | _ => false end.
Definition has_reasoning (items : list ConversationItem) : bool :=
  existsb (λ r, negb (is_nil (summary r)) || bool_decide (is_Some (reasoning_content r))
                || bool_decide (is_Some (encrypted_content r))) (reasoning_items items).

Definition empty_reason (items : list ConversationItem) : option EmptyReason :=
  match assistant items with
  | None => Some NoVisibleContent
  | Some a =>
      if negb (is_nil (assistant_content a)) || negb (is_nil (tool_calls a)) then None
      else if has_reasoning items then Some ReasoningOnly else Some NoVisibleContent
  end.

Definition summary_has_text (i : ConversationItem) : bool :=
  match i with CReasoning r => existsb (λ t, negb (is_nil t)) (summary r) | _ => false end.
Definition is_reasoning (i : ConversationItem) : bool := match i with CReasoning _ => true | _ => false end.
Definition is_assistant (i : ConversationItem) : bool := match i with CAssistant _ => true | _ => false end.
Definition push_summary (text : str) (i : ConversationItem) : ConversationItem :=
  match i with
  | CReasoning r =>
      CReasoning (mkReasoning (reasoning_id r) (summary r ++ [text]) (reasoning_content r) (encrypted_content r)
                    (reasoning_status r))
  | _ => i
  end.
(** [rposition]: the index of the last item that satisfies the test. *)
Definition rposition (p : ConversationItem → bool) (items : list ConversationItem) : option nat :=
  (λ k, length items - 1 - k)%nat <$> position p (rev items).

Definition inject_streaming_reasoning_fallback (items : list ConversationItem) (text : str) : list ConversationItem :=
  if is_nil text then items
  else if existsb summary_has_text items then items
  else match position is_reasoning items with
       | Some idx => alter (push_summary text) idx items
       | None =>
           let pos := default (length items) (rposition is_assistant items) in
           take pos items ++ [CReasoning (synthesized_reasoning_item text)] ++ drop pos items
       end.

(** * Tool calls and their results *)

Inductive DanglingToolCallReason := UserCancelled | HarnessHalted (class : str).

Definition synthetic_dangling_result_text (name : str) (reason : DanglingToolCallReason) : str :=
  match reason with
  | UserCancelled => lit "Tool execution was cancelled by the user (tool `" ++ name ++ lit "` was not executed)."
  | HarnessHalted class =>
      lit "Tool execution was halted by the harness (" ++ class ++ lit "); the tool `" ++ name ++ lit "` was not executed."
  end.

Definition calls_of (item : ConversationItem) : list ToolCall :=
  match item with CAssistant a => tool_calls a | _ => [] end.
Definition result_of (item : ConversationItem) : option ToolResultItem :=
  match item with CToolResult t => Some t | _ => None end.
Definition is_result (item : ConversationItem) : bool := bool_decide (is_Some (result_of item)).

(** The results that follow index [j] without a break, as in the inner loops. *)
Fixpoint results_from (fuel j : nat) (conversation : list ConversationItem) : list ToolResultItem :=
  match fuel with
  | O => []
  | S fuel =>
      match conversation !! j with
      | Some (CToolResult t) => t :: results_from fuel (S j) conversation
      | _ => []
      end
  end.
Definition run_after (i : nat) (conversation : list ConversationItem) : list ToolResultItem :=
  results_from (length conversation) (S i) conversation.

Definition unanswered (calls : list ToolCall) (run : list ToolResultItem) : list ToolCall :=
  List.filter (λ c, negb (one_of (call_id c) (tool_call_id <$> run))) calls.
Definition synthetic_result (reason : DanglingToolCallReason) (c : ToolCall) : ConversationItem :=
  tool_result (call_id c) (synthetic_dangling_result_text (call_name c) reason).

(** Phase 1 of [repair_dangling_tool_calls], from index [i] on. *)
Fixpoint find_repairs (fuel i : nat) (reason : DanglingToolCallReason) (conversation : list ConversationItem)
  : list (nat * list ConversationItem) :=
  match fuel with
  | O => []
  | S fuel =>
      match conversation !! i with
      | None => []
      | Some item =>
          if is_nil (calls_of item) then find_repairs fuel (S i) reason conversation
          else
            let run := run_after i conversation in
            let j := (S i + length run)%nat in
            let synthetic := synthetic_result reason <$> unanswered (calls_of item) run in
            (if is_nil synthetic then [] else [(j, synthetic)]) ++ find_repairs fuel j reason conversation
      end
  end.

Definition splice_at (conversation : list ConversationItem) (repair : nat * list ConversationItem)
  : list ConversationItem :=
  take repair.1 conversation ++ repair.2 ++ drop repair.1 conversation.

Definition repair_dangling_tool_calls (conversation : list ConversationItem) (reason : DanglingToolCallReason)
  : list ConversationItem * nat :=
  let repairs := find_repairs (length conversation) 0 reason conversation in
  (foldl splice_at conversation (rev repairs), sum_list (length ∘ snd <$> repairs)).

Fixpoint dangling_from (fuel i : nat) (conversation : list ConversationItem) : bool :=
  match fuel with
  | O => false
  | S fuel =>
      match conversation !! i with
      | None => false
      | Some item =>
          if is_nil (calls_of item) then dangling_from fuel (S i) conversation
          else
            let run := run_after i conversation in
            negb (is_nil (unanswered (calls_of item) run))
            || dangling_from fuel (S i + length run)%nat conversation
      end
  end.
Definition has_dangling_tool_calls (conversation : list ConversationItem) : bool :=
  dangling_from (length conversation) 0 conversation.

(** The earlier results of an id that comes again in the run, by their index: what the loop
    with the map [seen] pushes, each time an id is inserted again. *)
Definition last_seen (id : str) (seen : list (str * nat)) : option nat :=
  snd <$> head (List.filter (λ p, str_eqb id (fst p)) seen).
Fixpoint duplicates (idx : nat) (seen : list (str * nat)) (run : list ToolResultItem) : list nat :=
  match run with
  | [] => []
  | t :: run =>
      let rest := duplicates (S idx) ((tool_call_id t, idx) :: seen) run in
      match last_seen (tool_call_id t) seen with Some prev => prev :: rest | None => rest end
  end.

(** [sort_unstable], [reverse], then [remove] one by one. *)
Definition insert_index (i : nat) (l : list nat) : list nat :=
  List.filter (λ j, i <? j)%nat l ++ i :: List.filter (λ j, j <=? i)%nat l.
Definition sort_reverse (l : list nat) : list nat := foldr insert_index [] l.
Definition remove_index (conversation : list ConversationItem) (i : nat) : list ConversationItem :=
  take i conversation ++ drop (S i) conversation.

Fixpoint dedup_go (fuel i removed : nat) (conversation : list ConversationItem) : list ConversationItem * nat :=
  match fuel with
  | O => (conversation, removed)
  | S fuel =>
      match conversation !! i with
      | None => (conversation, removed)
      | Some item =>
          if is_nil (calls_of item) then dedup_go fuel (S i) removed conversation
          else
            let run := run_after i conversation in
            let to_remove := sort_reverse (duplicates (S i) [] run) in
            if is_nil to_remove then dedup_go fuel (S i + length run)%nat removed conversation
            else dedup_go fuel i (removed + length to_remove) (foldl remove_index conversation to_remove)
      end
  end.
Definition dedup_duplicate_tool_results (conversation : list ConversationItem) : list ConversationItem * nat :=
  dedup_go (S (2 * length conversation)) 0 0 conversation.

(** [strip_displaced_tool_results] (xai-chat-state/src/compaction_utils.rs). *)
Fixpoint strip_displaced (run_ids : list str) (items : list ConversationItem) : list ConversationItem * list str :=
  match items with
  | [] => ([], [])
  | CAssistant a :: items =>
      let '(kept, stripped) := strip_displaced (call_id <$> tool_calls a) items in (CAssistant a :: kept, stripped)
  | CToolResult t :: items =>
      let '(kept, stripped) := strip_displaced run_ids items in
      if one_of (tool_call_id t) run_ids then (CToolResult t :: kept, stripped) else (kept, tool_call_id t :: stripped)
  | item :: items => let '(kept, stripped) := strip_displaced [] items in (item :: kept, stripped)
  end.
Definition strip_displaced_tool_results (items : list ConversationItem) : list ConversationItem * list str :=
  strip_displaced [] items.

Record HistoryRepairReport := mkReport {
  duplicates_removed : nat; stripped_tool_result_ids : list str; synthetic_results_inserted : nat
}.
Definition report_changed (r : HistoryRepairReport) : bool :=
  (0 <? duplicates_removed r)%nat || negb (is_nil (stripped_tool_result_ids r)) || (0 <? synthetic_results_inserted r)%nat.

Definition repair_history (items : list ConversationItem) : list ConversationItem * HistoryRepairReport :=
  let '(items, dups) := dedup_duplicate_tool_results items in
  let '(items, stripped) := strip_displaced_tool_results items in
  let '(items, inserted) := repair_dangling_tool_calls items (HarnessHalted (lit "history_repair")) in
  (items, mkReport dups stripped inserted).

(** * The cut at a prompt *)

Definition unmarked_index (seen_preamble : bool) (next : nat) (u : UserItem) : option nat * bool :=
  match synthetic_reason u with
  | None => if seen_preamble then (Some next, true) else (None, true)
  | Some r => (if starts_prompt_turn r then Some next else None, seen_preamble)
  end.

Fixpoint truncate_markers_only (i : nat) (conversation : list ConversationItem) (target : nat) : nat :=
  match conversation with
  | [] => i
  | CUser u :: rest =>
      match prompt_index u with
      | Some idx => if (target <=? idx)%nat then i else truncate_markers_only (S i) rest target
      | None => truncate_markers_only (S i) rest target
      end
  | _ :: rest => truncate_markers_only (S i) rest target
  end.
Definition conversation_truncate_markers_only (conversation : list ConversationItem) (target : nat) : nat :=
  truncate_markers_only 0 conversation target.

Fixpoint truncate_legacy (i next : nat) (seen_preamble : bool) (conversation : list ConversationItem) (target : nat)
  : nat :=
  match conversation with
  | [] => i
  | CUser u :: rest =>
      let '(effective, seen) := unmarked_index seen_preamble next u in
      match effective with
      | Some idx => if (target <=? idx)%nat then i else truncate_legacy (S i) (S idx) seen rest target
      | None => truncate_legacy (S i) next seen rest target
      end
  | _ :: rest => truncate_legacy (S i) next seen_preamble rest target
  end.
Definition conversation_truncate_legacy (conversation : list ConversationItem) (target : nat) : nat :=
  truncate_legacy 0 0 false conversation target.

Fixpoint count_legacy_turns (turns : nat) (seen_preamble : bool) (conversation : list ConversationItem) : nat :=
  match conversation with
  | [] => turns
  | CUser u :: rest =>
      match prompt_index u with
      | Some _ => turns
      | None =>
          let '(effective, seen) := unmarked_index seen_preamble turns u in
          count_legacy_turns (match effective with Some _ => S turns | None => turns end) seen rest
      end
  | _ :: rest => count_legacy_turns turns seen_preamble rest
  end.
Definition count_legacy_turns_until_marker (conversation : list ConversationItem) : nat :=
  count_legacy_turns 0 false conversation.

Fixpoint truncate_progressive (i next : nat) (seen_preamble seen_marker : bool) (conversation : list ConversationItem)
  (target : nat) : nat :=
  match conversation with
  | [] => i
  | CUser u :: rest =>
      match prompt_index u with
      | Some idx =>
          if (target <=? idx)%nat then i else truncate_progressive (S i) next seen_preamble true rest target
      | None =>
          if seen_marker then truncate_progressive (S i) next seen_preamble true rest target
          else
            let '(effective, seen) := unmarked_index seen_preamble next u in
            match effective with
            | Some idx => if (target <=? idx)%nat then i else truncate_progressive (S i) (S idx) seen false rest target
            | None => truncate_progressive (S i) next seen false rest target
            end
      end
  | _ :: rest => truncate_progressive (S i) next seen_preamble seen_marker rest target
  end.
Definition conversation_truncate_progressive (conversation : list ConversationItem) (target : nat) : nat :=
  truncate_progressive 0 0 false false conversation target.

Definition marker_of (item : ConversationItem) : option nat :=
  match item with CUser u => prompt_index u | _ => None end.

Definition conversation_truncate_for_prompt (conversation : list ConversationItem) (target : nat) : nat :=
  match head (omap marker_of conversation) with
  | None => conversation_truncate_legacy conversation target
  | Some first_marker_idx =>
      if negb (count_legacy_turns_until_marker conversation =? first_marker_idx)%nat
      then conversation_truncate_markers_only conversation target
      else conversation_truncate_progressive conversation target
  end.
