(* ===== verification/ConversationPairing.v ===== *)
(** Tool calls and their results: the loops that repair a conversation against structural
    descriptions of what they do, and the claim that a repaired conversation answers every
    call exactly once, right behind the message that made it. *)
From stdpp Require Import base list sorting strings.
From S2P Require Import Prelude RustStr Conversation.
Open Scope nat_scope.

Notation Results run := (CToolResult <$> run).
Notation ids run := (tool_call_id <$> run).

(** The results at the start of a list of items. *)
Fixpoint leading (items : list ConversationItem) : list ToolResultItem :=
  match items with CToolResult t :: items => t :: leading items | _ => [] end.
Definition after_leading (items : list ConversationItem) : list ConversationItem := drop (length (leading items)) items.

Lemma leading_split items : items = Results (leading items) ++ after_leading items.
Proof.
  unfold after_leading. induction items as [|[] items IH]; try done. csimpl. by f_equal.
Qed.
Lemma leading_after items : leading (after_leading items) = [].
Proof. unfold after_leading. induction items as [|[] items IH]; done. Qed.
Lemma Results_inj (run run' : list ToolResultItem) : Results run = Results run' → run = run'.
Proof.
  revert run'. induction run as [|t run IH]; intros [|t' run']; csimpl; try done. intros [= -> H]. f_equal. by apply IH.
Qed.
Lemma leading_Results run rest : leading rest = [] → leading (Results run ++ rest) = run.
Proof. intros Hr. induction run as [|t run IH]; [done|]. csimpl. by rewrite IH. Qed.
Lemma after_Results run rest : leading rest = [] → after_leading (Results run ++ rest) = rest.
Proof. intros Hr. unfold after_leading. rewrite leading_Results by done. by rewrite drop_app_length' by (by rewrite length_fmap). Qed.
Lemma leading_length items : length (leading items) ≤ length items.
Proof. induction items as [|[] items IH]; csimpl; lia. Qed.

Lemma results_from_leading fuel done rest :
  length rest ≤ fuel → results_from fuel (length done) (done ++ rest) = leading rest.
Proof.
  revert done rest. induction fuel as [|fuel IH]; intros done rest Hf.
  - destruct rest; [done|simpl in Hf; lia].
  - csimpl. rewrite lookup_app_r, Nat.sub_diag by done. destruct rest as [|item rest]; [done|]. csimpl.
    destruct item; try done. simpl in Hf. rewrite cons_middle, app_assoc.
    replace (S (length done)) with (length (done ++ [CToolResult t])) by (rewrite length_app; csimpl; lia).
    rewrite IH by lia. done.
Qed.
Lemma run_after_leading done item rest : run_after (length done) (done ++ item :: rest) = leading rest.
Proof.
  unfold run_after. rewrite cons_middle, app_assoc.
  replace (S (length done)) with (length (done ++ [item])) by (rewrite length_app; csimpl; lia).
  apply results_from_leading. rewrite length_app. lia.
Qed.
Lemma here (done : list ConversationItem) item rest : (done ++ item :: rest) !! length done = Some item.
Proof. by rewrite lookup_app_r, Nat.sub_diag by done. Qed.

(** The list [rest] of a loop at an item that calls tools. *)
Lemma run_split (item : ConversationItem) (done rest : list ConversationItem) :
  done ++ item :: rest = (done ++ item :: Results (leading rest)) ++ after_leading rest.
Proof. rewrite (leading_split rest) at 1. by rewrite <-app_assoc. Qed.
Lemma run_place (item : ConversationItem) (done rest : list ConversationItem) :
  S (length done + length (leading rest)) = length (done ++ item :: Results (leading rest)).
Proof. rewrite length_app. csimpl. rewrite length_fmap. lia. Qed.
Lemma after_shorter rest : length (after_leading rest) ≤ length rest.
Proof. unfold after_leading. rewrite length_drop. lia. Qed.

(** * Filling in missing results *)

Section Repair.
Context (reason : DanglingToolCallReason).

(** One pass: [pending] are the calls of the last message that no result answered yet. *)
Fixpoint fill (pending : list ToolCall) (items : list ConversationItem) : list ConversationItem :=
  match items with
  | [] => synthetic_result reason <$> pending
  | CToolResult t :: items => CToolResult t :: fill (unanswered pending [t]) items
  | item :: items => (synthetic_result reason <$> pending) ++ item :: fill (calls_of item) items
  end.

Lemma unanswered_app calls run1 run2 :
  unanswered (unanswered calls run1) run2 = unanswered calls (run1 ++ run2).
Proof.
  unfold unanswered, one_of. rewrite fmap_app. induction calls as [|c calls IH]; [done|].
  simpl. rewrite existsb_app. destruct (existsb _ (ids run1)); simpl; [done|].
  destruct (existsb _ (ids run2)); simpl; by rewrite IH.
Qed.
Lemma unanswered_nil_run calls : unanswered calls [] = calls.
Proof. unfold unanswered. induction calls as [|c calls IH]; [done|]. csimpl. by f_equal. Qed.
Lemma unanswered_nil_calls run : unanswered [] run = [].
Proof. done. Qed.

Lemma fill_run pending run rest : leading rest = [] →
  fill pending (Results run ++ rest) = Results run ++ (synthetic_result reason <$> unanswered pending run) ++ fill [] rest.
Proof.
  intros Hr. revert pending. induction run as [|t run IH]; intros pending.
  - rewrite unanswered_nil_run. csimpl. destruct rest as [|[] rest]; simpl in *; by rewrite ?app_nil_r.
  - csimpl. by rewrite IH, (unanswered_app pending [t]).
Qed.
Lemma fill_item item rest : calls_of item ≠ [] →
  fill [] (item :: rest) =
  item :: Results (leading rest) ++ (synthetic_result reason <$> unanswered (calls_of item) (leading rest))
       ++ fill [] (after_leading rest).
Proof.
  intros Hc. destruct item; try done. csimpl. f_equal. rewrite (leading_split rest) at 1.
  apply fill_run, leading_after.
Qed.

Lemma splice_here done s rest : splice_at (done ++ rest) (length done, s) = done ++ s ++ rest.
Proof. unfold splice_at. csimpl. by rewrite take_app_length, drop_app_length. Qed.

Lemma find_repairs_end fuel done : find_repairs fuel (length done) reason (done ++ []) = [].
Proof. destruct fuel; [done|]. simpl. by rewrite app_nil_r, lookup_ge_None_2 by done. Qed.
Lemma find_repairs_step fuel done item rest :
  find_repairs (S fuel) (length done) reason (done ++ item :: rest) =
  if is_nil (calls_of item) then find_repairs fuel (length (done ++ [item])) reason ((done ++ [item]) ++ rest)
  else
    let s := synthetic_result reason <$> unanswered (calls_of item) (leading rest) in
    let seen := done ++ item :: Results (leading rest) in
    (if is_nil s then [] else [(length seen, s)]) ++ find_repairs fuel (length seen) reason (seen ++ after_leading rest).
Proof.
  cbn [find_repairs]. rewrite here. cbv zeta. rewrite run_after_leading. simpl.
  rewrite (run_place item), <-(run_split item done rest), <-app_assoc. simpl.
  replace (length (done ++ [item])) with (S (length done)) by (rewrite length_app; simpl; lia). done.
Qed.

Lemma fill_plain item rest : calls_of item = [] → fill [] (item :: rest) = item :: fill [] rest.
Proof. intros Hc. destruct item; simpl in *; by rewrite ?Hc. Qed.
Lemma is_nil_true {A} (l : list A) : is_nil l = true → l = [].
Proof. by destruct l. Qed.
Lemma is_nil_false {A} (l : list A) : is_nil l = false → l ≠ [].
Proof. by destruct l. Qed.

Lemma find_repairs_fill fuel done rest : length rest ≤ fuel →
  foldl splice_at (done ++ rest) (rev (find_repairs fuel (length done) reason (done ++ rest))) = done ++ fill [] rest.
Proof.
  revert done rest. induction fuel as [|fuel IH]; intros done rest Hf.
  { destruct rest; [done|simpl in Hf; lia]. }
  destruct rest as [|item rest]; simpl in Hf; [by rewrite find_repairs_end|].
  rewrite find_repairs_step. destruct (is_nil (calls_of item)) eqn:Hnil.
  - apply is_nil_true in Hnil. rewrite fill_plain by done. rewrite (app_assoc done [item] rest : done ++ item :: rest = _).
    rewrite IH by lia. by rewrite <-app_assoc.
  - apply is_nil_false in Hnil. rewrite fill_item by done. cbv zeta.
    set (s := synthetic_result reason <$> _). set (seen := done ++ item :: Results (leading rest)).
    rewrite rev_app_distr, foldl_app. rewrite (run_split item done rest). fold seen.
    rewrite IH by (pose proof (after_shorter rest); lia).
    assert (Hd : ∀ l, seen ++ l = done ++ item :: Results (leading rest) ++ l) by (intros l; unfold seen; by rewrite <-app_assoc).
    destruct (is_nil s) eqn:Hs; [apply is_nil_true in Hs; rewrite Hs; apply Hd|].
    simpl. rewrite splice_here. apply Hd.
Qed.
Lemma repair_dangling_fill items : (repair_dangling_tool_calls items reason).1 = fill [] items.
Proof. apply (find_repairs_fill (length items) [] items). done. Qed.

Fixpoint missing (pending : list ToolCall) (items : list ConversationItem) : nat :=
  match items with
  | [] => length pending
  | CToolResult t :: items => missing (unanswered pending [t]) items
  | item :: items => length pending + missing (calls_of item) items
  end.
Lemma missing_run pending run rest : leading rest = [] →
  missing pending (Results run ++ rest) = length (unanswered pending run) + missing [] rest.
Proof.
  intros Hr. revert pending. induction run as [|t run IH]; intros pending.
  - rewrite unanswered_nil_run. csimpl. destruct rest as [|[] rest]; simpl in *; try done; lia.
  - csimpl. by rewrite IH, (unanswered_app pending [t]).
Qed.
Lemma missing_item item rest : calls_of item ≠ [] →
  missing [] (item :: rest) = length (unanswered (calls_of item) (leading rest)) + missing [] (after_leading rest).
Proof.
  intros Hc. destruct item; try done. simpl. rewrite (leading_split rest) at 1. apply missing_run, leading_after.
Qed.
Lemma missing_plain item rest : calls_of item = [] → missing [] (item :: rest) = missing [] rest.
Proof. intros Hc. destruct item; simpl in *; by rewrite ?Hc. Qed.
Lemma find_repairs_missing fuel done rest : length rest ≤ fuel →
  sum_list (length ∘ snd <$> find_repairs fuel (length done) reason (done ++ rest)) = missing [] rest.
Proof.
  revert done rest. induction fuel as [|fuel IH]; intros done rest Hf.
  { destruct rest; [done|simpl in Hf; lia]. }
  destruct rest as [|item rest]; simpl in Hf; [by rewrite find_repairs_end|].
  rewrite find_repairs_step. destruct (is_nil (calls_of item)) eqn:Hnil.
  - apply is_nil_true in Hnil. rewrite missing_plain by done. apply IH. lia.
  - apply is_nil_false in Hnil. rewrite missing_item by done. cbv zeta.
    rewrite fmap_app, sum_list_with_app, IH by (pose proof (after_shorter rest); lia). f_equal.
    destruct (unanswered _ _); simpl; [done|]. by rewrite length_fmap, Nat.add_0_r.
Qed.
Lemma repair_dangling_count items : (repair_dangling_tool_calls items reason).2 = missing [] items.
Proof. apply (find_repairs_missing (length items) [] items). done. Qed.
End Repair.

(** * Removing duplicates *)

(** Of the results of one run with the same id the last is kept. *)
Fixpoint keep_last (run : list ToolResultItem) : list ToolResultItem :=
  match run with
  | [] => []
  | t :: run => if one_of (tool_call_id t) (ids run) then keep_last run else t :: keep_last run
  end.
(** One pass: [on] when the results here follow a message with tool calls. *)
Fixpoint dedup (on : bool) (items : list ConversationItem) : list ConversationItem :=
  match items with
  | [] => []
  | CToolResult t :: items =>
      (if on && one_of (tool_call_id t) (ids (leading items)) then [] else [CToolResult t]) ++ dedup on items
  | item :: items => item :: dedup (negb (is_nil (calls_of item))) items
  end.

Lemma one_of_not_In s l : one_of s l = false ↔ s ∉ l.
Proof. rewrite <-one_of_In. by destruct (one_of s l). Qed.

Lemma keep_last_ids run : ∀ id, id ∈ ids (keep_last run) ↔ id ∈ ids run.
Proof.
  induction run as [|t run IH]; intros id; [done|]. csimpl. destruct (one_of _ _) eqn:Ho; csimpl; rewrite ?elem_of_cons, IH; [|done].
  apply one_of_In in Ho. naive_solver.
Qed.
Lemma keep_last_NoDup run : NoDup (ids (keep_last run)).
Proof.
  induction run as [|t run IH]; [constructor|]. csimpl. destruct (one_of _ _) eqn:Ho; [done|]. csimpl. constructor; [|done].
  rewrite keep_last_ids. by apply one_of_not_In.
Qed.
Lemma keep_last_id run : NoDup (ids run) → keep_last run = run.
Proof.
  induction run as [|t run IH]; [done|]. csimpl. intros [Ht Hn]%NoDup_cons. apply one_of_not_In in Ht. rewrite Ht. by rewrite IH.
Qed.

Lemma dedup_run on run rest : leading rest = [] →
  dedup on (Results run ++ rest) = Results (if on then keep_last run else run) ++ dedup false rest.
Proof.
  intros Hr. induction run as [|t run IH]; csimpl.
  - assert (Hd : dedup on rest = dedup false rest) by (by destruct rest as [|[] rest]). by destruct on.
  - rewrite IH, leading_Results by done. destruct on; simpl; [|done]. by destruct (one_of _ _).
Qed.
Lemma dedup_item item rest : calls_of item ≠ [] →
  dedup false (item :: rest) = item :: Results (keep_last (leading rest)) ++ dedup false (after_leading rest).
Proof.
  intros Hc. destruct item as [| |a| | |]; try done. simpl in *. f_equal. rewrite (leading_split rest) at 1.
  rewrite dedup_run by apply leading_after. by destruct (tool_calls a).
Qed.
Lemma dedup_plain item rest : calls_of item = [] → dedup false (item :: rest) = item :: dedup false rest.
Proof. intros Hc. destruct item; simpl in *; by rewrite ?Hc. Qed.

(** ** Indices removed in decreasing order *)

Fixpoint without {A} (gone : list nat) (i : nat) (l : list A) : list A :=
  match l with
  | [] => []
  | x :: l => if bool_decide (i ∈ gone) then without gone (S i) l else x :: without gone (S i) l
  end.

Lemma without_none {A} gone i (l : list A) : (∀ k, k ∈ gone → k < i ∨ i + length l ≤ k) → without gone i l = l.
Proof.
  revert i. induction l as [|x l IH]; intros i Hg; [done|]. simpl in *. rewrite bool_decide_false.
  - f_equal. apply IH. intros k Hk. specialize (Hg k Hk). lia.
  - intros Hi. specialize (Hg i Hi). lia.
Qed.
Lemma without_app {A} gone i (l k : list A) : without gone i (l ++ k) = without gone i l ++ without gone (i + length l) k.
Proof.
  revert i. induction l as [|x l IH]; intros i; simpl; [by rewrite Nat.add_0_r|].
  rewrite IH. replace (S i + length l) with (i + S (length l)) by lia. by case_bool_decide.
Qed.
Lemma without_ext {A} gone gone' i (l : list A) :
  (∀ k, i ≤ k < i + length l → k ∈ gone ↔ k ∈ gone') → without gone i l = without gone' i l.
Proof.
  revert i. induction l as [|x l IH]; intros i Hg; [done|]. simpl in *.
  rewrite (IH (S i)) by (intros k Hk; apply Hg; lia). rewrite (bool_decide_ext (i ∈ gone) (i ∈ gone')) by (apply Hg; lia). done.
Qed.

Lemma remove_without {A} (m i : nat) gone (l : list A) :
  i ≤ m → (∀ k, k ∈ gone → k < m) → without gone i (take (m - i) l ++ drop (S (m - i)) l) = without (m :: gone) i l.
Proof.
  revert i. induction l as [|x l IH]; intros i Hi Hg; [by rewrite take_nil, drop_nil|].
  destruct (decide (m = i)) as [->|Hne].
  - rewrite Nat.sub_diag. simpl. rewrite bool_decide_true by set_solver. rewrite !without_none; try done.
    + intros k [->|Hk]%elem_of_cons; [lia|]. specialize (Hg k Hk). lia.
    + intros k Hk. specialize (Hg k Hk). lia.
  - replace (m - i) with (S (m - S i)) by lia. simpl. rewrite IH by (done || lia).
    by rewrite (bool_decide_ext (i ∈ m :: gone) (i ∈ gone)) by set_solver.
Qed.
Lemma remove_all items gone : StronglySorted (λ a b, b < a) gone →
  foldl remove_index items gone = without gone 0 items.
Proof.
  intros Hs. revert items. induction gone as [|m gone IH]; intros items.
  - simpl. symmetry. apply without_none. set_solver.
  - apply StronglySorted_inv in Hs as [Hs Hm]. simpl. rewrite IH by done.
    rewrite Forall_forall in Hm. rewrite <-(remove_without m 0 gone items (Nat.le_0_l m) Hm). by rewrite Nat.sub_0_r.
Qed.

Lemma insert_index_elem i l k : k ∈ insert_index i l ↔ k = i ∨ k ∈ l.
Proof.
  unfold insert_index. rewrite elem_of_app, elem_of_cons, !list_elem_of_In, !filter_In. rewrite Nat.ltb_lt, Nat.leb_le.
  split; [naive_solver|]. intros [->|Hk]; [naive_solver|]. assert (i < k ∨ k ≤ i) as [H|H] by lia; naive_solver.
Qed.
Lemma sort_reverse_elem l k : k ∈ sort_reverse l ↔ k ∈ l.
Proof. induction l as [|i l IH]; [done|]. simpl. rewrite insert_index_elem, IH. set_solver. Qed.
Lemma filter_sorted (p : nat → bool) l : StronglySorted (λ a b, b < a) l → StronglySorted (λ a b, b < a) (List.filter p l).
Proof.
  induction 1 as [|x l Hs IH Hx]; [constructor|]. simpl. destruct (p x); [|done]. constructor; [done|].
  rewrite Forall_forall in *. intros k Hk%list_elem_of_In. apply filter_In in Hk as [Hk _]. apply Hx. by apply list_elem_of_In.
Qed.
Lemma insert_index_sorted i l : i ∉ l → StronglySorted (λ a b, b < a) l → StronglySorted (λ a b, b < a) (insert_index i l).
Proof.
  intros Hi Hs. unfold insert_index. apply StronglySorted_app; split_and!.
  - intros a b Ha Hb. apply list_elem_of_In, filter_In in Ha as [_ Ha%Nat.ltb_lt].
    apply elem_of_cons in Hb as [->|Hb]; [done|]. apply list_elem_of_In, filter_In in Hb as [_ Hb%Nat.leb_le]. lia.
  - by apply filter_sorted.
  - constructor; [by apply filter_sorted|]. apply Forall_forall. intros k Hk%list_elem_of_In.
    apply filter_In in Hk as [Hk Hle%Nat.leb_le]. rewrite <-list_elem_of_In in Hk. assert (k ≠ i) by set_solver. lia.
Qed.
Lemma sort_reverse_sorted l : NoDup l → StronglySorted (λ a b, b < a) (sort_reverse l).
Proof.
  induction 1 as [|i l Hi _ IH]; [constructor|]. simpl. apply insert_index_sorted; [|done]. by rewrite sort_reverse_elem.
Qed.

(** ** Which results are removed *)

Definition seen_before (idx : nat) (seen : list (str * nat)) : Prop :=
  (∀ id k, last_seen id seen = Some k → k < idx)
  ∧ ∀ id1 id2 k, last_seen id1 seen = Some k → last_seen id2 seen = Some k → id1 = id2.

Lemma last_seen_cons id id' k seen : last_seen id ((id', k) :: seen) = if str_eqb id id' then Some k else last_seen id seen.
Proof. unfold last_seen. simpl. by destruct (str_eqb id id'). Qed.
Lemma seen_before_cons id idx seen : seen_before idx seen → seen_before (S idx) ((id, idx) :: seen).
Proof.
  intros [Hlt Hinj]. split.
  - intros id' k. rewrite last_seen_cons. destruct (str_eqb id' id); [intros [= <-]; lia|]. intros Hk%Hlt. lia.
  - intros id1 id2 k. rewrite !last_seen_cons.
    destruct (str_eqb id1 id) eqn:E1, (str_eqb id2 id) eqn:E2; rewrite ?str_eqb_eq in *; try naive_solver.
    + intros [= <-] H%Hlt. lia.
    + intros H%Hlt [= <-]. lia.
Qed.

Definition repeated (idx : nat) (run : list ToolResultItem) (i : nat) : Prop :=
  ∃ k t, run !! k = Some t ∧ i = idx + k ∧ tool_call_id t ∈ ids (drop (S k) run).
Lemma repeated_cons idx t run i :
  repeated idx (t :: run) i ↔ i = idx ∧ tool_call_id t ∈ ids run ∨ repeated (S idx) run i.
Proof.
  unfold repeated. split.
  - intros ([|k] & t' & Hk & -> & Hin); simpl in *; [left; simplify_eq; rewrite drop_0 in Hin; split; [lia|done]|].
    right. exists k, t'. split_and!; [done|lia|done].
  - intros [[-> Hin]|(k & t' & Hk & -> & Hin)]; [exists 0, t|exists (S k), t']; simpl; rewrite ?drop_0; split_and!; done || lia.
Qed.

Lemma duplicates_elem idx seen run i :
  i ∈ duplicates idx seen run ↔ (∃ id, last_seen id seen = Some i ∧ id ∈ ids run) ∨ repeated idx run i.
Proof.
  revert idx seen. induction run as [|t run IH]; intros idx seen; csimpl.
  - split; [set_solver|]. intros [(id & _ & ?)|(k & t & Hk & _)]; [set_solver|done].
  - rewrite repeated_cons. assert (Hrest : i ∈ duplicates (S idx) ((tool_call_id t, idx) :: seen) run ↔
      (∃ id, last_seen id seen = Some i ∧ id ≠ tool_call_id t ∧ id ∈ ids run)
      ∨ i = idx ∧ tool_call_id t ∈ ids run ∨ repeated (S idx) run i).
    { rewrite IH. setoid_rewrite last_seen_cons. split.
      - intros [(id & Hid & Hin)|]; [|naive_solver]. destruct (str_eqb id (tool_call_id t)) eqn:E; [apply str_eqb_eq in E|apply str_eqb_neq in E]; naive_solver.
      - intros [(id & Hid & Hne & Hin)|[[-> Hin]|]]; [left|left|naive_solver].
        + exists id. by rewrite (proj2 (str_eqb_neq id _)).
        + exists (tool_call_id t). by rewrite (proj2 (str_eqb_eq _ _)). }
    destruct (last_seen (tool_call_id t) seen) as [prev|] eqn:Hprev; rewrite ?elem_of_cons, Hrest; clear Hrest IH.
    + split; [intros [->|[(id & ? & ? & ?)|?]]|intros [(id & Hid & [->|Hin]%elem_of_cons)|?]];
        [left; exists (tool_call_id t); set_solver|left; exists id; set_solver|by right|left; congruence| |naive_solver].
      destruct (decide (id = tool_call_id t)) as [->|]; [left; congruence|]. right. left. by exists id.
    + split; [intros [(id & ? & ? & ?)|?]; [left; exists id; set_solver|by right]|].
      intros [(id & Hid & [->|Hin]%elem_of_cons)|?]; [congruence| |by right].
      left. exists id. split_and!; [done| |done]. intros ->. congruence.
Qed.
Lemma duplicates_NoDup idx seen run : seen_before idx seen → NoDup (duplicates idx seen run).
Proof.
  revert idx seen. induction run as [|t run IH]; intros idx seen Hseen; [constructor|]. csimpl.
  assert (Hrest := IH _ _ (seen_before_cons (tool_call_id t) _ _ Hseen)).
  destruct (last_seen (tool_call_id t) seen) as [prev|] eqn:Hprev; [|done]. constructor; [|done].
  destruct Hseen as [Hlt Hinj]. pose proof (Hlt _ _ Hprev) as Hp. rewrite duplicates_elem.
  intros [(id & Hid & _)|(k & t' & _ & -> & _)]; [|lia]. rewrite last_seen_cons in Hid.
  destruct (str_eqb id (tool_call_id t)) eqn:E; [simplify_eq; lia|]. apply str_eqb_neq in E. by apply E, (Hinj _ _ prev).
Qed.
Lemma seen_nothing idx : seen_before idx [].
Proof. by split. Qed.

Lemma without_repeated gone idx run :
  (∀ k, idx ≤ k → k ∈ gone ↔ repeated idx run k) → without gone idx (Results run) = Results (keep_last run).
Proof.
  revert idx. induction run as [|t run IH]; intros idx Hg; [done|]. csimpl.
  rewrite (IH (S idx)) by (intros k Hk; rewrite Hg, repeated_cons by lia; naive_solver lia).
  assert (Hi : idx ∈ gone ↔ tool_call_id t ∈ ids run).
  { rewrite Hg, repeated_cons by done. split; [|naive_solver]. intros [[_ ?]|(k & t' & _ & Hk & _)]; [done|lia]. }
  destruct (one_of _ _) eqn:Ho; [apply one_of_In in Ho|apply one_of_not_In in Ho];
    [rewrite bool_decide_true|rewrite bool_decide_false]; naive_solver.
Qed.

Section Removal.
Context (done : list ConversationItem) (item : ConversationItem) (rest : list ConversationItem).
Let gone := sort_reverse (duplicates (S (length done)) [] (leading rest)).

Lemma gone_elem k : k ∈ gone ↔ repeated (S (length done)) (leading rest) k.
Proof. unfold gone. rewrite sort_reverse_elem, duplicates_elem. unfold last_seen. naive_solver. Qed.
Lemma gone_range k : k ∈ gone → S (length done) ≤ k < S (length done) + length (leading rest).
Proof. rewrite gone_elem. intros (j & t & Hj%lookup_lt_Some & -> & _). lia. Qed.
Lemma gone_sorted : StronglySorted (λ a b, b < a) gone.
Proof. apply sort_reverse_sorted, duplicates_NoDup, seen_nothing. Qed.

Lemma removed_duplicates :
  foldl remove_index (done ++ item :: rest) gone
  = done ++ item :: Results (keep_last (leading rest)) ++ after_leading rest.
Proof.
  rewrite remove_all by apply gone_sorted. rewrite (leading_split rest) at 1.
  change (done ++ item :: ?l) with (done ++ [item] ++ l). rewrite !without_app. simpl. rewrite length_fmap.
  rewrite (without_none gone 0 done) by (intros k Hk%gone_range; lia). f_equal.
  rewrite bool_decide_false by (intros Hk%gone_range; lia). simpl. f_equal.
  rewrite Nat.add_1_r. f_equal; [apply without_repeated; intros; apply gone_elem|].
  apply without_none. intros k Hk%gone_range. lia.
Qed.
End Removal.

Lemma foldl_remove_length (items : list ConversationItem) gone :
  StronglySorted (λ a b, b < a) gone → (∀ k, k ∈ gone → k < length items) →
  length (foldl remove_index items gone) + length gone = length items.
Proof.
  intros Hs. revert items. induction Hs as [|m gone Hs IH Hm]; intros items Hg; simpl; [lia|].
  pose proof (Hg m ltac:(set_solver)) as Hlt. assert (Hlen : length (remove_index items m) = length items - 1).
  { unfold remove_index. rewrite length_app, length_take, length_drop. lia. }
  rewrite Forall_forall in Hm. rewrite <-Nat.add_succ_comm. simpl. rewrite IH; [lia|].
  intros k Hk. specialize (Hm k Hk). lia.
Qed.

Lemma dedup_go_spec fuel done rest removed : 2 * length rest < fuel →
  let out := dedup_go fuel (length done) removed (done ++ rest) in
  out.1 = done ++ dedup false rest ∧ out.2 + length out.1 = removed + length (done ++ rest).
Proof.
  revert done rest removed. induction fuel as [|fuel IH]; intros done rest removed Hf; [lia|]. cbn [dedup_go].
  destruct rest as [|item rest]; [by rewrite app_nil_r, lookup_ge_None_2, app_nil_r by done|].
  rewrite here. simpl in Hf. destruct (is_nil (calls_of item)) eqn:Hnil.
  - apply is_nil_true in Hnil. rewrite dedup_plain by done. rewrite (app_assoc done [item] rest : done ++ item :: rest = _).
    replace (S (length done)) with (length (done ++ [item])) by (rewrite length_app; simpl; lia).
    rewrite (app_assoc done [item] (dedup false rest) : done ++ item :: dedup false rest = _). apply IH. lia.
  - apply is_nil_false in Hnil. rewrite dedup_item by done. cbv zeta. rewrite run_after_leading.
    pose proof (removed_duplicates done item rest) as Hrem.
    assert (Hlen := foldl_remove_length (done ++ item :: rest) _ (gone_sorted done rest)).
    rewrite Hrem in Hlen. set (gone := sort_reverse _) in *. set (run := leading rest) in *.
    destruct (is_nil gone) eqn:Hg.
    + apply is_nil_true in Hg. rewrite Hg in Hrem. simpl in Hrem.
      assert (Hk : keep_last run = run).
      { rewrite (leading_split rest) in Hrem at 1. simplify_eq. apply app_inv_tail in Hrem. by apply Results_inj in Hrem. }
      rewrite Hk. simpl. unfold run. rewrite (run_place item), (run_split item done rest).
      rewrite (app_assoc done (item :: _) _ : done ++ item :: _ ++ _ = _).
      apply IH. pose proof (after_shorter rest). lia.
    + apply is_nil_false in Hg. rewrite Hrem. assert (Hg' : 0 < length gone) by (destruct gone; [done|simpl; lia]).
      specialize (Hlen ltac:(intros k Hk; pose proof (gone_range done rest k Hk); pose proof (leading_length rest);
                             rewrite length_app; simpl; unfold gone, run in *; lia)).
      rewrite !length_app in Hlen. simpl in Hlen.
      edestruct (IH done (item :: Results (keep_last run) ++ after_leading rest) (removed + length gone)) as [H1 H2];
        [simpl; rewrite length_app in *; lia|].
      assert (Hd : dedup false (item :: Results (keep_last run) ++ after_leading rest)
                   = item :: Results (keep_last run) ++ dedup false (after_leading rest)).
      { rewrite dedup_item, leading_Results, after_Results by (done || apply leading_after).
        by rewrite (keep_last_id (keep_last run)) by apply keep_last_NoDup. }
      rewrite Hd in H1. split; [done|]. rewrite H2, !length_app. simpl. rewrite length_app in *. lia.
Qed.
Lemma dedup_duplicate_spec items :
  (dedup_duplicate_tool_results items).1 = dedup false items
  ∧ (dedup_duplicate_tool_results items).2 + length (dedup false items) = length items.
Proof.
  destruct (dedup_go_spec (S (2 * length items)) [] items 0 ltac:(lia)) as [H1 H2]. split; [done|].
  unfold dedup_duplicate_tool_results. simpl in *. by rewrite <-H1.
Qed.

(** * What a repaired conversation looks like *)

(** Every call is answered exactly once, by the results right behind its message, and there
    are no other results: [open] are the calls still to be answered. *)
Fixpoint paired (open : list str) (items : list ConversationItem) : Prop :=
  match items with
  | [] => open = []
  | CToolResult t :: items => tool_call_id t ∈ open ∧ paired (filter (λ id, id ≠ tool_call_id t) open) items
  | item :: items => open = [] ∧ paired (call_id <$> calls_of item) items
  end.
Definition distinct_calls (items : list ConversationItem) : Prop := Forall (λ i, NoDup (call_id <$> calls_of i)) items.
Definition messages (items : list ConversationItem) : list ConversationItem := List.filter (λ i, negb (is_result i)) items.

Lemma filter_absent (id : str) (l : list str) : id ∉ l → filter (λ x, x ≠ id) l = l.
Proof.
  induction l as [|x l IH]; intros Hi; [done|]. rewrite filter_cons_True by set_solver. f_equal. apply IH. set_solver.
Qed.
Lemma unanswered_ids calls t :
  call_id <$> unanswered calls [t] = filter (λ id, id ≠ tool_call_id t) (call_id <$> calls).
Proof.
  induction calls as [|c calls IH]; [done|]. unfold unanswered, one_of in *. csimpl. rewrite orb_false_r, filter_cons.
  unfold str_eqb in *. destruct (decide (call_id c = tool_call_id t)) as [He|He].
  - rewrite bool_decide_true by done. simpl. rewrite decide_False by naive_solver. apply IH.
  - rewrite bool_decide_false by done. simpl. rewrite decide_True by done. csimpl. f_equal. apply IH.
Qed.

Section Fill.
Context (reason : DanglingToolCallReason).

Lemma paired_synthetic pending rest : NoDup (call_id <$> pending) →
  paired [] rest → paired (call_id <$> pending) ((synthetic_result reason <$> pending) ++ rest).
Proof.
  intros Hn Hr. induction pending as [|c pending IH]; [done|]. csimpl in *. apply NoDup_cons in Hn as [Hc Hn].
  split; [set_solver|]. rewrite filter_cons_False by naive_solver. rewrite filter_absent by done. by apply IH.
Qed.

(** Results of a run are distinct and answer calls of its message. *)
Fixpoint clean (open : list str) (items : list ConversationItem) : Prop :=
  match items with
  | [] => True
  | CToolResult t :: items => tool_call_id t ∈ open ∧ clean (filter (λ id, id ≠ tool_call_id t) open) items
  | item :: items => clean (call_id <$> calls_of item) items
  end.

Lemma clean_fill pending items :
  NoDup (call_id <$> pending) → distinct_calls items → clean (call_id <$> pending) items →
  paired (call_id <$> pending) (fill reason pending items).
Proof.
  revert pending. induction items as [|item items IH]; intros pending Hn Hd Hc.
  - simpl. rewrite <-(app_nil_r (synthetic_result _ <$> _)). by apply paired_synthetic.
  - apply Forall_cons in Hd as [Hi Hd]. destruct item; simpl in *;
      try (apply paired_synthetic; [done|]; simpl; split; [done|]; first [apply (IH []); [constructor|done|done]|by apply IH]).
    destruct Hc as [Ht Hc]. split; [done|]. rewrite <-unanswered_ids in *. apply IH; [|done|done].
    rewrite unanswered_ids. by apply NoDup_filter.
Qed.

Lemma paired_fill pending items : paired (call_id <$> pending) items → fill reason pending items = items ∧ missing pending items = 0.
Proof.
  revert pending. induction items as [|item items IH]; intros pending Hp.
  - simpl in *. by apply fmap_nil_inv in Hp as ->.
  - destruct item; simpl in *; try (destruct Hp as [->%fmap_nil_inv Hp]; simpl;
      first [by destruct (IH [] Hp) as [-> ->]|by destruct (IH _ Hp) as [-> ->]]).
    destruct Hp as [_ Hp]. rewrite <-unanswered_ids in Hp. by destruct (IH _ Hp) as [-> ->].
Qed.
End Fill.

Lemma paired_leading open items id : paired open items → id ∈ ids (leading items) → id ∈ open.
Proof.
  revert open. induction items as [|item items IH]; intros open Hp Hi; [set_solver|].
  destruct item; simpl in *; try set_solver. destruct Hp as [Ht Hp].
  apply elem_of_cons in Hi as [->|Hi]; [done|]. specialize (IH _ Hp Hi). by apply list_elem_of_filter in IH as [_ ?].
Qed.
Lemma paired_dedup on open items : paired open items → dedup on items = items.
Proof.
  revert on open. induction items as [|item items IH]; intros on open Hp; [done|].
  destruct item; simpl in *; try (destruct Hp as [_ Hp]; by rewrite (IH _ _ Hp)).
  destruct Hp as [Ht Hp]. rewrite (IH _ _ Hp). assert (Ho : one_of (tool_call_id t) (ids (leading items)) = false).
  { apply one_of_not_In. intros Hi. apply (paired_leading _ _ _ Hp) in Hi. by apply list_elem_of_filter in Hi as [? _]. }
  by rewrite Ho, andb_false_r.
Qed.
Lemma paired_strip run_ids open items : open ⊆ run_ids → paired open items → strip_displaced run_ids items = (items, []).
Proof.
  revert run_ids open. induction items as [|item items IH]; intros run_ids open Hs Hp; [done|].
  destruct item; simpl in *; try (destruct Hp as [_ Hp]; erewrite IH; [reflexivity| |exact Hp]; reflexivity).
  destruct Hp as [Ht Hp]. erewrite IH; [| |exact Hp]; [|intros id [_ Hid]%list_elem_of_filter; by apply Hs].
  by rewrite (proj2 (one_of_In (tool_call_id t) run_ids)) by (by apply Hs).
Qed.

(** ** The three passes, run by run *)

Definition answering (run_ids : list str) (run : list ToolResultItem) : list ToolResultItem :=
  List.filter (λ t, one_of (tool_call_id t) run_ids) run.

Lemma strip_run run_ids run rest : leading rest = [] →
  (strip_displaced run_ids (Results run ++ rest)).1 = Results (answering run_ids run) ++ (strip_displaced [] rest).1.
Proof.
  intros Hr. induction run as [|t run IH]; csimpl.
  - by destruct rest as [|[] rest].
  - destruct (strip_displaced run_ids _) as [kept stripped]. simpl in IH. destruct (one_of _ _); csimpl; by rewrite IH.
Qed.
Lemma strip_item_run item run rest : is_result item = false → leading rest = [] →
  (strip_displaced [] (item :: Results run ++ rest)).1
  = item :: Results (answering (call_id <$> calls_of item) run) ++ (strip_displaced [] rest).1.
Proof.
  intros Hi Hr. destruct item; try done; simpl; rewrite <-strip_run by done; by destruct (strip_displaced _ _).
Qed.
Lemma dedup_item_run item run rest : is_result item = false → leading rest = [] →
  dedup false (item :: Results run ++ rest)
  = item :: Results (if is_nil (calls_of item) then run else keep_last run) ++ dedup false rest.
Proof. intros Hi Hr. destruct item as [| |a| | |]; simpl in *; try done; rewrite dedup_run by done; try done. by destruct (tool_calls a). Qed.

Lemma block_ind (P : list ConversationItem → Prop) :
  P [] → (∀ item run rest, is_result item = false → leading rest = [] → P rest → P (item :: Results run ++ rest)) →
  ∀ items, leading items = [] → P items.
Proof.
  intros H0 Hs items. induction items as [items IH] using (well_founded_induction (Wf_nat.well_founded_ltof _ length)).
  intros Hl. destruct items as [|item items]; [done|]. rewrite (leading_split items). apply Hs; [by destruct item|apply leading_after|].
  apply IH; [|apply leading_after]. unfold Wf_nat.ltof. simpl. pose proof (after_shorter items). lia.
Qed.

Lemma answering_nil run : answering [] run = [].
Proof. by induction run. Qed.
Lemma clean_run open run rest : NoDup (ids run) → Forall (λ t, tool_call_id t ∈ open) run → leading rest = [] → clean [] rest →
  clean open (Results run ++ rest).
Proof.
  intros Hn Ho Hr Hc. revert open Ho. induction run as [|t run IH]; intros open Ho; csimpl in *.
  - destruct rest as [|[] rest]; done.
  - apply NoDup_cons in Hn as [Ht Hn]. apply Forall_cons in Ho as [Hto Ho]. split; [done|]. apply IH; [done|].
    rewrite Forall_forall in *. intros t' Ht'. apply list_elem_of_filter. split; [|by apply Ho].
    intros Heq. apply Ht. rewrite <-Heq. by apply list_elem_of_fmap_2.
Qed.

Lemma answering_spec run_ids run t : t ∈ answering run_ids run ↔ tool_call_id t ∈ run_ids ∧ t ∈ run.
Proof. unfold answering. rewrite !list_elem_of_In, filter_In, one_of_In, list_elem_of_In. tauto. Qed.
Lemma answering_NoDup run_ids run : NoDup (ids run) → NoDup (ids (answering run_ids run)).
Proof.
  induction run as [|t run IH]; [done|]. csimpl. intros [Ht Hn]%NoDup_cons. destruct (one_of _ _); csimpl; [|by apply IH].
  constructor; [|by apply IH]. intros Hi. apply Ht. apply list_elem_of_fmap in Hi as (t' & -> & Hi). apply answering_spec in Hi as [_ Hi].
  by apply list_elem_of_fmap_2.
Qed.

Lemma stripped_leading items : leading items = [] → leading (strip_displaced [] items).1 = [].
Proof. intros Hl. destruct items as [|[] items]; try done; simpl; by destruct (strip_displaced _ _). Qed.
Lemma dedup_leading items : leading items = [] → leading (dedup false items) = [].
Proof. intros Hl. by destruct items as [|[] items]. Qed.

(** Both passes over a message and the results behind it. *)
Lemma tidy_block item run rest : is_result item = false → leading rest = [] →
  (strip_displaced [] (dedup false (item :: Results run ++ rest))).1
  = item :: Results (answering (call_id <$> calls_of item) (keep_last run)) ++ (strip_displaced [] (dedup false rest)).1.
Proof.
  intros Hi Hr. rewrite dedup_item_run, strip_item_run by (done || by apply dedup_leading).
  destruct (calls_of item); simpl; [|done]. by rewrite !answering_nil.
Qed.
Lemma tidy_clean items : leading items = [] → clean [] (strip_displaced [] (dedup false items)).1.
Proof.
  revert items. apply block_ind; [done|]. intros item run rest Hi Hr IH. rewrite tidy_block by done.
  set (l := (strip_displaced [] (dedup false rest)).1) in *.
  assert (Hc : clean (call_id <$> calls_of item) (Results (answering (call_id <$> calls_of item) (keep_last run)) ++ l)).
  { apply clean_run; [apply answering_NoDup, keep_last_NoDup| |by apply stripped_leading, dedup_leading|done].
    apply Forall_forall. by intros t [? _]%answering_spec. }
  by destruct item.
Qed.

(** ** The passes keep the messages *)

Lemma messages_app l r : messages (l ++ r) = messages l ++ messages r.
Proof. apply List.filter_app. Qed.
Lemma messages_synthetic reason pending : messages (synthetic_result reason <$> pending) = [].
Proof. induction pending as [|c pending IH]; [done|]. csimpl. apply IH. Qed.
Lemma messages_dedup on items : messages (dedup on items) = messages items.
Proof.
  revert on. induction items as [|item items IH]; intros on; [done|].
  destruct item; try (simpl; by rewrite IH). simpl. destruct (on && _); simpl; apply IH.
Qed.
Lemma messages_strip run_ids items : messages (strip_displaced run_ids items).1 = messages items.
Proof.
  revert run_ids. induction items as [|item items IH]; intros run_ids; [done|].
  destruct item; simpl;
    try (match goal with |- context [strip_displaced ?r items] => specialize (IH r); destruct (strip_displaced r items) end; simpl in *; by rewrite IH).
  specialize (IH run_ids). destruct (strip_displaced run_ids items). destruct (one_of _ _); apply IH.
Qed.
Lemma messages_fill reason pending items : messages (fill reason pending items) = messages items.
Proof.
  revert pending. induction items as [|item items IH]; intros pending; [apply messages_synthetic|].
  destruct item; simpl; rewrite ?messages_app, ?messages_synthetic; simpl; by rewrite ?IH.
Qed.
Lemma distinct_messages items : distinct_calls (messages items) ↔ distinct_calls items.
Proof.
  unfold distinct_calls. induction items as [|item items IH]; [done|]. rewrite Forall_cons, <-IH. destruct item; simpl;
    rewrite ?Forall_cons; try done. split; [|by intros [_ ?]]. intros ?. split; [constructor|done].
Qed.

Lemma dedup_at on l item r : is_result item = false → dedup on (l ++ item :: r) = dedup on l ++ dedup false (item :: r).
Proof.
  intros Hi. revert on. induction l as [|x l IH]; intros on; [by destruct item|].
  assert (Hl : leading (l ++ item :: r) = leading l).
  { clear IH. induction l as [|[] l IH]; simpl; try done; [by destruct item|by rewrite IH]. }
  destruct x; simpl; rewrite IH, ?Hl, ?app_assoc; done.
Qed.
Lemma strip_at run_ids l item r : is_result item = false →
  (strip_displaced run_ids (l ++ item :: r)).1 = (strip_displaced run_ids l).1 ++ (strip_displaced [] (item :: r)).1.
Proof.
  intros Hi. revert run_ids. induction l as [|x l IH]; intros run_ids; [by destruct item|].
  destruct x; simpl;
    match goal with |- context [strip_displaced ?q (l ++ item :: r)] =>
      specialize (IH q); destruct (strip_displaced q (l ++ _)), (strip_displaced q l) end; simpl in *; rewrite ?IH; try done.
  by destruct (one_of _ _); simpl; rewrite ?IH.
Qed.
Lemma fill_at reason pending l item r : is_result item = false →
  fill reason pending (l ++ item :: r) = fill reason pending l ++ fill reason [] (item :: r).
Proof.
  intros Hi. revert pending. induction l as [|x l IH]; intros pending; [by destruct item|].
  destruct x; simpl; rewrite IH; by rewrite <-?app_assoc.
Qed.

Definition tidy (items : list ConversationItem) : list ConversationItem := (strip_displaced [] (dedup false items)).1.
Lemma tidy_at before item rest : is_result item = false → tidy (before ++ item :: rest) = tidy before ++ tidy (item :: rest).
Proof.
  intros Hi. unfold tidy. rewrite dedup_at by done.
  assert (He : ∃ d, dedup false (item :: rest) = item :: d) by (destruct item; eauto; done). destruct He as [d ->]. by apply strip_at.
Qed.

Lemma repair_history_fill items : (repair_history items).1 = fill (HarnessHalted (lit "history_repair")) [] (tidy items).
Proof.
  unfold repair_history, tidy, strip_displaced_tool_results. destruct (dedup_duplicate_spec items) as [<- _].
  rewrite <-repair_dangling_fill. destruct (dedup_duplicate_tool_results items) as [d n]. cbn [fst].
  destruct (strip_displaced [] d) as [k stripped]. cbn [fst]. by destruct (repair_dangling_tool_calls k _).
Qed.
Lemma paired_unchanged items : paired [] items → repair_history items = (items, mkReport 0 [] 0).
Proof.
  intros Hp. unfold repair_history. destruct (dedup_duplicate_spec items) as [H1 H2].
  rewrite (paired_dedup _ _ _ Hp) in H1, H2. destruct (dedup_duplicate_tool_results items) as [d n]. cbn [fst snd] in *. subst d.
  replace n with 0 by lia. unfold strip_displaced_tool_results. rewrite (paired_strip [] [] items) by done.
  pose proof (repair_dangling_fill (HarnessHalted (lit "history_repair")) items) as H3.
  pose proof (repair_dangling_count (HarnessHalted (lit "history_repair")) items) as H4.
  revert H3 H4. destruct (paired_fill (HarnessHalted (lit "history_repair")) [] items Hp) as [H5 H6].
  destruct (repair_dangling_tool_calls items _) as [f m]. cbn [fst snd]. intros H3 H4. rewrite H5 in H3. rewrite H6 in H4. by subst.
Qed.
Lemma tidy_after items : tidy items = tidy (after_leading items).
Proof.
  unfold tidy. rewrite (leading_split items) at 1. rewrite dedup_run, strip_run, answering_nil by (apply leading_after || apply dedup_leading, leading_after). done.
Qed.

(** C16: The history repair makes a conversation acceptable to the providers, when no message
    has two calls with the same id (for such a message see [same_id_twice]).  In the result
    every tool call is answered exactly once, by the results right behind its message, and no
    other result is left; no message is lost, changed or moved; each message keeps, of the
    results behind it, the last one for each of its calls, in their order, followed by a
    synthetic one for each call without; and repairing again changes nothing and reports
    nothing. *)
Theorem repair_history_pairs items : distinct_calls items →
  let out := (repair_history items).1 in
  paired [] out ∧ messages out = messages items
  ∧ (∀ before a run rest, items = before ++ CAssistant a :: Results run ++ rest → leading rest = [] →
       let kept := answering (call_id <$> tool_calls a) (keep_last run) in
       ∃ before' rest', out = before' ++ CAssistant a :: Results kept
            ++ (synthetic_result (HarnessHalted (lit "history_repair")) <$> unanswered (tool_calls a) kept) ++ rest')
  ∧ repair_history out = (out, mkReport 0 [] 0).
Proof.
  intros Hd. cbv zeta. rewrite repair_history_fill.
  assert (Hm : messages (tidy items) = messages items) by (unfold tidy; by rewrite messages_strip, messages_dedup).
  assert (Hp : paired [] (fill (HarnessHalted (lit "history_repair")) [] (tidy items))).
  { apply (clean_fill _ []); [constructor|by rewrite <-distinct_messages, Hm, distinct_messages|].
    rewrite tidy_after. apply tidy_clean, leading_after. }
  split_and!; [done|by rewrite messages_fill| |by apply paired_unchanged].
  intros before a run rest -> Hr. rewrite tidy_at by done. unfold tidy at 2. rewrite tidy_block by done.
  rewrite fill_at by done. eexists _, _. f_equal. simpl. f_equal. rewrite fill_run by (by apply stripped_leading, dedup_leading).
  done.
Qed.
Definition demo_call (id : string) : ToolCall := mkCall (lit id) (lit "read_file") (lit "{}").
Definition demo_says (calls : list ToolCall) : ConversationItem := CAssistant (mkAssistant [] calls None None None).
Lemma repair_history_pairs_witness :
  let items := [tool_result (lit "z") (lit "orphan"); demo_says [demo_call "a"; demo_call "b"];
                tool_result (lit "a") (lit "cancelled"); tool_result (lit "a") (lit "real"); CSystem []; tool_result (lit "b") (lit "late")] in
  distinct_calls items ∧ paired [] (repair_history items).1.
Proof.
  intros items. assert (Hd : distinct_calls items).
  { repeat constructor; simpl; repeat constructor; vm_compute; set_solver. }
  split; [exact Hd|]. exact (proj1 (repair_history_pairs items Hd)).
Defined.

(** Two calls of one message with the same id get two synthetic results, which the next
    repair takes for duplicates. *)
Example same_id_twice :
  let once := (repair_history [demo_says [demo_call "a"; demo_call "a"]]).1 in
  (length once, duplicates_removed (repair_history once).2, length (repair_history once).1) = (3, 1, 2).
Proof. vm_compute. reflexivity. Qed.
