(* ===== verification/SamplingErr.v ===== *)
(** Sampling errors (crates/codegen/xai-grok-sampling-types/src/error.rs): the errors of a
    request to a model, their classes, and what of a provider's error body is shown.

    An error of reqwest is what its accessors answer, an error of serde_json its text and
    position.  The parsers that serde derives, the texts of HTTP statuses and JSON printing
    are the interface [ErrorEnv]. *)
From stdpp Require Import base list strings.
From S2P Require Import Prelude RustStr Json BreakerConfig Conversation.
Open Scope Z_scope.

Record EmptyResponseContext := mkEmpty {
  ec_reason : EmptyReason;
  had_reasoning : bool;
  content_len : nat;
  tool_call_count : nat;
  ec_finish_reason : option str;
  ec_completion_tokens : option N;
  ec_reasoning_tokens : option N;
  ec_prompt_tokens : option N;
  ec_model : str;
  ec_first_choice_seen : bool
}.
Definition finish_reason_str (c : EmptyResponseContext) : str := default (lit "none") (ec_finish_reason c).

Record ResponseModelMetadata := mkMetadata {
  md_context_window : option N; max_completion_tokens : option N; models_etag : option str
}.

Inductive SentCredential := Sent | SameAsCurrent | DifferentFromCurrent | CurrentUnavailable | Missing | UnknownCredential.
Definition credential_is_sent (c : SentCredential) : bool :=
  match c with Sent | SameAsCurrent | DifferentFromCurrent | CurrentUnavailable => true | Missing | UnknownCredential => false end.
Definition from_sent_fragment (fragment : option str) : SentCredential :=
  match fragment with Some _ => Sent | None => Missing end.

Record ReqwestError := mkReqwest {
  is_timeout : bool; is_connect : bool; is_status : bool; rq_status : option Z; is_request : bool; is_body : bool;
  rq_url : option str; rq_text : str
}.
Record SerdeError := mkSerde { se_text : str; se_line : N; se_column : N }.

Inductive SamplingError :=
  | EAuth (message : str) (credential : SentCredential)
  | EInvalidConfiguration (msg : str)
  | EHttp (e : ReqwestError)
  | ESerialization (e : SerdeError)
  | EApi (status : Z) (message : str) (model_metadata : option ResponseModelMetadata) (retry_after_secs : option Z)
      (should_retry : option bool)
  | EEventStream (msg : str)
  | EStream (error_type message : str)
  | EIdleTimeout (elapsed_secs : Z)
  | EEmptyResponse (context : EmptyResponseContext)
  | EMaxTokensTruncation
  | EDoomLoop (triggers : list str) (aborted_at_chunk : option N).

Definition auth_unknown (message : str) : SamplingError := EAuth message UnknownCredential.

(** * Classes *)

Definition is_auth_error (e : SamplingError) : bool :=
  match e with EAuth _ _ => true | EApi status _ _ _ _ => status =? 401 | _ => false end.
Definition is_rate_limited (e : SamplingError) : bool :=
  match e with EApi status _ _ _ _ => status =? 429 | _ => false end.
Definition is_payload_too_large (e : SamplingError) : bool :=
  match e with EApi status _ _ _ _ => status =? 413 | _ => false end.
Definition is_likely_body_rejected (e : SamplingError) : bool :=
  match e with EHttp r => (is_request r || is_body r) && negb (is_timeout r) && negb (is_connect r) | _ => false end.
Definition is_encrypted_content_error (e : SamplingError) : bool :=
  match e with EApi status message _ _ _ => (status =? 400) && contains (lit "encrypted_content") message | _ => false end.
Definition is_image_processing_error (e : SamplingError) : bool :=
  match e with
  | EApi status message _ _ _ => ((status =? 400) || (status =? 500)) && contains (lit "Could not process image") message
  | _ => false
  end.

Definition is_retryable_api_status (status : Z) : bool := BreakerConfig.should_retry edge_client status.
Definition is_retryable_reqwest (r : ReqwestError) : bool :=
  if is_timeout r || is_connect r then true
  else if is_status r then match rq_status r with Some s => is_retryable_api_status s | None => false end
  else is_request r || is_body r.

Definition is_retryable (e : SamplingError) : bool :=
  match e with
  | EAuth _ _ | EInvalidConfiguration _ | ESerialization _ | EIdleTimeout _ | EMaxTokensTruncation => false
  | EHttp r => is_retryable_reqwest r
  | EApi status _ _ _ _ => is_retryable_api_status status
  | EEventStream _ | EStream _ _ | EEmptyResponse _ | EDoomLoop _ _ => true
  end.
Definition retry_after (e : SamplingError) : option Z := match e with EApi _ _ _ r _ => r | _ => None end.
Definition should_retry_header (e : SamplingError) : option bool := match e with EApi _ _ _ _ s => s | _ => None end.

Definition context_length_text (message : str) : bool :=
  let m := to_ascii_lowercase message in
  contains (lit "too long for this model") m || contains (lit "prompt is too long") m
  || contains (lit "maximum prompt length") m || contains (lit "maximum context length") m
  || contains (lit "context_length_exceeded") m
  || (contains (lit "current message") m && contains (lit "exceeds budget") m).
Definition is_context_length_error (e : SamplingError) : bool :=
  match e with EApi _ message _ _ _ | EStream _ message => context_length_text message | _ => false end.

Definition message_looks_overloaded (message : str) : bool :=
  let m := to_ascii_lowercase message in
  contains (lit "overloaded") m || contains (lit "service_unavailable_error") m.
Definition is_overloaded (e : SamplingError) : bool :=
  match e with
  | EApi status message _ _ _ =>
      (status =? 529) || (((500 <=? status) && (status <? 600)) && message_looks_overloaded message)
  | EStream error_type _ =>
      eq_ignore_ascii_case error_type (lit "overloaded_error")
      || eq_ignore_ascii_case error_type (lit "service_unavailable_error")
  | _ => false
  end.
Definition is_retry_vetoed (e : SamplingError) : bool :=
  bool_decide (should_retry_header e = Some false) || is_context_length_error e.

(** * Provider errors *)

Record ErrorBody := mkBody { eb_message : option str; eb_kind : option str; eb_code : option str }.
Record FlatErrorResponse := mkFlat { flat_error : str; flat_code : option str }.
Record ParsedProviderError := mkParsed { pe_kind : option str; pe_code : option str; pe_message : str }.

Class ErrorEnv := {
  (** the derived [Deserialize] of [ErrorResponse] and [FlatErrorResponse] on a text *)
  parse_error_response : str → option ErrorBody;
  parse_flat_error_response : str → option FlatErrorResponse;
  (** [std::str::from_utf8] and [serde_json::from_slice::<Value>] on the bytes of a body *)
  body_text : list N → option str;
  body_json : list N → option json;
  (** [Value::to_string] *)
  json_text : json → str;
  (** the text of a [StatusCode] *)
  status_text : Z → str;
  (** [serde::de::Error::custom] *)
  custom_error : str → SerdeError
}.

Definition FREE_USAGE_EXHAUSTED_CODE : str := lit "subscription:free-usage-exhausted".
Definition SAFE_CONTEXT_LENGTH_MESSAGE : str := lit "The prompt is too long for this model.".
Definition SAFE_ENCRYPTED_CONTENT_MESSAGE : str := lit "encrypted_content from another model family".
Definition SAFE_IMAGE_PROCESSING_MESSAGE : str := lit "Could not process image".
Definition SAFE_CREDIT_BLOCK_MESSAGE : str := lit "provider credit balance exhausted".
Definition SAFE_OVERLOADED_MESSAGE : str := lit "overloaded_error".
Definition SAFE_STREAM_ERROR_MESSAGE : str := lit "upstream stream error".

Inductive ProviderErrorClass :=
  | FreeUsageExhausted | ContextLength | EncryptedContent | ImageProcessing | CreditBlock | Overloaded | Generic.
Record SafeProviderError := mkSafe { safe_type : str; safe_message : str; safe_class : ProviderErrorClass }.

Definition ALLOWLISTED : list str :=
  [lit "authentication_error"; lit "context_length_exceeded"; lit "invalid_request_error"; lit "overloaded_error";
   lit "rate_limit_error"; lit "server_error"; FREE_USAGE_EXHAUSTED_CODE].
Definition allowlisted_error_type (value : str) : option str := if one_of value ALLOWLISTED then Some value else None.

Definition is_credit_block_message (message : str) : bool :=
  let m := to_ascii_lowercase message in
  contains (lit "spending-limit") m || contains (lit "spending limit") m || contains (lit "out of credits") m
  || contains (lit "run out of credits") m || contains (lit "usage balance exhausted") m
  || contains (lit "usage limit reached") m.

Definition classify_provider_error (p : ParsedProviderError) : SafeProviderError :=
  let typed_value := match pe_code p with Some c => Some c | None => pe_kind p end in
  if bool_decide (typed_value = Some FREE_USAGE_EXHAUSTED_CODE)
  then mkSafe FREE_USAGE_EXHAUSTED_CODE FREE_USAGE_EXHAUSTED_CODE FreeUsageExhausted
  else if existsb (λ v, one_of v [lit "overloaded_error"; lit "service_unavailable_error"])
            (option_list (pe_code p) ++ option_list (pe_kind p))
  then mkSafe (lit "overloaded_error") SAFE_OVERLOADED_MESSAGE Overloaded
  else if bool_decide (typed_value = Some (lit "context_length_exceeded")) || context_length_text (pe_message p)
  then mkSafe (lit "context_length_exceeded") SAFE_CONTEXT_LENGTH_MESSAGE ContextLength
  else if contains (lit "encrypted_content") (pe_message p)
  then mkSafe (lit "invalid_request_error") SAFE_ENCRYPTED_CONTENT_MESSAGE EncryptedContent
  else if contains (lit "Could not process image") (pe_message p)
  then mkSafe (lit "invalid_request_error") SAFE_IMAGE_PROCESSING_MESSAGE ImageProcessing
  else if is_credit_block_message (pe_message p)
  then mkSafe (lit "credit_balance_exhausted") SAFE_CREDIT_BLOCK_MESSAGE CreditBlock
  else mkSafe (default (lit "unknown") (typed_value ≫= allowlisted_error_type)) SAFE_STREAM_ERROR_MESSAGE Generic.

(** [write!] of a status code *)
Definition code_text (status : Z) : str := decimal (Z.to_N status).
Definition status_user_message (status : Z) : str :=
  if (502 <=? status) && (status <=? 504)
  then lit "Grok is temporarily unavailable. Please try again in a moment. (HTTP " ++ code_text status ++ lit ")."
  else if status =? 529
  then lit "Grok is temporarily overloaded. Please try again in a moment. (HTTP " ++ code_text status ++ lit ")."
  else if ((520 <=? status) && (status <=? 524)) || (status =? 530)
  then lit "Connection to Grok timed out or was interrupted. Please try again. (HTTP " ++ code_text status ++ lit ")."
  else if (status =? 525) || (status =? 526)
  then lit "Secure connection to Grok failed. (HTTP " ++ code_text status ++ lit ")."
  else if (500 <=? status) && (status <? 600)
  then lit "Something went wrong on the server (HTTP " ++ code_text status ++ lit ")."
  else lit "Request failed (HTTP " ++ code_text status ++ lit ").".

Definition PROVIDER_ERROR_BODY_PREVIEW_MAX : nat := 256.

Definition has_credential_marker (s : str) : bool :=
  let lower := to_ascii_lowercase s in
  contains (lit "bearer ") lower || contains (lit "authorization:") lower || contains (lit "x-api-key") lower
  || contains (lit "sk-") lower || contains (lit "api_key=") lower || contains (lit "access_token") lower.

Definition token_char (c : char) : bool :=
  is_ascii_alphanumeric c || existsb (N.eqb c) (lit "_.-:/").
Definition long_run_with_digit (n : nat) (run : str) : bool := (n <=? utf8_len run)%nat && existsb is_ascii_digit run.

Definition is_safe_diagnostic_token (s : str) : bool :=
  let s := trim s in
  if is_nil s || (64 <? utf8_len s)%nat then false
  else if negb (forallb token_char s) then false
  else if has_credential_marker s then false
  else if existsb is_ascii_upper s then false
  else negb (existsb (long_run_with_digit 16) (split_where (λ c, negb (is_ascii_alphanumeric c)) s)).

Definition safe_validation_message (message : str) : option str :=
  let message := trim message in
  if is_nil message || (200 <? utf8_len message)%nat then None
  else if has_credential_marker message then None
  else if existsb (long_run_with_digit 24)
            (split_where (λ c, negb (is_ascii_alphanumeric c) && negb (N.eqb c 95) && negb (N.eqb c 45)) message)
  then None
  else Some message.

Definition truncate_with_notice (s : str) (max_chars : nat) : str :=
  if (length s <=? max_chars)%nat then s else take max_chars s ++ lit " (truncated)".

Section Env.
Context `{ErrorEnv}.

Definition serialization_message (msg : str) : SamplingError := ESerialization (custom_error msg).
Definition SERIALIZATION_DISPLAY_PREFIX : str := lit "serialization error: ".
Definition serialization_from_rendered (rendered : str) : SamplingError :=
  serialization_message (default rendered (strip_prefix SERIALIZATION_DISPLAY_PREFIX rendered)).

(** [Display] *)
Definition error_text (e : SamplingError) : str :=
  match e with
  | EAuth message _ => message
  | EInvalidConfiguration msg => lit "invalid client configuration: " ++ msg
  | EHttp r => lit "request error: " ++ rq_text r
  | ESerialization s => SERIALIZATION_DISPLAY_PREFIX ++ se_text s
  | EApi status message _ _ _ => lit "API error (status " ++ status_text status ++ lit "): " ++ message
  | EEventStream msg => lit "reqwest error stream: " ++ msg
  | EStream error_type message => lit "stream error (" ++ error_type ++ lit "): " ++ message
  | EIdleTimeout secs => lit "inference idle timeout after " ++ decimal (Z.to_N secs) ++ lit "s with no chunks"
  | EEmptyResponse c => lit "empty response from model (" ++ empty_reason_str (ec_reason c) ++ lit ")"
  | EMaxTokensTruncation => lit "response truncated by max_tokens"
  | EDoomLoop triggers _ => lit "doom loop detected: " ++ join (lit ", ") triggers
  end.

Definition try_parse_error (data : str) : option ParsedProviderError :=
  match parse_error_response data with
  | Some b => Some (mkParsed (eb_kind b) (eb_code b) (default [] (eb_message b)))
  | None => (λ f, mkParsed None (flat_code f) (flat_error f)) <$> parse_flat_error_response data
  end.
Definition safe_structured_error (bytes : list N) : option SafeProviderError :=
  classify_provider_error <$> (body_text bytes ≫= try_parse_error).

Definition parse_error_bytes (bytes : list N) : str :=
  match safe_structured_error bytes with
  | Some safe => match safe_class safe with Generic => lit "upstream error" | _ => safe_message safe end
  | None => lit "upstream error"
  end.

Definition labelled (label : string) (value : option str) : list str := option_list ((λ v, lit label ++ v) <$> value).
Definition filtered (p : str → bool) (v : option str) : option str :=
  match v with Some s => if p s then Some s else None | None => None end.
Definition str_field (k : string) (v : json) : option str := json_get (lit k) v ≫= json_as_str.
Definition error_parts (err : json) : list str :=
  labelled "type=" (str_field "type" err ≫= allowlisted_error_type)
  ++ labelled "param=" (filtered is_safe_diagnostic_token (str_field "param" err))
  ++ labelled "code="
       (filtered (λ s, is_safe_diagnostic_token s || bool_decide (is_Some (allowlisted_error_type s))) (str_field "code" err))
  ++ labelled "message=" (str_field "message" err ≫= safe_validation_message).
Definition loc_part (value : json) : list str :=
  labelled "loc=" (filtered (λ t, (utf8_len t <=? 120)%nat && negb (has_credential_marker t)) (json_text <$> json_get (lit "loc") value)).

Definition structured_diagnostic_summary (bytes : list N) : option str :=
  match body_json bytes with
  | None => None
  | Some value =>
      let parts := match json_get (lit "error") value with Some err => error_parts err | None => [] end in
      let parts := parts ++ (if is_nil parts
                             then labelled "code=" (str_field "code" value ≫= allowlisted_error_type)
                             else []) in
      let parts := parts ++ loc_part value
                   ++ labelled "msg=" (str_field "msg" value ≫= safe_validation_message) in
      if is_nil parts then None else Some (join (lit " ") parts)
  end.

Definition provider_error_body_preview (bytes : list N) : str :=
  if is_nil bytes then []
  else default [] ((λ s, truncate_with_notice s PROVIDER_ERROR_BODY_PREVIEW_MAX) <$> structured_diagnostic_summary bytes).

Definition fallback_message (status : Z) (bytes : list N) : str :=
  if status =? 400 then
    let preview := provider_error_body_preview bytes in
    if is_nil preview then status_user_message status else status_user_message status ++ lit " " ++ preview
  else status_user_message status.
Definition user_facing_api_error_message (status : Z) (bytes : list N) : str :=
  match safe_structured_error bytes with
  | Some safe => match safe_class safe with Generic => fallback_message status bytes | _ => safe_message safe end
  | None => fallback_message status bytes
  end.

Definition try_parse_stream_error (data : str) : option SamplingError :=
  (λ p, let safe := classify_provider_error p in EStream (safe_type safe) (safe_message safe)) <$> try_parse_error data.
End Env.
