(* ===== verification/SampleEvents.v ===== *)
(** The events of a sampling request (crates/codegen/xai-grok-sampler/src/events.rs), its
    latency numbers (metrics.rs), the loop that the three stream transforms share
    (stream/*.rs) and the buffered consumer (stream/collect.rs).

    An event carries the id of its request in the source; here a list of events belongs to
    one request and the actor adds the id.  Instants and durations are nanoseconds.

    Doom-loop signals: the labels the server reports when a generation repeats itself
    (crates/codegen/xai-grok-sampling-types/src/doom_loop.rs) and their collector for one
    attempt (crates/codegen/xai-grok-sampler/src/doom_loop.rs).

    The parser of JSON texts is a parameter of the functions that read a frame. *)
From Stdlib Require Import SpecFloat.
From stdpp Require Import base list strings.
From S2P Require Import Prelude RustStr Json BreakerConfig Conversation SamplingErr.
Open Scope Z_scope.

(** * Doom-loop signals *)

Definition DOOM_LOOP_CHECK_EVENT_TYPE : str := lit "response.doom_loop_check".
Definition THINKING_CHANNEL : str := lit "thinking".
Definition U32 : Z := 2 ^ 32.

Record DoomLoopRecoveryPolicy := mkDoomPolicy { max_threshold : Z; doom_max_retries : Z }.
Definition DEFAULT_MAX_THRESHOLD : Z := 8.
Definition DEFAULT_DOOM_RETRIES : Z := 2.
Definition default_doom_policy : DoomLoopRecoveryPolicy := mkDoomPolicy DEFAULT_MAX_THRESHOLD DEFAULT_DOOM_RETRIES.
(** [u32::clamp] *)
Definition clamp (lo hi v : Z) : Z := Z.max lo (Z.min hi v).
Definition clamp_max_threshold (v : Z) : Z := clamp 2 64 v.
Definition clamp_max_retries (v : Z) : Z := clamp 0 5 v.

Inductive DoomLoopSignalKind := TailRepetition (t : Z) | LowLogprob | UnknownKind (head : str).
Record DoomLoopSignal := mkSignal { sig_kind : DoomLoopSignalKind; channel : str; sig_raw : str }.
#[export] Instance DoomLoopSignalKind_eq_dec : EqDecision DoomLoopSignalKind.
Proof. solve_decision. Defined.
#[export] Instance DoomLoopSignal_eq_dec : EqDecision DoomLoopSignal.
Proof. solve_decision. Defined.

(** [DoomLoopSignal::parse] *)
Definition parse_signal (raw : str) : DoomLoopSignal :=
  let '(head, channel) := default (raw, []) (split_once (lit "@") raw) in
  let kind :=
    match split_once (lit ":") head with
    | Some (name, threshold) =>
        if str_eqb name (lit "tail_repetition")
        then match parse_uint U32 threshold with Some t => TailRepetition t | None => UnknownKind head end
        else UnknownKind head
    | None => if str_eqb head (lit "low_logprob") then LowLogprob else UnknownKind head
    end in
  mkSignal kind channel raw.

Definition is_confident (p : DoomLoopRecoveryPolicy) (s : DoomLoopSignal) : bool :=
  str_eqb (channel s) THINKING_CHANNEL
  && match sig_kind s with TailRepetition t => t <=? max_threshold p | _ => false end.
Definition confident_triggers (p : DoomLoopRecoveryPolicy) (signals : list DoomLoopSignal) : list str :=
  sig_raw <$> List.filter (is_confident p) signals.

(** One step of [DoomLoopSignal::tightest]: the best label so far and its threshold. *)
Definition tighter (best : option (Z * str)) (raw : str) : option (Z * str) :=
  match sig_kind (parse_signal raw) with
  | TailRepetition t =>
      if match best with None => true | Some (bt, _) => t <? bt end then Some (t, raw) else best
  | _ => best
  end.
Definition tightest (raws : list str) : option str :=
  match foldl tighter None raws with Some (_, raw) => Some raw | None => head raws end.

(** * Frames *)

Inductive DoomLoopPeek := CheckEvent (signals : list DoomLoopSignal) | ResponseField (signals : list DoomLoopSignal) | NoPeek.

Definition json_items (v : json) : option (list json) := match v with JArray l => Some l | _ => None end.
Definition parse_triggers (triggers : option json) : list DoomLoopSignal :=
  match triggers ≫= json_items with Some l => parse_signal <$> omap json_as_str l | None => [] end.
(** [Value::pointer] through the keys of nested objects. *)
Definition pointer (keys : list str) (v : json) : option json :=
  foldl (λ o k, o ≫= json_get k) (Some v) keys.

Section Frames.
Context (from_str : str → option json).

Definition is_check_type (v : json) : bool :=
  bool_decide (json_get (lit "type") v ≫= json_as_str = Some DOOM_LOOP_CHECK_EVENT_TYPE).

Definition peek_doom_loop (data : str) : DoomLoopPeek :=
  if negb (contains (lit "doom_loop_check") data) then NoPeek
  else match from_str data with
       | None => NoPeek
       | Some v =>
           if is_check_type v
           then CheckEvent (parse_triggers (pointer [lit "doom_loop_check"; lit "triggers"] v))
           else match pointer [lit "response"; lit "doom_loop_check"; lit "triggers"] v with
                | Some triggers => ResponseField (parse_triggers (Some triggers))
                | None => NoPeek
                end
       end.

Definition is_check_event (event_name data : str) : bool :=
  str_eqb event_name DOOM_LOOP_CHECK_EVENT_TYPE
  || (contains DOOM_LOOP_CHECK_EVENT_TYPE data
      && match from_str data with Some v => is_check_type v | None => false end).

(** * The collector of one attempt *)

Record Collector := mkCollector {
  signals : list DoomLoopSignal; malformed_logged : bool; collector_policy : DoomLoopRecoveryPolicy; abort_disarmed : bool
}.
Definition new_collector (p : DoomLoopRecoveryPolicy) : Collector := mkCollector [] false p false.
Definition disarm_abort (c : Collector) : Collector :=
  mkCollector (signals c) (malformed_logged c) (collector_policy c) true.
Definition abort_triggers (c : Collector) : option (list str) :=
  if abort_disarmed c then None
  else match confident_triggers (collector_policy c) (signals c) with [] => None | confident => Some confident end.

Definition record_signal (known : list DoomLoopSignal) (s : DoomLoopSignal) : list DoomLoopSignal :=
  if existsb (λ k, str_eqb (sig_raw k) (sig_raw s)) known then known else known ++ [s].
Definition record (c : Collector) (new : list DoomLoopSignal) : Collector :=
  mkCollector (foldl record_signal (signals c) new) (malformed_logged c) (collector_policy c) (abort_disarmed c).
Definition log_malformed_once (c : Collector) : Collector :=
  mkCollector (signals c) true (collector_policy c) (abort_disarmed c).

(** The collector after a frame and whether the frame is swallowed. *)
Definition absorb (c : Collector) (event_name data : str) : Collector * bool :=
  let named := str_eqb event_name DOOM_LOOP_CHECK_EVENT_TYPE in
  let keep new := if is_nil new then log_malformed_once c else record c new in
  match peek_doom_loop data with
  | CheckEvent new => (keep new, true)
  | ResponseField new => (keep new, named)
  | NoPeek => (if named then log_malformed_once c else c, named)
  end.
Definition take_signals (c : Collector) : list DoomLoopSignal * Collector :=
  (signals c, mkCollector [] (malformed_logged c) (collector_policy c) (abort_disarmed c)).
End Frames.

(** * Laws *)

Definition same_settings (a b : Collector) : Prop :=
  collector_policy a = collector_policy b ∧ abort_disarmed a = abort_disarmed b.

Lemma absorb_settings from_str c name data : same_settings (absorb from_str c name data).1 c.
Proof.
  unfold absorb, same_settings. destruct (peek_doom_loop from_str data) as [l|l|]; simpl.
  1,2: by destruct l.
  by destruct (str_eqb _ _).
Qed.

Lemma disarmed_never_aborts c : abort_disarmed c = true → abort_triggers c = None.
Proof. unfold abort_triggers. by intros ->. Qed.

Lemma abort_triggers_ne c l : abort_triggers c = Some l → l ≠ [].
Proof. unfold abort_triggers. destruct (abort_disarmed c); [done|]. by destruct (confident_triggers _ _); intros [= <-]. Qed.

(** * Events and their data *)

(** * Latency *)

Definition as_millis (d : Z) : Z := d / NANOS_PER_MILLI.

Record InferenceLatencyStats := mkStats {
  time_to_first_token_ms : option Z; time_to_last_byte_ms : Z; chunk_count : Z; itl_intervals_ms : list Z;
  itl_p50_ms : option Z; itl_p99_ms : option Z; itl_max_ms : option Z; itl_mean_ms : option Z; attempts : Z
}.
Definition with_attempts (n : Z) (m : InferenceLatencyStats) : InferenceLatencyStats :=
  mkStats (time_to_first_token_ms m) (time_to_last_byte_ms m) (chunk_count m) (itl_intervals_ms m) (itl_p50_ms m)
    (itl_p99_ms m) (itl_max_ms m) (itl_mean_ms m) n.

(** The [f64] 0.99, and [f64::ceil] as an integer on the finite values met here. *)
Definition f64_099 : spec_float := S754_finite false 8917127262193582 (-53).
Definition f64_ceil (x : spec_float) : Z :=
  match x with
  | S754_finite false m e => if 0 <=? e then Z.pos m * 2 ^ e else - (- Z.pos m / 2 ^ (- e))
  | _ => 0
  end.
Definition at_index (i : Z) (l : list Z) : Z := nth (Z.to_nat i) l 0.

(** p50, p99, max, mean and sum of a sorted list that is not empty. *)
Definition compute_percentiles (sorted : list Z) : Z * Z * Z * Z * Z :=
  let len := Z.of_nat (length sorted) in
  let p99_idx := Z.min (Z.max 0 (f64_ceil (SFmul 53 1024 (f64_of_Z len) f64_099) - 1)) (len - 1) in
  let sum := foldr Z.add 0 sorted in
  (at_index (len / 2) sorted, at_index p99_idx sorted, at_index (len - 1) sorted, sum / len, sum).

Fixpoint windows (l : list Z) : list Z :=
  match l with
  | a :: (b :: _) as rest => as_millis (b - a) :: windows rest
  | _ => []
  end.
Definition insert_asc (x : Z) (l : list Z) : list Z := List.filter (λ y, y <? x) l ++ x :: List.filter (λ y, x <=? y) l.
Definition sort_asc (l : list Z) : list Z := foldr insert_asc [] l.

Definition from_timestamps (stream_start : Z) (chunk_timestamps : list Z) (stream_end : Z) : InferenceLatencyStats :=
  let ttlb := as_millis (stream_end - stream_start) in
  match chunk_timestamps with
  | [] => mkStats None ttlb 0 [] None None None None 0
  | first :: _ =>
      let intervals := windows chunk_timestamps in
      let '(p50, p99, max, mean) :=
        match intervals with
        | [] => (None, None, None, None)
        | _ => let '(p50, p99, max, mean, _) := compute_percentiles (sort_asc intervals) in
               (Some p50, Some p99, Some max, Some mean)
        end in
      mkStats (Some (as_millis (first - stream_start))) ttlb (Z.min (Z.of_nat (length chunk_timestamps)) (U32 - 1))
        intervals p50 p99 max mean 0
  end.

(** * Responses and events *)

Record ConversationResponse := mkResponse {
  items : list ConversationItem;
  stop_reason : option StopReason;
  usage : option TokenUsage;
  cost_usd_ticks : option Z;
  message_chunks_emitted : N;
  doom_loop_signals : list DoomLoopSignal;
  stop_message : option str;
  message_id : option str;
  raw_stop_reason : option str;
  stop_sequence : option str
}.

Inductive SamplingChannel := ChText | ChReasoning.
#[export] Instance SamplingChannel_eq_dec : EqDecision SamplingChannel.
Proof. solve_decision. Defined.

Inductive SamplingErrorKind :=
  | KAuth | KHttp | KApi | KSerialization | KIdleTimeout | KRateLimited | KEmptyResponse | KMaxTokens | KDoomLoop.
#[export] Instance SamplingErrorKind_eq_dec : EqDecision SamplingErrorKind.
Proof. solve_decision. Defined.

Record SamplingErrorInfo := mkInfo {
  kind : SamplingErrorKind;
  status_code : option Z;
  info_message : str;
  info_is_retryable : bool;
  retry_after_secs : option Z;
  info_should_retry : option bool;
  model_metadata : option ResponseModelMetadata;
  empty_response_context : option EmptyResponseContext;
  doom_loop_triggers : option (list str);
  doom_loop_aborted_at_chunk : option N;
  info_credential : SentCredential
}.

Inductive SamplingEvent :=
  | StreamStarted (timestamp_ms : Z)
  | FirstToken
  | ChannelToken (channel : SamplingChannel) (text : str) (chunk_index : N)
  | ToolCallDelta (tool_index : N) (id name arguments_delta : option str)
  | ResponseStarted (message_id model : str) (input_tokens cache_read_input_tokens cache_creation_input_tokens : N)
  | ReasoningCompleted (signature : str)
  | Completed (response : ConversationResponse) (metrics : InferenceLatencyStats)
  | AttemptDiscarded
  | Retrying (attempt max_retries : Z) (kind : SamplingErrorKind) (reason : str) (triggers : option (list str))
      (aborted_at_chunk : option N)
  | Failed (error : SamplingErrorInfo)
  | ModelMetadata (metadata : ResponseModelMetadata)
  | BackendToolCallStarted (call_id name : str)
  | BackendToolCallCompleted (call_id name : str) (result : option json).

Definition is_terminal (e : SamplingEvent) : bool :=
  match e with Completed _ _ | Failed _ => true | _ => false end.
(** The events that make [drive_l2] note that output was seen. *)
Definition is_output (e : SamplingEvent) : bool :=
  match e with
  | FirstToken | ChannelToken _ _ _ | ToolCallDelta _ _ _ _ | BackendToolCallStarted _ _
  | BackendToolCallCompleted _ _ _ => true
  | _ => false
  end.

Definition no_info (kind : SamplingErrorKind) (message : str) (retryable : bool) : SamplingErrorInfo :=
  mkInfo kind None message retryable None None None None None None UnknownCredential.

(** * Raw streams *)

(** The items of a raw stream, each with the time the reader waits for it, and the wait for
    its end; [None] when the stream stays open without an item. *)
Record RawStream (A : Type) := mkRaw {
  started_ms : Z; started_at : Z; arrivals : list (Z * result A SamplingError); ends : option Z
}.
Arguments mkRaw {A} _ _ _ _.
Arguments started_ms {A} _.
Arguments started_at {A} _.
Arguments arrivals {A} _.
Arguments ends {A} _.

(** What one event does to the loop: go on, or return after the events it yields. *)
Inductive Flow (St : Type) := Next (s : St) (has_content should_break : bool) | Return (s : St).
Arguments Next {St} _ _ _.
Arguments Return {St} _.

Section Env.
Context `{ErrorEnv}.

(** [SamplingErrorInfo::from] *)
Definition info_of (err : SamplingError) : SamplingErrorInfo :=
  let '(kind, status_code, retry_after_secs, model_metadata) :=
    match err with
    | EAuth _ _ => (KAuth, None, None, None)
    | EInvalidConfiguration _ => (KApi, None, None, None)
    | EHttp _ => (KHttp, None, None, None)
    | ESerialization _ => (KSerialization, None, None, None)
    | EApi status _ md ra _ => (if is_rate_limited err then KRateLimited else KApi, Some status, ra, md)
    | EEventStream _ => (KHttp, None, None, None)
    | EStream _ _ => (KApi, None, None, None)
    | EIdleTimeout _ => (KIdleTimeout, None, None, None)
    | EEmptyResponse _ => (KEmptyResponse, None, None, None)
    | EMaxTokensTruncation => (KMaxTokens, None, None, None)
    | EDoomLoop _ _ => (KDoomLoop, None, None, None)
    end in
  mkInfo kind status_code (error_text err) (is_retryable err) retry_after_secs (should_retry_header err) model_metadata
    (match err with EEmptyResponse c => Some c | _ => None end)
    (match err with EDoomLoop triggers _ => Some triggers | _ => None end)
    (match err with EDoomLoop _ at_chunk => at_chunk | _ => None end)
    (match err with EAuth _ credential => credential | _ => UnknownCredential end).

(** * The loop of a transform *)

Section Loop.
Context {A St : Type} (idle_timeout : Z).
Context (step : St → Z → A → list SamplingEvent * Flow St) (finish : bool → St → Z → list SamplingEvent).

(** [finish] builds the terminal event and learns whether the raw stream has ended or the
    loop was left by [break]. *)
Definition idle_failed : SamplingEvent := Failed (info_of (EIdleTimeout (idle_timeout / NANOS_PER_SEC))).

(** The events, the last accumulators, and the error of the raw stream when the loop has met
    one. *)
Fixpoint l2_loop (now last_content : Z) (s : St) (arrivals : list (Z * result A SamplingError)) (ends : option Z)
  : list SamplingEvent * St * option SamplingError :=
  match arrivals with
  | [] =>
      match ends with
      | Some gap => if gap <=? idle_timeout then (finish true s (now + gap), s, None) else ([idle_failed], s, None)
      | None => ([idle_failed], s, None)
      end
  | (gap, item) :: rest =>
      if idle_timeout <? gap then ([idle_failed], s, None)
      else match item with
           | Err err => ([Failed (info_of err)], s, Some err)
           | Ok event =>
               let now := now + gap in
               let '(events, flow) := step s now event in
               match flow with
               | Return s => (events, s, None)
               | Next s has_content should_break =>
                   if negb has_content && (idle_timeout <? now - last_content) then (events ++ [idle_failed], s, None)
                   else if should_break then (events ++ finish false s now, s, None)
                   else
                     let '(more, s, raw_error) :=
                       l2_loop now (if has_content then now else last_content) s rest ends in
                     (events ++ more, s, raw_error)
               end
           end
  end.

Definition opening (timestamp_ms : Z) (metadata : option ResponseModelMetadata) : list SamplingEvent :=
  StreamStarted timestamp_ms :: match metadata with Some m => [ModelMetadata m] | None => [] end.

(** A transform: the opening events, then the loop from the initial accumulators. *)
Definition l2_stream (raw : RawStream A) (metadata : option ResponseModelMetadata) (init : St)
  : list SamplingEvent * St * option SamplingError :=
  let '(events, s, raw_error) := l2_loop (started_at raw) (started_at raw) init (arrivals raw) (ends raw) in
  (opening (started_ms raw) metadata ++ events, s, raw_error).
End Loop.

(** [collect_response] *)
Fixpoint collect_response (events : list SamplingEvent)
  : result (ConversationResponse * InferenceLatencyStats) SamplingErrorInfo :=
  match events with
  | [] => Err (no_info KApi (lit "stream ended without Completed or Failed") false)
  | Completed response metrics :: _ => Ok (response, metrics)
  | Failed error :: _ => Err error
  | _ :: events => collect_response events
  end.
End Env.

(** * Maps with ordered keys: the model of [BTreeMap<u32, V>] *)

Section BTree.
Context {V : Type}.
Implicit Types m : list (N * V).
Fixpoint bt_get (k : N) m : option V :=
  match m with [] => None | (k', v) :: m => if (k =? k')%N then Some v else bt_get k m end.
Fixpoint bt_update (k : N) (f : option V → V) m : list (N * V) :=
  match m with
  | [] => [(k, f None)]
  | (k', v) :: m' =>
      if (k =? k')%N then (k, f (Some v)) :: m'
      else if (k <? k')%N then (k, f None) :: m
      else (k', v) :: bt_update k f m'
  end.
Definition bt_insert (k : N) (v : V) m : list (N * V) := bt_update k (λ _, v) m.
Definition bt_remove (k : N) m : list (N * V) := List.filter (λ e, negb (k =? e.1)%N) m.

Definition bt_sorted m : Prop := StronglySorted (λ a b, (a.1 < b.1)%N) m.

Lemma bt_get_above k m : Forall (λ e, (k < e.1)%N) m → bt_get k m = None.
Proof.
  induction 1 as [|[k' v] m Hk _ IH]; [done|]. simpl in *. rewrite IH.
  by destruct (N.eqb_spec k k'); [lia|].
Qed.

Lemma bt_update_Forall (P : N → Prop) k f m :
  P k → Forall (λ e, P e.1) m → Forall (λ e, P e.1) (bt_update k f m).
Proof.
  intros Hk. induction 1 as [|[k' v] m Hv Hm IH]; simpl; [by constructor|].
  destruct (N.eqb_spec k k'); [by constructor|]. destruct (k <? k')%N; repeat (constructor; try done).
Qed.

Lemma bt_update_sorted k f m : bt_sorted m → bt_sorted (bt_update k f m).
Proof.
  unfold bt_sorted. induction 1 as [|[k' v] m Hm IH Hall]; simpl; [repeat constructor|].
  destruct (N.eqb_spec k k') as [->|Hne]; [by constructor|]. destruct (N.ltb_spec k k').
  - constructor; [by constructor|]. constructor; [done|].
    eapply Forall_impl; [exact Hall|]. simpl. intros. lia.
  - constructor; [done|]. apply (bt_update_Forall (λ x, k' < x)%N); [simpl in *; lia|done].
Qed.

Lemma bt_get_update k k' f m :
  bt_sorted m → bt_get k (bt_update k' f m) = if (k =? k')%N then Some (f (bt_get k' m)) else bt_get k m.
Proof.
  unfold bt_sorted. induction 1 as [|[j v] m Hm IH Hall]; simpl.
  - by destruct (k =? k')%N.
  - destruct (N.eqb_spec k' j) as [->|Hne]; simpl.
    + by destruct (N.eqb_spec k j).
    + destruct (N.ltb_spec k' j); simpl.
      * destruct (N.eqb_spec k k') as [->|Hk]; [|done]. f_equal. f_equal. symmetry.
        apply bt_get_above. eapply Forall_impl; [exact Hall|]. simpl. intros. lia.
      * rewrite IH. destruct (N.eqb_spec k j) as [->|]; [|done]. by destruct (N.eqb_spec j k'); [lia|].
Qed.
End BTree.

(** * What every transform yields *)

(** One terminal event, and it is the last one. *)
Definition one_terminal (events : list SamplingEvent) : Prop :=
  ∃ body last, events = body ++ [last] ∧ Forall (λ e, is_terminal e = false) body ∧ is_terminal last = true.

Section LoopLaws.
Context `{ErrorEnv} {A St : Type} (idle_timeout : Z).
Context (step : St → Z → A → list SamplingEvent * Flow St) (finish : bool → St → Z → list SamplingEvent).

Lemma one_terminal_app body events :
  Forall (λ e, is_terminal e = false) body → one_terminal events → one_terminal (body ++ events).
Proof.
  intros Hb (body' & last & -> & Hb' & Hl). exists (body ++ body'), last.
  split; [by rewrite app_assoc|]. split; [by apply Forall_app|done].
Qed.

Lemma one_terminal_single e : is_terminal e = true → one_terminal [e].
Proof. intros He. by exists [], e. Qed.

Definition step_yields : Prop :=
  ∀ s now a, match step s now a with
             | (events, Next _ _ _) => Forall (λ e, is_terminal e = false) events
             | (events, Return _) => one_terminal events
             end.

Lemma l2_loop_one_terminal now last_content s arrivals ends :
  step_yields → (∀ ended s now, one_terminal (finish ended s now)) →
  one_terminal (l2_loop idle_timeout step finish now last_content s arrivals ends).1.1.
Proof.
  intros Hstep Hfin. revert now last_content s.
  induction arrivals as [|[gap item] rest IH]; intros now last_content s; simpl.
  { destruct ends as [gap|]; [destruct (gap <=? idle_timeout)|]; simpl;
      [apply Hfin|by apply one_terminal_single|by apply one_terminal_single]. }
  destruct (idle_timeout <? gap); [by apply one_terminal_single|].
  destruct item as [a|e]; [|by apply one_terminal_single].
  specialize (Hstep s (now + gap) a). destruct (step s (now + gap) a) as [events [s' c b|s']]; [|done].
  destruct (negb c && _); [by apply one_terminal_app, one_terminal_single|].
  destruct b; [by apply one_terminal_app|].
  specialize (IH (now + gap) (if c then now + gap else last_content) s').
  destruct (l2_loop _ _ _ _ _ _ _ _) as [[more s''] raw_error]. by apply one_terminal_app.
Qed.

Lemma l2_stream_one_terminal raw metadata init :
  step_yields → (∀ ended s now, one_terminal (finish ended s now)) →
  one_terminal (l2_stream idle_timeout step finish raw metadata init).1.1.
Proof.
  intros Hstep Hfin. unfold l2_stream.
  pose proof (l2_loop_one_terminal (started_at raw) (started_at raw) init (arrivals raw) (ends raw) Hstep Hfin) as Hone.
  destruct (l2_loop _ _ _ _ _ _ _ _) as [[events s] raw_error]. apply one_terminal_app; [|done].
  unfold opening. destruct metadata; repeat constructor.
Qed.
End LoopLaws.
