(* ===== verification/SampleStream.v ===== *)
(** The transforms from the raw streams of the three model APIs to sampling events
    (crates/codegen/xai-grok-sampler/src/stream/{chat_completions,responses,messages}.rs),
    the decoder of Responses frames (client.rs) and the reading of a Responses answer
    (xai-grok-sampling-types/src/conversation/responses.rs).

    The wire types are records of the fields the source reads.  What serde derives for them
    and the JSON parser are the interface [WireEnv]. *)
From stdpp Require Import base list strings.
From S2P Require Import Prelude RustStr Json BreakerConfig Conversation SamplingErr SampleEvents.
Open Scope Z_scope.

Definition non_empty (o : option str) : option str :=
  match o with Some [] => None | _ => o end.

(** A first token once, then a token in its channel: what each text delta yields. *)
Definition token (first_token_emitted : bool) (channel : SamplingChannel) (text : str) (chunk_index : N)
  : list SamplingEvent :=
  (if first_token_emitted then [] else [FirstToken]) ++ [ChannelToken channel text chunk_index].

(** * Chat Completions *)

Module Chat.
Inductive FinishReason := FStop | FLength | FToolCalls | FContentFilter | FFunctionCall.
Definition stop_of (fr : FinishReason) : StopReason :=
  match fr with
  | FStop => Stop | FLength => Length | FToolCalls | FFunctionCall => ToolCalls | FContentFilter => ContentFilter
  end.

Record FunctionDelta := mkFunction { fn_name : option str; fn_arguments : option str }.
Record CallDelta := mkCallDelta { tc_index : N; tc_id : option str; tc_function : option FunctionDelta }.
Record Delta := mkDelta { d_content : option str; d_reasoning : option str; d_tool_calls : list CallDelta }.
Record Choice := mkChoice { ch_delta : Delta; ch_finish_reason : option FinishReason }.
Record Usage := mkWireUsage {
  u_prompt : N; u_completion : N; u_total : N; u_cached : option N; u_reasoning : option N; u_cost : option Z
}.
Record Chunk := mkChunk {
  ck_model : str; ck_fingerprint : option str; ck_usage : option Usage; ck_choices : list Choice
}.

Definition usage_of (u : Usage) : TokenUsage :=
  mkUsage (u_prompt u) (u_completion u) (u_total u) (default 0%N (u_reasoning u)) (default 0%N (u_cached u)) 0.

(** The local variables of the stream. *)
Record Acc := mkAcc {
  first_chunk_seen : bool; first_choice_seen : bool; first_token_emitted : bool; model : str;
  acc_fingerprint : option str; acc_usage : option TokenUsage; acc_cost : option Z; finish_reason : option StopReason;
  content_acc : str; reasoning_acc : str; tool_call_acc : list (N * (str * str * str));
  chunk_index : N; message_chunk_count : N; chunk_timestamps : list Z; stream_start : Z
}.
Definition init (start : Z) : Acc :=
  mkAcc false false false [] None None None None [] [] [] 0 0 [] start.

Definition note_chunk (a : Acc) (c : Chunk) : Acc :=
  let first := negb (first_chunk_seen a) in
  let '(cost, usage) :=
    match ck_usage c with
    | None => (acc_cost a, acc_usage a)
    | Some u =>
        (match reported_cost_ticks (u_cost u) with Some n => Some n | None => acc_cost a end, Some (usage_of u))
    end in
  mkAcc true (first_choice_seen a) (first_token_emitted a)
    (if first then ck_model c else model a)
    (if first then non_empty (ck_fingerprint c) else acc_fingerprint a)
    usage cost (finish_reason a) (content_acc a) (reasoning_acc a) (tool_call_acc a) (chunk_index a)
    (message_chunk_count a) (chunk_timestamps a) (stream_start a).

Definition note_choice (a : Acc) (fr : option FinishReason) : Acc :=
  mkAcc (first_chunk_seen a) true (first_token_emitted a) (model a) (acc_fingerprint a) (acc_usage a) (acc_cost a)
    (match fr with Some fr => Some (stop_of fr) | None => finish_reason a end)
    (content_acc a) (reasoning_acc a) (tool_call_acc a) (chunk_index a) (message_chunk_count a)
    (chunk_timestamps a) (stream_start a).

Definition on_text (now : Z) (a : Acc) (text : option str) : list SamplingEvent * Acc * bool :=
  match non_empty text with
  | None => ([], a, false)
  | Some text =>
      let i := N.succ (chunk_index a) in
      (token (first_token_emitted a) ChText text i,
       mkAcc (first_chunk_seen a) (first_choice_seen a) true (model a) (acc_fingerprint a) (acc_usage a) (acc_cost a)
         (finish_reason a) (content_acc a ++ text) (reasoning_acc a) (tool_call_acc a) i
         (N.succ (message_chunk_count a)) (chunk_timestamps a ++ [now]) (stream_start a),
       true)
  end.
Definition on_reasoning (a : Acc) (thought : option str) : list SamplingEvent * Acc * bool :=
  match non_empty thought with
  | None => ([], a, false)
  | Some thought =>
      let i := N.succ (chunk_index a) in
      (token (first_token_emitted a) ChReasoning thought i,
       mkAcc (first_chunk_seen a) (first_choice_seen a) true (model a) (acc_fingerprint a) (acc_usage a) (acc_cost a)
         (finish_reason a) (content_acc a) (reasoning_acc a ++ thought) (tool_call_acc a) i (message_chunk_count a)
         (chunk_timestamps a) (stream_start a),
       true)
  end.

Definition fill_entry (id name arguments : option str) (entry : option (str * str * str)) : str * str * str :=
  let '(i, n, args) := default ([], [], []) entry in
  (default i id, default n name, args ++ default [] arguments).
Definition on_call (a : Acc) (tc : CallDelta) : list SamplingEvent * Acc :=
  let name := tc_function tc ≫= fn_name in
  let arguments := tc_function tc ≫= fn_arguments in
  ([ToolCallDelta (tc_index tc) (tc_id tc) name arguments],
   mkAcc (first_chunk_seen a) (first_choice_seen a) (first_token_emitted a) (model a) (acc_fingerprint a) (acc_usage a)
     (acc_cost a) (finish_reason a) (content_acc a) (reasoning_acc a)
     (bt_update (tc_index tc) (fill_entry (tc_id tc) name arguments) (tool_call_acc a))
     (chunk_index a) (message_chunk_count a) (chunk_timestamps a) (stream_start a)).
Fixpoint on_calls (a : Acc) (calls : list CallDelta) : list SamplingEvent * Acc :=
  match calls with
  | [] => ([], a)
  | tc :: calls =>
      let '(events, a) := on_call a tc in
      let '(more, a) := on_calls a calls in
      (events ++ more, a)
  end.

Definition on_choice (now : Z) (a : Acc) (c : Choice) : list SamplingEvent * Acc * bool :=
  let a := note_choice a (ch_finish_reason c) in
  let d := ch_delta c in
  let '(texts, a, t) := on_text now a (d_content d) in
  let '(thoughts, a, r) := on_reasoning a (d_reasoning d) in
  let '(calls, a) := on_calls a (d_tool_calls d) in
  (texts ++ thoughts ++ calls, a, bool_decide (is_Some (ch_finish_reason c)) || t || r || negb (is_nil (d_tool_calls d))).
Fixpoint on_choices (now : Z) (a : Acc) (choices : list Choice) : list SamplingEvent * Acc * bool :=
  match choices with
  | [] => ([], a, false)
  | c :: choices =>
      let '(events, a, b) := on_choice now a c in
      let '(more, a, b') := on_choices now a choices in
      (events ++ more, a, b || b')
  end.

Definition step (a : Acc) (now : Z) (c : Chunk) : list SamplingEvent * Flow Acc :=
  let '(events, a, chunk_has_content) := on_choices now (note_chunk a c) (ck_choices c) in
  (events, Next a chunk_has_content false).

Definition calls_of_acc (a : Acc) : list ToolCall :=
  (λ e, let '(id, name, arguments) := e.2 in mkCall id name arguments) <$> tool_call_acc a.
Definition items_of_acc (a : Acc) : list ConversationItem :=
  if first_choice_seen a then
    (if is_nil (reasoning_acc a) then [] else [CReasoning (synthesized_reasoning_item (reasoning_acc a))])
    ++ [CAssistant (mkAssistant (content_acc a) (calls_of_acc a) (Some (model a)) (acc_fingerprint a) None)]
  else [assistant_text []].
Definition response_of (a : Acc) : ConversationResponse :=
  mkResponse (items_of_acc a)
    (if is_nil (calls_of_acc a) then finish_reason a else Some ToolCalls)
    (acc_usage a) (acc_cost a) (message_chunk_count a) [] None None None None.
Definition finish (_ : bool) (a : Acc) (now : Z) : list SamplingEvent :=
  [Completed (response_of a) (from_timestamps (stream_start a) (chunk_timestamps a) now)].

Definition stream_chat_completions `{ErrorEnv} (raw : RawStream Chunk) (metadata : option ResponseModelMetadata)
  (idle_timeout : Z) : list SamplingEvent * option SamplingError :=
  let '(events, _, raw_error) := l2_stream idle_timeout step finish raw metadata (init (started_at raw)) in
  (events, raw_error).
End Chat.

(** * Responses *)

Module Responses.
Inductive Status := SCompleted | SFailed | SInProgress | SCancelled | SQueued | SIncomplete.
Inductive OutputItem :=
  | OMessage (texts : list (option str))
  | OFunctionCall (call_id name arguments : str)
  | OReasoning (r : ReasoningItem)
  | OWebSearchCall (id : str) (action : WebSearchAction)
  | OCustomToolCall (id name input : str)
  | OCodeInterpreterCall (id : str) (code : option str)
  | OMcpCall
  | OOther.
Record RsUsage := mkRsUsage {
  ru_input : N; ru_output : N; ru_total : N; ru_reasoning : N; ru_cached : N
}.
Record Response := mkRs {
  rs_model : str; rs_metadata : option (list (str * str)); rs_effort : option str; rs_output : list OutputItem;
  rs_status : Status; rs_error : option (str * str); rs_usage : option RsUsage
}.

Inductive Event :=
  | EvCreated | EvInProgress | EvQueued
  | EvOutputTextDelta (delta : str) | EvOutputTextDone (text : str)
  | EvRefusalDelta (delta : str) | EvRefusalDone (refusal : str)
  | EvFunctionCallArgumentsDelta (output_index : N) (delta : str)
  | EvFunctionCallArgumentsDone (arguments : str) (name : option str)
  | EvReasoningSummaryTextDelta (delta : str) | EvReasoningSummaryTextDone (text : str)
  | EvReasoningTextDelta (delta : str) | EvReasoningTextDone (text : str)
  | EvMCPCallArgumentsDelta (delta : str) | EvMCPCallArgumentsDone (arguments : str)
  | EvCodeInterpreterCallCodeDelta (delta : str) | EvCodeInterpreterCallCodeDone (code : str)
  | EvCustomToolCallInputDelta (delta : str) | EvCustomToolCallInputDone (item_id input : str)
  | EvFailed (r : Response) | EvCompleted (r : Response) | EvIncomplete (r : Response)
  | EvOutputItemAdded (output_index : N) (item : OutputItem)
  | EvOutputItemDone (output_index : N) (item : OutputItem)
  | EvWebSearchCallInProgress (item_id : str)
  | EvCodeInterpreterCallInProgress (item_id : str)
  | EvError (code : option str) (message : str)
  (** the progress and annotation events that carry content by their kind and have no action *)
  | EvProgress.

Definition responses_event_has_meaningful_content (e : Event) : bool :=
  match e with
  | EvCreated | EvInProgress | EvQueued => false
  | EvOutputTextDelta s | EvOutputTextDone s | EvRefusalDelta s | EvRefusalDone s
  | EvFunctionCallArgumentsDelta _ s | EvReasoningSummaryTextDelta s | EvReasoningSummaryTextDone s
  | EvReasoningTextDelta s | EvReasoningTextDone s | EvMCPCallArgumentsDelta s | EvMCPCallArgumentsDone s
  | EvCodeInterpreterCallCodeDelta s | EvCodeInterpreterCallCodeDone s | EvCustomToolCallInputDelta s
  | EvCustomToolCallInputDone _ s => negb (is_nil s)
  | EvFunctionCallArgumentsDone arguments name =>
      negb (is_nil arguments) || match name with Some n => negb (is_nil n) | None => false end
  | EvFailed r =>
      negb (is_nil (rs_output r)) || match rs_usage r with Some u => (0 <? ru_output u)%N | None => false end
  | EvCompleted _ | EvIncomplete _ | EvOutputItemAdded _ _ | EvOutputItemDone _ _ | EvWebSearchCallInProgress _
  | EvCodeInterpreterCallInProgress _ | EvError _ _ | EvProgress => true
  end.
Definition is_error_event (e : Event) : bool := match e with EvError _ _ => true | _ => false end.
Definition responses_event_may_have_output (e : Event) : bool :=
  negb (is_error_event e) && responses_event_has_meaningful_content e.

(** ** The answer as conversation items *)

Definition push_line (content text : str) : str := (if is_nil content then content else content ++ [NL]) ++ text.
Definition output_text (content : str) (item : OutputItem) : str :=
  match item with
  | OMessage texts => foldl (λ c t, match t with Some t => push_line c t | None => c end) content texts
  | _ => content
  end.
Definition output_call (item : OutputItem) : option ToolCall :=
  match item with OFunctionCall id name arguments => Some (mkCall id name arguments) | _ => None end.
Definition output_sibling (item : OutputItem) : option ConversationItem :=
  match item with
  | OReasoning r => Some (CReasoning r)
  | OWebSearchCall id action => Some (CBackend (KWebSearch id action))
  | OCustomToolCall id name input => Some (CBackend (KXSearch id name input))
  | OCodeInterpreterCall id code => Some (CBackend (KCodeInterpreter id code))
  | _ => None
  end.
Definition metadata_get (key : str) (m : option (list (str * str))) : option str :=
  m ≫= λ m, snd <$> List.find (λ e, str_eqb key (fst e)) m.
Definition response_to_conversation_items (r : Response) : list ConversationItem :=
  omap output_sibling (rs_output r)
  ++ [CAssistant (mkAssistant (foldl output_text [] (rs_output r)) (omap output_call (rs_output r)) (Some (rs_model r))
                    (non_empty (metadata_get (lit "system_fingerprint") (rs_metadata r))) (rs_effort r))].

(** ** The stream *)

Record Acc := mkAcc {
  final_response : option Response; chunk_index : N; message_chunk_count : N; first_token_emitted : bool;
  reasoning_acc : str; done_output_items : list (N * OutputItem); output_to_tool_index : list (N * N);
  next_tool_index : N; chunk_timestamps : list Z; stream_start : Z;
  doom_loop : option Collector; output_observed : bool
}.
Definition init (start : Z) (doom : option Collector) (observed : bool) : Acc :=
  mkAcc None 0 0 false [] [] [] 0 [] start doom observed.

(** An item of the stream and the collector as the decoder left it. *)
Definition Item : Type := Event * option Collector.

Definition observe (a : Acc) (i : Item) : Acc :=
  mkAcc (final_response a) (chunk_index a) (message_chunk_count a) (first_token_emitted a) (reasoning_acc a)
    (done_output_items a) (output_to_tool_index a) (next_tool_index a) (chunk_timestamps a) (stream_start a) i.2
    (output_observed a || responses_event_may_have_output i.1).

Definition on_text (now : Z) (a : Acc) (text : bool) (reasoning delta : str) : list SamplingEvent * Acc :=
  if is_nil delta then ([], a)
  else
    let i := N.succ (chunk_index a) in
    (token (first_token_emitted a) (if text then ChText else ChReasoning) delta i,
     mkAcc (final_response a) i (if text then N.succ (message_chunk_count a) else message_chunk_count a) true
       (reasoning_acc a ++ reasoning) (done_output_items a) (output_to_tool_index a) (next_tool_index a)
       (if text then chunk_timestamps a ++ [now] else chunk_timestamps a) (stream_start a) (doom_loop a)
       (output_observed a)).
Definition on_final (r : Response) (a : Acc) : Acc :=
  mkAcc (Some r) (chunk_index a) (message_chunk_count a) (first_token_emitted a) (reasoning_acc a) (done_output_items a)
    (output_to_tool_index a) (next_tool_index a) (chunk_timestamps a) (stream_start a) (doom_loop a) (output_observed a).
Definition on_added (output_index : N) (a : Acc) : Acc :=
  mkAcc (final_response a) (chunk_index a) (message_chunk_count a) (first_token_emitted a) (reasoning_acc a)
    (done_output_items a) (bt_insert output_index (next_tool_index a) (output_to_tool_index a))
    (N.succ (next_tool_index a)) (chunk_timestamps a) (stream_start a) (doom_loop a) (output_observed a).
Definition on_done (output_index : N) (item : OutputItem) (a : Acc) : Acc :=
  mkAcc (final_response a) (chunk_index a) (message_chunk_count a) (first_token_emitted a) (reasoning_acc a)
    (bt_insert output_index item (done_output_items a)) (output_to_tool_index a) (next_tool_index a)
    (chunk_timestamps a) (stream_start a) (doom_loop a) (output_observed a).

(** [SamplingError::Api] with status 500 and no headers. *)
Definition server_error (message : str) : SamplingError := EApi 500 message None None None.

Class WireEnv := {
  (** [serde_json::from_str::<Value>] *)
  from_str : str → option json;
  (** [serde_json::to_value(item).ok()] *)
  to_value : OutputItem → option json;
  (** [deserialize_response_event] *)
  deserialize_response_event : str → result Event SamplingError
}.

Section Env.
Context `{ErrorEnv, WireEnv}.

Definition backend_done (item : OutputItem) : list SamplingEvent :=
  match item with
  | OWebSearchCall id _ => [BackendToolCallCompleted id (lit "web_search") (to_value item)]
  | OCustomToolCall id _ _ => [BackendToolCallCompleted id (lit "x_search") (to_value item)]
  | OCodeInterpreterCall id _ => [BackendToolCallCompleted id (lit "code_interpreter") (to_value item)]
  | _ => []
  end.

(** The [match event] of the loop. *)
Definition on_event (now : Z) (a : Acc) (e : Event) : list SamplingEvent * Flow Acc :=
  let content := responses_event_has_meaningful_content e in
  let go '(events, a) := (events, Next a content false) in
  match e with
  | EvOutputTextDelta delta => go (on_text now a true [] delta)
  | EvReasoningSummaryTextDelta delta => go (on_text now a false [] delta)
  | EvReasoningTextDelta delta => go (on_text now a false delta delta)
  | EvOutputItemAdded output_index item =>
      go match item with
         | OFunctionCall call_id name _ =>
             ([ToolCallDelta (next_tool_index a) (Some call_id) (Some name) None], on_added output_index a)
         | _ => ([], a)
         end
  | EvFunctionCallArgumentsDelta output_index delta =>
      go match bt_get output_index (output_to_tool_index a) with
         | Some tool_index =>
             (if is_nil delta then [] else [ToolCallDelta tool_index None None (Some delta)], a)
         | None => ([], a)
         end
  | EvCompleted r => go ([], on_final r a)
  | EvIncomplete r => ([], Next (on_final r a) content true)
  | EvFailed r =>
      let message := match rs_error r with
                     | Some (code, message) => code ++ lit ": " ++ message
                     | None => lit "Response failed with unknown error"
                     end in
      ([Failed (info_of (server_error message))], Return a)
  | EvError code message =>
      ([Failed (info_of (server_error (default (lit "error") code ++ lit ": " ++ message)))], Return a)
  | EvWebSearchCallInProgress item_id => go ([BackendToolCallStarted item_id (lit "web_search")], a)
  | EvCodeInterpreterCallInProgress item_id => go ([BackendToolCallStarted item_id (lit "code_interpreter")], a)
  | EvOutputItemDone output_index item => go (backend_done item, on_done output_index item a)
  | EvCustomToolCallInputDone item_id _ => go ([BackendToolCallStarted item_id (lit "x_search")], a)
  | _ => go ([], a)
  end.

Definition step (a : Acc) (now : Z) (i : Item) : list SamplingEvent * Flow Acc :=
  let a := observe a i in
  match doom_loop a ≫= abort_triggers with
  | Some triggers => ([Failed (info_of (EDoomLoop triggers (Some (chunk_index a))))], Return a)
  | None => on_event now a i.1
  end.

Definition parse_i64 (s : str) : option Z :=
  match strip_prefix (lit "-") s with
  | Some r => if str_eqb (take 1 r) (lit "+") then None else Z.opp <$> parse_uint (2 ^ 63 + 1) r
  | None => parse_uint (2 ^ 63) s
  end.
Definition COST_USD_TICKS_METADATA_KEY : str := lit "xai.cost_usd_ticks".

Definition backfill (a : Acc) (r : Response) : Response :=
  match rs_status r, rs_output r, done_output_items a with
  | SCompleted, [], _ :: _ =>
      mkRs (rs_model r) (rs_metadata r) (rs_effort r) (snd <$> done_output_items a) (rs_status r) (rs_error r) (rs_usage r)
  | _, _, _ => r
  end.
Definition usage_of (u : RsUsage) : TokenUsage := mkUsage (ru_input u) (ru_output u) (ru_total u) (ru_reasoning u) (ru_cached u) 0.
Definition response_of (a : Acc) (signals : list DoomLoopSignal) (r : Response) : ConversationResponse :=
  let r := backfill a r in
  let items := inject_streaming_reasoning_fallback (response_to_conversation_items r) (reasoning_acc a) in
  let has_tool_calls := existsb (λ i, negb (is_nil (calls_of i))) items in
  mkResponse items
    (if has_tool_calls then Some ToolCalls
     else match rs_status r with SCompleted => Some Stop | SIncomplete => Some Length | _ => None end)
    (usage_of <$> rs_usage r)
    (metadata_get COST_USD_TICKS_METADATA_KEY (rs_metadata r) ≫= parse_i64)
    (message_chunk_count a) signals None None None None.

(** [last] is the collector after the frames behind the last item: the one that is read when
    the raw stream has ended, while a break reads the one of its item. *)
Definition finish (last : option Collector) (ended : bool) (a : Acc) (now : Z) : list SamplingEvent :=
  match final_response a with
  | None =>
      [Failed (info_of (server_error (lit "No ResponseCompleted or ResponseIncomplete event received from Responses API")))]
  | Some r =>
      let signals := match (if ended then last else doom_loop a) with Some c => (take_signals c).1 | None => [] end in
      [Completed (response_of a signals r) (from_timestamps (stream_start a) (chunk_timestamps a) now)]
  end.

(** ** The decoder of frames *)

(** The frames of an SSE body, as the event-source parser gives them. *)
Record Frames := mkFrames {
  fr_started_ms : Z; fr_started_at : Z; fr_frames : list (Z * result (str * str) SamplingError); fr_ends : option Z
}.

Definition absorb_opt (doom : option Collector) (event_name data : str) : option Collector * bool :=
  match doom with
  | Some c => let '(c, swallow) := absorb from_str c event_name data in (Some c, swallow)
  | None => (None, is_check_event from_str event_name data)
  end.

(** The [scan]: the items with their waits, the wait for the end and the last collector;
    [waited] is the time spent on frames that were swallowed. *)
Fixpoint decode (waited : Z) (doom : option Collector) (frames : list (Z * result (str * str) SamplingError))
  (ends : option Z) : list (Z * result Item SamplingError) * option Z * option Collector :=
  match frames with
  | [] => ([], Z.add waited <$> ends, doom)
  | (gap, Err e) :: _ => ([(waited + gap, Err e)], Some 0, doom)
  | (gap, Ok (event_name, data)) :: rest =>
      if str_eqb data (lit "[DONE]") then ([], Some (waited + gap), doom)
      else
        let '(doom, swallow) := absorb_opt doom event_name data in
        if swallow then decode (waited + gap) doom rest ends
        else
          let item := match try_parse_stream_error data with
                      | Some e => Err e
                      | None => rbind (deserialize_response_event data) (λ e, Ok (e, doom))
                      end in
          let '(items, ends, last) := decode 0 doom rest ends in
          ((waited + gap, item) :: items, ends, last)
  end.

Definition stream_responses_tracked (frames : Frames) (metadata : option ResponseModelMetadata) (idle_timeout : Z)
  (doom : option Collector) (observed : bool) : list SamplingEvent * bool * option SamplingError :=
  let '(items, ends, last) := decode 0 doom (fr_frames frames) (fr_ends frames) in
  let raw := mkRaw (fr_started_ms frames) (fr_started_at frames) items ends in
  let '(events, a, raw_error) :=
    l2_stream idle_timeout step (finish last) raw metadata (init (fr_started_at frames) doom observed) in
  (events, output_observed a, raw_error).
Definition stream_responses (frames : Frames) (metadata : option ResponseModelMetadata) (idle_timeout : Z)
  (doom : option Collector) : list SamplingEvent :=
  (stream_responses_tracked frames metadata idle_timeout doom false).1.1.
End Env.
End Responses.

(** * Messages *)

Module Messages.
Inductive StopReason :=
  | EndTurn | MaxTokens | ToolUse | StopSequence | Refusal | PauseTurn | ModelContextWindowExceeded
  | UnknownStop (wire : str).
Definition messages_stop_reason_wire (sr : StopReason) : str :=
  match sr with
  | EndTurn => lit "end_turn" | MaxTokens => lit "max_tokens" | ToolUse => lit "tool_use"
  | StopSequence => lit "stop_sequence" | Refusal => lit "refusal" | PauseTurn => lit "pause_turn"
  | ModelContextWindowExceeded => lit "model_context_window_exceeded" | UnknownStop wire => wire
  end.
Definition stop_of (sr : StopReason) : Conversation.StopReason :=
  match sr with
  | EndTurn | StopSequence | PauseTurn | UnknownStop _ => Stop
  | MaxTokens | ModelContextWindowExceeded => Length
  | ToolUse => ToolCalls
  | Refusal => ContentFilter
  end.

Inductive ContentBlock :=
  | BText (text : str) | BThinking (thinking signature : str) | BToolUse (id name : str) | BRedactedThinking | BOther.
Inductive StreamDelta :=
  | TextDelta (text : str) | InputJsonDelta (partial_json : str) | ThinkingDelta (thinking : str)
  | SignatureDelta (signature : str).
Record DeltaUsage := mkDeltaUsage {
  du_output : N; du_input : option N; du_cache_read : option N; du_cache_creation : option N
}.
Inductive Event :=
  | MessageStart (id model : str) (input_tokens cache_read cache_creation : N)
  | MessageDelta (stop_reason : option StopReason) (stop_sequence : option str) (stop_details : option (option str))
      (usage : DeltaUsage)
  | MessageStop
  | ContentBlockStart (index : N) (content_block : ContentBlock)
  | ContentBlockDelta (index : N) (delta : StreamDelta)
  | ContentBlockStop (index : N)
  | Ping
  | ErrorEvent (error_type message : str).

Definition messages_event_has_meaningful_content (e : Event) : bool := match e with Ping => false | _ => true end.

Inductive BlockType := TText | TToolUse | TThinking.
Record BlockState := mkBlock {
  block_type : BlockType; text_acc : str; tool_name : str; tool_id : str; args_acc : str; thinking_acc : str;
  signature : str
}.

Record Acc := mkAcc {
  blocks : list (N * BlockState);
  final_model : option str; final_message_id : option str;
  final_input : N; final_cache_read : N; final_cache_creation : N; final_output : N;
  final_stop_reason : option Conversation.StopReason; final_stop_message : option str;
  final_raw_stop_reason : option str; final_stop_sequence : option str;
  assistant_text : str; assistant_tool_calls : list ToolCall; assistant_reasoning : option ReasoningItem;
  chunk_index : N; message_chunk_count : N; first_token_emitted : bool; next_tool_index : N;
  block_to_tool_index : list (N * N); chunk_timestamps : list Z; stream_start : Z
}.
Definition init (start : Z) : Acc :=
  mkAcc [] None None 0 0 0 0 None None None None [] [] None 0 0 false 0 [] [] start.

Definition with_blocks (blocks : list (N * BlockState)) (a : Acc) : Acc :=
  mkAcc blocks (final_model a) (final_message_id a) (final_input a) (final_cache_read a) (final_cache_creation a)
    (final_output a) (final_stop_reason a) (final_stop_message a) (final_raw_stop_reason a) (final_stop_sequence a)
    (assistant_text a) (assistant_tool_calls a) (assistant_reasoning a) (chunk_index a) (message_chunk_count a)
    (first_token_emitted a) (next_tool_index a) (block_to_tool_index a) (chunk_timestamps a) (stream_start a).
Definition with_counters (i count : N) (times : list Z) (a : Acc) : Acc :=
  mkAcc (blocks a) (final_model a) (final_message_id a) (final_input a) (final_cache_read a) (final_cache_creation a)
    (final_output a) (final_stop_reason a) (final_stop_message a) (final_raw_stop_reason a) (final_stop_sequence a)
    (assistant_text a) (assistant_tool_calls a) (assistant_reasoning a) i count
    true (next_tool_index a) (block_to_tool_index a) times (stream_start a).
Definition with_assistant (text : str) (calls : list ToolCall) (reasoning : option ReasoningItem) (a : Acc) : Acc :=
  mkAcc (blocks a) (final_model a) (final_message_id a) (final_input a) (final_cache_read a) (final_cache_creation a)
    (final_output a) (final_stop_reason a) (final_stop_message a) (final_raw_stop_reason a) (final_stop_sequence a)
    text calls reasoning (chunk_index a) (message_chunk_count a)
    (first_token_emitted a) (next_tool_index a) (block_to_tool_index a) (chunk_timestamps a) (stream_start a).

Definition on_start (id model : str) (input cache_read cache_creation : N) (a : Acc) : Acc :=
  mkAcc (blocks a) (Some model) (Some id) input cache_read cache_creation
    (final_output a) (final_stop_reason a) (final_stop_message a) (final_raw_stop_reason a) (final_stop_sequence a)
    (assistant_text a) (assistant_tool_calls a) (assistant_reasoning a) (chunk_index a) (message_chunk_count a)
    (first_token_emitted a) (next_tool_index a) (block_to_tool_index a) (chunk_timestamps a) (stream_start a).

Definition first_token (a : Acc) : list SamplingEvent := if first_token_emitted a then [] else [FirstToken].
Definition on_block_start (index : N) (block : ContentBlock) (a : Acc) : list SamplingEvent * Acc :=
  let open b := with_blocks (bt_insert index b (blocks a)) a in
  match block with
  | BThinking thinking signature =>
      (first_token a,
       with_counters (chunk_index a) (message_chunk_count a) (chunk_timestamps a)
         (open (mkBlock TThinking [] [] [] [] thinking signature)))
  | BText text =>
      (first_token a,
       with_counters (chunk_index a) (message_chunk_count a) (chunk_timestamps a) (open (mkBlock TText text [] [] [] [] [])))
  | BToolUse id name =>
      let tool_index := next_tool_index a in
      let a := open (mkBlock TToolUse [] name id [] [] []) in
      ([ToolCallDelta tool_index (Some id) (Some name) None],
       mkAcc (blocks a) (final_model a) (final_message_id a) (final_input a) (final_cache_read a)
         (final_cache_creation a) (final_output a) (final_stop_reason a) (final_stop_message a)
         (final_raw_stop_reason a) (final_stop_sequence a) (assistant_text a) (assistant_tool_calls a)
         (assistant_reasoning a) (chunk_index a) (message_chunk_count a) (first_token_emitted a) (N.succ tool_index)
         (bt_insert index tool_index (block_to_tool_index a)) (chunk_timestamps a) (stream_start a))
  | BRedactedThinking | BOther => ([], a)
  end.

Definition on_delta (now : Z) (index : N) (delta : StreamDelta) (a : Acc) : list SamplingEvent * Acc :=
  match bt_get index (blocks a) with
  | None => ([], a)
  | Some b =>
      let put b := with_blocks (bt_insert index b (blocks a)) a in
      match delta with
      | ThinkingDelta thinking =>
          if is_nil thinking then ([], a)
          else
            let i := N.succ (chunk_index a) in
            (token (first_token_emitted a) ChReasoning thinking i,
             with_counters i (message_chunk_count a) (chunk_timestamps a)
               (put (mkBlock (block_type b) (text_acc b) (tool_name b) (tool_id b) (args_acc b)
                       (thinking_acc b ++ thinking) (signature b))))
      | SignatureDelta sig =>
          ([], put (mkBlock (block_type b) (text_acc b) (tool_name b) (tool_id b) (args_acc b) (thinking_acc b) sig))
      | TextDelta text =>
          if is_nil text then ([], a)
          else
            let i := N.succ (chunk_index a) in
            (token (first_token_emitted a) ChText text i,
             with_counters i (N.succ (message_chunk_count a)) (chunk_timestamps a ++ [now])
               (put (mkBlock (block_type b) (text_acc b ++ text) (tool_name b) (tool_id b) (args_acc b) (thinking_acc b)
                       (signature b))))
      | InputJsonDelta partial_json =>
          (match bt_get index (block_to_tool_index a) with
           | Some tool_index => [ToolCallDelta tool_index None None (Some partial_json)]
           | None => []
           end,
           put (mkBlock (block_type b) (text_acc b) (tool_name b) (tool_id b) (args_acc b ++ partial_json)
                  (thinking_acc b) (signature b)))
      end
  end.

Definition on_block_stop (index : N) (a : Acc) : list SamplingEvent * Acc :=
  match bt_get index (blocks a) with
  | None => ([], a)
  | Some b =>
      let a := with_blocks (bt_remove index (blocks a)) a in
      match block_type b with
      | TText =>
          ([],
           if is_nil (text_acc b) then a
           else with_assistant (Responses.push_line (assistant_text a) (text_acc b)) (assistant_tool_calls a)
                  (assistant_reasoning a) a)
      | TThinking =>
          (if is_nil (signature b) then [] else [ReasoningCompleted (signature b)],
           if is_nil (thinking_acc b) && is_nil (signature b) then a
           else with_assistant (assistant_text a) (assistant_tool_calls a)
                  (Some (mkReasoning [] (if is_nil (thinking_acc b) then [] else [thinking_acc b]) None
                           (if is_nil (signature b) then None else Some (signature b)) None)) a)
      | TToolUse =>
          ([], with_assistant (assistant_text a)
                 (assistant_tool_calls a ++ [mkCall (tool_id b) (tool_name b) (args_acc b)]) (assistant_reasoning a) a)
      end
  end.

Definition on_message_delta (sr : option StopReason) (seq : option str) (details : option (option str)) (u : DeltaUsage)
  (a : Acc) : Acc :=
  mkAcc (blocks a) (final_model a) (final_message_id a)
    (default (final_input a) (du_input u)) (default (final_cache_read a) (du_cache_read u))
    (default (final_cache_creation a) (du_cache_creation u)) (du_output u)
    (stop_of <$> sr) (match details with Some explanation => explanation | None => final_stop_message a end)
    (messages_stop_reason_wire <$> sr) (match seq with Some s => Some s | None => final_stop_sequence a end)
    (assistant_text a) (assistant_tool_calls a) (assistant_reasoning a) (chunk_index a) (message_chunk_count a)
    (first_token_emitted a) (next_tool_index a) (block_to_tool_index a) (chunk_timestamps a) (stream_start a).

Section Env.
Context `{ErrorEnv}.

Definition step (a : Acc) (now : Z) (e : Event) : list SamplingEvent * Flow Acc :=
  let go '(events, a) := (events, Next a (messages_event_has_meaningful_content e) false) in
  match e with
  | MessageStart id model input cache_read cache_creation =>
      go ([ResponseStarted id model input cache_read cache_creation], on_start id model input cache_read cache_creation a)
  | ContentBlockStart index block => go (on_block_start index block a)
  | ContentBlockDelta index delta => go (on_delta now index delta a)
  | ContentBlockStop index => go (on_block_stop index a)
  | MessageDelta sr seq details usage => go ([], on_message_delta sr seq details usage a)
  | MessageStop | Ping => go ([], a)
  | ErrorEvent error_type message =>
      ([Failed (info_of (Responses.server_error (error_type ++ lit ": " ++ message)))], Return a)
  end.

(** [u32::saturating_add] *)
Definition saturating_add (a b : N) : N := N.min (a + b) (2 ^ 32 - 1).
Definition usage_of (a : Acc) : option TokenUsage :=
  let total := saturating_add (saturating_add (final_input a) (final_cache_read a)) (final_cache_creation a) in
  if (0 <? total)%N || (0 <? final_output a)%N
  then Some (mkUsage total (final_output a) (saturating_add total (final_output a)) 0 (final_cache_read a)
               (final_cache_creation a))
  else None.
Definition response_of (a : Acc) : ConversationResponse :=
  mkResponse
    ((CReasoning <$> option_list (assistant_reasoning a))
     ++ [CAssistant (mkAssistant (assistant_text a) (assistant_tool_calls a) (Some (default [] (final_model a))) None None)])
    (if is_nil (assistant_tool_calls a) then final_stop_reason a else Some ToolCalls)
    (usage_of a) None (message_chunk_count a) [] (final_stop_message a) (final_message_id a) (final_raw_stop_reason a)
    (final_stop_sequence a).
Definition finish (_ : bool) (a : Acc) (now : Z) : list SamplingEvent :=
  if bool_decide (final_stop_reason a = Some Length) then [Failed (info_of EMaxTokensTruncation)]
  else [Completed (response_of a) (from_timestamps (stream_start a) (chunk_timestamps a) now)].

Definition stream_messages (raw : RawStream Event) (metadata : option ResponseModelMetadata) (idle_timeout : Z)
  : list SamplingEvent * option SamplingError :=
  let '(events, _, raw_error) := l2_stream idle_timeout step finish raw metadata (init (started_at raw)) in
  (events, raw_error).
End Env.
End Messages.
