(* ===== verification/SamplerTask.v ===== *)
(** Retries (crates/codegen/xai-grok-sampler/src/retry.rs, config.rs) and the task of one
    request (actor/request_task.rs).

    The HTTP client, the values that are hashed for jitter, the environment variable and the
    moments of cancellation are the interface [SamplerWorld]; attempts are numbered from 0.
    Waits are milliseconds. *)
From stdpp Require Import base list strings.
From S2P Require Import Prelude RustStr Json BreakerConfig Conversation SamplingErr SampleEvents SampleStream.
Open Scope Z_scope.

(** * Backoff *)

Definition RATE_LIMIT_RETRY_THRESHOLD : Z := 2.
Definition DEFAULT_MAX_RETRIES : Z := 15.
Definition MAX_RETRY_BACKOFF : Z := 30000.
Definition secs_ms (s : Z) : Z := s * 1000.

Definition resolve_max_retries_with_env (env_override : option str) (model_max_retries : option Z) : Z :=
  match env_override ≫= parse_uint U32 with
  | Some n => n
  | None => default DEFAULT_MAX_RETRIES model_max_retries
  end.

(** [hash] is what the hasher of the call yields. *)
Definition doom_loop_backoff (hash : Z) : Z := hash `mod` 251.
Definition jittered (hash base_ms : Z) : Z :=
  let jitter_range := base_ms / 5 in
  base_ms - jitter_range + hash `mod` (jitter_range * 2 + 1).
(** [checked_shl]: [None] when the shift is 64 or more; bits shifted out are lost. *)
Definition checked_shl (v shift : Z) : option Z := if shift <? 64 then Some (Z.shiftl v shift `mod` U64) else None.
Definition backoff_base (retry_count : Z) : Z :=
  let shift := Z.max 0 (retry_count - 1) in
  Z.min (default (U64 - 1) (checked_shl 2000 shift)) MAX_RETRY_BACKOFF.
Definition retry_backoff_with_jitter (hash retry_count : Z) : Z := jittered hash (backoff_base retry_count).

(** * Decisions *)

Inductive RetryDecision :=
  | DRetry (backoff : Z)
  | DRetryWithBackoff (backoff : Z)
  | DRetryWithImageStrip
  | DRetryWithClientRebuild (backoff : Z)
  | DEmitToSession (e : SamplingError)
  | DFatal (e : SamplingError).

Definition is_doom (e : SamplingError) : bool := match e with EDoomLoop _ _ => true | _ => false end.

Record RetryPolicy := mkRetryPolicy {
  max_retries : Z; rate_limit_retry_threshold : Z; retry_only_before_output : bool
}.
Definition default_retry_policy : RetryPolicy := mkRetryPolicy DEFAULT_MAX_RETRIES RATE_LIMIT_RETRY_THRESHOLD false.

Inductive ApiBackend := ChatCompletions | ResponsesApi | CodexResponses | MessagesApi.
Record SamplerConfig := mkConfig {
  api_backend : ApiBackend; idle_timeout_secs : option Z; cfg_max_retries : option Z;
  doom_loop_recovery : option DoomLoopRecoveryPolicy; force_http1 : bool
}.
Definition DEFAULT_IDLE_TIMEOUT_SECS : Z := 300.

Section Env.
Context `{ErrorEnv}.

Definition clone_error (e : SamplingError) : SamplingError :=
  match e with
  | EHttp r => EEventStream (rq_text r)
  | ESerialization s => serialization_message (se_text s)
  | _ => e
  end.

Definition classify_error (err : SamplingError) (hash retry_count max_retries rate_limit_threshold : Z) : RetryDecision :=
  if is_auth_error err then DEmitToSession (clone_error err)
  else if is_encrypted_content_error err then DEmitToSession (clone_error err)
  else if max_retries =? 0 then DFatal (clone_error err)
  else if is_payload_too_large err then DRetryWithImageStrip
  else if is_image_processing_error err then DRetryWithImageStrip
  else if is_retry_vetoed err then DFatal (clone_error err)
  else if is_doom err then DRetry (doom_loop_backoff hash)
  else if is_rate_limited err then
    let next_attempt := retry_count + 1 in
    if Z.min max_retries rate_limit_threshold <=? next_attempt then DFatal (clone_error err)
    else DRetryWithBackoff
           (match retry_after err with Some s => secs_ms s | None => retry_backoff_with_jitter hash next_attempt end)
  else if is_retryable err then
    let next_attempt := retry_count + 1 in
    if max_retries <=? next_attempt then DFatal (clone_error err)
    else
      let backoff := match retry_after err with
                     | Some s => jittered hash (Z.min (secs_ms s) MAX_RETRY_BACKOFF)
                     | None => retry_backoff_with_jitter hash next_attempt
                     end in
      if next_attempt =? 1 then DRetryWithClientRebuild backoff else DRetry backoff
  else DFatal (clone_error err).

Definition retry_prefix (retry_count : option Z) : str :=
  match retry_count with
  | Some count => lit "Request failed after " ++ decimal (Z.to_N count) ++ lit " retries. "
  | None => []
  end.
Definition status_hint (status : Z) : str :=
  if status =? 400 then lit " (bad request - check your input)"
  else if (status =? 401) || (status =? 403) then lit " (authentication issue - check your API key)"
  else if status =? 404 then lit " (endpoint not found - check model configuration)"
  else if status =? 413 then lit " (request too large - try /compact or start new session)"
  else if status =? 429 then lit " (rate limited - please wait and retry)"
  else if status =? 500 then lit " (server internal error)"
  else if is_retryable_api_status status then lit " (server unavailable - please retry)"
  else [].
Definition http_details (r : ReqwestError) : list str :=
  (if is_timeout r then [lit "timeout"] else [])
  ++ (if is_connect r then [lit "connection failed"] else [])
  ++ (match rq_status r with Some s => [lit "status " ++ status_text s] | None => [] end)
  ++ (match rq_url r with Some u => [lit "url: " ++ u] | None => [] end).
Definition bool_text (b : bool) : str := if b then lit "true" else lit "false".

Definition format_sampling_error (err : SamplingError) (retry_count : option Z) : str :=
  retry_prefix retry_count ++
  match err with
  | EAuth message _ => lit "Authentication failed: " ++ message ++ lit ". Please check your API key configuration."
  | EInvalidConfiguration msg => lit "Invalid configuration: " ++ msg ++ lit ". Please check your model settings."
  | EHttp r =>
      let details := http_details r in
      let detail_str := if is_nil details then rq_text r else rq_text r ++ lit " (" ++ join (lit ", ") details ++ lit ")" in
      lit "HTTP request failed: " ++ detail_str
      ++ lit ". This may be a network issue or the API endpoint may be unavailable."
  | ESerialization e =>
      lit "Failed to parse API response at line " ++ decimal (se_line e) ++ lit " column " ++ decimal (se_column e)
      ++ lit ": " ++ se_text e ++ lit ". This indicates an unexpected response format from the server."
  | EApi status message _ _ _ =>
      lit "API error (HTTP " ++ code_text status ++ status_hint status ++ lit "): " ++ message
  | EEventStream msg => lit "Event stream error: " ++ msg ++ lit ". The connection to the server was interrupted."
  | EStream error_type message =>
      lit "Server stream error (" ++ error_type ++ lit "): " ++ message
      ++ lit ". The server encountered an error while streaming the response."
  | EIdleTimeout secs =>
      lit "Model stopped responding after " ++ decimal (Z.to_N secs)
      ++ lit "s. The model may be overloaded or stuck. Try again or use a different model."
  | EEmptyResponse c =>
      lit "Empty response from model (" ++ empty_reason_str (ec_reason c) ++ lit "): model=" ++ ec_model c
      ++ lit ", had_reasoning=" ++ bool_text (had_reasoning c) ++ lit ", finish_reason=" ++ finish_reason_str c
      ++ lit ", completion_tokens=" ++ decimal (default 0%N (ec_completion_tokens c))
  | EMaxTokensTruncation => lit "Response truncated by max_tokens."
  | EDoomLoop triggers _ =>
      lit "Server detected a reasoning loop (" ++ join (lit ", ") triggers ++ lit "); resampling the response."
  end.

(** * Attempts *)

(** [synthesize_from_info] *)
Definition seconds_of (token : str) : option Z := strip_suffix (lit "s") token ≫= parse_uint U64.
Definition synthesize_from_info (info : SamplingErrorInfo) : SamplingError :=
  match kind info with
  | KIdleTimeout => EIdleTimeout (default 0 (head (omap seconds_of (split_whitespace (info_message info)))))
  | KAuth => EAuth (info_message info) (info_credential info)
  | KSerialization => serialization_from_rendered (info_message info)
  | KHttp => EEventStream (info_message info)
  | KApi | KRateLimited =>
      let status := match status_code info with
                    | Some c => if (100 <=? c) && (c <? 1000) then c else 500
                    | None => 500
                    end in
      EApi status (info_message info) (model_metadata info) (retry_after_secs info) (info_should_retry info)
  | KEmptyResponse =>
      match empty_response_context info with Some c => EEmptyResponse c | None => EEventStream (info_message info) end
  | KMaxTokens => EMaxTokensTruncation
  | KDoomLoop => EDoomLoop (default [] (doom_loop_triggers info)) (doom_loop_aborted_at_chunk info)
  end.

Definition build_empty_context (reason : EmptyReason) (r : ConversationResponse) : EmptyResponseContext :=
  let a := Conversation.assistant (items r) in
  mkEmpty reason (has_reasoning (items r))
    (match a with Some a => utf8_len (assistant_content a) | None => 0%nat end)
    (match a with Some a => length (tool_calls a) | None => 0%nat end)
    (stop_reason_str <$> stop_reason r)
    (completion_tokens <$> usage r) (reasoning_tokens <$> usage r) (prompt_tokens <$> usage r)
    (match a with Some a => default [] (model_id a) | None => [] end)
    (match a with Some a => bool_decide (is_Some (model_id a)) | None => false end).

Inductive AttemptOutcome :=
  | OCompleted (response : ConversationResponse) (metrics : InferenceLatencyStats)
  | OEmpty (context : EmptyResponseContext)
  | OFailed (error : SamplingError)
  | OCancelled
  | OInitFailed (error : SamplingError).

Definition judge_response (doom_check : option DoomLoopRecoveryPolicy) (r : ConversationResponse)
  (m : InferenceLatencyStats) : AttemptOutcome :=
  let triggers := match doom_check with Some p => confident_triggers p (doom_loop_signals r) | None => [] end in
  if negb (is_nil triggers) then OFailed (EDoomLoop triggers None)
  else if bool_decide (stop_reason r = Some Length) then OFailed EMaxTokensTruncation
  else if bool_decide (stop_reason r = Some ContentFilter) then OCompleted r m
  else match empty_reason (items r) with
       | Some reason => OEmpty (build_empty_context reason r)
       | None => OCompleted r m
       end.

(** What is forwarded, the outcome, and whether output was seen; [cancel] is the number of
    events after which the token is cancelled. *)
Fixpoint drive_l2 (cancel : option nat) (captured : option SamplingError) (doom_check : option DoomLoopRecoveryPolicy)
  (observed : bool) (l2 : list SamplingEvent) : list SamplingEvent * AttemptOutcome * bool :=
  match cancel with
  | Some O => ([], OCancelled, observed)
  | _ =>
      match l2 with
      | [] => ([], OFailed (EEventStream (lit "stream dropped without terminal event")), observed)
      | Completed r m :: _ => ([], judge_response doom_check r m, true)
      | Failed info :: _ =>
          ([], OFailed (match captured with Some e => clone_error e | None => synthesize_from_info info end), observed)
      | e :: l2 =>
          let '(sent, outcome, observed) :=
            drive_l2 (Nat.pred <$> cancel) captured doom_check (observed || is_output e) l2 in
          (e :: sent, outcome, observed)
      end
  end.

Class SamplerWorld := {
  GROK_MAX_RETRIES : option str;
  (** [SamplingClient::new]: the error it returns, if any; a client is its configuration *)
  new_client : SamplerConfig → option SamplingError;
  conversation_stream :
    nat → SamplerConfig → list ConversationItem → result (RawStream Chat.Chunk * option ResponseModelMetadata) SamplingError;
  conversation_stream_responses :
    nat → SamplerConfig → list ConversationItem →
    result (Responses.Frames * option ResponseModelMetadata * option Collector) SamplingError;
  conversation_stream_messages :
    nat → SamplerConfig → list ConversationItem →
    result (RawStream Messages.Event * option ResponseModelMetadata) SamplingError;
  hash : nat → Z;
  (** the token is seen cancelled before attempt [n], after so many of its events, in the sleep after it *)
  cancelled_before : nat → bool;
  cancelled_during : nat → option nat;
  cancelled_asleep : nat → bool
}.

Section World.
Context `{Responses.WireEnv, SamplerWorld}.

Definition run_one_attempt (n : nat) (client : SamplerConfig) (request : list ConversationItem) (idle_timeout : Z)
  (doom_check : option DoomLoopRecoveryPolicy) (observed : bool) : list SamplingEvent * AttemptOutcome * bool :=
  match api_backend client with
  | ChatCompletions =>
      match conversation_stream n client request with
      | Err e => ([], OInitFailed e, observed)
      | Ok (raw, metadata) =>
          let '(l2, captured) := Chat.stream_chat_completions raw metadata idle_timeout in
          drive_l2 (cancelled_during n) captured None observed l2
      end
  | ResponsesApi | CodexResponses =>
      match conversation_stream_responses n client request with
      | Err e => ([], OInitFailed e, observed)
      | Ok (frames, metadata, doom_loop) =>
          let doom_loop := match doom_check with None => disarm_abort <$> doom_loop | Some _ => doom_loop end in
          let '(l2, observed, captured) :=
            Responses.stream_responses_tracked frames metadata idle_timeout doom_loop observed in
          drive_l2 (cancelled_during n) captured doom_check observed l2
      end
  | MessagesApi =>
      match conversation_stream_messages n client request with
      | Err e => ([], OInitFailed e, observed)
      | Ok (raw, metadata) =>
          let '(l2, captured) := Messages.stream_messages raw metadata idle_timeout in
          drive_l2 (cancelled_during n) captured None observed l2
      end
  end.

(** * The task *)

Definition CompletionResult : Type := result (ConversationResponse * InferenceLatencyStats) SamplingError.
Inductive Action :=
  | ASend (client : SamplerConfig) (request : list ConversationItem)
  | AEvent (e : SamplingEvent)
  | ASleep (ms : Z)
  | AComplete (r : CompletionResult).

Definition emit_failed (e : SamplingError) : list Action := [AEvent (Failed (info_of e))].
Definition emit_retrying (attempt max_retries : Z) (e : SamplingError) : list Action :=
  let info := info_of e in
  [AEvent AttemptDiscarded;
   AEvent (Retrying attempt max_retries (kind info) (error_text e) (doom_loop_triggers info)
             (doom_loop_aborted_at_chunk info))].

Section Request.
Context (wants_completion : bool) (config : SamplerConfig) (policy : RetryPolicy).

Definition send_completion (r : CompletionResult) : list Action := if wants_completion then [AComplete r] else [].
Definition cancelled_info : SamplingErrorInfo := no_info KApi (lit "request cancelled") false.
Definition handle_cancellation : list Action :=
  AEvent (Failed cancelled_info) :: send_completion (Err (auth_unknown (lit "request cancelled"))).
Definition stop_retrying (shown sent : SamplingError) : list Action := emit_failed shown ++ send_completion (Err sent).

Record Task := mkTask {
  t_request : list ConversationItem; t_client : SamplerConfig; t_retry_count : Z; t_doom_retry_count : Z; t_observed : bool
}.

Definition retried (request : list ConversationItem) (client : SamplerConfig) (t : Task) : Task :=
  mkTask request client (t_retry_count t + 1) (t_doom_retry_count t) (t_observed t).
(** A wait after which the loop goes on with [t], or is left because of cancellation. *)
Definition sleep_or_cancel (n : nat) (backoff : Z) (t : Task) : list Action * option Task :=
  if cancelled_asleep n then (ASleep backoff :: handle_cancellation, None) else ([ASleep backoff], Some t).

Definition rebuilt (client : SamplerConfig) : SamplerConfig :=
  let http1 := mkConfig (api_backend config) (idle_timeout_secs config) (cfg_max_retries config)
                 (doom_loop_recovery config) true in
  match new_client http1 with None => http1 | Some _ => client end.

Definition threshold : Z :=
  if rate_limit_retry_threshold policy =? 0 then RATE_LIMIT_RETRY_THRESHOLD else rate_limit_retry_threshold policy.

Definition apply_retry_decision (n : nat) (err : SamplingError) (max_retries : Z) (t : Task)
  : list Action * option Task :=
  let decision := classify_error err (hash n) (t_retry_count t) max_retries threshold in
  let request := if is_likely_body_rejected err then (strip_images (t_request t)).1 else t_request t in
  let retrying := emit_retrying (t_retry_count t + 1) max_retries err in
  match decision with
  | DRetry backoff | DRetryWithBackoff backoff =>
      let '(actions, t) := sleep_or_cancel n backoff (retried request (t_client t) t) in (retrying ++ actions, t)
  | DRetryWithImageStrip =>
      let '(request, stripped) := strip_images request in
      if (stripped =? 0)%nat then (stop_retrying err (clone_error err), None)
      else (retrying, Some (retried request (t_client t) t))
  | DRetryWithClientRebuild backoff =>
      let '(actions, t) := sleep_or_cancel n backoff (retried request (rebuilt (t_client t)) t) in (retrying ++ actions, t)
  | DEmitToSession e | DFatal e => (stop_retrying e e, None)
  end.

Definition idle_timeout : Z := from_secs (default DEFAULT_IDLE_TIMEOUT_SECS (idle_timeout_secs config)).
Definition task_max_retries : Z :=
  let configured := match cfg_max_retries config with Some n => n | None => max_retries policy end in
  if configured =? 0 then 0 else resolve_max_retries_with_env GROK_MAX_RETRIES (Some configured).
Definition doom_policy : option DoomLoopRecoveryPolicy :=
  if 0 <? task_max_retries then doom_loop_recovery config else None.
Definition task_doom_retries : Z := match doom_policy with Some p => doom_max_retries p | None => 0 end.

Definition on_outcome (n : nat) (t : Task) (outcome : AttemptOutcome) : list Action * option Task :=
  let held := retry_only_before_output policy && t_observed t in
  let effective := if held then 0 else task_max_retries in
  match outcome with
  | OCompleted response metrics =>
      let metrics := with_attempts (t_retry_count t + t_doom_retry_count t + 1) metrics in
      (AEvent (Completed response metrics) :: send_completion (Ok (response, metrics)), None)
  | OEmpty context => apply_retry_decision n (EEmptyResponse context) effective t
  | OFailed error =>
      if is_doom error then
        if held then (stop_retrying error (clone_error error), None)
        else
          let count := t_doom_retry_count t + 1 in
          let '(actions, t) := sleep_or_cancel n (doom_loop_backoff (hash n))
                                 (mkTask (t_request t) (t_client t) (t_retry_count t) count (t_observed t)) in
          (emit_retrying count task_doom_retries error ++ actions, t)
      else apply_retry_decision n error effective t
  | OCancelled => (handle_cancellation, None)
  | OInitFailed error => apply_retry_decision n error effective t
  end.

(** One pass through the loop. *)
Definition task_step (n : nat) (t : Task) : list Action * option Task :=
  if cancelled_before n then (handle_cancellation, None)
  else
    let doom_check := if t_doom_retry_count t <? task_doom_retries then doom_policy else None in
    let '(events, outcome, observed) :=
      run_one_attempt n (t_client t) (t_request t) idle_timeout doom_check (t_observed t) in
    let '(actions, next) :=
      on_outcome n (mkTask (t_request t) (t_client t) (t_retry_count t) (t_doom_retry_count t) observed) outcome in
    (ASend (t_client t) (t_request t) :: (AEvent <$> events) ++ actions, next).

Fixpoint task_loop (fuel n : nat) (t : Task) : option (list Action) :=
  match fuel with
  | O => None
  | S fuel =>
      let '(actions, next) := task_step n t in
      match next with
      | None => Some actions
      | Some t => app actions <$> task_loop fuel (S n) t
      end
  end.

Definition run_request_task (fuel : nat) (request : list ConversationItem) : option (list Action) :=
  match new_client config with
  | Some err => Some (stop_retrying err err)
  | None => task_loop fuel 0 (mkTask request config 0 0 false)
  end.
End Request.
End World.
End Env.
