(* ===== verification/SamplerSafety.v ===== *)
(** What of a provider's error body reaches a user or an event, the waits between attempts,
    and the ends of the event streams. *)
From stdpp Require Import base list strings.
From S2P Require Import Prelude RustStr Json BreakerConfig Conversation SamplingErr SampleEvents SampleStream SamplerTask.
Open Scope Z_scope.

(** * Error bodies *)

(** The fixed texts of the source. *)
Definition SAFE_MESSAGES : list str :=
  [FREE_USAGE_EXHAUSTED_CODE; SAFE_OVERLOADED_MESSAGE; SAFE_CONTEXT_LENGTH_MESSAGE; SAFE_ENCRYPTED_CONTENT_MESSAGE;
   SAFE_IMAGE_PROCESSING_MESSAGE; SAFE_CREDIT_BLOCK_MESSAGE; SAFE_STREAM_ERROR_MESSAGE].
Definition SAFE_TYPES : list str := ALLOWLISTED ++ [lit "credit_balance_exhausted"; lit "unknown"].

Lemma allowlisted_In v t : allowlisted_error_type v = Some t → t ∈ ALLOWLISTED.
Proof. unfold allowlisted_error_type. destruct (one_of v ALLOWLISTED) eqn:Ho; [|done]. intros [= <-]. by apply one_of_In. Qed.

Lemma classify_provider_safe p :
  safe_type (classify_provider_error p) ∈ SAFE_TYPES ∧ safe_message (classify_provider_error p) ∈ SAFE_MESSAGES.
Proof.
  unfold classify_provider_error. repeat (case_goal; [split; apply list_elem_of_In; simpl; tauto|]). simpl.
  split; [|apply list_elem_of_In; simpl; tauto]. unfold SAFE_TYPES. apply elem_of_app.
  destruct (_ ≫= allowlisted_error_type) as [t|] eqn:Ht; simpl; [left|right; set_solver].
  apply bind_Some in Ht as (v & _ & Ht). by eapply allowlisted_In.
Qed.

Lemma truncate_with_notice_bound s n : (length (truncate_with_notice s n) ≤ n + 12)%nat.
Proof.
  unfold truncate_with_notice. destruct (Nat.leb_spec (length s) n); [lia|].
  rewrite length_app, length_take. change (length (lit " (truncated)")) with 12%nat. lia.
Qed.

Section Env.
Context `{ErrorEnv}.

Lemma safe_structured_message bytes safe : safe_structured_error bytes = Some safe → safe_message safe ∈ SAFE_MESSAGES.
Proof. unfold safe_structured_error. intros (p & _ & ->)%fmap_Some. apply classify_provider_safe. Qed.

Lemma preview_bound bytes : (length (provider_error_body_preview bytes) ≤ PROVIDER_ERROR_BODY_PREVIEW_MAX + 12)%nat.
Proof.
  unfold provider_error_body_preview. destruct (is_nil bytes); [simpl; lia|].
  destruct (structured_diagnostic_summary bytes); [apply truncate_with_notice_bound|simpl; lia].
Qed.

Lemma fallback_cases status bytes :
  fallback_message status bytes = status_user_message status
  ∨ (status = 400 ∧ fallback_message status bytes = status_user_message 400 ++ lit " " ++ provider_error_body_preview bytes).
Proof.
  unfold fallback_message. destruct (Z.eqb_spec status 400) as [->|]; [|by left].
  destruct (is_nil (provider_error_body_preview bytes)); auto.
Qed.
End Env.

(** The errors that the wire formats report by events of their own are outside of this: their
    code and message go into the error as the provider wrote them. *)
Example typed_errors_are_echoed (e : ErrorEnv) (w : Responses.WireEnv) :
  (Responses.on_event 0 (Responses.init 0 None false) (Responses.EvError (Some (lit "c")) (lit "key sk-secret"))).1
  = [Failed (info_of (EApi 500 (lit "c: key sk-secret") None None None))]
  ∧ (Messages.step (Messages.init 0) 0 (Messages.ErrorEvent (lit "c") (lit "key sk-secret"))).1
    = [Failed (info_of (EApi 500 (lit "c: key sk-secret") None None None))].
Proof. split; reflexivity. Qed.

(** C25: Provider text in error bodies is not echoed.  Whatever bytes the body of a failed HTTP
    request holds, the message of the API error is the fixed sentence for its status or one of
    seven fixed texts; only a 400 may append a preview, of at most 268 characters, of the
    fields that the filters let through.  A frame of a stream that the decoder reads as an
    error envelope becomes a [StreamError] whose type and message are both from fixed lists.
    Error events of the Responses and Messages formats, which are not such envelopes, are not
    covered (see [typed_errors_are_echoed]). *)
Theorem error_bodies_not_echoed `{ErrorEnv} (status : Z) (bytes : list N) (data : str) (e : SamplingError) :
  (user_facing_api_error_message status bytes ∈ status_user_message status :: SAFE_MESSAGES
   ∨ (status = 400
      ∧ user_facing_api_error_message status bytes = status_user_message 400 ++ lit " " ++ provider_error_body_preview bytes
      ∧ (length (provider_error_body_preview bytes) ≤ 268)%nat))
  ∧ (try_parse_stream_error data = Some e → ∃ ty msg, e = EStream ty msg ∧ ty ∈ SAFE_TYPES ∧ msg ∈ SAFE_MESSAGES).
Proof.
  split.
  - unfold user_facing_api_error_message.
    assert (Hf : fallback_message status bytes ∈ status_user_message status :: SAFE_MESSAGES
      ∨ (status = 400 ∧ fallback_message status bytes = status_user_message 400 ++ lit " " ++ provider_error_body_preview bytes
         ∧ (length (provider_error_body_preview bytes) ≤ 268)%nat)).
    { pose proof (preview_bound bytes). destruct (fallback_cases status bytes) as [-> | [-> ->]]; [left; by constructor|right].
      split_and!; [done|done|exact H0]. }
    destruct (safe_structured_error bytes) as [safe|] eqn:Hs; [|done]. apply safe_structured_message in Hs.
    destruct (safe_class safe); try done; left; by constructor.
  - unfold try_parse_stream_error. intros (p & _ & ->)%fmap_Some. eexists _, _. split; [done|]. apply classify_provider_safe.
Qed.

(** A provider that repeats a key in its error. *)
Definition leaky_errors : ErrorEnv := {|
  parse_error_response := λ d, Some (mkBody (Some d) (Some (lit "sk-secret")) None);
  parse_flat_error_response := λ _, None; body_text := λ b, Some b; body_json := λ _, None;
  json_text := λ _, []; status_text := λ _, []; custom_error := λ m, mkSerde m 0 0
|}.
Lemma error_bodies_not_echoed_witness :
  ∃ ty msg, EStream (lit "unknown") SAFE_STREAM_ERROR_MESSAGE = EStream ty msg ∧ ty ∈ SAFE_TYPES ∧ msg ∈ SAFE_MESSAGES.
Proof.
  exact (proj2 (error_bodies_not_echoed (H := leaky_errors) 500 [] (lit "key sk-secret is bad") _) eq_refl).
Defined.

(** * The waits between attempts *)

Lemma jittered_range h base : 0 ≤ base → base - base / 5 ≤ jittered h base ≤ base + base / 5.
Proof.
  intros Hb. unfold jittered. assert (0 ≤ base / 5) by (apply Z.div_pos; lia).
  pose proof (Z.mod_pos_bound h (base / 5 * 2 + 1)). lia.
Qed.

Lemma backoff_base_range count : 0 ≤ backoff_base count ≤ MAX_RETRY_BACKOFF.
Proof.
  unfold backoff_base, checked_shl, MAX_RETRY_BACKOFF. assert (HU : 0 < U64) by done.
  destruct (_ <? 64); simpl; [|unfold U64; lia].
  pose proof (Z.mod_pos_bound (Z.shiftl 2000 (Z.max 0 (count - 1))) U64 HU). lia.
Qed.

Lemma backoff_base_grows : forallb (λ k, 2000 <=? backoff_base (Z.of_nat k)) (seq 1 60) = true.
Proof. vm_compute. reflexivity. Qed.
Lemma backoff_base_min count : 1 ≤ count ≤ 60 → 2000 ≤ backoff_base count.
Proof.
  intros Hc. pose proof backoff_base_grows as Hg. rewrite forallb_forall in Hg.
  specialize (Hg (Z.to_nat count)). rewrite Z2Nat.id in Hg by lia. apply Z.leb_le, Hg, in_seq. lia.
Qed.

(** The shift drops every bit of 2000: these retries do not wait at all. *)
Example backoff_lost : backoff_base <$> [60; 61; 62; 63; 64; 65] = [30000; 0; 0; 0; 0; 30000].
Proof. vm_compute. reflexivity. Qed.

Lemma div5_mono b : 0 ≤ b ≤ MAX_RETRY_BACKOFF → 0 ≤ b / 5 ≤ 6000.
Proof.
  unfold MAX_RETRY_BACKOFF. intros Hb. split; [apply Z.div_pos; lia|]. change 6000 with (30000 / 5). apply Z.div_le_mono; lia.
Qed.
Lemma jittered_bound h b : 0 ≤ b ≤ MAX_RETRY_BACKOFF → 0 ≤ jittered h b ≤ 36000.
Proof.
  intros Hb. pose proof (jittered_range h b). pose proof (div5_mono b Hb). unfold MAX_RETRY_BACKOFF in *.
  assert (b / 5 ≤ b) by (apply Z.div_le_upper_bound; lia). lia.
Qed.
Lemma jittered_floor h b : 2000 ≤ b → 1600 ≤ jittered h b.
Proof. intros Hb. pose proof (jittered_range h b). assert (b / 5 * 5 ≤ b) by (rewrite Z.mul_comm; apply Z.mul_div_le; lia). lia. Qed.

(** C24: The waits of the retry loop are bounded.  An ordinary retry waits at most 36 seconds
    (30 seconds and a fifth of jitter), also when the server asks for more; without a
    [Retry-After] the first 60 retries wait at least 1.6 seconds.  The first one rebuilds the
    client.  Only a 429 waits exactly what the server asks for, and only while the count is
    below both budgets; a doom-loop resample waits at most a quarter of a second. *)
Theorem retry_waits_bounded `{ErrorEnv} (err : SamplingError) (h count mx thr : Z) :
  0 ≤ h → 0 ≤ count → (∀ s, retry_after err = Some s → 0 ≤ s) →
  let ordinary b := 0 ≤ b ≤ 36000 ∧ (retry_after err = None → count + 1 ≤ 60 → 1600 ≤ b) in
  match classify_error err h count mx thr with
  | DRetry b => if is_doom err then 0 ≤ b ≤ 250 else 0 < count ∧ ordinary b
  | DRetryWithClientRebuild b => count = 0 ∧ ordinary b
  | DRetryWithBackoff b =>
      is_rate_limited err = true ∧ count + 1 < Z.min mx thr
      ∧ match retry_after err with Some s => b = s * 1000 | None => ordinary b end
  | _ => True
  end.
Proof.
  intros Hh Hc Hra ordinary.
  assert (Hplain : retry_after err = None → ordinary (retry_backoff_with_jitter h (count + 1))).
  { intros _. split; [apply jittered_bound, backoff_base_range|]. intros _ Hle. apply jittered_floor, backoff_base_min. lia. }
  assert (Hord : ordinary (match retry_after err with
                           | Some s => jittered h (Z.min (secs_ms s) MAX_RETRY_BACKOFF)
                           | None => retry_backoff_with_jitter h (count + 1)
                           end)).
  { destruct (retry_after err) as [s|] eqn:Hr; [|by apply Hplain]. split; [|done]. specialize (Hra s eq_refl).
    apply jittered_bound. unfold secs_ms, MAX_RETRY_BACKOFF. lia. }
  unfold classify_error. destruct (is_auth_error err); [done|]. destruct (is_encrypted_content_error err); [done|].
  destruct (mx =? 0); [done|]. destruct (is_payload_too_large err); [done|]. destruct (is_image_processing_error err); [done|].
  destruct (is_retry_vetoed err); [done|]. destruct (is_doom err).
  { unfold doom_loop_backoff. pose proof (Z.mod_pos_bound h 251). lia. }
  destruct (is_rate_limited err).
  - destruct (Z.leb_spec (Z.min mx thr) (count + 1)); [done|]. split_and!; [done|lia|].
    destruct (retry_after err) eqn:Hr; [done|by apply Hplain].
  - destruct (is_retryable err); [|done]. destruct (mx <=? count + 1); [done|].
    destruct (Z.eqb_spec (count + 1) 1); (split; [lia|exact Hord]).
Qed.

(** A world in which nothing can be parsed. *)
Definition mute_errors : ErrorEnv := {|
  parse_error_response := λ _, None; parse_flat_error_response := λ _, None; body_text := λ _, None; body_json := λ _, None;
  json_text := λ _, []; status_text := λ _, []; custom_error := λ m, mkSerde m 0 0
|}.
Lemma retry_waits_bounded_witness :
  match classify_error (H := mute_errors) (EApi 503 [] None (Some 120) None) 7 0 15 2 with
  | DRetryWithClientRebuild b => 0 ≤ b ≤ 36000
  | _ => False
  end.
Proof.
  pose proof (retry_waits_bounded (H := mute_errors) (EApi 503 [] None (Some 120) None) 7 0 15 2 ltac:(lia) ltac:(lia)
          ltac:(intros s [= <-]; lia)) as Hw.
  exact (proj1 (proj2 Hw)).
Defined.

(** * The ends of the streams *)

(** * One terminal event per stream *)

Definition quiet (events : list SamplingEvent) : Prop := Forall (λ e, is_terminal e = false) events.

Lemma token_quiet f c t i : quiet (token f c t i).
Proof. unfold token, quiet. by destruct f; repeat constructor. Qed.
Lemma quiet_app a b : quiet a → quiet b → quiet (a ++ b).
Proof. unfold quiet. rewrite Forall_app. done. Qed.

Section Streams.
Context `{ErrorEnv}.

Lemma on_calls_quiet a calls : quiet (Chat.on_calls a calls).1.
Proof.
  revert a. induction calls as [|tc calls IH]; intros a; simpl; [by constructor|].
  specialize (IH (Chat.on_call a tc).2). unfold Chat.on_call in *. simpl in *.
  destruct (Chat.on_calls _ calls) as [more a']. by constructor.
Qed.

Lemma on_text_quiet now a text : quiet (Chat.on_text now a text).1.1.
Proof. unfold Chat.on_text. destruct (non_empty text); [apply token_quiet|by constructor]. Qed.
Lemma on_reasoning_quiet a text : quiet (Chat.on_reasoning a text).1.1.
Proof. unfold Chat.on_reasoning. destruct (non_empty text); [apply token_quiet|by constructor]. Qed.

Lemma on_choice_quiet now a c : quiet (Chat.on_choice now a c).1.1.
Proof.
  unfold Chat.on_choice.
  pose proof (on_text_quiet now (Chat.note_choice a (Chat.ch_finish_reason c)) (Chat.d_content (Chat.ch_delta c))) as Ht.
  destruct (Chat.on_text now _ _) as [[texts a1] t].
  pose proof (on_reasoning_quiet a1 (Chat.d_reasoning (Chat.ch_delta c))) as Hr.
  destruct (Chat.on_reasoning _ _) as [[thoughts a2] r].
  pose proof (on_calls_quiet a2 (Chat.d_tool_calls (Chat.ch_delta c))) as Hc.
  destruct (Chat.on_calls _ _) as [calls a3]. by apply quiet_app; [|apply quiet_app].
Qed.

Lemma on_choices_quiet now a choices : quiet (Chat.on_choices now a choices).1.1.
Proof.
  revert a. induction choices as [|c choices IH]; intros a; simpl; [by constructor|].
  pose proof (on_choice_quiet now a c) as Hc. destruct (Chat.on_choice now a c) as [[events a'] b].
  specialize (IH a'). destruct (Chat.on_choices _ _ _) as [[more a''] b']. by apply quiet_app.
Qed.

Lemma chat_one_terminal raw metadata idle : one_terminal (Chat.stream_chat_completions raw metadata idle).1.
Proof.
  unfold Chat.stream_chat_completions.
  pose proof (l2_stream_one_terminal idle Chat.step Chat.finish raw metadata (Chat.init (started_at raw))) as Hone.
  destruct (l2_stream _ _ _ _ _ _) as [[events s] err]. apply Hone.
  - intros s' now a. unfold Chat.step. pose proof (on_choices_quiet now (Chat.note_chunk s' a) (Chat.ck_choices a)) as Hq.
    by destruct (Chat.on_choices _ _ _) as [[ev a'] b].
  - intros. by apply one_terminal_single.
Qed.

Lemma messages_step_yields : step_yields Messages.step.
Proof.
  intros s now a. destruct a as [ | | |i b|i d|i| | ]; simpl; try by repeat constructor.
  - destruct b; simpl; unfold Messages.first_token; try destruct (Messages.first_token_emitted s); repeat constructor.
  - unfold Messages.on_delta. destruct (bt_get _ _) as [b|]; [|by constructor].
    destruct d; [destruct (is_nil text)| |destruct (is_nil thinking)|]; simpl; try apply token_quiet; try by constructor.
    destruct (bt_get _ _); by repeat constructor.
  - unfold Messages.on_block_stop. destruct (bt_get _ _) as [b|]; [|by constructor].
    destruct (Messages.block_type b); simpl; try destruct (is_nil _); by repeat constructor.
  - by apply one_terminal_single.
Qed.

Lemma messages_one_terminal raw metadata idle : one_terminal (Messages.stream_messages raw metadata idle).1.
Proof.
  unfold Messages.stream_messages.
  pose proof (l2_stream_one_terminal idle Messages.step Messages.finish raw metadata (Messages.init (started_at raw))) as Hone.
  destruct (l2_stream _ _ _ _ _ _) as [[events s] err]. apply Hone; [apply messages_step_yields|].
  intros ended s' now. unfold Messages.finish. case_bool_decide; by apply one_terminal_single.
Qed.

Context `{Responses.WireEnv}.

Lemma responses_step_yields : step_yields Responses.step.
Proof.
  intros s now [e c]. unfold Responses.step. simpl.
  destruct (_ ≫= abort_triggers) as [triggers|]; [by apply one_terminal_single|].
  destruct e; simpl; unfold Responses.on_text, Responses.backend_done;
    repeat (case_match; simplify_eq; simpl); try apply token_quiet; try by repeat constructor.
  all: by apply one_terminal_single.
Qed.

Lemma responses_one_terminal frames metadata idle doom observed :
  one_terminal (Responses.stream_responses_tracked frames metadata idle doom observed).1.1.
Proof.
  unfold Responses.stream_responses_tracked.
  destruct (Responses.decode _ _ _ _) as [[items ends] last].
  match goal with |- context [l2_stream ?i ?s ?f ?r ?m ?x] => pose proof (l2_stream_one_terminal i s f r m x) as Hone end.
  destruct (l2_stream _ _ _ _ _ _) as [[events a] err]. apply Hone; [apply responses_step_yields|].
  intros ended a' now. unfold Responses.finish. destruct (Responses.final_response a'); by apply one_terminal_single.
Qed.
End Streams.

(** C19: Each of the three stream transforms, on any raw stream with any timing, yields exactly
    one terminal event, [Completed] or [Failed], and nothing after it. *)
Theorem streams_end_once `{ErrorEnv, Responses.WireEnv} (metadata : option ResponseModelMetadata) (idle : Z) :
  (∀ raw, one_terminal (Chat.stream_chat_completions raw metadata idle).1)
  ∧ (∀ raw, one_terminal (Messages.stream_messages raw metadata idle).1)
  ∧ (∀ frames doom observed, one_terminal (Responses.stream_responses_tracked frames metadata idle doom observed).1.1).
Proof.
  split_and!; intros; [apply chat_one_terminal|apply messages_one_terminal|apply responses_one_terminal].
Qed.
