(* ===== verification/SamplerEnd.v ===== *)
(** The task of a sampling request: its doom-loop verdicts come from the stream transforms
    alone, and it ends after a bounded number of attempts and settles once. *)
From stdpp Require Import base list strings.
From S2P Require Import Prelude RustStr Json BreakerConfig Conversation SamplingErr SampleEvents SampleStream SamplerTask SamplerSafety.
Open Scope Z_scope.

(** * Doom-loop verdicts come from the transforms alone *)

Definition no_doom_failure (e : SamplingEvent) : Prop :=
  match e with Failed info => kind info ≠ KDoomLoop | _ => True end.

Section Verdicts.
Context `{ErrorEnv}.

Lemma info_kind_doom e : kind (info_of e) = KDoomLoop ↔ is_doom e = true.
Proof. destruct e; simpl; try done. by destruct (status =? 429). Qed.

Lemma no_doom_info e : is_doom e = false → no_doom_failure (Failed (info_of e)).
Proof. simpl. rewrite info_kind_doom. congruence. Qed.

Lemma clone_error_doom e : is_doom (clone_error e) = is_doom e.
Proof. by destruct e. Qed.

Lemma synthesize_doom info : is_doom (synthesize_from_info info) = true → kind info = KDoomLoop.
Proof.
  unfold synthesize_from_info. destruct (kind info) eqn:Hk; simpl; try done. by destruct (empty_response_context info).
Qed.

Section Loop.
Context {A St : Type} (idle_timeout : Z) (Q : A → Prop).
Context (step : St → Z → A → list SamplingEvent * Flow St) (finish : bool → St → Z → list SamplingEvent).
Hypothesis step_ok : ∀ s now a, Q a → Forall no_doom_failure (step s now a).1.
Hypothesis finish_ok : ∀ ended s now, Forall no_doom_failure (finish ended s now).

Definition arrived_ok (arrival : Z * result A SamplingError) : Prop :=
  match arrival.2 with Ok a => Q a | Err e => is_doom e = false end.

Lemma idle_no_doom : Forall no_doom_failure [idle_failed idle_timeout].
Proof. by repeat constructor. Qed.

Lemma l2_loop_no_doom now last_content s arrivals ends :
  Forall arrived_ok arrivals →
  let '(events, _, raw_error) := l2_loop idle_timeout step finish now last_content s arrivals ends in
  Forall no_doom_failure events ∧ from_option (λ e, is_doom e = false) True raw_error.
Proof.
  intros Hall. revert now last_content s. induction Hall as [|[gap item] rest Hok _ IH]; intros; simpl.
  { destruct ends as [gap|]; [destruct (gap <=? idle_timeout)|]; simpl; by (split; [auto using idle_no_doom|]). }
  destruct (idle_timeout <? gap); [by (split; [apply idle_no_doom|])|].
  destruct item as [a|e]; simpl in *; [|split; [by constructor; [apply no_doom_info|]|done]].
  pose proof (step_ok s (now + gap) a Hok) as Hs.
  destruct (step s (now + gap) a) as [events [s' c b|s']]; simpl in *; [|by split].
  destruct (negb c && _); [split; [apply Forall_app; auto using idle_no_doom|done]|].
  destruct b; [split; [by apply Forall_app|done]|].
  specialize (IH (now + gap) (if c then now + gap else last_content) s').
  destruct (l2_loop _ _ _ _ _ _ _ _) as [[more s''] err]. destruct IH. by rewrite Forall_app.
Qed.

Lemma l2_stream_no_doom raw metadata init :
  Forall arrived_ok (arrivals raw) →
  let '(events, _, raw_error) := l2_stream idle_timeout step finish raw metadata init in
  Forall no_doom_failure events ∧ from_option (λ e, is_doom e = false) True raw_error.
Proof.
  intros Hall. unfold l2_stream.
  pose proof (l2_loop_no_doom (started_at raw) (started_at raw) init _ (ends raw) Hall) as Hl.
  destruct (l2_loop _ _ _ _ _ _ _ _) as [[events s] err]. destruct Hl as [He ?]. split; [|done].
  apply Forall_app. split; [|done]. unfold opening. destruct metadata; by repeat constructor.
Qed.
End Loop.

Lemma quiet_no_doom events : quiet events → Forall no_doom_failure events.
Proof. unfold quiet. intros Hq. eapply Forall_impl; [exact Hq|]. by intros []. Qed.

Lemma drive_no_doom cancel captured observed l2 events e o :
  Forall no_doom_failure l2 → from_option (λ e, is_doom e = false) True captured →
  drive_l2 cancel captured None observed l2 = (events, OFailed e, o) → is_doom e = false.
Proof.
  intros Hl Hc. revert cancel observed events o. induction Hl as [|ev l2 Hev _ IH]; intros cancel observed events o.
  { simpl. destruct cancel as [[|k]|]; [done| |]; by intros [= <- <- <-]. }
  assert (Hgo : ∀ cancel' obs, (let '(sent, out, ob) := drive_l2 cancel' captured None obs l2 in (ev :: sent, out, ob))
                               = (events, OFailed e, o) → is_doom e = false).
  { intros cancel' obs. destruct (drive_l2 _ _ _ _ l2) as [[sent out] ob] eqn:Hd. intros [= <- -> ->]. by eapply IH. }
  simpl. destruct cancel as [[|k]|]; [done| |].
  all: destruct ev as [ | | | | | |r m| | |info| | | ]; try (apply Hgo); intros [= <- He <-].
  1,3: unfold judge_response in He; simpl in He; repeat case_bool_decide; simplify_eq; try done;
         destruct (empty_reason _); by simplify_eq.
  all: subst e; destruct captured as [e0|]; [rewrite clone_error_doom; exact Hc|];
    apply not_true_is_false; intros Hd; by apply synthesize_doom in Hd.
Qed.
End Verdicts.

Section World.
Context `{ErrorEnv, Responses.WireEnv, SamplerWorld}.

(** The errors of the client are never doom-loop verdicts: it reports transport, decoding and
    provider errors. *)
Record honest_client : Prop := {
  honest_chat n c r : match conversation_stream n c r with
                      | Err e => is_doom e = false
                      | Ok (raw, _) => Forall (arrived_ok (λ _, True)) (arrivals raw)
                      end;
  honest_responses n c r : match conversation_stream_responses n c r with
                           | Err e => is_doom e = false
                           | Ok (frames, _, _) => Forall (arrived_ok (λ _, True)) (Responses.fr_frames frames)
                           end;
  honest_messages n c r : match conversation_stream_messages n c r with
                          | Err e => is_doom e = false
                          | Ok (raw, _) => Forall (arrived_ok (λ _, True)) (arrivals raw)
                          end;
  honest_decoder data e : Responses.deserialize_response_event data = Err e → is_doom e = false
}.

(** ** The Responses transform with a disarmed collector *)

Definition disarmed (c : option Collector) : Prop := from_option (λ c, abort_disarmed c = true) True c.
Definition item_disarmed (i : Responses.Item) : Prop := disarmed i.2.

Lemma absorb_opt_disarmed c name data : disarmed c → disarmed (Responses.absorb_opt c name data).1.
Proof.
  destruct c as [c|]; [|done]. simpl. intros Hc. pose proof (absorb_settings Responses.from_str c name data) as [_ Hd].
  destruct (absorb _ _ _ _) as [c' b]. simpl in *. congruence.
Qed.

Lemma decode_disarmed waited doom frames ends :
  honest_client → disarmed doom → Forall (arrived_ok (λ _, True)) frames →
  Forall (arrived_ok item_disarmed) (Responses.decode waited doom frames ends).1.1.
Proof.
  intros Hh Hd Hall. revert waited doom Hd. induction Hall as [|[gap [[name data]|e]] rest Hok _ IH]; intros; simpl.
  - by constructor.
  - destruct (str_eqb data _); [by constructor|]. pose proof (absorb_opt_disarmed doom name data Hd) as Hd'.
    destruct (Responses.absorb_opt doom name data) as [doom' swallow]. destruct swallow; [by apply IH|].
    specialize (IH 0 doom' Hd'). destruct (Responses.decode 0 doom' rest ends) as [[items ends'] last].
    constructor; [|done]. unfold arrived_ok. simpl. unfold try_parse_stream_error.
    destruct (try_parse_error data); [done|]. simpl.
    destruct (Responses.deserialize_response_event data) eqn:He; simpl; [done|]. by eapply honest_decoder.
  - constructor; [exact Hok|by constructor].
Qed.

Lemma responses_step_no_doom s now i : item_disarmed i → Forall no_doom_failure (Responses.step s now i).1.
Proof.
  intros Hd. pose proof (responses_step_yields s now i) as Hy. unfold Responses.step in *.
  assert (Responses.doom_loop (Responses.observe s i) ≫= abort_triggers = None) as Hn.
  { destruct i as [e [c|]]; [|done]. by apply disarmed_never_aborts. }
  rewrite Hn in *. destruct (Responses.on_event now _ i.1) as [events [s' c b|s']] eqn:He; [by apply quiet_no_doom|].
  destruct i as [e c]. simpl in *. destruct e; simpl in He; try case_match; simplify_eq; by repeat constructor.
Qed.

Lemma responses_no_doom frames metadata idle doom observed :
  honest_client → disarmed doom → Forall (arrived_ok (λ _, True)) (Responses.fr_frames frames) →
  let '(events, _, raw_error) := Responses.stream_responses_tracked frames metadata idle doom observed in
  Forall no_doom_failure events ∧ from_option (λ e, is_doom e = false) True raw_error.
Proof.
  intros Hh Hd Hall. unfold Responses.stream_responses_tracked.
  pose proof (decode_disarmed 0 doom _ (Responses.fr_ends frames) Hh Hd Hall) as Hi.
  destruct (Responses.decode _ _ _ _) as [[items ends] last]. simpl in *.
  match goal with |- context [l2_stream ?i ?s ?f ?r ?m ?x] => pose proof (l2_stream_no_doom i item_disarmed s f) as Hn end.
  specialize (Hn responses_step_no_doom).
  lapply Hn; [clear Hn; intros Hn|].
  2: { intros ended a now. unfold Responses.finish. destruct (Responses.final_response a); by repeat constructor. }
  match goal with |- context [l2_stream ?i ?s ?f ?r ?m ?x] => specialize (Hn r m x Hi) end.
  by destruct (l2_stream _ _ _ _ _ _) as [[events a] err].
Qed.

Lemma chat_no_doom raw metadata idle :
  Forall (arrived_ok (λ _, True)) (arrivals raw) →
  let '(events, raw_error) := Chat.stream_chat_completions raw metadata idle in
  Forall no_doom_failure events ∧ from_option (λ e, is_doom e = false) True raw_error.
Proof.
  intros Hall. unfold Chat.stream_chat_completions.
  pose proof (l2_stream_no_doom idle (λ _, True) Chat.step Chat.finish) as Hn.
  lapply Hn; [clear Hn; intros Hn|].
  2: { intros s now a _. unfold Chat.step. pose proof (on_choices_quiet now (Chat.note_chunk s a) (Chat.ck_choices a)) as Hq.
    destruct (Chat.on_choices _ _ _) as [[ev a'] b]. by apply quiet_no_doom. }
  lapply Hn; [clear Hn; intros Hn|by intros; repeat constructor].
  specialize (Hn raw metadata (Chat.init (started_at raw)) Hall). by destruct (l2_stream _ _ _ _ _ _) as [[events s] err].
Qed.

Lemma messages_no_doom raw metadata idle :
  Forall (arrived_ok (λ _, True)) (arrivals raw) →
  let '(events, raw_error) := Messages.stream_messages raw metadata idle in
  Forall no_doom_failure events ∧ from_option (λ e, is_doom e = false) True raw_error.
Proof.
  intros Hall. unfold Messages.stream_messages.
  pose proof (l2_stream_no_doom idle (λ _, True) Messages.step Messages.finish) as Hn.
  lapply Hn; [clear Hn; intros Hn|].
  2: { intros s now a _. pose proof (messages_step_yields s now a) as Hq.
    destruct (Messages.step s now a) as [ev [s' c b|s']] eqn:He; [by apply quiet_no_doom|].
    destruct a; simpl in He; repeat case_match; simplify_eq; by repeat constructor. }
  lapply Hn; [clear Hn; intros Hn|].
  2: { intros ended s now. unfold Messages.finish. case_bool_decide; by repeat constructor. }
  specialize (Hn raw metadata (Messages.init (started_at raw)) Hall).
  by destruct (l2_stream _ _ _ _ _ _) as [[events s] err].
Qed.

Lemma drive_not_init cancel captured doom observed l2 events e o :
  drive_l2 cancel captured doom observed l2 = (events, OInitFailed e, o) → False.
Proof.
  revert cancel observed events. induction l2 as [|ev l2 IH]; intros cancel observed events; simpl.
  { by destruct cancel as [[|k]|]. }
  assert (Hgo : ∀ cancel' obs, (let '(sent, out, ob) := drive_l2 cancel' captured doom obs l2 in (ev :: sent, out, ob))
                               = (events, OInitFailed e, o) → False).
  { intros cancel' obs. destruct (drive_l2 _ _ _ _ l2) as [[sent out] ob] eqn:Hd. intros [= <- -> ->]. by eapply IH. }
  destruct cancel as [[|k]|]; [done| |].
  all: destruct ev as [ | | | | | |r m| | |info| | | ]; try (apply Hgo); try done; intros [= <- He <-].
  all: unfold judge_response in He; repeat case_match; by simplify_eq.
Qed.

Definition doom_only_if (armed : Prop) (outcome : AttemptOutcome) : Prop :=
  match outcome with
  | OFailed e => is_doom e = true → armed
  | OInitFailed e => is_doom e = false
  | _ => True
  end.

Lemma drive_doom_only_if cancel captured doom observed l2 events outcome o :
  (doom = None → Forall no_doom_failure l2 ∧ from_option (λ e, is_doom e = false) True captured) →
  drive_l2 cancel captured doom observed l2 = (events, outcome, o) → doom_only_if (is_Some doom) outcome.
Proof.
  intros Hn Hd. destruct outcome as [| |e| |e]; try done; simpl.
  - intros He. destruct doom as [p|]; [by eexists|]. destruct (Hn eq_refl) as [Hl Hc].
    rewrite (drive_no_doom _ _ _ _ _ _ _ Hl Hc Hd) in He. done.
  - by apply drive_not_init in Hd.
Qed.

(** An attempt fails with a doom-loop verdict only under a doom check; opening the stream
    never does. *)
Lemma attempt_doom_only_if n c r idle doom_check observed events outcome o :
  honest_client →
  run_one_attempt n c r idle doom_check observed = (events, outcome, o) → doom_only_if (is_Some doom_check) outcome.
Proof.
  intros Hh. assert (Hwk : ∀ out, doom_only_if (is_Some (@None DoomLoopRecoveryPolicy)) out → doom_only_if (is_Some doom_check) out).
  { intros []; simpl; try done. intros Hx Hy. by destruct (Hx Hy). }
  assert (Hresp : match conversation_stream_responses n c r with
                  | Err e => ([], OInitFailed e, observed)
                  | Ok (frames, metadata, doom_loop) =>
                      let doom_loop := match doom_check with None => disarm_abort <$> doom_loop | Some _ => doom_loop end in
                      let '(l2, observed, captured) :=
                        Responses.stream_responses_tracked frames metadata idle doom_loop observed in
                      drive_l2 (cancelled_during n) captured doom_check observed l2
                  end = (events, outcome, o) → doom_only_if (is_Some doom_check) outcome).
  { pose proof (honest_responses Hh n c r) as Hc.
    destruct (conversation_stream_responses n c r) as [[[frames m] doom]|e]; [|by intros [= <- <- <-]]. simpl.
    pose proof (responses_no_doom frames m idle (match doom_check with None => disarm_abort <$> doom | Some _ => doom end)
                  observed Hh) as Hn.
    destruct (Responses.stream_responses_tracked _ _ _ _ _) as [[l2 obs] captured].
    apply drive_doom_only_if. intros ->. apply Hn; [|done]. by destruct doom. }
  unfold run_one_attempt. destruct (api_backend c); [|exact Hresp|exact Hresp|].
  - pose proof (honest_chat Hh n c r) as Hc. destruct (conversation_stream n c r) as [[raw m]|e]; [|by intros [= <- <- <-]].
    pose proof (chat_no_doom raw m idle Hc) as Hn. destruct (Chat.stream_chat_completions raw m idle) as [l2 captured].
    intros Hd. apply Hwk. by eapply drive_doom_only_if; [|exact Hd].
  - pose proof (honest_messages Hh n c r) as Hc. destruct (conversation_stream_messages n c r) as [[raw m]|e]; [|by intros [= <- <- <-]].
    pose proof (messages_no_doom raw m idle Hc) as Hn. destruct (Messages.stream_messages raw m idle) as [l2 captured].
    intros Hd. apply Hwk. by eapply drive_doom_only_if; [|exact Hd].
Qed.
End World.

(** * Images *)

Lemma strip_part_stripped p : is_image (strip_part p) = false.
Proof. by destruct p. Qed.

Lemma strip_item_stripped i : (strip_item (strip_item i).1).2 = 0%nat.
Proof.
  destruct i as [|u| | | |]; simpl; try done. induction (user_content u) as [|p l IH]; [done|]. csimpl.
  by rewrite strip_part_stripped.
Qed.

Lemma strip_images_stripped items : image_count (strip_images items).1 = 0%nat.
Proof.
  unfold image_count, strip_images. simpl. induction items as [|i items IH]; [done|]. csimpl.
  by rewrite strip_item_stripped, IH.
Qed.

Section Task.
Context `{ErrorEnv, Responses.WireEnv, SamplerWorld}.
Context (wants : bool) (config : SamplerConfig) (policy : RetryPolicy).
Notation task_max := (task_max_retries config policy).
Notation task_doom := (task_doom_retries config policy).

(** * Settling *)

(** How a task is left: one terminal event and, when a caller waits, the completion that
    says the same. *)
Inductive verdict : list Action → Prop :=
  | verdict_completed r m : verdict (AEvent (Completed r m) :: send_completion wants (Ok (r, m)))
  | verdict_failed shown sent : sent = shown ∨ sent = clone_error shown → verdict (stop_retrying wants shown sent)
  | verdict_cancelled : verdict (handle_cancellation wants).

Definition calm (a : Action) : Prop :=
  match a with AEvent e => is_terminal e = false | AComplete _ => False | _ => True end.
Definition settled (actions : list Action) : Prop :=
  ∃ body tail, actions = body ++ tail ∧ Forall calm body ∧ verdict tail.

Lemma settled_app body actions : Forall calm body → settled actions → settled (body ++ actions).
Proof.
  intros Hb (body' & tail & -> & Hb' & Hv). exists (body ++ body'), tail.
  rewrite app_assoc, Forall_app. done.
Qed.
Lemma settled_verdict actions : verdict actions → settled actions.
Proof. intros Hv. exists [], actions. done. Qed.
#[local] Hint Resolve settled_verdict verdict_cancelled verdict_completed : medley.

Definition outcome_settles (result : list Action * option Task) : Prop :=
  match result.2 with None => settled result.1 | Some _ => Forall calm result.1 end.

Lemma settles_cons body result :
  Forall calm body → outcome_settles result → outcome_settles (body ++ result.1, result.2).
Proof. destruct result as [actions [t|]]; simpl; intros Hb Hr; [by apply Forall_app|by apply settled_app]. Qed.

Lemma sleep_settles n backoff t : outcome_settles (sleep_or_cancel wants n backoff t).
Proof.
  unfold sleep_or_cancel. destruct (cancelled_asleep n); [|by repeat constructor].
  apply (settled_app [ASleep backoff]); [by repeat constructor|auto with medley].
Qed.

Lemma retrying_calm attempt mx e : Forall calm (emit_retrying attempt mx e).
Proof. by repeat constructor. Qed.

Lemma retry_sleep_settles attempt mx e n backoff t :
  outcome_settles (let '(actions, t) := sleep_or_cancel wants n backoff t in (emit_retrying attempt mx e ++ actions, t)).
Proof.
  pose proof (settles_cons _ _ (retrying_calm attempt mx e) (sleep_settles n backoff t)) as Hs.
  by destruct (sleep_or_cancel _ _ _ _).
Qed.

Lemma apply_settles n err mx t : outcome_settles (apply_retry_decision wants config policy n err mx t).
Proof.
  unfold apply_retry_decision. destruct (classify_error _ _ _ _ _) as [b|b| |b|e|e]; try apply retry_sleep_settles.
  - destruct (strip_images _) as [request stripped]. destruct (stripped =? 0)%nat; [|apply retrying_calm].
    apply settled_verdict. constructor. by right.
  - apply settled_verdict. constructor. by left.
  - apply settled_verdict. constructor. by left.
Qed.

Lemma on_outcome_settles n t outcome : outcome_settles (on_outcome wants config policy n t outcome).
Proof.
  destruct outcome as [r m|c|e| |e]; simpl; try apply apply_settles.
  - unfold outcome_settles. simpl. auto with medley.
  - destruct (is_doom e); [|apply apply_settles]. destruct (_ && _); [|apply retry_sleep_settles].
    apply settled_verdict. constructor. by right.
  - unfold outcome_settles. simpl. auto with medley.
Qed.

Lemma drive_quiet cancel captured doom observed l2 : quiet (drive_l2 cancel captured doom observed l2).1.1.
Proof.
  revert cancel observed. induction l2 as [|ev l2 IH]; intros cancel observed; simpl.
  { by destruct cancel as [[|k]|]; constructor. }
  assert (Hgo : ∀ cancel' obs, is_terminal ev = false →
      quiet (let '(sent, out, ob) := drive_l2 cancel' captured doom obs l2 in (ev :: sent, out, ob)).1.1).
  { intros cancel' obs Hev. specialize (IH cancel' obs). destruct (drive_l2 _ _ _ _ l2) as [[sent out] ob]. by constructor. }
  destruct cancel as [[|k]|]; [by constructor| |].
  all: destruct ev; try (by apply Hgo); by constructor.
Qed.

Lemma attempt_quiet n c r idle doom observed : quiet (run_one_attempt n c r idle doom observed).1.1.
Proof.
  unfold run_one_attempt. destruct (api_backend c).
  1: destruct (conversation_stream n c r) as [[raw m]|e]; [|by constructor].
  2,3: destruct (conversation_stream_responses n c r) as [[[raw m] d]|e]; [|by constructor].
  4: destruct (conversation_stream_messages n c r) as [[raw m]|e]; [|by constructor].
  1,4: case_match; apply drive_quiet.
  all: destruct (Responses.stream_responses_tracked _ _ _ _ _) as [[l2 obs] captured]; apply drive_quiet.
Qed.

Lemma task_step_settles n t : outcome_settles (task_step wants config policy n t).
Proof.
  unfold task_step. destruct (cancelled_before n); [unfold outcome_settles; simpl; auto with medley|].
  set (doom := if _ <? _ then _ else _). pose proof (attempt_quiet n (t_client t) (t_request t) (idle_timeout config) doom (t_observed t)) as Hq.
  destruct (run_one_attempt _ _ _ _ _ _) as [[events outcome] observed]. simpl in Hq.
  pose proof (on_outcome_settles n (mkTask (t_request t) (t_client t) (t_retry_count t) (t_doom_retry_count t) observed) outcome) as Ho.
  destruct (on_outcome _ _ _ _ _ _) as [actions next].
  apply (settles_cons (ASend (t_client t) (t_request t) :: (AEvent <$> events)) (actions, next)); [|done].
  constructor; [done|]. apply Forall_fmap. eapply Forall_impl; [exact Hq|]. done.
Qed.

Lemma task_loop_settles fuel n t actions : task_loop wants config policy fuel n t = Some actions → settled actions.
Proof.
  revert n t actions. induction fuel as [|fuel IH]; intros n t actions; [done|]. simpl.
  pose proof (task_step_settles n t) as Hs. destruct (task_step _ _ _ n t) as [acts [t'|]]; [|by intros [= <-]].
  intros (more & Hm & ->)%fmap_Some. apply settled_app; [done|by eapply IH].
Qed.

(** * Progress *)

(** Retries left before the budget is spent, the one that stripping images may add, and the
    resamples left. *)
Definition retries_left (t : Task) : nat := Z.to_nat (task_max - 1 - t_retry_count t).
Definition strip_left (t : Task) : nat := if negb (task_max =? 0) && (0 <? image_count (t_request t))%nat then 1 else 0.
Definition resamples_left (t : Task) : nat := Z.to_nat (task_doom - t_doom_retry_count t).
Definition budget (t : Task) : nat := retries_left t + strip_left t + resamples_left t.

Definition waits (d : RetryDecision) : bool :=
  match d with DRetry _ | DRetryWithBackoff _ | DRetryWithClientRebuild _ => true | _ => false end.

Lemma classify_waits err h count mx thr :
  is_doom err = false → waits (classify_error err h count mx thr) = true → count + 1 < mx ∧ mx ≠ 0.
Proof.
  unfold classify_error. intros Hd. rewrite Hd. repeat (case_goal; simpl; try done). all: bool_to_prop; lia.
Qed.
Lemma classify_strips err h count mx thr : classify_error err h count mx thr = DRetryWithImageStrip → mx ≠ 0.
Proof. unfold classify_error. repeat (case_goal; simpl; try done). all: bool_to_prop; lia. Qed.

(** A next attempt of [apply_retry_decision]: one more retry, and either the budget allowed
    it or images went. *)
Definition retry_of (mx : Z) (t t' : Task) : Prop :=
  t_retry_count t' = t_retry_count t + 1 ∧ t_doom_retry_count t' = t_doom_retry_count t ∧ t_observed t' = t_observed t
  ∧ mx ≠ 0
  ∧ (t_request t' = t_request t ∨ t_request t' = (strip_images (t_request t)).1)
  ∧ (t_client t' = t_client t ∨ t_client t' = rebuilt config (t_client t))
  ∧ (t_retry_count t + 1 < mx ∨ ((0 < image_count (t_request t))%nat ∧ image_count (t_request t') = 0%nat)).

Lemma sleep_next n backoff t acts t' : sleep_or_cancel wants n backoff t = (acts, Some t') → t' = t.
Proof. unfold sleep_or_cancel. destruct (cancelled_asleep n); [done|congruence]. Qed.

Lemma strip_cond_request (b : bool) items :
  (if b then (strip_images items).1 else items) = items ∨ (if b then (strip_images items).1 else items) = (strip_images items).1.
Proof. destruct b; auto. Qed.

Lemma apply_next n err mx t acts t' :
  is_doom err = false → apply_retry_decision wants config policy n err mx t = (acts, Some t') → retry_of mx t t'.
Proof.
  intros Hd. unfold apply_retry_decision.
  destruct (classify_error err (hash n) (t_retry_count t) mx (threshold policy)) as [b|b| |b|e|e] eqn:Hc; try done.
  3: { set (request0 := if is_likely_body_rejected err then (strip_images (t_request t)).1 else t_request t).
       destruct (strip_images request0) as [request stripped] eqn:Hs.
       destruct (Nat.eqb_spec stripped 0) as [|Hne]; [done|]. intros [= _ <-].
       assert (Hr : request0 = t_request t).
       { unfold request0 in *. destruct (is_likely_body_rejected err); [|done]. exfalso. apply Hne.
         pose proof (strip_images_stripped (t_request t)) as Hz. unfold image_count in Hz. by rewrite Hs in Hz. }
       clearbody request0. subst request0.
       repeat split; cbn [t_request retried]; auto; [by eapply classify_strips|right; by rewrite Hs|].
       right. split; [unfold image_count; rewrite Hs; simpl; lia|].
       replace request with (strip_images (t_request t)).1 by (by rewrite Hs). apply strip_images_stripped. }
  all: destruct (classify_waits err (hash n) (t_retry_count t) mx (threshold policy) Hd ltac:(by rewrite Hc)) as [Hlt Hne].
  all: destruct (sleep_or_cancel _ _ _ _) as [actions next] eqn:Hs; intros [= _ ->]; apply sleep_next in Hs as ->;
    repeat split; cbn [t_request t_client t_retry_count retried]; auto using strip_cond_request.
Qed.

Lemma retry_of_budget mx t t' : (mx = 0 ∨ mx = task_max) → retry_of mx t t' → (budget t' < budget t)%nat.
Proof.
  intros Hmx (Hr & Hd & _ & Hne & Hreq & _ & Hor). destruct Hmx as [-> | ->]; [done|].
  unfold budget, retries_left, resamples_left, strip_left. rewrite Hr, Hd.
  assert (Hle : (image_count (t_request t') ≤ image_count (t_request t))%nat).
  { destruct Hreq as [-> | ->]; [done|]. rewrite strip_images_stripped. lia. }
  rewrite (proj2 (Z.eqb_neq task_max 0) Hne). simpl.
  destruct (Nat.ltb_spec 0 (image_count (t_request t'))), (Nat.ltb_spec 0 (image_count (t_request t))); lia.
Qed.

Definition armed (t : Task) : Prop := t_doom_retry_count t < task_doom.

Lemma on_outcome_next n t outcome acts t' :
  doom_only_if (armed t) outcome →
  on_outcome wants config policy n t outcome = (acts, Some t') →
  (retry_only_before_output policy = true → t_observed t = false)
  ∧ ((∃ mx, (mx = 0 ∨ mx = task_max) ∧ retry_of mx t t')
     ∨ (armed t ∧ t' = mkTask (t_request t) (t_client t) (t_retry_count t) (t_doom_retry_count t + 1) (t_observed t))).
Proof.
  intros Ho. set (held := retry_only_before_output policy && t_observed t).
  assert (Happly : ∀ err, is_doom err = false →
    apply_retry_decision wants config policy n err (if held then 0 else task_max) t = (acts, Some t') →
    (retry_only_before_output policy = true → t_observed t = false)
    ∧ ((∃ mx, (mx = 0 ∨ mx = task_max) ∧ retry_of mx t t')
       ∨ (armed t ∧ t' = mkTask (t_request t) (t_client t) (t_retry_count t) (t_doom_retry_count t + 1) (t_observed t)))).
  { intros err He Ha%apply_next; [|done]. split.
    - intros Hp. destruct (t_observed t) eqn:Hobs; [|done]. subst held. rewrite Hp in Ha. simpl in Ha.
      by destruct Ha as (_ & _ & _ & Hz & _).
    - left. exists (if held then 0 else task_max). split; [destruct held; auto|done]. }
  destruct outcome as [r m|c|e| |e]; simpl; fold held; try done; [by apply Happly| |by apply Happly].
  destruct (is_doom e) eqn:He; [|by apply Happly]. simpl in Ho.
  destruct held eqn:Hh; [done|]. destruct (sleep_or_cancel _ _ _ _) as [actions next] eqn:Hs. intros [= _ ->].
  apply sleep_next in Hs as ->. split; [|right; auto].
  intros Hp. subst held. rewrite Hp in Hh. exact Hh.
Qed.

Lemma task_step_next n t acts t' :
  honest_client → task_step wants config policy n t = (acts, Some t') →
  (budget t' < budget t)%nat.
Proof.
  intros Hh. unfold task_step. destruct (cancelled_before n); [done|].
  destruct (run_one_attempt _ _ _ _ _ _) as [[events outcome] observed] eqn:Hr.
  apply attempt_doom_only_if in Hr; [|done].
  destruct (on_outcome _ _ _ _ _ _) as [actions next] eqn:Ho. intros [= _ ->].
  apply on_outcome_next in Ho as [_ [(mx & Hmx & Hret)|[Harm ->]]].
  - by apply (retry_of_budget mx) in Hret.
  - unfold budget, resamples_left, retries_left, strip_left, armed in *. simpl in *. lia.
  - destruct outcome; simpl in *; try done. intros Hd. apply Hr in Hd. unfold armed. simpl.
    destruct (Z.ltb_spec (t_doom_retry_count t) task_doom); [done|by destruct Hd].
Qed.

Lemma task_loop_ends fuel n t :
  honest_client → (budget t < fuel)%nat → ∃ actions, task_loop wants config policy fuel n t = Some actions.
Proof.
  intros Hh. revert n t. induction fuel as [|fuel IH]; intros n t Hb; [lia|]. simpl.
  destruct (task_step _ _ _ n t) as [acts [t'|]] eqn:Hs; [|by eexists].
  destruct (IH (S n) t') as [more Hm]; [apply task_step_next in Hs; [lia|done]|]. rewrite Hm. by eexists.
Qed.

Definition is_send (a : Action) : bool := match a with ASend _ _ => true | _ => false end.
Definition sends (actions : list Action) : nat := length (List.filter is_send actions).
Lemma sends_app a b : sends (a ++ b) = (sends a + sends b)%nat.
Proof. unfold sends. by rewrite List.filter_app, length_app. Qed.

Lemma sends_events events : sends (AEvent <$> events) = 0%nat.
Proof. by induction events. Qed.

(** What the retry logic does by itself. *)
Definition own (a : Action) : Prop :=
  match a with
  | ASleep _ | AComplete _ | AEvent (Failed _) | AEvent AttemptDiscarded | AEvent (Retrying _ _ _ _ _ _) => True
  | _ => False
  end.
Lemma sends_own actions : Forall own actions → sends actions = 0%nat.
Proof. induction 1 as [|a actions Ha _ IH]; [done|]. by destruct a. Qed.
Lemma own_completion r : Forall own (send_completion wants r).
Proof. unfold send_completion. destruct wants; by repeat constructor. Qed.
Lemma own_retry_sleep attempt mx e n backoff t :
  Forall own (let '(actions, t) := sleep_or_cancel wants n backoff t in (emit_retrying attempt mx e ++ actions, t)).1.
Proof.
  unfold sleep_or_cancel. destruct (cancelled_asleep n); [|by repeat constructor].
  simpl. repeat (constructor; [done|]). apply own_completion.
Qed.
Lemma own_apply n err mx t : Forall own (apply_retry_decision wants config policy n err mx t).1.
Proof.
  unfold apply_retry_decision. destruct (classify_error _ _ _ _ _) as [b|b| |b|e|e]; try apply own_retry_sleep.
  - destruct (strip_images _) as [request stripped]. destruct (stripped =? 0)%nat; [|by repeat constructor].
    constructor; [done|apply own_completion].
  - constructor; [done|apply own_completion].
  - constructor; [done|apply own_completion].
Qed.
Lemma own_on_outcome n t outcome :
  (∃ r m, outcome = OCompleted r m) ∨ Forall own (on_outcome wants config policy n t outcome).1.
Proof.
  destruct outcome as [r m|c|e| |e]; [left; by eauto|right..]; simpl; try apply own_apply.
  - destruct (is_doom e); [|apply own_apply]. destruct (_ && _); [|apply own_retry_sleep].
    constructor; [done|apply own_completion].
  - constructor; [done|apply own_completion].
Qed.
Lemma sends_on_outcome n t outcome : sends (on_outcome wants config policy n t outcome).1 = 0%nat.
Proof.
  destruct (own_on_outcome n t outcome) as [(r & m & ->)|Ho]; [|by apply sends_own].
  apply (sends_own (send_completion wants _)), own_completion.
Qed.
Lemma sends_step n t : sends (task_step wants config policy n t).1 = if cancelled_before n then 0%nat else 1%nat.
Proof.
  unfold task_step. destruct (cancelled_before n); [apply (sends_own (send_completion wants _)), own_completion|].
  destruct (run_one_attempt _ _ _ _ _ _) as [[events outcome] observed].
  set (t' := mkTask _ _ _ _ observed). pose proof (sends_on_outcome n t' outcome) as Ho.
  destruct (on_outcome _ _ _ _ _ _) as [actions next]. simpl in *.
  change (S (sends ((AEvent <$> events) ++ actions)) = 1%nat). by rewrite sends_app, sends_events, Ho.
Qed.
Lemma task_loop_sends fuel n t actions : task_loop wants config policy fuel n t = Some actions → (sends actions ≤ fuel)%nat.
Proof.
  revert n t actions. induction fuel as [|fuel IH]; intros n t actions; [done|]. simpl.
  pose proof (sends_step n t) as Hs. destruct (task_step _ _ _ n t) as [acts [t'|]]; simpl in Hs.
  - intros (more & Hm & ->)%fmap_Some. rewrite sends_app. apply IH in Hm. destruct (cancelled_before n); lia.
  - intros [= <-]. destruct (cancelled_before n); lia.
Qed.
End Task.

(** C12: A sampling request ends.  When the errors of the client are transport, decoding and
    provider errors, the task makes at most one attempt more than the retry budget and the
    doom-loop budget together, even if every attempt fails; it then emits exactly one terminal
    event, as its last event, and the caller that waits gets exactly one completion, which says
    the same: the accepted response, or the error that was shown. *)
Theorem request_task_settles `{ErrorEnv, Responses.WireEnv, SamplerWorld} (wants : bool) (config : SamplerConfig)
  (policy : RetryPolicy) (request : list ConversationItem) :
  honest_client → 0 ≤ task_max_retries config policy → 0 ≤ task_doom_retries config policy →
  let bound := (1 + Z.to_nat (task_max_retries config policy) + Z.to_nat (task_doom_retries config policy))%nat in
  ∃ actions, run_request_task wants config policy bound request = Some actions
             ∧ settled wants actions ∧ (sends actions ≤ bound)%nat.
Proof.
  intros Hh Hm Hd bound. unfold run_request_task. destruct (new_client config) as [err|].
  - exists (stop_retrying wants err err). split_and!; [done|by apply settled_verdict; constructor; left|].
    change (sends (send_completion wants (Err err)) ≤ bound)%nat. rewrite sends_own by apply own_completion. lia.
  - destruct (task_loop_ends wants config policy bound 0 (mkTask request config 0 0 false)) as [actions Ha]; [done| |].
    + unfold bound, budget, retries_left, strip_left, resamples_left. simpl.
      destruct (Z.eqb_spec (task_max_retries config policy) 0); simpl; [lia|]. destruct (0 <? _)%nat; lia.
    + exists actions. split_and!; [done|by eapply task_loop_settles|by eapply task_loop_sends].
Qed.
