(* ===== verification/SamplerView.v ===== *)
(** What the task of a sampling request accepts, when it sends again, what it promises its
    caller, and what a consumer of its events has on screen: for Chat Completions it is the
    response that the task accepts, also after attempts that were discarded. *)
From stdpp Require Import base list strings.
From S2P Require Import Prelude RustStr Json BreakerConfig Conversation SamplingErr SampleEvents SampleStream SamplerTask SamplerSafety SamplerEnd.
Open Scope Z_scope.

(** * Events of the transforms *)

(** An event that a transform may yield; [sig] says what its response may carry. *)
Definition produced (sig : list DoomLoopSignal → Prop) (e : SamplingEvent) : Prop :=
  match e with
  | Retrying _ _ _ _ _ _ | AttemptDiscarded => False
  | Completed r _ => sig (doom_loop_signals r)
  | _ => True
  end.

Section Produced.
Context `{ErrorEnv}.

Lemma l2_loop_Forall {A St} idle (step : St → Z → A → list SamplingEvent * Flow St) finish (P : SamplingEvent → Prop)
  now last_content s arrivals ends :
  (∀ s now a, Forall P (step s now a).1) → (∀ ended s now, Forall P (finish ended s now)) →
  (∀ e, P (Failed (info_of e))) →
  Forall P (l2_loop idle step finish now last_content s arrivals ends).1.1.
Proof.
  intros Hstep Hfin Herr. assert (Hidle : P (idle_failed idle)) by apply Herr. revert now last_content s.
  induction arrivals as [|[gap item] rest IH]; intros now last_content s; simpl.
  { destruct ends as [gap|]; [destruct (gap <=? idle)|]; simpl; auto. }
  destruct (idle <? gap); [by constructor|]. destruct item as [a|e]; [|by constructor].
  specialize (Hstep s (now + gap) a). destruct (step s (now + gap) a) as [events [s' c b|s']]; simpl in *; [|done].
  destruct (negb c && _); [apply Forall_app; auto|]. destruct b; [by apply Forall_app|].
  specialize (IH (now + gap) (if c then now + gap else last_content) s').
  destruct (l2_loop _ _ _ _ _ _ _ _) as [[more s''] err]. by apply Forall_app.
Qed.

Lemma l2_stream_Forall {A St} idle (step : St → Z → A → list SamplingEvent * Flow St) finish sig raw metadata init :
  (∀ s now a, Forall (produced sig) (step s now a).1) → (∀ ended s now, Forall (produced sig) (finish ended s now)) →
  Forall (produced sig) (l2_stream idle step finish raw metadata init).1.1.
Proof.
  intros Hs Hf. unfold l2_stream.
  pose proof (l2_loop_Forall idle step finish (produced sig) (started_at raw) (started_at raw) init (arrivals raw) (ends raw)
                Hs Hf (λ _, I)) as Hl.
  destruct (l2_loop _ _ _ _ _ _ _ _) as [[events s] err]. apply Forall_app. split; [|done].
  unfold opening. destruct metadata; by repeat constructor.
Qed.

Lemma token_produced sig f c t i : Forall (produced sig) (token f c t i).
Proof. unfold token. by destruct f; repeat constructor. Qed.

Lemma chat_calls_produced sig a calls : Forall (produced sig) (Chat.on_calls a calls).1.
Proof.
  revert a. induction calls as [|tc calls IH]; intros a; simpl; [done|].
  specialize (IH (Chat.on_call a tc).2). unfold Chat.on_call in *. simpl in *.
  destruct (Chat.on_calls _ calls) as [more a']. by constructor.
Qed.

Lemma chat_choice_produced sig now a c : Forall (produced sig) (Chat.on_choice now a c).1.1.
Proof.
  unfold Chat.on_choice, Chat.on_text.
  assert (Hr : ∀ b text, Forall (produced sig) (Chat.on_reasoning b text).1.1).
  { intros b text. unfold Chat.on_reasoning. destruct (non_empty text); [apply token_produced|done]. }
  destruct (non_empty _); simpl.
  all: match goal with |- context [Chat.on_reasoning ?b ?t] => specialize (Hr b t); destruct (Chat.on_reasoning b t) as [[thoughts a2] r] end.
  all: pose proof (chat_calls_produced sig a2 (Chat.d_tool_calls (Chat.ch_delta c))) as Hc; destruct (Chat.on_calls _ _) as [calls a3].
  all: cbn [fst]; rewrite ?Forall_app; auto using token_produced.
Qed.

Lemma chat_produced raw metadata idle : Forall (produced (λ l, l = [])) (Chat.stream_chat_completions raw metadata idle).1.
Proof.
  unfold Chat.stream_chat_completions.
  pose proof (l2_stream_Forall idle Chat.step Chat.finish (λ l, l = []) raw metadata (Chat.init (started_at raw))) as Hf.
  destruct (l2_stream _ _ _ _ _ _) as [[events s] err]. apply Hf; [|intros; by repeat constructor].
  intros s' now a. unfold Chat.step. generalize (Chat.note_chunk s' a).
  induction (Chat.ck_choices a) as [|c choices IH]; intros b; simpl; [done|].
  pose proof (chat_choice_produced (λ l, l = []) now b c) as Hc. destruct (Chat.on_choice now b c) as [[ev b'] x].
  specialize (IH b'). destruct (Chat.on_choices _ _ _) as [[more b''] y]. by apply Forall_app.
Qed.

Lemma messages_produced raw metadata idle : Forall (produced (λ l, l = [])) (Messages.stream_messages raw metadata idle).1.
Proof.
  unfold Messages.stream_messages.
  pose proof (l2_stream_Forall idle Messages.step Messages.finish (λ l, l = []) raw metadata (Messages.init (started_at raw))) as Hf.
  destruct (l2_stream _ _ _ _ _ _) as [[events s] err]. apply Hf.
  - intros s' now a. destruct a as [ | | |i b|i d|i| | ]; simpl; try by repeat constructor.
    + destruct b; simpl; unfold Messages.first_token; try destruct (Messages.first_token_emitted s'); by repeat constructor.
    + unfold Messages.on_delta. destruct (bt_get _ _) as [b|]; [|by constructor].
      destruct d; [destruct (is_nil text)| |destruct (is_nil thinking)|]; simpl; try apply token_produced; try by constructor.
      destruct (bt_get _ _); by repeat constructor.
    + unfold Messages.on_block_stop. destruct (bt_get _ _) as [b|]; [|by constructor].
      destruct (Messages.block_type b); simpl; try destruct (is_nil _); by repeat constructor.
  - intros ended s' now. unfold Messages.finish. case_bool_decide; by repeat constructor.
Qed.

Lemma responses_produced `{Responses.WireEnv} frames metadata idle doom observed :
  Forall (produced (λ _, True)) (Responses.stream_responses_tracked frames metadata idle doom observed).1.1.
Proof.
  unfold Responses.stream_responses_tracked. destruct (Responses.decode _ _ _ _) as [[items ends] last].
  match goal with |- context [l2_stream ?i ?s ?f ?r ?m ?x] => pose proof (l2_stream_Forall i s f (λ _, True) r m x) as Hf end.
  destruct (l2_stream _ _ _ _ _ _) as [[events a] err]. apply Hf.
  - intros s now [e c]. unfold Responses.step. destruct (_ ≫= abort_triggers); [by repeat constructor|].
    destruct e; simpl; unfold Responses.on_text, Responses.backend_done;
      repeat (case_match; simplify_eq; simpl); try apply token_produced; by repeat constructor.
  - intros ended a' now. unfold Responses.finish. destruct (Responses.final_response a'); by repeat constructor.
Qed.

(** * What [drive_l2] does *)

Definition acceptable (r : ConversationResponse) : Prop :=
  stop_reason r ≠ Some Length ∧ (stop_reason r = Some ContentFilter ∨ empty_reason (items r) = None).

Lemma judge_completed doom r m r' m' :
  judge_response doom r m = OCompleted r' m' →
  r' = r ∧ m' = m ∧ acceptable r ∧ ∀ p, doom = Some p → confident_triggers p (doom_loop_signals r) = [].
Proof.
  unfold judge_response, acceptable. intros Hj. destruct (is_nil _) eqn:Hn; [|done]. simpl in Hj.
  case_bool_decide; [done|]. assert (Hp : ∀ p, doom = Some p → confident_triggers p (doom_loop_signals r) = []).
  { intros p ->. by destruct (confident_triggers p _). }
  case_bool_decide; [|destruct (empty_reason (items r)) eqn:He; [done|]]; simplify_eq; split_and!; auto.
Qed.

Lemma drive_completed cancel captured doom observed l2 events r m o :
  drive_l2 cancel captured doom observed l2 = (events, OCompleted r m, o) →
  (∃ rest, l2 = events ++ Completed r m :: rest) ∧ acceptable r
  ∧ ∀ p, doom = Some p → confident_triggers p (doom_loop_signals r) = [].
Proof.
  revert cancel observed events. induction l2 as [|ev l2 IH]; intros cancel observed events; simpl.
  { by destruct cancel as [[|k]|]. }
  assert (Hgo : ∀ cancel' obs, (let '(sent, out, ob) := drive_l2 cancel' captured doom obs l2 in (ev :: sent, out, ob))
      = (events, OCompleted r m, o) →
    (∃ rest, ev :: l2 = events ++ Completed r m :: rest) ∧ acceptable r
    ∧ ∀ p, doom = Some p → confident_triggers p (doom_loop_signals r) = []).
  { intros cancel' obs. destruct (drive_l2 _ _ _ _ l2) as [[sent out] ob] eqn:Hd. intros [= <- -> ->].
    apply IH in Hd as [(rest & ->) Hrest]. split; [by eexists|done]. }
  destruct cancel as [[|k]|]; [done| |].
  all: destruct ev as [ | | | | | |r0 m0| | |info| | | ]; try (apply Hgo); try done; intros [= <- Hj <-].
  all: apply judge_completed in Hj as (-> & -> & Ha & Hp); split; [by eexists|by split].
Qed.

Lemma drive_produced sig cancel captured doom observed l2 :
  Forall (produced sig) l2 → Forall (produced sig) (drive_l2 cancel captured doom observed l2).1.1.
Proof.
  intros Hl. revert cancel observed. induction Hl as [|ev l2 Hev _ IH]; intros cancel observed; simpl.
  { by destruct cancel as [[|k]|]; constructor. }
  assert (Hgo : ∀ cancel' obs,
      Forall (produced sig) (let '(sent, out, ob) := drive_l2 cancel' captured doom obs l2 in (ev :: sent, out, ob)).1.1).
  { intros cancel' obs. specialize (IH cancel' obs). destruct (drive_l2 _ _ _ _ l2) as [[sent out] ob]. by constructor. }
  destruct cancel as [[|k]|]; [by constructor| |]; destruct ev; try (apply Hgo); by constructor.
Qed.

Lemma drive_observed cancel captured doom observed l2 events outcome o :
  drive_l2 cancel captured doom observed l2 = (events, outcome, o) → (observed || existsb is_output events = true → o = true).
Proof.
  revert cancel observed events. induction l2 as [|ev l2 IH]; intros cancel observed events; simpl.
  { destruct cancel as [[|k]|]; intros [= <- <- <-]; by rewrite orb_false_r. }
  assert (Hgo : ∀ cancel', (let '(sent, out, ob) := drive_l2 cancel' captured doom (observed || is_output ev) l2 in (ev :: sent, out, ob))
      = (events, outcome, o) → observed || existsb is_output events = true → o = true).
  { intros cancel'. destruct (drive_l2 _ _ _ _ l2) as [[sent out] ob] eqn:Hd. intros [= <- -> ->]. simpl.
    rewrite orb_assoc. by eapply IH. }
  destruct cancel as [[|k]|]; [intros [= <- <- <-]; by rewrite orb_false_r| |].
  all: destruct ev; try (apply Hgo); intros [= <- <- <-]; done || by rewrite orb_false_r.
Qed.
End Produced.

Section Task.
Context `{ErrorEnv, Responses.WireEnv, SamplerWorld}.

Definition flow_state {St} (f : Flow St) : St := match f with Next s _ _ | Return s => s end.

Lemma l2_loop_state {A St} idle (step : St → Z → A → list SamplingEvent * Flow St) finish (I : St → Prop)
  now last_content s arrivals ends :
  (∀ s now a, I s → I (flow_state (step s now a).2)) → I s →
  I (l2_loop idle step finish now last_content s arrivals ends).1.2.
Proof.
  intros Hstep. revert now last_content s. induction arrivals as [|[gap [a|e]] rest IH]; intros now lst s Hs; simpl.
  - destruct ends as [gap|]; [by destruct (gap <=? idle)|done].
  - destruct (idle <? gap); [done|]. apply (Hstep s (now + gap) a) in Hs.
    destruct (step s (now + gap) a) as [events [s' b k|s']]; simpl in Hs; [|done].
    destruct (negb b && _); [done|]. destruct k; [done|].
    specialize (IH (now + gap) (if b then now + gap else lst) s' Hs). by destruct (l2_loop _ _ _ _ _ _ rest _) as [[more s''] err].
  - by destruct (idle <? gap).
Qed.

Lemma responses_step_observed s now i :
  Responses.output_observed s = true → Responses.output_observed (flow_state (Responses.step s now i).2) = true.
Proof.
  intros Hs. unfold Responses.step.
  assert (Ho : Responses.output_observed (Responses.observe s i) = true) by (simpl; by rewrite Hs).
  revert Ho. generalize (Responses.observe s i). intros s1 Ho. destruct (_ ≫= abort_triggers); [done|].
  destruct (i.1); simpl; unfold Responses.on_text; repeat (case_match; simplify_eq; simpl); done.
Qed.

Lemma responses_keeps_observed frames m idle d observed :
  observed = true → (Responses.stream_responses_tracked frames m idle d observed).1.2 = true.
Proof.
  intros ->. unfold Responses.stream_responses_tracked. destruct (Responses.decode _ _ _ _) as [[items ends] last].
  unfold l2_stream. simpl.
  match goal with |- context [l2_loop ?a ?b ?c ?d ?e ?x ?f ?g] =>
    pose proof (l2_loop_state a b c (λ a, Responses.output_observed a = true) d e x f g responses_step_observed eq_refl) as Hobs;
    destruct (l2_loop a b c d e x f g) as [[ev s'] err] end. exact Hobs.
Qed.

(** An attempt opens a stream and drives what a transform makes of it. *)
Lemma attempt_cases n c r idle doom observed (P : list SamplingEvent * AttemptOutcome * bool → Prop) :
  (∀ e, P ([], OInitFailed e, observed)) →
  (∀ captured doom' observed' l2 sig, (observed = true → observed' = true) →
     (doom' = doom ∨ sig = (λ l, l = [])) → Forall (produced sig) l2 →
     P (drive_l2 (cancelled_during n) captured doom' observed' l2)) →
  P (run_one_attempt n c r idle doom observed).
Proof.
  intros Hinit Hdrive. pose proof responses_keeps_observed as Hr.
  unfold run_one_attempt. destruct (api_backend c).
  - destruct (conversation_stream n c r) as [[raw m]|e]; [|apply Hinit].
    pose proof (chat_produced raw m idle) as Hp. destruct (Chat.stream_chat_completions raw m idle).
    apply (Hdrive _ _ _ _ (λ l, l = [])); auto.
  - destruct (conversation_stream_responses n c r) as [[[frames m] d]|e]; [|apply Hinit]. simpl.
    set (d' := match doom with None => _ | Some _ => _ end). specialize (Hr frames m idle d' observed).
    pose proof (responses_produced frames m idle d' observed) as Hp.
    destruct (Responses.stream_responses_tracked _ _ _ _ _) as [[l2 obs] captured]. apply (Hdrive _ _ _ _ (λ _, True)); auto.
  - destruct (conversation_stream_responses n c r) as [[[frames m] d]|e]; [|apply Hinit]. simpl.
    set (d' := match doom with None => _ | Some _ => _ end). specialize (Hr frames m idle d' observed).
    pose proof (responses_produced frames m idle d' observed) as Hp.
    destruct (Responses.stream_responses_tracked _ _ _ _ _) as [[l2 obs] captured]. apply (Hdrive _ _ _ _ (λ _, True)); auto.
  - destruct (conversation_stream_messages n c r) as [[raw m]|e]; [|apply Hinit].
    pose proof (messages_produced raw m idle) as Hp. destruct (Messages.stream_messages raw m idle).
    apply (Hdrive _ _ _ _ (λ l, l = [])); auto.
Qed.

Lemma attempt_completed n c r idle doom observed events resp m o :
  run_one_attempt n c r idle doom observed = (events, OCompleted resp m, o) →
  acceptable resp ∧ ∀ p, doom = Some p → confident_triggers p (doom_loop_signals resp) = [].
Proof.
  pose proof (attempt_cases n c r idle doom observed (λ x, match x.1.2 with
    | OCompleted resp m => acceptable resp ∧ ∀ p, doom = Some p → confident_triggers p (doom_loop_signals resp) = []
    | _ => True end)) as Hc.
  intros Hr. rewrite Hr in Hc. apply Hc; [done|]. clear Hc Hr. intros captured doom' observed' l2 sig _ Hor Hp.
  destruct (drive_l2 _ _ _ _ _) as [[ev out] ob] eqn:Hd. destruct out as [r' m'| | | |]; try done. simpl.
  apply drive_completed in Hd as ((rest & ->) & Ha & Hd). split; [done|].
  destruct Hor as [-> | ->]; [done|]. intros p _.
  apply Forall_app in Hp as [_ [Hp _]%Forall_cons]. simpl in Hp. by rewrite Hp.
Qed.

Lemma attempt_produced n c r idle doom observed :
  Forall (produced (λ _, True)) (run_one_attempt n c r idle doom observed).1.1.
Proof.
  apply (attempt_cases _ _ _ _ _ _ (λ x, Forall (produced (λ _, True)) x.1.1)); [by constructor|].
  intros captured doom' observed' l2 sig _ _ Hp. apply drive_produced.
  eapply Forall_impl; [exact Hp|]. by intros [].
Qed.

Lemma attempt_observed n c r idle doom observed :
  observed || existsb is_output (run_one_attempt n c r idle doom observed).1.1 = true →
  (run_one_attempt n c r idle doom observed).2 = true.
Proof.
  apply (attempt_cases _ _ _ _ _ _ (λ x, observed || existsb is_output x.1.1 = true → x.2 = true)).
  { intros e. by rewrite orb_false_r. }
  intros captured doom' observed' l2 sig Ho _ _. destruct (drive_l2 _ _ _ _ _) as [[ev out] ob] eqn:Hd. simpl.
  intros Hx. eapply drive_observed; [exact Hd|]. destruct observed; [by rewrite Ho|]. simpl in Hx. rewrite Hx. apply orb_true_r.
Qed.

(** * Resamples *)

Definition is_resample (a : Action) : bool :=
  match a with AEvent (Retrying _ _ KDoomLoop _ _ _) => true | _ => false end.
Definition resamples (actions : list Action) : nat := length (List.filter is_resample actions).
Lemma resamples_app a b : resamples (a ++ b) = (resamples a + resamples b)%nat.
Proof. unfold resamples. by rewrite List.filter_app, length_app. Qed.

Context (wants : bool) (config : SamplerConfig) (policy : RetryPolicy).

Lemma resamples_retrying attempt mx e : resamples (emit_retrying attempt mx e) = if is_doom e then 1%nat else 0%nat.
Proof. destruct e; try done. unfold emit_retrying. simpl. by destruct (status =? 429). Qed.

Lemma resamples_events events : Forall (produced (λ _, True)) events → resamples (AEvent <$> events) = 0%nat.
Proof. induction 1 as [|e events He _ IH]; [done|]. destruct e; done. Qed.

Lemma resamples_retry_sleep attempt mx e n backoff t acts t' :
  (let '(actions, t) := sleep_or_cancel wants n backoff t in (emit_retrying attempt mx e ++ actions, t)) = (acts, Some t') →
  resamples acts = if is_doom e then 1%nat else 0%nat.
Proof.
  unfold sleep_or_cancel. destruct (cancelled_asleep n); [done|]. intros [= <- _].
  change (resamples (emit_retrying attempt mx e ++ [ASleep backoff]) = if is_doom e then 1%nat else 0%nat).
  rewrite resamples_app, resamples_retrying. simpl. by destruct (is_doom e).
Qed.

Lemma resamples_apply n err mx t acts t' :
  is_doom err = false → apply_retry_decision wants config policy n err mx t = (acts, Some t') → resamples acts = 0%nat.
Proof.
  intros Hd. unfold apply_retry_decision.
  destruct (classify_error _ _ _ _ _) as [b|b| |b|e|e]; try done.
  3: { destruct (strip_images _) as [request stripped]. destruct (stripped =? 0)%nat; [done|]. intros [= <- _].
       rewrite resamples_retrying. by rewrite Hd. }
  all: intros Hs; apply resamples_retry_sleep in Hs; by rewrite Hd in Hs.
Qed.

Lemma resamples_on_outcome n t outcome acts t' :
  doom_only_if True outcome → on_outcome wants config policy n t outcome = (acts, Some t') →
  Z.of_nat (resamples acts) = t_doom_retry_count t' - t_doom_retry_count t.
Proof.
  intros Ho.
  assert (Happly : ∀ err mx, is_doom err = false → apply_retry_decision wants config policy n err mx t = (acts, Some t') →
     Z.of_nat (resamples acts) = t_doom_retry_count t' - t_doom_retry_count t).
  { intros err mx He Ha. rewrite (resamples_apply _ _ _ _ _ _ He Ha).
    apply apply_next in Ha as (_ & -> & _); [lia|done]. }
  destruct outcome as [r m|c|e| |e]; simpl; try done; [by apply Happly| |by apply Happly].
  destruct (is_doom e) eqn:He; [|by apply Happly]. destruct (_ && _); [done|]. intros Hs.
  rewrite (resamples_retry_sleep _ _ _ _ _ _ _ _ Hs), He. destruct (sleep_or_cancel _ _ _ _) as [a x] eqn:Hsl.
  injection Hs as _ ->. apply sleep_next in Hsl as ->. simpl. lia.
Qed.
End Task.

Section Task.
Context `{ErrorEnv, Responses.WireEnv, SamplerWorld} (wants : bool) (config : SamplerConfig) (policy : RetryPolicy).
Notation task_doom := (task_doom_retries config policy).

(** * One pass through the loop *)

(** Where a pass that has an attempt stands: the events that the attempt forwarded, its
    outcome, and the task with what was observed. *)
Lemma step_attempt n t acts next :
  task_step wants config policy n t = (acts, next) →
  (cancelled_before n = true ∧ acts = handle_cancellation wants ∧ next = None)
  ∨ ∃ doom events outcome observed own_acts,
      run_one_attempt n (t_client t) (t_request t) (idle_timeout config) doom (t_observed t) = (events, outcome, observed)
      ∧ doom = (if t_doom_retry_count t <? task_doom then doom_policy config policy else None)
      ∧ on_outcome wants config policy n
          (mkTask (t_request t) (t_client t) (t_retry_count t) (t_doom_retry_count t) observed) outcome = (own_acts, next)
      ∧ acts = ASend (t_client t) (t_request t) :: (AEvent <$> events) ++ own_acts.
Proof.
  unfold task_step. destruct (cancelled_before n); [intros [= <- <-]; by left|].
  destruct (run_one_attempt _ _ _ _ _ _) as [[events outcome] observed] eqn:Hr.
  destruct (on_outcome _ _ _ _ _ _) as [own_acts next'] eqn:Ho. intros [= <- <-]. right.
  eexists _, events, outcome, observed, own_acts. by split_and!.
Qed.

Definition is_completed (a : Action) : bool := match a with AEvent (Completed _ _) => true | _ => false end.
Lemma own_not_completed actions r m : Forall own actions → AEvent (Completed r m) ∈ actions → False.
Proof. rewrite Forall_forall. intros Ho Hin. by apply Ho in Hin. Qed.
Lemma events_not_completed n c q idle doom observed r m :
  AEvent (Completed r m) ∈ AEvent <$> (run_one_attempt n c q idle doom observed).1.1 → False.
Proof.
  intros (e & [= <-] & Hin)%list_elem_of_fmap. pose proof (attempt_quiet n c q idle doom observed) as Hq.
  unfold quiet in Hq. rewrite Forall_forall in Hq. by apply Hq in Hin.
Qed.

Lemma step_completed n t acts next r m :
  task_step wants config policy n t = (acts, next) → AEvent (Completed r m) ∈ acts →
  ∃ doom events m0 observed,
    run_one_attempt n (t_client t) (t_request t) (idle_timeout config) doom (t_observed t) = (events, OCompleted r m0, observed)
    ∧ doom = (if t_doom_retry_count t <? task_doom then doom_policy config policy else None)
    ∧ m = with_attempts (t_retry_count t + t_doom_retry_count t + 1) m0
    ∧ next = None
    ∧ acts = ASend (t_client t) (t_request t) :: (AEvent <$> events) ++ AEvent (Completed r m) :: send_completion wants (Ok (r, m)).
Proof.
  intros Hs Hin. apply step_attempt in Hs as [(_ & -> & ->)|(doom & events & outcome & observed & own_acts & Hr & Hd & Ho & ->)].
  { exfalso. eapply (own_not_completed _ _ _ _ Hin). Unshelve. constructor; [done|apply own_completion]. }
  apply elem_of_cons in Hin as [?|Hin]; [done|]. apply elem_of_app in Hin as [Hin|Hin].
  { exfalso. eapply (events_not_completed n (t_client t) (t_request t) (idle_timeout config) doom (t_observed t)). by rewrite Hr. }
  set (t1 := mkTask _ _ _ _ observed) in Ho.
  destruct (own_on_outcome wants config policy n t1 outcome) as [(r0 & m0 & ->)|Hown].
  2: { exfalso. rewrite Ho in Hown. by eapply own_not_completed. }
  simpl in Ho. injection Ho as <- <-. apply elem_of_cons in Hin as [[= -> ->]|Hin].
  - eexists doom, events, m0, observed. by split_and!.
  - exfalso. eapply own_not_completed; [apply own_completion|exact Hin].
Qed.

Lemma step_next_facts n t acts t' :
  honest_client → task_step wants config policy n t = (acts, Some t') →
  sends acts = 1%nat
  ∧ Z.of_nat (resamples acts) = t_doom_retry_count t' - t_doom_retry_count t
  ∧ t_retry_count t' + t_doom_retry_count t' = t_retry_count t + t_doom_retry_count t + 1
  ∧ (t_doom_retry_count t ≤ task_doom → t_doom_retry_count t' ≤ task_doom).
Proof.
  intros Hh Hs. pose proof (sends_step wants config policy n t) as Hsend. rewrite Hs in Hsend. simpl in Hsend.
  pose proof (attempt_produced n (t_client t) (t_request t) (idle_timeout config)
    (if t_doom_retry_count t <? task_doom then doom_policy config policy else None) (t_observed t)) as Hp.
  apply step_attempt in Hs as [(_ & _ & ?)|(doom & events & outcome & observed & own_acts & Hr & -> & Ho & ->)]; [done|].
  rewrite Hr in Hp. simpl in Hp. pose proof Hr as Hdoom. apply attempt_doom_only_if in Hdoom; [|done].
  set (t1 := mkTask _ _ _ _ observed) in Ho.
  assert (Hdo : doom_only_if (armed config policy t1) outcome).
  { destruct outcome; simpl in *; try done. intros He. apply Hdoom in He. unfold armed. simpl.
    destruct (Z.ltb_spec (t_doom_retry_count t) task_doom); [done|by destruct He]. }
  assert (Hdt : doom_only_if True outcome) by (by destruct outcome).
  pose proof (resamples_on_outcome _ _ _ _ _ _ _ _ Hdt Ho) as Hres.
  apply (on_outcome_next _ _ _ _ _ _ _ _ Hdo) in Ho as [_ Ho].
  split_and!.
  - destruct (cancelled_before n); [done|exact Hsend].
  - change (Z.of_nat (resamples ((AEvent <$> events) ++ own_acts)) = t_doom_retry_count t' - t_doom_retry_count t).
    by rewrite resamples_app, resamples_events.
  - destruct Ho as [(mx & _ & -> & -> & _)|[_ ->]]; simpl; lia.
  - destruct Ho as [(mx & _ & _ & -> & _)|[Ha ->]]; simpl; [done|]. unfold armed in Ha. simpl in Ha. lia.
Qed.

Lemma calm_not_completed actions r m : Forall calm actions → AEvent (Completed r m) ∈ actions → False.
Proof. rewrite Forall_forall. intros Ho Hin. by apply Ho in Hin. Qed.

Lemma resamples_accepting client request events r m :
  Forall (produced (λ _, True)) events →
  resamples (ASend client request :: (AEvent <$> events) ++ AEvent (Completed r m) :: send_completion wants (Ok (r, m))) = 0%nat.
Proof.
  intros Hp. change (resamples ((AEvent <$> events) ++ [AEvent (Completed r m)] ++ send_completion wants (Ok (r, m))) = 0%nat).
  rewrite !resamples_app, resamples_events by done. unfold send_completion. by destruct wants.
Qed.

Lemma task_loop_accepts fuel n t actions r m :
  honest_client → t_doom_retry_count t ≤ task_doom →
  task_loop wants config policy fuel n t = Some actions → AEvent (Completed r m) ∈ actions →
  acceptable r ∧ attempts m = t_retry_count t + t_doom_retry_count t + Z.of_nat (sends actions)
  ∧ (∀ p, doom_policy config policy = Some p → confident_triggers p (doom_loop_signals r) ≠ [] →
       t_doom_retry_count t + Z.of_nat (resamples actions) = task_doom).
Proof.
  intros Hh. revert n t actions. induction fuel as [|fuel IH]; intros n t actions Hle; [done|]. simpl.
  pose proof (task_step_settles wants config policy n t) as Hset.
  destruct (task_step wants config policy n t) as [acts [t'|]] eqn:Hs.
  - intros (more & Hm & ->)%fmap_Some Hin. apply elem_of_app in Hin as [Hin|Hin].
    { exfalso. by eapply (calm_not_completed acts). }
    apply step_next_facts in Hs as (Hsend & Hres & Hsum & Hd); [|done].
    apply (IH _ _ _ (Hd Hle) Hm) in Hin as (Ha & Hatt & Hdoom). split_and!; [done| |].
    + rewrite sends_app, Hsend. lia.
    + intros p Hp Hne. rewrite resamples_app. specialize (Hdoom p Hp Hne). lia.
  - intros [= <-] Hin. pose proof (sends_step wants config policy n t) as Hsend. rewrite Hs in Hsend. simpl in Hsend.
    eapply step_completed in Hs as (doom & events & m0 & observed & Hr & -> & -> & _ & Hacts); [|exact Hin].
    pose proof (attempt_produced n (t_client t) (t_request t) (idle_timeout config)
      (if t_doom_retry_count t <? task_doom then doom_policy config policy else None) (t_observed t)) as Hp.
    rewrite Hr in Hp. apply attempt_completed in Hr as [Ha Hconf]. split_and!; [done| |].
    + destruct (cancelled_before n); [|rewrite Hsend; simpl; lia]. by rewrite Hacts in Hsend.
    + intros p Hpol Hne. destruct (Z.ltb_spec (t_doom_retry_count t) task_doom); [by apply Hconf in Hpol|].
      rewrite Hacts, resamples_accepting by done. lia.
Qed.

(** * No second request after output *)

Definition output_action (a : Action) : bool := match a with AEvent e => is_output e | _ => false end.
Definition plain (a : Action) : Prop := output_action a = false.

Lemma own_plain actions : Forall own actions → Forall plain actions.
Proof. intros Ho. eapply Forall_impl; [exact Ho|]. by intros [|[]| |]. Qed.

Lemma step_next_task n t acts t' :
  honest_client → task_step wants config policy n t = (acts, Some t') →
  ∃ doom events outcome observed own_acts,
    run_one_attempt n (t_client t) (t_request t) (idle_timeout config) doom (t_observed t) = (events, outcome, observed)
    ∧ acts = ASend (t_client t) (t_request t) :: (AEvent <$> events) ++ own_acts
    ∧ Forall own own_acts
    ∧ on_outcome wants config policy n
        (mkTask (t_request t) (t_client t) (t_retry_count t) (t_doom_retry_count t) observed) outcome = (own_acts, Some t')
    ∧ (retry_only_before_output policy = true → observed = false)
    ∧ (t_client t' = t_client t ∨ t_client t' = rebuilt config (t_client t)).
Proof.
  intros Hh Hs.
  apply step_attempt in Hs as [(_ & _ & ?)|(doom & events & outcome & observed & own_acts & Hr & -> & Ho & ->)]; [done|].
  eexists _, events, outcome, observed, own_acts. split_and!; [done|done| |done|..].
  all: set (t1 := mkTask _ _ _ _ observed) in Ho.
  { destruct (own_on_outcome wants config policy n t1 outcome) as [(r & m & ->)|Hown]; [done|]. by rewrite Ho in Hown. }
  all: assert (Hdo : doom_only_if (armed config policy t1) outcome) by
    (apply attempt_doom_only_if in Hr; [|done]; destruct outcome; simpl in *; try done; intros He; apply Hr in He;
     unfold armed; simpl; destruct (Z.ltb_spec (t_doom_retry_count t) task_doom); [done|by destruct He]).
  all: destruct (on_outcome_next _ _ _ _ _ _ _ _ Hdo Ho) as [Hobs Hor].
  - exact Hobs.
  - destruct Hor as [(mx & _ & _ & _ & _ & _ & _ & Hc & _)|[_ ->]]; [exact Hc|by left].
Qed.

Lemma task_loop_no_resend fuel n t actions pre e post :
  honest_client → retry_only_before_output policy = true →
  task_loop wants config policy fuel n t = Some actions → actions = pre ++ AEvent e :: post → is_output e = true →
  sends post = 0%nat.
Proof.
  intros Hh Hpol. revert n t actions pre. induction fuel as [|fuel IH]; intros n t actions pre; [done|]. simpl.
  pose proof (sends_step wants config policy n t) as Hsend.
  destruct (task_step wants config policy n t) as [acts [t'|]] eqn:Hs.
  - intros (more & Hm & ->)%fmap_Some Heq He.
    assert (Hplain : Forall plain acts).
    { apply step_next_task in Hs as (doom & events & outcome & observed & own_acts & Hr & -> & Hown & _ & Hobs & _); [|done].
      constructor; [done|]. apply Forall_app. split; [|by apply own_plain]. apply Forall_fmap.
      pose proof (attempt_observed n (t_client t) (t_request t) (idle_timeout config) doom (t_observed t)) as Ho.
      rewrite Hr in Ho. simpl in Ho. rewrite (Hobs Hpol) in Ho. apply Forall_forall. intros x Hx. apply not_true_is_false.
      intros Hxo. assert (existsb is_output events = true) as Hex by (apply existsb_elem; eauto).
      rewrite Hex, orb_true_r in Ho. by specialize (Ho eq_refl). }
    apply app_eq_inv in Heq as [(k & -> & Hk)|(k & -> & Hk)].
    + destruct k as [|a k]; simpl in Hk; [by eapply (IH _ _ more [])|].
      injection Hk as <- ->. apply Forall_app in Hplain as [_ [Hx _]%Forall_cons]. unfold plain in Hx. simpl in Hx. congruence.
    + by eapply IH.
  - intros [= ->] -> He. apply step_attempt in Hs as [(_ & Heq & _)|(? & events & ? & ? & own_acts & _ & _ & _ & Heq)].
    + exfalso. assert (Hown : Forall own (handle_cancellation wants)) by (constructor; [done|apply own_completion]).
      rewrite <- Heq in Hown. apply own_plain, Forall_app in Hown as [_ [Hx _]%Forall_cons]. unfold plain in Hx. simpl in Hx. congruence.
    + destruct pre as [|a pre]; [done|]. injection Heq as -> Heq. simpl in Hsend.
      change (sends ([ASend (t_client t) (t_request t)] ++ pre ++ [AEvent e] ++ post) = if cancelled_before n then 0%nat else 1%nat) in Hsend.
      rewrite !sends_app in Hsend. change (sends [ASend _ _]) with 1%nat in Hsend. destruct (cancelled_before n); lia.
Qed.
End Task.

(** * The consumer *)

Record View := mkView { v_text : str; v_reasoning : str; v_calls : list (N * (str * str * str)) }.
Definition blank : View := mkView [] [] [].

(** Text and thoughts are appended, fragments of tool calls are collected by index, and a
    discarded attempt is dropped, as [SamplingEvent::AttemptDiscarded] asks. *)
Definition see (v : View) (e : SamplingEvent) : View :=
  match e with
  | ChannelToken ChText text _ => mkView (v_text v ++ text) (v_reasoning v) (v_calls v)
  | ChannelToken ChReasoning text _ => mkView (v_text v) (v_reasoning v ++ text) (v_calls v)
  | ToolCallDelta i id name arguments =>
      mkView (v_text v) (v_reasoning v) (bt_update i (Chat.fill_entry id name arguments) (v_calls v))
  | AttemptDiscarded => blank
  | _ => v
  end.
Definition see_all (v : View) (events : list SamplingEvent) : View := foldl see v events.
Definition see_action (v : View) (a : Action) : View := match a with AEvent e => see v e | _ => v end.
Definition watch (v : View) (actions : list Action) : View := foldl see_action v actions.

Lemma watch_app v a b : watch v (a ++ b) = watch (watch v a) b.
Proof. apply foldl_app. Qed.
Lemma watch_events v events : watch v (AEvent <$> events) = see_all v events.
Proof. revert v. induction events as [|e events IH]; intros v; [done|]. apply IH. Qed.
Lemma see_token v f c t i :
  see_all v (token f c t i)
  = match c with
    | ChText => mkView (v_text v ++ t) (v_reasoning v) (v_calls v)
    | ChReasoning => mkView (v_text v) (v_reasoning v ++ t) (v_calls v)
    end.
Proof. unfold token. by destruct f, c. Qed.

(** * The Chat Completions transform *)

Definition shows (a : Chat.Acc) (v : View) : Prop :=
  v = mkView (Chat.content_acc a) (Chat.reasoning_acc a) (Chat.tool_call_acc a)
  ∧ (Chat.first_choice_seen a = false → v = blank).

Lemma on_text_shows now a v text :
  shows a v → Chat.first_choice_seen a = true →
  let '(events, a', _) := Chat.on_text now a text in shows a' (see_all v events) ∧ Chat.first_choice_seen a' = true.
Proof.
  intros [-> _] Hf. unfold Chat.on_text. destruct (non_empty text) as [s|]; [|split; [split; [done|congruence]|done]].
  rewrite see_token. split; [split; [done|simpl; congruence]|done].
Qed.
Lemma on_reasoning_shows a v text :
  shows a v → Chat.first_choice_seen a = true →
  let '(events, a', _) := Chat.on_reasoning a text in shows a' (see_all v events) ∧ Chat.first_choice_seen a' = true.
Proof.
  intros [-> _] Hf. unfold Chat.on_reasoning. destruct (non_empty text) as [s|]; [|split; [split; [done|congruence]|done]].
  rewrite see_token. split; [split; [done|simpl; congruence]|done].
Qed.
Lemma on_calls_shows a v calls :
  shows a v → Chat.first_choice_seen a = true →
  let '(events, a') := Chat.on_calls a calls in shows a' (see_all v events) ∧ Chat.first_choice_seen a' = true.
Proof.
  revert a v. induction calls as [|tc calls IH]; intros a v Hs Hf; [done|]. simpl.
  match goal with |- context [Chat.on_calls ?b calls] => set (a1 := b) end.
  specialize (IH a1 (see v (ToolCallDelta (Chat.tc_index tc) (Chat.tc_id tc) (Chat.tc_function tc ≫= Chat.fn_name)
                              (Chat.tc_function tc ≫= Chat.fn_arguments)))).
  destruct (Chat.on_calls a1 calls) as [more a']. apply IH; [|done].
  destruct Hs as [-> _]. split; [done|simpl; congruence].
Qed.

Lemma see_all_app v a b : see_all v (a ++ b) = see_all (see_all v a) b.
Proof. apply foldl_app. Qed.

Lemma on_choice_shows now a v c :
  shows a v → let '(events, a', _) := Chat.on_choice now a c in shows a' (see_all v events).
Proof.
  intros Hs. unfold Chat.on_choice. assert (Hs1 : shows (Chat.note_choice a (Chat.ch_finish_reason c)) v).
  { destruct Hs as [-> _]. by split. }
  pose proof (on_text_shows now _ v (Chat.d_content (Chat.ch_delta c)) Hs1 eq_refl) as Ht.
  destruct (Chat.on_text _ _ _) as [[texts a1] x]. destruct Ht as [Ht Hf1].
  pose proof (on_reasoning_shows a1 _ (Chat.d_reasoning (Chat.ch_delta c)) Ht Hf1) as Hr.
  destruct (Chat.on_reasoning _ _) as [[thoughts a2] y]. destruct Hr as [Hr Hf2].
  pose proof (on_calls_shows a2 _ (Chat.d_tool_calls (Chat.ch_delta c)) Hr Hf2) as Hc.
  destruct (Chat.on_calls _ _) as [calls a3]. rewrite !see_all_app. by destruct Hc.
Qed.

Lemma on_choices_shows now a v choices :
  shows a v → let '(events, a', _) := Chat.on_choices now a choices in shows a' (see_all v events).
Proof.
  revert a v. induction choices as [|c choices IH]; intros a v Hs; [done|]. simpl.
  pose proof (on_choice_shows now a v c Hs) as Hc. destruct (Chat.on_choice now a c) as [[events a1] x].
  specialize (IH a1 _ Hc). destruct (Chat.on_choices now a1 choices) as [[more a2] y]. by rewrite see_all_app.
Qed.

Lemma chat_step_shows a v now c :
  shows a v → let '(events, flow) := Chat.step a now c in shows (flow_state flow) (see_all v events).
Proof.
  intros Hs. unfold Chat.step. assert (Hs1 : shows (Chat.note_chunk a c) v).
  { destruct Hs as [-> Hb]. unfold Chat.note_chunk. destruct (Chat.ck_usage c); by split. }
  pose proof (on_choices_shows now _ v (Chat.ck_choices c) Hs1) as Hc.
  by destruct (Chat.on_choices _ _ _) as [[events a'] b].
Qed.

(** The response of a view. *)
Definition response_shows (r : ConversationResponse) (v : View) : Prop :=
  ∃ a, Conversation.assistant (items r) = Some a
       ∧ assistant_content a = v_text v
       ∧ tool_calls a = (λ e : N * (str * str * str), mkCall e.2.1.1 e.2.1.2 e.2.2) <$> v_calls v
       ∧ reasoning_items (items r) = if is_nil (v_reasoning v) then [] else [synthesized_reasoning_item (v_reasoning v)].

Lemma response_of_shows a v : shows a v → response_shows (Chat.response_of a) v.
Proof.
  intros [-> Hb]. unfold response_shows, Chat.response_of, Chat.items_of_acc. simpl.
  destruct (Chat.first_choice_seen a).
  - eexists. unfold Conversation.assistant, reasoning_items. rewrite rev_app_distr. simpl. split_and!; try done.
    + unfold Chat.calls_of_acc. apply list_fmap_ext. by intros _ [i [[id name] args]] _.
    + destruct (is_nil (Chat.reasoning_acc a)); done.
  - injection (Hb eq_refl) as -> -> ->. by eexists.
Qed.

Section Loop.
Context `{ErrorEnv}.

Lemma chat_loop_shows idle now last_content a v arrivals ends pre r m rest :
  shows a v →
  (l2_loop idle Chat.step Chat.finish now last_content a arrivals ends).1.1 = pre ++ Completed r m :: rest →
  response_shows r (see_all v pre).
Proof.
  revert now last_content a v pre. induction arrivals as [|[gap [c|e]] arrivals IH]; intros now lst a v pre Hs; simpl.
  { assert (Hidle : [idle_failed idle] = pre ++ Completed r m :: rest → response_shows r (see_all v pre)).
    { destruct pre as [|? [|]]; simpl; intros [=]. }
    destruct ends as [gap|]; [destruct (gap <=? idle)|]; try exact Hidle. simpl.
    destruct pre as [|? [|]]; simpl; intros [=]. subst r. by apply response_of_shows. }
  { destruct (idle <? gap); [destruct pre as [|? [|]]; simpl; intros [=]|].
    pose proof (chat_step_shows a v (now + gap) c Hs) as Hstep. pose proof (on_choices_quiet (now + gap) (Chat.note_chunk a c) (Chat.ck_choices c)) as Hq.
    unfold Chat.step in *. destruct (Chat.on_choices _ _ _) as [[events a'] b]. simpl in Hstep, Hq.
    assert (Hskip : ∀ tail, events ++ tail = pre ++ Completed r m :: rest → ∃ k, pre = events ++ k ∧ tail = k ++ Completed r m :: rest).
    { intros tail Heq. apply app_eq_inv in Heq as [(k & -> & Hk)|(k & -> & Hk)]; [|by eexists].
      destruct k as [|x k]; simpl in Hk; [exists []; by rewrite !app_nil_r|]. injection Hk as <- _. exfalso.
      apply Forall_app in Hq as [_ [Hx _]%Forall_cons]. done. }
    destruct (negb b && _).
    - intros (k & -> & Hk)%Hskip. destruct k as [|? [|]]; simpl in Hk; by simplify_eq.
    - specialize (IH (now + gap) (if b then now + gap else lst) a').
      destruct (l2_loop _ _ _ _ _ _ _ _) as [[more s] err]. intros (k & -> & Hk)%Hskip. rewrite see_all_app. by apply IH. }
  destruct (idle <? gap); destruct pre as [|? [|]]; simpl; intros [=].
Qed.

Lemma chat_stream_shows raw metadata idle pre r m rest :
  (Chat.stream_chat_completions raw metadata idle).1 = pre ++ Completed r m :: rest → response_shows r (see_all blank pre).
Proof.
  unfold Chat.stream_chat_completions, l2_stream.
  pose proof (chat_loop_shows idle (started_at raw) (started_at raw) (Chat.init (started_at raw)) blank (arrivals raw) (ends raw)) as Hl.
  destruct (l2_loop _ _ _ _ _ _ _ _) as [[events s] err]. simpl. unfold opening.
  assert (Hblank : shows (Chat.init (started_at raw)) blank) by done.
  destruct metadata; simpl.
  - destruct pre as [|x [|y pre]]; simpl; intros [=]; subst. exact (Hl pre r m rest Hblank eq_refl).
  - destruct pre as [|x pre]; simpl; intros [=]; subst. exact (Hl pre r m rest Hblank eq_refl).
Qed.
End Loop.

Section Task.
Context `{ErrorEnv, Responses.WireEnv, SamplerWorld} (wants : bool) (config : SamplerConfig) (policy : RetryPolicy).

Lemma retrying_blanks v attempt mx e rest : watch v (emit_retrying attempt mx e ++ rest) = watch blank rest.
Proof. done. Qed.

Lemma sleep_keeps_blank n backoff t attempt mx e v acts t' :
  (let '(actions, t) := sleep_or_cancel wants n backoff t in (emit_retrying attempt mx e ++ actions, t)) = (acts, Some t') →
  watch v acts = blank.
Proof. unfold sleep_or_cancel. destruct (cancelled_asleep n); intros [= <- _]. done. Qed.

Lemma on_outcome_blanks n t outcome acts t' v :
  on_outcome wants config policy n t outcome = (acts, Some t') → watch v acts = blank.
Proof.
  assert (Happly : ∀ err mx, apply_retry_decision wants config policy n err mx t = (acts, Some t') → watch v acts = blank).
  { intros err mx. unfold apply_retry_decision. destruct (classify_error _ _ _ _ _) as [b|b| |b|e|e]; try done;
      try apply sleep_keeps_blank. destruct (strip_images _) as [request stripped].
    destruct (stripped =? 0)%nat; [done|]. by intros [= <- _]. }
  destruct outcome as [r m|c|e| |e]; simpl; try done; try apply Happly.
  destruct (is_doom e); [|apply Happly]. destruct (_ && _); [done|apply sleep_keeps_blank].
Qed.

Lemma attempt_shows n c q idle doom observed events r m o :
  api_backend c = ChatCompletions → run_one_attempt n c q idle doom observed = (events, OCompleted r m, o) →
  response_shows r (see_all blank events).
Proof.
  intros Hc. unfold run_one_attempt. rewrite Hc. destruct (conversation_stream n c q) as [[raw md]|e]; [|done].
  pose proof (chat_stream_shows raw md idle events r m) as Hs.
  destruct (Chat.stream_chat_completions raw md idle) as [l2 captured]. intros Hd.
  apply drive_completed in Hd as ((rest & Heq) & _). by apply (Hs rest).
Qed.

Lemma watch_completion v r : watch v (send_completion wants r) = v.
Proof. unfold send_completion. by destruct wants. Qed.

Lemma task_loop_shows fuel n t actions r m :
  honest_client → api_backend config = ChatCompletions → api_backend (t_client t) = ChatCompletions →
  task_loop wants config policy fuel n t = Some actions → AEvent (Completed r m) ∈ actions →
  response_shows r (watch blank actions).
Proof.
  intros Hh Hb. revert n t actions. induction fuel as [|fuel IH]; intros n t actions Hc; [done|]. simpl.
  pose proof (task_step_settles wants config policy n t) as Hset.
  destruct (task_step wants config policy n t) as [acts [t'|]] eqn:Hs.
  - intros (more & Hm & ->)%fmap_Some Hin. apply elem_of_app in Hin as [Hin|Hin].
    { exfalso. by eapply (calm_not_completed acts). }
    apply step_next_task in Hs as (doom & events & outcome & observed & own_acts & _ & -> & _ & Ho & _ & Hcl); [|done].
    rewrite watch_app. change (watch blank (ASend _ _ :: ?x)) with (watch blank x). simpl. rewrite watch_app.
    rewrite (on_outcome_blanks _ _ _ _ _ _ Ho). eapply IH; [|exact Hm|exact Hin].
    destruct Hcl as [-> | ->]; [done|]. unfold rebuilt. by destruct (new_client _).
  - intros [= <-] Hin. eapply step_completed in Hs as (doom & events & m0 & observed & Hr & _ & -> & _ & ->); [|exact Hin].
    apply attempt_shows in Hr; [|done]. simpl. rewrite watch_app, watch_events. simpl. by rewrite watch_completion.
Qed.
End Task.

(** C13: What the task of a sampling request accepts is a real answer: the stop reason recorded
    in it is not [Length], it has text or a tool call unless the provider filtered it, and a
    confident doom-loop signal in it means that the whole resample budget was spent.  Its
    [attempts] count is the number of requests that were sent.  The recorded stop reason is
    not always the provider's: the transforms record [ToolCalls] for every answer with a tool
    call, so an answer that was cut in the middle of a call's arguments is accepted (see
    [SamplerWitness.cut_call_is_accepted]). *)
Theorem accepted_response_is_sound `{ErrorEnv, Responses.WireEnv, SamplerWorld} (wants : bool) (config : SamplerConfig)
  (policy : RetryPolicy) (fuel : nat) (request : list ConversationItem) (actions : list Action)
  (r : ConversationResponse) (m : InferenceLatencyStats) :
  honest_client → 0 ≤ task_doom_retries config policy →
  run_request_task wants config policy fuel request = Some actions → AEvent (Completed r m) ∈ actions →
  stop_reason r ≠ Some Length
  ∧ (stop_reason r = Some ContentFilter ∨ empty_reason (items r) = None)
  ∧ attempts m = Z.of_nat (sends actions)
  ∧ (∀ p, doom_policy config policy = Some p → confident_triggers p (doom_loop_signals r) ≠ [] →
       Z.of_nat (resamples actions) = doom_max_retries p).
Proof.
  intros Hh Hd. unfold run_request_task. destruct (new_client config) as [err|].
  - intros [= <-] Hin. exfalso. eapply (own_not_completed (stop_retrying wants err err)); [|exact Hin].
    constructor; [done|apply own_completion].
  - intros Hl Hin. eapply task_loop_accepts in Hl as ([Ha1 Ha2] & Hatt & Hdoom); [|done|done|exact Hin].
    split_and!; [done|done|simpl in Hatt; lia|]. intros p Hp Hne. specialize (Hdoom p Hp Hne). simpl in Hdoom.
    unfold task_doom_retries in *. rewrite Hp in *. lia.
Qed.

(** C15: With [retry_only_before_output], no request is sent once an event with output (a first
    token, a token, a fragment of a tool call, or a backend tool call) has been forwarded. *)
Theorem no_resend_after_output `{ErrorEnv, Responses.WireEnv, SamplerWorld} (wants : bool) (config : SamplerConfig)
  (policy : RetryPolicy) (fuel : nat) (request : list ConversationItem) (actions pre post : list Action) (e : SamplingEvent) :
  honest_client → retry_only_before_output policy = true →
  run_request_task wants config policy fuel request = Some actions →
  actions = pre ++ AEvent e :: post → is_output e = true → sends post = 0%nat.
Proof.
  intros Hh Hp. unfold run_request_task. destruct (new_client config) as [err|]; [|by apply task_loop_no_resend].
  intros [= <-] Heq He. assert (Hown : Forall own (stop_retrying wants err err)) by (constructor; [done|apply own_completion]).
  rewrite Heq in Hown. apply Forall_app in Hown as [_ [Hx _]%Forall_cons]. by destruct e.
Qed.

(** C14: The screen agrees with the accepted answer.  On the Chat Completions backend, a
    consumer that appends tokens, collects tool-call fragments by index and clears itself at
    each [AttemptDiscarded] ends with exactly the text, the thoughts and the tool calls of the
    response that the task accepts, whatever attempts were discarded before. *)
Theorem consumer_sees_accepted_response `{ErrorEnv, Responses.WireEnv, SamplerWorld} (wants : bool)
  (config : SamplerConfig) (policy : RetryPolicy) (fuel : nat) (request : list ConversationItem) (actions : list Action)
  (r : ConversationResponse) (m : InferenceLatencyStats) :
  honest_client → api_backend config = ChatCompletions →
  run_request_task wants config policy fuel request = Some actions → AEvent (Completed r m) ∈ actions →
  response_shows r (watch blank actions).
Proof.
  intros Hh Hb. unfold run_request_task. destruct (new_client config) as [err|]; [|by apply task_loop_shows].
  intros [= <-] Hin. exfalso. eapply (own_not_completed (stop_retrying wants err err)); [|exact Hin].
  constructor; [done|apply own_completion].
Qed.
