(* ===== verification/SamplerWitness.v ===== *)
(** A small world for the sampler, a Chat Completions server that answers the first request
    with 503 and then streams a text and a tool call, and the theorems about the task of a
    sampling request in it. *)
From stdpp Require Import base list strings.
From S2P Require Import Prelude RustStr Json BreakerConfig Conversation SamplingErr SampleEvents SampleStream SamplerTask SamplerSafety SamplerEnd SamplerView.
Open Scope Z_scope.

(** * A small world *)

Definition demo_errors : ErrorEnv := {|
  parse_error_response := λ _, None;
  parse_flat_error_response := λ _, None;
  body_text := λ b, Some b;
  body_json := λ _, None;
  json_text := λ _, [];
  status_text := λ s, code_text s;
  custom_error := λ m, mkSerde m 0 0
|}.
#[export] Existing Instance demo_errors.

Definition demo_wire : Responses.WireEnv := {|
  Responses.from_str := λ _, None;
  Responses.to_value := λ _, None;
  Responses.deserialize_response_event := λ _, Ok Responses.EvInProgress
|}.
#[export] Existing Instance demo_wire.

Definition text_chunk (s : string) : Chat.Chunk :=
  Chat.mkChunk (lit "grok") None None [Chat.mkChoice (Chat.mkDelta (Some (lit s)) None []) None].
Definition call_chunk : Chat.Chunk :=
  Chat.mkChunk (lit "grok") None None
    [Chat.mkChoice (Chat.mkDelta None None
       [Chat.mkCallDelta 0 (Some (lit "c1")) (Some (Chat.mkFunction (Some (lit "ls")) (Some (lit "{}"))))])
       (Some Chat.FToolCalls)].
Definition demo_raw : RawStream Chat.Chunk :=
  mkRaw 0 0 [(1, Ok (text_chunk "Hel")); (1, Ok (text_chunk "lo")); (1, Ok call_chunk)] (Some 1).

(** The stream breaks after its first token. *)
Definition broken_raw : RawStream Chat.Chunk :=
  mkRaw 0 0 [(1, Ok (text_chunk "Hel")); (1, Err (EEventStream (lit "reset")))] (Some 1).

Definition busy : SamplingError := EApi 503 (lit "busy") None None None.

Definition world_of (raw : RawStream Chat.Chunk) : SamplerWorld := {|
  GROK_MAX_RETRIES := None;
  new_client := λ _, None;
  conversation_stream := λ n _ _, if (n =? 0)%nat then Err busy else Ok (raw, None);
  conversation_stream_responses := λ _ _ _, Err busy;
  conversation_stream_messages := λ _ _ _, Err busy;
  hash := λ _, 0;
  cancelled_before := λ _, false;
  cancelled_during := λ _, None;
  cancelled_asleep := λ _, false
|}.
Definition demo_world : SamplerWorld := world_of demo_raw.
#[export] Existing Instance demo_world.
Definition broken_world : SamplerWorld := world_of broken_raw.

Definition demo_config : SamplerConfig := mkConfig ChatCompletions None None None false.
Definition demo_policy (before_output : bool) : RetryPolicy := mkRetryPolicy 3 2 before_output.

Lemma demo_honest : honest_client.
Proof. split; [|done|done|done]. intros n c r. simpl. destruct (n =? 0)%nat; [done|by repeat constructor]. Defined.
Lemma broken_honest : honest_client (H1 := broken_world).
Proof. split; [|done|done|done]. intros n c r. simpl. destruct (n =? 0)%nat; [done|by repeat constructor]. Defined.

(** The whole run: the retry, the second attempt, and the accepted response. *)
Example demo_runs :
  match run_request_task true demo_config (demo_policy false) 4 [] with
  | Some actions =>
      (length (List.filter (λ a, match a with ASend _ _ => true | _ => false end) actions),
       omap (λ a, match a with AComplete (Ok (r, m)) => Some (attempts m) | _ => None end) actions,
       omap (λ a, match a with ASleep d => Some d | _ => None end) actions)
  | None => (0%nat, [], [])
  end = (2%nat, [2], [1600]).
Proof. vm_compute. reflexivity. Qed.

(** The stop reason of an answer with a tool call is [ToolCalls] although the provider stopped
    at the token limit in the middle of the arguments: the answer is accepted. *)
Definition cut_call : Chat.Chunk :=
  Chat.mkChunk (lit "grok") None None
    [Chat.mkChoice (Chat.mkDelta None None
       [Chat.mkCallDelta 0 (Some (lit "c1")) (Some (Chat.mkFunction (Some (lit "ls")) (Some (lit "{'pa"))))])
       (Some Chat.FLength)].
Example cut_call_is_accepted :
  match run_request_task (H1 := world_of (mkRaw 0 0 [(1, Ok cut_call)] (Some 1))) true demo_config (demo_policy false) 4 [] with
  | Some actions => omap (λ a, match a with AComplete (Ok (r, _)) => Some (stop_reason r) | _ => None end) actions
  | None => []
  end = [Some ToolCalls].
Proof. vm_compute. reflexivity. Qed.

(** * The theorems in it *)

Definition demo_actions (before_output : bool) : list Action :=
  default [] (run_request_task true demo_config (demo_policy before_output) 4 []).
Definition demo_response : ConversationResponse :=
  mkResponse [CAssistant (mkAssistant (lit "Hello") [mkCall (lit "c1") (lit "ls") (lit "{}")] (Some (lit "grok")) None None)]
    (Some ToolCalls) None None 2 [] None None None None.
Definition demo_stats : InferenceLatencyStats := with_attempts 2 (from_timestamps 0 [1; 2] 4).

Lemma demo_actions_run before_output :
  run_request_task true demo_config (demo_policy before_output) 4 [] = Some (demo_actions before_output).
Proof. destruct before_output; vm_compute; reflexivity. Qed.
Lemma demo_completed : AEvent (Completed demo_response demo_stats) ∈ demo_actions false.
Proof.
  apply list_elem_of_In. vm_compute. repeat (first [left; reflexivity | right]).
Qed.

Lemma request_task_settles_witness :
  ∃ actions, run_request_task true demo_config (demo_policy false) 4 [] = Some actions
             ∧ settled true actions ∧ (sends actions ≤ 4)%nat.
Proof.
  exact (request_task_settles true demo_config (demo_policy false) [] demo_honest
           ltac:(vm_compute; discriminate) ltac:(vm_compute; discriminate)).
Defined.

Lemma accepted_response_is_sound_witness :
  stop_reason demo_response ≠ Some Length ∧ attempts demo_stats = Z.of_nat (sends (demo_actions false)).
Proof.
  destruct (accepted_response_is_sound true demo_config (demo_policy false) 4 [] _ demo_response demo_stats demo_honest
              ltac:(vm_compute; discriminate) (demo_actions_run false) demo_completed) as (Hl & _ & Ha & _).
  exact (conj Hl Ha).
Defined.

(** The stream of the second request breaks after a token: a third request would be sent by
    the default policy, and is not sent with [retry_only_before_output]. *)
Definition broken_actions (before_output : bool) : list Action :=
  default [] (run_request_task (H1 := broken_world) true demo_config (demo_policy before_output) 4 []).
Lemma broken_actions_run before_output :
  run_request_task (H1 := broken_world) true demo_config (demo_policy before_output) 4 [] = Some (broken_actions before_output).
Proof. destruct before_output; vm_compute; reflexivity. Qed.

Lemma no_resend_after_output_witness :
  sends (broken_actions false) = 3%nat ∧ sends (drop 7 (broken_actions true)) = 0%nat.
Proof.
  split; [vm_compute; reflexivity|].
  exact (no_resend_after_output (H1 := broken_world) true demo_config (demo_policy true) 4 [] (broken_actions true)
           (take 6 (broken_actions true)) (drop 7 (broken_actions true)) FirstToken broken_honest eq_refl
           (broken_actions_run true) ltac:(vm_compute; reflexivity) eq_refl).
Defined.

Lemma consumer_sees_accepted_response_witness : response_shows demo_response (watch blank (demo_actions false)).
Proof.
  exact (consumer_sees_accepted_response true demo_config (demo_policy false) 4 [] _ demo_response demo_stats demo_honest
           eq_refl (demo_actions_run false) demo_completed).
Defined.
