(* ===== verification/SamplerActor.v ===== *)
(** The sampler actor (crates/codegen/xai-grok-sampler/src/actor/{mod,state}.rs): the commands of
    its handles, the registry of requests in flight and the tasks it has spawned.

    A task is its request id, its cancellation token and the configuration it runs with; it
    ends at any time, by returning its id or by a panic. *)
From stdpp Require Import base list strings gmap.
From S2P Require Import Prelude RustStr Json BreakerConfig Conversation SamplingErr SampleEvents SampleStream SamplerTask.
Open Scope nat_scope.

Inductive Command :=
  | Submit (request_id : str) (config : option SamplerConfig)
  | Cancel (request_id : str)
  | UpdateConfig (config : SamplerConfig)
  | IsActive (request_id : str)
  | ActiveCount.
Inductive Reply := RBool (b : bool) | RCount (n : nat).

Record Spawned := mkSpawned { sp_id : str; sp_token : nat; sp_config : SamplerConfig }.

Record Actor := mkActor {
  active_requests : gmap str nat;
  actor_config : SamplerConfig;
  next_token : nat;
  cancelled_tokens : gset nat;
  tasks : list Spawned
}.

(** [ActorState::new] and [SamplerActor::spawn] *)
Definition new_actor (config : SamplerConfig) : Actor := mkActor ∅ config 0 ∅ [].

(** [ActorState::register]: the new state and the previous entry. *)
Definition register (id : str) (token : nat) (a : Actor) : Actor * option nat :=
  (mkActor (<[id := token]> (active_requests a)) (actor_config a) (next_token a) (cancelled_tokens a) (tasks a),
   active_requests a !! id).
Definition remove (id : str) (a : Actor) : Actor :=
  mkActor (delete id (active_requests a)) (actor_config a) (next_token a) (cancelled_tokens a) (tasks a).
Definition cancel_token (token : nat) (a : Actor) : Actor :=
  mkActor (active_requests a) (actor_config a) (next_token a) ({[token]} ∪ cancelled_tokens a) (tasks a).
Definition cancel (id : str) (a : Actor) : Actor * bool :=
  match active_requests a !! id with
  | Some token => (cancel_token token (remove id a), true)
  | None => (a, false)
  end.
Definition update_config (config : SamplerConfig) (a : Actor) : Actor :=
  mkActor (active_requests a) config (next_token a) (cancelled_tokens a) (tasks a).

Definition submit (id : str) (config : option SamplerConfig) (a : Actor) : Actor :=
  let token := next_token a in
  let a := mkActor (active_requests a) (actor_config a) (S token) (cancelled_tokens a) (tasks a) in
  let '(a, prev) := register id token a in
  let a := match prev with Some prev => cancel_token prev a | None => a end in
  mkActor (active_requests a) (actor_config a) (next_token a) (cancelled_tokens a)
    (tasks a ++ [mkSpawned id token (default (actor_config a) config)]).

Definition handle_command (c : Command) (a : Actor) : Actor * option Reply :=
  match c with
  | Submit id config => (submit id config a, None)
  | Cancel id => ((cancel id a).1, None)
  | UpdateConfig config => (update_config config a, None)
  | IsActive id => (a, Some (RBool (bool_decide (is_Some (active_requests a !! id)))))
  | ActiveCount => (a, Some (RCount (size (active_requests a))))
  end.

(** [join_next]: the task with this token has ended. *)
Definition joined (token : nat) (panicked : bool) (a : Actor) : Actor :=
  match List.find (λ t, sp_token t =? token) (tasks a) with
  | None => a
  | Some t =>
      let a := mkActor (active_requests a) (actor_config a) (next_token a) (cancelled_tokens a)
                 (List.filter (λ t, negb (sp_token t =? token)) (tasks a)) in
      if panicked then a else remove (sp_id t) a
  end.

(** The loop ends when all handles are dropped: every token in the registry is cancelled. *)
Definition shutdown (a : Actor) : Actor :=
  mkActor ∅ (actor_config a) (next_token a) (list_to_set (snd <$> map_to_list (active_requests a)) ∪ cancelled_tokens a) (tasks a).

(** * Runs *)

Inductive Occurrence := OCommand (c : Command) | OJoined (token : nat) (panicked : bool).
Definition occur (a : Actor) (o : Occurrence) : Actor :=
  match o with OCommand c => (handle_command c a).1 | OJoined token panicked => joined token panicked a end.
Definition run (a : Actor) (os : list Occurrence) : Actor := foldl occur a os.

(** An occurrence that does not reuse the id of a task that still runs and is not a panic. *)
Definition orderly (a : Actor) (o : Occurrence) : bool :=
  match o with
  | OCommand (Submit id _) => negb (one_of id (sp_id <$> tasks a))
  | OJoined _ panicked => negb panicked
  | _ => true
  end.
Fixpoint orderly_run (a : Actor) (os : list Occurrence) : bool :=
  match os with [] => true | o :: os => orderly a o && orderly_run (occur a o) os end.

(** * The registry *)

Definition live (a : Actor) (id : str) (token : nat) : Prop :=
  ∃ t, t ∈ tasks a ∧ sp_id t = id ∧ sp_token t = token ∧ token ∉ cancelled_tokens a.
Record exact (a : Actor) : Prop := {
  exact_active id token : active_requests a !! id = Some token ↔ live a id token;
  exact_ids : NoDup (sp_id <$> tasks a);
  exact_tokens : NoDup (sp_token <$> tasks a);
  exact_fresh t : t ∈ tasks a → sp_token t < next_token a;
  exact_cancelled token : token ∈ cancelled_tokens a → token < next_token a
}.

Lemma exact_new config : exact (new_actor config).
Proof.
  split; simpl; try (by constructor); try set_solver.
Qed.

Lemma exact_same_token a t u : exact a → t ∈ tasks a → u ∈ tasks a → sp_token t = sp_token u → t = u.
Proof. intros He. apply NoDup_fmap_eq, exact_tokens, He. Qed.
Lemma exact_same_id a t u : exact a → t ∈ tasks a → u ∈ tasks a → sp_id t = sp_id u → t = u.
Proof. intros He. apply NoDup_fmap_eq, exact_ids, He. Qed.

Lemma exact_submit a id config : exact a → one_of id (sp_id <$> tasks a) = false → exact (submit id config a).
Proof.
  intros He Hid. assert (Hni : id ∉ sp_id <$> tasks a) by (rewrite <- one_of_In; congruence).
  assert (Hnone : active_requests a !! id = None).
  { destruct (active_requests a !! id) as [token|] eqn:Ha; [|done]. apply (exact_active _ He) in Ha as (t & Ht & <- & _).
    exfalso. by apply Hni, list_elem_of_fmap_2. }
  unfold submit, register. simpl. rewrite Hnone. simpl. set (new := mkSpawned id (next_token a) _). split; simpl.
  - intros id' token. unfold live. simpl. destruct (decide (id' = id)) as [->|Hne].
    + rewrite lookup_insert_eq. split.
      * intros [= <-]. exists new. split_and!; [set_solver|done|done|]. intros Hc%(exact_cancelled _ He). lia.
      * intros (t & Ht & Hi & <- & _). apply elem_of_app in Ht as [Ht|Ht%list_elem_of_singleton]; [|by subst t].
        exfalso. apply Hni. rewrite <- Hi. by apply list_elem_of_fmap_2.
    + rewrite lookup_insert_ne by done. rewrite (exact_active _ He). unfold live. split.
      * intros (t & Ht & Hrest). exists t. split; [set_solver|done].
      * intros (t & Ht & Hi & Hrest). exists t. apply elem_of_app in Ht as [Ht|Ht%list_elem_of_singleton]; [done|by subst t].
  - rewrite fmap_app. apply NoDup_app. split_and!; [apply He| |apply NoDup_singleton].
    intros x Hx ->%list_elem_of_singleton. done.
  - rewrite fmap_app. apply NoDup_app. split_and!; [apply He| |apply NoDup_singleton].
    intros x (t & -> & Ht)%list_elem_of_fmap Hx%list_elem_of_singleton. apply (exact_fresh _ He) in Ht. simpl in Hx. lia.
  - intros t [Ht%(exact_fresh _ He)|Ht%list_elem_of_singleton]%elem_of_app; [lia|subst t; simpl; lia].
  - intros token Hc%(exact_cancelled _ He). lia.
Qed.

Lemma exact_cancel a id : exact a → exact (cancel id a).1.
Proof.
  intros He. unfold cancel. destruct (active_requests a !! id) as [token|] eqn:Ha; [|done]. simpl.
  pose proof Ha as (t & Ht & Hid & Htok & Hnc)%(exact_active _ He). split; simpl; try apply He.
  - intros id' token'. unfold live. simpl. split.
    + intros [Hne Hl]%lookup_delete_Some. apply (exact_active _ He) in Hl as (u & Hu & Hui & Hut & Hun).
      exists u. split_and!; try done. rewrite not_elem_of_union, not_elem_of_singleton. split; [|done]. intros Heq.
      apply Hne. rewrite <- Hid, <- Hui. f_equal. eapply exact_same_token; eauto; congruence.
    + intros (u & Hu & Hui & Hut & Hun). rewrite not_elem_of_union, not_elem_of_singleton in Hun. destruct Hun as [Hneq Hun].
      apply lookup_delete_Some. split; [|apply (exact_active _ He); by exists u].
      intros Heq. apply Hneq. assert (u = t) as -> by (eapply exact_same_id; eauto; congruence). congruence.
  - intros token' [->%elem_of_singleton|Hc]%elem_of_union; [rewrite <- Htok; by apply (exact_fresh _ He)|by apply He].
Qed.

Lemma exact_joined a token : exact a → exact (joined token false a).
Proof.
  intros He. unfold joined. destruct (List.find _ (tasks a)) as [t|] eqn:Hf; [|done].
  apply find_In in Hf as [Ht Htok]. apply Nat.eqb_eq in Htok.
  assert (Hin : ∀ u, u ∈ List.filter (λ t, negb (sp_token t =? token)) (tasks a) ↔ u ∈ tasks a ∧ sp_token u ≠ token).
  { intros u. rewrite elem_of_filterb, negb_true_iff, Nat.eqb_neq. done. }
  split; simpl; try apply He.
  - intros id' token'. unfold live. simpl. rewrite lookup_delete_Some, (exact_active _ He). unfold live. split.
    + intros (Hne & u & Hu & Hui & Hut & Hun). exists u. split_and!; try done. apply Hin. split; [done|].
      intros Heq. apply Hne. rewrite <- Hui. f_equal. eapply exact_same_token; eauto; congruence.
    + intros (u & [Hu Hne]%Hin & Hui & Hut & Hun). split; [|by exists u]. intros Heq. apply Hne.
      assert (u = t) as -> by (eapply exact_same_id; eauto; congruence). done.
  - eapply sublist_NoDup; [apply He|]. apply fmap_sublist, filterb_sublist.
  - eapply sublist_NoDup; [apply He|]. apply fmap_sublist, filterb_sublist.
  - intros u [Hu _]%Hin. by apply (exact_fresh _ He).
Qed.

Lemma exact_occur a o : exact a → orderly a o = true → exact (occur a o).
Proof.
  intros He Ho. destruct o as [[id config|id|config|id|]|token panicked]; simpl in *; try done.
  - apply exact_submit; [done|]. by apply negb_true_iff.
  - by apply exact_cancel.
  - destruct He. by split.
  - destruct panicked; [done|]. by apply exact_joined.
Qed.

(** C23: The registry of the sampler is exact.  In every run of the actor in which no id is
    submitted while its task still runs and no task panics, the registry holds an id exactly
    when a task of this id runs and has not been cancelled; so [IsActive] and [ActiveCount]
    tell the truth and [Cancel] reaches the task. *)
Theorem registry_is_exact (config : SamplerConfig) (os : list Occurrence) (id : str) (token : nat) :
  orderly_run (new_actor config) os = true →
  let a := run (new_actor config) os in
  (active_requests a !! id = Some token ↔ live a id token)
  ∧ (live a id token → token ∈ cancelled_tokens (handle_command (Cancel id) a).1).
Proof.
  intros Ho a. assert (He : exact a).
  { subst a. generalize (exact_new config). revert Ho. generalize (new_actor config). induction os as [|o os IH]; intros a Ho He; [done|].
    simpl in Ho. apply andb_true_iff in Ho as [Ho Hos]. apply (IH (occur a o)); [done|by apply exact_occur]. }
  split; [apply He|]. intros Hl%(exact_active _ He). simpl. unfold cancel. rewrite Hl. simpl. set_solver.
Qed.

Definition plain_config : SamplerConfig := mkConfig ChatCompletions None None None false.
Definition two_requests : list Occurrence :=
  [OCommand (Submit (lit "a") None); OCommand (Submit (lit "b") None); OJoined 0 false].
Lemma registry_is_exact_witness :
  1 ∈ cancelled_tokens (handle_command (Cancel (lit "b")) (run (new_actor plain_config) two_requests)).1.
Proof.
  apply (proj2 (registry_is_exact plain_config two_requests (lit "b") 1 ltac:(vm_compute; reflexivity))).
  exists (mkSpawned (lit "b") 1 plain_config). split_and!; [|done|done|].
  - apply list_elem_of_In. vm_compute. by left.
  - apply (bool_decide_unpack (1 ∉ cancelled_tokens (run (new_actor plain_config) two_requests))). vm_compute. exact I.
Defined.

(** A duplicate id: the end of the replaced task removes the entry of the new one, which then
    runs while it is neither active nor in reach of [Cancel]. *)
Example duplicate_id_lost :
  let a := run (new_actor plain_config) [OCommand (Submit (lit "a") None); OCommand (Submit (lit "a") None); OJoined 0 false] in
  (sp_token <$> tasks a, bool_decide (active_requests a !! lit "a" = None),
   bool_decide (1 ∈ cancelled_tokens (handle_command (Cancel (lit "a")) a).1)) = ([1], true, false).
Proof. vm_compute. reflexivity. Qed.

(** A panic: the entry stays, and the id counts as active for ever. *)
Example panicked_id_stays :
  let a := run (new_actor plain_config) [OCommand (Submit (lit "a") None); OJoined 0 true] in
  (length (tasks a), bool_decide (active_requests a !! lit "a" = Some 0)) = (0, true).
Proof. vm_compute. reflexivity. Qed.
