(* ===== verification/ChatState.v ===== *)
(** The chat state (crates/codegen/xai-chat-state/src): the conversation of a session, its token
    estimates, billing ledgers, turn capture and traces, the commands of its actor, and the
    request it builds.  Token estimates are those of crates/codegen/xai-token-estimation.

    Every change of the history goes to the persistence log; [disk] replays it.  The sizes of
    JSON encodings are the interface [ChatEnv].  [None] is a panic of the actor task: the
    estimate of a backend call whose preview cuts a character.  Counts of tokens are not
    wrapped: no conversation comes near [u64::MAX].

    The first part is the bound on the text of a tool result in the history (the free functions
    of actor/mutations.rs); its lengths are bytes of UTF-8. *)
From Stdlib Require Import SpecFloat.
From stdpp Require Import base list strings gmap.
From S2P Require Import Prelude RustStr Json BreakerConfig Conversation.
Open Scope nat_scope.

(** * The bound on tool results *)

Inductive TruncationMode := TBytes | TTokens.
Record TruncationPolicyConfig := mkTruncation { tp_mode : TruncationMode; tp_limit : Z }.

Record TrustedReminderMessage := mkReminder {
  rm_prefix : str; rm_payload : str; rm_suffix : str; rm_completion_ids : list str
}.
Record TrustedPromptSuffix := mkSuffix { sx_exact : str; sx_reminders : list TrustedReminderMessage }.

(** [usize::div_ceil] *)
Definition div_ceil (a b : nat) : nat := (a + b - 1) / b.

Definition U64_MAX : Z := 2 ^ 64 - 1.
(** [None] when there is no positive limit; a [u64] that saturates otherwise. *)
Definition truncation_policy_byte_limit (p : TruncationPolicyConfig) : option Z :=
  if (tp_limit p <=? 0)%Z then None
  else
    let budget := Z.min ((tp_limit p * 6 + 4) / 5) U64_MAX in
    Some (match tp_mode p with TBytes => budget | TTokens => Z.min (budget * 4) U64_MAX end).

(** The longest suffix of at most [n] bytes. *)
Definition take_utf8_end (n : nat) (s : str) : str := rev (take_utf8 n (rev s)).

Definition TRUNCATED : str := lit "[truncated]".
Definition marker_for (max_bytes : nat) (preferred : str) : str :=
  if utf8_len preferred <=? max_bytes then preferred
  else if utf8_len TRUNCATED <=? max_bytes then TRUNCATED
  else replicate (Nat.min max_bytes 3) 46%N.

Definition truncate_text (content : str) (max_bytes : nat) (preferred_marker : str) : option str :=
  if utf8_len content <=? max_bytes then None
  else
    let marker := marker_for max_bytes preferred_marker in
    let remaining := max_bytes - utf8_len marker in
    Some (take_utf8 (div_ceil remaining 2) content ++ marker ++ take_utf8_end (remaining / 2) content).

Definition truncate_tool_result_content (content : str) (max_bytes : nat) : str :=
  if utf8_len content <=? max_bytes then content
  else
    let marker := [NL] ++ lit "... tool output truncated: " ++ decimal (N.of_nat (utf8_len content))
                  ++ lit " bytes total ..." ++ [NL] in
    default content (truncate_text content max_bytes marker).
Definition truncate_owned_text (content : str) (max_bytes : nat) : str :=
  default content (truncate_text content max_bytes TRUNCATED).

(** One round of the sharing: who is satisfied with the share, and who is not. *)
Definition satisfied (lengths : list nat) (share : nat) (active : list nat) : list nat :=
  List.filter (λ i, nth i lengths 0 <=? share) active.
Definition unsatisfied (lengths : list nat) (share : nat) (active : list nat) : list nat :=
  List.filter (λ i, negb (nth i lengths 0 <=? share)) active.
Definition grant (lengths : list nat) (budgets : list nat) (i : nat) : list nat := <[i := nth i lengths 0]> budgets.

(** [base] each, and one more for the first [extra]. *)
Fixpoint split_rest (base extra : nat) (next : list nat) (budgets : list nat) : list nat :=
  match next with
  | [] => budgets
  | i :: next => split_rest base (pred extra) next (<[i := base + (if 0 <? extra then 1 else 0)]> budgets)
  end.

Fixpoint share_rounds (fuel : nat) (lengths : list nat) (remaining : nat) (active budgets : list nat) : list nat :=
  match fuel, active with
  | O, _ | _, [] => budgets
  | S fuel, _ =>
      let share := remaining / length active in
      let done := satisfied lengths share active in
      let next := unsatisfied lengths share active in
      let consumed := sum_list ((λ i, nth i lengths 0) <$> done) in
      let budgets := foldl (grant lengths) budgets done in
      let remaining := remaining - consumed in
      match next with
      | [] => budgets
      | _ =>
          if consumed =? 0
          then split_rest (remaining / length next) (remaining mod length next) next budgets
          else share_rounds fuel lengths remaining next budgets
      end
  end.
Definition fair_payload_budgets (lengths : list nat) (total : nat) : list nat :=
  share_rounds (S (length lengths)) lengths total (seq 0 (length lengths)) (replicate (length lengths) 0).

Definition completion_manifest (m : TrustedReminderMessage) : str :=
  concat ((λ id, lit "[completion:" ++ id ++ lit "]" ++ [NL]) <$> rm_completion_ids m).
Definition frame_bytes (m : TrustedReminderMessage) : nat :=
  utf8_len (rm_prefix m) + utf8_len (completion_manifest m) + utf8_len (rm_suffix m).
Definition fit (text : str) (budget : nat) : str := default text (truncate_text text budget TRUNCATED).
Definition render (m : TrustedReminderMessage) (budget : nat) : str :=
  rm_prefix m ++ completion_manifest m ++ fit (rm_payload m) budget ++ rm_suffix m.
Definition OVERFLOW_MARKER : str := lit "[completion manifest overflow]".

Definition bound_structured_tool_result (raw : str) (reminders : list TrustedReminderMessage) (max_bytes : nat) : str :=
  let required := sum_list (frame_bytes <$> reminders) in
  if max_bytes <? required then
    let compact := lit "[completions:" ++ join (lit ",") (mjoin (rm_completion_ids <$> reminders)) ++ lit "]" ++ [NL]
                   ++ OVERFLOW_MARKER in
    default compact (truncate_text compact max_bytes OVERFLOW_MARKER)
  else
    let lengths := utf8_len raw :: (utf8_len ∘ rm_payload <$> reminders) in
    let budgets := fair_payload_budgets lengths (max_bytes - required) in
    fit raw (nth 0 budgets 0) ++ concat (zip_with render reminders (drop 1 budgets)).

(** The text that [push_tool_result] stores, for a policy limit in bytes and a suffix. *)
Definition bounded_content (content : str) (limit : option nat) (suffix : option TrustedPromptSuffix) : str :=
  match limit, suffix with
  | Some max_bytes, Some suffix =>
      if utf8_len content + utf8_len (sx_exact suffix) <=? max_bytes then content ++ sx_exact suffix
      else match sx_reminders suffix with
           | [] =>
               let budget := match content with [] => max_bytes | _ => div_ceil max_bytes 2 end in
               let exact := truncate_owned_text (sx_exact suffix) budget in
               truncate_tool_result_content content (max_bytes - utf8_len exact) ++ exact
           | reminders => bound_structured_tool_result content reminders max_bytes
           end
  | Some max_bytes, None => truncate_tool_result_content content max_bytes
  | None, Some suffix => content ++ sx_exact suffix
  | None, None => content
  end.

(** * Bounds *)

Lemma utf8_len_app a b : utf8_len (a ++ b) = utf8_len a + utf8_len b.
Proof. apply sum_list_with_app. Qed.
Lemma take_utf8_len n s : utf8_len (take_utf8 n s) ≤ n.
Proof.
  revert n. induction s as [|c s IH]; intros n; simpl; [lia|]. case_goal; simpl; [|lia].
  bool_to_prop. specialize (IH (n - len_utf8 c)). unfold utf8_len in *. simpl. lia.
Qed.
Lemma take_utf8_end_len n s : utf8_len (take_utf8_end n s) ≤ n.
Proof. unfold take_utf8_end, utf8_len. rewrite sum_list_with_rev. apply take_utf8_len. Qed.
Lemma div_ceil_half n : div_ceil n 2 + n / 2 = n.
Proof.
  unfold div_ceil. replace (n + 2 - 1) with (n + 1) by lia.
  pose proof (Nat.div_mod n 2 ltac:(lia)). pose proof (Nat.mod_upper_bound n 2 ltac:(lia)).
  pose proof (Nat.div_mod (n + 1) 2 ltac:(lia)). pose proof (Nat.mod_upper_bound (n + 1) 2 ltac:(lia)). lia.
Qed.
Lemma marker_fits n preferred : utf8_len (marker_for n preferred) ≤ n.
Proof.
  unfold marker_for. repeat case_goal; bool_to_prop; [done|done|].
  assert (Hd : ∀ k, utf8_len (replicate k 46%N) = k) by (induction k as [|k IH]; [done|]; unfold utf8_len in *; simpl; by rewrite IH).
  rewrite Hd. lia.
Qed.

Lemma truncate_text_bound content n preferred t : truncate_text content n preferred = Some t → utf8_len t ≤ n.
Proof.
  unfold truncate_text. case_goal; [done|]. intros <-%(inj Some). rewrite !utf8_len_app.
  pose proof (marker_fits n preferred). pose proof (div_ceil_half (n - utf8_len (marker_for n preferred))).
  pose proof (take_utf8_len (div_ceil (n - utf8_len (marker_for n preferred)) 2) content).
  pose proof (take_utf8_end_len ((n - utf8_len (marker_for n preferred)) / 2) content). lia.
Qed.
Lemma truncate_text_default content n preferred : utf8_len (default content (truncate_text content n preferred)) ≤ n.
Proof.
  destruct (truncate_text content n preferred) eqn:Ht; simpl; [by eapply truncate_text_bound|].
  unfold truncate_text in Ht. case_hyp Ht; [|done]. by bool_to_prop.
Qed.
Lemma truncate_content_bound content n : utf8_len (truncate_tool_result_content content n) ≤ n.
Proof. unfold truncate_tool_result_content. case_goal; [by bool_to_prop|apply truncate_text_default]. Qed.

(** ** Fair shares never exceed the total *)

Lemma sum_list_insert_zero (l : list nat) i v : l !! i = Some 0 → sum_list (<[i := v]> l) = sum_list l + v.
Proof.
  revert i. induction l as [|x l IH]; intros i; [done|]. destruct i as [|i]; simpl.
  - intros [= ->]. lia.
  - intros Hi. rewrite IH by done. lia.
Qed.

(** The active indices are distinct and have nothing yet. *)
Definition waiting (active budgets : list nat) : Prop := NoDup active ∧ Forall (λ i, budgets !! i = Some 0) active.

Lemma waiting_insert i v active budgets : waiting (i :: active) budgets → waiting active (<[i := v]> budgets).
Proof.
  intros [[Hni Hnd]%NoDup_cons [_ Hz]%Forall_cons]. split; [done|]. rewrite Forall_forall in *. intros j Hj.
  rewrite list_lookup_insert_ne; [by apply Hz|]. intros ->. done.
Qed.

Lemma grant_all lengths done active budgets :
  waiting (done ++ active) budgets →
  let after := foldl (grant lengths) budgets done in
  sum_list after = sum_list budgets + sum_list ((λ i, nth i lengths 0) <$> done)
  ∧ waiting active after ∧ length after = length budgets.
Proof.
  revert budgets. induction done as [|i done IH]; intros budgets Hw; csimpl; [split_and!; [lia|done|done]|].
  destruct (IH (grant lengths budgets i)) as (Hs & Hwait & Hl); [by apply waiting_insert|].
  split_and!; [|done|by rewrite Hl; unfold grant; rewrite length_insert].
  rewrite Hs. unfold grant at 1. rewrite sum_list_insert_zero; [lia|].
  destruct Hw as [_ [Hz _]%Forall_cons]. done.
Qed.

Lemma split_rest_sum base extra next budgets :
  waiting next budgets →
  sum_list (split_rest base extra next budgets) ≤ sum_list budgets + base * length next + extra
  ∧ length (split_rest base extra next budgets) = length budgets.
Proof.
  revert extra budgets. induction next as [|i next IH]; intros extra budgets Hw; simpl; [lia|].
  destruct (IH (pred extra) (<[i := base + (if 0 <? extra then 1 else 0)]> budgets)) as [Hs Hl]; [by apply waiting_insert|].
  rewrite Hl, length_insert. split; [|done]. rewrite sum_list_insert_zero in Hs by (by destruct Hw as [_ [Hz _]%Forall_cons]).
  destruct (Nat.ltb_spec 0 extra); lia.
Qed.

Lemma partition_perm lengths share active :
  satisfied lengths share active ++ unsatisfied lengths share active ≡ₚ active.
Proof.
  unfold satisfied, unsatisfied. induction active as [|i active IH]; simpl; [done|].
  destruct (nth i lengths 0 <=? share); simpl; [by rewrite IH|]. rewrite <- Permutation_middle. by rewrite IH.
Qed.

Lemma waiting_perm a b budgets : a ≡ₚ b → waiting a budgets → waiting b budgets.
Proof. unfold waiting. intros Hp. by rewrite Hp. Qed.

Lemma satisfied_consumes lengths share active :
  sum_list ((λ i, nth i lengths 0) <$> satisfied lengths share active) ≤ length active * share.
Proof.
  unfold satisfied. induction active as [|i active IH]; csimpl; [lia|].
  destruct (Nat.leb_spec (nth i lengths 0) share); csimpl; lia.
Qed.

Lemma share_rounds_sum fuel lengths remaining active budgets :
  waiting active budgets →
  sum_list (share_rounds fuel lengths remaining active budgets) ≤ sum_list budgets + remaining
  ∧ length (share_rounds fuel lengths remaining active budgets) = length budgets.
Proof.
  revert remaining active budgets. induction fuel as [|fuel IH]; intros remaining active budgets Hw; simpl; [lia|].
  destruct active as [|a active']; [lia|]. set (active := a :: active') in *. set (share := remaining / length active).
  set (done := satisfied lengths share active). set (next := unsatisfied lengths share active).
  assert (Hw' : waiting (done ++ next) budgets) by (eapply waiting_perm; [symmetry; apply partition_perm|done]).
  apply (grant_all lengths) in Hw' as (Hs & Hwait & Hl).
  set (after := foldl (grant lengths) budgets done) in *.
  set (consumed := sum_list ((λ i, nth i lengths 0) <$> done)) in *.
  assert (Hc : consumed ≤ remaining).
  { pose proof (satisfied_consumes lengths share active) as Hb. fold done consumed in Hb.
    pose proof (Nat.Div0.mul_div_le remaining (length active)). fold share in H. lia. }
  clearbody next. destruct next as [|n next']; [split; [lia|done]|].
  set (next := n :: next') in *. destruct (consumed =? 0) eqn:Hz.
  - destruct (split_rest_sum ((remaining - consumed) / length next) ((remaining - consumed) mod length next) next after Hwait) as [Hb Hlen].
    split; [|congruence]. pose proof (Nat.div_mod (remaining - consumed) (length next) ltac:(done)). lia.
  - destruct (IH (remaining - consumed) next after Hwait) as [Hb Hlen]. split; [lia|congruence].
Qed.

Lemma fair_budgets lengths total :
  sum_list (fair_payload_budgets lengths total) ≤ total ∧ length (fair_payload_budgets lengths total) = length lengths.
Proof.
  unfold fair_payload_budgets.
  destruct (share_rounds_sum (S (length lengths)) lengths total (seq 0 (length lengths)) (replicate (length lengths) 0)) as [Hs Hl].
  - split; [apply NoDup_seq|]. apply Forall_forall. intros i Hi%list_elem_of_In%in_seq. apply lookup_replicate. lia.
  - rewrite sum_list_replicate in Hs. rewrite length_replicate in Hl. lia.
Qed.

Lemma fit_bound text budget : utf8_len (fit text budget) ≤ budget.
Proof. apply truncate_text_default. Qed.

Lemma render_all_bound reminders budgets :
  length budgets = length reminders →
  utf8_len (concat (zip_with render reminders budgets)) ≤ sum_list (frame_bytes <$> reminders) + sum_list budgets.
Proof.
  revert budgets. induction reminders as [|m reminders IH]; intros [|b budgets] Hl; csimpl in *; try lia.
  specialize (IH budgets ltac:(lia)). rewrite utf8_len_app. unfold render at 1, frame_bytes at 1. rewrite !utf8_len_app.
  pose proof (fit_bound (rm_payload m) b). lia.
Qed.

Lemma bound_structured_bound raw reminders max_bytes :
  utf8_len (bound_structured_tool_result raw reminders max_bytes) ≤ max_bytes.
Proof.
  unfold bound_structured_tool_result. destruct (Nat.ltb_spec max_bytes (sum_list (frame_bytes <$> reminders))) as [Hlt|Hge].
  { apply truncate_text_default. }
  set (lengths := utf8_len raw :: _).
  destruct (fair_budgets lengths (max_bytes - sum_list (frame_bytes <$> reminders))) as [Hs Hl].
  destruct (fair_payload_budgets lengths _) as [|b budgets]; simpl in *; [done|].
  rewrite length_fmap in Hl. rewrite utf8_len_app. pose proof (fit_bound raw b).
  pose proof (render_all_bound reminders budgets ltac:(lia)). rewrite drop_0. lia.
Qed.

Lemma bounded_content_fits content max_bytes suffix : utf8_len (bounded_content content (Some max_bytes) suffix) ≤ max_bytes.
Proof.
  unfold bounded_content. destruct suffix as [suffix|]; [|apply truncate_content_bound].
  destruct (Nat.leb_spec (utf8_len content + utf8_len (sx_exact suffix)) max_bytes); [by rewrite utf8_len_app|].
  destruct (sx_reminders suffix) as [|m reminders]; [|apply bound_structured_bound].
  set (budget := match content with [] => max_bytes | _ => _ end). rewrite utf8_len_app.
  assert (Hb : budget ≤ max_bytes).
  { unfold budget. destruct content; [lia|]. pose proof (div_ceil_half max_bytes). lia. }
  pose proof (truncate_text_default (sx_exact suffix) budget TRUNCATED) as He. fold (truncate_owned_text (sx_exact suffix) budget) in He.
  pose proof (truncate_content_bound content (max_bytes - utf8_len (truncate_owned_text (sx_exact suffix) budget))). lia.
Qed.

Lemma bounded_content_exact content max_bytes suffix :
  utf8_len (content ++ from_option sx_exact [] suffix) ≤ max_bytes →
  bounded_content content (Some max_bytes) suffix = content ++ from_option sx_exact [] suffix.
Proof.
  rewrite utf8_len_app. intros Hfit. unfold bounded_content. destruct suffix as [suffix|]; simpl in *.
  - by rewrite (proj2 (Nat.leb_le _ _) Hfit).
  - unfold truncate_tool_result_content. rewrite app_nil_r. by rewrite (proj2 (Nat.leb_le _ _)) by lia.
Qed.
Lemma limit_positive policy limit : policy ≫= truncation_policy_byte_limit = Some limit → (0 < limit)%Z.
Proof.
  destruct policy as [p|]; [|done]. simpl. unfold truncation_policy_byte_limit. case_goal; [done|].
  intros <-%(inj Some). assert (0 < tp_limit p)%Z by (by apply Z.leb_gt).
  assert (1 <= (tp_limit p * 6 + 4) / 5)%Z by (apply Z.div_le_lower_bound; lia).
  unfold U64_MAX. destruct (tp_mode p); lia.
Qed.

(** * The state and its commands *)

(** * Token estimates *)

Definition BYTES_PER_TOKEN : N := 4.
Definition IMAGE_TOKEN_ESTIMATE : N := 765.
Definition bytes_tokens (bytes : nat) : N := N.of_nat bytes / BYTES_PER_TOKEN.
Definition estimate_tokens (s : str) : N := bytes_tokens (utf8_len s).
Definition estimate_image_tokens (images : nat) : N := N.of_nat images * IMAGE_TOKEN_ESTIMATE.

Definition U64_LAST : N := 2 ^ 64 - 1.
Definition saturating_mul (a b : N) : N := N.min (a * b) U64_LAST.
Definition usage_percentage_truncated_u8 (used total : N) : N :=
  if (total =? 0)%N then 0 else N.min (saturating_mul used 100 / total) 100.
Definition free_tokens (total used : N) : N := total - used.
Definition exceeds_threshold (used context_window threshold_percent : N) : bool :=
  if (context_window =? 0)%N then false
  else (saturating_mul context_window threshold_percent <=? saturating_mul used 100)%N.
Definition exceeds_threshold_with_headroom (used context_window threshold_percent headroom : N) : bool :=
  if (context_window =? 0)%N then false
  else (saturating_mul context_window threshold_percent - saturating_mul headroom 100 <=? saturating_mul used 100)%N.

Definition part_text (p : ContentPart) : str := match p with PText t => t | PImage _ => [] end.
Definition estimate_item_tokens (item : ConversationItem) : option N :=
  match item with
  | CSystem content => Some (estimate_tokens content)
  | CUser u =>
      Some (bytes_tokens (sum_list (utf8_len ∘ part_text <$> user_content u))
            + estimate_image_tokens (length (List.filter is_image (user_content u))))%N
  | CAssistant a =>
      Some (bytes_tokens (utf8_len (assistant_content a) + sum_list (utf8_len ∘ arguments <$> tool_calls a)))
  | CToolResult t => Some (estimate_tokens (result_content t))
  | CBackend k => estimate_tokens <$> text_summary k
  | CReasoning r =>
      Some (bytes_tokens (utf8_len (reasoning_item_text r) + from_option utf8_len 0 (encrypted_content r)))
  end.
Definition sum_N (l : list N) : N := foldr N.add 0%N l.
Definition estimate_conversation_tokens (items : list ConversationItem) : option N :=
  sum_N <$> mapM estimate_item_tokens items.
Definition is_system (item : ConversationItem) : bool := match item with CSystem _ => true | _ => false end.
Definition is_user (item : ConversationItem) : bool := match item with CUser _ => true | _ => false end.
Definition estimate_messages_tokens (items : list ConversationItem) : option N :=
  estimate_conversation_tokens (List.filter (λ i, negb (is_system i)) items).

(** * Billing *)

Record UsageTotals := mkTotals {
  input_tokens : N; output_tokens : N; cached_read_tokens : N; cache_creation_tokens : N; ut_reasoning_tokens : N;
  model_calls : N; api_duration_ms : N; ut_cost : option Z; cost_missing_calls : N
}.
Definition no_usage : UsageTotals := mkTotals 0 0 0 0 0 0 0 None 0.
Definition sat_add (a b : N) : N := N.min (a + b) U64_LAST.
(** [i64::saturating_add] *)
Definition sat_add_i64 (a b : Z) : Z := Z.max (- 2 ^ 63) (Z.min (a + b) (2 ^ 63 - 1)).
Definition merge_cost_ticks (a b : option Z) : option Z :=
  match a, b with None, None => None | _, _ => Some (sat_add_i64 (default 0%Z a) (default 0%Z b)) end.
Definition from_call (u : TokenUsage) (duration : option N) (cost : option Z) : UsageTotals :=
  let cost := reported_cost_ticks cost in
  mkTotals (prompt_tokens u) (completion_tokens u) (cached_prompt_tokens u) (cache_creation_prompt_tokens u)
    (reasoning_tokens u) 1 (default 0%N duration) cost (if cost then 0 else 1).
Definition fold_totals (s o : UsageTotals) : UsageTotals :=
  mkTotals (sat_add (input_tokens s) (input_tokens o)) (sat_add (output_tokens s) (output_tokens o))
    (sat_add (cached_read_tokens s) (cached_read_tokens o)) (sat_add (cache_creation_tokens s) (cache_creation_tokens o))
    (sat_add (ut_reasoning_tokens s) (ut_reasoning_tokens o)) (sat_add (model_calls s) (model_calls o))
    (sat_add (api_duration_ms s) (api_duration_ms o)) (merge_cost_ticks (ut_cost s) (ut_cost o))
    (sat_add (cost_missing_calls s) (cost_missing_calls o)).
Definition usage_total_tokens (u : UsageTotals) : N := sat_add (input_tokens u) (output_tokens u).
Definition cost_is_partial (u : UsageTotals) : bool := bool_decide (is_Some (ut_cost u)) && (0 <? cost_missing_calls u)%N.

(** [by_model] in the order of insertion, as in an [IndexMap]. *)
Record UsageLedger := mkLedger {
  totals : UsageTotals; by_model : list (str * UsageTotals); main_loop_model_calls : N; incomplete : bool
}.
Definition empty_ledger : UsageLedger := mkLedger no_usage [] 0 false.
Fixpoint fold_model (model : str) (t : UsageTotals) (m : list (str * UsageTotals)) : list (str * UsageTotals) :=
  match m with
  | [] => [(model, fold_totals no_usage t)]
  | (k, v) :: m => if str_eqb model k then (k, fold_totals v t) :: m else (k, v) :: fold_model model t m
  end.
Definition fold_entry (l : UsageLedger) (e : str * UsageTotals) : UsageLedger :=
  mkLedger (fold_totals (totals l) e.2) (fold_model e.1 e.2 (by_model l)) (main_loop_model_calls l) (incomplete l).
Definition record_main_loop_call (model : str) (u : TokenUsage) (duration : option N) (cost : option Z) (l : UsageLedger)
  : UsageLedger :=
  let l := mkLedger (totals l) (by_model l) (sat_add (main_loop_model_calls l) 1) (incomplete l) in
  fold_entry l (model, from_call u duration cost).
Definition record_subagent (entries : list (str * UsageTotals)) (inc : bool) (l : UsageLedger) : UsageLedger :=
  let l := foldl fold_entry l entries in
  mkLedger (totals l) (by_model l) (main_loop_model_calls l) (incomplete l || inc).
Definition mark_incomplete (l : UsageLedger) : UsageLedger :=
  mkLedger (totals l) (by_model l) (main_loop_model_calls l) true.

(** * The state *)

Definition HARD_CLEAR_PLACEHOLDER : str := lit "[Tool result omitted " ++ [8212%N] ++ lit " too old]".


Record SamplingConfig := mkSampling {
  sc_model : str; context_window : N; sc_max_completion_tokens : option N; temperature : option spec_float;
  top_p : option spec_float; sc_reasoning_effort : option str
}.
Record PruningConfig := mkPruning {
  enabled : bool; keep_last_n_turns : nat; soft_trim_threshold : nat; soft_trim_head : nat; soft_trim_tail : nat;
  hard_clear_age_turns : nat
}.
Definition default_pruning : PruningConfig := mkPruning true 3 4000 1500 1500 10.
Record TurnCaptureState := mkCapture {
  turn_start_offset : nat; pre_replacement_messages : list ConversationItem; compaction_occurred : bool
}.

Record ChatState := mkChatState {
  conversation : list ConversationItem;
  sampling_config : SamplingConfig;
  catalog_identity : option str;
  st_prompt_index : nat;
  prompt_texts : list str;
  st_total_tokens : N;
  stream_start_ms : option Z;
  turn_start_ms : option Z;
  agent_edited_paths : gset str;
  last_compaction_prompt_index : option nat;
  credentials : str;
  estimated_tokens_since_model : N;
  estimate_at_last_response : N;
  last_turn_usage : option TokenUsage;
  prompt_usage : option UsageLedger;
  session_usage : UsageLedger;
  turn_capture : option TurnCaptureState;
  harness_trace_buffer : list ConversationItem;
  harness_trace_turns : list (list ConversationItem)
}.

Definition set_conversation (v : list ConversationItem) (s : ChatState) : ChatState :=
  mkChatState v (sampling_config s) (catalog_identity s) (st_prompt_index s) (prompt_texts s) (st_total_tokens s)
    (stream_start_ms s) (turn_start_ms s) (agent_edited_paths s) (last_compaction_prompt_index s)
    (credentials s) (estimated_tokens_since_model s) (estimate_at_last_response s) (last_turn_usage s)
    (prompt_usage s) (session_usage s) (turn_capture s) (harness_trace_buffer s)
    (harness_trace_turns s).
Definition set_sampling_config (v : SamplingConfig) (s : ChatState) : ChatState :=
  mkChatState (conversation s) v (catalog_identity s) (st_prompt_index s) (prompt_texts s) (st_total_tokens s)
    (stream_start_ms s) (turn_start_ms s) (agent_edited_paths s) (last_compaction_prompt_index s)
    (credentials s) (estimated_tokens_since_model s) (estimate_at_last_response s) (last_turn_usage s)
    (prompt_usage s) (session_usage s) (turn_capture s) (harness_trace_buffer s)
    (harness_trace_turns s).
Definition set_prompt_index (v : nat) (s : ChatState) : ChatState :=
  mkChatState (conversation s) (sampling_config s) (catalog_identity s) v (prompt_texts s) (st_total_tokens s)
    (stream_start_ms s) (turn_start_ms s) (agent_edited_paths s) (last_compaction_prompt_index s)
    (credentials s) (estimated_tokens_since_model s) (estimate_at_last_response s) (last_turn_usage s)
    (prompt_usage s) (session_usage s) (turn_capture s) (harness_trace_buffer s)
    (harness_trace_turns s).
Definition set_prompt_texts (v : list str) (s : ChatState) : ChatState :=
  mkChatState (conversation s) (sampling_config s) (catalog_identity s) (st_prompt_index s) v (st_total_tokens s)
    (stream_start_ms s) (turn_start_ms s) (agent_edited_paths s) (last_compaction_prompt_index s)
    (credentials s) (estimated_tokens_since_model s) (estimate_at_last_response s) (last_turn_usage s)
    (prompt_usage s) (session_usage s) (turn_capture s) (harness_trace_buffer s)
    (harness_trace_turns s).
Definition set_total_tokens (v : N) (s : ChatState) : ChatState :=
  mkChatState (conversation s) (sampling_config s) (catalog_identity s) (st_prompt_index s) (prompt_texts s) v
    (stream_start_ms s) (turn_start_ms s) (agent_edited_paths s) (last_compaction_prompt_index s)
    (credentials s) (estimated_tokens_since_model s) (estimate_at_last_response s) (last_turn_usage s)
    (prompt_usage s) (session_usage s) (turn_capture s) (harness_trace_buffer s)
    (harness_trace_turns s).
Definition set_stream_start_ms (v : option Z) (s : ChatState) : ChatState :=
  mkChatState (conversation s) (sampling_config s) (catalog_identity s) (st_prompt_index s) (prompt_texts s)
    (st_total_tokens s) v (turn_start_ms s) (agent_edited_paths s) (last_compaction_prompt_index s)
    (credentials s) (estimated_tokens_since_model s) (estimate_at_last_response s) (last_turn_usage s)
    (prompt_usage s) (session_usage s) (turn_capture s) (harness_trace_buffer s)
    (harness_trace_turns s).
Definition set_turn_start_ms (v : option Z) (s : ChatState) : ChatState :=
  mkChatState (conversation s) (sampling_config s) (catalog_identity s) (st_prompt_index s) (prompt_texts s)
    (st_total_tokens s) (stream_start_ms s) v (agent_edited_paths s) (last_compaction_prompt_index s)
    (credentials s) (estimated_tokens_since_model s) (estimate_at_last_response s) (last_turn_usage s)
    (prompt_usage s) (session_usage s) (turn_capture s) (harness_trace_buffer s)
    (harness_trace_turns s).
Definition set_agent_edited_paths (v : gset str) (s : ChatState) : ChatState :=
  mkChatState (conversation s) (sampling_config s) (catalog_identity s) (st_prompt_index s) (prompt_texts s)
    (st_total_tokens s) (stream_start_ms s) (turn_start_ms s) v (last_compaction_prompt_index s)
    (credentials s) (estimated_tokens_since_model s) (estimate_at_last_response s) (last_turn_usage s)
    (prompt_usage s) (session_usage s) (turn_capture s) (harness_trace_buffer s)
    (harness_trace_turns s).
Definition set_last_compaction_prompt_index (v : option nat) (s : ChatState) : ChatState :=
  mkChatState (conversation s) (sampling_config s) (catalog_identity s) (st_prompt_index s) (prompt_texts s)
    (st_total_tokens s) (stream_start_ms s) (turn_start_ms s) (agent_edited_paths s) v (credentials s)
    (estimated_tokens_since_model s) (estimate_at_last_response s) (last_turn_usage s) (prompt_usage s)
    (session_usage s) (turn_capture s) (harness_trace_buffer s) (harness_trace_turns s).
Definition set_credentials (v : str) (s : ChatState) : ChatState :=
  mkChatState (conversation s) (sampling_config s) (catalog_identity s) (st_prompt_index s) (prompt_texts s)
    (st_total_tokens s) (stream_start_ms s) (turn_start_ms s) (agent_edited_paths s)
    (last_compaction_prompt_index s) v (estimated_tokens_since_model s) (estimate_at_last_response s)
    (last_turn_usage s) (prompt_usage s) (session_usage s) (turn_capture s) (harness_trace_buffer s)
    (harness_trace_turns s).
Definition set_estimated_tokens_since_model (v : N) (s : ChatState) : ChatState :=
  mkChatState (conversation s) (sampling_config s) (catalog_identity s) (st_prompt_index s) (prompt_texts s)
    (st_total_tokens s) (stream_start_ms s) (turn_start_ms s) (agent_edited_paths s)
    (last_compaction_prompt_index s) (credentials s) v (estimate_at_last_response s)
    (last_turn_usage s) (prompt_usage s) (session_usage s) (turn_capture s) (harness_trace_buffer s)
    (harness_trace_turns s).
Definition set_estimate_at_last_response (v : N) (s : ChatState) : ChatState :=
  mkChatState (conversation s) (sampling_config s) (catalog_identity s) (st_prompt_index s) (prompt_texts s)
    (st_total_tokens s) (stream_start_ms s) (turn_start_ms s) (agent_edited_paths s)
    (last_compaction_prompt_index s) (credentials s) (estimated_tokens_since_model s) v
    (last_turn_usage s) (prompt_usage s) (session_usage s) (turn_capture s) (harness_trace_buffer s)
    (harness_trace_turns s).
Definition set_last_turn_usage (v : option TokenUsage) (s : ChatState) : ChatState :=
  mkChatState (conversation s) (sampling_config s) (catalog_identity s) (st_prompt_index s) (prompt_texts s)
    (st_total_tokens s) (stream_start_ms s) (turn_start_ms s) (agent_edited_paths s)
    (last_compaction_prompt_index s) (credentials s) (estimated_tokens_since_model s)
    (estimate_at_last_response s) v (prompt_usage s) (session_usage s) (turn_capture s)
    (harness_trace_buffer s) (harness_trace_turns s).
Definition set_prompt_usage (v : option UsageLedger) (s : ChatState) : ChatState :=
  mkChatState (conversation s) (sampling_config s) (catalog_identity s) (st_prompt_index s) (prompt_texts s)
    (st_total_tokens s) (stream_start_ms s) (turn_start_ms s) (agent_edited_paths s)
    (last_compaction_prompt_index s) (credentials s) (estimated_tokens_since_model s)
    (estimate_at_last_response s) (last_turn_usage s) v (session_usage s) (turn_capture s)
    (harness_trace_buffer s) (harness_trace_turns s).
Definition set_session_usage (v : UsageLedger) (s : ChatState) : ChatState :=
  mkChatState (conversation s) (sampling_config s) (catalog_identity s) (st_prompt_index s) (prompt_texts s)
    (st_total_tokens s) (stream_start_ms s) (turn_start_ms s) (agent_edited_paths s)
    (last_compaction_prompt_index s) (credentials s) (estimated_tokens_since_model s)
    (estimate_at_last_response s) (last_turn_usage s) (prompt_usage s) v (turn_capture s)
    (harness_trace_buffer s) (harness_trace_turns s).
Definition set_turn_capture (v : option TurnCaptureState) (s : ChatState) : ChatState :=
  mkChatState (conversation s) (sampling_config s) (catalog_identity s) (st_prompt_index s) (prompt_texts s)
    (st_total_tokens s) (stream_start_ms s) (turn_start_ms s) (agent_edited_paths s)
    (last_compaction_prompt_index s) (credentials s) (estimated_tokens_since_model s)
    (estimate_at_last_response s) (last_turn_usage s) (prompt_usage s) (session_usage s) v
    (harness_trace_buffer s) (harness_trace_turns s).
Definition set_harness_trace_buffer (v : list ConversationItem) (s : ChatState) : ChatState :=
  mkChatState (conversation s) (sampling_config s) (catalog_identity s) (st_prompt_index s) (prompt_texts s)
    (st_total_tokens s) (stream_start_ms s) (turn_start_ms s) (agent_edited_paths s)
    (last_compaction_prompt_index s) (credentials s) (estimated_tokens_since_model s)
    (estimate_at_last_response s) (last_turn_usage s) (prompt_usage s) (session_usage s)
    (turn_capture s) v (harness_trace_turns s).
Definition set_harness_trace_turns (v : list (list ConversationItem)) (s : ChatState) : ChatState :=
  mkChatState (conversation s) (sampling_config s) (catalog_identity s) (st_prompt_index s) (prompt_texts s)
    (st_total_tokens s) (stream_start_ms s) (turn_start_ms s) (agent_edited_paths s)
    (last_compaction_prompt_index s) (credentials s) (estimated_tokens_since_model s)
    (estimate_at_last_response s) (last_turn_usage s) (prompt_usage s) (session_usage s)
    (turn_capture s) (harness_trace_buffer s) v.

(** * Persistence and events *)

Inductive StrictAppendAck := Appended | AlreadyPresent (item : ConversationItem).
Inductive StrictAppendResult := AppendOk (ack : StrictAppendAck) | NotCommitted | CommittedErr (ack : StrictAppendAck) | Indeterminate.

Inductive PersistenceRecord :=
  | PMessage (item : ConversationItem)
  | PSwitch (item : ConversationItem) (outcome : StrictAppendResult)
  | PReplaceHistory (items : list ConversationItem)
  | PFlush.

(** What the result says the disk holds for the switch. *)
Definition authoritative (candidate : ConversationItem) (r : StrictAppendResult) : option ConversationItem :=
  match r with
  | AppendOk Appended | CommittedErr Appended => Some candidate
  | AppendOk (AlreadyPresent i) | CommittedErr (AlreadyPresent i) => Some i
  | NotCommitted | Indeterminate => None
  end.

Inductive ChatStateEvent :=
  | PromptIndexChanged (new_index : nat)
  | TokensUpdated (total : N)
  | ConversationReset (new_len : nat)
  | ImageBudget (body_bytes inline_images : nat) (needs_image_compaction : bool) (evicted body_bytes_after : nat).

Record Chat := mkChat {
  state : ChatState; pruning_config : PruningConfig; log : list PersistenceRecord; events : list ChatStateEvent
}.
Definition with_state (f : ChatState → ChatState) (c : Chat) : Chat :=
  mkChat (f (state c)) (pruning_config c) (log c) (events c).
Definition persist (r : PersistenceRecord) (c : Chat) : Chat :=
  mkChat (state c) (pruning_config c) (log c ++ [r]) (events c).
Definition send_event (e : ChatStateEvent) (c : Chat) : Chat :=
  mkChat (state c) (pruning_config c) (log c) (events c ++ [e]).
Definition replace_history (c : Chat) : Chat := persist (PReplaceHistory (conversation (state c))) c.

(** * Turn capture *)

Definition turn_tail (items : list ConversationItem) (offset : nat) : list ConversationItem := drop offset items.
Definition snapshot_turn_slice (s : ChatState) : ChatState :=
  match turn_capture s with
  | None => s
  | Some cap =>
      set_turn_capture
        (Some (mkCapture (turn_start_offset cap)
                 (pre_replacement_messages cap ++ turn_tail (conversation s) (turn_start_offset cap))
                 (compaction_occurred cap))) s
  end.
Definition rebase_turn_capture_offset (s : ChatState) : ChatState :=
  match turn_capture s with
  | None => s
  | Some cap =>
      set_turn_capture
        (Some (mkCapture (length (conversation s)) (pre_replacement_messages cap) (compaction_occurred cap))) s
  end.
Definition mark_compaction (is_compaction : bool) (s : ChatState) : ChatState :=
  match turn_capture s with
  | Some cap => set_turn_capture (Some (mkCapture (turn_start_offset cap) (pre_replacement_messages cap)
                                          (compaction_occurred cap || is_compaction))) s
  | None => s
  end.
Definition begin_turn_capture (s : ChatState) : ChatState :=
  set_turn_capture (Some (mkCapture (length (conversation s)) [] false)) s.
Definition take_turn_messages (s : ChatState) : option (list ConversationItem * bool) * ChatState :=
  ((λ cap, (pre_replacement_messages cap ++ turn_tail (conversation s) (turn_start_offset cap), compaction_occurred cap))
     <$> turn_capture s,
   set_turn_capture None s).

(** * Traces of the harness *)

Definition seal_harness_trace_turn (s : ChatState) : ChatState :=
  match harness_trace_buffer s with
  | [] => s
  | turn => set_harness_trace_buffer [] (set_harness_trace_turns (harness_trace_turns s ++ [turn]) s)
  end.
Definition take_harness_trace_turns (s : ChatState) : list (list ConversationItem) * ChatState :=
  let s := seal_harness_trace_turn s in (harness_trace_turns s, set_harness_trace_turns [] s).

(** * Mutations *)

(** [ChatState::new_with_catalog_identity] *)
Definition new_chat_state (items : list ConversationItem) (config : SamplingConfig) (identity : option str) : option ChatState :=
  let items := (dedup_duplicate_tool_results items).1 in
  let items := (repair_dangling_tool_calls items UserCancelled).1 in
  tokens ← estimate_conversation_tokens items;
  Some (mkChatState items config identity 0 [] tokens None None ∅ None [] 0 tokens None None empty_ledger None [] []).

Definition count_tokens (item : ConversationItem) (s : ChatState) : option ChatState :=
  n ← estimate_item_tokens item;
  Some (set_estimated_tokens_since_model (estimated_tokens_since_model s + n)%N s).
Definition append (item : ConversationItem) (c : Chat) : Chat :=
  with_state (λ s, set_conversation (conversation s ++ [item]) s) (persist (PMessage item) c).

Definition push_message (item : ConversationItem) (c : Chat) : option Chat :=
  s ← (if is_assistant item then Some (state c) else count_tokens item (state c));
  Some (append item (with_state (λ _, s) c)).

(** A policy limit as a number of bytes; beyond [usize::MAX] nothing is cut. *)
Definition byte_limit (policy : option TruncationPolicyConfig) : option nat :=
  Z.to_nat <$> (policy ≫= truncation_policy_byte_limit).
Definition bounded_item (item : ConversationItem) (policy : option TruncationPolicyConfig)
  (suffix : option TrustedPromptSuffix) : ConversationItem :=
  match item with
  | CToolResult t =>
      CToolResult (mkToolResult (tool_call_id t) (bounded_content (result_content t) (byte_limit policy) suffix)
                     (result_images t))
  | _ => item
  end.
Definition push_tool_result (item : ConversationItem) (policy : option TruncationPolicyConfig)
  (suffix : option TrustedPromptSuffix) (c : Chat) : option Chat :=
  push_message (bounded_item item policy suffix) c.

Definition ensure_conversation_integrity_with_reason (reason : DanglingToolCallReason) (c : Chat) : Chat :=
  let c := with_state snapshot_turn_slice c in
  let '(items, deduped) := dedup_duplicate_tool_results (conversation (state c)) in
  let '(items, repaired) := repair_dangling_tool_calls items reason in
  let c := with_state (set_conversation items) c in
  let c := if (0 <? repaired) || (0 <? deduped) then replace_history c else c in
  with_state rebase_turn_capture_offset c.

(** The scan from the end: how many turns back an item is. *)
Fixpoint clear_old (threshold turn : nat) (seen : bool) (reversed : list ConversationItem)
  : list ConversationItem * nat :=
  match reversed with
  | [] => ([], 0)
  | item :: rest =>
      match item with
      | CUser _ => let '(rest, n) := clear_old threshold (if seen then S turn else turn) true rest in (item :: rest, n)
      | CToolResult t =>
          let '(rest, n) := clear_old threshold turn seen rest in
          if turn <? threshold then (item :: rest, n)
          else if str_eqb (result_content t) HARD_CLEAR_PLACEHOLDER then (item :: rest, n)
          else (CToolResult (mkToolResult (tool_call_id t) HARD_CLEAR_PLACEHOLDER (result_images t)) :: rest, S n)
      | _ => let '(rest, n) := clear_old threshold turn seen rest in (item :: rest, n)
      end
  end.
Definition user_items (items : list ConversationItem) : nat := length (List.filter is_user items).
(** The size that is logged; a summary that panics does so here too. *)
Definition item_content_bytes (item : ConversationItem) : option nat :=
  match item with
  | CSystem content => Some (utf8_len content)
  | CUser u => Some (sum_list ((λ p, match p with PText t => utf8_len t | PImage url => utf8_len url end) <$> user_content u))
  | CAssistant a => Some (utf8_len (assistant_content a))
  | CToolResult t => Some (utf8_len (result_content t))
  | CBackend k => utf8_len <$> text_summary k
  | CReasoning r => Some (utf8_len (reasoning_item_text r) + from_option utf8_len 0 (encrypted_content r))
  end.
Definition conversation_content_bytes (items : list ConversationItem) : option nat :=
  sum_list <$> mapM item_content_bytes items.
Definition prune_retained_conversation (c : Chat) : option Chat :=
  let s := state c in
  let p := pruning_config c in
  if negb (enabled p) then Some c
  else if st_prompt_index s <? hard_clear_age_turns p then Some c
  else
    let synthetic_count := user_items (conversation s) - st_prompt_index s in
    _ ← conversation_content_bytes (conversation s);
    let '(reversed, cleared) :=
      clear_old (hard_clear_age_turns p + synthetic_count) 0 false (rev (conversation s)) in
    Some (if 0 <? cleared then replace_history (with_state (set_conversation (rev reversed)) c) else c).

Definition push_user_message_with_repair_reason (item : ConversationItem) (reason : DanglingToolCallReason) (c : Chat)
  : option Chat :=
  let c := ensure_conversation_integrity_with_reason reason c in
  s ← count_tokens item (state c);
  prune_retained_conversation (append item (with_state (λ _, s) c)).

Definition record_token_usage (total : N) (c : Chat) : option Chat :=
  n ← estimate_conversation_tokens (conversation (state c));
  Some (send_event (TokensUpdated total)
          (with_state (λ s, set_estimated_tokens_since_model 0 (set_estimate_at_last_response n (set_total_tokens total s))) c)).

Definition record_model_call_usage (model_id : option str) (u : TokenUsage) (duration : option N) (cost : option Z)
  (s : ChatState) : ChatState :=
  let key := match model_id with Some (_ :: _ as id) => id | _ => sc_model (sampling_config s) end in
  let record := record_main_loop_call key u duration cost in
  set_prompt_usage (Some (record (default empty_ledger (prompt_usage s)))) (set_session_usage (record (session_usage s)) s).
Definition record_subagent_usage (entries : list (str * UsageTotals)) (attribute_to_prompt inc : bool) (s : ChatState)
  : ChatState :=
  if is_nil entries && negb inc then s
  else
    let s := if attribute_to_prompt
             then set_prompt_usage (Some (record_subagent entries inc (default empty_ledger (prompt_usage s)))) s else s in
    set_session_usage (record_subagent entries inc (session_usage s)) s.
Definition mark_usage_incomplete (prompt session : bool) (s : ChatState) : ChatState :=
  let s := if prompt then set_prompt_usage (Some (mark_incomplete (default empty_ledger (prompt_usage s)))) s else s in
  if session then set_session_usage (mark_incomplete (session_usage s)) s else s.

Definition increment_prompt_index (c : Chat) : Chat :=
  let c := with_state (λ s, set_prompt_index (S (st_prompt_index s)) (set_prompt_usage None s)) c in
  send_event (PromptIndexChanged (st_prompt_index (state c))) c.

(** [f64::round] of a value that is not negative, then [as u64]. *)
Definition f64_round_u64 (x : spec_float) : N :=
  match x with
  | S754_finite false m e =>
      let v := if (0 <=? e)%Z then (Z.pos m * 2 ^ e)%Z else ((2 * Z.pos m + 2 ^ (- e)) / (2 * 2 ^ (- e)))%Z in
      N.min (Z.to_N v) U64_LAST
  | S754_infinity false => U64_LAST
  | _ => 0
  end.
Definition scaled_estimate (base pre_total at_last : N) : N :=
  let ratio := f64_div (f64_of_Z (Z.of_N pre_total)) (f64_of_Z (Z.of_N at_last)) in
  f64_round_u64 (SFmul 53 1024 (f64_of_Z (Z.of_N base)) ratio).

Definition replaced_total (is_compaction : bool) (base pre_total at_last : N) : N :=
  let n := if is_compaction && (0 <? pre_total)%N && (0 <? at_last)%N then scaled_estimate base pre_total at_last else base in
  if is_compaction && (0 <? pre_total)%N then N.min n pre_total else n.

Definition replace_conversation (items : list ConversationItem) (is_compaction : bool) (c : Chat) : option Chat :=
  let c := with_state (λ s, mark_compaction is_compaction (snapshot_turn_slice s)) c in
  let c := persist (PReplaceHistory items) c in
  base ← estimate_conversation_tokens items;
  let total := replaced_total is_compaction base (st_total_tokens (state c)) (estimate_at_last_response (state c)) in
  let c := with_state (λ s, rebase_turn_capture_offset (set_estimate_at_last_response base (set_total_tokens total
             (set_estimated_tokens_since_model 0 (set_conversation items s))))) c in
  Some (send_event (TokensUpdated total) (send_event (ConversationReset (length items)) c)).

Definition repair_history_cmd (dry_run : bool) (c : Chat) : option (Chat * HistoryRepairReport) :=
  let '(items, report) := repair_history (conversation (state c)) in
  if dry_run then Some (c, report)
  else if report_changed report then
    (** [mem::take] leaves an empty conversation behind while it is replaced *)
    c ← replace_conversation items false (with_state (set_conversation []) c); Some (c, report)
  else Some (c, report).

Definition trim_newlines (s : str) : str := trim_end_matches (λ ch, N.eqb ch NL || N.eqb ch CR) s.
Definition canonical_system_prompt_eq (a b : str) : bool := str_eqb (trim_newlines a) (trim_newlines b).
Definition replace_or_insert_system_head (items : list ConversationItem) (prompt : str) : list ConversationItem * bool :=
  match items with
  | CSystem content :: rest =>
      if canonical_system_prompt_eq content prompt then (items, false) else (CSystem prompt :: rest, true)
  | _ => (CSystem prompt :: items, true)
  end.
Definition replace_system_head (prompt : str) (c : Chat) : option (Chat * bool) :=
  let '(items, changed) := replace_or_insert_system_head (conversation (state c)) prompt in
  if changed then c ← replace_conversation items false c; Some (c, true) else Some (c, false).

Definition converge_working_directory_switch (generation : N) (item : ConversationItem) (s : ChatState) : option ChatState :=
  let is_it i := bool_decide (working_directory_switch_generation i = Some generation) in
  match position is_it (conversation s) with
  | Some i =>
      old ← conversation s !! i;
      old_tokens ← estimate_item_tokens old;
      new_tokens ← estimate_item_tokens item;
      let e := estimated_tokens_since_model s in
      let e := if (old_tokens <=? new_tokens)%N then (e + (new_tokens - old_tokens))%N else (e - (old_tokens - new_tokens))%N in
      Some (set_conversation (<[i := item]> (conversation s)) (set_estimated_tokens_since_model e s))
  | None =>
      n ← estimate_item_tokens item;
      Some (set_conversation (conversation s ++ [item])
              (set_estimated_tokens_since_model (estimated_tokens_since_model s + n)%N s))
  end.
Definition append_working_directory_switch (content : str) (generation : N) (outcome : StrictAppendResult) (c : Chat)
  : option Chat :=
  let candidate := working_directory_switch content generation in
  let c := persist (PSwitch candidate outcome) c in
  match authoritative candidate outcome with
  | Some item => s ← converge_working_directory_switch generation item (state c); Some (with_state (λ _, s) c)
  | None => Some c
  end.

(** ** Snapshots and rewind *)

Record ChatStateSnapshot := mkSnapshot {
  sn_conversation : list ConversationItem; sn_sampling_config : SamplingConfig; sn_catalog_identity : option str;
  sn_prompt_index : nat; sn_total_tokens : N; sn_estimate_at_last_response : N; sn_agent_edited_paths : gset str;
  sn_prompt_texts : list str; sn_stream_start_ms : option Z; sn_turn_start_ms : option Z;
  sn_last_compaction_prompt_index : option nat; sn_credentials : str
}.
Definition snapshot (s : ChatState) : ChatStateSnapshot :=
  mkSnapshot (conversation s) (sampling_config s) (catalog_identity s) (st_prompt_index s) (st_total_tokens s)
    (estimate_at_last_response s) (agent_edited_paths s) (prompt_texts s) (stream_start_ms s) (turn_start_ms s)
    (last_compaction_prompt_index s) (credentials s).
Definition restore_snapshot (snap : ChatStateSnapshot) (c : Chat) : option Chat :=
  let s := snapshot_turn_slice (state c) in
  at_last ← (if (0 <? sn_estimate_at_last_response snap)%N then Some (sn_estimate_at_last_response snap)
             else estimate_conversation_tokens (sn_conversation snap));
  let s := rebase_turn_capture_offset (set_conversation (sn_conversation snap) s) in
  Some (with_state (λ _, mkChatState (sn_conversation snap) (sn_sampling_config snap) (sn_catalog_identity snap)
    (sn_prompt_index snap) (sn_prompt_texts snap) (sn_total_tokens snap) (sn_stream_start_ms snap) (sn_turn_start_ms snap)
    (sn_agent_edited_paths snap) (sn_last_compaction_prompt_index snap) (sn_credentials snap) 0 at_last (last_turn_usage s)
    None (session_usage s) (turn_capture s) (harness_trace_buffer s) (harness_trace_turns s)) c).

(** The place of the n-th user item. *)
Fixpoint nth_user (target count i : nat) (items : list ConversationItem) : option nat :=
  match items with
  | [] => None
  | item :: items =>
      if is_user item then if count =? target then Some i else nth_user target (S count) (S i) items
      else nth_user target count (S i) items
  end.
Definition truncate_to_prompt_index (target : nat) (c : Chat) : option Chat :=
  let s := state c in
  if st_prompt_index s <=? target then Some c
  else
    let truncate_at := default (length (conversation s)) (nth_user target 0 0 (conversation s)) in
    let items := take truncate_at (conversation s) in
    n ← estimate_conversation_tokens items;
    let c := with_state (λ s, set_estimate_at_last_response n (set_estimated_tokens_since_model 0 (set_total_tokens n
               (set_prompt_index target (set_prompt_texts (take target (prompt_texts s)) (set_conversation items s)))))) c in
    Some (send_event (ConversationReset (length items)) (replace_history c)).
