(* ===== verification/ChatRequest.v ===== *)
(** The request that the chat state builds for the model
    (crates/codegen/xai-chat-state/src/actor/request_builder.rs), the queries of the actor
    (actor/queries.rs) and the dispatch of its commands (actor/mod.rs). *)
From Stdlib Require Import SpecFloat.
From stdpp Require Import base list strings gmap.
From S2P Require Import Prelude RustStr Json BreakerConfig Conversation ChatState.
Open Scope nat_scope.

(** * Pruning of the copy *)

Definition SOFT_TRIM_SEPARATOR : str := [NL; NL] ++ lit "[" ++ [8230%N] ++ lit "trimmed" ++ [8230%N] ++ lit "]" ++ [NL; NL].
Definition should_prune (total_tokens context_window : N) : bool := (context_window / 2 <? total_tokens)%N.
Definition safe_char_slice_tail (s : str) (count : nat) : str := if length s <=? count then s else drop (length s - count) s.

Definition prune_result (p : PruningConfig) (turn : nat) (t : ToolResultItem) : ToolResultItem :=
  let content := result_content t in
  if turn <? keep_last_n_turns p then t
  else if hard_clear_age_turns p <=? turn then mkToolResult (tool_call_id t) HARD_CLEAR_PLACEHOLDER (result_images t)
  else if soft_trim_threshold p <? length content
  then mkToolResult (tool_call_id t)
         (take (soft_trim_head p) content ++ SOFT_TRIM_SEPARATOR ++ safe_char_slice_tail content (soft_trim_tail p))
         (result_images t)
  else t.
Fixpoint prune_rev (p : PruningConfig) (turn : nat) (seen : bool) (reversed : list ConversationItem)
  : list ConversationItem :=
  match reversed with
  | [] => []
  | CUser u :: rest => CUser u :: prune_rev p (if seen then S turn else turn) true rest
  | CToolResult t :: rest => CToolResult (prune_result p turn t) :: prune_rev p turn seen rest
  | item :: rest => item :: prune_rev p turn seen rest
  end.
Definition prune_conversation (p : PruningConfig) (items : list ConversationItem) : list ConversationItem :=
  if enabled p then rev (prune_rev p 0 false (rev items)) else items.

(** * Images *)

Definition IMAGE_COMPACT_PLACEHOLDER : str :=
  lit "[An earlier image was removed to keep the request within its size limit and is no longer visible. Do not describe or reason about its contents from memory; ask the user to re-share it if you need to see it again.]".
Definition MAX_REQUEST_BYTES : N := 50 * 1024 * 1024.
Definition IMAGE_COMPACT_TRIGGER_BYTES : N := MAX_REQUEST_BYTES - 3 * 1024 * 1024.
Definition IMAGE_COMPACT_RECLAIM_TARGET_BYTES : N := MAX_REQUEST_BYTES / 2.
Definition IMAGE_PART_FRAME_BYTES : N := 25.
Definition url_bytes (url : str) : N := N.of_nat (utf8_len url).
Definition image_part_bytes (url : str) : N := (IMAGE_PART_FRAME_BYTES + url_bytes url)%N.

Definition user_parts (item : ConversationItem) : list ContentPart := match item with CUser u => user_content u | _ => [] end.
Definition inline_image_count (items : list ConversationItem) : nat :=
  sum_list ((λ i, length (List.filter is_image (user_parts i))) <$> items).

Class ChatEnv := {
  (** the length of the [serde_json] encoding of a conversation and of a content part *)
  conversation_json_bytes : list ConversationItem → N;
  part_json_bytes : ContentPart → N
}.

Definition blank_part (p : ContentPart) : ContentPart := match p with PImage _ => PImage [] | PText _ => p end.
Definition blank_item (item : ConversationItem) : ConversationItem :=
  match item with CUser u => CUser (with_content (blank_part <$> user_content u) u) | _ => item end.
Definition part_url_bytes (p : ContentPart) : N := match p with PImage url => url_bytes url | PText _ => 0 end.
Definition image_url_bytes (items : list ConversationItem) : N :=
  sum_N ((λ i, sum_N (part_url_bytes <$> user_parts i)) <$> items).

Section Env.
Context `{ChatEnv}.

Definition conversation_body_bytes (items : list ConversationItem) : N :=
  (conversation_json_bytes (blank_item <$> items) + image_url_bytes items)%N.

Definition placeholder : ContentPart := PText IMAGE_COMPACT_PLACEHOLDER.

(** The pass over the images, oldest first: an image goes while the body is above the target. *)
Fixpoint evict_parts (target running : N) (parts : list ContentPart) : list ContentPart * N * nat :=
  match parts with
  | [] => ([], running, 0)
  | PImage url :: parts =>
      if (running <=? target)%N
      then let '(rest, running, n) := evict_parts target running parts in (PImage url :: rest, running, n)
      else
        let running := (running - (image_part_bytes url - part_json_bytes placeholder))%N in
        let '(rest, running, n) := evict_parts target running parts in (placeholder :: rest, running, S n)
  | p :: parts => let '(rest, running, n) := evict_parts target running parts in (p :: rest, running, n)
  end.
Fixpoint evict_items (target running : N) (items : list ConversationItem) : list ConversationItem * N * nat :=
  match items with
  | [] => ([], running, 0)
  | CUser u :: items =>
      let '(parts, running, n) := evict_parts target running (user_content u) in
      let '(rest, running, m) := evict_items target running items in
      (CUser (with_content parts u) :: rest, running, n + m)
  | item :: items => let '(rest, running, n) := evict_items target running items in (item :: rest, running, n)
  end.
Definition compact_images_to_byte_budget (items : list ConversationItem) (current target : N)
  : list ConversationItem * N * nat :=
  if (current <=? target)%N then (items, current, 0) else evict_items target current items.

(** * Memory reminders *)

Definition MEMORY_CONTEXT_OPEN_TAG : str := lit "<memory-context>".
Definition trim_nl (s : str) : str := trim_end_matches (N.eqb NL) s.
Definition upsert_memory_reminder_text (system_prompt reminder : str) : str :=
  match split_once MEMORY_CONTEXT_OPEN_TAG system_prompt with
  | Some (before, _) =>
      match trim_nl before with [] => reminder | prefix => prefix ++ [NL; NL] ++ reminder end
  | None =>
      if str_eqb (trim_end system_prompt) reminder then system_prompt
      else if is_nil system_prompt then reminder
      else trim_nl system_prompt ++ [NL; NL] ++ reminder
  end.
Definition inject_memory_reminder (items : list ConversationItem) (reminder : str) : list ConversationItem * bool :=
  let reminder := trim reminder in
  if is_nil reminder then (items, false)
  else match items with
       | CSystem content :: rest =>
           let updated := upsert_memory_reminder_text content reminder in
           (CSystem updated :: rest, negb (str_eqb content updated))
       | _ => (CSystem reminder :: items, true)
       end.

(** * The request *)

Record ConversationRequest := mkRequest {
  rq_items : list ConversationItem; rq_tools : list json; rq_model : option str; rq_temperature : option spec_float;
  rq_max_output_tokens : option N; rq_top_p : option spec_float; x_grok_conv_id : option str; x_grok_req_id : option str;
  rq_reasoning_effort : option str
}.

(** The memory reminder is stored first when the caller asks for it. *)
Definition store_reminder (memory_reminder : option str) (persist_memory_reminder : bool) (c : Chat) : Chat * option str :=
  match memory_reminder with
  | Some reminder =>
      if persist_memory_reminder then
        let c := with_state snapshot_turn_slice c in
        let '(items, injected) := inject_memory_reminder (conversation (state c)) reminder in
        let c := with_state (set_conversation items) c in
        let c := if injected then replace_history c else c in
        (with_state rebase_turn_capture_offset c, if injected then None else memory_reminder)
      else (c, memory_reminder)
  | None => (c, None)
  end.

Definition request_items (memory_reminder : option str) (c : Chat) : list ConversationItem * ChatStateEvent :=
  let s := state c in
  let body := conversation_body_bytes (conversation s) in
  let inline_images := inline_image_count (conversation s) in
  let needs_image_compaction := (IMAGE_COMPACT_TRIGGER_BYTES <=? body)%N in
  let '(items, after, evicted) :=
    if needs_image_compaction
    then compact_images_to_byte_budget (conversation s) body IMAGE_COMPACT_RECLAIM_TARGET_BYTES
    else (conversation s, body, 0) in
  let items := if should_prune (st_total_tokens s) (context_window (sampling_config s))
               then prune_conversation (pruning_config c) items else items in
  let items := match memory_reminder with Some r => (inject_memory_reminder items r).1 | None => items end in
  (items, ImageBudget (N.to_nat body) inline_images needs_image_compaction evicted (N.to_nat after)).

Definition build_conversation_request (tools : list json) (memory_reminder : option str) (persist_memory_reminder : bool)
  (conv_id req_id : str) (c : Chat) : Chat * ConversationRequest :=
  let '(c, memory_reminder) := store_reminder memory_reminder persist_memory_reminder c in
  let '(items, budget) := request_items memory_reminder c in
  let c := if 0 <? inline_image_count (conversation (state c)) then send_event budget c else c in
  let config := sampling_config (state c) in
  (c, mkRequest items tools (Some (sc_model config)) (temperature config) (sc_max_completion_tokens config) (top_p config)
        (Some conv_id) (Some req_id) (sc_reasoning_effort config)).

(** * Queries *)

Definition get_notification_meta (s : ChatState) : option Z * option Z := (stream_start_ms s, turn_start_ms s).
Definition check_auto_compact_needed (threshold_percent : N) (s : ChatState) : option (N * N * N) :=
  let cw := context_window (sampling_config s) in
  if exceeds_threshold (st_total_tokens s) cw threshold_percent
  then Some (st_total_tokens s, cw, usage_percentage_truncated_u8 (st_total_tokens s) cw) else None.
Definition get_last_model_metadata (s : ChatState) : option str * option str :=
  match assistant (conversation s) with Some a => (model_id a, model_fingerprint a) | None => (None, None) end.
Definition has_text (a : AssistantItem) : bool := negb (is_nil (trim (assistant_content a))).
Definition get_last_assistant_text (s : ChatState) : option str :=
  head (omap (λ i, a ← assistant_of i; if has_text a then Some (assistant_content a) else None) (rev (conversation s))).
Definition starts_turn (u : UserItem) : bool :=
  bool_decide (is_Some (prompt_index u))
  || match synthetic_reason u with None => true | Some r => starts_prompt_turn r end.
Fixpoint last_text_in_turn (reversed : list ConversationItem) : option str :=
  match reversed with
  | [] => None
  | CAssistant a :: rest => if has_text a then Some (assistant_content a) else last_text_in_turn rest
  | CUser u :: rest => if starts_turn u then None else last_text_in_turn rest
  | _ :: rest => last_text_in_turn rest
  end.
Definition get_last_assistant_text_in_turn (s : ChatState) : option str := last_text_in_turn (rev (conversation s)).
Definition first_part_text (i : ConversationItem) : option str :=
  match i with CUser u => match user_content u with PText t :: _ => Some t | _ => None end | _ => None end.
Definition get_first_user_text (s : ChatState) : option str := head (omap first_part_text (conversation s)).
Definition get_conversation_counts (s : ChatState) : nat * nat * nat * nat :=
  (length (conversation s), user_items (conversation s), length (List.filter is_assistant (conversation s)),
   length (List.filter is_result (conversation s))).
Definition get_system_message (s : ChatState) : option ConversationItem := List.find is_system (conversation s).
Definition get_estimated_total_tokens (s : ChatState) : N := (st_total_tokens s + estimated_tokens_since_model s)%N.

(** * Commands *)

Inductive ChatStateCommand :=
  | PushUserMessage (item : ConversationItem)
  | PushUserMessageWithRepairReason (item : ConversationItem) (reason : DanglingToolCallReason)
  | AppendWorkingDirectorySwitch (content : str) (generation : N) (outcome : StrictAppendResult)
  | PushAssistantResponse (item : ConversationItem)
  | PushToolResult (item : ConversationItem) (policy : option TruncationPolicyConfig) (suffix : option TrustedPromptSuffix)
  | RecordTokenUsage (total : N)
  | RecordLastTurnUsage (u : TokenUsage)
  | RecordModelCallUsage (model_id : option str) (u : TokenUsage) (duration : option N) (cost : option Z)
  | RecordSubagentUsage (entries : list (str * UsageTotals)) (attribute_to_prompt inc : bool)
  | MarkUsageIncomplete (prompt session : bool)
  | IncrementPromptIndex
  | UpdateSamplingConfig (config : SamplingConfig)
  | UpdateSamplingConfigAndCredentials (config : SamplingConfig) (credentials : str)
  | RecordAgentEditedPath (path : str)
  | RecordStreamStart (timestamp_ms : Z)
  | RecordTurnStart (timestamp_ms : Z)
  | ReplaceConversation (items : list ConversationItem) (is_compaction : bool)
  | RepairHistory (dry_run turn_active : bool)
  | ReplaceSystemHead (prompt : str)
  | CachePromptText (text : str)
  | RecordCompactionAt (prompt_index : nat)
  | Flush
  | UpdateCredentials (credentials : str)
  | RestoreSnapshot (snap : ChatStateSnapshot)
  | BeginTurnCapture
  | AppendHarnessTraceItems (items : list ConversationItem)
  | FlushHarnessTraceTurn
  | RepairDanglingAfterHarnessHalt (class : str)
  | BuildConversationRequest (tools : list json) (memory_reminder : option str) (persist_memory_reminder : bool)
      (conv_id req_id : str)
  | TruncateToPromptIndex (target : nat)
  | TakeTurnMessages
  | TakeHarnessTraceTurns
  (** the queries, which read the state and change nothing *)
  | Query.

Inductive ChatReply :=
  | NoReply
  | ReplyRequest (r : ConversationRequest)
  | ReplyCapture (r : option (list ConversationItem * bool))
  | ReplyTraces (r : list (list ConversationItem))
  | ReplyRepair (r : option HistoryRepairReport)
  | ReplyChanged (b : bool).

Definition quiet_update (f : ChatState → ChatState) (c : Chat) : option (Chat * ChatReply) := Some (with_state f c, NoReply).
Definition no_reply (r : option Chat) : option (Chat * ChatReply) := (λ c, (c, NoReply)) <$> r.

Definition handle_command (cmd : ChatStateCommand) (c : Chat) : option (Chat * ChatReply) :=
  match cmd with
  | PushUserMessage item => no_reply (push_user_message_with_repair_reason item UserCancelled c)
  | PushUserMessageWithRepairReason item reason => no_reply (push_user_message_with_repair_reason item reason c)
  | AppendWorkingDirectorySwitch content generation outcome =>
      no_reply (append_working_directory_switch content generation outcome c)
  | PushAssistantResponse item => no_reply (push_message item c)
  | PushToolResult item policy suffix => no_reply (push_tool_result item policy suffix c)
  | RecordTokenUsage total => no_reply (record_token_usage total c)
  | RecordLastTurnUsage u => quiet_update (set_last_turn_usage (Some u)) c
  | RecordModelCallUsage model_id u duration cost => quiet_update (record_model_call_usage model_id u duration cost) c
  | RecordSubagentUsage entries attribute inc => quiet_update (record_subagent_usage entries attribute inc) c
  | MarkUsageIncomplete prompt session => quiet_update (mark_usage_incomplete prompt session) c
  | IncrementPromptIndex => Some (increment_prompt_index c, NoReply)
  | UpdateSamplingConfig config => quiet_update (set_sampling_config config) c
  | UpdateSamplingConfigAndCredentials config creds => quiet_update (λ s, set_credentials creds (set_sampling_config config s)) c
  | RecordAgentEditedPath path => quiet_update (λ s, set_agent_edited_paths ({[path]} ∪ agent_edited_paths s) s) c
  | RecordStreamStart t => quiet_update (set_stream_start_ms (Some t)) c
  | RecordTurnStart t => quiet_update (set_turn_start_ms (Some t)) c
  | ReplaceConversation items is_compaction => no_reply (replace_conversation items is_compaction c)
  | RepairHistory dry_run turn_active =>
      if turn_active then Some (c, ReplyRepair None)
      else (λ r, (r.1, ReplyRepair (Some r.2))) <$> repair_history_cmd dry_run c
  | ReplaceSystemHead prompt => (λ r, (r.1, ReplyChanged r.2)) <$> replace_system_head prompt c
  | CachePromptText text => quiet_update (λ s, set_prompt_texts (prompt_texts s ++ [text]) s) c
  | RecordCompactionAt i => quiet_update (set_last_compaction_prompt_index (Some i)) c
  | Flush => Some (persist PFlush c, NoReply)
  | UpdateCredentials creds => quiet_update (set_credentials creds) c
  | RestoreSnapshot snap => no_reply (restore_snapshot snap c)
  | BeginTurnCapture => quiet_update begin_turn_capture c
  | AppendHarnessTraceItems items => quiet_update (λ s, set_harness_trace_buffer (harness_trace_buffer s ++ items) s) c
  | FlushHarnessTraceTurn => quiet_update seal_harness_trace_turn c
  | RepairDanglingAfterHarnessHalt class => Some (ensure_conversation_integrity_with_reason (HarnessHalted class) c, NoReply)
  | BuildConversationRequest tools reminder persist_reminder conv_id req_id =>
      let '(c, request) := build_conversation_request tools reminder persist_reminder conv_id req_id
                             (ensure_conversation_integrity_with_reason UserCancelled c) in
      Some (c, ReplyRequest request)
  | TruncateToPromptIndex target =>
      c ← truncate_to_prompt_index target c;
      Some (with_state (λ s, set_prompt_usage None (set_turn_capture None s)) c, NoReply)
  | TakeTurnMessages => Some (with_state (λ s, (take_turn_messages s).2) c, ReplyCapture (take_turn_messages (state c)).1)
  | TakeHarnessTraceTurns =>
      Some (with_state (λ s, (take_harness_trace_turns s).2) c, ReplyTraces (take_harness_trace_turns (state c)).1)
  | Query => Some (c, NoReply)
  end.

(** [spawn_with_pruning_and_catalog_identity] *)
Definition spawn (items : list ConversationItem) (config : SamplingConfig) (identity : option str) (pruning : PruningConfig)
  : option Chat :=
  s ← new_chat_state items config identity; Some (mkChat s pruning [] []).

Fixpoint run_commands (cmds : list ChatStateCommand) (c : Chat) : option Chat :=
  match cmds with
  | [] => Some c
  | cmd :: cmds => r ← handle_command cmd c; run_commands cmds r.1
  end.
End Env.
