(* ===== verification/ChatSafety.v ===== *)
(** What the chat state keeps: the log on disk replays to the conversation in memory, tool
    results stay within their limit, and a turn capture returns what the turn pushed. *)
From stdpp Require Import base list strings gmap.
From S2P Require Import Prelude RustStr Json BreakerConfig Conversation ConversationPairing ChatState ChatRequest.
Open Scope nat_scope.

(** * The integrity pass *)

Lemma count_tokens_conversation item s s' : count_tokens item s = Some s' → conversation s' = conversation s ∧ turn_capture s' = turn_capture s.
Proof. unfold count_tokens. destruct (estimate_item_tokens item); simpl; [|done]. by intros <-%(inj Some). Qed.
Lemma snapshot_conversation s : conversation (snapshot_turn_slice s) = conversation s.
Proof. unfold snapshot_turn_slice. by destruct (turn_capture s). Qed.
Lemma rebase_conversation s : conversation (rebase_turn_capture_offset s) = conversation s.
Proof. unfold rebase_turn_capture_offset. by destruct (turn_capture s). Qed.
Lemma mark_conversation b s : conversation (mark_compaction b s) = conversation s.
Proof. unfold mark_compaction. by destruct (turn_capture s). Qed.

Lemma dedup_length on items : length (dedup on items) ≤ length items.
Proof.
  revert on. induction items as [|item items IH]; intros on; [done|].
  destruct item; simpl; try (apply le_n_S, IH). specialize (IH on). destruct (on && _); simpl; lia.
Qed.
Lemma dedup_same on items : length (dedup on items) = length items → dedup on items = items.
Proof.
  revert on. induction items as [|item items IH]; intros on; [done|]. pose proof (dedup_length on items).
  destruct item; simpl; try (intros [= Hl]; by rewrite IH). destruct (on && _); simpl; [lia|]. intros [= Hl]. by rewrite IH.
Qed.
Lemma fill_nothing reason pending items : missing pending items = 0 → fill reason pending items = items.
Proof.
  revert pending. induction items as [|item items IH]; intros pending; simpl; [by destruct pending|].
  destruct item; try (intros [->%nil_length_inv Hm]%Nat.eq_add_0; simpl; by rewrite IH).
  intros Hm. by rewrite IH.
Qed.

(** What the pass makes of a conversation. *)
Definition mended (reason : DanglingToolCallReason) (items : list ConversationItem) : list ConversationItem :=
  fill reason [] (dedup false items).

Lemma integrity_pass reason c :
  let c' := ensure_conversation_integrity_with_reason reason c in
  conversation (state c') = mended reason (conversation (state c))
  ∧ turn_capture (state c') = turn_capture (rebase_turn_capture_offset (set_conversation (mended reason (conversation (state c)))
                                (snapshot_turn_slice (state c))))
  ∧ pruning_config c' = pruning_config c
  ∧ (log c' = log c ++ [PReplaceHistory (conversation (state c'))]
     ∨ log c' = log c ∧ conversation (state c') = conversation (state c)).
Proof.
  unfold ensure_conversation_integrity_with_reason. cbn [with_state state].
  rewrite (snapshot_conversation (state c)). set (items := conversation (state c)).
  destruct (dedup_duplicate_spec items) as [H1 H2]. destruct (dedup_duplicate_tool_results items) as [d n]. cbn [fst snd] in *. subst d.
  pose proof (repair_dangling_fill reason (dedup false items)) as H3. pose proof (repair_dangling_count reason (dedup false items)) as H4.
  destruct (repair_dangling_tool_calls (dedup false items) reason) as [f m]. cbn [fst snd] in *. subst f.
  fold (mended reason items). destruct ((0 <? m) || (0 <? n)) eqn:Hch; cbn [with_state state replace_history persist log pruning_config];
    rewrite rebase_conversation; split_and!; try done; [by left|right].
  split; [done|]. apply orb_false_iff in Hch as [Hm%Nat.ltb_ge Hn%Nat.ltb_ge].
  assert (Hd : dedup false items = items) by (apply dedup_same; lia).
  cbn. unfold mended. rewrite Hd in *. apply fill_nothing. lia.
Qed.

(** * The disk *)

Definition committed (r : StrictAppendResult) : bool :=
  match r with AppendOk Appended | CommittedErr Appended => true | _ => false end.
Definition replay_record (stored : list ConversationItem) (r : PersistenceRecord) : list ConversationItem :=
  match r with
  | PMessage item => stored ++ [item]
  | PSwitch item outcome => if committed outcome then stored ++ [item] else stored
  | PReplaceHistory items => items
  | PFlush => stored
  end.
(** The history file after the records of the log. *)
Definition disk (stored : list ConversationItem) (log : list PersistenceRecord) : list ConversationItem :=
  foldl replay_record stored log.

Definition is_switch (generation : N) (i : ConversationItem) : bool :=
  bool_decide (working_directory_switch_generation i = Some generation).
(** The outcome that a store which keeps one item for each switch reports. *)
Definition honest_ack (stored : list ConversationItem) (generation : N) (ack : StrictAppendAck) : Prop :=
  match ack with
  | Appended => position (is_switch generation) stored = None
  | AlreadyPresent i => ∃ k, position (is_switch generation) stored = Some k ∧ stored !! k = Some i
  end.
Definition honest_storage (stored : list ConversationItem) (cmd : ChatStateCommand) : Prop :=
  match cmd with
  | AppendWorkingDirectorySwitch _ generation (AppendOk ack | CommittedErr ack) => honest_ack stored generation ack
  | AppendWorkingDirectorySwitch _ _ NotCommitted => True
  | AppendWorkingDirectorySwitch _ _ Indeterminate => False
  | RestoreSnapshot _ => False
  | _ => True
  end.

Section Disk.
Context `{ChatEnv} (stored : list ConversationItem).

(** The states of an actor that was spawned on [stored]. *)
Inductive session (start : Chat) : Chat → Prop :=
  | session_start : session start start
  | session_step c cmd c' reply :
      session start c → honest_storage (disk stored (log c)) cmd →
      handle_command cmd c = Some (c', reply) → session start c'.

Definition synced (c : Chat) : Prop := disk stored (log c) = conversation (state c).

Lemma disk_persist r c : disk stored (log (persist r c)) = replay_record (disk stored (log c)) r.
Proof. unfold disk. simpl. by rewrite foldl_app. Qed.
Lemma synced_quiet f c : conversation (f (state c)) = conversation (state c) → synced c → synced (with_state f c).
Proof. unfold synced. simpl. by intros ->. Qed.
Lemma synced_send e c : synced c → synced (send_event e c).
Proof. done. Qed.
Lemma synced_append item c : synced c → synced (append item c).
Proof. unfold synced, append. intros Hs. cbn [with_state log]. rewrite disk_persist, Hs. done. Qed.
Lemma synced_replace c : synced (replace_history c).
Proof. unfold synced, replace_history. by rewrite disk_persist. Qed.


Lemma synced_push item c c' : push_message item c = Some c' → synced c → synced c'.
Proof.
  unfold push_message. intros Hp Hs. destruct (if is_assistant item then _ else _) as [s|] eqn:Hc; [|done].
  simpl in Hp. apply (inj Some) in Hp as <-. apply synced_append, synced_quiet; [|done].
  destruct (is_assistant item); [congruence|]. by apply count_tokens_conversation in Hc as [-> _].
Qed.
Lemma synced_integrity reason c : synced c → synced (ensure_conversation_integrity_with_reason reason c).
Proof.
  intros Hs. unfold synced. destruct (integrity_pass reason c) as (_ & _ & _ & [-> | [-> ->]]); [|done].
  unfold disk. by rewrite foldl_app.
Qed.
Lemma synced_prune c c' : prune_retained_conversation c = Some c' → synced c → synced c'.
Proof.
  unfold prune_retained_conversation. do 2 (case_goal; [by intros [= <-]|]). intros (n & _ & Hp)%bind_Some Hs.
  destruct (clear_old _ _ _ _) as [reversed cleared]. apply (inj Some) in Hp as <-. case_goal; [apply synced_replace|done].
Qed.
Lemma synced_push_user item reason c c' :
  push_user_message_with_repair_reason item reason c = Some c' → synced c → synced c'.
Proof.
  unfold push_user_message_with_repair_reason. intros (s & Hc & Hp)%bind_Some Hs.
  eapply synced_prune; [exact Hp|]. apply synced_append, synced_quiet; [|by apply synced_integrity].
  by apply count_tokens_conversation in Hc as [-> _].
Qed.

Lemma replaced items b c c' : replace_conversation items b c = Some c' →
  conversation (state c') = items ∧ log c' = log c ++ [PReplaceHistory items].
Proof.
  unfold replace_conversation. destruct (estimate_conversation_tokens items); simpl; [|done]. intros <-%(inj Some).
  simpl. by rewrite rebase_conversation.
Qed.
Lemma synced_replace_conversation items b c c' : replace_conversation items b c = Some c' → synced c'.
Proof. intros [H1 H2]%replaced. unfold synced, disk. by rewrite H2, foldl_app, H1. Qed.
Lemma synced_repair_history dry c c' report : repair_history_cmd dry c = Some (c', report) → synced c → synced c'.
Proof.
  unfold repair_history_cmd. destruct (repair_history _) as [items r]. repeat case_goal; try (by intros [= <- _]).
  destruct (replace_conversation items false _) as [c1|] eqn:Hr; [|done]. intros [= <- _] _. by eapply synced_replace_conversation.
Qed.
Lemma synced_system_head prompt c c' b : replace_system_head prompt c = Some (c', b) → synced c → synced c'.
Proof.
  unfold replace_system_head. destruct (replace_or_insert_system_head _ _) as [items []]; [|by intros [= <- _]].
  destruct (replace_conversation items false c) as [c1|] eqn:Hr; [|done]. intros [= <- _] _. by eapply synced_replace_conversation.
Qed.
Lemma synced_truncate target c c' : truncate_to_prompt_index target c = Some c' → synced c → synced c'.
Proof.
  unfold truncate_to_prompt_index. case_goal; [by intros [= <-]|]. destruct (estimate_conversation_tokens _); [|done].
  intros [= <-] _. apply synced_send, synced_replace.
Qed.
Lemma inject_unchanged items reminder items' : inject_memory_reminder items reminder = (items', false) → items' = items.
Proof.
  unfold inject_memory_reminder. case_goal; [by intros [= <-]|]. destruct items as [|[] items]; try (by intros [= ]).
  intros [= <- Hc]. apply negb_false_iff, str_eqb_eq in Hc. by rewrite <-Hc.
Qed.
Lemma synced_reminder reminder keep c : synced c → synced (store_reminder reminder keep c).1.
Proof.
  intros Hs. unfold store_reminder. destruct reminder as [r|]; [|done]. destruct keep; [|done].
  cbn [with_state state]. rewrite (snapshot_conversation (state c)).
  destruct (inject_memory_reminder _ r) as [items injected] eqn:Hi. cbn [fst]. unfold synced. cbn [with_state state log].
  rewrite rebase_conversation. destruct injected; [by apply synced_replace|]. cbn [with_state state log].
  by apply inject_unchanged in Hi as ->.
Qed.
Lemma synced_build tools reminder keep conv_id req_id c :
  synced c → synced (build_conversation_request tools reminder keep conv_id req_id c).1.
Proof.
  intros Hs. unfold build_conversation_request. pose proof (synced_reminder reminder keep c Hs) as Hr.
  destruct (store_reminder reminder keep c) as [c1 r]. destruct (request_items r c1) as [items budget]. simpl in *.
  by destruct (0 <? _).
Qed.

Lemma synced_switch content generation outcome c c' :
  append_working_directory_switch content generation outcome c = Some c' →
  honest_storage (disk stored (log c)) (AppendWorkingDirectorySwitch content generation outcome) → synced c → synced c'.
Proof.
  unfold append_working_directory_switch. intros Ha Hh Hs.
  set (candidate := working_directory_switch content generation) in *.
  destruct (authoritative candidate outcome) as [item|] eqn:Hau.
  2: { apply (inj Some) in Ha as <-. unfold synced. rewrite disk_persist, Hs. by destruct outcome as [[]| |[]|]. }
  destruct (converge_working_directory_switch generation item (state c)) as [s|] eqn:Hcv; simpl in Ha, Hcv; [|by rewrite Hcv in Ha].
  rewrite Hcv in Ha. apply (inj Some) in Ha as <-.
  assert (Hk : ∃ ack, honest_ack (conversation (state c)) generation ack
               ∧ (outcome = AppendOk ack ∨ outcome = CommittedErr ack)).
  { rewrite <-Hs. destruct outcome as [ack| |ack|]; simpl in Hau, Hh; try done; exists ack; auto. }
  destruct Hk as (ack & Hack & Ho). assert (Hauth : match ack with Appended => candidate | AlreadyPresent i => i end = item)
    by (destruct Ho as [-> | ->], ack; by simplify_eq/=).
  assert (Hcm : committed outcome = match ack with Appended => true | _ => false end) by (destruct Ho as [-> | ->]; by destruct ack).
  unfold synced. cbn [with_state state log]. rewrite disk_persist, Hs. simpl. rewrite Hcm. clear Hau Ho Hcm.
  unfold converge_working_directory_switch in Hcv. fold (is_switch generation) in Hcv. unfold honest_ack in Hack.
  destruct ack as [|i].
  - rewrite Hack in Hcv. destruct (estimate_item_tokens item); [|done]. apply (inj Some) in Hcv as <-. by subst item.
  - destruct Hack as (k & Hk & Hi). rewrite Hk in Hcv. rewrite Hi in Hcv. simpl in Hcv.
    destruct (estimate_item_tokens i); [|done]. simpl in Hcv. destruct (estimate_item_tokens item); [|done].
    apply (inj Some) in Hcv as <-. simpl. subst item. by rewrite list_insert_id.
Qed.

Lemma synced_step cmd c c' reply :
  handle_command cmd c = Some (c', reply) → honest_storage (disk stored (log c)) cmd → synced c → synced c'.
Proof.
  intros Hc Hh Hs. destruct cmd; cbn [handle_command] in Hc; unfold no_reply, quiet_update in Hc;
    try (apply (inj Some) in Hc; injection Hc as <- _; first [done|by apply synced_quiet]);
    try (apply fmap_Some in Hc as (c1 & Hp & [= -> _]); first [done|by eapply synced_push_user|by eapply synced_push
      |by eapply synced_switch|by eapply synced_replace_conversation]).
  - apply fmap_Some in Hc as (c1 & Hp & [= -> _]). unfold record_token_usage in Hp.
    destruct (estimate_conversation_tokens _); [|done]. by simplify_eq/=.
  - apply (inj Some) in Hc. injection Hc as <- _. apply synced_quiet; [|done]. unfold record_subagent_usage. by repeat case_goal.
  - apply (inj Some) in Hc. injection Hc as <- _. apply synced_quiet; [|done]. unfold mark_usage_incomplete. by repeat case_goal.
  - case_hyp Hc; [by simplify_eq|]. apply fmap_Some in Hc as ([c1 r] & Hp & [= -> _]). by eapply synced_repair_history.
  - apply fmap_Some in Hc as ([c1 r] & Hp & [= -> _]). by eapply synced_system_head.
  - apply (inj Some) in Hc. injection Hc as <- _. unfold synced. by rewrite disk_persist.
  - apply (inj Some) in Hc. injection Hc as <- _. apply synced_quiet; [|done]. unfold seal_harness_trace_turn. by case_goal.
  - apply (inj Some) in Hc. injection Hc as <- _. by apply synced_integrity.
  - pose proof (synced_build tools memory_reminder persist_memory_reminder conv_id req_id _ (synced_integrity UserCancelled c Hs)) as Hb.
    destruct (build_conversation_request _ _ _ _ _ _) as [c1 r]. by simplify_eq.
  - apply bind_Some in Hc as (c1 & Hp & [= <- _]). apply synced_quiet; [done|]. by eapply synced_truncate.
  - apply (inj Some) in Hc. injection Hc as <- _. apply synced_quiet; [|done].
    unfold take_harness_trace_turns, seal_harness_trace_turn. simpl. by repeat case_goal.
Qed.

Fixpoint honest_run (cmds : list ChatStateCommand) (c : Chat) : Prop :=
  match cmds with
  | [] => True
  | cmd :: cmds =>
      honest_storage (disk stored (log c)) cmd
      ∧ match handle_command cmd c with Some r => honest_run cmds r.1 | None => False end
  end.
Lemma session_run cmds start c c' :
  session start c → honest_run cmds c → run_commands cmds c = Some c' → session start c'.
Proof.
  revert c. induction cmds as [|cmd cmds IH]; intros c Hs Hh Hr; simpl in *; [by simplify_eq|].
  destruct Hh as [Hh Hrest]. destruct (handle_command cmd c) as [[c1 r]|] eqn:Hc; [|done].
  apply (IH c1); [by eapply session_step|done|done].
Qed.

(** C17: The history on disk is the conversation in memory, for a session that was spawned on
    a stored conversation which needed no repair at loading, and in which no snapshot is
    restored (that is not written) and the store reports of each working-directory switch
    truthfully whether it was appended, is already there or was not committed (an outcome
    that is left open is excepted).  Then through all other commands of the actor, pushes,
    repairs of dangling calls, retention pruning, replacement, rewind, the stored reminder
    and the queries, replaying the records that went to the log on what was stored gives the
    conversation, so a restart loses and adds nothing. *)
Theorem disk_follows_memory config identity pruning start c :
  spawn stored config identity pruning = Some start → conversation (state start) = stored →
  session start c → disk stored (log c) = conversation (state c).
Proof.
  intros Hstart Hrep Hses. induction Hses as [|c cmd c' reply _ IH Hh Hc]; [|by eapply synced_step].
  unfold spawn in Hstart. destruct (new_chat_state stored config identity); [|done]. simpl in Hstart.
  apply (inj Some) in Hstart as <-. by simpl in *.
Qed.
End Disk.

(** * The bound on tool results *)

(** C21: Pushing a tool result adds one result to the end of the conversation, for the same
    call and with the same images, and nothing else changes before it.  Under a policy with a
    positive limit its text is at most as many bytes as the limit stands for, whatever the
    tool and its trusted suffix held; a text that fits together with its suffix is kept
    exactly, and without a limit it always is. *)
Theorem stored_result_is_bounded `{ChatEnv} t policy suffix c c' reply :
  handle_command (PushToolResult (CToolResult t) policy suffix) c = Some (c', reply) →
  ∃ text, conversation (state c') = conversation (state c) ++ [CToolResult (mkToolResult (tool_call_id t) text (result_images t))]
  ∧ let whole := result_content t ++ from_option sx_exact [] suffix in
    match policy ≫= truncation_policy_byte_limit with
    | Some limit => (0 < limit)%Z ∧ (Z.of_nat (utf8_len text) ≤ limit)%Z
                    ∧ ((Z.of_nat (utf8_len whole) ≤ limit)%Z → text = whole)
    | None => text = whole
    end.
Proof.
  cbn [handle_command]. unfold no_reply, push_tool_result, push_message. cbn [bounded_item is_assistant].
  intros (c1 & Hp & [= -> _])%fmap_Some. apply bind_Some in Hp as (s & Hc & <-%(inj Some)).
  apply count_tokens_conversation in Hc as [Hc _]. eexists. split.
  { cbn [append with_state state persist set_conversation conversation]. by rewrite Hc. }
  cbv zeta. unfold byte_limit. destruct (policy ≫= truncation_policy_byte_limit) as [limit|] eqn:Hl;
    cbn [fmap option_fmap option_map].
  2: { destruct suffix; simpl; by rewrite ?app_nil_r. }
  assert (Hpos : (0 < limit)%Z) by (by eapply limit_positive).
  pose proof (bounded_content_fits (result_content t) (Z.to_nat limit) suffix). split_and!; [done|lia|].
  intros Hfit. apply bounded_content_exact. lia.
Qed.

(** * A session *)

Definition demo_sampling : SamplingConfig := mkSampling (lit "grok") 1000 None None None None.
#[local] Instance demo_env : ChatEnv := {| conversation_json_bytes _ := 0%N; part_json_bytes _ := 0%N |}.
Definition demo_stored : list ConversationItem := [CSystem (lit "sys")].
Definition demo_start : Chat :=
  default (mkChat (mkChatState [] demo_sampling None 0 [] 0 None None ∅ None [] 0 0 None None empty_ledger None [] []) default_pruning [] [])
    (spawn demo_stored demo_sampling None default_pruning).
Definition demo_cmds : list ChatStateCommand :=
  [BeginTurnCapture; PushAssistantResponse (demo_says [demo_call "a"]);
   AppendWorkingDirectorySwitch (lit "cd /x") 3 (AppendOk Appended); Flush;
   PushUserMessage (CUser (mkUser [PText (lit "go on")] None None None None)); ReplaceSystemHead (lit "new"); RepairHistory false false].
Definition demo_end : Chat := default demo_start (run_commands demo_cmds demo_start).

Lemma disk_follows_memory_witness :
  length (disk demo_stored (log demo_end)) = 5 ∧ disk demo_stored (log demo_end) = conversation (state demo_end).
Proof.
  split; [vm_compute; reflexivity|].
  apply (disk_follows_memory demo_stored demo_sampling None default_pruning demo_start demo_end);
    [vm_compute; reflexivity..|].
  apply (session_run demo_stored demo_cmds demo_start demo_start demo_end); [constructor| |vm_compute; reflexivity].
  vm_compute. repeat split.
Defined.

Lemma stored_result_is_bounded_witness :
  ∃ c' text, handle_command (PushToolResult (tool_result (lit "a") (lit "0123456789")) (Some (mkTruncation TBytes 5)) None) demo_start
             = Some (c', NoReply)
             ∧ conversation (state c') = conversation (state demo_start) ++ [tool_result (lit "a") text]
             ∧ (Z.of_nat (utf8_len text) ≤ 6)%Z.
Proof.
  destruct (handle_command (PushToolResult (tool_result (lit "a") (lit "0123456789")) (Some (mkTruncation TBytes 5)) None) demo_start)
    as [[c' r]|] eqn:Hc; [|vm_compute in Hc; discriminate Hc].
  destruct (stored_result_is_bounded _ _ _ _ _ _ Hc) as (text & Ht & _ & Hb & _). exists c', text.
  split; [|split; [exact Ht|exact Hb]]. destruct r; try done; vm_compute in Hc; discriminate Hc.
Defined.
