(* ===== verification/ChatRequestSafety.v ===== *)
(** What the model is sent, after what a turn captured.

    Requests: every tool call of the request is answered, recent turns are not
    pruned, and images go oldest first.

    Capture: it returns what the turn pushed although compaction, repairs and
    reminders replace the conversation under it. *)
From stdpp Require Import base list strings gmap.
From S2P Require Import Prelude RustStr Json BreakerConfig Conversation ConversationPairing ChatState ChatRequest ChatSafety.
Open Scope nat_scope.

(** * Turn capture *)

(** What a command adds to the turn. *)
Definition pushed (cmd : ChatStateCommand) : list ConversationItem :=
  match cmd with
  | PushUserMessage item | PushUserMessageWithRepairReason item _ | PushAssistantResponse item => [item]
  | PushToolResult item policy suffix => [bounded_item item policy suffix]
  | _ => []
  end.
Definition compacts (cmd : ChatStateCommand) : bool := match cmd with ReplaceConversation _ b => b | _ => false end.
(** The commands that may come during a turn. *)
Definition during_turn (cmd : ChatStateCommand) : bool :=
  match cmd with
  | BeginTurnCapture | TakeTurnMessages | TruncateToPromptIndex _ | AppendWorkingDirectorySwitch _ _ _ => false
  | RepairHistory dry_run turn_active => dry_run || turn_active
  | _ => true
  end.
(** A captured item is the one that was pushed, or a tool result that was cleared as too old. *)
Definition kept (got item : ConversationItem) : Prop :=
  got = item ∨ ∃ t, item = CToolResult t ∧ got = CToolResult (mkToolResult (tool_call_id t) HARD_CLEAR_PLACEHOLDER (result_images t)).

#[local] Instance kept_refl : Reflexive kept.
Proof. by left. Qed.
#[local] Instance kept_trans : Transitive kept.
Proof.
  intros a b c Hab [-> | (t' & -> & ->)]; [done|]. right. exists t'. split; [done|].
  destruct Hab as [-> | (t & [= <-] & ->)]; done.
Qed.

Lemma clear_old_kept threshold turn seen reversed : Forall2 kept (clear_old threshold turn seen reversed).1 reversed.
Proof.
  revert turn seen. induction reversed as [|i reversed IH]; intros turn seen; [constructor|].
  destruct i as [|u| |t| |]; simpl;
    try (specialize (IH turn seen); destruct (clear_old _ _ _ _) as [rest n]; by constructor).
  - specialize (IH (if seen then S turn else turn) true). destruct (clear_old _ _ _ _) as [rest n]. by constructor.
  - specialize (IH turn seen). destruct (clear_old _ _ _ _) as [rest n]. repeat case_goal; constructor; try done.
    right. eauto.
Qed.

(** An active capture that stands for [items], with the flag of a compaction. *)
Definition tracked (items : list ConversationItem) (compacted : bool) (s : ChatState) : Prop :=
  ∃ cap, turn_capture s = Some cap ∧ turn_start_offset cap ≤ length (conversation s) ∧ compaction_occurred cap = compacted
    ∧ Forall2 kept (pre_replacement_messages cap ++ turn_tail (conversation s) (turn_start_offset cap)) items.

Lemma tracked_quiet items b s s' :
  conversation s' = conversation s → turn_capture s' = turn_capture s → tracked items b s → tracked items b s'.
Proof. unfold tracked. by intros -> ->. Qed.
Lemma tracked_append items b item s s' :
  conversation s' = conversation s ++ [item] → turn_capture s' = turn_capture s → tracked items b s → tracked (items ++ [item]) b s'.
Proof.
  unfold tracked, turn_tail. intros -> -> (cap & Hc & Hl & Hb & Hk). exists cap. split_and!; [done|rewrite length_app; lia|done|].
  rewrite drop_app_le, app_assoc by done. apply Forall2_app; [done|]. by repeat constructor.
Qed.
(** The dance around a replacement: take the tail, replace, start anew at the end. *)
Lemma tracked_replace items b items' s s' :
  conversation s' = items' →
  turn_capture s' = turn_capture (rebase_turn_capture_offset (set_conversation items' (snapshot_turn_slice s))) →
  tracked items b s → tracked items b s'.
Proof.
  unfold tracked, turn_tail, snapshot_turn_slice, rebase_turn_capture_offset. intros Hc Ht (cap & Hcap & Hl & Hb & Hk).
  rewrite Hcap in Ht. simpl in Ht. eexists. split; [exact Ht|]. simpl. rewrite Hc. split_and!; [done|done|].
  by rewrite drop_ge, app_nil_r by done.
Qed.
Lemma tracked_cleared items b s s' :
  Forall2 kept (conversation s') (conversation s) → turn_capture s' = turn_capture s → tracked items b s → tracked items b s'.
Proof.
  unfold tracked, turn_tail. intros Hc -> (cap & Hcap & Hl & Hb & Hk). exists cap.
  split_and!; [done|by rewrite (Forall2_length _ _ _ Hc)|done|]. etrans; [|exact Hk].
  apply Forall2_app; [done|by apply Forall2_drop].
Qed.

Lemma tracked_integrity items b reason c :
  tracked items b (state c) → tracked items b (state (ensure_conversation_integrity_with_reason reason c)).
Proof.
  destruct (integrity_pass reason c) as (H1 & H2 & _). by apply tracked_replace with (items' := mended reason (conversation (state c))).
Qed.
Lemma tracked_prune items b c c' : prune_retained_conversation c = Some c' → tracked items b (state c) → tracked items b (state c').
Proof.
  unfold prune_retained_conversation. do 2 (case_goal; [by intros [= <-]|]). intros (n & _ & Hp)%bind_Some Ht.
  pose proof (clear_old_kept (hard_clear_age_turns (pruning_config c) + (user_items (conversation (state c)) - st_prompt_index (state c)))
                0 false (rev (conversation (state c)))) as Hk.
  destruct (clear_old _ _ _ _) as [reversed cleared]. apply (inj Some) in Hp as <-. case_goal; [|done].
  revert Ht. apply tracked_cleared; [|done].
  simpl in *. rewrite <-(rev_involutive (conversation (state c))). rewrite !rev_alt in *. by apply Forall2_reverse.
Qed.
Lemma tracked_push items b item c c' :
  push_message item c = Some c' → tracked items b (state c) → tracked (items ++ [item]) b (state c').
Proof.
  unfold push_message. intros (s & Hs & <-%(inj Some))%bind_Some. assert (conversation s = conversation (state c) ∧ turn_capture s = turn_capture (state c)) as [H1 H2].
  { case_hyp Hs; [by simplify_eq|by eapply count_tokens_conversation]. }
  apply tracked_append; simpl; by rewrite ?H1.
Qed.
Lemma tracked_push_user items b item reason c c' :
  push_user_message_with_repair_reason item reason c = Some c' →
  tracked items b (state c) → tracked (items ++ [item]) b (state c').
Proof.
  unfold push_user_message_with_repair_reason. intros (s & Hs & Hp)%bind_Some Ht.
  apply count_tokens_conversation in Hs as [H1 H2]. eapply tracked_prune; [exact Hp|]. eapply tracked_append, (tracked_integrity _ _ reason), Ht; simpl; by rewrite ?H1.
Qed.
Lemma tracked_replace_conversation items b items' compaction c c' :
  replace_conversation items' compaction c = Some c' → tracked items b (state c) → tracked items (b || compaction) (state c').
Proof.
  unfold replace_conversation. intros (n & _ & <-%(inj Some))%bind_Some Ht.
  assert (Hm : tracked items (b || compaction) (mark_compaction compaction (state c))).
  { destruct Ht as (cap & Hc & Hl & <- & Hk). unfold mark_compaction. rewrite Hc. eexists. by split_and!. }
  revert Hm. apply tracked_replace with (items' := items'); [apply rebase_conversation|].
  destruct Ht as (cap & Hc & _). simpl. unfold snapshot_turn_slice, mark_compaction. rewrite Hc. done.
Qed.
Lemma tracked_restore items b snap c c' :
  restore_snapshot snap c = Some c' → tracked items b (state c) → tracked items b (state c').
Proof.
  unfold restore_snapshot. intros (n & _ & <-%(inj Some))%bind_Some. by apply tracked_replace with (items' := sn_conversation snap).
Qed.
Lemma tracked_system_head items b prompt c c' changed :
  replace_system_head prompt c = Some (c', changed) → tracked items b (state c) → tracked items b (state c').
Proof.
  unfold replace_system_head. destruct (replace_or_insert_system_head _ _) as [items' []]; [|by intros [= <- _]].
  intros (c1 & Hr & [= <- _])%bind_Some Ht. eapply tracked_replace_conversation in Hr; [|exact Ht]. by rewrite orb_false_r in Hr.
Qed.

Section Capture.
Context `{ChatEnv}.

Lemma tracked_build items b tools reminder keep conv_id req_id c :
  tracked items b (state c) → tracked items b (state (build_conversation_request tools reminder keep conv_id req_id c).1).
Proof.
  intros Ht. unfold build_conversation_request.
  assert (Hr : tracked items b (state (store_reminder reminder keep c).1)).
  { unfold store_reminder. destruct reminder as [r|]; [|done]. destruct keep; [|done].
    destruct (inject_memory_reminder _ r) as [items' injected]. cbn [fst]. revert Ht.
    apply tracked_replace with (items' := items'); destruct injected; cbn [with_state state replace_history persist];
      by rewrite ?rebase_conversation. }
  destruct (store_reminder reminder keep c) as [c1 r]. destruct (request_items r c1). simpl in *. by destruct (0 <? _).
Qed.

Lemma tracked_step items b cmd c c' reply : during_turn cmd = true →
  handle_command cmd c = Some (c', reply) → tracked items b (state c) → tracked (items ++ pushed cmd) (b || compacts cmd) (state c').
Proof.
  intros Hd Hc Ht. destruct cmd; try discriminate Hd; cbn [handle_command pushed compacts] in *; unfold no_reply, quiet_update in Hc;
    rewrite ?app_nil_r, ?orb_false_r;
    try (apply (inj Some) in Hc; injection Hc as <- _; first [exact Ht|by apply tracked_integrity|by revert Ht; apply tracked_quiet]);
    try (apply fmap_Some in Hc as (c1 & Hp & [= -> _]); first [by eapply tracked_push_user|by eapply tracked_push
      |by eapply tracked_replace_conversation|by eapply tracked_restore]).
  - apply fmap_Some in Hc as (c1 & Hp & [= -> _]). unfold record_token_usage in Hp.
    apply bind_Some in Hp as (n & _ & <-%(inj Some)). exact Ht.
  - apply (inj Some) in Hc. injection Hc as <- _. revert Ht. apply tracked_quiet; simpl; unfold record_subagent_usage; by repeat case_goal.
  - apply (inj Some) in Hc. injection Hc as <- _. revert Ht. apply tracked_quiet; simpl; unfold mark_usage_incomplete; by repeat case_goal.
  - case_hyp Hc; [by simplify_eq|]. simpl in Hd. rewrite orb_false_r in Hd. subst dry_run.
    apply fmap_Some in Hc as ([c1 r] & Hp & [= -> _]). unfold repair_history_cmd in Hp.
    destruct (repair_history _) as [l rep]. by simplify_eq.
  - apply fmap_Some in Hc as ([c1 r] & Hp & [= -> _]). by eapply tracked_system_head.
  - apply (inj Some) in Hc. injection Hc as <- _. revert Ht. apply tracked_quiet; simpl; unfold seal_harness_trace_turn; by case_goal.
  - pose proof (tracked_build items b tools memory_reminder persist_memory_reminder conv_id req_id _ (tracked_integrity _ _ UserCancelled c Ht)) as Hb.
    destruct (build_conversation_request _ _ _ _ _ _) as [c1 r]. by simplify_eq.
  - apply (inj Some) in Hc. injection Hc as <- _. revert Ht. apply tracked_quiet; simpl;
      unfold take_harness_trace_turns, seal_harness_trace_turn; simpl; by repeat case_goal.
Qed.

Lemma tracked_run cmds items b c c' : forallb during_turn cmds = true → run_commands cmds c = Some c' →
  tracked items b (state c) → tracked (items ++ mjoin (pushed <$> cmds)) (b || existsb compacts cmds) (state c').
Proof.
  revert items b c. induction cmds as [|cmd cmds IH]; intros items b c Hd Hr Ht; csimpl in *.
  - simplify_eq. by rewrite app_nil_r, orb_false_r.
  - apply andb_true_iff in Hd as [Hd Hds]. apply bind_Some in Hr as ([c1 r] & Hc & Hr).
    rewrite app_assoc, orb_assoc. eapply IH; [done|exact Hr|]. by eapply tracked_step.
Qed.

(** C20: A turn capture returns what the turn pushed, when between its beginning and its end
    there is no rewind, no working-directory switch, no history repair (but a dry run, or one
    that is turned away because a turn is active) and no other beginning or taking of a
    capture.  Whatever pushes, compactions, other replacements, automatic repairs of dangling
    calls, reminders, restored snapshots, requests and bookkeeping there are, taking the
    capture returns exactly the items pushed since, in their order and as they were stored,
    except that a tool result may have been cleared as too old; the flag says whether a
    compaction came in between, and the capture is over afterwards.  A history repair that
    changes the conversation does lose captured items. *)
Theorem capture_returns_the_turn cmds c c' : forallb during_turn cmds = true →
  run_commands (BeginTurnCapture :: cmds) c = Some c' →
  ∃ l c'', handle_command TakeTurnMessages c' = Some (c'', ReplyCapture (Some (l, existsb compacts cmds)))
           ∧ Forall2 kept l (mjoin (pushed <$> cmds))
           ∧ turn_capture (state c'') = None ∧ conversation (state c'') = conversation (state c').
Proof.
  intros Hd Hr. simpl in Hr. destruct (tracked_run cmds [] false _ c' Hd Hr) as (cap & Hc & Hl & Hb & Hk).
  { eexists. split; [reflexivity|]. simpl. split_and!; [done|done|]. unfold turn_tail. by rewrite drop_ge. }
  simpl in Hb, Hk. eexists _, _. cbn [handle_command]. unfold take_turn_messages. rewrite Hc. simpl. rewrite Hb.
  by split_and!.
Qed.
End Capture.

Lemma capture_returns_the_turn_witness :
  let env := {| conversation_json_bytes _ := 0%N; part_json_bytes _ := 0%N |} : ChatEnv in
  let cmds := [PushUserMessage (CUser (mkUser [PText (lit "go")] None None None None)); PushAssistantResponse (demo_says [demo_call "a"]);
               ReplaceConversation [CSystem (lit "summary")] true; PushToolResult (tool_result (lit "a") (lit "done")) None None] in
  ∃ c' l, run_commands (H := env) (BeginTurnCapture :: cmds) demo_start = Some c'
          ∧ handle_command (H := env) TakeTurnMessages c' = Some (with_state (set_turn_capture None) c', ReplyCapture (Some (l, true)))
          ∧ Forall2 kept l (mjoin (pushed <$> cmds)) ∧ length l = 3.
Proof.
  intros env cmds. destruct (run_commands (H := env) (BeginTurnCapture :: cmds) demo_start) as [c'|] eqn:Hr;
    [|vm_compute in Hr; discriminate Hr].
  destruct (capture_returns_the_turn cmds demo_start c' eq_refl Hr) as (l & c'' & Hc & Hk & _). exists c', l.
  split; [reflexivity|]. split.
  - rewrite Hc. cbn [handle_command] in Hc. unfold take_turn_messages in Hc. by injection Hc as <- _.
  - split; [exact Hk|]. rewrite (Forall2_length _ _ _ Hk). reflexivity.
Defined.

(** * Requests *)

(** * Calls and results *)

(** Every call of a message is answered by the results right behind it, and none of these
    answers the same call as another. *)
Fixpoint answered (items : list ConversationItem) : Prop :=
  match items with
  | [] => True
  | item :: rest =>
      (calls_of item ≠ [] → NoDup (ids (leading rest)) ∧ (call_id <$> calls_of item) ⊆ ids (leading rest)) ∧ answered rest
  end.
Definition same_calls (i j : ConversationItem) : Prop :=
  calls_of i = calls_of j ∧ tool_call_id <$> result_of i = tool_call_id <$> result_of j.

Lemma same_calls_refl i : same_calls i i.
Proof. done. Qed.
#[local] Hint Resolve same_calls_refl : core.
Lemma same_leading l k : Forall2 same_calls l k → ids (leading l) = ids (leading k).
Proof.
  induction 1 as [|i j l k [_ Hr] _ IH]; [done|]. destruct i, j; try done. csimpl in *. apply (inj Some) in Hr. by rewrite Hr, IH.
Qed.
Lemma same_answered l k : Forall2 same_calls l k → answered l → answered k.
Proof.
  induction 1 as [|i j l k [Hc Hr] Hl IH]; [done|]. simpl. rewrite <-Hc, <-(same_leading _ _ Hl). naive_solver.
Qed.
Lemma answered_Results run rest : answered (Results run ++ rest) ↔ answered rest.
Proof. induction run as [|t run IH]; [done|]. csimpl. rewrite IH. naive_solver. Qed.
Lemma answered_block item run rest : leading rest = [] →
  answered (item :: Results run ++ rest) ↔
  (calls_of item ≠ [] → NoDup (ids run) ∧ (call_id <$> calls_of item) ⊆ ids run) ∧ answered rest.
Proof. intros Hr. simpl. by rewrite answered_Results, leading_Results. Qed.

Lemma unanswered_sub calls run c : c ∈ unanswered calls run → c ∈ calls ∧ call_id c ∉ ids run.
Proof.
  unfold unanswered. intros [Hc Ho%negb_true_iff]%list_elem_of_In%filter_In. rewrite <-list_elem_of_In in Hc.
  split; [done|]. by apply one_of_not_In.
Qed.
Lemma unanswered_covers calls run c : c ∈ calls → call_id c ∈ ids run ∨ c ∈ unanswered calls run.
Proof.
  intros Hc. destruct (one_of (call_id c) (ids run)) eqn:Ho; [left; by apply one_of_In|right].
  unfold unanswered. apply list_elem_of_In, filter_In. rewrite <-list_elem_of_In, Ho. done.
Qed.
Lemma unanswered_NoDup calls run : NoDup (call_id <$> calls) → NoDup (call_id <$> unanswered calls run).
Proof.
  intros Hn. induction calls as [|c calls IH]; [done|]. csimpl in *. apply NoDup_cons in Hn as [Hc Hn].
  unfold unanswered in *. simpl. destruct (negb _); [|by apply IH]. csimpl. constructor; [|by apply IH].
  intros (c' & He & Hin)%list_elem_of_fmap. apply (unanswered_sub calls run) in Hin as [Hin _]. apply Hc. rewrite He. by apply list_elem_of_fmap_2.
Qed.
Definition made_up (reason : DanglingToolCallReason) (c : ToolCall) : ToolResultItem :=
  mkToolResult (call_id c) (synthetic_dangling_result_text (call_name c) reason) [].
Lemma synthetic_results reason (calls : list ToolCall) : synthetic_result reason <$> calls = Results (made_up reason <$> calls).
Proof. rewrite <-list_fmap_compose. done. Qed.

Lemma fill_leading reason rest : leading rest = [] → leading (fill reason [] rest) = [].
Proof. by destruct rest as [|[] rest]. Qed.

Lemma mended_block reason item run rest : is_result item = false → leading rest = [] → distinct_calls (item :: rest) →
  answered (mended reason rest) → answered (mended reason (item :: Results run ++ rest)).
Proof.
  intros Hi Hr Hd IH. unfold mended in *. rewrite dedup_item_run by done.
  set (run' := if is_nil (calls_of item) then run else keep_last run).
  assert (Hf : fill reason [] (item :: Results run' ++ dedup false rest)
    = item :: Results (run' ++ (made_up reason <$> unanswered (calls_of item) run')) ++ fill reason [] (dedup false rest)).
  { destruct item; try done; simpl; rewrite fill_run by (by apply dedup_leading);
      by rewrite synthetic_results, fmap_app, <-app_assoc. }
  rewrite Hf, answered_block by (by apply fill_leading, dedup_leading). split; [|done]. intros Hc.
  assert (He : run' = keep_last run) by (unfold run'; by destruct (calls_of item)). rewrite He. clear Hf He run'.
  set (run' := keep_last run). assert (Hids : ids (run' ++ (made_up reason <$> unanswered (calls_of item) run'))
    = ids run' ++ (call_id <$> unanswered (calls_of item) run')) by (by rewrite fmap_app, <-!list_fmap_compose).
  rewrite Hids. split.
  - apply NoDup_app. split_and!; [apply keep_last_NoDup| |apply unanswered_NoDup; by inversion Hd].
    intros id Hin (c & -> & Hcn)%list_elem_of_fmap. by apply unanswered_sub in Hcn as [_ ?].
  - intros id (c & -> & Hcn)%list_elem_of_fmap. apply elem_of_app.
    destruct (unanswered_covers _ run' _ Hcn) as [?|?]; [by left|right; by apply list_elem_of_fmap_2].
Qed.
Lemma mended_answered reason items : distinct_calls items → answered (mended reason items).
Proof.
  intros Hd. assert (Hall : ∀ rest, leading rest = [] → distinct_calls rest → answered (mended reason rest)).
  { apply (block_ind (λ rest, distinct_calls rest → answered (mended reason rest))); [done|].
    intros item run rest Hi Hr IH Hdi. unfold distinct_calls in Hdi. rewrite Forall_cons, Forall_app in Hdi.
    destruct Hdi as (Hd1 & _ & Hd2). apply mended_block; [done..| |by apply IH]. by constructor. }
  rewrite (leading_split items) in Hd |- *. unfold mended. rewrite dedup_run, fill_run by (apply dedup_leading || idtac; apply leading_after).
  simpl. apply answered_Results. apply Hall; [apply leading_after|]. unfold distinct_calls in *. by apply Forall_app in Hd as [_ ?].
Qed.

(** * From the conversation to the request *)

(** How an item of the conversation is sent: a user's images may be replaced, the text of a
    result may be pruned, the system prompt may carry a reminder; the rest is as it is. *)
Definition part_sent (p q : ContentPart) : Prop := q = p ∨ is_image p = true ∧ q = placeholder.
Definition sent_as (i j : ConversationItem) : Prop :=
  match i, j with
  | CUser u, CUser v => v = with_content (user_content v) u ∧ Forall2 part_sent (user_content u) (user_content v)
  | CToolResult t, CToolResult t' => tool_call_id t' = tool_call_id t ∧ result_images t' = result_images t
  | CSystem _, CSystem _ => True
  | _, _ => i = j
  end.

#[local] Instance part_sent_trans : Transitive part_sent.
Proof. intros p q r [-> | [Hp ->]]; [done|]. intros [-> | [Hq _]]; [by right|done]. Qed.
Lemma with_content_same u : u = with_content (user_content u) u.
Proof. by destruct u. Qed.
#[local] Hint Resolve with_content_same : core.
#[local] Instance part_sent_reflexive : Reflexive part_sent.
Proof. intros p. by left. Qed.
#[local] Instance sent_as_refl : Reflexive sent_as.
Proof. intros i. destruct i; simpl; try done. Qed.
#[local] Instance sent_as_trans : Transitive sent_as.
Proof.
  intros i j k Hi Hj. destruct i, j, k; simpl in *; try done; try naive_solver.
  - destruct Hi as [Hi1 Hi], Hj as [Hj1 Hj2]. split; [|by etrans]. rewrite Hj1, Hi1. done.
  - destruct Hi, Hj. split; congruence.
Qed.
Lemma sent_same_calls i j : sent_as i j → same_calls i j.
Proof. destruct i, j; try done; simpl; try (by intros ->); try (by intros [=]). intros [Ht _]. split; [done|]. simpl. by rewrite Ht. Qed.

Lemma prune_rev_sent p turn seen reversed : Forall2 sent_as reversed (prune_rev p turn seen reversed).
Proof.
  revert turn seen. induction reversed as [|i reversed IH]; intros turn seen; [constructor|].
  destruct i; simpl; constructor; try done; try apply IH. unfold prune_result. repeat case_goal; done.
Qed.
Lemma prune_sent p items : Forall2 sent_as items (prune_conversation p items).
Proof.
  unfold prune_conversation. case_goal; [|done].
  rewrite <-(rev_involutive items) at 1. rewrite !rev_alt. apply Forall2_reverse, prune_rev_sent.
Qed.

Section Request.
Context `{ChatEnv}.

Lemma evict_parts_sent target running parts : Forall2 part_sent parts (evict_parts target running parts).1.1.
Proof.
  revert running. induction parts as [|p parts IH]; intros running; [constructor|]. destruct p as [t|url]; simpl.
  - specialize (IH running). destruct (evict_parts _ _ _) as [[rest r] n]. by constructor.
  - destruct (running <=? target)%N.
    + specialize (IH running). destruct (evict_parts _ _ _) as [[rest r] n]. by constructor.
    + set (after := (running - _)%N). specialize (IH after). destruct (evict_parts _ _ _) as [[rest r] n].
      constructor; [by right|done].
Qed.
Lemma evict_items_sent target running items : Forall2 sent_as items (evict_items target running items).1.1.
Proof.
  revert running. induction items as [|i items IH]; intros running; [constructor|].
  destruct i as [|u| | | |]; simpl;
    try (specialize (IH running); destruct (evict_items _ _ _) as [[rest r0] n]; by constructor).
  pose proof (evict_parts_sent target running (user_content u)) as Hp. destruct (evict_parts _ _ _) as [[parts r] n].
  specialize (IH r). destruct (evict_items _ _ _) as [[rest r'] m]. by constructor.
Qed.
Lemma compact_sent items current target : Forall2 sent_as items (compact_images_to_byte_budget items current target).1.1.
Proof. unfold compact_images_to_byte_budget. case_goal; [done|apply evict_items_sent]. Qed.

(** One system prompt may come in front. *)
Definition sent_from (stored sent : list ConversationItem) : Prop :=
  Forall2 sent_as stored sent ∨ ∃ prompt rest, sent = CSystem prompt :: rest ∧ Forall2 sent_as stored rest.
Lemma inject_sent items reminder : sent_from items (inject_memory_reminder items reminder).1.
Proof.
  unfold inject_memory_reminder. case_goal; [by left|]. destruct items as [|[] items]; simpl;
    try (right; eexists _, _; split; [reflexivity|done]). left. by constructor.
Qed.
Lemma sent_answered stored sent : sent_from stored sent → answered stored → answered sent.
Proof.
  assert (Hf : ∀ l, Forall2 sent_as stored l → answered stored → answered l).
  { intros l Hl. apply same_answered. eapply Forall2_impl; [exact Hl|apply sent_same_calls]. }
  intros [Hs|(prompt & rest & -> & Hs)] Ha; [by eapply Hf|]. simpl. split; [done|by eapply Hf].
Qed.
Lemma sent_from_trans l k m : Forall2 sent_as l k → sent_from k m → sent_from l m.
Proof.
  intros Hl [Hk|(prompt & rest & -> & Hk)]; [left; by etrans|right]. eexists _, _. split; [done|by etrans].
Qed.

Lemma request_items_sent reminder c : sent_from (conversation (state c)) (request_items reminder c).1.
Proof.
  unfold request_items. set (conv := conversation (state c)).
  destruct (if (_ <=? _)%N then _ else _) as [[items after] evicted] eqn:He.
  assert (Hi : Forall2 sent_as conv items).
  { case_hyp He; [|by simplify_eq]. pose proof (compact_sent conv (conversation_body_bytes conv) IMAGE_COMPACT_RECLAIM_TARGET_BYTES) as Hc.
    by rewrite He in Hc. }
  clear He. set (pruned := if should_prune _ _ then _ else _).
  assert (Hp : Forall2 sent_as conv pruned).
  { unfold pruned. case_goal; [|done]. etrans; [exact Hi|apply prune_sent]. }
  simpl. destruct reminder as [r|]; [|by left]. eapply sent_from_trans; [exact Hp|apply inject_sent].
Qed.
Lemma reminder_conversation reminder keep c :
  answered (conversation (state c)) → answered (conversation (state (store_reminder reminder keep c).1)).
Proof.
  unfold store_reminder. destruct reminder as [r|]; [|done]. destruct keep; [|done]. cbn [with_state state].
  rewrite (snapshot_conversation (state c)). pose proof (inject_sent (conversation (state c)) r) as Hs.
  destruct (inject_memory_reminder _ r) as [items injected]. cbn [fst with_state state] in *. rewrite rebase_conversation.
  intros Ha. pose proof (sent_answered _ _ Hs Ha). by destruct injected.
Qed.

(** C18: When no message of the conversation has two calls with the same id: in the request that
    is built for the model every tool call of an assistant message is answered by the results
    right behind it, and no two of these answer the same call; the
    conversation that stays in memory has that property too.  The request is that
    conversation item by item: pruning touches only the texts of tool results, the size limit
    only images, and the reminder only a system prompt at the front. *)
Theorem request_answers_every_call tools reminder keep conv_id req_id c c' request :
  distinct_calls (conversation (state c)) →
  handle_command (BuildConversationRequest tools reminder keep conv_id req_id) c = Some (c', ReplyRequest request) →
  answered (rq_items request) ∧ answered (conversation (state c'))
  ∧ sent_from (conversation (state c')) (rq_items request).
Proof.
  intros Hd. cbn [handle_command]. set (c0 := ensure_conversation_integrity_with_reason UserCancelled c).
  assert (Ha : answered (conversation (state c0))).
  { destruct (integrity_pass UserCancelled c) as [Hc _]. fold c0 in Hc. rewrite Hc. by apply mended_answered. }
  clearbody c0. unfold build_conversation_request. pose proof (reminder_conversation reminder keep c0 Ha) as Hr.
  destruct (store_reminder reminder keep c0) as [c1 left_over]. pose proof (request_items_sent left_over c1) as Hs.
  destruct (request_items left_over c1) as [items budget]. cbn [fst] in *. intros [= <- <-].
  destruct (0 <? inline_image_count _); cbn [send_event state rq_items]; (split; [by eapply sent_answered|done]).
Qed.
(** ** Which images go *)

Definition part_images (parts : list ContentPart) : list str :=
  omap (λ p, match p with PImage url => Some url | PText _ => None end) parts.
Definition images (items : list ConversationItem) : list str := mjoin (part_images ∘ user_parts <$> items).
(** The size of the body without the image. *)
Definition reclaim (running : N) (url : str) : N := (running - (image_part_bytes url - part_json_bytes placeholder))%N.

(** The first [n] of the images went, none of them in vain, and then the target was met. *)
Definition evicted (target running : N) (urls left : list str) (after : N) (n : nat) : Prop :=
  n ≤ length urls ∧ left = drop n urls ∧ after = foldl reclaim running (take n urls)
  ∧ (∀ k, k < n → (target < foldl reclaim running (take k urls))%N)
  ∧ ((after ≤ target)%N ∨ n = length urls).

Lemma evicted_app target r1 r2 r3 u1 u2 l1 l2 n1 n2 :
  evicted target r1 u1 l1 r2 n1 → evicted target r2 u2 l2 r3 n2 → evicted target r1 (u1 ++ u2) (l1 ++ l2) r3 (n1 + n2).
Proof.
  intros (Hn1 & -> & -> & Hk1 & He1) (Hn2 & -> & -> & Hk2 & He2).
  assert (Hcase : n1 = length u1 ∨ n1 < length u1 ∧ n2 = 0).
  { destruct (decide (n1 = length u1)) as [|Hne]; [by left|right]. destruct He1 as [He1|He1]; [|done].
    destruct n2 as [|n2]; [lia|]. specialize (Hk2 0 ltac:(lia)). simpl in Hk2. lia. }
  destruct Hcase as [-> | [Hlt ->]].
  - rewrite (take_ge u1) in * by done. rewrite (drop_ge u1) by done. unfold evicted. rewrite take_app_add, drop_app_add, foldl_app.
    repeat split; rewrite ?foldl_app, ?length_app; try done; [lia| |naive_solver lia].
    intros k Hk. destruct (decide (k < length u1)) as [Hk'|Hk'].
    + rewrite take_app_le by lia. by apply Hk1.
    + replace k with (length u1 + (k - length u1)) by lia. rewrite take_app_add, foldl_app. apply Hk2. lia.
  - unfold evicted. rewrite Nat.add_0_r. rewrite take_app_le, drop_app_le by lia. repeat split; rewrite ?length_app; try done; [lia| |naive_solver lia].
    intros k Hk. rewrite take_app_le by lia. by apply Hk1.
Qed.
Lemma evicted_none target running : evicted target running [] [] running 0.
Proof. repeat split; try done; [lia|by right]. Qed.

Lemma evict_parts_evicted target running parts :
  let '(out, after, n) := evict_parts target running parts in
  evicted target running (part_images parts) (part_images out) after n.
Proof.
  revert running. induction parts as [|p parts IH]; intros running; [apply evicted_none|]. destruct p as [t|url]; simpl.
  - specialize (IH running). by destruct (evict_parts _ _ _) as [[rest r] n].
  - destruct (N.leb_spec running target) as [Ht|Ht].
    + specialize (IH running). destruct (evict_parts _ _ _) as [[rest r] n]. simpl.
      apply (evicted_app target running running r [url] (part_images parts) [url] _ 0 n); [|done].
      repeat split; simpl; try done; [lia|lia|by left].
    + fold (reclaim running url). specialize (IH (reclaim running url)). destruct (evict_parts _ _ _) as [[rest r] n]. simpl.
      apply (evicted_app target running (reclaim running url) r [url] (part_images parts) [] _ 1 n); [|done].
      repeat split; simpl; try done; [|by right]. intros [|k] Hk; [simpl; lia|lia].
Qed.
Lemma evict_items_evicted target running items :
  let '(out, after, n) := evict_items target running items in
  evicted target running (images items) (images out) after n.
Proof.
  revert running. induction items as [|i items IH]; intros running; [apply evicted_none|].
  destruct i as [|u| | | |]; simpl;
    try (specialize (IH running); destruct (evict_items _ _ _) as [[rest r0] n]; exact IH).
  pose proof (evict_parts_evicted target running (user_content u)) as Hp. destruct (evict_parts _ _ _) as [[parts r] n].
  specialize (IH r). destruct (evict_items _ _ _) as [[rest r'] m]. by eapply evicted_app.
Qed.

(** What is left when the first [n] images are replaced by the notice. *)
Fixpoint notice_parts (n : nat) (parts : list ContentPart) : list ContentPart :=
  match parts with
  | [] => []
  | PImage url :: rest => match n with O => PImage url :: notice_parts 0 rest | S n => placeholder :: notice_parts n rest end
  | p :: rest => p :: notice_parts n rest
  end.
Fixpoint notice_oldest (n : nat) (items : list ConversationItem) : list ConversationItem :=
  match items with
  | [] => []
  | CUser u :: rest =>
      CUser (with_content (notice_parts n (user_content u)) u)
      :: notice_oldest (n - length (part_images (user_content u))) rest
  | item :: rest => item :: notice_oldest n rest
  end.

Lemma notice_parts_none parts : notice_parts 0 parts = parts.
Proof. induction parts as [|[t|url] parts IH]; simpl; by f_equal. Qed.
Lemma notice_parts_all n parts : length (part_images parts) ≤ n →
  notice_parts n parts = notice_parts (length (part_images parts)) parts.
Proof.
  revert n. induction parts as [|[t|url] parts IH]; intros n Hn; simpl in *; [done|f_equal; by apply IH|].
  destruct n as [|n]; [lia|]. simpl. f_equal. apply IH. lia.
Qed.

Lemma evicted_idle target running urls left after n : evicted target running urls left after n → (running ≤ target)%N → n = 0.
Proof. intros (_ & _ & _ & Hk & _) Hr. destruct n as [|n]; [done|]. specialize (Hk 0 ltac:(lia)). simpl in Hk. lia. Qed.
Lemma evict_parts_notice target running parts :
  let '(out, _, n) := evict_parts target running parts in out = notice_parts n parts.
Proof.
  revert running. induction parts as [|p parts IH]; intros running; [done|]. destruct p as [t|url]; simpl.
  - specialize (IH running). destruct (evict_parts _ _ _) as [[rest r] n]. by f_equal.
  - destruct (N.leb_spec running target) as [Ht|Ht].
    + pose proof (evict_parts_evicted target running parts) as He. specialize (IH running).
      destruct (evict_parts _ _ _) as [[rest r] n]. rewrite (evicted_idle _ _ _ _ _ _ He Ht) in *. simpl. by f_equal.
    + fold (reclaim running url). specialize (IH (reclaim running url)). destruct (evict_parts _ _ _) as [[rest r] n].
      simpl. by f_equal.
Qed.
Lemma evict_items_notice target running items :
  let '(out, _, n) := evict_items target running items in out = notice_oldest n items.
Proof.
  revert running. induction items as [|i items IH]; intros running; [done|].
  destruct i as [|u| | | |]; simpl;
    try (specialize (IH running); destruct (evict_items _ _ _) as [[rest r0] n]; by f_equal).
  pose proof (evict_parts_evicted target running (user_content u)) as Hp.
  pose proof (evict_parts_notice target running (user_content u)) as Hq. destruct (evict_parts _ _ _) as [[parts r] n].
  pose proof (evict_items_evicted target r items) as He. specialize (IH r).
  destruct (evict_items _ _ _) as [[rest r'] m]. pose proof Hp as (Hn & _ & _ & _ & Hend).
  destruct (decide (n = length (part_images (user_content u)))) as [En|En].
  - rewrite notice_parts_all, <-En, <-Hq by lia. replace (n + m - n) with m by lia. by rewrite IH.
  - destruct Hend as [Hend|?]; [|done]. destruct Hp as (_ & _ & Ha & _).
    rewrite (evicted_idle _ _ _ _ _ _ He Hend) in *. rewrite Nat.add_0_r, <-Hq, IH. do 3 f_equal. lia.
Qed.

(** ** The true size of the body *)

(** What the code relies on of [serde_json]: the encoding is compact, so replacing a content
    part of a user message changes the length of the whole by the difference of the lengths
    of the two parts; and an image part without its URL has the 25 bytes of
    [IMAGE_PART_FRAME_BYTES]. *)
Class ChatEnvLaws : Prop := {
  json_part_replaced before u l p q r after :
    (conversation_json_bytes (before ++ CUser (with_content (l ++ p :: r) u) :: after) + part_json_bytes q
     = conversation_json_bytes (before ++ CUser (with_content (l ++ q :: r) u) :: after) + part_json_bytes p)%N;
  json_image_frame : part_json_bytes (PImage []) = IMAGE_PART_FRAME_BYTES
}.
Context `{!ChatEnvLaws}.

(** A URL without characters that JSON escapes, as a base64 [data:] URL is. *)
Definition plain_url (url : str) : Prop := part_json_bytes (PImage url) = image_part_bytes url.
Definition larger_than_notice (url : str) : Prop := (part_json_bytes placeholder ≤ image_part_bytes url)%N.

Definition parts_bytes (parts : list ContentPart) : N := sum_N (part_json_bytes <$> parts).
Definition items_bytes (items : list ConversationItem) : N := sum_N ((λ i, parts_bytes (user_parts i)) <$> items).

Lemma parts_bytes_cons p parts : parts_bytes (p :: parts) = (part_json_bytes p + parts_bytes parts)%N.
Proof using. done. Qed.
Lemma items_bytes_cons i items : items_bytes (i :: items) = (parts_bytes (user_parts i) + items_bytes items)%N.
Proof using. done. Qed.

(** Two lists of items that differ in the content parts of user messages only. *)
Definition same_frame (i j : ConversationItem) : Prop :=
  match i, j with
  | CUser u, CUser v => v = with_content (user_content v) u ∧ length (user_content u) = length (user_content v)
  | _, _ => i = j
  end.

Lemma json_parts_replaced before u l ps qs after : length ps = length qs →
  (conversation_json_bytes (before ++ CUser (with_content (l ++ ps) u) :: after) + parts_bytes qs
   = conversation_json_bytes (before ++ CUser (with_content (l ++ qs) u) :: after) + parts_bytes ps)%N.
Proof using All.
  revert l qs. induction ps as [|p ps IH]; intros l [|q qs] Hl; try done. injection Hl as Hl.
  pose proof (json_part_replaced before u l p q ps after) as H1. specialize (IH (l ++ [q]) qs Hl).
  rewrite <-!app_assoc in IH. rewrite !parts_bytes_cons. simpl in *. lia.
Qed.
Lemma json_items_replaced before items out : Forall2 same_frame items out →
  (conversation_json_bytes (before ++ items) + items_bytes out = conversation_json_bytes (before ++ out) + items_bytes items)%N.
Proof using All.
  intros Hf. revert before. induction Hf as [|i j items out Hij Hf IH]; intros before; [done|].
  rewrite !items_bytes_cons. specialize (IH (before ++ [j])).
  rewrite <-!app_assoc in IH. simpl in IH.
  assert (Hhead : (conversation_json_bytes (before ++ i :: items) + parts_bytes (user_parts j)
    = conversation_json_bytes (before ++ j :: items) + parts_bytes (user_parts i))%N).
  { destruct i as [|u| | | |], j as [|v| | | |]; simpl in Hij; try done; try (injection Hij as ->; done).
    destruct Hij as [Hv Hl]. pose proof (json_parts_replaced before u [] _ _ items Hl) as H1. simpl in H1.
    by rewrite <-Hv, <-with_content_same in H1. }
  lia.
Qed.
Lemma sum_N_cons x l : sum_N (x :: l) = (x + sum_N l)%N.
Proof using. done. Qed.
Lemma sum_N_app a b : sum_N (a ++ b) = (sum_N a + sum_N b)%N.
Proof using. induction a as [|x a IH]; [done|]. rewrite <-app_comm_cons, !sum_N_cons, IH. lia. Qed.
Lemma images_user u items : images (CUser u :: items) = part_images (user_content u) ++ images items.
Proof using. done. Qed.
Lemma images_other i items : user_parts i = [] → images (i :: items) = images items.
Proof using. unfold images. csimpl. intros ->. done. Qed.

(** The body is measured without its URLs, byte for byte. *)
Lemma blank_frame items : Forall2 same_frame items (blank_item <$> items).
Proof using. induction items as [|[|u| | | |] items IH]; constructor; try done. simpl. by rewrite length_fmap. Qed.
Lemma blank_parts_bytes parts : Forall plain_url (part_images parts) →
  (parts_bytes (blank_part <$> parts) + sum_N (part_url_bytes <$> parts) = parts_bytes parts)%N.
Proof using All.
  induction parts as [|[t|url] parts IH]; [done| |]; csimpl; intros Hp.
  - specialize (IH Hp). rewrite !parts_bytes_cons. unfold sum_N in *. simpl in *. lia.
  - apply Forall_cons in Hp as [Hu Hp]. specialize (IH Hp). rewrite !parts_bytes_cons.
    rewrite Hu, json_image_frame. unfold image_part_bytes, sum_N in *. simpl in *. lia.
Qed.
Lemma blank_items_bytes items : Forall plain_url (images items) →
  (items_bytes (blank_item <$> items) + image_url_bytes items = items_bytes items)%N.
Proof using All.
  induction items as [|i items IH]; [done|]. csimpl. intros Hp. rewrite !items_bytes_cons.
  unfold image_url_bytes in *. csimpl. destruct i as [|u| | | |];
    try (rewrite images_other in Hp by done; specialize (IH Hp); unfold sum_N in *; simpl in *; lia).
  rewrite images_user, Forall_app in Hp. destruct Hp as [Hu Hp]. specialize (IH Hp).
  pose proof (blank_parts_bytes _ Hu). unfold sum_N in *. simpl in *. lia.
Qed.
Lemma body_bytes_true items : Forall plain_url (images items) → conversation_body_bytes items = conversation_json_bytes items.
Proof using All.
  intros Hp. pose proof (json_items_replaced [] items _ (blank_frame items)) as Hj. pose proof (blank_items_bytes items Hp).
  unfold conversation_body_bytes. simpl in Hj. lia.
Qed.

(** What replacing the oldest images does to it. *)
Definition image_bytes (urls : list str) : N := sum_N (image_part_bytes <$> urls).
Definition notice_bytes (n : nat) : N := (N.of_nat n * part_json_bytes placeholder)%N.
Lemma image_bytes_cons url urls : image_bytes (url :: urls) = (image_part_bytes url + image_bytes urls)%N.
Proof using. done. Qed.
Lemma notice_bytes_S n : notice_bytes (S n) = (part_json_bytes placeholder + notice_bytes n)%N.
Proof using. unfold notice_bytes. rewrite Nat2N.inj_succ. lia. Qed.
Lemma image_bytes_app a b : image_bytes (a ++ b) = (image_bytes a + image_bytes b)%N.
Proof using. unfold image_bytes. by rewrite fmap_app, sum_N_app. Qed.

Lemma notice_parts_length n parts : length (notice_parts n parts) = length parts.
Proof using. revert n. induction parts as [|[t|url] parts IH]; intros [|n]; simpl; by rewrite ?IH. Qed.
Lemma notice_frame n items : Forall2 same_frame items (notice_oldest n items).
Proof using.
  revert n. induction items as [|[|u| | | |] items IH]; intros n; constructor; try done.
  simpl. by rewrite notice_parts_length.
Qed.
Lemma notice_parts_bytes n parts : Forall plain_url (part_images parts) →
  (parts_bytes (notice_parts n parts) + image_bytes (take n (part_images parts))
   = parts_bytes parts + notice_bytes (Nat.min n (length (part_images parts))))%N.
Proof using All.
  revert n. induction parts as [|[t|url] parts IH]; intros n Hp; [by destruct n| |]; csimpl in *.
  - specialize (IH n Hp). rewrite !parts_bytes_cons. lia.
  - apply Forall_cons in Hp as [Hu Hp]. destruct n as [|n]; csimpl.
    + rewrite notice_parts_none. unfold image_bytes, notice_bytes, sum_N. simpl. lia.
    + specialize (IH n Hp). rewrite image_bytes_cons, notice_bytes_S, !parts_bytes_cons, Hu. lia.
Qed.
Lemma notice_items_bytes n items : Forall plain_url (images items) →
  (items_bytes (notice_oldest n items) + image_bytes (take n (images items))
   = items_bytes items + notice_bytes (Nat.min n (length (images items))))%N.
Proof using All.
  revert n. induction items as [|i items IH]; intros n Hp; [by destruct n|].
  destruct i as [|u| | | |]; try (rewrite images_other in * by done; specialize (IH n Hp); simpl; rewrite !items_bytes_cons; lia).
  rewrite images_user in *. apply Forall_app in Hp as [Hu Hp]. specialize (IH (n - length (part_images (user_content u))) Hp).
  pose proof (notice_parts_bytes n _ Hu). simpl. rewrite !items_bytes_cons, take_app, image_bytes_app, length_app. simpl.
  unfold notice_bytes in *. nia.
Qed.
Lemma notice_json n items : Forall plain_url (images items) → n ≤ length (images items) →
  (conversation_json_bytes (notice_oldest n items) + image_bytes (take n (images items))
   = conversation_json_bytes items + notice_bytes n)%N.
Proof using All.
  intros Hp Hn. pose proof (notice_items_bytes n items Hp) as Hb. rewrite Nat.min_l in Hb by done.
  pose proof (json_items_replaced [] items _ (notice_frame n items)) as Hj. simpl in Hj. lia.
Qed.

(** The running count never exceeds the true size, and is the true size as long as every image
    is larger than the notice. *)
Definition freed (urls : list str) : N := sum_N ((λ url, image_part_bytes url - part_json_bytes placeholder)%N <$> urls).
Lemma freed_cons url urls : freed (url :: urls) = ((image_part_bytes url - part_json_bytes placeholder) + freed urls)%N.
Proof using. done. Qed.
Lemma reclaim_all running urls : foldl reclaim running urls = (running - freed urls)%N.
Proof using.
  revert running. induction urls as [|url urls IH]; intros running; [unfold freed; simpl; lia|].
  cbn [foldl]. rewrite IH, freed_cons. unfold reclaim. lia.
Qed.
Lemma freed_bytes urls : (image_bytes urls ≤ freed urls + notice_bytes (length urls))%N.
Proof using. induction urls as [|url urls IH]; [done|]. cbn [length]. rewrite image_bytes_cons, freed_cons, notice_bytes_S. lia. Qed.
Lemma freed_exact urls : Forall larger_than_notice urls → (image_bytes urls = freed urls + notice_bytes (length urls))%N.
Proof using.
  induction 1 as [|url urls Hu _ IH]; [done|]. unfold larger_than_notice in Hu. cbn [length].
  rewrite image_bytes_cons, freed_cons, notice_bytes_S. lia.
Qed.
Lemma reclaim_below k items : Forall plain_url (images items) → k ≤ length (images items) →
  (foldl reclaim (conversation_json_bytes items) (take k (images items)) ≤ conversation_json_bytes (notice_oldest k items))%N.
Proof using All.
  intros Hp Hk. rewrite reclaim_all. pose proof (notice_json k items Hp Hk). pose proof (freed_bytes (take k (images items))) as Hf.
  rewrite length_take, Nat.min_l in Hf by done. lia.
Qed.
Lemma reclaim_exact k items : Forall plain_url (images items) → Forall larger_than_notice (images items) →
  k ≤ length (images items) →
  foldl reclaim (conversation_json_bytes items) (take k (images items)) = conversation_json_bytes (notice_oldest k items).
Proof using All.
  intros Hp Hl Hk. rewrite reclaim_all. pose proof (notice_json k items Hp Hk).
  pose proof (freed_exact (take k (images items)) (Forall_take _ _ _ Hl)) as Hf. rewrite length_take, Nat.min_l in Hf by done. lia.
Qed.

Lemma notice_oldest_none items : notice_oldest 0 items = items.
Proof using. induction items as [|[|u| | | |] items IH]; simpl; rewrite ?IH, ?notice_parts_none; f_equal; try done.
  f_equal. by destruct u. Qed.
Lemma compact_notice items current target :
  let '(out, after, n) := compact_images_to_byte_budget items current target in
  evicted target current (images items) (images out) after n ∧ out = notice_oldest n items.
Proof using.
  unfold compact_images_to_byte_budget. destruct (N.leb_spec current target) as [Ht|Ht].
  - rewrite notice_oldest_none. repeat split; try done; [lia|lia|by left].
  - pose proof (evict_items_evicted target current items). pose proof (evict_items_notice target current items).
    by destruct (evict_items _ _ _) as [[out after] n].
Qed.

(** C22: When a request is too large, images are replaced by a notice strictly oldest first and
    none of them in vain.  The result is the conversation with its first [n] images replaced
    and every other part of every item as it was; before each replacement the JSON encoding of
    the conversation was still longer than the target.  The size that the code measures
    beforehand is the length of that encoding, and the size that it reports afterwards is
    never more than the length of the new one.  When every image is larger than the notice,
    the reported size is that length, and the new encoding is within the target or no image
    is left.  For image URLs that JSON does not escape, as base64 data is. *)
Theorem images_go_oldest_first items target : Forall plain_url (images items) →
  let '(out, after, n) := compact_images_to_byte_budget items (conversation_body_bytes items) target in
  n ≤ length (images items) ∧ out = notice_oldest n items
  ∧ images out = drop n (images items) ∧ Forall2 sent_as items out
  ∧ conversation_body_bytes items = conversation_json_bytes items
  ∧ (∀ k, k < n → (target < conversation_json_bytes (notice_oldest k items))%N)
  ∧ (after ≤ conversation_json_bytes out)%N
  ∧ (Forall larger_than_notice (images items) →
       after = conversation_json_bytes out
       ∧ ((conversation_json_bytes out ≤ target)%N ∨ n = length (images items))).
Proof using All.
  intros Hp. rewrite (body_bytes_true items Hp). pose proof (compact_sent items (conversation_json_bytes items) target) as Hs.
  pose proof (compact_notice items (conversation_json_bytes items) target) as Hc.
  destruct (compact_images_to_byte_budget _ _ _) as [[out after] n]. destruct Hc as [(Hn & Hl & -> & Hk & He) ->].
  split_and!; try done.
  - intros k Hkn. eapply N.lt_le_trans; [by apply Hk|]. apply reclaim_below; [done|lia].
  - by apply reclaim_below.
  - intros Hb. rewrite (reclaim_exact n items Hp Hb Hn) in *. done.
Qed.
End Request.

(** A measure that counts the content parts of user messages and the frame of each: replacing a part changes it by the difference of the two parts. *)
Definition demo_part_bytes (p : ContentPart) : N :=
  match p with PImage url => image_part_bytes url | PText t => (24 + N.of_nat (utf8_len t))%N end.
Definition demo_json : ChatEnv :=
  {| conversation_json_bytes items := sum_N ((λ i, sum_N (demo_part_bytes <$> user_parts i)) <$> items);
     part_json_bytes := demo_part_bytes |}.
Lemma demo_json_laws : ChatEnvLaws (H := demo_json).
Proof.
  split; [|reflexivity]. intros before u l p q r after. cbn [conversation_json_bytes part_json_bytes demo_json].
  rewrite !fmap_app, !fmap_cons, !sum_N_app, !sum_N_cons. cbn [user_parts user_content with_content].
  rewrite !fmap_app, !fmap_cons, !sum_N_app, !sum_N_cons. lia.
Qed.
Definition demo_images : list ConversationItem :=
  [CUser (mkUser [PText (lit "see"); PImage (repeat 65%N 400)] None None None None); demo_says [];
   CUser (mkUser [PImage (repeat 66%N 500)] None None None None)].
Lemma images_go_oldest_first_witness :
  let '(out, after, n) := compact_images_to_byte_budget (H := demo_json) demo_images
                            (conversation_body_bytes (H := demo_json) demo_images) 900 in
  n = 1 ∧ images out = [repeat 66%N 500] ∧ after = conversation_json_bytes (ChatEnv := demo_json) out ∧ (after ≤ 900)%N.
Proof.
  pose proof (images_go_oldest_first (H := demo_json) (H0 := demo_json_laws) demo_images 900
                ltac:(repeat constructor)) as Hw.
  destruct (compact_images_to_byte_budget _ _ _) as [[out after] n] eqn:He.
  destruct Hw as (_ & _ & Hi & _ & _ & _ & _ & Hb).
  destruct Hb as [Ha Ht]; [repeat constructor; vm_compute; discriminate|].
  assert (Hn : n = 1) by (apply (f_equal snd) in He; vm_compute in He; congruence).
  rewrite Hn in Hi, Ht. split; [exact Hn|]. split; [exact Hi|]. split; [exact Ha|].
  rewrite Ha. destruct Ht as [Ht|Ht]; [exact Ht|discriminate Ht].
Defined.

(** * Recent turns *)

Lemma prune_rev_recent p turn (seen : bool) recent older : 0 < keep_last_n_turns p →
  turn + (user_items recent - (if seen then 0 else 1)) < keep_last_n_turns p →
  take (length recent) (prune_rev p turn seen (recent ++ older)) = recent.
Proof.
  intros Hk. revert turn seen. induction recent as [|i recent IH]; intros turn seen Ht; [done|].
  destruct i as [| | |t| |]; simpl; f_equal; try (by apply IH).
  - apply IH. unfold user_items in *. simpl in Ht. destruct seen; lia.
  - unfold prune_result. unfold user_items in *. simpl in Ht. destruct (Nat.ltb_spec turn (keep_last_n_turns p)); [done|lia].
Qed.

(** Pruning the copy for the request never touches the recent turns: the end of the
    conversation that holds as many user messages as turns are kept is sent word for word. *)
Theorem recent_turns_are_kept p older recent :
  0 < keep_last_n_turns p → user_items recent ≤ keep_last_n_turns p →
  drop (length older) (prune_conversation p (older ++ recent)) = recent.
Proof.
  intros Hk Hu. unfold prune_conversation. destruct (enabled p); [|by rewrite drop_app_length].
  rewrite rev_app_distr. set (out := prune_rev p 0 false (rev recent ++ rev older)).
  assert (Hl : length out = length (rev recent ++ rev older)).
  { symmetry. eapply Forall2_length, prune_rev_sent. }
  assert (Ht : take (length (rev recent)) out = rev recent).
  { apply prune_rev_recent; [done|]. unfold user_items in *. rewrite filter_rev, length_rev. lia. }
  rewrite <-(take_drop (length (rev recent)) out), rev_app_distr, Ht, rev_involutive.
  rewrite drop_app_length'; [done|]. rewrite length_rev, length_drop, Hl, length_app, !length_rev. lia.
Qed.
Lemma recent_turns_are_kept_witness :
  let older := [demo_says [demo_call "a"]; tool_result (lit "a") (repeat 65%N 5000)] in
  let recent := [CUser (mkUser [PText (lit "again")] None None None None); tool_result (lit "b") (repeat 66%N 5000)] in
  let p := mkPruning true 1 4000 1500 1500 0 in
  drop 2 (prune_conversation p (older ++ recent)) = recent ∧ prune_conversation p (older ++ recent ++ recent) ≠ older ++ recent ++ recent.
Proof.
  intros older recent p. split.
  - apply (recent_turns_are_kept p older recent); vm_compute; lia.
  - vm_compute. discriminate.
Defined.

Lemma request_answers_every_call_witness :
  let env := {| conversation_json_bytes _ := 0%N; part_json_bytes _ := 0%N |} : ChatEnv in
  let c := append (demo_says [demo_call "a"]) demo_start in
  ∃ c' request, handle_command (H := env) (BuildConversationRequest [] None false [] []) c = Some (c', ReplyRequest request)
                ∧ answered (rq_items request) ∧ length (rq_items request) = 3.
Proof.
  intros env c. destruct (handle_command (H := env) (BuildConversationRequest [] None false [] []) c) as [[c' r]|] eqn:Hc;
    [|vm_compute in Hc; discriminate Hc].
  destruct r as [|request| | | |]; try (vm_compute in Hc; discriminate Hc). exists c', request.
  split; [reflexivity|]. split.
  - refine (proj1 (request_answers_every_call [] None false [] [] c c' request _ Hc)).
    repeat constructor; simpl; repeat constructor; vm_compute; set_solver.
  - vm_compute in Hc. injection Hc as <- <-. reflexivity.
Defined.
